(* ===== verification/_CoqProject ===== *)
-Q . S2P
Prelude.v
Explore.v
AtomicData.v
AtomicPrograms.v
AtomicNotifyAll.v
AtomicSections.v
AtomicTimedWait.v
AtomicNumbers.v
BlockingQueue.v
BlockingQueueLocks.v
QueueTests.v
Tag.v
StreamRpcHandler.v
StreamRpcSystem.v
StreamRpcProgress.v
StreamRpcShutdown.v
RpcHandler.v
NonStreamRpcHandler.v
GrpcAsyncServer.v
ServerLifetime.v
GrpcClientStream.v
GrpcClient.v
ClientCallbacks.v
ClientTests.v
GrpcServer.v
ServerTests.v
Bits.v
Comparison.v
ErrorResult.v
ErrorTests.v
Diagnostics.v
Utilities.v
GuardPrograms.v
ExampleTagger.v
ExampleAsyncServer.v
NewArchServer.v
ExampleStreamHandler.v
ExampleClock.v
ExampleServer.v
NewArchExample.v
TaskClient.v
ExampleClient.v
NewArchClient.v
UnaryRpcClient.v
UnaryCalls.v
