(* ===== verification/Prelude.v ===== *)
(** * A verification library for gRPC Wrapper

    gRPC Wrapper puts classes with callbacks in front of gRPC's C++ interface:
    an asynchronous server whose rpcs are registered as functions, a client
    that follows the state of its connection and restarts its streams, and the
    concurrent data structures underneath. This library models these classes
    and proves what makes them correct, down to the interleavings of their
    threads. Paths below are relative to [src/].

    ** The program and its model

    - [include/grpcw/util/atomic_data.hpp] (and the newer copy under
      [ltb-util/]): data behind a mutex and a condition variable. File
      [AtomicData], the threads interleaved at every access to the data. Programs
      on top of it, which are the tests in
      [ltb-util/src/ltb/util/atomic_data.cpp]: files [AtomicPrograms] (any
      program of client threads; the test with interleaved waits),
      [AtomicNotifyAll], [AtomicTimedWait] (the test of the waiting time, with
      a clock) and [AtomicNumbers] (the threads that count in
      [src/testing/util/atomic_data_tests.cpp]). File [AtomicSections] shows that any such program may be analysed
      as if its calls were single steps.
    - [include/grpcw/util/blocking_queue.hpp] (and its copy): file
      [BlockingQueue], the bodies as functions and their interleaving; file
      [BlockingQueueLocks], the same statement by statement with the mutex.
    - [include/grpcw/server/detail/tag.hpp], [src/grpcw/server/detail/tag.cpp]:
      file [Tag], with the class [TagStore] that the handlers rely on.
    - [include/grpcw/server/detail/stream_rpc_handler.hpp] and
      [stream_rpc_handler_callback_setter.hpp]: file [StreamRpcHandler] has the
      shared data ([Connections]) and one function per critical section
      ([activate_next], [write], [finish], [synchronize]), which return the new
      data and the calls they make; file [StreamRpcSystem] runs them: writers,
      the server's thread, [run_synchronization] and gRPC; file
      [StreamRpcProgress] shows that their calls return; file
      [StreamRpcShutdown] runs that system to the end of the destructor.
    - [include/grpcw/server/detail/async_rpc_handler_interface.hpp]: file
      [RpcHandler], the class [AsyncRpcHandlerInterface], implemented by the
      streaming handler there and by [non_stream_rpc_handler.hpp] in file
      [NonStreamRpcHandler]; [RpcHandler.AnyRpc] puts handlers of two kinds
      behind it.
    - [include/grpcw/server/grpc_async_server.hpp]: file [GrpcAsyncServer],
      proved against that interface; file [ServerLifetime] joins the server with
      the destructors of its handlers, against the class [ClosableHandler], which
      both kinds of handlers implement.
    - [include/grpcw/client/grpc_client_stream.hpp]: file [GrpcClientStream];
      [grpc_client.hpp] and [grpc_client_state.hpp]: file [GrpcClient], whose
      shared data owns the streams; file [ClientCallbacks] takes the critical
      section apart in which the client joins the threads of its streams.
    - [src/grpcw/server/grpc_server.cpp], [scoped_grpc_server.cpp] and
      [src/testing/test_service.cpp]: file [GrpcServer].
    - [ltb-util/]: files [Bits] (floating-point comparison on bit patterns,
      flags, hashes), [Comparison] (the comparison by arithmetic), [ErrorResult]
      (errors, results, reading files, CUDA and OptiX checks), [ErrorTests] (the
      unit tests of errors and strings), [Diagnostics]
      (names of types, timers), [Utilities] (containers, guards) and
      [GuardPrograms] (which guards compile, and the test of the guards).
    - [example/src/]: files [ExampleTagger] (the second tag store),
      [ExampleAsyncServer] ([server/async_server.hpp] and
      [server/unary_rpc_handler.hpp]) and [NewArchServer], its use in
      [server/new_arch_server.cpp]; [ExampleStreamHandler]
      ([server/server_stream_rpc_handler.hpp]); [ExampleClock], the display of the
      time, and [ExampleServer], the server of [example_server.cpp] made of
      [GrpcAsyncServer] with handlers of both kinds, the ticker and [main];
      [NewArchExample], the cut-down copy of that server in
      [server/new_arch_server.cpp]; [TaskClient] ([client/client.hpp]);
      [ExampleClient] ([example_client.cpp] on top of [GrpcClient]);
      [NewArchClient], the class and the console of [client/new_arch_client.cpp],
      and [UnaryRpcClient], the program there around
      [client/unary_rpc_handler.hpp]; [UnaryCalls] joins the unary handlers of
      both sides, with the messages that gRPC carries between them.
    - [src/testing/]: the tests as programs that run on the models above, next to
      the other threads and against gRPC: [ClientTests]
      ([grpcw/client/grpc_client_tests.cpp], on [GrpcClient] and [BlockingQueue]),
      [QueueTests] ([util/blocking_queue_tests.cpp]), [ServerTests]
      ([grpcw/server/grpc_server_tests.cpp] and [test_server.cpp]). They have
      finitely many states, which file [Explore] computes: its table of states is
      closed under the steps, so what is checked of every entry holds of every
      schedule.

    ** How the code is translated

    Members of a class become the fields of a [Record]; a method becomes a
    function on it. What can go wrong is a value of [fault]: an exception that
    leaves the function, a failed assertion, [std::terminate], or an undefined
    access. A class used by several threads is a transition system: a state with
    the program counter of every thread, and [exec], an executable function from
    a state and an action to the next state, where [None] means that the thread
    has to wait or the action does not apply. [reachable] closes the initial
    state under these steps, so a theorem about reachable states covers every
    interleaving. A critical section of [AtomicData] is one step everywhere
    else, which [linearizable] in [AtomicData] and [programs_refine_atomic_calls]
    in [AtomicSections] justify; the waiting, the waking and the notifications
    outside of the lock are steps of their own.
    Conditions on the environment are part of the step relation
    ([exec_step_ok], [env_step], [restrict]).

    gRPC is not modelled but assumed, always as an arbitrary choice: a
    completion queue returns outstanding operations in any order and with any
    result, [Next] returns false when the queue is shut down and drained, every
    request for a call is reported once, [Shutdown] of a server returns when no
    call is open. [operator new] is any function that returns an address that is
    not in use ([StreamRpcHandler.allocator_ok]); addresses are reused, which
    matters for several theorems. Condition variables may wake up spuriously.
    The users' callbacks are arbitrary functions; in the clients, apart from
    [ClientCallbacks], they do not call back into the object that calls them.

    ** What is proved

    - Concurrent data: [AtomicData] is linearizable, its lock excludes, and a
      program refines the one in which its calls are single steps; the
      queue is first-in first-out, loses no wake-up and serves its consumers; at
      the level of its statements it refines the queue of atomic operations, and
      its critical sections end. The programs that test these classes end in
      every schedule and pass, the one that measures time under the assumption
      that no time passes while a thread can go on, and the one of counting
      threads unless a thread comes too late to its wait.
    - Server: handlers and outstanding calls correspond one to one, so the
      lookup of a tag never throws; the destructor returns, also if one counts
      the threads of the handlers that it destroys; simple requests are
      answered once, in order; in a streaming handler every stream has at most
      one operation outstanding, under a tag that is redeemed once, broadcasts
      reach every stream, the calls of writers return as long as the clients they
      name are connected, and clients are deleted once if gRPC reports in the order
      that the comments expect; its destructor returns and leaves no client
      behind.
    - Client: the connection callback reports exactly the changes of the state,
      streams run exactly while the client is connected, killing the client
      terminates and leaves it disconnected, no thread object is destroyed while
      it is joinable. The tests of the client pass in every schedule and whatever
      gRPC reports within its documentation.
    - Utilities: specifications of the helpers on machine words, floating-point
      numbers, strings, errors, containers and guards, among them when a guard
      is well typed and that the arithmetic on durations does not overflow.
    - Examples: the servers and clients of the example programs; the example
      server is shown to be a run of [GrpcAsyncServer], its ticker ends, and
      [main] of the newer server returns if its initialization is over. Unary
      calls reach the user of the server and come back to the callback of the
      client that made them, with any number of calls at once.
    - Counterexamples: where the code does not do what it means to, a theorem
      exhibits a reachable state: the second deletion of a stream
      ([deletion_uses_freed_stream]), the deletion of a new client at an old
      address, the writer that is forgotten, the activation on a queue that was
      shut down, [use_stub] on a deleted stub, the deadlock of a client whose
      stream callbacks call it, streams that never start on a
      server in the same process, the handler that [shutdown_and_wait] deletes
      ([stream_destroyed_by_shutdown]), the example server whose destructor waits for
      itself or runs before its initialization ([enter_too_early]), the example
      client that cancels a deleted context, the comparison that depends on the
      order of its arguments ([comparisons_disagree]), the thread that starts to
      wait after its notification ([late_thread_hangs]). Two more show that an
      assumption is needed: new channels have to be idle for the test that changes
      to the server in the process and back
      ([in_process_test_needs_idle_channel]), and a unary handler of the client is
      sent once ([second_send_uses_freed_handler]).

    Theorems with hypotheses are followed by a lemma [..._witness] that applies
    them to a concrete run.

    ** Fuel and bounds

    Transition systems need no fuel. [GrpcClientStream.run_thread] is given one
    round per update that is left and one for the end ([rounds]), which
    [run_thread_all] shows to be enough; [GrpcServer.endless_echo_stream],
    [ExampleClock.ticker] and [ExampleClient.loop] are proved to finish with the
    stated number of rounds; [Utilities.remove_if] counts the elements.
    [Explore.explored] is given more fuel than there are states, and its result is
    checked to be closed, so that a table that is too small would not pass. Words
    have their width: 32 and 64 bits in [Bits], the widths that the standard
    guarantees for durations in [ExampleClock]. [Diagnostics.Timers.to_string]
    is exact below 2^52 nanoseconds.

    ** What is not modelled

    Protocol buffers, sockets and gRPC's own scheduling; the bodies of the
    generated stubs; printing, apart from the texts that are computed; deadlines
    of [NotifyOnStateChange] (an expired deadline is a notification with
    [result_ok] false) and of [force_shutdown_in]; data races on members that
    are not locked; the demangler of the run-time library, the wrappers of
    [std::visit], the build files; of the tests, those of protocol buffers and the
    one of the endless stream, which depends on how far gRPC runs ahead of its
    cancellation. [programs_refine_atomic_calls] is not instantiated with the
    client or the streaming handler: the threads of streams change their stream
    without the lock, and waiting writers have notifications of their own, so
    neither is a program whose threads share nothing but the locked data. Their
    critical sections are steps by the same argument, but without a proof here. In
    [GrpcClient] the join of a stream's thread is part of the critical section, so
    the stream callbacks there do not call the client; [ClientCallbacks] shows
    what happens if they do. [UnaryRpcClient] and the console of [NewArchClient]
    model code that the preprocessor disables at present. *)

From Stdlib Require Import ZArith Lia.
From stdpp Require Export prelude gmap strings.

(** ** Failures of the C++ code

    One constructor per way in which the modelled code can stop working: an
    exception that leaves the function, an [assert] that does not hold, a
    call of [std::terminate], or an access the language leaves undefined. *)
Inductive fault : Type :=
| assert_failed
| out_of_range
| invalid_argument (what : string)
| runtime_error (what : string)
| null_dereference
| use_after_free
| front_of_empty
| queue_shut_down (* an operation on a completion queue after its [Shutdown] *)
| relock (* a thread locks a mutex that it holds *)
| std_terminate.

Inductive outcome (A : Type) : Type :=
| Ret (a : A)
| Fault (e : fault).
Arguments Ret {A} a.
Arguments Fault {A} e.

#[global] Instance outcome_ret : MRet outcome := @Ret.
#[global] Instance outcome_bind : MBind outcome := λ A B f m,
  match m with Ret a => f a | Fault e => Fault e end.

#[global] Instance fault_eq_dec : EqDecision fault.
Proof. solve_decision. Defined.

(** ** Memory addresses

    A [void*] is a number; [nullptr] is 0.  Objects on the heap are the keys
    of the maps that own them. *)
Abbreviation addr := N.
Definition nullptr : addr := 0%N.

(** [std::unordered_map::emplace]: an existing key keeps its value. *)
Definition emplace {A} (k : addr) (v : A) (m : gmap addr A) : gmap addr A :=
  match m !! k with Some _ => m | None => <[k := v]> m end.

(** An address above all that are used, for concrete runs of [operator new]. *)
Definition next_address (used : gset addr) : addr := N.succ (set_fold N.max 0%N used).

Lemma next_address_fresh used : next_address used ∉ used.
Proof.
  unfold next_address.
  assert (∀ k, k ∈ used → (k <= set_fold N.max 0 used)%N) as H.
  { apply (set_fold_ind_L (λ b X, ∀ k, k ∈ X → (k <= b)%N)).
    - intros k. set_solver.
    - intros x X b _ IH k [->%elem_of_singleton|Hk]%elem_of_union; [lia|].
      specialize (IH k Hk). lia. }
  intros Hin. specialize (H _ Hin). lia.
Qed.

(** ** Transition systems

    [reachable] closes a set of initial states under a labelled step relation;
    [execution] keeps the labels. *)
Section Transitions.
Context {S L : Type} (init : S → Prop) (step : S → L → S → Prop).

Inductive reachable : S → Prop :=
| reachable_init s : init s → reachable s
| reachable_step s l s' : reachable s → step s l s' → reachable s'.

Inductive execution : S → list L → S → Prop :=
| execution_nil s : execution s [] s
| execution_cons s l s' ls s'' :
    step s l s' → execution s' ls s'' → execution s (l :: ls) s''.

Lemma reachable_execution s ls s' :
  reachable s → execution s ls s' → reachable s'.
Proof. intros Hr He. induction He; eauto using reachable_step. Qed.

(** The proof rule of every safety property below. *)
Lemma reachable_invariant (I : S → Prop) :
  (∀ s, init s → I s) →
  (∀ s l s', I s → step s l s' → I s') →
  ∀ s, reachable s → I s.
Proof. intros H0 Hs s Hr. induction Hr; eauto. Qed.

Lemma execution_app s ls s' ls' s'' :
  execution s ls s' → execution s' ls' s'' → execution s (ls ++ ls') s''.
Proof. intros H1 H2. induction H1; simpl; [done | econstructor; eauto]. Qed.

Lemma execution_snoc s ls s' l s'' :
  execution s ls s' → step s' l s'' → execution s (ls ++ [l]) s''.
Proof. intros. eapply execution_app; [done|]. repeat econstructor. done. Qed.

End Transitions.

(** Runs of an executable step function, for concrete scenarios. *)
Section Exec.
Context {S L : Type} (exec : S → L → option S).

Definition exec_step (s : S) (l : L) (s' : S) : Prop := exec s l = Some s'.

Fixpoint run (s : S) (ls : list L) : option S :=
  match ls with
  | [] => Some s
  | l :: ls => match exec s l with Some s' => run s' ls | None => None end
  end.

Lemma run_cons s l ls :
  run s (l :: ls) = match exec s l with Some s' => run s' ls | None => None end.
Proof. done. Qed.

Lemma run_app s ls ls' :
  run s (ls ++ ls') = match run s ls with Some s' => run s' ls' | None => None end.
Proof. revert s. induction ls as [|l ls IH]; intros s; simpl; [done|]. by destruct (exec s l). Qed.

Lemma run_execution s ls s' : run s ls = Some s' → execution exec_step s ls s'.
Proof.
  revert s. induction ls as [|l ls IH]; intros s; simpl.
  - intros [= ->]. constructor.
  - destruct (exec s l) eqn:E; [|done]. intros. econstructor; eauto.
Qed.

Lemma execution_run s ls s' : execution exec_step s ls s' → run s ls = Some s'.
Proof. induction 1 as [|???? ? H]; simpl; [done|]. by rewrite H. Qed.

Lemma run_reachable (init : S → Prop) s ls s' :
  init s → run s ls = Some s' → reachable init exec_step s'.
Proof.
  intros H0 Hr. eapply reachable_execution; [by apply reachable_init|].
  by apply run_execution.
Qed.

(** Steps whose label satisfies a side condition that is not computed. *)
Definition exec_step_ok (ok : L → Prop) (s : S) (l : L) (s' : S) : Prop :=
  ok l ∧ exec s l = Some s'.

Lemma run_reachable_ok (ok : L → Prop) (init : S → Prop) s ls s' :
  init s → Forall ok ls → run s ls = Some s' → reachable init (exec_step_ok ok) s'.
Proof.
  intros H0 Hok Hr. assert (reachable init (exec_step_ok ok) s) as Hs by by constructor.
  clear H0. revert s Hs Hr. induction Hok as [|l ls ? ? IH]; intros s Hs; simpl.
  - by intros [= <-].
  - destruct (exec s l) as [s1|] eqn:E; [|done]. apply IH. by eapply reachable_step.
Qed.

End Exec.

(** Steps under an assumption on the environment that depends on the state, and
    concrete runs that respect it. *)
Section Env.
Context {S L : Type} (env : S → L → Prop) (exec : S → L → option S).

Definition env_step (s : S) (l : L) (s' : S) : Prop := env s l ∧ exec s l = Some s'.

Fixpoint env_run (s : S) (ls : list L) : Prop :=
  match ls with
  | [] => True
  | l :: ls => env s l ∧ match exec s l with Some s' => env_run s' ls | None => False end
  end.

Lemma env_run_execution s ls s' :
  env_run s ls → run exec s ls = Some s' → execution env_step s ls s'.
Proof.
  revert s. induction ls as [|l ls IH]; intros s; simpl; [intros _ [= ->]; constructor|].
  intros [He Hr]. destruct (exec s l) as [s1|] eqn:E; [|done]. intros Hs.
  eapply execution_cons; [by split|by apply IH].
Qed.

Lemma env_run_reachable (init : S → Prop) s ls s' :
  init s → env_run s ls → run exec s ls = Some s' → reachable init env_step s'.
Proof.
  intros H0 He Hr. eapply reachable_execution; [by apply reachable_init|].
  by apply env_run_execution.
Qed.

End Env.

(** ** Refinement

    A forward simulation: every step of the detailed system is matched by some
    steps of the abstract one, none if the abstract system does not see it. *)
Section Simulation.
Context {S1 L1 S2 L2 : Type}.
Context (init1 : S1 → Prop) (step1 : S1 → L1 → S1 → Prop).
Context (init2 : S2 → Prop) (step2 : S2 → L2 → S2 → Prop).
Context (R : S1 → S2 → Prop).

Definition simulation_init : Prop := ∀ c, init1 c → ∃ a, init2 a ∧ R c a.
Definition simulation_step : Prop := ∀ c l c' a,
  R c a → step1 c l c' → ∃ ls a', execution step2 a ls a' ∧ R c' a'.

Lemma simulation_reachable c :
  simulation_init → simulation_step → reachable init1 step1 c →
  ∃ a, reachable init2 step2 a ∧ R c a.
Proof.
  intros Hi Hs. induction 1 as [c H0|c l c' _ (a & Ha & HR) Hl].
  - destruct (Hi c H0) as (a & ? & ?). exists a. by split; [constructor|].
  - destruct (Hs c l c' a HR Hl) as (ls & a' & He & ?). exists a'.
    split; [by eapply reachable_execution|done].
Qed.

End Simulation.

(** A system in which some steps are not taken, for assumptions on the
    environment or on how the program is used. *)
Definition restrict {S L} (allowed : S → L → bool) (exec : S → L → option S)
    (s : S) (l : L) : option S :=
  if allowed s l then exec s l else None.

Lemma restrict_inv {S L} allowed (exec : S → L → option S) s l s' :
  restrict allowed exec s l = Some s' → allowed s l = true ∧ exec s l = Some s'.
Proof. unfold restrict. by destruct (allowed s l). Qed.

Lemma reachable_restrict {S L} allowed (exec : S → L → option S) ok init s :
  reachable init (exec_step_ok (restrict allowed exec) ok) s →
  reachable init (exec_step_ok exec ok) s.
Proof.
  intros Hr. induction Hr as [|s l s' _ IH [? [_ ?]%restrict_inv]]; [by constructor|].
  by eapply reachable_step.
Qed.

Lemma run_restrict {S L} allowed (exec : S → L → option S) s ls s' :
  run (restrict allowed exec) s ls = Some s' → run exec s ls = Some s'.
Proof.
  revert s. induction ls as [|l ls IH]; intros s; simpl; [done|].
  destruct (restrict allowed exec s l) as [s1|] eqn:E; [|done].
  apply restrict_inv in E as [_ ->]. apply IH.
Qed.

(** ** Thread pools

    The program counters of the threads of a monitor, indexed by thread;
    [count P] is the number of threads in a phase that satisfies [P]. *)
Section ThreadPool.
Context {A : Type}.

Definition indicator (P : A → bool) (a : A) : nat := if P a then 1 else 0.

Fixpoint count (P : A → bool) (l : list A) : nat :=
  match l with [] => 0 | a :: l => indicator P a + count P l end.

Lemma count_insert P l i a b :
  l !! i = Some a →
  count P (<[i := b]> l) + indicator P a = count P l + indicator P b.
Proof.
  revert i. induction l as [|x l IH]; intros [|i]; simpl; [done..| |].
  - intros [= ->]. lia.
  - intros H. specialize (IH i H). lia.
Qed.

Lemma count_pos P l i a : l !! i = Some a → P a = true → 0 < count P l.
Proof.
  revert i. induction l as [|x l IH]; intros [|i]; simpl; [done..| |].
  - intros [= ->] H. unfold indicator. rewrite H. lia.
  - intros H1 H2. specialize (IH i H1 H2). lia.
Qed.

Lemma count_pos_inv P l : 0 < count P l → ∃ i a, l !! i = Some a ∧ P a = true.
Proof.
  induction l as [|x l IH]; simpl; [lia|].
  unfold indicator. destruct (P x) eqn:E; intros H.
  - by exists 0, x.
  - destruct IH as (i & a & ? & ?); [lia|]. by exists (S i), a.
Qed.

Lemma count_app P l k : count P (l ++ k) = count P l + count P k.
Proof. induction l; simpl; lia. Qed.

(** A potential that is the sum of the potentials of the threads. *)
Lemma sum_list_insert (f : A → nat) l i a b :
  l !! i = Some a →
  sum_list (f <$> <[i := b]> l) + f a = sum_list (f <$> l) + f b.
Proof.
  revert i. induction l as [|x l IH]; intros [|i]; csimpl; [done..| |].
  - intros [= ->]. lia.
  - intros H. specialize (IH i H). lia.
Qed.

(** [std::condition_variable::notify_one]: wakes the thread [woken], which has
    to be one of those that sleep, or nobody if none does. *)
Definition pool_notify_one (sleeping : A → bool) (wake : A → A) (woken : option nat)
    (l : list A) : option (list A) :=
  match woken with
  | None => if count sleeping l is 0 then Some l else None
  | Some j =>
      match l !! j with
      | Some c => if sleeping c then Some (<[j := wake c]> l) else None
      | None => None
      end
  end.

Lemma pool_notify_one_inv sleeping wake woken l l' :
  pool_notify_one sleeping wake woken l = Some l' →
  (l' = l ∧ count sleeping l = 0) ∨
  ∃ j c, l !! j = Some c ∧ sleeping c = true ∧ l' = <[j := wake c]> l.
Proof.
  unfold pool_notify_one. destruct woken as [j|].
  - destruct (l !! j) as [c|] eqn:Hj; [|done]. destruct (sleeping c) eqn:?; [|done].
    intros [= <-]. eauto 10.
  - destruct (count sleeping l); naive_solver.
Qed.

Lemma pool_notify_one_total sleeping wake l :
  ∃ woken l', pool_notify_one sleeping wake woken l = Some l'.
Proof.
  destruct (count sleeping l) eqn:Hc.
  - exists None, l. simpl. by rewrite Hc.
  - destruct (count_pos_inv sleeping l) as (j & c & Hj & Hs); [lia|].
    exists (Some j). eexists. simpl. by rewrite Hj, Hs.
Qed.

End ThreadPool.

(** ** Automation *)
Create HintDb grpcw.

#[export] Hint Constructors reachable execution : grpcw.

(** Splits the [outcome] of a sub-computation that a hypothesis inspects. *)
Ltac destruct_outcome :=
  match goal with
  | H : context [match ?m with Ret _ => _ | Fault _ => _ end] |- _ =>
      let E := fresh "E" in destruct m eqn:E; simplify_eq/=
  end.

(** ** Maps *)
Lemma emplace_fresh {A} k (v : A) m : m !! k = None → emplace k v m = <[k := v]> m.
Proof. unfold emplace. by intros ->. Qed.

Lemma emplace_present {A} k (v w : A) m : m !! k = Some w → emplace k v m = m.
Proof. unfold emplace. by intros ->. Qed.

Lemma dom_emplace {A} k (v : A) m : dom (emplace k v m) = {[k]} ∪ dom m.
Proof.
  unfold emplace. destruct (m !! k) eqn:E; [|by rewrite dom_insert_L].
  apply elem_of_dom_2 in E. set_solver.
Qed.

Lemma lookup_emplace_ne {A} k k' (v : A) m : k ≠ k' → emplace k v m !! k' = m !! k'.
Proof. unfold emplace. intros. destruct (m !! k); [done|]. by rewrite lookup_insert_ne. Qed.

Lemma size_delete_le {A} k (m : gmap addr A) : size (delete k m) <= size m.
Proof. rewrite map_size_delete. destruct (m !! k); simpl; [apply Nat.le_pred_l|done]. Qed.

(** ** Sets *)
Lemma size_remove (X : gset addr) k : k ∈ X → S (size (X ∖ {[k]})) = size X.
Proof.
  intros Hk. rewrite size_difference by set_solver. rewrite size_singleton.
  assert (size ({[k]} : gset addr) <= size X) as H by (apply subseteq_size; set_solver).
  rewrite size_singleton in H. lia.
Qed.

(** ** Loops over a map whose body may fail

    [for (auto& pair : map) f(pair.second)]; the order of the iteration of an
    unordered map is not specified, and [map_to_list] is one such order. *)
Definition map_outcome {A B} (f : A → outcome B) (m : gmap addr A) : outcome (gmap addr B) :=
  l ← mapM (λ kx, y ← f kx.2; Ret (kx.1, y)) (map_to_list m);
  Ret (list_to_map l).

Lemma mapM_total {A B} (f : A → outcome B) (g : A → B) l :
  (∀ x, x ∈ l → f x = Ret (g x)) → mapM f l = Ret (g <$> l).
Proof.
  induction l as [|x l IH]; intros H; [done|]. simpl.
  rewrite H by by left. simpl. rewrite IH; [done|]. intros y ?. apply H. by right.
Qed.

Lemma map_outcome_total {A B} (f : A → outcome B) (g : A → B) (m : gmap addr A) :
  (∀ k x, m !! k = Some x → f x = Ret (g x)) → map_outcome f m = Ret (g <$> m).
Proof.
  intros H. unfold map_outcome.
  rewrite (mapM_total _ (λ kx, (kx.1, g kx.2))).
  - simpl. f_equal. by rewrite <-(list_to_map_to_list m) at 2; rewrite <-list_to_map_fmap.
  - intros [k x] Hin%elem_of_map_to_list. simpl. by rewrite (H k x Hin).
Qed.
