(* ===== verification/Explore.v ===== *)
(** * Exploring finite systems

    The programs that test the library have finitely many states for each choice
    of the data, so every schedule of them can be examined: the reachable states
    are computed, and what is checked of each state and each step holds of every
    run. The computation is executable, and its result is a closed table, so the
    fuel that found it does not matter. *)
From S2P Require Import Prelude.

Section Explore.
Context {S L : Type} (exec : S → L → option S).

(** The labels that matter, and a comparison of states that may fail to
    recognize equal states, but not mistake different ones for each other. *)
Context (labels : list L) (same : S → S → bool).

Definition member (s : S) (table : list S) : bool := existsb (same s) table.

(** The successors of [s] that are not yet known, in front of [work]. *)
Definition visit (s : S) (known : list S * list S) : list S * list S :=
  foldl (λ '(work, table) l,
    match exec s l with
    | Some s' => if member s' table then (work, table) else (s' :: work, s' :: table)
    | None => (work, table)
    end) known labels.

Fixpoint explore (fuel : nat) (work table : list S) : list S :=
  match fuel, work with
  | Datatypes.S fuel, s :: work => let '(work, table) := visit s (work, table) in explore fuel work table
  | _, _ => table
  end.

(** The states reached from [s0] by exploring at most [fuel] of them. *)
Definition explored (fuel : nat) (s0 : S) : list S := explore fuel [s0] [s0].

(** [good] holds of every state of the table, [fine] of every step from it, and
    no step leaves it. *)
Definition closed (good : S → bool) (fine : S → L → S → bool) (table : list S) : bool :=
  forallb (λ s, good s && forallb (λ l,
    match exec s l with Some s' => fine s l s' && member s' table | None => true end) labels) table.

Context (same_sound : ∀ s s', same s s' = true → s = s').
Context (labels_complete : ∀ s l s', exec s l = Some s' → l ∈ labels).

Lemma member_elem s table : member s table = true → s ∈ table.
Proof.
  unfold member. intros (s' & Hs & ->%same_sound)%existsb_exists. by apply list_elem_of_In.
Qed.

Section Closed.
Context (good : S → bool) (fine : S → L → S → bool) (table : list S).
Context (Hclosed : closed good fine table = true).

Lemma closed_good s : s ∈ table → good s = true.
Proof.
  intros Hs%list_elem_of_In. unfold closed in Hclosed. rewrite forallb_forall in Hclosed.
  by apply Hclosed in Hs as [? _]%andb_true_iff.
Qed.

Lemma closed_step s l s' :
  s ∈ table → exec s l = Some s' → fine s l s' = true ∧ s' ∈ table.
Proof.
  intros Hs%list_elem_of_In He. unfold closed in Hclosed. rewrite forallb_forall in Hclosed.
  apply Hclosed in Hs as [_ Hl]%andb_true_iff. rewrite forallb_forall in Hl.
  pose proof (labels_complete _ _ _ He) as Hin%list_elem_of_In. apply Hl in Hin.
  rewrite He in Hin. apply andb_true_iff in Hin as [? ?]. split; [done|by apply member_elem].
Qed.

Lemma closed_run s ls s' : s ∈ table → run exec s ls = Some s' → s' ∈ table.
Proof.
  revert s. induction ls as [|l ls IH]; intros s Hs; simpl; [by intros [= <-]|].
  destruct (exec s l) as [s1|] eqn:E; [|done]. apply IH. by eapply closed_step.
Qed.

End Closed.

(** ** Programs that end

    [weight] decreases with every step of the program; a step that only the
    environment can take may add [allowance]. *)
Context (weight : S → nat) (allowance : L → nat).

Definition decreasing (s : S) (l : L) (s' : S) : bool := weight s' <? weight s + allowance l.

(** [strategy] is a schedule that finishes. *)
Context (finished : S → bool) (strategy : S → L).

Fixpoint finishes (fuel : nat) (s : S) : bool :=
  if finished s then true else
  match fuel with
  | 0 => false
  | Datatypes.S fuel =>
      match exec s (strategy s) with Some s' => finishes fuel s' | None => false end
  end.

Lemma finishes_run fuel s :
  finishes fuel s = true →
  ∃ ls s', run exec s ls = Some s' ∧ finished s' = true ∧ length ls ≤ fuel.
Proof.
  revert s. induction fuel as [|fuel IH]; intros s; simpl; destruct (finished s) eqn:Hf; try done.
  - intros _. exists [], s. split_and!; [done..|simpl; lia].
  - intros _. exists [], s. split_and!; [done..|simpl; lia].
  - destruct (exec s (strategy s)) as [s1|] eqn:E; [|done]. intros (ls & s' & Hr & ? & ?)%IH.
    exists (strategy s :: ls), s'. rewrite run_cons, E. split_and!; [done..|simpl; lia].
Qed.

(** Everything that is computed about a program: [safe] holds of its states, it
    can always finish within [bound] steps, and the weights decrease. *)
Definition verified (safe : S → bool) (bound fuel : nat) (s0 : S) : bool :=
  let table := explored fuel s0 in
  member s0 table && closed (λ s, safe s && finishes bound s) decreasing table.

Lemma verified_run safe bound fuel s0 ls s :
  verified safe bound fuel s0 = true → run exec s0 ls = Some s →
  safe s = true ∧ length ls + weight s ≤ weight s0 + sum_list (allowance <$> ls) ∧
  ∃ ls' s', run exec s ls' = Some s' ∧ finished s' = true ∧ length ls' ≤ bound.
Proof.
  unfold verified. generalize (explored fuel s0). intros table.
  intros [H0%member_elem Hc]%andb_true_iff Hr.
  assert (s ∈ table) as Hs by (by eapply closed_run).
  pose proof (closed_good _ _ _ Hc s Hs) as [Hsafe Hfin]%andb_true_iff.
  split_and!; [done| |by apply finishes_run]. clear Hs Hsafe Hfin. revert s0 H0 Hr.
  induction ls as [|l ls IH]; intros s0 H0; simpl; [intros [= <-]; lia|].
  destruct (exec s0 l) as [s1|] eqn:E; [|done]. intros Hr.
  destruct (closed_step _ _ _ Hc s0 l s1 H0 E) as [Hd%Nat.ltb_lt Hs1].
  specialize (IH s1 Hs1 Hr). unfold fmap in *. lia.
Qed.

End Explore.

(** Each step of the environment that [p] selects adds [n] to what is left. *)
Lemma sum_allowance {L} (p : L → bool) n ls :
  sum_list ((λ l, if p l then n else 0) <$> ls) = n * length (filter p ls).
Proof.
  induction ls as [|l ls IH]; [simpl; lia|]. csimpl. rewrite filter_cons. unfold fmap in *.
  destruct (p l); simpl; lia.
Qed.
