(* ===== verification/AtomicData.v ===== *)
(** * Data shared under a mutex and a condition variable

    [src/include/grpcw/util/atomic_data.hpp] and its newer copy
    [src/ltb-util/src/ltb/util/atomic_data.hpp], which adds a waiting time.
    The model interleaves any number of threads that call [use_safely],
    [wait_to_use_safely], [notify_one] and [notify_all] on one object. The
    callbacks are not assumed to be atomic: each is a list of accesses to
    [data_] between which any other thread may run.  *)
From S2P Require Import Prelude.

Module AtomicData.
Section AtomicData.
Context {T : Type}.

(** The callback of a critical section, one function per access to [data_]. *)
Abbreviation func := (list (T → T)).
Abbreviation pred := (T → bool).

Definition apply_func (f : func) (d : T) : T := foldl (λ d g, g d) d f.

(** The waiting time of a call: none, running, or used up. *)
Inductive timer : Type := untimed | ticking | expired.

(** Where a thread is with respect to the object. *)
Inductive pc : Type :=
| Idle
| UseAcquire (f : func)
| WaitAcquire (tm : timer) (p : pred) (f : func)
| WaitTest (tm : timer) (p : pred) (f : func)
| WaitSleep (tm : timer) (p : pred) (f : func)
| Inside (p : option pred) (f rest : func)
| LockAcquire
| Locked.

(** [AtomicData<T>]: [lock_] names the thread that owns the mutex. [history]
    is not part of the program, it records the calls that have returned. *)
Record monitor : Type := mkMonitor {
  data_ : T;
  lock_ : option nat;
  threads : list pc;
  history : list (option pred * func)
}.

(** The constructor: nobody holds the lock, [n] threads know the object. *)
Definition make (d : T) (n : nat) : monitor := mkMonitor d None (replicate n Idle) [].

Definition set_pc (i : nat) (c : pc) (s : monitor) : monitor :=
  mkMonitor (data_ s) (lock_ s) (<[i := c]> (threads s)) (history s).
Definition set_lock (l : option nat) (s : monitor) : monitor :=
  mkMonitor (data_ s) l (threads s) (history s).
Definition set_data (d : T) (s : monitor) : monitor :=
  mkMonitor d (lock_ s) (threads s) (history s).
Definition commit (c : option pred * func) (s : monitor) : monitor :=
  mkMonitor (data_ s) (lock_ s) (threads s) (history s ++ [c]).

Definition is_sleeping (c : pc) : bool :=
  match c with WaitSleep _ _ _ => true | _ => false end.
Definition holds_lock (c : pc) : bool :=
  match c with WaitTest _ _ _ | Inside _ _ _ | Locked => true | _ => false end.

(** A woken waiter has to take the mutex again before it tests its predicate. *)
Definition wake (c : pc) : pc :=
  match c with WaitSleep tm p f => WaitAcquire tm p f | c => c end.

Inductive action : Type :=
| CallUse (f : func)
| CallWait (timed : bool) (p : pred) (f : func)
| Acquire
| Test
| Access
| Return
| NotifyOne (woken : option nat)
| NotifyAll
| SpuriousWakeup
| Timeout
| CallLock
| Unlock.

(** [std::mutex::lock] blocks while another thread owns the mutex. *)
Definition acquire (i : nat) (c : pc) (s : monitor) : option monitor :=
  match lock_ s with
  | None => Some (set_lock (Some i) (set_pc i c s))
  | Some _ => None
  end.

Definition release (i : nat) (c : pc) (s : monitor) : monitor :=
  set_lock None (set_pc i c s).

(** [use_safely]: take the lock, call [func(data_)], release on return. *)
Definition use_safely (i : nat) (a : action) (c : pc) (s : monitor) : option monitor :=
  match a, c with
  | CallUse f, Idle => Some (set_pc i (UseAcquire f) s)
  | Acquire, UseAcquire f => acquire i (Inside None f f) s
  | _, _ => None
  end.

(** [wait_to_use_safely]: [condition_.wait(lock, pred)] tests the predicate
    under the lock and otherwise gives the lock up and sleeps. With a waiting
    time that is used up the call returns after one more test, and [func] is
    not called if it fails. *)
Definition wait_to_use_safely (i : nat) (a : action) (c : pc) (s : monitor) : option monitor :=
  match a, c with
  | CallWait timed p f, Idle =>
      Some (set_pc i (WaitAcquire (if timed then ticking else untimed) p f) s)
  | Acquire, WaitAcquire tm p f => acquire i (WaitTest tm p f) s
  | Test, WaitTest tm p f =>
      if p (data_ s) then Some (set_pc i (Inside (Some p) f f) s)
      else match tm with
           | expired => Some (release i Idle s)
           | _ => Some (release i (WaitSleep tm p f) s)
           end
  | SpuriousWakeup, WaitSleep tm p f => Some (set_pc i (WaitAcquire tm p f) s)
  | Timeout, WaitSleep ticking p f => Some (set_pc i (WaitAcquire expired p f) s)
  | _, _ => None
  end.

(** [lock] of the newer copy returns a [ScopedLock] that keeps the mutex locked
    until it is destroyed. *)
Definition scoped_lock (i : nat) (a : action) (c : pc) (s : monitor) : option monitor :=
  match a, c with
  | CallLock, Idle => Some (set_pc i LockAcquire s)
  | Acquire, LockAcquire => acquire i Locked s
  | Unlock, Locked => Some (release i Idle s)
  | _, _ => None
  end.

(** One access of the callback to [data_], and its return. *)
Definition call_func (i : nat) (a : action) (c : pc) (s : monitor) : option monitor :=
  match a, c with
  | Access, Inside p f (g :: rest) => Some (set_data (g (data_ s)) (set_pc i (Inside p f rest) s))
  | Return, Inside p f [] => Some (commit (p, f) (release i Idle s))
  | _, _ => None
  end.

(** [notify_one] wakes some sleeper if there is one. *)
Definition notify_one (woken : option nat) (s : monitor) : option monitor :=
  match woken with
  | None => if count is_sleeping (threads s) is 0 then Some s else None
  | Some j =>
      match threads s !! j with
      | Some (WaitSleep tm p f) => Some (set_pc j (WaitAcquire tm p f) s)
      | _ => None
      end
  end.

Definition notify_all (s : monitor) : monitor :=
  mkMonitor (data_ s) (lock_ s) (wake <$> threads s) (history s).

(** Thread [i] performs action [a]. *)
Definition exec (s : monitor) (ia : nat * action) : option monitor :=
  let '(i, a) := ia in
  c ← threads s !! i;
  match a, c with
  | NotifyOne woken, Idle => notify_one woken s
  | NotifyAll, Idle => Some (notify_all s)
  | (CallUse _ | Acquire), (Idle | UseAcquire _) => use_safely i a c s
  | (Access | Return), _ => call_func i a c s
  | (CallLock | Unlock), _ | Acquire, LockAcquire => scoped_lock i a c s
  | _, _ => wait_to_use_safely i a c s
  end.

Abbreviation step := (exec_step exec).

(** The object as a client sees it: calls take effect one at a time, and a
    waiting call only takes effect in a state that satisfies its predicate. *)
Definition atomic_step (d : T) (c : option pred * func) (d' : T) : Prop :=
  (∀ p, c.1 = Some p → p d = true) ∧ d' = apply_func c.2 d.

(** The steps by which the holder of the lock leaves its critical section. *)
Definition leave (c : pc) (d : T) : list action :=
  match c with
  | WaitTest tm p f => Test :: if p d then replicate (length f) Access ++ [Return] else []
  | Inside p f rest => replicate (length rest) Access ++ [Return]
  | Locked => [Unlock]
  | _ => []
  end.

(** ** Lemmas *)

Lemma apply_func_app f g d : apply_func (f ++ g) d = apply_func g (apply_func f d).
Proof. apply foldl_app. Qed.

(** What holds of the lock holder: its callback has been run up to [rest] on
    the value [base] that the object had when the lock was taken. *)
Definition holder_ok (base d : T) (c : pc) : Prop :=
  match c with
  | Inside p f rest =>
      (∀ q, p = Some q → q base = true) ∧ ∃ pre, f = pre ++ rest ∧ d = apply_func pre base
  | _ => d = base
  end.

Record inv (d0 : T) (s : monitor) : Prop := {
  inv_owner i c : threads s !! i = Some c → holds_lock c = true → lock_ s = Some i;
  inv_owned i : lock_ s = Some i → ∃ c, threads s !! i = Some c ∧ holds_lock c = true;
  inv_data : ∃ base, execution atomic_step d0 (history s) base ∧
    match lock_ s with
    | None => data_ s = base
    | Some i => ∀ c, threads s !! i = Some c → holder_ok base (data_ s) c
    end
}.

Lemma inv_make d n : inv d (make d n).
Proof.
  split; simpl.
  - intros i c [-> _]%lookup_replicate. done.
  - done.
  - exists d. split; [constructor | done].
Qed.

(** A step of a thread that does not hold the lock and does not take it. *)
Lemma inv_set_pc d0 s i c c' :
  inv d0 s → threads s !! i = Some c → holds_lock c = false → holds_lock c' = false →
  inv d0 (set_pc i c' s).
Proof.
  intros [Ho Hd (base & He & Hb)] Hi Hc Hc'.
  assert (lock_ s ≠ Some i) as Hne.
  { intros Hl. destruct (Hd i Hl) as (c'' & ? & ?). simplify_eq. congruence. }
  assert (∀ j, lock_ s = Some j → <[i := c']> (threads s) !! j = threads s !! j) as Hsame.
  { intros j Hj. apply list_lookup_insert_ne. congruence. }
  split; simpl.
  - intros j cj Hj Hh. destruct (decide (i = j)) as [<-|?].
    + rewrite list_lookup_insert_eq in Hj by by eapply lookup_lt_Some. congruence.
    + rewrite list_lookup_insert_ne in Hj by done. eauto.
  - intros j Hj. rewrite Hsame by done. auto.
  - exists base. split; [done|]. destruct (lock_ s) as [j|]; [|done].
    intros cj. rewrite Hsame by done. apply Hb.
Qed.

(** A step of the lock holder inside its critical section. *)
Lemma inv_inside d0 s i c c' d :
  inv d0 s → threads s !! i = Some c → holds_lock c = true → holds_lock c' = true →
  (∀ base, holder_ok base (data_ s) c → holder_ok base d c') →
  inv d0 (set_data d (set_pc i c' s)).
Proof.
  intros [Ho Hd (base & He & Hb)] Hi Hc Hc' Hok.
  pose proof (Ho _ _ Hi Hc) as Hl. rewrite Hl in Hb.
  assert (<[i := c']> (threads s) !! i = Some c') as Hi'.
  { apply list_lookup_insert_eq. by eapply lookup_lt_Some. }
  split; simpl.
  - intros j cj Hj Hh. destruct (decide (i = j)) as [<-|?]; [done|].
    rewrite list_lookup_insert_ne in Hj by done. eauto.
  - intros j Hj. assert (j = i) as -> by congruence. eauto.
  - exists base. split; [done|]. rewrite Hl, Hi'. intros ? [= <-]. by apply Hok, Hb.
Qed.

(** Taking the lock. *)
Lemma inv_acquire d0 s i c c' s' :
  inv d0 s → threads s !! i = Some c → holds_lock c' = true →
  (∀ d, holder_ok d d c') → acquire i c' s = Some s' → inv d0 s'.
Proof.
  unfold acquire. intros [Ho Hd (base & He & Hb)] Hi Hc' Hok Ha.
  destruct (lock_ s) as [|] eqn:Hl; simplify_eq.
  assert (<[i := c']> (threads s) !! i = Some c') as Hi'.
  { apply list_lookup_insert_eq. by eapply lookup_lt_Some. }
  split; simpl.
  - intros j cj Hj Hh. destruct (decide (i = j)) as [<-|?]; [done|].
    rewrite list_lookup_insert_ne in Hj by done. by specialize (Ho j cj Hj Hh).
  - intros j [= <-]. eauto.
  - exists (data_ s). split; [done|]. rewrite Hi'. intros ? [= <-]. apply Hok.
Qed.

(** Releasing it: either the predicate failed or the callback is complete. *)
Lemma inv_release d0 s i c c' h :
  inv d0 s → threads s !! i = Some c → holds_lock c = true → holds_lock c' = false →
  (∀ base, execution atomic_step d0 (history s) base → holder_ok base (data_ s) c →
    execution atomic_step d0 (history s ++ h) (data_ s)) →
  inv d0 (mkMonitor (data_ s) None (<[i := c']> (threads s)) (history s ++ h)).
Proof.
  intros [Ho Hd (base & He & Hb)] Hi Hc Hc' Hh.
  pose proof (Ho _ _ Hi Hc) as Hl. rewrite Hl in Hb.
  split; simpl; [|done|].
  - intros j cj Hj Hhold. destruct (decide (i = j)) as [<-|?].
    + rewrite list_lookup_insert_eq in Hj by by eapply lookup_lt_Some. congruence.
    + rewrite list_lookup_insert_ne in Hj by done. specialize (Ho j cj Hj Hhold). congruence.
  - exists (data_ s). split; [|done]. eauto.
Qed.

Lemma holds_wake c : holds_lock (wake c) = holds_lock c.
Proof. by destruct c. Qed.

Lemma inv_notify_all d0 s : inv d0 s → inv d0 (notify_all s).
Proof.
  intros [Ho Hd (base & He & Hb)]. split; simpl.
  - intros i c. rewrite list_lookup_fmap. intros (c' & ? & ->)%fmap_Some.
    rewrite holds_wake. eauto.
  - intros i Hi. destruct (Hd i Hi) as (c & Hc & ?).
    exists (wake c). rewrite holds_wake, list_lookup_fmap. split; [|done]. by rewrite Hc.
  - exists base. split; [done|]. destruct (lock_ s) as [i|] eqn:Hl; [|done].
    intros c. rewrite list_lookup_fmap. intros (c' & Hc' & ->)%fmap_Some.
    destruct (Hd i eq_refl) as (c'' & ? & ?). simplify_eq.
    destruct c'; simpl in *; try done; by apply (Hb _ Hc').
Qed.

(** Giving the lock up without having changed the data. *)
Lemma inv_unlock d0 s i c c' :
  inv d0 s → threads s !! i = Some c → holds_lock c = true → holds_lock c' = false →
  (∀ base d, holder_ok base d c → d = base) → inv d0 (release i c' s).
Proof.
  intros Hinv Hi Hc Hc' Hok. unfold release, set_lock, set_pc; simpl.
  rewrite <-(app_nil_r (history s)). eapply inv_release; [done|exact Hi|done..|].
  intros base ? ->%Hok. by rewrite app_nil_r.
Qed.

Lemma inv_exec d0 s ia s' : inv d0 s → exec s ia = Some s' → inv d0 s'.
Proof.
  destruct ia as [i a]. intros Hinv. unfold exec.
  destruct (threads s !! i) as [c|] eqn:Hi; simpl; [|done].
  destruct a, c; simpl; intros Hs; simplify_eq;
    try (by eapply inv_set_pc; [done|exact Hi|..]).
  - eapply inv_acquire; [done|exact Hi|..|done]; [done|]. intros d. split; [done|]. by exists [].
  - by eapply inv_acquire; [done|exact Hi|..|done].
  - by eapply inv_acquire; [done|exact Hi|..|done].
  - destruct (p (data_ s)) eqn:Hp; simplify_eq.
    + eapply (inv_inside d0 s i _ (Inside (Some p) f f) (data_ s)); [done|exact Hi|done..|].
      simpl. intros base <-. split; [by intros q [= <-]|]. by exists [].
    + destruct tm; simplify_eq; by eapply inv_unlock; [done|exact Hi|..].
  - destruct rest as [|g rest]; simplify_eq.
    eapply inv_inside; [done|exact Hi|done..|].
    intros base (Hp & pre & -> & ->). split; [done|].
    exists (pre ++ [g]). by rewrite <-app_assoc, apply_func_app.
  - destruct rest as [|g rest]; simplify_eq.
    unfold commit, release, set_lock, set_pc; simpl.
    eapply inv_release; [done|exact Hi|done..|].
    intros base He (Hp & pre & -> & Hd). rewrite app_nil_r.
    eapply execution_snoc; [done|]. by split.
  - destruct woken as [j|]; simpl in Hs; [|by case_match; simplify_eq].
    destruct (threads s !! j) as [[]|] eqn:Hj; simplify_eq.
    by eapply inv_set_pc; [done|exact Hj|..].
  - by apply inv_notify_all.
  - destruct tm; simplify_eq. by eapply inv_set_pc; [done|exact Hi|..].
  - by eapply inv_unlock; [done|exact Hi|..].
Qed.

Lemma reachable_inv d0 n s : reachable (λ s, s = make d0 n) step s → inv d0 s.
Proof.
  apply reachable_invariant.
  - intros ? ->. apply inv_make.
  - intros. by eapply inv_exec.
Qed.

(** *** Leaving a critical section *)

(** Running the rest of the callback and returning, all by the holder. *)
Lemma run_func i p f rest s :
  threads s !! i = Some (Inside p f rest) →
  ∃ s', run exec s ((i,.) <$> (replicate (length rest) Access ++ [Return])) = Some s' ∧
    lock_ s' = None ∧ data_ s' = apply_func rest (data_ s) ∧
    history s' = history s ++ [(p, f)].
Proof.
  revert s. induction rest as [|g rest IH]; intros s Hi; simpl.
  - unfold exec. rewrite Hi. simpl. by eexists.
  - unfold exec at 1. rewrite Hi. simpl.
    destruct (IH (set_data (g (data_ s)) (set_pc i (Inside p f rest) s))) as (s' & Hr & ? & ? & ?).
    + apply list_lookup_insert_eq. by eapply lookup_lt_Some.
    + by exists s'.
Qed.

(** What the invariant says when nobody is in a critical section. *)
Lemma inv_unlocked d0 s :
  inv d0 s → lock_ s = None → execution atomic_step d0 (history s) (data_ s).
Proof. intros [_ _ (base & ? & Hb)] Hl. rewrite Hl in Hb. by rewrite Hb. Qed.

(** An invariant of the single operations is one of the interleaved object. *)
Lemma execution_preserves (I : T → Prop) d0 h d :
  execution atomic_step d0 h d → I d0 →
  (∀ d c, c ∈ h → I d → (∀ p, c.1 = Some p → p d = true) → I (apply_func c.2 d)) → I d.
Proof.
  induction 1 as [|d c d' h d'' [Hp ->] He IH]; [done|]. intros H0 Hstep.
  apply IH; [|set_solver]. apply Hstep; [left|done..].
Qed.

Lemma leave_correct d0 s i :
  inv d0 s → lock_ s = Some i →
  ∃ c s', threads s !! i = Some c ∧
    run exec s ((i,.) <$> leave c (data_ s)) = Some s' ∧ lock_ s' = None.
Proof.
  intros Hinv Hl. destruct (inv_owned _ _ Hinv i Hl) as (c & Hi & Hc). exists c.
  destruct c as [| | |tm p f| |p f rest| |]; try done.
  - simpl. unfold exec at 1. rewrite Hi. simpl.
    destruct (p (data_ s)) eqn:Hp.
    + destruct (run_func i (Some p) f f (set_pc i (Inside (Some p) f f) s)) as (s' & Hr & ? & _).
      * apply list_lookup_insert_eq. by eapply lookup_lt_Some.
      * by exists s'.
    + destruct tm; by eexists.
  - destruct (run_func i p f rest s Hi) as (s' & Hr & ? & _). by exists s'.
  - simpl. unfold exec. rewrite Hi. by eexists.
Qed.

End AtomicData.
Arguments pc : clear implicits.
Arguments monitor : clear implicits.
Arguments action : clear implicits.

(** ** Properties *)

(** Mutual exclusion.  In no interleaving are two threads inside a
    critical section, or testing a predicate, at the same time. *)
Theorem mutual_exclusion {T} (d0 : T) n s i j c c' :
  reachable (λ s, s = make d0 n) (exec_step exec) s →
  threads s !! i = Some c → threads s !! j = Some c' →
  holds_lock c = true → holds_lock c' = true → i = j.
Proof.
  intros Hr Hi Hj Hc Hc'. apply reachable_inv in Hr.
  pose proof (inv_owner _ _ Hr i c Hi Hc). pose proof (inv_owner _ _ Hr j c' Hj Hc'). congruence.
Qed.

(** C21: the object refines its sequential specification.  However the threads
    interleave, the data is the result of running the callbacks that have
    returned one after the other, in the order in which they returned, each
    waiting call in a state that satisfies its predicate; and the callback in
    progress, if any, has been run on exactly that result, with its predicate
    true when it was entered. *)
Theorem linearizable {T} (d0 : T) n s :
  reachable (λ s, s = make d0 n) (exec_step exec) s →
  ∃ base, execution atomic_step d0 (history s) base ∧
    (lock_ s = None → data_ s = base) ∧
    ∀ i p f rest, threads s !! i = Some (Inside p f rest) →
      (∀ q, p = Some q → q base = true) ∧
      ∃ before, f = before ++ rest ∧ data_ s = apply_func before base.
Proof.
  intros Hr. apply reachable_inv in Hr. destruct (inv_data _ _ Hr) as (base & He & Hb).
  exists base. split; [done|]. split.
  - intros Hl. by rewrite Hl in Hb.
  - intros i p f rest Hi. rewrite (inv_owner _ _ Hr i _ Hi eq_refl) in Hb. apply (Hb _ Hi).
Qed.

(** A critical section always ends.  In every interleaving, the thread that
    owns the mutex is not blocked by anything: its own next steps, the remaining
    accesses of its callback and the return, release the mutex. *)
Theorem holder_leaves {T} (d0 : T) n s i :
  reachable (λ s, s = make d0 n) (exec_step exec) s → lock_ s = Some i →
  ∃ c s', threads s !! i = Some c ∧
    run exec s ((i,.) <$> leave c (data_ s)) = Some s' ∧ lock_ s' = None.
Proof. intros Hr. by apply (leave_correct d0), (reachable_inv _ n). Qed.

(** The scenario of the test [atomic_data_notify_all] with two waiters: the
    flag is [write_away], the number [num_threads]. *)
Definition notify_all_scenario : list (nat * action (bool * nat)) :=
  let increment := [λ d, (d.1, S d.2)] : list (bool * nat → bool * nat) in
  [(0, CallWait false fst increment); (0, Acquire); (0, Test);
   (1, CallWait false fst increment); (1, Acquire);
   (2, CallUse [λ d, (true, d.2)]); (1, Test);
   (2, Acquire); (2, Access); (2, Return); (2, NotifyAll);
   (1, Acquire); (1, Test); (1, Access)].

(** The state after that scenario: thread 1 is about to return. *)
Definition notify_all_state : monitor (bool * nat) :=
  default (make (false, 0) 3) (run exec (make (false, 0) 3) notify_all_scenario).

Lemma notify_all_reachable :
  reachable (λ s, s = make (false, 0) 3) (exec_step exec) notify_all_state.
Proof.
  apply (run_reachable exec _ (make (false, 0) 3) notify_all_scenario); [done|].
  vm_compute. reflexivity.
Qed.

Lemma mutual_exclusion_witness : (1 : nat) = 1.
Proof.
  eapply (mutual_exclusion (false, 0) 3 notify_all_state 1 1);
    [exact notify_all_reachable|vm_compute; reflexivity..].
Defined.

Lemma linearizable_witness :
  ∃ base, execution atomic_step (false, 0) (history notify_all_state) base ∧
    (lock_ notify_all_state = None → data_ notify_all_state = base) ∧
    ∀ i p f rest, threads notify_all_state !! i = Some (Inside p f rest) →
      (∀ q, p = Some q → q base = true) ∧
      ∃ before, f = before ++ rest ∧ data_ notify_all_state = apply_func before base.
Proof. apply (linearizable (false, 0) 3). exact notify_all_reachable. Defined.

Lemma holder_leaves_witness :
  ∃ c s', threads notify_all_state !! 1 = Some c ∧
    run exec notify_all_state ((1,.) <$> leave c (data_ notify_all_state)) = Some s' ∧
    lock_ s' = None.
Proof. apply (holder_leaves (false, 0) 3); [exact notify_all_reachable|vm_compute; reflexivity]. Defined.

End AtomicData.
