(* ===== verification/AtomicPrograms.v ===== *)
(** * The test programs of [AtomicData]

    [src/ltb-util/src/ltb/util/atomic_data.cpp]: threads that share an object of
    [AtomicData.v] and run a given program, so that every interleaving of the
    test programs is a run of the model. What the tests check holds in each of
    them, and none of them gets stuck. *)
From S2P Require Import Prelude AtomicData.

Module Programs.
Import AtomicData.

(** ** Threads with a program *)
Section Programs.
Context {T P : Type}.

(** A statement of a program that concerns the shared object; [Step] is any
    other statement. *)
Inductive statement : Type :=
| WaitToUse (p : T → bool) (f : list (T → T))
| Use (f : list (T → T))
| DoNotifyOne
| DoNotifyAll
| Step.

(** The next statement of thread [i] and where it is afterwards; [None] if it
    has none or has to wait for another thread. *)
Context (next : nat → P → list P → T → option (statement * P)).

Record state : Type := mkState { object : monitor T; phases : list P }.

Inductive action : Type :=
| Issue (i : nat) (woken : option nat)
| Internal (i : nat) (a : AtomicData.action T).

Definition statement_action (st : statement) (woken : option nat) : option (AtomicData.action T) :=
  match st with
  | WaitToUse p f => Some (CallWait false p f)
  | Use f => Some (CallUse f)
  | DoNotifyOne => Some (NotifyOne woken)
  | DoNotifyAll => Some NotifyAll
  | Step => None
  end.

(** What happens inside a call. *)
Definition is_internal (a : AtomicData.action T) : bool :=
  match a with Acquire | Test | Access | Return | SpuriousWakeup => true | _ => false end.

Definition exec (s : state) (l : action) : option state :=
  match l with
  | Issue i woken =>
      match phases s !! i, threads (object s) !! i with
      | Some p, Some Idle =>
          '(st, p') ← next i p (phases s) (data_ (object s));
          o ← match statement_action st woken with
              | Some a => AtomicData.exec (object s) (i, a)
              | None => Some (object s)
              end;
          Some (mkState o (<[i := p']> (phases s)))
      | _, _ => None
      end
  | Internal i a =>
      if is_internal a then
        o ← AtomicData.exec (object s) (i, a); Some (mkState o (phases s))
      else None
  end.

Lemma exec_object s l s' :
  exec s l = Some s' →
  object s' = object s ∨ ∃ ia, AtomicData.exec (object s) ia = Some (object s').
Proof.
  destruct l as [i woken|i a]; unfold exec.
  - destruct (phases s !! i); [|done]. destruct (threads _ !! i) as [[]|]; try done.
    destruct (next _ _ _ _) as [[st p']|]; [|done]. cbn [mbind option_bind].
    destruct (statement_action st woken) as [a|]; [|intros [= <-]; by left].
    destruct (AtomicData.exec (object s) (i, a)) eqn:E; [|done]. intros [= <-]. eauto.
  - destruct (is_internal a); [|done].
    destruct (AtomicData.exec (object s) (i, a)) eqn:E; [|done]. intros [= <-]. eauto.
Qed.

(** The object of a program satisfies its invariant. *)
Lemma object_inv d n ps s :
  reachable (λ s, s = mkState (make d n) ps) (exec_step exec) s →
  AtomicData.inv d (object s).
Proof.
  apply (reachable_invariant _ _ (λ s, AtomicData.inv d (object s)));
    [intros ? ->; apply inv_make|].
  intros s1 l s2 Hi [->|[ia He]]%exec_object; [done|]. by eapply inv_exec.
Qed.

(** *** Progress *)

(** A thread that owns the mutex, or waits for it while it is free, can go on. *)
Lemma lock_progress d0 (o : monitor T) :
  AtomicData.inv d0 o →
  (∃ i c, threads o !! i = Some c ∧ holds_lock c = true ∧ c ≠ Locked) ∨
  (lock_ o = None ∧ ∃ i tm p f, threads o !! i = Some (WaitAcquire tm p f)) ∨
  (lock_ o = None ∧ ∃ i f, threads o !! i = Some (UseAcquire f)) →
  ∃ i a o', is_internal a = true ∧ a ≠ SpuriousWakeup ∧ AtomicData.exec o (i, a) = Some o'.
Proof.
  intros _ [(i & c & Hi & Hc & Hn)|[(Hl & i & tm & p & f & Hi)|(Hl & i & f & Hi)]].
  - exists i. destruct c as [| | | | |p f [|g rest]| |]; try done.
    + exists Test. unfold AtomicData.exec. rewrite Hi. simpl. destruct (p (data_ o)), tm; eauto.
    + exists Return. unfold AtomicData.exec. rewrite Hi. simpl. eauto.
    + exists Access. unfold AtomicData.exec. rewrite Hi. simpl. eauto.
  - exists i, Acquire. unfold AtomicData.exec. rewrite Hi. simpl. unfold acquire. rewrite Hl. eauto.
  - exists i, Acquire. unfold AtomicData.exec. rewrite Hi. simpl. unfold acquire. rewrite Hl. eauto.
Qed.

Definition spurious (l : action) : bool :=
  match l with Internal _ SpuriousWakeup => true | _ => false end.

Lemma issue_enabled s i p st p' :
  threads (object s) !! i = Some Idle → phases s !! i = Some p →
  next i p (phases s) (data_ (object s)) = Some (st, p') →
  ∃ woken s', exec s (Issue i woken) = Some s'.
Proof.
  intros Hi Hp Hn. unfold Programs.exec.
  destruct st; try (exists None; rewrite Hp, Hi, Hn; cbn [mbind option_bind statement_action];
    unfold AtomicData.exec; rewrite ?Hi; by eexists).
  destruct (count is_sleeping (threads (object s))) eqn:Hc.
  - exists None. rewrite Hp, Hi, Hn. cbn [mbind option_bind statement_action].
    unfold AtomicData.exec. rewrite Hi. simpl. rewrite Hc. by eexists.
  - destruct (count_pos_inv is_sleeping (threads (object s))) as (j & c & Hj & Hs); [lia|].
    exists (Some j). rewrite Hp, Hi, Hn. cbn [mbind option_bind statement_action].
    unfold AtomicData.exec. rewrite Hi. simpl. rewrite Hj. destruct c; try done. by eexists.
Qed.

End Programs.
Arguments statement : clear implicits.
Arguments state : clear implicits.
Arguments action : clear implicits.

Lemma atomic_step_deterministic {T} (d : T) h d1 d2 :
  execution atomic_step d h d1 → execution atomic_step d h d2 → d1 = d2.
Proof.
  intros H1. revert d2. induction H1 as [|d c d' h d1 [_ ->] H1 IH]; intros d2 H2.
  - by inversion H2.
  - inversion H2 as [|???? ? [_ ->] ?]; subst. by apply IH.
Qed.

End Programs.

(** ** [interleaved_atomic_data] *)
Module Interleaved.
Import AtomicData Programs.

Definition max_number : nat := 9.

(** [SharedData] and the variables [stop_loop] of the two threads, which the
    callbacks set. *)
Record memory : Type := mkMemory {
  current_number : nat;
  all_data : list nat;
  odds : list nat;
  even : list nat;
  writing_odds : bool;
  stop_odd : bool;
  stop_even : bool
}.

Definition shared_data : memory := mkMemory 0 [] [] [] false false false.

Definition last_data (d : memory) : nat := default 0 (last (all_data d)).

(** [data.all_data.emplace_back(data.current_number++);] *)
Definition add_number (d : memory) : memory :=
  mkMemory (S (current_number d)) (all_data d ++ [current_number d]) (odds d) (even d)
    (writing_odds d) (stop_odd d) (stop_even d).

(** Thread 0 writes the odd numbers, thread 1 (the main thread) the even ones. *)
Definition pred (i : nat) (d : memory) : bool :=
  match i with 0 => writing_odds d | _ => negb (writing_odds d) end.

Definition func (i : nat) : list (memory → memory) :=
  match i with
  | 0 =>
      [add_number;
       λ d, mkMemory (current_number d) (all_data d) (odds d ++ [last_data d]) (even d)
              (writing_odds d) (stop_odd d) (stop_even d);
       λ d, mkMemory (current_number d) (all_data d) (odds d) (even d)
              (writing_odds d) (max_number <=? current_number d) (stop_even d);
       λ d, mkMemory (current_number d) (all_data d) (odds d) (even d)
              false (stop_odd d) (stop_even d)]
  | _ =>
      [add_number;
       λ d, mkMemory (current_number d) (all_data d) (odds d) (even d ++ [last_data d])
              (writing_odds d) (stop_odd d) (stop_even d);
       λ d, mkMemory (current_number d) (all_data d) (odds d) (even d)
              (writing_odds d) (stop_odd d) (max_number <=? current_number d);
       λ d, mkMemory (current_number d) (all_data d) (odds d) (even d)
              true (stop_odd d) (stop_even d)]
  end.

Definition stop_loop (i : nat) (d : memory) : bool :=
  match i with 0 => stop_odd d | _ => stop_even d end.

Inductive phase : Type :=
| AtWait (* [shared_data.wait_to_use_safely(...)] *)
| AtNotify (* [shared_data.notify_one()] and the condition of the loop *)
| AtJoin (* [thread.join()] *)
| Finished.

Definition after_loop (i : nat) : phase := match i with 0 => Finished | _ => AtJoin end.

Definition next (i : nat) (p : phase) (ps : list phase) (d : memory) :
    option (statement memory * phase) :=
  match p with
  | AtWait => Some (WaitToUse (pred i) (func i), AtNotify)
  | AtNotify => Some (DoNotifyOne, if stop_loop i d then after_loop i else AtWait)
  | AtJoin => match ps !! 0 with Some Finished => Some (Step, Finished) | _ => None end
  | Finished => None
  end.

Definition start : state memory phase := mkState (make shared_data 2) [AtWait; AtWait].

(** The checks after the join. *)
Definition checks (d : memory) : bool :=
  (current_number d =? max_number + 1) &&
  bool_decide (even d = [0; 2; 4; 6; 8]) && bool_decide (odds d = [1; 3; 5; 7; 9]) &&
  bool_decide (all_data d = [0; 1; 2; 3; 4; 5; 6; 7; 8; 9]) && negb (writing_odds d).

Abbreviation exec := (Programs.exec next).
Abbreviation reachable_state := (reachable (λ s, s = start) (exec_step exec)).

(** The data after [k] calls that have returned. *)
Fixpoint base_of (k : nat) : memory :=
  match k with
  | 0 => shared_data
  | S k => apply_func (func (if writing_odds (base_of k) then 0 else 1)) (base_of k)
  end.

(** The number of calls after which thread [i] leaves its loop. *)
Definition limit (i : nat) : nat := match i with 0 => 10 | _ => 9 end.

(** The calls that have returned when thread [i] is in this phase. *)
Definition placed (i : nat) (c : pc memory) (p : phase) (k : nat) : Prop :=
  match c, p with
  | Idle, AtWait => k < limit i
  | Idle, AtNotify => True
  | Idle, AtJoin => i ≠ 0 ∧ limit i ≤ k
  | Idle, Finished => limit i ≤ k
  | (WaitAcquire untimed q f | WaitTest untimed q f | WaitSleep untimed q f
     | Inside (Some q) f _), AtNotify => q = pred i ∧ f = func i ∧ k < limit i
  | _, _ => False
  end.

Definition entry (c : option (memory → bool) * list (memory → memory)) : Prop :=
  ∃ i, i < 2 ∧ c = (Some (pred i), func i).

Definition asleep (c : pc memory) : bool := is_sleeping c.

(** A thread that sleeps although it could go on is about to be woken. *)
Definition will_wake (s : state memory phase) : Prop :=
  ∀ i c c', threads (object s) !! i = Some c → is_sleeping c = true →
    pred i (base_of (length (history (object s)))) = true →
    threads (object s) !! (1 - i) = Some c' → c' = Idle ∧ phases s !! (1 - i) = Some AtNotify.

Record good (s : state memory phase) : Prop := mkGood {
  good_object : AtomicData.inv shared_data (object s);
  good_threads : length (threads (object s)) = 2;
  good_phases : length (phases s) = 2;
  good_placed i c p : threads (object s) !! i = Some c → phases s !! i = Some p →
    placed i c p (length (history (object s)));
  good_entries : Forall entry (history (object s));
  good_bound : length (history (object s)) ≤ 10;
  good_wake : will_wake s
}.

(** *** The sequence of the calls *)

Lemma writing_odds_base k : writing_odds (base_of k) = Nat.odd k.
Proof.
  induction k as [|k IH]; [done|]. simpl. rewrite IH, Nat.odd_succ, <-Nat.negb_odd.
  by destruct (Nat.odd k).
Qed.

Lemma pred_base i k : i < 2 → pred i (base_of k) = true → (if writing_odds (base_of k) then 0 else 1) = i.
Proof. intros Hi. destruct i as [|[|]]; [..|lia]; simpl; by destruct (writing_odds _). Qed.

Lemma pred_other i k : i < 2 → pred (1 - i) (base_of k) = negb (pred i (base_of k)).
Proof. intros Hi. destruct i as [|[|]]; [done| |lia]. simpl. by rewrite negb_involutive. Qed.

Lemma entries_base h j d :
  Forall entry h → execution atomic_step (base_of j) h d → d = base_of (j + length h).
Proof.
  intros Hh. revert j. induction Hh as [|c h (i & Hi & ->) Hh IH]; intros j He.
  - inversion He. by rewrite Nat.add_0_r.
  - inversion He as [|???? ? [Hp ->] He']; subst. simpl in *. specialize (Hp _ eq_refl).
    rewrite Nat.add_succ_r. apply (IH (S j)). simpl. by rewrite (pred_base i).
Qed.

Lemma stop_base i k : i < 2 → k ≤ 10 → stop_loop i (base_of k) = (limit i <=? k).
Proof.
  intros Hi Hk. do 11 (destruct k as [|k]; [by destruct i as [|[|]]; [..|lia]|]). lia.
Qed.

(** The callback of a thread does not touch the other thread's [stop_loop]. *)
Lemma stop_func i before rest d :
  i < 2 → func i = before ++ rest → stop_loop (1 - i) (apply_func before d) = stop_loop (1 - i) d.
Proof.
  intros Hi. destruct i as [|[|]]; [..|lia]; simpl; intros Hf;
    do 5 (destruct before as [|? before]; [done|]; simplify_eq/=); by destruct before.
Qed.

(** *** The invariant *)

Lemma good_base s :
  good s → match lock_ (object s) with
           | None => data_ (object s) = base_of (length (history (object s)))
           | Some i => ∀ c, threads (object s) !! i = Some c →
               holder_ok (base_of (length (history (object s)))) (data_ (object s)) c
           end.
Proof.
  intros Hg. destruct (inv_data _ _ (good_object _ Hg)) as (b & He & Hb).
  by rewrite (entries_base _ 0 b (good_entries _ Hg) He) in Hb.
Qed.

(** What a thread reads in its own [stop_loop] while the other one may be in its
    callback. *)
Lemma good_stop s i :
  good s → i < 2 → threads (object s) !! i = Some Idle →
  stop_loop i (data_ (object s)) = (limit i <=? length (history (object s))).
Proof.
  intros Hg Hi Hc. pose proof (good_base _ Hg) as Hb.
  rewrite <-stop_base by (done || apply Hg).
  destruct (lock_ (object s)) as [j|] eqn:Hl; [|by rewrite Hb].
  destruct (inv_owned _ _ (good_object _ Hg) j Hl) as (c & Hj & Hh).
  specialize (Hb c Hj). assert (j < 2) as Hj2.
  { rewrite <-(good_threads _ Hg). by eapply lookup_lt_Some. }
  assert (j ≠ i) by (intros ->; by simplify_eq). assert (i = 1 - j) as -> by lia.
  destruct (lookup_lt_is_Some_2 (phases s) j) as [p Hp]; [by rewrite (good_phases _ Hg)|].
  pose proof (good_placed _ Hg _ _ _ Hj Hp) as Hpl.
  destruct c as [| | |[]| |[q|] f rest| |]; try done; simpl in Hb; try by rewrite Hb.
  destruct p; try done. destruct Hpl as (-> & -> & _).
  destruct Hb as (_ & before & Hf & ->). by eapply stop_func.
Qed.

Lemma lookup_two {A} (l : list A) i x : length l = 2 → l !! i = Some x → i < 2.
Proof. intros Hl H%lookup_lt_Some. lia. Qed.

(** Thread [i] moves to [c'], [p'] and no call returns. *)
Lemma good_update s i c p c' p' o' :
  good s → threads (object s) !! i = Some c → phases s !! i = Some p →
  AtomicData.inv shared_data o' →
  threads o' = <[i := c']> (threads (object s)) → history o' = history (object s) →
  placed i c' p' (length (history (object s))) →
  ¬ (c = Idle ∧ p = AtNotify) →
  (is_sleeping c' = true → pred i (base_of (length (history (object s)))) = false) →
  good (mkState o' (<[i := p']> (phases s))).
Proof.
  intros [_ Ht Hp Hpl He Hk Hw] Hi Hip Ho Hts Hh Hpl' Hnot Hsl.
  pose proof (lookup_two _ _ _ Ht Hi) as Hi2.
  split; simpl; rewrite ?Hts, ?Hh, ?length_insert; try done.
  - intros j cj pj [[-> [<- _]]|[? Hj]]%list_lookup_insert_Some
      [[? [<- _]]|[? Hj']]%list_lookup_insert_Some; try done. by apply Hpl.
  - intros j cj c1. simpl. rewrite Hts, Hh. intros Hj Hs Hpr Hj1.
    destruct (decide (i = j)) as [->|Hne].
    + rewrite list_lookup_insert_eq in Hj by lia. simplify_eq. rewrite Hsl in Hpr by done. done.
    + rewrite list_lookup_insert_ne in Hj by done.
      pose proof (lookup_two _ _ _ Ht Hj). assert (i = 1 - j) as -> by lia.
      destruct Hnot. destruct (Hw j cj c Hj Hs Hpr Hi). split; [done|congruence].
Qed.

(** The call of thread [i] returns. *)
Lemma placed_commit i j c p k :
  i < 2 → j = 1 - i → pred i (base_of k) = true → k ≤ 10 → placed j c p k → placed j c p (S k).
Proof.
  intros Hi -> Hp Hk.
  assert (k < limit (1 - i) → S k < limit (1 - i)) as Hlim.
  { destruct i as [|[|]]; [..|lia]; simpl in *; rewrite writing_odds_base in Hp.
    - intros ?. destruct (decide (k = 8)) as [->|]; [done|lia].
    - intros ?. destruct (decide (k = 9)) as [->|]; [done|lia]. }
  destruct c as [| |[]|[]|[]|[q|]| |], p; simpl; try tauto; lia.
Qed.

Lemma good_commit s i f o' :
  good s → threads (object s) !! i = Some (Inside (Some (pred i)) f []) →
  phases s !! i = Some AtNotify → f = func i →
  AtomicData.inv shared_data o' →
  threads o' = <[i := Idle]> (threads (object s)) →
  history o' = history (object s) ++ [(Some (pred i), f)] →
  good (mkState o' (phases s)).
Proof.
  intros Hg Hi Hip -> Ho Hts Hh. pose proof (good_base _ Hg) as Hb.
  rewrite (inv_owner _ _ (good_object _ Hg) _ _ Hi eq_refl) in Hb.
  destruct (Hb _ Hi) as [Hpr _]. specialize (Hpr _ eq_refl).
  destruct Hg as [_ Ht Hp Hpl He Hk Hw].
  pose proof (lookup_two _ _ _ Ht Hi) as Hi2.
  split; simpl; rewrite ?Hts, ?Hh, ?length_insert, ?length_app; simpl; try done.
  - intros j cj pj [[-> [<- _]]|[? Hj]]%list_lookup_insert_Some Hj'; [by simplify_eq|].
    rewrite Nat.add_1_r. eapply (placed_commit i); try done; [|by apply Hpl].
    pose proof (lookup_two _ _ _ Ht Hj). lia.
  - apply Forall_app. split; [done|]. constructor; [by exists i|done].
  - destruct (Hpl _ _ _ Hi Hip) as (_ & _ & Hlim). destruct i as [|[|]]; simpl in *; lia.
  - intros j cj c1. simpl. rewrite Hts. intros Hj Hs _ Hj1.
    destruct (decide (i = j)) as [->|Hne].
    + rewrite list_lookup_insert_eq in Hj by lia. by simplify_eq.
    + rewrite list_lookup_insert_ne in Hj by done.
      pose proof (lookup_two _ _ _ Ht Hj). assert (i = 1 - j) as -> by lia.
      rewrite list_lookup_insert_eq in Hj1 by lia. by simplify_eq.
Qed.

(** After a notification no thread sleeps. *)
Lemma good_notify s i woken o' p' :
  good s → threads (object s) !! i = Some Idle → phases s !! i = Some AtNotify →
  notify_one woken (object s) = Some o' →
  AtomicData.inv shared_data o' →
  placed i Idle p' (length (history (object s))) →
  good (mkState o' (<[i := p']> (phases s))).
Proof.
  intros [_ Ht Hp Hpl He Hk Hw] Hi Hip Hn Ho Hpl'.
  pose proof (lookup_two _ _ _ Ht Hi) as Hi2.
  assert (history o' = history (object s) ∧ length (threads o') = 2 ∧
    (∀ j c, threads o' !! j = Some c → is_sleeping c = false) ∧
    ∀ j c p, threads o' !! j = Some c → <[i:=p']> (phases s) !! j = Some p →
      placed j c p (length (history (object s)))) as (Hh & Hl & Hs & Hpl'').
  { destruct woken as [j|]; simpl in Hn.
    - destruct (threads (object s) !! j) as [[]|] eqn:Hj; simplify_eq/=.
      rewrite length_insert. assert (j ≠ i) by congruence.
      pose proof (lookup_two _ _ _ Ht Hj). split_and!; try done.
      + intros j' c [[-> [<- _]]|[? Hj']]%list_lookup_insert_Some; [done|].
        pose proof (lookup_two _ _ _ Ht Hj'). assert (j' = i) as -> by lia. by simplify_eq.
      + intros j' c q [[-> [<- _]]|[? Hj']]%list_lookup_insert_Some
          [[-> [<- _]]|[? Hq]]%list_lookup_insert_Some; try done.
        * pose proof (Hpl _ _ _ Hj Hq) as Hplj. by destruct tm, q.
        * by simplify_eq.
        * by apply Hpl.
    - destruct (count is_sleeping (threads (object s))) eqn:Hc; simplify_eq/=.
      split_and!; try done.
      + intros j c Hj. destruct (is_sleeping c) eqn:Hsl; [|done].
        pose proof (count_pos is_sleeping _ _ _ Hj Hsl). lia.
      + intros j c q Hj [[-> [<- _]]|[? Hq]]%list_lookup_insert_Some; [by simplify_eq|].
        by apply Hpl. }
  split; simpl; rewrite ?Hh, ?length_insert; try done.
  intros j c c1 Hj Hsl. rewrite (Hs _ _ Hj) in Hsl. done.
Qed.

(** As [good_update] for a step inside a call. *)
Lemma good_inside s i c c' o' :
  good s → threads (object s) !! i = Some c → phases s !! i = Some AtNotify → c ≠ Idle →
  AtomicData.inv shared_data o' →
  threads o' = <[i := c']> (threads (object s)) → history o' = history (object s) →
  placed i c' AtNotify (length (history (object s))) →
  (is_sleeping c' = true → pred i (base_of (length (history (object s)))) = false) →
  good (mkState o' (phases s)).
Proof.
  intros Hg Hi Hip Hc ?????. rewrite <-(list_insert_id _ _ _ Hip).
  eapply (good_update s i c); try done. by intros [].
Qed.

Lemma internal_good s i a c o' :
  good s → threads (object s) !! i = Some c → is_internal a = true →
  AtomicData.exec (object s) (i, a) = Some o' → good (mkState o' (phases s)).
Proof.
  intros Hg Hi Ha He. pose proof (inv_exec _ _ _ _ (good_object _ Hg) He) as Ho.
  pose proof (good_base _ Hg) as Hb.
  destruct (lookup_lt_is_Some_2 (phases s) i) as [p Hip].
  { rewrite (good_phases _ Hg), <-(good_threads _ Hg). by eapply lookup_lt_Some. }
  pose proof (good_placed _ Hg _ _ _ Hi Hip) as Hpl.
  assert (holds_lock c = true → holder_ok (base_of (length (history (object s))))
    (data_ (object s)) c) as Hh.
  { intros Hc. rewrite (inv_owner _ _ (good_object _ Hg) _ _ Hi Hc) in Hb. by apply Hb. }
  unfold AtomicData.exec in He. rewrite Hi in He. cbn [mbind option_bind] in He.
  destruct a, c as [| |[]|[]|[]|[q|] h [|g rest]| |], p; try done; simpl in He, Hpl;
    simplify_eq; try destruct Hpl as (-> & -> & Hlim).
  - unfold acquire in He. destruct (lock_ (object s)); simplify_eq/=.
    by eapply (good_inside s i); [..|exact Hi|exact Hip| | | | | |].
  - specialize (Hh eq_refl). simpl in Hh. rewrite Hh in He.
    destruct (pred i _) eqn:Hp; simplify_eq/=;
      by eapply (good_inside s i); [..|exact Hi|exact Hip| | | | | |].
  - by eapply (good_inside s i); [..|exact Hi|exact Hip| | | | | |].
  - by eapply (good_commit s i).
  - by eapply (good_inside s i); [..|exact Hi|exact Hip| | | | | |].
Qed.

Lemma issue_good s i woken s' :
  good s → exec s (Issue i woken) = Some s' → good s'.
Proof.
  intros Hg. unfold Programs.exec.
  destruct (phases s !! i) as [p|] eqn:Hip; [|done].
  destruct (threads (object s) !! i) as [[]|] eqn:Hi; try done.
  pose proof (lookup_two _ _ _ (good_threads _ Hg) Hi) as Hi2.
  pose proof (good_placed _ Hg _ _ _ Hi Hip) as Hpl.
  destruct p; cbn [next mbind option_bind statement_action]; [| | |done].
  - destruct (AtomicData.exec _ _) as [o|] eqn:He; [|done]. intros [= <-].
    pose proof (inv_exec _ _ _ _ (good_object _ Hg) He) as Ho.
    unfold AtomicData.exec in He. rewrite Hi in He. simpl in He. simplify_eq.
    eapply (good_update s i Idle AtWait); try done. by intros [].
  - destruct (AtomicData.exec _ _) as [o|] eqn:He; [|done]. intros [= <-].
    pose proof (inv_exec _ _ _ _ (good_object _ Hg) He) as Ho.
    unfold AtomicData.exec in He. rewrite Hi in He. simpl in He.
    eapply good_notify; try done. rewrite (good_stop _ _ Hg Hi2 Hi).
    destruct (Nat.leb_spec (limit i) (length (history (object s)))); simpl; [|lia].
    by destruct i.
  - destruct (phases s !! 0) as [[]|] eqn:H0; try done. cbn. intros [= <-].
    eapply (good_update s i Idle AtJoin Idle); try done; [apply Hg| |apply Hpl|by intros []].
    by rewrite list_insert_id.
Qed.

Lemma good_start : good start.
Proof.
  split; simpl; try done; [apply inv_make| |lia|].
  - intros i c p [-> Hi]%(lookup_replicate 2). destruct i as [|[|]]; [..|lia];
      intros [= <-]; simpl; lia.
  - by intros i c c' [-> Hi]%(lookup_replicate 2).
Qed.

Lemma exec_good s l s' : good s → exec s l = Some s' → good s'.
Proof.
  destruct l as [i woken|i a]; [apply issue_good|]. intros Hg Hs.
  unfold Programs.exec in Hs. destruct (is_internal a) eqn:Ha; [|done].
  destruct (AtomicData.exec (object s) (i, a)) as [o|] eqn:He; [|done]. simpl in Hs. simplify_eq.
  destruct (threads (object s) !! i) as [c|] eqn:Hi; [by eapply internal_good|].
  unfold AtomicData.exec in He. by rewrite Hi in He.
Qed.

Lemma reachable_good s : reachable_state s → good s.
Proof.
  apply reachable_invariant; [intros ? ->; apply good_start|].
  intros s1 l s2. apply exec_good.
Qed.

(** *** No deadlock *)

Definition finished (s : state memory phase) : Prop := phases s = [Finished; Finished].

(** The two threads with their phases. *)
Lemma good_shape s :
  good s → ∃ c0 c1 p0 p1, threads (object s) = [c0; c1] ∧ phases s = [p0; p1] ∧
    placed 0 c0 p0 (length (history (object s))) ∧ placed 1 c1 p1 (length (history (object s))).
Proof.
  intros Hg. pose proof (good_threads _ Hg) as Ht. pose proof (good_phases _ Hg) as Hp.
  destruct (threads (object s)) as [|c0 [|c1 []]] eqn:Et; try done.
  destruct (phases s) as [|p0 [|p1 []]] eqn:Ep; try done.
  exists c0, c1, p0, p1. split_and!; try done; apply (good_placed _ Hg); by rewrite ?Et, ?Ep.
Qed.

(** Two threads that are between calls or asleep. *)
Definition resting (c : pc memory) : bool :=
  match c with Idle | WaitSleep _ _ _ => true | _ => false end.

Lemma resting_progress c0 c1 p0 p1 k d :
  placed 0 c0 p0 k → placed 1 c1 p1 k → resting c0 = true → resting c1 = true →
  (is_sleeping c0 = true → Nat.odd k = true → c1 = Idle ∧ p1 = AtNotify) →
  (is_sleeping c1 = true → Nat.odd k = false → c0 = Idle ∧ p0 = AtNotify) →
  [p0; p1] = [Finished; Finished] ∨
  ∃ i p st p', [c0; c1] !! i = Some Idle ∧ [p0; p1] !! i = Some p ∧
    next i p [p0; p1] d = Some (st, p').
Proof.
  intros Hp0 Hp1 H0 H1 Hw0 Hw1.
  destruct c0; try done.
  - destruct p0; try done; try (by destruct Hp0); try (right; exists 0; by repeat eexists).
    destruct c1; try done.
    + destruct p1; try (right; exists 1; by repeat eexists). by left.
    + exfalso. destruct tm, p1; try done. simpl in Hp0, Hp1. lia.
  - destruct tm, p0; try done. simpl in Hp0. destruct c1; try done.
    + destruct p1; try (right; exists 1; by repeat eexists);
        exfalso; simpl in Hp1; (assert (k = 9) as -> by lia); by destruct Hw0.
    + exfalso. destruct (Nat.odd k); [by destruct Hw0|by destruct Hw1].
Qed.

Lemma not_stuck s :
  good s → finished s ∨ ∃ l s', spurious l = false ∧ exec s l = Some s'.
Proof.
  intros Hg. destruct (good_shape s Hg) as (c0 & c1 & p0 & p1 & Ht & Hp & Hp0 & Hp1).
  assert ((∃ i a o', is_internal a = true ∧ a ≠ SpuriousWakeup ∧
    AtomicData.exec (object s) (i, a) = Some o') → ∃ l s', spurious l = false ∧ exec s l = Some s')
    as Hint.
  { intros (i & a & o' & Ha & Hn & He). exists (Internal i a). eexists. split; [by destruct a|].
    unfold Programs.exec. by rewrite Ha, He. }
  pose proof (lock_progress _ _ (good_object _ Hg)) as Hlp.
  destruct (lock_ (object s)) as [i|] eqn:Hl.
  { right. apply Hint, Hlp. left.
    destruct (inv_owned _ _ (good_object _ Hg) i Hl) as (c & Hi & Hc).
    exists i, c. split_and!; try done. intros ->.
    rewrite Ht in Hi. destruct i as [|[|]]; simplify_eq/=; done. }
  assert (∀ i c p k, threads (object s) !! i = Some c → placed i c p k →
    resting c = true ∨ ∃ l s', spurious l = false ∧ exec s l = Some s') as Hrest.
  { intros i c p k Hi Hpl. assert (holds_lock c = false) as Hh.
    { destruct (holds_lock c) eqn:Hh; [|done].
      by rewrite (inv_owner _ _ (good_object _ Hg) _ _ Hi Hh) in Hl. }
    destruct c; try done; try (by left).
    right. apply Hint, Hlp. right. left. split; [done|]. by repeat eexists. }
  destruct (Hrest 0 c0 _ _ ltac:(by rewrite Ht) Hp0) as [Hr0|]; [|by right].
  destruct (Hrest 1 c1 _ _ ltac:(by rewrite Ht) Hp1) as [Hr1|]; [|by right].
  pose proof (good_wake _ Hg) as Hw. unfold will_wake in Hw. rewrite Ht, Hp in Hw.
  destruct (resting_progress c0 c1 p0 p1 (length (history (object s))) (data_ (object s)))
    as [?|(i & p & st & p' & Hi & Hip & Hn)]; try done.
  - intros Hs Ho. destruct (Hw 0 c0 c1 eq_refl Hs) as [? [= ?]]; [|done..].
    simpl. by rewrite writing_odds_base.
  - intros Hs Ho. destruct (Hw 1 c1 c0 eq_refl Hs) as [? [= ?]]; [|done..].
    simpl. by rewrite writing_odds_base, Ho.
  - left. congruence.
  - right. destruct (issue_enabled next s i p st p') as (w & s' & ?); [by rewrite ?Ht, ?Hp..|].
    by exists (Issue i w), s'.
Qed.

(** *** Termination *)

(** How many of [k] calls were made by thread [i]. *)
Definition calls (i k : nat) : nat := Nat.div2 (match i with 0 => k | _ => S k end).

Definition weight (i : nat) (c : pc memory) (p : phase) (k : nat) : nat :=
  match c, p with
  | Idle, AtJoin => 1
  | Idle, Finished => 0
  | _, _ =>
      20 * (5 - calls i k) +
      match c, p with
      | Idle, AtNotify => 17
      | Idle, _ => 13
      | WaitAcquire _ _ _, _ => 12
      | WaitTest _ _ _, _ => 11
      | WaitSleep _ _ _, _ => 10
      | Inside _ _ rest, _ => 5 + length rest
      | _, _ => 0
      end
  end.

Definition weigh (s : state memory phase) (i : nat) : nat :=
  match threads (object s) !! i, phases s !! i with
  | Some c, Some p => weight i c p (length (history (object s)))
  | _, _ => 0
  end.

Definition measure (s : state memory phase) : nat := weigh s 0 + weigh s 1.

Lemma measure_split s i : i < 2 → measure s = weigh s i + weigh s (1 - i).
Proof. intros Hi. destruct i as [|[|]]; unfold measure; simpl; lia. Qed.

Definition two (s : state memory phase) : Prop :=
  length (threads (object s)) = 2 ∧ length (phases s) = 2.

Lemma good_two s : good s → two s.
Proof. intros Hg. split; apply Hg. Qed.

(** Thread [i] moves. *)
Lemma measure_set s i c p c' p' o' :
  two s → threads (object s) !! i = Some c → phases s !! i = Some p →
  threads o' = <[i := c']> (threads (object s)) → history o' = history (object s) →
  measure (mkState o' (<[i := p']> (phases s))) + weight i c p (length (history (object s)))
    = measure s + weight i c' p' (length (history (object s))).
Proof.
  intros [Htt Htp] Hi Hip Ht Hh. pose proof (lookup_two _ _ _ Htt Hi) as Hi2.
  rewrite !(measure_split _ i) by done. unfold weigh. simpl. rewrite Ht, Hh, Hi, Hip.
  rewrite !list_lookup_insert_eq by (rewrite ?Htt, ?Htp; lia).
  rewrite !list_lookup_insert_ne by lia. lia.
Qed.

Lemma measure_inside s i c p c' o' :
  two s → threads (object s) !! i = Some c → phases s !! i = Some p →
  threads o' = <[i := c']> (threads (object s)) → history o' = history (object s) →
  measure (mkState o' (phases s)) + weight i c p (length (history (object s)))
    = measure s + weight i c' p (length (history (object s))).
Proof.
  intros Hg Hi Hip Ht Hh. rewrite <-(list_insert_id _ _ _ Hip) at 1.
  by apply measure_set.
Qed.

Lemma div2_lt n m : n < 2 * m → Nat.div2 n < m.
Proof. intros H. rewrite Nat.div2_div. apply Nat.Div0.div_lt_upper_bound. lia. Qed.

Lemma calls_commit i k :
  i < 2 → pred i (base_of k) = true → calls i (S k) = S (calls i k) ∧ calls (1 - i) (S k) = calls (1 - i) k.
Proof.
  intros Hi Hp.
  assert (∀ n, Nat.odd n = false → Nat.div2 (S n) = Nat.div2 n) as Heven.
  { intros n Hn. rewrite <-Nat.negb_even, negb_false_iff in Hn.
    apply Nat.even_spec in Hn as [m ->]. rewrite Nat.div2_succ_double. by rewrite Nat.div2_double. }
  destruct i as [|[|]]; [..|lia]; simpl in Hp; rewrite writing_odds_base in Hp; unfold calls.
  - assert (Nat.odd (S k) = false) as Hs by by rewrite Nat.odd_succ, <-Nat.negb_odd, Hp.
    pose proof (Heven _ Hs) as E. split; [symmetry; exact E|exact E].
  - apply negb_true_iff in Hp. pose proof (Heven _ Hp) as E.
    split; [change (S (Nat.div2 k) = S (Nat.div2 (S k))); by rewrite E|exact E].
Qed.

Lemma weight_commit i c p k k' :
  calls i k' = calls i k → weight i c p k' = weight i c p k.
Proof. intros E. unfold weight. by rewrite E. Qed.

Lemma measure_commit s i f o' :
  good s → threads (object s) !! i = Some (Inside (Some (pred i)) f []) →
  phases s !! i = Some AtNotify →
  threads o' = <[i := Idle]> (threads (object s)) →
  history o' = history (object s) ++ [(Some (pred i), f)] →
  measure (mkState o' (phases s)) < measure s.
Proof.
  intros Hg Hi Hip Ht Hh. pose proof (good_base _ Hg) as Hb.
  rewrite (inv_owner _ _ (good_object _ Hg) _ _ Hi eq_refl) in Hb.
  destruct (Hb _ Hi) as [Hpr _]. specialize (Hpr _ eq_refl).
  pose proof (lookup_two _ _ _ (good_threads _ Hg) Hi) as Hi2.
  destruct (good_placed _ Hg _ _ _ Hi Hip) as (_ & _ & Hlim).
  destruct (calls_commit _ _ Hi2 Hpr) as [Hc1 Hc2].
  rewrite !(measure_split _ i) by done. unfold weigh. simpl. rewrite Ht, Hh, Hi, Hip, length_app.
  rewrite list_lookup_insert_eq by (rewrite ?(good_threads _ Hg); lia).
  rewrite list_lookup_insert_ne by lia. simpl. rewrite Nat.add_1_r, Hc1.
  assert (calls i (length (history (object s))) < 5) as Hlt.
  { unfold calls. apply div2_lt. destruct i as [|[|]]; simpl in *; lia. }
  destruct (threads (object s) !! (1 - i)) as [c|]; [|lia].
  destruct (phases s !! (1 - i)) as [p|]; [|lia]. rewrite (weight_commit _ c p _ _ Hc2). lia.
Qed.

Lemma measure_notify s i woken o' p' :
  good s → threads (object s) !! i = Some Idle → phases s !! i = Some AtNotify →
  notify_one woken (object s) = Some o' → p' ≠ AtNotify →
  measure (mkState o' (<[i := p']> (phases s))) < measure s.
Proof.
  intros Hg Hi Hip Hn Hp'.
  assert (∀ k, weight i Idle p' k + 4 ≤ weight i Idle AtNotify k) as Hw
    by (intros k; destruct p'; simpl; done || lia).
  specialize (Hw (length (history (object s)))).
  pose proof (good_two _ Hg) as H2.
  pose proof (measure_set s i Idle AtNotify Idle p' (object s) H2 Hi Hip
    ltac:(by rewrite list_insert_id) eq_refl) as H1.
  destruct woken as [j|]; simpl in Hn.
  - destruct (threads (object s) !! j) as [[]|] eqn:Hj; simplify_eq/=.
    assert (i ≠ j) by congruence. destruct H2 as [Ht Hp].
    destruct (lookup_lt_is_Some_2 (phases s) j) as [q Hq].
    { rewrite Hp, <-Ht. by eapply lookup_lt_Some. }
    pose proof (good_placed _ Hg _ _ _ Hj Hq) as Hpl. destruct tm, q; try done.
    set (s1 := mkState (object s) (<[i := p']> (phases s))) in *.
    assert (two s1) as H21 by (split; simpl; by rewrite ?length_insert).
    pose proof (measure_inside s1 j _ AtNotify (WaitAcquire untimed p f)
      (set_pc j (WaitAcquire untimed p f) (object s)) H21 Hj
      ltac:(simpl; by rewrite list_lookup_insert_ne) eq_refl eq_refl) as H3.
    simpl in H3. lia.
  - destruct (count is_sleeping (threads (object s))); simplify_eq/=. lia.
Qed.

Lemma exec_measure s l s' :
  good s → exec s l = Some s' →
  if spurious l then measure s' = measure s + 2 else measure s' < measure s.
Proof.
  intros Hg. destruct l as [i woken|i a]; unfold Programs.exec.
  - destruct (phases s !! i) as [p|] eqn:Hip; [|done].
    destruct (threads (object s) !! i) as [[]|] eqn:Hi; try done.
    pose proof (lookup_two _ _ _ (good_threads _ Hg) Hi) as Hi2.
    destruct p; cbn [next mbind option_bind statement_action]; [| | |done].
    + unfold AtomicData.exec. rewrite Hi. simpl. intros [= <-].
      pose proof (measure_set s i Idle AtWait (WaitAcquire untimed (pred i) (func i)) AtNotify
        (set_pc i (WaitAcquire untimed (pred i) (func i)) (object s)) (good_two _ Hg) Hi Hip
        eq_refl eq_refl).
      simpl in *. lia.
    + destruct (AtomicData.exec _ _) as [o|] eqn:He; [|done]. intros [= <-].
      unfold AtomicData.exec in He. rewrite Hi in He. simpl in He.
      eapply measure_notify; try done. destruct (stop_loop i _); [by destruct i|done].
    + destruct (phases s !! 0) as [[]|] eqn:H0; try done. cbn. intros [= <-].
      pose proof (measure_set s i Idle AtJoin Idle Finished (object s) (good_two _ Hg) Hi Hip
        ltac:(by rewrite list_insert_id) eq_refl). simpl in *. lia.
  - destruct (is_internal a) eqn:Ha; [|done].
    destruct (AtomicData.exec (object s) (i, a)) as [o|] eqn:He; [|done]. intros [= <-].
    unfold AtomicData.exec in He. destruct (threads (object s) !! i) as [c|] eqn:Hi; [|done].
    destruct (lookup_lt_is_Some_2 (phases s) i) as [p Hip].
    { rewrite (good_phases _ Hg), <-(good_threads _ Hg). by eapply lookup_lt_Some. }
    pose proof (good_placed _ Hg _ _ _ Hi Hip) as Hpl. cbn [mbind option_bind] in He.
    assert (∀ c', threads o = <[i := c']> (threads (object s)) →
      history o = history (object s) →
      measure (mkState o (phases s)) + weight i c p (length (history (object s)))
        = measure s + weight i c' p (length (history (object s)))) as Hm
      by (intros; eapply measure_inside; [by apply good_two|done..]).
    destruct a, c as [| |[]|[]|[]|[q|] h [|g rest]| |], p; try done; simpl in He, Hpl;
      simplify_eq; try destruct Hpl as (-> & -> & Hlim); simpl.
    + unfold acquire in He. destruct (lock_ (object s)); simplify_eq/=.
      specialize (Hm _ eq_refl eq_refl). simpl in Hm. lia.
    + destruct (pred i _) eqn:Hp; simplify_eq/=; specialize (Hm _ eq_refl eq_refl); simpl in Hm.
      * assert (length (func i) = 4) by by destruct i. lia.
      * lia.
    + specialize (Hm _ eq_refl eq_refl). simpl in Hm. lia.
    + by eapply measure_commit.
    + specialize (Hm _ eq_refl eq_refl). simpl in Hm. lia.
Qed.

Lemma run_measure s ls s' :
  good s → run exec s ls = Some s' →
  length ls + measure s' ≤ measure s + 3 * length (filter spurious ls).
Proof.
  revert s. induction ls as [|l ls IH]; intros s Hg; simpl; [intros [= ->]; lia|].
  destruct (exec s l) as [s1|] eqn:He; [|done]. intros Hr.
  pose proof (exec_good _ _ _ Hg He) as Hg1.
  specialize (IH _ Hg1 Hr). pose proof (exec_measure _ _ _ Hg He) as Hm.
  rewrite filter_cons. destruct (decide _) as [Hd|Hd]; destruct (spurious l); simpl in *; try done; try lia.
Qed.

(** The main thread only goes on when the other thread has ended. *)
Lemma joined s :
  reachable_state s → phases s !! 1 = Some Finished → phases s !! 0 = Some Finished.
Proof.
  apply (reachable_invariant _ _
    (λ s, phases s !! 1 = Some Finished → phases s !! 0 = Some Finished)); [by intros ? ->|].
  intros s1 [i woken|i a] s2 IH He; unfold exec_step, Programs.exec in He.
  - destruct (phases s1 !! i) as [p|] eqn:Hip; [|done].
    destruct (threads (object s1) !! i) as [[]|]; try done.
    destruct (next i p _ _) as [[st p']|] eqn:Hn; [|done]. cbn [mbind option_bind] in He.
    assert (phases s2 = <[i := p']> (phases s1)) as ->.
    { destruct (statement_action st woken); [|by simplify_eq/=].
      destruct (AtomicData.exec _ _); by simplify_eq/=. }
    intros [[-> [-> _]]|[Hi H1]]%list_lookup_insert_Some.
    + rewrite list_lookup_insert_ne by done. destruct p; simpl in Hn; simplify_eq.
      * by destruct (stop_even _).
      * by destruct (phases s1 !! 0) as [[]|].
    + specialize (IH H1). destruct (decide (i = 0)) as [->|].
      * rewrite IH in Hip. simplify_eq/=.
      * by rewrite list_lookup_insert_ne.
  - destruct (is_internal a); [|done]. destruct (AtomicData.exec _ _); by simplify_eq/=.
Qed.

Lemma placed_finished i c k : placed i c Finished k → c = Idle ∧ limit i ≤ k.
Proof. by destruct c as [| |[]|[]|[]|[]| |]. Qed.

Lemma finished_data s :
  good s → phases s !! 0 = Some Finished → phases s !! 1 = Some Finished →
  ∃ k, k = 10 ∧ data_ (object s) = base_of k.
Proof.
  intros Hg H0 H1. destruct (good_shape s Hg) as (c0 & c1 & p0 & p1 & Ht & Hp & Hp0 & Hp1).
  rewrite Hp in H0, H1. simplify_eq/=.
  apply placed_finished in Hp0 as [-> Hk], Hp1 as [-> _].
  pose proof (good_bound _ Hg). simpl in Hk.
  pose proof (good_base _ Hg) as Hb.
  exists (length (history (object s))). split; [lia|].
  destruct (lock_ (object s)) as [i|] eqn:Hl; [|done].
  destruct (inv_owned _ _ (good_object _ Hg) i Hl) as (c & Hi & Hc).
  rewrite Ht in Hi. by destruct i as [|[|]]; simplify_eq/=.
Qed.

(** ** Properties *)

(** C25: the test [interleaved_atomic_data] always ends, and passes, in every
    interleaving of its two threads, each statement of the callbacks being a step
    of its own. A run has at most 226 steps and three more for every spurious
    wake-up; as long as a thread has not ended some thread can take a step that is
    not a spurious wake-up, however the mutex and the condition variable choose;
    and once the main thread has joined the other one, all checks hold: the
    numbers 0 to 9 are in order and each thread has written its own. *)
Theorem interleaved_test_passes ls s :
  run exec start ls = Some s →
  length ls ≤ 226 + 3 * length (filter spurious ls) ∧
  (phases s = [Finished; Finished] ∨ ∃ l s', spurious l = false ∧ exec s l = Some s') ∧
  (phases s !! 1 = Some Finished → checks (data_ (object s)) = true).
Proof.
  intros Hrun. assert (reachable_state s) as Hr by by eapply (run_reachable exec).
  split_and!.
  - pose proof (run_measure _ _ _ good_start Hrun). change (measure start) with 226 in *. lia.
  - by apply not_stuck, reachable_good.
  - intros H1. pose proof (joined s Hr H1) as H0.
    destruct (finished_data s (reachable_good s Hr) H0 H1) as (k & -> & ->). vm_compute. reflexivity.
Qed.

(** A run in which the other thread sleeps before each of its turns. *)
Definition enter (i : nat) : list (action memory) :=
  [Issue i None; Internal i Acquire; Internal i Test].
Definition body (i : nat) : list (action memory) :=
  replicate 4 (Internal i Access) ++ [Internal i Return].
Definition two_turns : list (action memory) :=
  enter 1 ++ body 1 ++ [Issue 1 (Some 0); Internal 0 Acquire; Internal 0 Test] ++
  body 0 ++ [Issue 0 None].
Definition alternating : list (action memory) :=
  concat (replicate 4 (enter 0 ++ two_turns)) ++ enter 0 ++ two_turns ++ [Issue 1 None].
Definition final_state : state memory phase := default start (run exec start alternating).

Lemma interleaved_test_passes_witness :
  length alternating ≤ 226 + 3 * length (filter spurious alternating) ∧
  checks (data_ (object final_state)) = true.
Proof.
  destruct (interleaved_test_passes alternating final_state) as (H & _ & Hc);
    [vm_compute; reflexivity|]. split; [exact H|]. apply Hc. vm_compute. reflexivity.
Defined.

End Interleaved.
