(* ===== verification/AtomicNotifyAll.v ===== *)
(** * The test program of [notify_all]

    [atomic_data_notify_all] of [src/ltb-util/src/ltb/util/atomic_data.cpp], for
    any number of threads: what it checks holds in every interleaving, and it
    always ends. *)
From S2P Require Import Prelude AtomicData AtomicPrograms.

Module NotifyAllTest.
Import AtomicData Programs.

(** [SharedData]. *)
Record shared : Type := mkShared { write_away : bool; num_threads : nat }.

Definition shared_data : shared := mkShared false 0.

Inductive phase : Type :=
| AtWait (* a thread: [shared_data.wait_to_use_safely(...)] *)
| AtEnd
| Finished
| AtWrite (* the main thread: [data.write_away = true] *)
| AtNotifyAll
| AtJoin (* [for (auto& thread : threads) thread.join();] *)
| AtCheck.

Definition is_finished (p : phase) : bool := match p with Finished => true | _ => false end.

Definition set_write_away (d : shared) : shared := mkShared true (num_threads d).
Definition increment (d : shared) : shared := mkShared (write_away d) (S (num_threads d)).

(** Thread 0 is the main thread. *)
Definition next (i : nat) (p : phase) (ps : list phase) (d : shared) :
    option (statement shared * phase) :=
  match p with
  | AtWait => Some (WaitToUse write_away [increment], AtEnd)
  | AtEnd => Some (Step, Finished)
  | AtWrite => Some (Use [set_write_away], AtNotifyAll)
  | AtNotifyAll => Some (DoNotifyAll, AtJoin)
  | AtJoin => if forallb is_finished (tail ps) then Some (Step, AtCheck) else None
  | Finished | AtCheck => None
  end.

(** The test has 500 threads. *)
Definition start (n : nat) : state shared phase :=
  mkState (make shared_data (S n)) (AtWrite :: replicate n AtWait).

(** The check after the joins. *)
Definition check (n : nat) (d : shared) : bool := num_threads d =? n.

Abbreviation exec := (Programs.exec next).
Abbreviation reachable_state n := (reachable (λ s, s = start n) (exec_step exec)).

(** Where a thread can be in each phase. *)
Definition placed (c : pc shared) (p : phase) : Prop :=
  match c, p with
  | Idle, _ => True
  | (WaitAcquire untimed q f | WaitTest untimed q f | WaitSleep untimed q f
     | Inside (Some q) f _), AtEnd => q = write_away ∧ f = [increment]
  | (UseAcquire f | Inside None f _), AtNotifyAll => f = [set_write_away]
  | _, _ => False
  end.

Definition is_main (p : phase) : bool :=
  match p with AtWait | AtEnd | Finished => false | _ => true end.

Abbreviation thread := (pc shared * phase)%type.

(** A thread whose call has returned, and the main thread after its first. *)
Definition waited (t : thread) : bool :=
  match t with (Idle, (AtEnd | Finished)) => true | _ => false end.
Definition written (t : thread) : bool :=
  match t with (Idle, (AtNotifyAll | AtJoin | AtCheck)) => true | _ => false end.

Abbreviation call := (option (shared → bool) * list (shared → shared))%type.
Definition is_wait (c : call) : bool := match c.1 with Some _ => true | None => false end.
Definition is_use (c : call) : bool := negb (is_wait c).
Definition entry (c : call) : Prop :=
  c = (Some write_away, [increment]) ∨ c = (None, [set_write_away]).

Definition pairs (s : state shared phase) : list thread := zip (threads (object s)) (phases s).

Record good (n : nat) (s : state shared phase) : Prop := mkGood {
  good_object : AtomicData.inv shared_data (object s);
  good_threads : length (threads (object s)) = S n;
  good_phases : length (phases s) = S n;
  good_placed i c p : threads (object s) !! i = Some c → phases s !! i = Some p → placed c p;
  good_main i p : phases s !! i = Some p → is_main p = true ↔ i = 0;
  good_entries : Forall entry (history (object s));
  good_waits : count is_wait (history (object s)) = count waited (pairs s);
  good_uses : count is_use (history (object s)) = count written (pairs s);
  good_wake i c : threads (object s) !! i = Some c → is_sleeping c = true →
    phases s !! 0 = Some AtWrite ∨ phases s !! 0 = Some AtNotifyAll;
  good_joined : phases s !! 0 = Some AtCheck → Forall (λ p, p = Finished) (tail (phases s))
}.

(** *** Lemmas *)

Lemma entries_data h d d' :
  Forall entry h → execution atomic_step d h d' →
  num_threads d' = num_threads d + count is_wait h ∧
  write_away d' = write_away d || (0 <? count is_use h).
Proof.
  intros Hh. revert d. induction Hh as [|c h Hc Hh IH]; intros d He.
  - inversion He. subst. simpl. rewrite orb_false_r. split; [lia|done].
  - inversion He as [|???? ? [_ ->] He']; subst. destruct (IH _ He') as [-> ->].
    destruct Hc as [-> | ->]; simpl; [split; [lia|done]|].
    split; [lia|]. by rewrite orb_true_r.
Qed.

Lemma all_good_base n s :
  good n s → ∃ base, num_threads base = count waited (pairs s) ∧
    write_away base = (0 <? count written (pairs s)) ∧
    match lock_ (object s) with
    | None => data_ (object s) = base
    | Some i => ∀ c, threads (object s) !! i = Some c → holder_ok base (data_ (object s)) c
    end.
Proof.
  intros Hg. destruct (inv_data _ _ (good_object _ _ Hg)) as (b & He & Hb).
  exists b. destruct (entries_data _ _ _ (good_entries _ _ Hg) He) as [-> ->].
  by rewrite <-(good_waits _ _ Hg), <-(good_uses _ _ Hg).
Qed.

Lemma pairs_lookup s i c p :
  threads (object s) !! i = Some c → phases s !! i = Some p → pairs s !! i = Some (c, p).
Proof. intros Hc Hp. unfold pairs. apply lookup_zip_with_Some. eauto. Qed.

Lemma pairs_set s i c' p' o' :
  threads o' = <[i := c']> (threads (object s)) →
  pairs (mkState o' (<[i := p']> (phases s))) = <[i := (c', p')]> (pairs s).
Proof. intros Ht. unfold pairs. simpl. rewrite Ht. symmetry. apply insert_zip_with. Qed.

(** Before the main thread has written nobody is past the notification. *)
Lemma before_write n s :
  good n s → count written (pairs s) = 0 →
  phases s !! 0 = Some AtWrite ∨ phases s !! 0 = Some AtNotifyAll.
Proof.
  intros Hg Hw.
  destruct (lookup_lt_is_Some_2 (phases s) 0) as [p Hp]; [rewrite (good_phases _ _ Hg); lia|].
  destruct (lookup_lt_is_Some_2 (threads (object s)) 0) as [c Hc];
    [rewrite (good_threads _ _ Hg); lia|].
  pose proof (proj2 (good_main _ _ Hg 0 p Hp) eq_refl) as Hm.
  pose proof (good_placed _ _ Hg 0 c p Hc Hp) as Hpl.
  destruct p; try done; auto;
    (destruct c as [| |[]|[]|[]|[q|] f rest| |]; try done;
     pose proof (count_pos written _ _ _ (pairs_lookup _ _ _ _ Hc Hp) eq_refl); lia).
Qed.

(** Thread [i] moves without a notification. *)
Lemma all_good_update n s i c p c' p' o' h :
  good n s → threads (object s) !! i = Some c → phases s !! i = Some p →
  AtomicData.inv shared_data o' →
  threads o' = <[i := c']> (threads (object s)) → history o' = history (object s) ++ h →
  placed c' p' → is_main p' = is_main p → Forall entry h →
  count is_wait h + indicator waited (c, p) = indicator waited (c', p') →
  count is_use h + indicator written (c, p) = indicator written (c', p') →
  (is_sleeping c' = true → phases s !! 0 = Some AtWrite ∨ phases s !! 0 = Some AtNotifyAll) →
  p ≠ Finished →
  (p = AtWrite ∨ p = AtNotifyAll → p' = AtWrite ∨ p' = AtNotifyAll) →
  (p' = AtCheck → Forall (λ p, p = Finished) (tail (phases s))) →
  good n (mkState o' (<[i := p']> (phases s))).
Proof.
  intros Hg Hi Hip Ho Ht Hh Hpl Hm He Hw Hu Hsl Hnf Hna Hck.
  pose proof (pairs_lookup _ _ _ _ Hi Hip) as Hpi.
  pose proof (lookup_lt_Some _ _ _ Hip) as Hil.
  assert (phases s !! 0 = Some AtWrite ∨ phases s !! 0 = Some AtNotifyAll →
    <[i := p']> (phases s) !! 0 = Some AtWrite ∨ <[i := p']> (phases s) !! 0 = Some AtNotifyAll)
    as Hmain.
  { destruct (decide (i = 0)) as [->|]; [|by rewrite list_lookup_insert_ne].
    rewrite list_lookup_insert_eq by done. rewrite Hip. naive_solver. }
  split; rewrite ?(pairs_set _ _ _ _ _ Ht); simpl; rewrite ?Ht, ?Hh, ?length_insert; try apply Hg; try done.
  - intros j cj pj [[-> [<- _]]|[? Hj]]%list_lookup_insert_Some
      [[? [<- _]]|[? Hj']]%list_lookup_insert_Some; try done. by eapply (good_placed _ _ Hg).
  - intros j pj [[-> [<- _]]|[? Hj']]%list_lookup_insert_Some; [|by apply (good_main _ _ Hg)].
    rewrite Hm. by apply (good_main _ _ Hg).
  - apply Forall_app. split; [apply Hg|done].
  - pose proof (count_insert waited _ _ _ (c', p') Hpi) as Hc. rewrite count_app.
    pose proof (good_waits _ _ Hg). lia.
  - pose proof (count_insert written _ _ _ (c', p') Hpi) as Hc. rewrite count_app.
    pose proof (good_uses _ _ Hg). lia.
  - intros j cj [[-> [<- _]]|[? Hj]]%list_lookup_insert_Some Hs; apply Hmain; [by apply Hsl|].
    by eapply (good_wake _ _ Hg).
  - pose proof (good_joined _ _ Hg) as Hj. destruct i as [|i].
    + rewrite list_lookup_insert_eq by done. intros [= ->].
      specialize (Hck eq_refl). by destruct (phases s).
    + rewrite list_lookup_insert_ne by done. intros H0. specialize (Hj H0).
      destruct (phases s) as [|p0 ps]; [done|]. simpl in *.
      by rewrite Forall_lookup in Hj; apply Hj in Hip.
Qed.

(** The notification of the main thread. *)
Lemma waited_wake c p : waited (wake c, p) = waited (c, p).
Proof. by destruct c. Qed.
Lemma written_wake c p : written (wake c, p) = written (c, p).
Proof. by destruct c. Qed.

Lemma count_wake (P : thread → bool) l k :
  (∀ c p, P (wake c, p) = P (c, p)) → count P (zip (wake <$> l) k) = count P (zip l k).
Proof.
  intros HP. revert k. induction l as [|c l IH]; intros [|p k]; try done.
  rewrite fmap_cons. cbn [zip zip_with count]. rewrite IH. unfold indicator. by rewrite HP.
Qed.

Lemma all_good_notify n s :
  good n s → threads (object s) !! 0 = Some Idle → phases s !! 0 = Some AtNotifyAll →
  good n (mkState (notify_all (object s)) (<[0 := AtJoin]> (phases s))).
Proof.
  intros Hg Hi Hip. pose proof (pairs_lookup _ _ _ _ Hi Hip) as Hpi.
  assert (∀ (P : thread → bool), (∀ c p, P (wake c, p) = P (c, p)) →
    P (Idle, AtJoin) = P (Idle, AtNotifyAll) →
    count P (pairs (mkState (notify_all (object s)) (<[0 := AtJoin]> (phases s)))) = count P (pairs s))
    as Hcount.
  { intros P HP HP'. unfold pairs. simpl. rewrite count_wake by done.
    pose proof (count_insert P _ _ _ (Idle, AtJoin) Hpi) as Hc. unfold indicator in Hc.
    rewrite HP' in Hc. unfold pairs in Hc.
    rewrite <-(list_insert_id _ _ _ Hi) at 1. rewrite insert_zip_with in Hc. lia. }
  split; rewrite ?Hcount by (done || apply waited_wake || apply written_wake);
    simpl; rewrite ?length_insert, ?length_fmap; try apply Hg.
  - apply inv_notify_all, Hg.
  - intros j c p. rewrite list_lookup_fmap. intros (c1 & Hj & ->)%fmap_Some
      [[<- [<- _]]|[? Hj']]%list_lookup_insert_Some; [by simplify_eq|].
    pose proof (good_placed _ _ Hg _ _ _ Hj Hj') as Hpl. by destruct c1 as [| |[]|[]|[]|[]| |].
  - intros j pj [[<- [<- _]]|[? Hj']]%list_lookup_insert_Some; [done|by apply (good_main _ _ Hg)].
  - intros j c. rewrite list_lookup_fmap. intros (c1 & Hj & ->)%fmap_Some. by destruct c1.
  - rewrite list_lookup_insert_eq by by eapply lookup_lt_Some. done.
Qed.

(** Thread [i] moves and no call returns. *)
Lemma good_quiet n s i c p c' p' o' :
  good n s → threads (object s) !! i = Some c → phases s !! i = Some p →
  AtomicData.inv shared_data o' →
  threads o' = <[i := c']> (threads (object s)) → history o' = history (object s) →
  placed c' p' → is_main p' = is_main p →
  waited (c, p) = waited (c', p') → written (c, p) = written (c', p') →
  (is_sleeping c' = true → phases s !! 0 = Some AtWrite ∨ phases s !! 0 = Some AtNotifyAll) →
  p ≠ Finished →
  (p = AtWrite ∨ p = AtNotifyAll → p' = AtWrite ∨ p' = AtNotifyAll) →
  (p' = AtCheck → Forall (λ p, p = Finished) (tail (phases s))) →
  good n (mkState o' (<[i := p']> (phases s))).
Proof.
  intros ?????? Hpl Hm Hw Hu ????. eapply (all_good_update n s i c p c' p' o' []); try done.
  - by rewrite app_nil_r.
  - unfold indicator. by rewrite Hw.
  - unfold indicator. by rewrite Hu.
Qed.

(** *** Every step *)

Lemma all_finished ps : forallb is_finished ps = true → Forall (λ p, p = Finished) ps.
Proof. induction ps as [|[] ps IH]; try done. intros H. constructor; [done|by apply IH]. Qed.

Lemma good_issue n s i woken s' :
  good n s → exec s (Issue i woken) = Some s' → good n s'.
Proof.
  intros Hg. unfold Programs.exec.
  destruct (phases s !! i) as [p|] eqn:Hip; [|done].
  destruct (threads (object s) !! i) as [[]|] eqn:Hi; try done.
  pose proof (list_insert_id _ _ _ Hi) as Hid.
  assert (∀ a o, AtomicData.exec (object s) (i, a) = Some o → AtomicData.inv shared_data o) as Hinv
    by (intros; by eapply inv_exec; [apply Hg|]).
  destruct p; cbn [next mbind option_bind statement_action]; try done.
  - destruct (AtomicData.exec _ _) as [o|] eqn:He; [|done]. intros [= <-].
    pose proof (Hinv _ _ He). unfold AtomicData.exec in He. rewrite Hi in He. simplify_eq/=.
    eapply (good_quiet n s i Idle AtWait); try done. by intros [].
  - intros [= <-]. by eapply (good_quiet n s i Idle AtEnd Idle); try apply Hg; try done; intros [].
  - destruct (AtomicData.exec _ _) as [o|] eqn:He; [|done]. intros [= <-].
    pose proof (Hinv _ _ He). unfold AtomicData.exec in He. rewrite Hi in He. simplify_eq/=.
    eapply (good_quiet n s i Idle AtWrite); try done. by right.
  - destruct (AtomicData.exec _ _) as [o|] eqn:He; [|done]. intros [= <-].
    unfold AtomicData.exec in He. rewrite Hi in He. simplify_eq/=.
    assert (i = 0) as -> by by apply (good_main _ _ Hg _ _ Hip). by apply all_good_notify.
  - destruct (forallb _ _) eqn:Hall; [|done]. cbn. intros [= <-].
    eapply (good_quiet n s i Idle AtJoin Idle); try apply Hg; try done; [by intros []|].
    intros _. by apply all_finished.
Qed.

Lemma good_internal n s i a c p o' :
  good n s → threads (object s) !! i = Some c → phases s !! i = Some p → is_internal a = true →
  AtomicData.exec (object s) (i, a) = Some o' → good n (mkState o' (phases s)).
Proof.
  intros Hg Hi Hip Ha He. pose proof (inv_exec _ _ _ _ (good_object _ _ Hg) He) as Ho.
  destruct (all_good_base _ _ Hg) as (b & _ & Hbw & Hb).
  pose proof (good_placed _ _ Hg _ _ _ Hi Hip) as Hpl.
  rewrite <-(list_insert_id _ _ _ Hip).
  unfold AtomicData.exec in He. rewrite Hi in He. cbn [mbind option_bind] in He.
  destruct a, c as [| |[]|[]|[]|[q|] h [|g rest]| |], p; try done; simpl in He, Hpl;
    simplify_eq; try destruct Hpl as (-> & ->).
  - unfold acquire in He. destruct (lock_ (object s)); simplify_eq/=.
    eapply good_quiet; try done.
  - unfold acquire in He. destruct (lock_ (object s)); simplify_eq/=.
    eapply good_quiet; try done; by intros [].
  - destruct (write_away _) eqn:Hw; simplify_eq/=;
      eapply good_quiet; try done; try (by intros []). intros _.
    rewrite (inv_owner _ _ (good_object _ _ Hg) _ _ Hi eq_refl) in Hb. rewrite (Hb _ Hi), Hbw in Hw.
    apply before_write in Hg; [done|]. apply Nat.ltb_ge in Hw. lia.
  - eapply good_quiet; try done; by intros [].
  - eapply good_quiet; try done.
  - eapply (all_good_update n s i _ _ Idle AtEnd _ [_]); try done; try (by intros []).
    constructor; [by left|done].
  - eapply (all_good_update n s i _ _ Idle AtNotifyAll _ [_]); try done.
    constructor; [by right|done].
  - eapply good_quiet; try done; by intros [].
Qed.

Lemma good_lookup n s i c :
  good n s → threads (object s) !! i = Some c → ∃ p, phases s !! i = Some p ∧ placed c p.
Proof.
  intros Hg Hi. destruct (lookup_lt_is_Some_2 (phases s) i) as [p Hp].
  { rewrite (good_phases _ _ Hg), <-(good_threads _ _ Hg). by eapply lookup_lt_Some. }
  exists p. split; [done|]. by eapply good_placed.
Qed.

Lemma all_exec_good n s l s' : good n s → exec s l = Some s' → good n s'.
Proof.
  destruct l as [i woken|i a]; [apply good_issue|]. intros Hg Hs.
  unfold Programs.exec in Hs. destruct (is_internal a) eqn:Ha; [|done].
  destruct (AtomicData.exec (object s) (i, a)) as [o|] eqn:He; [|done]. simpl in Hs. simplify_eq.
  destruct (threads (object s) !! i) as [c|] eqn:Hi.
  - destruct (good_lookup _ _ _ _ Hg Hi) as (p & Hp & _). by eapply good_internal.
  - unfold AtomicData.exec in He. by rewrite Hi in He.
Qed.

Lemma all_good_start n : good n (start n).
Proof.
  assert (∀ P : thread → bool, P (Idle, AtWrite) = false → P (Idle, AtWait) = false →
    count P (pairs (start n)) = 0) as Hcount.
  { intros P H1 H2. unfold pairs. simpl. unfold indicator at 1. rewrite H1. simpl.
    induction n as [|n IH]; [done|]. simpl. unfold indicator at 1. by rewrite H2, IH. }
  split; rewrite ?Hcount by done; simpl; rewrite ?length_replicate; try done.
  - apply inv_make.
  - intros i c p [-> _]%(lookup_replicate (S n)) _. by destruct p.
  - intros [|i] p; simpl; [by intros [= <-]|]. by intros [-> _]%lookup_replicate.
  - by intros i c [-> _]%(lookup_replicate (S n)).
Qed.

Lemma all_reachable_good n s : reachable_state n s → good n s.
Proof.
  apply reachable_invariant; [intros ? ->; apply all_good_start|].
  intros s1 l s2. apply all_exec_good.
Qed.

(** *** What the main thread checks *)

Lemma joined_count l : ∀ k,
  length l = length k → Forall (λ p, p = Finished) k →
  (∀ i c p, l !! i = Some c → k !! i = Some p → placed c p) →
  count waited (zip l k) = length k ∧ Forall (λ c, c = Idle) l.
Proof.
  induction l as [|c l IH]; intros [|p k] Hl Hf Hp; try done. inversion Hf as [|?? ->]; subst.
  destruct (IH k) as [Hc HI]; [by injection Hl|done|intros i; apply (Hp (S i))|].
  assert (c = Idle) as -> by (pose proof (Hp 0 c Finished eq_refl eq_refl) as Hpl;
    by destruct c as [| |[]|[]|[]|[]| |]).
  simpl. rewrite Hc. split; [done|by constructor].
Qed.

Lemma checked_data n s :
  good n s → phases s !! 0 = Some AtCheck → data_ (object s) = mkShared true n.
Proof.
  intros Hg H0. pose proof (good_joined _ _ Hg H0) as Hf.
  pose proof (good_threads _ _ Hg) as Ht. pose proof (good_phases _ _ Hg) as Hp.
  pose proof (good_placed _ _ Hg) as Hpl. destruct (all_good_base _ _ Hg) as (b & Hbn & Hbw & Hb).
  pose proof (inv_owned _ _ (good_object _ _ Hg)) as Hown. unfold pairs in *.
  destruct (threads (object s)) as [|c0 l] eqn:El, (phases s) as [|p0 k] eqn:Ek; try done.
  simpl in H0, Hf, Ht, Hp. simplify_eq.
  destruct (joined_count l k) as [Hc HI]; [lia|done|intros i; apply (Hpl (S i))|].
  assert (c0 = Idle) as -> by (pose proof (Hpl 0 c0 AtCheck eq_refl eq_refl) as Hpl0;
    by destruct c0 as [| |[]|[]|[]|[]| |]).
  simpl in Hbn, Hbw. rewrite Hc in Hbn.
  destruct (lock_ (object s)) as [i|].
  - destruct (Hown i eq_refl) as (c & Hi & Hh). destruct i as [|i]; simplify_eq/=.
    rewrite Forall_lookup in HI. by rewrite (HI _ _ Hi) in Hh.
  - rewrite Hb. destruct b as [w m]. simpl in *. by subst.
Qed.

(** *** No deadlock *)

(** A thread that can go on when the mutex is free. *)
Definition can_move (t : thread) : bool :=
  match t with
  | ((UseAcquire _ | WaitAcquire _ _ _), _) => true
  | (Idle, (AtWait | AtEnd | AtWrite | AtNotifyAll)) => true
  | _ => false
  end.

Definition progress (s : state shared phase) : Prop :=
  ∃ l s', spurious l = false ∧ exec s l = Some s'.

Lemma internal_progress s :
  (∃ i a o', is_internal a = true ∧ a ≠ SpuriousWakeup ∧
    AtomicData.exec (object s) (i, a) = Some o') → progress s.
Proof.
  intros (i & a & o' & Ha & Hn & He). exists (Internal i a). eexists. split; [by destruct a|].
  unfold Programs.exec. by rewrite Ha, He.
Qed.

Lemma move_progress n s i c p :
  good n s → lock_ (object s) = None →
  threads (object s) !! i = Some c → phases s !! i = Some p → can_move (c, p) = true → progress s.
Proof.
  intros Hg Hl Hi Hip Hm. pose proof (lock_progress _ _ (good_object _ _ Hg)) as Hlp.
  assert (∀ st p', next i p (phases s) (data_ (object s)) = Some (st, p') → c = Idle → progress s)
    as Hiss.
  { intros st p' Hn ->. destruct (issue_enabled next s i p st p' Hi Hip Hn) as (w & s' & ?).
    by exists (Issue i w), s'. }
  destruct c; try done.
  - destruct p; try done; by eapply Hiss.
  - apply internal_progress, Hlp. right. right. eauto.
  - apply internal_progress, Hlp. right. left. split; [done|]. by repeat eexists.
Qed.

(** While the main thread waits and nobody else can go on, all have ended. *)
Lemma waiters_finished n s :
  good n s → phases s !! 0 = Some AtJoin →
  (∀ i c p, threads (object s) !! i = Some c → phases s !! i = Some p →
    (c = Idle ∧ can_move (Idle, p) = false) ∨ is_sleeping c = true) →
  forallb is_finished (tail (phases s)) = true.
Proof.
  intros Hg Hp Hrest. apply Is_true_true, forallb_True, Forall_lookup. intros i q Hq.
  assert (phases s !! S i = Some q) as Hq' by by destruct (phases s).
  destruct (lookup_lt_is_Some_2 (threads (object s)) (S i)) as [ci Hci].
  { rewrite (good_threads _ _ Hg), <-(good_phases _ _ Hg). by eapply lookup_lt_Some. }
  destruct (Hrest _ _ _ Hci Hq') as [[-> Hmi]|Hs].
  - pose proof (good_main _ _ Hg _ _ Hq') as [Hmq _].
    destruct q; try done; by specialize (Hmq eq_refl).
  - destruct (good_wake _ _ Hg _ _ Hci Hs); congruence.
Qed.

Lemma all_not_stuck n s : good n s → phases s !! 0 = Some AtCheck ∨ progress s.
Proof.
  intros Hg. pose proof (lock_progress _ _ (good_object _ _ Hg)) as Hlp.
  destruct (lock_ (object s)) as [i|] eqn:Hl.
  { right. apply internal_progress, Hlp. left.
    destruct (inv_owned _ _ (good_object _ _ Hg) i Hl) as (c & Hi & Hc).
    destruct (good_lookup _ _ _ _ Hg Hi) as (p & _ & Hpl).
    exists i, c. split_and!; try done. by intros ->. }
  destruct (decide (0 < count can_move (pairs s))) as [Hm|Hm].
  { right. apply count_pos_inv in Hm as (i & [c p] & Hi & Hm).
    apply lookup_zip_with_Some in Hi as (? & ? & [= <- <-] & Hi & Hip). by eapply move_progress. }
  assert (∀ i c p, threads (object s) !! i = Some c → phases s !! i = Some p →
    (c = Idle ∧ can_move (Idle, p) = false) ∨ is_sleeping c = true) as Hrest.
  { intros i c p Hi Hip. pose proof (pairs_lookup _ _ _ _ Hi Hip) as Hpi.
    destruct (holds_lock c) eqn:Hh.
    { by rewrite (inv_owner _ _ (good_object _ _ Hg) _ _ Hi Hh) in Hl. }
    destruct (can_move (c, p)) eqn:Hmv; [pose proof (count_pos _ _ _ _ Hpi Hmv); lia|].
    pose proof (good_placed _ _ Hg _ _ _ Hi Hip). destruct c; try done; auto. }
  destruct (lookup_lt_is_Some_2 (phases s) 0) as [p Hp]; [rewrite (good_phases _ _ Hg); lia|].
  destruct (lookup_lt_is_Some_2 (threads (object s)) 0) as [c Hc];
    [rewrite (good_threads _ _ Hg); lia|].
  pose proof (proj2 (good_main _ _ Hg 0 p Hp) eq_refl) as Hm0.
  pose proof (good_placed _ _ Hg 0 c p Hc Hp) as Hpl.
  destruct (Hrest 0 c p Hc Hp) as [[-> Hmv]|Hs];
    [|by destruct c as [| |[]|[]|[]|[]| |], p].
  destruct p; try done; [|by left]. right.
  pose proof (waiters_finished n s Hg Hp Hrest) as Hall.
  destruct (issue_enabled next s 0 AtJoin Step AtCheck Hc Hp) as (w & s' & ?);
    [cbn; by rewrite Hall|]. by exists (Issue 0 w), s'.
Qed.

(** *** Termination *)

Definition weight (n : nat) (t : thread) : nat :=
  match t with
  | (Idle, AtWait) => 13
  | (Idle, (AtEnd | AtJoin)) => 1
  | (Idle, (Finished | AtCheck)) => 0
  | (Idle, AtWrite) => 2 * n + 10
  | (Idle, AtNotifyAll) => 2 * n + 2
  | (UseAcquire _, _) => 2 * n + 9
  | (Inside None _ rest, _) => 2 * n + 3 + length rest
  | (WaitAcquire _ _ _, _) => 12
  | (WaitTest _ _ _, _) => 11
  | (WaitSleep _ _ _, _) => 10
  | (Inside (Some _) _ rest, _) => 2 + length rest
  | _ => 0
  end.

Definition measure (n : nat) (s : state shared phase) : nat :=
  sum_list (weight n <$> pairs s).

Lemma all_measure_set n s i c p c' p' o' :
  threads (object s) !! i = Some c → phases s !! i = Some p →
  threads o' = <[i := c']> (threads (object s)) →
  measure n (mkState o' (<[i := p']> (phases s))) + weight n (c, p)
    = measure n s + weight n (c', p').
Proof.
  intros Hi Hip Ht. unfold measure. rewrite (pairs_set _ _ _ _ _ Ht).
  apply sum_list_insert. by apply pairs_lookup.
Qed.

Lemma sum_wake n l k :
  sum_list (weight n <$> zip (wake <$> l) k) ≤ sum_list (weight n <$> zip l k) + 2 * length l.
Proof.
  revert k. induction l as [|c l IH]; intros [|p k]; csimpl; try lia.
  specialize (IH k). destruct c; simpl in *; lia.
Qed.

Lemma all_measure_notify n s :
  good n s → threads (object s) !! 0 = Some Idle → phases s !! 0 = Some AtNotifyAll →
  measure n (mkState (notify_all (object s)) (<[0 := AtJoin]> (phases s))) < measure n s.
Proof.
  intros Hg Hi Hip.
  pose proof (all_measure_set n s 0 Idle AtNotifyAll Idle AtJoin (object s) Hi Hip
    ltac:(by rewrite list_insert_id)) as Hm.
  pose proof (good_threads _ _ Hg) as Ht. unfold measure, pairs in *. simpl in *.
  destruct (threads (object s)) as [|c0 l]; [done|]. destruct (phases s) as [|p0 k]; [done|].
  injection Hi as ->. injection Hip as ->. injection Ht as Ht.
  pose proof (sum_wake n l k). csimpl. csimpl in Hm. simpl in *. lia.
Qed.

Lemma all_exec_measure n s l s' :
  good n s → exec s l = Some s' →
  if spurious l then measure n s' = measure n s + 2 else measure n s' < measure n s.
Proof.
  intros Hg. destruct l as [i woken|i a]; unfold Programs.exec.
  - destruct (phases s !! i) as [p|] eqn:Hip; [|done].
    destruct (threads (object s) !! i) as [[]|] eqn:Hi; try done.
    assert (∀ c' p' o, threads o = <[i := c']> (threads (object s)) →
      weight n (c', p') < weight n (Idle, p) →
      measure n (mkState o (<[i := p']> (phases s))) < measure n s) as Hm.
    { intros c' p' o Ho Hw. pose proof (all_measure_set n s i Idle p c' p' o Hi Hip Ho). lia. }
    pose proof (list_insert_id _ _ _ Hi) as Hid.
    destruct p; cbn [next mbind option_bind statement_action]; try done.
    + unfold AtomicData.exec. rewrite Hi. simpl. intros [= <-].
      eapply Hm; [done|simpl; lia].
    + intros [= <-]. by eapply (Hm Idle); [|simpl; lia].
    + unfold AtomicData.exec. rewrite Hi. simpl. intros [= <-].
      eapply Hm; [done|simpl; lia].
    + unfold AtomicData.exec. rewrite Hi. simpl. intros [= <-].
      assert (i = 0) as -> by by apply (good_main _ _ Hg _ _ Hip). by apply all_measure_notify.
    + destruct (forallb _ _) eqn:Hall; [|done]. cbn. intros [= <-].
      by eapply (Hm Idle); [|simpl; lia].
  - destruct (is_internal a) eqn:Ha; [|done].
    destruct (AtomicData.exec (object s) (i, a)) as [o|] eqn:He; [|done]. intros [= <-].
    unfold AtomicData.exec in He. destruct (threads (object s) !! i) as [c|] eqn:Hi; [|done].
    destruct (good_lookup _ _ _ _ Hg Hi) as (p & Hip & Hpl). cbn [mbind option_bind] in He.
    assert (∀ c', threads o = <[i := c']> (threads (object s)) →
      measure n (mkState o (phases s)) + weight n (c, p) = measure n s + weight n (c', p)) as Hm.
    { intros c' Ho. rewrite <-(list_insert_id _ _ _ Hip) at 1. by eapply all_measure_set. }
    destruct a, c as [| |[]|[]|[]|[q|] h [|g rest]| |], p; try done; simpl in He, Hpl;
      simplify_eq; try destruct Hpl as (-> & ->); cbn [spurious];
      try unfold acquire in He; repeat case_match; simplify_eq/=;
      specialize (Hm _ eq_refl); simpl in Hm; lia.
Qed.

Lemma all_run_measure n s ls s' :
  good n s → run exec s ls = Some s' →
  length ls + measure n s' ≤ measure n s + 3 * length (filter spurious ls).
Proof.
  revert s. induction ls as [|l ls IH]; intros s Hg; simpl; [intros [= ->]; lia|].
  destruct (exec s l) as [s1|] eqn:He; [|done]. intros Hr.
  specialize (IH _ (all_exec_good _ _ _ _ Hg He) Hr). pose proof (all_exec_measure _ _ _ _ Hg He) as Hm.
  rewrite filter_cons.
  destruct (decide _) as [Hd|Hd]; destruct (spurious l); simpl in *; try done; lia.
Qed.

Lemma measure_start n : measure n (start n) = 15 * n + 10.
Proof.
  unfold measure, pairs. simpl.
  assert (∀ m, sum_list (weight n <$> zip (replicate m Idle) (replicate m AtWait)) = 13 * m) as ->.
  { induction m as [|m IH]; [done|]. csimpl. rewrite IH. lia. }
  lia.
Qed.

(** ** Properties *)

(** C26: the test [atomic_data_notify_all] always ends, and passes, in every
    interleaving of its main thread and [n] others, also if a thread only starts to
    wait after the notification. A run has at most [15 * n + 10] steps and three
    more for every spurious wake-up; until the main thread has joined the others
    some thread can take a step that is not a spurious wake-up; and when it has,
    each of them has added one to [num_threads]. *)
Theorem notify_all_test_passes n ls s :
  run exec (start n) ls = Some s →
  length ls ≤ 15 * n + 10 + 3 * length (filter spurious ls) ∧
  (phases s !! 0 = Some AtCheck ∨ ∃ l s', spurious l = false ∧ exec s l = Some s') ∧
  (phases s !! 0 = Some AtCheck → check n (data_ (object s)) = true).
Proof.
  intros Hrun. assert (reachable_state n s) as Hr by by eapply (run_reachable exec).
  split_and!.
  - pose proof (all_run_measure n _ _ _ (all_good_start n) Hrun) as Hm. rewrite measure_start in Hm. lia.
  - by apply (all_not_stuck n), all_reachable_good.
  - intros H0. rewrite (checked_data n s (all_reachable_good n s Hr) H0). apply Nat.eqb_refl.
Qed.

(** Two threads: one sleeps when it is notified, the other comes later. *)
Definition enter (i : nat) : list (action shared) :=
  [Issue i None; Internal i Acquire; Internal i Test].
Definition late_thread : list (action shared) :=
  enter 1 ++
  [Issue 0 None; Internal 0 Acquire; Internal 0 Access; Internal 0 Return; Issue 0 None] ++
  enter 2 ++ [Internal 2 Access; Internal 2 Return; Internal 1 Acquire; Internal 1 Test;
    Internal 1 Access; Internal 1 Return; Issue 1 None; Issue 2 None; Issue 0 None].
Definition final_state : state shared phase := default (start 2) (run exec (start 2) late_thread).

Lemma notify_all_test_passes_witness :
  length late_thread ≤ 40 + 3 * length (filter spurious late_thread) ∧
  check 2 (data_ (object final_state)) = true.
Proof.
  destruct (notify_all_test_passes 2 late_thread final_state) as (H & _ & Hc);
    [vm_compute; reflexivity|]. split; [exact H|]. apply Hc. vm_compute. reflexivity.
Defined.

End NotifyAllTest.
