(* ===== verification/AtomicSections.v ===== *)
(** * Critical sections as single steps

    The other files take a critical section of [AtomicData] as one step. Here is
    why they may: a program whose threads share data through
    [src/include/grpcw/util/atomic_data.hpp], statement by statement as in
    [AtomicPrograms.v], refines the program in which every [use_safely] and every
    [wait_to_use_safely] is one step that does not sleep. What a thread reads
    outside of its calls has to be its own ([isolated]): the variables that its
    callbacks capture and that no other thread's callback touches. Both test
    programs of the repository are of this kind. *)
From S2P Require Import Prelude AtomicData AtomicPrograms AtomicNotifyAll.

Module AtomicSections.
Import AtomicData Programs.
Section Refinement.
Context {T P V : Type}.
Context (next : nat → P → list P → T → option (statement T * P)).

(** ** The program with atomic calls *)
Record atomic_state : Type := mkAtomic { data : T; places : list P }.

(** Thread [i] executes its next statement. A call of [wait_to_use_safely] only
    does if its predicate holds; notifications have nothing to do. *)
Definition atomic_exec (s : atomic_state) (i : nat) : option atomic_state :=
  p ← places s !! i;
  '(st, p') ← next i p (places s) (data s);
  let go d := Some (mkAtomic d (<[i := p']> (places s))) in
  match st with
  | WaitToUse q f => if q (data s) then go (apply_func f (data s)) else None
  | Use f => go (apply_func f (data s))
  | DoNotifyOne | DoNotifyAll | Step => go (data s)
  end.

(** ** Isolation *)
Definition is_call (st : statement T) : bool :=
  match st with WaitToUse _ _ | Use _ => true | _ => false end.
Definition accesses (st : statement T) : list (T → T) :=
  match st with WaitToUse _ f | Use f => f | _ => [] end.

Definition reached_by_call (q : P) : Prop :=
  ∃ i p ps d st, next i p ps d = Some (st, q) ∧ is_call st = true.

(** What thread [i] reads of the data without the lock, and the laws that make
    it the thread's own among the [n] threads: which call comes next does not
    depend on the other threads; other statements may also wait for a phase that
    no call leads to; callbacks leave the views of the other threads alone. *)
Context (view : nat → T → V) (n : nat).

Record isolated : Prop := mkIsolated {
  isolated_call i p ps ps' d d' st p' :
    i < n → next i p ps d = Some (st, p') → is_call st = true → view i d' = view i d →
    next i p ps' d' = Some (st, p');
  isolated_step i p ps ps' d d' st p' :
    i < n → next i p ps d = Some (st, p') → view i d' = view i d → length ps' = length ps →
    (∀ j q q', ps !! j = Some q → ps' !! j = Some q' → q = q' ∨ reached_by_call q) →
    next i p ps' d' = Some (st, p');
  isolated_access i p ps d st p' g j x :
    i < n → j < n → j ≠ i → next i p ps d = Some (st, p') → g ∈ accesses st →
    view j (g x) = view j x
}.

Context (Hiso : isolated).

(** ** The simulation *)

(** Notifications leave everybody where he is in his call. *)
Lemma notify_one_woken woken (o o' : monitor T) :
  notify_one woken o = Some o' →
  history o' = history o ∧ length (threads o') = length (threads o) ∧
  ∀ j c, threads o' !! j = Some c → ∃ c', threads o !! j = Some c' ∧ (c = c' ∨ c = wake c').
Proof.
  destruct woken as [k|]; simpl; [|destruct (count _ _); [intros [= <-]; eauto 6|done]].
  destruct (threads o !! k) as [[]|] eqn:Hk; intros; simplify_eq/=.
  rewrite length_insert. split_and!; [done..|].
  intros j c [[-> [<- _]]|[? Hj]]%list_lookup_insert_Some; eauto.
Qed.

Lemma woken_idle i (o o' : monitor T) :
  length (threads o') = length (threads o) →
  (∀ j c, threads o' !! j = Some c → ∃ c', threads o !! j = Some c' ∧ (c = c' ∨ c = wake c')) →
  threads o !! i = Some Idle → threads o' !! i = Some Idle.
Proof.
  intros Hl Hw Hi. destruct (lookup_lt_is_Some_2 (threads o') i) as [c Hc].
  { rewrite Hl. by eapply lookup_lt_Some. }
  destruct (Hw i c Hc) as (c' & Hc' & Hor). rewrite Hi in Hc'. injection Hc' as <-.
  rewrite Hc. by destruct Hor as [->| ->].
Qed.

(** The data after the calls that have returned. *)
Definition after (d0 : T) (h : list (option (T → bool) * list (T → T))) : T :=
  foldl (λ d c, apply_func c.2 d) d0 h.

Lemma execution_after d0 h d : execution atomic_step d0 h d → d = after d0 h.
Proof. induction 1 as [|d c d' h d'' [_ ->] _ IH]; [done|]. by rewrite IH. Qed.

Lemma after_snoc d0 h c : after d0 (h ++ [c]) = apply_func c.2 (after d0 h).
Proof. unfold after. by rewrite foldl_app. Qed.

(** Thread [i], which is at [c] and will be at [p] after its call, is at [p0]
    for the atomic program. *)
Definition at_call (i : nat) (c : pc T) (p p0 : P) (ps : list P) (d : T) : Prop :=
  match c with
  | Idle => p0 = p
  | UseAcquire f | Inside None f _ => next i p0 ps d = Some (Use f, p)
  | WaitAcquire untimed q f | WaitTest untimed q f | WaitSleep untimed q f
  | Inside (Some q) f _ => next i p0 ps d = Some (WaitToUse q f, p)
  | _ => False
  end.

Record related (d0 : T) (c : state T P) (a : atomic_state) : Prop := mkRelated {
  rel_object : AtomicData.inv d0 (object c);
  rel_threads : length (threads (object c)) = n;
  rel_phases : length (phases c) = n;
  rel_places : length (places a) = n;
  rel_data : data a = after d0 (history (object c));
  rel_at i pc p p0 : threads (object c) !! i = Some pc → phases c !! i = Some p →
    places a !! i = Some p0 → at_call i pc p p0 (places a) (data a)
}.

Lemma at_call_stable i c p p0 ps ps' d d' :
  i < n → view i d' = view i d → at_call i c p p0 ps d → at_call i c p p0 ps' d'.
Proof.
  intros Hi Hv. destruct c as [|f|[] q f|[] q f|[] q f|[q|] f r| |]; simpl; try done;
    intros Hn; by eapply isolated_call.
Qed.

Lemma at_call_reached i c p p0 ps d :
  at_call i c p p0 ps d → p = p0 ∨ reached_by_call p.
Proof.
  destruct c as [|f|[] q f|[] q f|[] q f|[q|] f r| |]; simpl; try done; try by left.
  all: right; unfold reached_by_call; eauto 10.
Qed.

Lemma view_func i p0 ps d st p f pre j x :
  i < n → j < n → j ≠ i → next i p0 ps d = Some (st, p) → accesses st = f → (∃ r, f = pre ++ r) →
  view j (apply_func pre x) = view j x.
Proof.
  intros Hi Hj Hne Hn Hf [r Hr]. assert (∀ g, g ∈ pre → g ∈ accesses st) as Hsub.
  { intros g Hg. rewrite Hf, Hr. apply elem_of_app. by left. }
  clear Hf Hr r f. revert x. induction pre as [|g pre IH]; intros x; [done|]. simpl.
  unfold apply_func in *. simpl. rewrite IH by (intros; apply Hsub; by right).
  apply (isolated_access Hiso i p0 ps d st p); [done..|]. apply Hsub. left.
Qed.

(** A thread that is not in a critical section sees the data of the atomic
    program. *)
Lemma related_view d0 c a i pc :
  related d0 c a → threads (object c) !! i = Some pc → holds_lock pc = false →
  view i (data_ (object c)) = view i (data a).
Proof.
  intros [Ho Ht Hp Hpl Hd Hat] Hi Hpc. assert (i < n) as Hin by (rewrite <-Ht; by eapply lookup_lt_Some).
  destruct (inv_data _ _ Ho) as (b & Hb%execution_after & Hl). rewrite <-Hd in Hb. subst b.
  destruct (lock_ (object c)) as [j|] eqn:El; [|by rewrite Hl].
  destruct (inv_owned _ _ Ho j El) as (cj & Hj & Hcj). specialize (Hl cj Hj).
  assert (j < n) as Hjn by (rewrite <-Ht; by eapply lookup_lt_Some).
  assert (j ≠ i) as Hne by (intros ->; congruence).
  destruct cj as [| | | | |q f r| |]; try done; simpl in Hl; try by rewrite Hl.
  destruct Hl as (_ & pre & Hf & ->).
  destruct (lookup_lt_is_Some_2 (phases c) j) as [p Hpj]; [lia|].
  destruct (lookup_lt_is_Some_2 (places a) j) as [p0 Hp0]; [lia|].
  pose proof (Hat j _ p p0 Hj Hpj Hp0) as Hn.
  destruct q as [q|]; simpl in Hn; by eapply (view_func j); eauto.
Qed.

Lemma related_lt d0 c a i pc :
  related d0 c a → threads (object c) !! i = Some pc →
  ∃ p p0, i < n ∧ phases c !! i = Some p ∧ places a !! i = Some p0 ∧
    at_call i pc p p0 (places a) (data a).
Proof.
  intros [Ho Ht Hp Hpl Hd Hat] Hi. assert (i < n) by (rewrite <-Ht; by eapply lookup_lt_Some).
  destruct (lookup_lt_is_Some_2 (phases c) i) as [p Hpi]; [lia|].
  destruct (lookup_lt_is_Some_2 (places a) i) as [p0 Hp0]; [lia|].
  exists p, p0. split_and!; [done..|]. by apply Hat.
Qed.

(** The next statement of a thread outside of its calls is that of the atomic
    program. *)
Lemma related_next d0 c a i p st p' :
  related d0 c a → threads (object c) !! i = Some Idle → phases c !! i = Some p →
  next i p (phases c) (data_ (object c)) = Some (st, p') →
  next i p (places a) (data a) = Some (st, p').
Proof.
  intros Hr Hi Hp Hn. destruct (related_lt d0 c a i Idle Hr Hi) as (q & q0 & Hin & ? & _).
  eapply (isolated_step Hiso); [done|exact Hn| | |].
  - symmetry. by eapply related_view.
  - by rewrite (rel_places _ _ _ Hr), (rel_phases _ _ _ Hr).
  - intros j q1 q2 Hj Hj2.
    destruct (lookup_lt_is_Some_2 (threads (object c)) j) as [pc Hpc].
    { rewrite (rel_threads _ _ _ Hr), <-(rel_phases _ _ _ Hr). by eapply lookup_lt_Some. }
    eapply at_call_reached. by eapply (rel_at _ _ _ Hr).
Qed.

(** Thread [i] moves inside of its call, the atomic program waits. *)
Lemma related_inside d0 c a i pc pc' o :
  related d0 c a → threads (object c) !! i = Some pc → AtomicData.inv d0 o →
  threads o = <[i := pc']> (threads (object c)) → history o = history (object c) →
  (∀ p p0, at_call i pc p p0 (places a) (data a) → at_call i pc' p p0 (places a) (data a)) →
  related d0 (mkState o (phases c)) a.
Proof.
  intros [Ho Ht Hp Hpl Hd Hat] Hi Hinv Hth Hh Hpc. split; simpl; try done.
  - by rewrite Hth, length_insert.
  - by rewrite Hh.
  - intros j pj p p0. rewrite Hth. intros [[-> [<- _]]|[? Hj]]%list_lookup_insert_Some; [|by apply Hat].
    intros. apply Hpc. by apply Hat.
Qed.

(** Threads that wake up are still in their calls. *)
Lemma related_woken d0 c a o :
  related d0 c a → AtomicData.inv d0 o → history o = history (object c) →
  length (threads o) = length (threads (object c)) →
  (∀ j pj, threads o !! j = Some pj → ∃ pj', threads (object c) !! j = Some pj' ∧ (pj = pj' ∨ pj = wake pj')) →
  related d0 (mkState o (phases c)) a.
Proof.
  intros [Ho Ht Hp Hpl Hd Hat] Hinv Hh Hl Hw. split; simpl; try done.
  - by rewrite Hl.
  - by rewrite Hh.
  - intros j pj p p0 Hj Hpj Hp0. destruct (Hw j pj Hj) as (pj' & Hj' & [->| ->]); [by apply Hat|].
    specialize (Hat j pj' p p0 Hj' Hpj Hp0). by destruct pj' as [| | | |[]| | |].
Qed.

(** Thread [i] has executed a statement, at once for the atomic program. *)
Lemma related_move d0 c a i p' d' o :
  related d0 c a → i < n → AtomicData.inv d0 o →
  threads o = <[i := Idle]> (threads (object c)) → d' = after d0 (history o) →
  (∀ j, j < n → j ≠ i → view j d' = view j (data a)) →
  related d0 (mkState o (<[i := p']> (phases c))) (mkAtomic d' (<[i := p']> (places a))).
Proof.
  intros [Ho Ht Hp Hpl Hd Hat] Hin Hinv Hth Hh Hv. split; simpl; rewrite ?length_insert; try done.
  - by rewrite Hth, length_insert.
  - intros j pj p p0. rewrite Hth. intros Hj Hpj Hp0. destruct (decide (j = i)) as [->|Hne].
    + rewrite list_lookup_insert_eq in Hj by lia. rewrite list_lookup_insert_eq in Hpj, Hp0 by lia.
      by simplify_eq.
    + rewrite list_lookup_insert_ne in Hj by done. rewrite list_lookup_insert_ne in Hpj, Hp0 by done.
      assert (j < n) by (rewrite <-Hpl; by eapply lookup_lt_Some).
      eapply at_call_stable; [done|by apply Hv|by apply Hat].
Qed.

(** Thread [i] starts a call. *)
Lemma related_call d0 c a i p st p' pc o :
  related d0 c a → threads (object c) !! i = Some Idle → phases c !! i = Some p →
  next i p (phases c) (data_ (object c)) = Some (st, p') → AtomicData.inv d0 o →
  threads o = <[i := pc]> (threads (object c)) → history o = history (object c) →
  (next i p (places a) (data a) = Some (st, p') → at_call i pc p' p (places a) (data a)) →
  related d0 (mkState o (<[i := p']> (phases c))) a.
Proof.
  intros Hr Hi Hp Hn Hinv Hth Hh Hpc. pose proof (related_next _ _ _ _ _ _ _ Hr Hi Hp Hn) as Hna.
  destruct Hr as [Ho Ht Hpl Hpa Hd Hat]. split; simpl; rewrite ?length_insert; try done.
  - by rewrite Hth, length_insert.
  - by rewrite Hh.
  - intros j pj q p0. rewrite Hth.
    intros [[-> [<- _]]|[? Hj]]%list_lookup_insert_Some [[? [<- _]]|[? Hq]]%list_lookup_insert_Some Hp0;
      try done; [|by apply Hat].
    specialize (Hat _ _ _ _ Hi Hp Hp0). simpl in Hat. subst p0. by apply Hpc.
Qed.

Abbreviation refined d0 c' a := (∃ ls a', execution (exec_step atomic_exec) a ls a' ∧ related d0 c' a').

Lemma stutter d0 c a : related d0 c a → refined d0 c a.
Proof. intros. exists [], a. split; [constructor|done]. Qed.

Lemma simulate_move d0 c a a' i : atomic_exec a i = Some a' → related d0 c a' → refined d0 c a.
Proof. intros. exists [i], a'. split; [|done]. eapply execution_cons; [done|constructor]. Qed.

Lemma simulate_issue d0 c a i woken c' :
  related d0 c a → Programs.exec next c (Issue i woken) = Some c' → refined d0 c' a.
Proof.
  intros Hr. unfold Programs.exec.
  destruct (phases c !! i) as [p|] eqn:Hp; [|done].
  destruct (threads (object c) !! i) as [[]|] eqn:Hi; try done.
  destruct (next i p _ _) as [[st p']|] eqn:Hn; [|done]. cbn [mbind option_bind].
  pose proof (related_next _ _ _ _ _ _ _ Hr Hi Hp Hn) as Hna.
  destruct (related_lt d0 c a i Idle Hr Hi) as (q & p0 & Hin & Hq & Hp0 & Hat).
  simpl in Hat. assert (q = p) as -> by congruence. subst p0.
  assert (∀ o, related d0 (mkState o (phases c)) a → threads o !! i = Some Idle →
    (st = DoNotifyOne ∨ st = DoNotifyAll ∨ st = Step) →
    refined d0 (mkState o (<[i := p']> (phases c))) a) as Hmove.
  { intros o Hro Hio Hst. apply (simulate_move _ _ _ (mkAtomic (data a) (<[i := p']> (places a))) i).
    - unfold atomic_exec. rewrite Hp0. cbn [mbind option_bind]. rewrite Hna. simpl.
      by destruct Hst as [->|[->| ->]].
    - apply (related_move d0 (mkState o (phases c)) a i p' (data a) o Hro); try done;
        [apply Hro|by rewrite list_insert_id|apply Hro]. }
  pose proof (rel_object _ _ _ Hr) as Hinv.
  destruct st as [q f|f| | |]; cbn [statement_action]; [| | | |intros [= <-]; apply Hmove; auto; by destruct c].
  all: destruct (AtomicData.exec _ _) as [o|] eqn:He; [|done]; intros [= <-];
    pose proof (inv_exec _ _ _ _ Hinv He) as Ho; unfold AtomicData.exec in He; rewrite Hi in He;
    simpl in He.
  - injection He as <-. apply stutter. by eapply (related_call _ _ _ _ _ _ _ (WaitAcquire untimed q f)).
  - injection He as <-. apply stutter. by eapply (related_call _ _ _ _ _ _ _ (UseAcquire f)).
  - destruct (notify_one_woken _ _ _ He) as (Hh & Hl & Hw).
    apply Hmove; auto; [by eapply related_woken|by eapply woken_idle].
  - injection He as <-. apply Hmove; auto.
    + eapply related_woken; [done..| |]; simpl; [by rewrite length_fmap|].
      intros j pj. rewrite list_lookup_fmap. intros (pj' & ? & ->)%fmap_Some. eauto.
    + simpl. by rewrite list_lookup_fmap, Hi.
Qed.

(** A call returns: for the atomic program it happens now. *)
Lemma related_return d0 c a i q f p p0 :
  related d0 c a → threads (object c) !! i = Some (Inside q f []) →
  phases c !! i = Some p → places a !! i = Some p0 →
  ∃ a', atomic_exec a i = Some a' ∧
    related d0 (mkState (commit (q, f) (release i Idle (object c))) (phases c)) a'.
Proof.
  intros Hr Hi Hp Hp0. pose proof Hr as [Ho Ht Hpl Hpa Hd Hat].
  assert (i < n) as Hin by (rewrite <-Ht; by eapply lookup_lt_Some).
  specialize (Hat _ _ _ _ Hi Hp Hp0).
  assert (AtomicData.exec (object c) (i, Return) = Some (commit (q, f) (release i Idle (object c)))) as He
    by (unfold AtomicData.exec; by rewrite Hi).
  destruct (inv_data _ _ Ho) as (b & Hb%execution_after & Hl). rewrite <-Hd in Hb. subst b.
  rewrite (inv_owner _ _ Ho i _ Hi eq_refl) in Hl. destruct (Hl _ Hi) as [Hq _].
  exists (mkAtomic (apply_func f (data a)) (<[i := p]> (places a))).
  assert (∃ st, next i p0 (places a) (data a) = Some (st, p) ∧ accesses st = f ∧
    st = match q with Some q => WaitToUse q f | None => Use f end) as (st & Hn & Hf & Hst)
    by (destruct q; simpl in Hat; eauto).
  split.
  - unfold atomic_exec. rewrite Hp0. cbn [mbind option_bind]. rewrite Hn, Hst.
    cbn [mbind option_bind]. destruct q as [q|]; [|done]. by rewrite (Hq q).
  - rewrite <-(list_insert_id (phases c) i p) by done.
    apply related_move; try done; [by eapply inv_exec|simpl; by rewrite after_snoc, <-Hd|].
    intros j Hj Hne. eapply (view_func i); try done. exists []. by rewrite app_nil_r.
Qed.

Lemma simulate_internal d0 c a i x c' :
  related d0 c a → Programs.exec next c (Internal i x) = Some c' → refined d0 c' a.
Proof.
  intros Hr. unfold Programs.exec. destruct (is_internal x) eqn:Hx; [|done].
  destruct (AtomicData.exec (object c) (i, x)) as [o|] eqn:He; [|done]. intros [= <-].
  pose proof (rel_object _ _ _ Hr) as Hinv. pose proof (inv_exec _ _ _ _ Hinv He) as Ho.
  unfold AtomicData.exec in He. destruct (threads (object c) !! i) as [pc|] eqn:Hi; [|done].
  destruct (related_lt d0 c a i pc Hr Hi) as (p & p0 & Hin & Hp & Hp0 & Hat).
  cbn [mbind option_bind] in He.
  assert (∀ pc', threads o = <[i := pc']> (threads (object c)) → history o = history (object c) →
    (∀ p p0, at_call i pc p p0 (places a) (data a) → at_call i pc' p p0 (places a) (data a)) →
    refined d0 (mkState o (phases c)) a) as Hin'.
  { intros pc' ???. apply stutter. by eapply related_inside. }
  destruct x as [g0|? ? g0| | | | | | | | | |], pc as [|f|[] q f|[] q f|[] q f|q f [|g r]| |]; try done; simpl in He, Hat; try done;
    simplify_eq.
  - unfold acquire in He. destruct (lock_ (object c)); simplify_eq/=. by eapply Hin'.
  - unfold acquire in He. destruct (lock_ (object c)); simplify_eq/=. by eapply Hin'.
  - destruct (q (data_ (object c))); simplify_eq/=; by eapply Hin'.
  - by eapply Hin'.
  - destruct (related_return d0 c a i q f p p0 Hr Hi Hp Hp0) as (a' & Ha & Hra).
    by apply (simulate_move _ _ _ a' i).
  - by eapply Hin'.
Qed.

Lemma programs_simulation d0 : simulation_step (exec_step (Programs.exec next)) (exec_step atomic_exec) (related d0).
Proof. intros c [i woken|i x] c' a Hr Hs; [by eapply simulate_issue|by eapply simulate_internal]. Qed.

(** ** The other direction: atomic steps are runs without interleaving *)

(** Nobody is in a call. *)
Definition quiet (d : T) (ps : list P) (h : list (option (T → bool) * list (T → T))) : state T P :=
  mkState (mkMonitor d None (replicate n Idle) h) ps.

Lemma run_body i q f rest o ps :
  threads o !! i = Some (Inside q f rest) →
  run (Programs.exec next) (mkState o ps) (Internal i <$> (replicate (length rest) Access ++ [Return])) =
  Some (mkState (mkMonitor (apply_func rest (data_ o)) None (<[i := Idle]> (threads o))
    (history o ++ [(q, f)])) ps).
Proof.
  revert o. induction rest as [|g rest IH]; intros o Hi; simpl.
  - unfold AtomicData.exec. by rewrite Hi.
  - unfold AtomicData.exec. rewrite Hi. cbn [mbind option_bind call_func]. rewrite IH.
    + simpl. by rewrite list_insert_insert_eq.
    + apply list_lookup_insert_eq. by eapply lookup_lt_Some.
Qed.

Definition body (i : nat) (f : list (T → T)) : list (Programs.action T) :=
  Internal i <$> (replicate (length f) Access ++ [Return]).

Lemma run_use d ts h ps i f :
  ts !! i = Some (UseAcquire f) →
  run (Programs.exec next) (mkState (mkMonitor d None ts h) ps) (Internal i Acquire :: body i f) =
  Some (mkState (mkMonitor (apply_func f d) None (<[i := Idle]> ts) (h ++ [(None, f)])) ps).
Proof.
  intros Hi. unfold body. cbn [run Programs.exec is_internal object]. unfold AtomicData.exec at 1. simpl.
  rewrite Hi. cbn [mbind option_bind use_safely acquire lock_]. rewrite (run_body i None f).
  - simpl. by rewrite list_insert_insert_eq.
  - apply list_lookup_insert_eq. by eapply lookup_lt_Some.
Qed.

Lemma run_wait d ts h ps i q f :
  ts !! i = Some (WaitAcquire untimed q f) → q d = true →
  run (Programs.exec next) (mkState (mkMonitor d None ts h) ps)
    (Internal i Acquire :: Internal i Test :: body i f) =
  Some (mkState (mkMonitor (apply_func f d) None (<[i := Idle]> ts) (h ++ [(Some q, f)])) ps).
Proof.
  intros Hi Hq. assert (i < length ts) as Hl by (by eapply lookup_lt_Some).
  set (o1 := mkMonitor d (Some i) (<[i := WaitTest untimed q f]> ts) h).
  assert (Programs.exec next (mkState (mkMonitor d None ts h) ps) (Internal i Acquire)
    = Some (mkState o1 ps)) as E1.
  { unfold Programs.exec, AtomicData.exec. simpl. by rewrite Hi. }
  assert (Programs.exec next (mkState o1 ps) (Internal i Test)
    = Some (mkState (set_pc i (Inside (Some q) f f) o1) ps)) as E2.
  { unfold Programs.exec, AtomicData.exec. simpl. rewrite list_lookup_insert_eq by done.
    simpl. by rewrite Hq. }
  unfold body. cbn [run]. rewrite E1, E2, (run_body i (Some q) f).
  - simpl. by rewrite !list_insert_insert_eq.
  - apply list_lookup_insert_eq. simpl. by rewrite length_insert.
Qed.

Lemma atomic_exec_run d ps h i a' :
  length ps = n → atomic_exec (mkAtomic d ps) i = Some a' →
  ∃ ls h', run (Programs.exec next) (quiet d ps h) ls = Some (quiet (data a') (places a') h').
Proof.
  intros Hl. unfold atomic_exec. cbn [places data].
  destruct (ps !! i) as [p|] eqn:Hp; [|done]. cbn [mbind option_bind].
  destruct (next i p ps d) as [[st p']|] eqn:Hn; [|done].
  assert (i < n) as Hin by (rewrite <-Hl; by eapply lookup_lt_Some).
  assert (replicate n Idle !! i = Some (Idle : pc T)) as Hi by (by apply lookup_replicate_2).
  assert (count is_sleeping (replicate n Idle : list (pc T)) = 0) as Hc by (clear; by induction n).
  assert (∀ o, match statement_action st None with
      | Some x => AtomicData.exec (mkMonitor d None (replicate n Idle) h) (i, x)
      | None => Some (mkMonitor d None (replicate n Idle) h) end = Some o →
    Programs.exec next (quiet d ps h) (Issue i None) = Some (mkState o (<[i := p']> ps))) as Hissue.
  { intros o Ho. unfold Programs.exec, quiet. cbn [object phases threads data_].
    rewrite Hp, Hi, Hn. cbn [mbind option_bind]. by rewrite Ho. }
  assert (∀ c : pc T, <[i := Idle]> (<[i := c]> (replicate n Idle)) = replicate n Idle) as Hback
    by (intros c; by rewrite list_insert_insert_eq, list_insert_id).
  assert (∀ c : pc T, (<[i := c]> (replicate n Idle)) !! i = Some c) as Hat
    by (intros c; apply list_lookup_insert_eq; by rewrite length_replicate).
  set (o := mkMonitor d None (replicate n Idle) h) in *.
  destruct st as [q f|f| | |]; cbn [mbind option_bind statement_action] in *.
  - destruct (q d) eqn:Hq; [|done]. intros [= <-].
    exists (Issue i None :: Internal i Acquire :: Internal i Test :: body i f), (h ++ [(Some q, f)]).
    rewrite run_cons, (Hissue (mkMonitor d None (<[i := WaitAcquire untimed q f]> (replicate n Idle)) h))
      by (unfold AtomicData.exec; simpl; by rewrite Hi).
    rewrite (run_wait _ _ _ _ _ q) by done. by rewrite Hback.
  - intros [= <-]. exists (Issue i None :: Internal i Acquire :: body i f), (h ++ [(None, f)]).
    rewrite run_cons, (Hissue (mkMonitor d None (<[i := UseAcquire f]> (replicate n Idle)) h))
      by (unfold AtomicData.exec; simpl; by rewrite Hi).
    rewrite run_use by done. by rewrite Hback.
  - intros [= <-]. exists [Issue i None], h. rewrite run_cons.
    by rewrite (Hissue o) by (unfold AtomicData.exec; simpl; rewrite Hi; simpl; by rewrite Hc).
  - intros [= <-]. exists [Issue i None], h. rewrite run_cons.
    rewrite (Hissue (notify_all o)) by (unfold AtomicData.exec; simpl; by rewrite Hi).
    unfold notify_all, quiet. simpl. by rewrite fmap_replicate.
  - intros [= <-]. exists [Issue i None], h. rewrite run_cons. by rewrite (Hissue o).
Qed.

(** ** Properties *)

Abbreviation fine d0 ps := (reachable (λ s, s = mkState (make d0 n) ps) (exec_step (Programs.exec next))).
Abbreviation coarse d0 ps := (reachable (λ s, s = mkAtomic d0 ps) (exec_step atomic_exec)).

Lemma fine_coarse d0 ps c :
  length ps = n → fine d0 ps c → ∃ a, coarse d0 ps a ∧ related d0 c a.
Proof.
  intros Hl. apply (simulation_reachable _ _ _ _ (related d0)).
  - intros ? ->. exists (mkAtomic d0 ps). split; [done|].
    split; simpl; try done; [apply inv_make|apply length_replicate|].
    intros i pc p p0 [-> _]%lookup_replicate ??. simpl. by simplify_eq.
  - apply programs_simulation.
Qed.

Lemma atomic_exec_length a i a' : atomic_exec a i = Some a' → length (places a') = length (places a).
Proof.
  unfold atomic_exec. destruct (places a !! i); [|done]. cbn [mbind option_bind].
  destruct (next i _ _ _) as [[st p']|]; [|done]. cbn [mbind option_bind]. intros Hs.
  assert (∃ d, a' = mkAtomic d (<[i := p']> (places a))) as [d ->].
  { destruct st as [q f|f| | |]; try destruct (q (data a)); simplify_eq; eauto. }
  simpl. by rewrite length_insert.
Qed.

Lemma coarse_fine d0 ps a :
  length ps = n → coarse d0 ps a → length (places a) = n ∧ ∃ h, fine d0 ps (quiet (data a) (places a) h).
Proof.
  intros Hl. induction 1 as [a ->|a i a' _ [Hla [h IH]] Hs].
  - split; [done|]. exists []. by constructor.
  - destruct a as [d qs]. destruct (atomic_exec_run d qs h i a' Hla Hs) as (ls & h' & Hr).
    split.
    + rewrite (atomic_exec_length _ _ _ Hs). done.
    + exists h'. eapply reachable_execution; [exact IH|]. by apply run_execution.
Qed.

(** C20: a program of threads that share data through [AtomicData] and are
    isolated apart from it refines the program whose calls are single steps.
    Every state it can reach, with any number of threads inside of their calls,
    statement by statement, corresponds to a state of the atomic program with the
    same phases of all threads that are outside and, when nobody has the lock,
    the same data; and the states in which no thread is in a call are exactly
    those of the atomic program. *)
Theorem programs_refine_atomic_calls d0 ps :
  length ps = n →
  (∀ c, fine d0 ps c → ∃ a, coarse d0 ps a ∧
    (∀ i p, threads (object c) !! i = Some Idle → phases c !! i = Some p → places a !! i = Some p) ∧
    (lock_ (object c) = None → data_ (object c) = data a)) ∧
  (∀ d qs, coarse d0 ps (mkAtomic d qs) ↔ ∃ h, fine d0 ps (quiet d qs h)).
Proof.
  intros Hl.
  assert (∀ c, fine d0 ps c → ∃ a, coarse d0 ps a ∧ length (places a) = length (phases c) ∧
    (∀ i p, threads (object c) !! i = Some Idle → phases c !! i = Some p → places a !! i = Some p) ∧
    (lock_ (object c) = None → data_ (object c) = data a)) as Href.
  { intros c Hc. destruct (fine_coarse d0 ps c Hl Hc) as (a & Ha & [Ho Ht Hp Hpl Hd Hat]).
    exists a. split_and!; [done|congruence| |].
    - intros i p Hi Hpi. destruct (lookup_lt_is_Some_2 (places a) i) as [p0 Hp0].
      { rewrite Hpl, <-Hp. by eapply lookup_lt_Some. }
      rewrite Hp0. f_equal. apply (Hat i Idle p p0 Hi Hpi Hp0).
    - intros Hlock. rewrite Hd. by apply execution_after, inv_unlocked. }
  split; [intros c Hc; destruct (Href c Hc) as (a & ? & _ & ?); eauto|].
  intros d qs. split; [intros Ha; by apply (coarse_fine d0 ps _ Hl Ha)|].
  intros [h Hc]. destruct (Href _ Hc) as ([d' qs'] & Ha & Hlen & Hpl & Hd).
  simpl in *. rewrite (Hd eq_refl). assert (qs = qs') as ->; [|done].
  apply list_eq_same_length with (length qs); [done|done|].
  intros i x y Hi Hx Hy. assert (i < n).
  { destruct (fine_coarse d0 ps _ Hl Hc) as (? & _ & [_ _ Hp _ _ _]). simpl in Hp. lia. }
  rewrite (Hpl i x) in Hy; [by simplify_eq| |done]. by apply lookup_replicate_2.
Qed.

End Refinement.

(** ** The test programs are isolated *)

Lemma interleaved_isolated : isolated Interleaved.next Interleaved.stop_loop 2.
Proof.
  split.
  - intros i p ps ps' d d' st p' Hi Hn Hc Hv. destruct p; simpl in Hn; simplify_eq; try done.
    destruct (ps !! 0) as [[]|]; by simplify_eq.
  - intros i p ps ps' d d' st p' Hi Hn Hv Hl Hps. destruct p; simpl in *; simplify_eq; [done|by rewrite Hv|].
    destruct (ps !! 0) as [[]|] eqn:H0; try done. simplify_eq.
    destruct (lookup_lt_is_Some_2 ps' 0) as [q Hq]; [rewrite Hl; by eapply lookup_lt_Some|].
    destruct (Hps 0 _ q H0 Hq) as [<-|(i' & p1 & ps1 & d1 & st & Hn & Hst)]; [by rewrite Hq|].
    destruct p1; simpl in Hn; simplify_eq; try done. by destruct (ps1 !! 0) as [[]|]; simplify_eq.
  - intros i p ps d st p' g j x Hi Hj Hne Hn Hg.
    destruct p; simpl in Hn; simplify_eq; [|by apply elem_of_nil in Hg|].
    + destruct i as [|[|]], j as [|[|]]; try lia; simpl in Hg;
        repeat (apply elem_of_cons in Hg as [->|Hg]; [done|]); by apply elem_of_nil in Hg.
    + destruct (ps !! 0) as [[]|]; simplify_eq. by apply elem_of_nil in Hg.
Qed.

Lemma notify_all_isolated n : isolated NotifyAllTest.next (λ _ _, tt) n.
Proof.
  split; [..|done].
  - intros i p ps ps' d d' st p' Hi Hn Hc Hv. destruct p; simpl in Hn; simplify_eq; try done.
    destruct (forallb _ _); by simplify_eq.
  - intros i p ps ps' d d' st p' Hi Hn Hv Hl Hps. destruct p; simpl in *; simplify_eq; try done.
    destruct (forallb NotifyAllTest.is_finished (tail ps)) eqn:Hf; simplify_eq.
    rewrite (proj2 (forallb_forall _ _)); [done|]. intros q Hq.
    apply list_elem_of_In, list_elem_of_lookup in Hq as [j Hj].
    rewrite lookup_tail in Hj.
    destruct (lookup_lt_is_Some_2 ps (S j)) as [q0 H0]; [apply lookup_lt_Some in Hj; lia|].
    assert (NotifyAllTest.is_finished q0 = true) as Hq0.
    { eapply forallb_forall; [exact Hf|]. apply list_elem_of_In, list_elem_of_lookup. exists j.
      by rewrite lookup_tail. }
    destruct (Hps (S j) q0 q H0 Hj) as [<-|(i' & p1 & ps1 & d1 & st & Hn & Hst)]; [done|].
    destruct p1; simpl in Hn; try (destruct (forallb _ (tail ps1))); simplify_eq/=; done.
Qed.

(** A run of the test in which both threads are inside of a call: the main thread
    has the lock and has made its first access, the other one waits for the lock. *)
Definition both_inside : list (Programs.action Interleaved.memory) :=
  Interleaved.enter 1 ++ [Internal 1 Access; Issue 0 None].
Definition both_inside_state : state Interleaved.memory Interleaved.phase :=
  default Interleaved.start (run Interleaved.exec Interleaved.start both_inside).

Lemma programs_refine_atomic_calls_witness :
  ∃ a, reachable (λ s, s = mkAtomic Interleaved.shared_data [Interleaved.AtWait; Interleaved.AtWait])
    (exec_step (atomic_exec Interleaved.next)) a ∧
  ∀ i p, threads (object both_inside_state) !! i = Some Idle →
    phases both_inside_state !! i = Some p → places a !! i = Some p.
Proof.
  destruct (programs_refine_atomic_calls Interleaved.next Interleaved.stop_loop 2 interleaved_isolated
    Interleaved.shared_data [Interleaved.AtWait; Interleaved.AtWait] eq_refl) as [H _].
  destruct (H both_inside_state) as (a & Ha & Hp & _); [|by exists a].
  apply (run_reachable Interleaved.exec _ Interleaved.start both_inside); [done|vm_compute; reflexivity].
Defined.

End AtomicSections.
