(* ===== verification/AtomicTimedWait.v ===== *)
(** * The test of the waiting time of [AtomicData]

    [atomic_data_wait_timeout] in [src/ltb-util/src/ltb/util/atomic_data.cpp]: the
    main thread waits for at most 100 milliseconds, which is too short, and then
    for at most 5 seconds, while another thread sleeps for 2 seconds and notifies
    it. The two threads are interleaved over the model of [AtomicData.v], with a
    clock that counts milliseconds. What the test checks depends on the clock: it
    holds if no time passes while a thread can go on ([punctual]), and need not
    hold otherwise. *)
From S2P Require Import Prelude AtomicData.
#[local] Open Scope Z_scope.

Module TimedWait.
Import AtomicData.

(** [SharedData] *)
Record memory : Type := mkMemory { stop_waiting : bool; update_happened : bool }.

Definition shared_data : memory := mkMemory false false.

Definition first_duration : Z := 100.
Definition second_duration : Z := 5000.
Definition sleep_duration : Z := 2000.

(** The callbacks. *)
Definition stopped (data : memory) : bool := stop_waiting data.
Definition set_update (data : memory) : memory := mkMemory (stop_waiting data) true.
Definition set_stop (data : memory) : memory := mkMemory true (update_happened data).
Definition read (data : memory) : memory := data.

(** The main thread, number 0 of the object, and [thread], which is number 1. *)
Inductive main_pc : Type :=
| AtFirstWait | InFirstWait
| AtNoUpdate | InNoUpdate (* the callback with [CHECK_FALSE(should_be_false)] *)
| AtSecondWait | InSecondWait
| AtJoin
| AtUpdate | InUpdate (* the callback with [CHECK(data.update_happened)] *)
| Passed.

Inductive thread_pc : Type :=
| AtSleep
| Asleep (until : Z)
| AtUse | InUse
| AtNotify
| Ended.

(** [deadline] is that of the wait of the main thread once it has the lock.
    [checked] are the results of the checks. *)
Record state : Type := mkState {
  object : monitor memory;
  now : Z;
  main : main_pc;
  deadline : option Z;
  thread : thread_pc;
  checked : list bool
}.

Definition start : state := mkState (make shared_data 2) 0 AtFirstWait None AtSleep [].

Inductive action : Type :=
| Main
| Thread (woken : option nat)
| Inside (i : nat) (a : AtomicData.action memory)
| Tick.

(** The statements of the main thread: a call begins, or [join] returns. *)
Definition exec_main (s : state) : option state :=
  let call a m :=
    o ← AtomicData.exec (object s) (0%nat, a);
    Some (mkState o (now s) m None (thread s) (checked s)) in
  match main s with
  | AtFirstWait => call (CallWait true stopped [set_update]) InFirstWait
  | AtNoUpdate => call (CallUse [read]) InNoUpdate
  | AtSecondWait => call (CallWait true stopped [set_update]) InSecondWait
  | AtJoin =>
      match thread s with
      | Ended => Some (mkState (object s) (now s) AtUpdate None Ended (checked s))
      | _ => None
      end
  | AtUpdate => call (CallUse [read]) InUpdate
  | _ => None
  end.

(** The statements of [thread]. *)
Definition exec_thread (woken : option nat) (s : state) : option state :=
  let go o t := mkState o (now s) (main s) (deadline s) t (checked s) in
  match thread s with
  | AtSleep => Some (go (object s) (Asleep (now s + sleep_duration)))
  | Asleep until => if until <=? now s then Some (go (object s) AtUse) else None
  | AtUse => o ← AtomicData.exec (object s) (1%nat, CallUse [set_stop]); Some (go o InUse)
  | AtNotify => o ← AtomicData.exec (object s) (1%nat, NotifyOne woken); Some (go o Ended)
  | _ => None
  end.

(** What the wait returns, when it does. *)
Definition wait_result (a : AtomicData.action memory) (c : pc memory) (d : memory) : option bool :=
  match a, c with
  | Return, AtomicData.Inside _ _ [] => Some true
  | Test, WaitTest expired p _ => if p d then None else Some false
  | _, _ => None
  end.

(** The checks of the test. *)
Definition check (m : main_pc) (a : AtomicData.action memory) (c : pc memory) (d : memory) : list bool :=
  match m, a, c with
  | InFirstWait, _, _ => option_list (negb <$> wait_result a c d)
  | InSecondWait, _, _ => option_list (wait_result a c d)
  | InNoUpdate, Access, _ => [negb (update_happened d)]
  | InUpdate, Access, _ => [update_happened d]
  | _, _, _ => []
  end.

Definition duration (m : main_pc) : Z :=
  match m with InFirstWait => first_duration | _ => second_duration end.

(** [wait_for] reads the clock when it is called, with the lock taken. *)
Definition set_deadline (a : AtomicData.action memory) (c : pc memory) (s : state) : option Z :=
  match a, c, deadline s with
  | Acquire, WaitAcquire ticking _ _, None => Some (now s + duration (main s))
  | _, _, d => d
  end.

Definition after_call (m : main_pc) : main_pc :=
  match m with
  | InFirstWait => AtNoUpdate
  | InNoUpdate => AtSecondWait
  | InSecondWait => AtJoin
  | InUpdate => Passed
  | m => m
  end.

Definition is_idle (c : option (pc memory)) : bool := match c with Some Idle => true | _ => false end.

(** A waiting time is used up at its deadline. *)
Definition due (i : nat) (a : AtomicData.action memory) (s : state) : bool :=
  match a, deadline s with
  | Timeout, Some d => Nat.eqb i 0 && (d <=? now s)
  | Timeout, None => false
  | (Acquire | Test | Access | Return | SpuriousWakeup), _ => true
  | _, _ => false
  end.

(** A step inside of a call of the object. *)
Definition exec_inside (i : nat) (a : AtomicData.action memory) (s : state) : option state :=
  if due i a s then
    c ← threads (object s) !! i;
    o ← AtomicData.exec (object s) (i, a);
    let returned := is_idle (threads o !! i) in
    match i with
    | 0%nat =>
        Some (mkState o (now s) (if returned then after_call (main s) else main s)
                (if returned then None else set_deadline a c s) (thread s)
                (checked s ++ check (main s) a c (data_ (object s))))
    | _ =>
        Some (mkState o (now s) (main s) (deadline s) (if returned then AtNotify else thread s)
                (checked s))
    end
  else None.

Definition exec (s : state) (l : action) : option state :=
  match l with
  | Main => exec_main s
  | Thread woken => exec_thread woken s
  | Inside i a => exec_inside i a s
  | Tick =>
      match main s with
      | Passed => None (* the test is over *)
      | _ => Some (mkState (object s) (now s + 1) (main s) (deadline s) (thread s) (checked s))
      end
  end.

Definition spurious (l : action) : bool :=
  match l with Inside _ SpuriousWakeup => true | _ => false end.

(** The steps that a thread takes on its own. *)
Definition moves : list action :=
  [Main; Thread None; Thread (Some 0%nat)] ++
  (Inside 0 <$> [Acquire; Test; Access; Return; Timeout]) ++
  (Inside 1 <$> [Acquire; Test; Access; Return]).

Definition waiting (s : state) : bool :=
  forallb (λ l, negb (bool_decide (is_Some (exec s l)))) moves.

(** Time only passes while every thread waits or sleeps. *)
Definition punctual (s : state) (l : action) : bool :=
  match l with Tick => waiting s | _ => true end.

Definition punctual_exec : state → action → option state := restrict punctual exec.

(** ** Where the threads are *)

Inductive main_place : Type :=
| FirstCall | FirstLock | FirstTest | FirstSleep | FirstRelock | FirstExpired | FirstLastTest
| NoUpdateCall | NoUpdateLock | NoUpdateAccess | NoUpdateReturn
| SecondCall | SecondLock | SecondTest | SecondSleep | SecondRelock | SecondAccess | SecondReturn
| JoinCall
| UpdateCall | UpdateLock | UpdateAccess | UpdateReturn
| TestOver.

Inductive thread_place : Type :=
| ThreadStart | ThreadSleep | ThreadCall | ThreadLock | ThreadAccess | ThreadReturn
| ThreadNotify | ThreadOver.

#[global] Instance main_place_eq_dec : EqDecision main_place.
Proof. solve_decision. Defined.
#[global] Instance thread_place_eq_dec : EqDecision thread_place.
Proof. solve_decision. Defined.

Definition main_at (p : main_place) : main_pc :=
  match p with
  | FirstCall => AtFirstWait
  | FirstLock | FirstTest | FirstSleep | FirstRelock | FirstExpired | FirstLastTest => InFirstWait
  | NoUpdateCall => AtNoUpdate
  | NoUpdateLock | NoUpdateAccess | NoUpdateReturn => InNoUpdate
  | SecondCall => AtSecondWait
  | SecondLock | SecondTest | SecondSleep | SecondRelock | SecondAccess | SecondReturn => InSecondWait
  | JoinCall => AtJoin
  | UpdateCall => AtUpdate
  | UpdateLock | UpdateAccess | UpdateReturn => InUpdate
  | TestOver => Passed
  end.

Definition main_call (p : main_place) : pc memory :=
  let f := [set_update] in
  match p with
  | FirstLock | FirstRelock | SecondLock | SecondRelock => WaitAcquire ticking stopped f
  | FirstTest | SecondTest => WaitTest ticking stopped f
  | FirstSleep | SecondSleep => WaitSleep ticking stopped f
  | FirstExpired => WaitAcquire expired stopped f
  | FirstLastTest => WaitTest expired stopped f
  | SecondAccess => AtomicData.Inside (Some stopped) f f
  | SecondReturn => AtomicData.Inside (Some stopped) f []
  | NoUpdateLock | UpdateLock => UseAcquire [read]
  | NoUpdateAccess | UpdateAccess => AtomicData.Inside None [read] [read]
  | NoUpdateReturn | UpdateReturn => AtomicData.Inside None [read] []
  | FirstCall | NoUpdateCall | SecondCall | JoinCall | UpdateCall | TestOver => Idle
  end.

Definition deadline_at (p : main_place) : option Z :=
  match p with
  | FirstTest | FirstSleep | FirstRelock | FirstExpired | FirstLastTest => Some first_duration
  | SecondTest | SecondSleep | SecondRelock | SecondAccess | SecondReturn =>
      Some (first_duration + second_duration)
  | _ => None
  end.

(** The results of the checks so far, all of them as they should be. *)
Definition passed_at (p : main_place) : nat :=
  match p with
  | FirstCall | FirstLock | FirstTest | FirstSleep | FirstRelock | FirstExpired | FirstLastTest => 0
  | NoUpdateCall | NoUpdateLock | NoUpdateAccess => 1
  | NoUpdateReturn | SecondCall | SecondLock | SecondTest | SecondSleep | SecondRelock
  | SecondAccess | SecondReturn => 2
  | JoinCall | UpdateCall | UpdateLock | UpdateAccess => 3
  | UpdateReturn | TestOver => 4
  end.

Definition updated_at (p : main_place) : bool :=
  match p with
  | SecondReturn | JoinCall | UpdateCall | UpdateLock | UpdateAccess | UpdateReturn | TestOver => true
  | _ => false
  end.

Definition thread_at (q : thread_place) : thread_pc :=
  match q with
  | ThreadStart => AtSleep
  | ThreadSleep => Asleep sleep_duration
  | ThreadCall => AtUse
  | ThreadLock | ThreadAccess | ThreadReturn => InUse
  | ThreadNotify => AtNotify
  | ThreadOver => Ended
  end.

Definition thread_call (q : thread_place) : pc memory :=
  match q with
  | ThreadLock => UseAcquire [set_stop]
  | ThreadAccess => AtomicData.Inside None [set_stop] [set_stop]
  | ThreadReturn => AtomicData.Inside None [set_stop] []
  | _ => Idle
  end.

Definition stopped_at (q : thread_place) : bool :=
  match q with ThreadReturn | ThreadNotify | ThreadOver => true | _ => false end.

(** The state in which the threads are at [p] and [q]. *)
Definition build (p : main_place) (q : thread_place) (t : Z)
    (h : list (option (memory → bool) * list (memory → memory))) : state :=
  mkState
    (mkMonitor (mkMemory (stopped_at q) (updated_at p))
       (if holds_lock (main_call p) then Some 0%nat
        else if holds_lock (thread_call q) then Some 1%nat else None)
       [main_call p; thread_call q] h)
    t (main_at p) (deadline_at p) (thread_at q) (replicate (passed_at p) true).

(** When the threads can be there. *)
Definition timely (p : main_place) (q : thread_place) (t : Z) : Prop :=
  match p with
  | FirstCall | FirstLock => t = 0 ∧ match q with ThreadStart | ThreadSleep => True | _ => False end
  | FirstTest | FirstSleep | FirstRelock =>
      0 <= t <= first_duration ∧
      match q with ThreadStart => t = 0 | ThreadSleep => True | _ => False end
  | FirstExpired | FirstLastTest | NoUpdateCall | NoUpdateLock | NoUpdateAccess | NoUpdateReturn
  | SecondCall | SecondLock => t = first_duration ∧ q = ThreadSleep
  | SecondTest | SecondSleep | SecondRelock =>
      first_duration <= t <= sleep_duration ∧
      match q with
      | ThreadStart => False
      | ThreadSleep => True
      | ThreadAccess | ThreadReturn => t = sleep_duration ∧ p ≠ SecondTest
      | ThreadOver => t = sleep_duration ∧ p ≠ SecondSleep
      | _ => t = sleep_duration
      end
  | SecondAccess | SecondReturn | JoinCall =>
      t = sleep_duration ∧ match q with ThreadNotify | ThreadOver => True | _ => False end
  | UpdateCall | UpdateLock | UpdateAccess | UpdateReturn | TestOver =>
      t = sleep_duration ∧ q = ThreadOver
  end.


(** The steps that are left apart from those of the clock. *)
Definition main_left (p : main_place) : Z :=
  match p with
  | FirstCall => 21 | FirstLock => 20 | FirstTest => 19 | FirstSleep => 18 | FirstRelock => 20
  | FirstExpired => 17 | FirstLastTest => 16
  | NoUpdateCall => 15 | NoUpdateLock => 14 | NoUpdateAccess => 13 | NoUpdateReturn => 12
  | SecondCall => 11 | SecondLock => 10 | SecondTest => 9 | SecondSleep => 8 | SecondRelock => 10
  | SecondAccess => 7 | SecondReturn => 6 | JoinCall => 5
  | UpdateCall => 4 | UpdateLock => 3 | UpdateAccess => 2 | UpdateReturn => 1 | TestOver => 0
  end.

Definition thread_left (q : thread_place) : Z :=
  match q with
  | ThreadStart => 9 | ThreadSleep => 8 | ThreadCall => 7 | ThreadLock => 6 | ThreadAccess => 5
  | ThreadReturn => 4 | ThreadNotify => 3 | ThreadOver => 0
  end.

(** ** A step leads from places to places *)

Definition next_main (l : action) (p : main_place) (q : thread_place) : main_place :=
  match l, p with
  | Main, FirstCall => FirstLock
  | Main, NoUpdateCall => NoUpdateLock
  | Main, SecondCall => SecondLock
  | Main, JoinCall => UpdateCall
  | Main, UpdateCall => UpdateLock
  | Thread (Some _), SecondSleep => match q with ThreadNotify => SecondRelock | _ => SecondSleep end
  | Inside 0 Acquire, (FirstLock | FirstRelock) => FirstTest
  | Inside 0 Acquire, FirstExpired => FirstLastTest
  | Inside 0 Acquire, NoUpdateLock => NoUpdateAccess
  | Inside 0 Acquire, (SecondLock | SecondRelock) => SecondTest
  | Inside 0 Acquire, UpdateLock => UpdateAccess
  | Inside 0 Test, FirstTest => FirstSleep
  | Inside 0 Test, FirstLastTest => NoUpdateCall
  | Inside 0 Test, SecondTest => if stopped_at q then SecondAccess else SecondSleep
  | Inside 0 Access, NoUpdateAccess => NoUpdateReturn
  | Inside 0 Access, SecondAccess => SecondReturn
  | Inside 0 Access, UpdateAccess => UpdateReturn
  | Inside 0 Return, NoUpdateReturn => SecondCall
  | Inside 0 Return, SecondReturn => JoinCall
  | Inside 0 Return, UpdateReturn => TestOver
  | Inside 0 Timeout, FirstSleep => FirstExpired
  | Inside 0 SpuriousWakeup, FirstSleep => FirstRelock
  | Inside 0 SpuriousWakeup, SecondSleep => SecondRelock
  | _, p => p
  end.

Definition next_thread (l : action) (q : thread_place) : thread_place :=
  match l, q with
  | Thread _, ThreadStart => ThreadSleep
  | Thread _, ThreadSleep => ThreadCall
  | Thread _, ThreadCall => ThreadLock
  | Thread _, ThreadNotify => ThreadOver
  | Inside 1 Acquire, ThreadLock => ThreadAccess
  | Inside 1 Access, ThreadAccess => ThreadReturn
  | Inside 1 Return, ThreadReturn => ThreadNotify
  | _, q => q
  end.

Definition steps_left (p : main_place) (q : thread_place) (t : Z) : Z :=
  main_left p + thread_left q + (sleep_duration - t).

(** What a step other than that of the clock does. *)
Definition leads (l : action) (p : main_place) (q : thread_place) (t : Z) (s' : state) : Prop :=
  let p' := next_main l p q in
  let q' := next_thread l q in
  (∃ h', s' = build p' q' t h') ∧ timely p' q' t ∧
  steps_left p' q' t + 1 <= steps_left p q t + if spurious l then 3 else 0.

(** The pairs of places that are possible. *)
#[local] Ltac places p q Ht :=
  destruct p, q; cbn in Ht; unfold first_duration, sleep_duration in Ht;
  try (exfalso; intuition (discriminate || lia)).

#[local] Ltac arrive :=
  match goal with H : Some _ = Some _ |- _ => injection H as <- end;
  split; [eexists; reflexivity|];
  split; [cbn; unfold first_duration, sleep_duration; intuition (lia || congruence)
         |unfold steps_left; cbn [next_main next_thread main_left thread_left stopped_at spurious]; lia].

Lemma main_leads p q t h s' :
  timely p q t → exec_main (build p q t h) = Some s' → leads Main p q t s'.
Proof. intros Ht Hs. places p q Ht; cbn in Hs; try done; arrive. Qed.

Lemma thread_leads p q t h woken s' :
  timely p q t → exec_thread woken (build p q t h) = Some s' → leads (Thread woken) p q t s'.
Proof.
  intros Ht Hs. destruct woken as [[|[|]]|]; places p q Ht; cbn in Hs; try done;
    try (destruct (Z.leb_spec sleep_duration t); unfold sleep_duration in *; [|done]);
    try (exfalso; lia); try (assert (t = 0) as -> by (by intuition)); arrive.
Qed.

Lemma due_timeout i s :
  due i Timeout s = true → ∃ d, deadline s = Some d ∧ d <= now s.
Proof.
  unfold due. destruct (deadline s) as [d|]; [|done].
  intros [_ H%Z.leb_le]%andb_prop. eauto.
Qed.

Lemma timeout_leads p q t h s' :
  timely p q t → exec_inside 0 Timeout (build p q t h) = Some s' → leads (Inside 0 Timeout) p q t s'.
Proof.
  intros Ht Hs. unfold exec_inside in Hs. destruct (due _ _ _) eqn:Hd; [|done].
  apply due_timeout in Hd as (d & Hd & Hle). unfold leads.
  places p q Ht; cbn in Hd, Hle, Hs; try done;
    injection Hd as <-; unfold first_duration, second_duration in Hle;
    try (exfalso; lia); assert (t = 100) as -> by lia; arrive.
Qed.

Lemma inside_main_leads p q t h a s' :
  timely p q t → exec_inside 0 a (build p q t h) = Some s' → leads (Inside 0 a) p q t s'.
Proof.
  intros Ht Hs. destruct a; try done; try by eapply timeout_leads.
  all: places p q Ht; cbn in Hs; try done;
    try (assert (t = 0) as -> by (by intuition)); try (assert (t = 100) as -> by (by intuition));
    arrive.
Qed.

Lemma inside_thread_leads p q t h i a s' :
  timely p q t → exec_inside (S i) a (build p q t h) = Some s' → leads (Inside (S i) a) p q t s'.
Proof.
  intros Ht Hs. destruct i as [|i].
  - destruct a; try done; places p q Ht; cbn in Hs; try done; arrive.
  - unfold exec_inside in Hs. destruct (due _ _ _); done.
Qed.

Lemma exec_leads p q t h l s' :
  timely p q t → l ≠ Tick → exec (build p q t h) l = Some s' → leads l p q t s'.
Proof.
  intros Ht Hl Hs. destruct l as [|woken|[|i] a|]; [..|done].
  - by eapply main_leads.
  - by eapply thread_leads.
  - by eapply inside_main_leads.
  - by eapply inside_thread_leads.
Qed.

(** ** The clock *)

(** A thread that can take a step at these places. *)
Definition move_at (p : main_place) (q : thread_place) : action :=
  match main_call p, q with
  | (UseAcquire _ | WaitAcquire _ _ _), ThreadAccess => Inside 1 Access
  | (UseAcquire _ | WaitAcquire _ _ _), ThreadReturn => Inside 1 Return
  | (UseAcquire _ | WaitAcquire _ _ _), _ => Inside 0 Acquire
  | WaitTest _ _ _, _ => Inside 0 Test
  | AtomicData.Inside _ _ [], _ => Inside 0 Return
  | AtomicData.Inside _ _ _, _ => Inside 0 Access
  | WaitSleep _ _ _, ThreadLock => Inside 1 Acquire
  | WaitSleep _ _ _, ThreadAccess => Inside 1 Access
  | WaitSleep _ _ _, ThreadReturn => Inside 1 Return
  | WaitSleep _ _ _, ThreadNotify => Thread (Some 0%nat)
  | WaitSleep _ _ _, _ => Thread None
  | _, _ => match p, q with JoinCall, ThreadNotify => Thread None | _, _ => Main end
  end.

Definition resting (p : main_place) (q : thread_place) (t : Z) : Prop :=
  q = ThreadSleep ∧ ((p = FirstSleep ∧ t < first_duration) ∨ (p = SecondSleep ∧ t < sleep_duration)).

Lemma move_available p q t h :
  timely p q t → p ≠ TestOver → resting p q t ∨ ∃ l, l ∈ moves ∧ is_Some (exec (build p q t h) l).
Proof.
  intros Ht Hp. unfold resting, first_duration, sleep_duration.
  destruct (decide (q = ThreadSleep ∧ (p = FirstSleep ∨ p = SecondSleep))) as [[-> [->| ->]]|Hn].
  - cbn in Ht. unfold first_duration in Ht. destruct (decide (t = 100)) as [->|]; [right|left; intuition lia].
    exists (Inside 0 Timeout). split; [set_solver|]. by eexists.
  - cbn in Ht. unfold sleep_duration in Ht. destruct (decide (t = 2000)) as [->|]; [right|left; intuition lia].
    exists (Thread None). split; [set_solver|]. by eexists.
  - right. exists (move_at p q). places p q Ht; try done; try (destruct Hn; by auto);
      (split; [cbn; set_solver|cbn; by eexists]).
Qed.

Lemma waiting_spec s : waiting s = true → ∀ l, l ∈ moves → exec s l = None.
Proof.
  unfold waiting. rewrite forallb_forall. intros Hw l Hl.
  specialize (Hw l). rewrite <-list_elem_of_In in Hw. specialize (Hw Hl).
  apply negb_true_iff, bool_decide_eq_false in Hw. by apply eq_None_not_Some.
Qed.

Lemma not_waiting s : waiting s = false → ∃ l s', l ∈ moves ∧ exec s l = Some s'.
Proof.
  unfold waiting. intros Hw. assert (¬ Forall (λ l, exec s l = None) moves) as Hn.
  { intros Hf. rewrite (proj2 (forallb_forall _ _)) in Hw; [done|].
    intros l Hl. rewrite <-list_elem_of_In in Hl. rewrite Forall_forall in Hf.
    by rewrite (Hf l Hl). }
  apply not_Forall_Exists in Hn; [|solve_decision]. apply Exists_exists in Hn as (l & Hl & He).
  destruct (exec s l) as [s'|] eqn:E; [by eauto|done].
Qed.

Lemma tick_rests p q t h :
  timely p q t → p ≠ TestOver → waiting (build p q t h) = true → resting p q t.
Proof.
  intros Ht Hp Hw. destruct (move_available p q t h Ht Hp) as [?|(l & Hl & [s' Hs])]; [done|].
  by rewrite (waiting_spec _ Hw l Hl) in Hs.
Qed.

Lemma resting_tick p q t :
  timely p q t → resting p q t → timely p q (t + 1) ∧ t + 1 <= sleep_duration.
Proof.
  intros Ht [-> [[-> Hlt]|[-> Hlt]]]; cbn in *; unfold first_duration, sleep_duration in *;
    split; lia || (split; [lia|done]).
Qed.

(** The invariant: where the threads are, and how many steps are left. *)
Definition good (n : Z) (s : state) : Prop :=
  ∃ p q h, timely p q (now s) ∧ s = build p q (now s) h ∧ steps_left p q (now s) = n.

Lemma good_positive n s : good n s → 0 <= n.
Proof.
  intros (p & q & h & Ht & _ & <-). unfold steps_left.
  assert (now s <= sleep_duration).
  { destruct p; cbn in Ht; unfold first_duration, sleep_duration in *; lia. }
  assert (0 <= main_left p) by (by destruct p). assert (0 <= thread_left q) by (by destruct q). lia.
Qed.

Lemma timed_good_start : good 2030 start.
Proof. by exists FirstCall, ThreadStart, []. Qed.

Lemma punctual_step n s l s' :
  good n s → punctual_exec s l = Some s' →
  ∃ n', good n' s' ∧ n' + 1 <= n + if spurious l then 3 else 0.
Proof.
  intros (p & q & h & Ht & Es & <-) [Hp Hs]%restrict_inv.
  assert (l = Tick ∨ l ≠ Tick) as [->|Hl] by (destruct l; auto).
  - destruct (decide (p = TestOver)) as [->|Hne]; [by rewrite Es in Hs|].
    assert (s' = build p q (now s + 1) h) as ->.
    { rewrite Es in Hs. destruct p; try done; cbn in Hs; by injection Hs as <-. }
    cbn in Hp. rewrite Es in Hp. apply tick_rests in Hp; [|done..].
    destruct (resting_tick _ _ _ Ht Hp) as [Ht' _].
    eexists. split; [exists p, q, h; split_and!; [exact Ht'|done|reflexivity]|].
    unfold steps_left. cbn. lia.
  - rewrite Es in Hs. destruct (exec_leads _ _ _ _ _ _ Ht Hl Hs) as ([h' ->] & Ht' & Hm).
    eexists. split; [by exists (next_main l p q), (next_thread l q), h'|]. exact Hm.
Qed.

Lemma punctual_run n s ls s' :
  good n s → run punctual_exec s ls = Some s' →
  ∃ n', good n' s' ∧ Z.of_nat (length ls) + n' <= n + 3 * Z.of_nat (length (filter spurious ls)).
Proof.
  revert n s. induction ls as [|l ls IH]; intros n s Hg; simpl.
  { intros [= <-]. exists n. split; [done|]. lia. }
  destruct (punctual_exec s l) as [s1|] eqn:He; [|done]. intros Hr.
  destruct (punctual_step _ _ _ _ Hg He) as (n1 & Hg1 & Hn1).
  destruct (IH _ _ Hg1 Hr) as (n' & Hg' & Hn'). exists n'. split; [done|].
  rewrite filter_cons. destruct (decide _) as [Hd|Hd]; destruct (spurious l); simpl in *; try done; lia.
Qed.

(** Until the test is over, a step that is not a spurious wake-up is possible. *)
Lemma punctual_progress n s :
  good n s → main s = Passed ∨ ∃ l s', spurious l = false ∧ punctual_exec s l = Some s'.
Proof.
  intros (p & q & h & Ht & Es & _). destruct (decide (p = TestOver)) as [->|Hne]; [left; by rewrite Es|].
  right. destruct (waiting s) eqn:Hw.
  - assert (is_Some (exec s Tick)) as [s' Hs] by (rewrite Es; destruct p; try done; by eexists).
    exists Tick, s'. split; [done|]. unfold punctual_exec, restrict. cbn [punctual]. by rewrite Hw.
  - destruct (not_waiting s Hw) as (l & s' & Hl & Hs). exists l, s'.
    assert (l ≠ Tick ∧ spurious l = false) as [Hn ?].
    { unfold moves in Hl. cbn in Hl. repeat (apply elem_of_cons in Hl as [->|Hl]; [done|]).
      by apply elem_of_nil in Hl. }
    split; [done|]. unfold punctual_exec, restrict. by destruct l.
Qed.

(** ** Properties *)

(** C27: the test of the waiting time always ends, and passes, if no time passes
    while a thread can go on: every schedule of the two threads, of spurious
    wake-ups and of the clock has at most 2030 steps and three more for every
    spurious wake-up, some thread or the clock can always go on, and at the end
    the four checks have held: the first wait has returned false without having
    called its function, the second one has returned true after it did. It ends
    exactly when the other thread has slept for its two seconds. *)
Theorem timed_wait_test_passes ls s :
  run punctual_exec start ls = Some s →
  Z.of_nat (length ls) <= 2030 + 3 * Z.of_nat (length (filter spurious ls)) ∧
  (main s = Passed ∨ ∃ l s', spurious l = false ∧ punctual_exec s l = Some s') ∧
  (main s = Passed → checked s = replicate 4 true ∧ now s = sleep_duration).
Proof.
  intros Hr. destruct (punctual_run _ _ _ _ timed_good_start Hr) as (n & Hg & Hn). split_and!.
  - apply good_positive in Hg. lia.
  - by eapply punctual_progress.
  - destruct Hg as (p & q & h & Ht & Es & _). intros Hm. rewrite Es in Hm |- *.
    destruct p; try done. cbn in *. by destruct Ht.
Qed.

Definition main_sleeps : list action := [Main; Inside 0 Acquire; Inside 0 Test].
Definition first_wait_ends : list action :=
  [Inside 0 Timeout; Inside 0 Acquire; Inside 0 Test;
   Main; Inside 0 Acquire; Inside 0 Access; Inside 0 Return].
Definition thread_notifies : list action :=
  [Thread None; Thread None; Inside 1 Acquire; Inside 1 Access; Inside 1 Return; Thread (Some 0%nat)].
Definition second_wait_ends : list action :=
  [Inside 0 Acquire; Inside 0 Test; Inside 0 Access; Inside 0 Return;
   Main; Main; Inside 0 Acquire; Inside 0 Access; Inside 0 Return].

(** A whole run of the test, with a spurious wake-up while the main thread waits
    for the second time. *)
Definition passing : list action :=
  Thread None :: main_sleeps ++ replicate (Z.to_nat first_duration) Tick ++ first_wait_ends ++
  main_sleeps ++ [Inside 0 SpuriousWakeup; Inside 0 Acquire; Inside 0 Test] ++
  replicate (Z.to_nat (sleep_duration - first_duration)) Tick ++ thread_notifies ++ second_wait_ends.
Definition passed : state := default start (run punctual_exec start passing).

Lemma timed_wait_test_passes_witness :
  checked passed = replicate 4 true ∧ now passed = sleep_duration.
Proof.
  destruct (timed_wait_test_passes passing passed) as (_ & _ & Hp); [vm_compute; reflexivity|].
  apply Hp. vm_compute. reflexivity.
Defined.

(** If the main thread is held up for two seconds before it waits, the first
    check fails: the test relies on the speed of the machine. *)
Definition held_up : list action :=
  Thread None :: replicate (Z.to_nat sleep_duration) Tick ++ removelast thread_notifies ++
  [Thread None; Main; Inside 0 Acquire; Inside 0 Test; Inside 0 Access; Inside 0 Return].

Theorem late_test_fails :
  ∃ s, run exec start held_up = Some s ∧ checked s = [false].
Proof. eexists. split; vm_compute; reflexivity. Qed.

End TimedWait.
