(* ===== verification/AtomicNumbers.v ===== *)
(** * The test of [AtomicData] with many threads

    The first [interleaved_atomic_data] of
    [src/src/testing/util/atomic_data_tests.cpp], for any number of threads and
    loops. Its threads only call [use_safely], so what holds of the program
    with atomic calls ([AtomicSections.v]) carries over: the numbers come in
    order whatever the schedule. Before that they wait for a notification on a
    condition variable of the test without a predicate, which a thread can miss. *)
From S2P Require Import Prelude AtomicData AtomicPrograms AtomicSections.

(** ** Programs that only call [use_safely] *)
Module LockOnly.
Import AtomicData Programs.
Section LockOnly.
Context {T P : Type} (next : nat → P → list P → T → option (statement T * P)).

(** [progress_of] decreases with every statement, and callbacks make at most
    [bound] accesses. *)
Context (progress_of : P → nat) (bound : nat).
Context (Hnext : ∀ i p ps d st p', next i p ps d = Some (st, p') →
  progress_of p' < progress_of p ∧
  match st with Use f => length f ≤ bound | Step => True | _ => False end).

Definition simple (c : pc T) : Prop :=
  match c with
  | Idle => True
  | UseAcquire f => length f ≤ bound
  | Inside None f _ => length f ≤ bound
  | _ => False
  end.

Definition cost (c : pc T) : nat :=
  match c with UseAcquire f => 2 + length f | Inside _ _ rest => 1 + length rest | _ => 0 end.

Definition potential (s : state T P) : nat :=
  sum_list (cost <$> threads (object s)) + (3 + bound) * sum_list (progress_of <$> phases s).

Definition all_simple (s : state T P) : Prop := Forall simple (threads (object s)).

Lemma potential_internal s i c c' o :
  all_simple s → threads (object s) !! i = Some c → threads o = <[i := c']> (threads (object s)) →
  simple c' → cost c' < cost c →
  all_simple (mkState o (phases s)) ∧ potential (mkState o (phases s)) < potential s.
Proof.
  intros Hs Hi Ho Hc' Hlt. unfold all_simple, potential. simpl. rewrite Ho.
  split; [by apply Forall_insert|]. pose proof (sum_list_insert cost _ _ _ c' Hi). lia.
Qed.

Lemma potential_issue s i p p' c' o :
  all_simple s → threads (object s) !! i = Some Idle → phases s !! i = Some p →
  threads o = <[i := c']> (threads (object s)) → simple c' → cost c' ≤ 2 + bound →
  progress_of p' < progress_of p →
  all_simple (mkState o (<[i := p']> (phases s))) ∧
  potential (mkState o (<[i := p']> (phases s))) < potential s.
Proof.
  intros Hs Hi Hp Ho Hc' Hlt Hpr. unfold all_simple, potential. simpl. rewrite Ho.
  split; [by apply Forall_insert|]. pose proof (sum_list_insert cost _ _ _ c' Hi).
  pose proof (sum_list_insert progress_of _ _ _ p' Hp). simpl in *. nia.
Qed.

(** Every step of such a program brings it closer to its end. *)
Lemma potential_decreases s l s' :
  all_simple s → Programs.exec next s l = Some s' → all_simple s' ∧ potential s' < potential s.
Proof.
  intros Hs. destruct l as [i woken|i a]; unfold Programs.exec.
  - destruct (phases s !! i) as [p|] eqn:Hp; [|done].
    destruct (threads (object s) !! i) as [[]|] eqn:Hi; try done.
    destruct (next i p _ _) as [[st p']|] eqn:Hn; [|done]. cbn [mbind option_bind].
    destruct (Hnext _ _ _ _ _ _ Hn) as [Hpr Hst]. destruct st as [q f|f| | |]; try done; cbn [statement_action].
    + unfold AtomicData.exec. rewrite Hi. simpl. intros [= <-].
      eapply potential_issue; [done..| | |done]; simpl; lia.
    + intros [= <-]. eapply (potential_issue s i p p' Idle); [done..| | |simpl; lia|done];
        [by rewrite list_insert_id|done].
  - destruct (is_internal a) eqn:Ha; [|done].
    destruct (AtomicData.exec (object s) (i, a)) as [o|] eqn:He; [|done]. intros [= <-].
    unfold AtomicData.exec in He. destruct (threads (object s) !! i) as [c|] eqn:Hi; [|done].
    pose proof (Forall_lookup_1 _ _ _ _ Hs Hi) as Hc. cbn [mbind option_bind] in He.
    destruct a, c as [| | | | |[q|] h [|g rest]| |]; try done; simpl in He, Hc;
      unfold acquire in He; try destruct (lock_ (object s)); simplify_eq;
      (eapply potential_internal; [done|exact Hi|done|done|simpl; lia]).
Qed.

Lemma simple_run s ls s' :
  all_simple s → run (Programs.exec next) s ls = Some s' →
  all_simple s' ∧ length ls + potential s' ≤ potential s.
Proof.
  revert s. induction ls as [|l ls IH]; intros s Hs; simpl; [by intros [= <-]|].
  destruct (Programs.exec next s l) as [s1|] eqn:E; [|done]. intros Hr.
  destruct (potential_decreases s l s1 Hs E) as [Hs1 Hlt]. destruct (IH s1 Hs1 Hr). split; [done|lia].
Qed.

(** It only stops when all threads are outside of their calls and none has a
    statement that it could execute. *)
Lemma simple_progress d0 s :
  AtomicData.inv d0 (object s) → all_simple s → length (threads (object s)) = length (phases s) →
  (∃ l s', Programs.exec next s l = Some s') ∨
  (∀ i p, phases s !! i = Some p →
    threads (object s) !! i = Some Idle ∧ next i p (phases s) (data_ (object s)) = None).
Proof.
  intros Ho Hs Hlen.
  assert ((∃ i a o', is_internal a = true ∧ a ≠ SpuriousWakeup ∧ AtomicData.exec (object s) (i, a) = Some o') →
    ∃ l s', Programs.exec next s l = Some s') as Hint.
  { intros (i & a & o' & Ha & _ & He). exists (Internal i a). eexists. unfold Programs.exec. by rewrite Ha, He. }
  pose proof (lock_progress _ _ Ho) as Hlp.
  destruct (lock_ (object s)) as [j|] eqn:Hl.
  { left. apply Hint, Hlp. left. destruct (inv_owned _ _ Ho j Hl) as (c & Hj & Hc).
    exists j, c. split_and!; try done. intros ->. by pose proof (Forall_lookup_1 _ _ _ _ Hs Hj). }
  set (enabled := λ i, match phases s !! i, threads (object s) !! i with
    | Some p, Some Idle => if next i p (phases s) (data_ (object s)) then true else false
    | _, Some Idle => false
    | _, _ => true
    end).
  destruct (existsb enabled (seq 0 (length (phases s)))) eqn:Hex.
  - left. apply existsb_exists in Hex as (i & Hin%in_seq & Hen). unfold enabled in Hen.
    destruct (lookup_lt_is_Some_2 (phases s) i) as [p Hp]; [lia|].
    destruct (lookup_lt_is_Some_2 (threads (object s)) i) as [c Hi]; [lia|].
    rewrite Hp, Hi in Hen. destruct (holds_lock c) eqn:Hh; [by rewrite (inv_owner _ _ Ho i c Hi Hh) in Hl|].
    pose proof (Forall_lookup_1 _ _ _ _ Hs Hi) as Hc. destruct c as [|f| | | | | |]; try done.
    + destruct (next i p _ _) as [[st p']|] eqn:Hn; [|done].
      destruct (issue_enabled next s i p st p' Hi Hp Hn) as (w & s' & ?). eauto.
    + apply Hint, Hlp. right; right. eauto.
  - right. intros i p Hp. assert (i < length (phases s)) as Hi by (by eapply lookup_lt_Some).
    destruct (lookup_lt_is_Some_2 (threads (object s)) i) as [c Hc]; [lia|].
    assert (enabled i = false) as Hen.
    { destruct (enabled i) eqn:E; [|done]. rewrite <-Hex. symmetry. apply existsb_exists.
      exists i. split; [apply in_seq; lia|done]. }
    unfold enabled in Hen. rewrite Hp, Hc in Hen. destruct c; try done.
    split; [done|]. by destruct (next i p _ _).
Qed.
End LockOnly.
End LockOnly.

(** ** The test *)
Module NumbersTest.
Import AtomicData Programs AtomicSections LockOnly.

(** [SharedData]; [T] represents all numbers below [max_number]. *)
Record memory : Type := mkMemory {
  current_number : nat;
  all_numbers : list nat;
  odds : list nat;
  evens : list nat;
  is_odd : bool
}.

Definition shared_data : memory := mkMemory 0 [] [] [] false.

(** The callback, access by access. *)
Definition func : list (memory → memory) :=
  [λ d, mkMemory (current_number d) (all_numbers d ++ [current_number d]) (odds d) (evens d) (is_odd d);
   λ d, if is_odd d
        then mkMemory (current_number d) (all_numbers d) (odds d ++ [current_number d]) (evens d) true
        else mkMemory (current_number d) (all_numbers d) (odds d) (evens d ++ [current_number d]) false;
   λ d, mkMemory (S (current_number d)) (all_numbers d) (odds d) (evens d) (is_odd d);
   λ d, mkMemory (current_number d) (all_numbers d) (odds d) (evens d) (negb (is_odd d))].

(** The numbers of the test: 15 threads and 100 loops each. *)
Definition num_threads : nat := 15.
Definition num_loops_per_thread : nat := 100.

(** The smallest of the types that the test is compiled for is [short]. *)
Definition requirements : bool :=
  (num_threads * num_loops_per_thread <? 2 ^ 15 - 1) && Nat.even (num_threads * num_loops_per_thread).

Lemma requirements_hold : requirements = true.
Proof. vm_compute. reflexivity. Qed.

Section Test.
(** [unnotified i]: thread [i] wakes up although nobody has notified it. *)
Context (n k : nat) (unnotified : nat → bool).

Definition max_number : nat := n * k.

Inductive phase : Type :=
| AtBlocker (* a thread: [blocker.wait(tmp_lock)] *)
| Blocked (missed : bool) (* in that call, entered after the notification or before *)
| AtLoop (i : nat)
| Ended
| AtSleep (* the main thread: [sleep_for(std::chrono::seconds(1)); blocker.notify_all()] *)
| AtJoin
| AtCheck
| Checked.

Definition is_main (p : phase) : bool :=
  match p with AtSleep | AtJoin | AtCheck | Checked => true | _ => false end.
Definition is_ended (p : phase) : bool := match p with Ended => true | _ => false end.

(** Thread 0 is the main thread; it is at its first two statements while the others
    run. *)
Definition next (i : nat) (p : phase) (ps : list phase) (d : memory) :
    option (statement memory * phase) :=
  match p with
  | AtBlocker =>
      match ps !! 0 with
      | Some AtSleep => Some (Step, Blocked false)
      | Some AtJoin => Some (Step, Blocked true)
      | _ => None
      end
  | Blocked missed =>
      if unnotified i then Some (Step, AtLoop 0)
      else if missed then None
      else match ps !! 0 with Some AtJoin => Some (Step, AtLoop 0) | _ => None end
  | AtLoop j => if j <? k then Some (Use func, AtLoop (S j)) else Some (Step, Ended)
  | AtSleep => Some (Step, AtJoin)
  | AtJoin => if forallb is_ended (tail ps) then Some (Step, AtCheck) else None
  | AtCheck => Some (Use [], Checked)
  | Ended | Checked => None
  end.

Definition start_phases : list phase := AtSleep :: replicate n AtBlocker.
Definition start : state memory phase := mkState (make shared_data (S n)) start_phases.

Abbreviation exec := (Programs.exec next).

(** The vectors that the test compares with. *)
Definition all_numbers_expected : list nat := seq 0 max_number.
Definition evens_expected : list nat := (λ i, 2 * i) <$> seq 0 (Nat.div2 max_number).
Definition odds_expected : list nat := (λ i, 2 * i + 1) <$> seq 0 (Nat.div2 max_number).

Definition checks (d : memory) : bool :=
  (current_number d =? max_number) && bool_decide (all_numbers d = all_numbers_expected) &&
  bool_decide (odds d = odds_expected) && bool_decide (evens d = evens_expected).

(** *** The data after [m] callbacks *)
Definition numbers (m : nat) : memory :=
  mkMemory m (seq 0 m) ((λ i, 2 * i + 1) <$> seq 0 (Nat.div2 m)) ((λ i, 2 * i) <$> seq 0 (Nat.div2 (S m)))
    (Nat.odd m).

Lemma numbers_succ m : apply_func func (numbers m) = numbers (S m).
Proof.
  unfold apply_func, func, numbers. cbn [foldl]. cbn [current_number all_numbers odds evens is_odd].
  rewrite (seq_S m 0). simpl Nat.add. rewrite Nat.odd_succ, <-Nat.negb_odd.
  destruct (Nat.odd m) eqn:Ho; cbn [current_number all_numbers odds evens is_odd negb].
  - apply Nat.odd_spec in Ho as [j ->].
    replace (2 * j + 1) with (S (2 * j)) by lia.
    change (Nat.div2 (S (S (2 * j)))) with (S (Nat.div2 (2 * j))).
    change (Nat.div2 (S (S (S (2 * j))))) with (S (Nat.div2 (S (2 * j)))).
    rewrite Nat.div2_double, Nat.div2_succ_double, !(seq_S j), !fmap_app. simpl.
    by replace (j + (j + 0) + 1) with (S (j + (j + 0))) by lia.
  - assert (Nat.even m = true) as [j ->]%Nat.even_spec by (by rewrite <-Nat.negb_odd, Ho).
    change (Nat.div2 (S (S (2 * j)))) with (S (Nat.div2 (2 * j))).
    by rewrite Nat.div2_double, Nat.div2_succ_double, !(seq_S j), !fmap_app.
Qed.

Lemma numbers_checked : Nat.Even max_number → checks (numbers max_number) = true.
Proof.
  intros [j Hj]. unfold checks, numbers, all_numbers_expected, odds_expected, evens_expected.
  cbn [current_number all_numbers odds evens]. rewrite Nat.eqb_refl, !bool_decide_true; try done.
  by rewrite Hj, Nat.div2_double, Nat.div2_succ_double.
Qed.

(** *** The program with atomic calls *)
Definition loops (p : phase) : nat := match p with AtLoop j => j | Ended => k | _ => 0 end.

Abbreviation coarse_step := (atomic_exec next).

Record counted (a : atomic_state (T := memory) (P := phase)) : Prop := mkCounted {
  counted_length : length (places a) = S n;
  counted_roles i p : places a !! i = Some p → is_main p = (i =? 0);
  counted_loops i j : places a !! i = Some (AtLoop j) → j ≤ k;
  counted_data : data a = numbers (sum_list (loops <$> places a));
  counted_joined : places a !! 0 = Some AtCheck ∨ places a !! 0 = Some Checked →
    forallb is_ended (tail (places a)) = true
}.

Lemma counted_start : counted (mkAtomic shared_data start_phases).
Proof.
  unfold start_phases. split; simpl.
  - by rewrite length_replicate.
  - intros [|i] p; simpl; [by intros [= <-]|]. by intros [-> _]%lookup_replicate.
  - intros [|i] j; simpl; [done|]. by intros [? _]%lookup_replicate.
  - assert (sum_list (loops <$> replicate n AtBlocker) = 0) as H.
    { clear. induction n as [|m IH]; [done|]. exact IH. }
    csimpl. unfold fmap in *. by rewrite H.
  - by intros [|].
Qed.

Lemma next_role i p ps d st p' : next i p ps d = Some (st, p') → is_main p' = is_main p.
Proof. destruct p; simpl; intros; repeat case_match; by simplify_eq. Qed.

(** What an atomic step does: [next] and, for a call, the callback. *)
Lemma coarse_inv a i a' :
  coarse_step a i = Some a' → ∃ p st p',
    places a !! i = Some p ∧ next i p (places a) (data a) = Some (st, p') ∧
    places a' = <[i := p']> (places a) ∧
    data a' = match st with Use f | WaitToUse _ f => apply_func f (data a) | _ => data a end.
Proof.
  unfold atomic_exec. destruct (places a !! i) as [p|]; [|done]. cbn [mbind option_bind].
  destruct (next i p _ _) as [[st p']|] eqn:Hn; [|done]. cbn [mbind option_bind].
  intros Hs. exists p, st, p'. destruct st as [q f|f| | |]; try destruct (q (data a)); simplify_eq/=; done.
Qed.

Lemma all_ended_lookup ps i p :
  forallb is_ended (tail ps) = true → i ≠ 0 → ps !! i = Some p → p = Ended.
Proof.
  intros Hall Hi Hp. destruct i as [|i]; [done|]. rewrite <-lookup_tail in Hp.
  rewrite forallb_forall in Hall. apply list_elem_of_lookup_2, list_elem_of_In in Hp.
  specialize (Hall p Hp). by destruct p.
Qed.

Lemma counted_step a i a' : counted a → coarse_step a i = Some a' → counted a'.
Proof.
  intros [Hlen Hroles Hloops Hdata Hjoin] (p & st & p' & Hp & Hn & Hps & Hd)%coarse_inv.
  pose proof (next_role _ _ _ _ _ _ Hn) as Hrole.
  pose proof (sum_list_insert loops _ _ _ p' Hp) as Hsum. rewrite <-Hps in Hsum.
  split.
  - by rewrite Hps, length_insert.
  - intros j q. rewrite Hps. intros [[-> [<- _]]|[_ Hq]]%list_lookup_insert_Some; [|by apply Hroles].
    by rewrite Hrole; apply Hroles.
  - intros j m. rewrite Hps. intros [[-> [-> _]]|[_ Hq]]%list_lookup_insert_Some; [|by eapply Hloops].
    destruct p; simpl in Hn; repeat case_match; simplify_eq; try lia.
    match goal with H : (_ <? _) = true |- _ => apply Nat.ltb_lt in H end. lia.
  - destruct p as [| |m| | | | |]; simpl in Hn; repeat case_match; simplify_eq;
      simpl loops in Hsum; rewrite Hd, Hdata; try (f_equal; lia).
    + rewrite numbers_succ. f_equal. lia.
    + f_equal. specialize (Hloops i m Hp).
      match goal with H : (_ <? _) = false |- _ => apply Nat.ltb_ge in H end. lia.
    + cbn [apply_func foldl]. f_equal. lia.
  - intros H0. destruct (decide (i = 0)) as [->|Hi].
    + rewrite Hps, list_lookup_insert_eq in H0 by (by eapply lookup_lt_Some).
      assert (tail (places a') = tail (places a)) as -> by (rewrite Hps; by destruct (places a)).
      destruct p; simpl in Hn; repeat case_match; simplify_eq; destruct H0; try done.
      apply Hjoin. by left.
    + rewrite Hps, list_lookup_insert_ne in H0 by done. specialize (Hjoin H0).
      pose proof (all_ended_lookup _ _ _ Hjoin Hi Hp) as ->. done.
Qed.

Lemma coarse_counted a :
  reachable (λ s, s = mkAtomic shared_data start_phases) (exec_step coarse_step) a → counted a.
Proof.
  apply reachable_invariant; [intros ? ->; apply counted_start|].
  intros a1 i a2 Ha Hs. by eapply counted_step.
Qed.

(** *** The threads are isolated *)
Lemma numbers_isolated : isolated next (λ _ _, tt) (S n).
Proof.
  split; [..|done].
  - intros i p ps ps' d d' st p' _ Hn Hc _.
    destruct p; simpl in *; repeat case_match; by simplify_eq.
  - intros i p ps ps' d d' st p' _ Hn _ Hl Hps.
    assert (∀ q, is_main q = true → ps !! 0 = Some q → q ≠ Checked → ps' !! 0 = Some q) as H0.
    { intros q Hq H0 Hne. destruct (lookup_lt_is_Some_2 ps' 0) as [q' Hq']; [rewrite Hl; by eapply lookup_lt_Some|].
      destruct (Hps 0 q q' H0 Hq') as [->|(i' & p1 & ps1 & d1 & st1 & Hn1 & Hst1)]; [done|].
      destruct p1; simpl in Hn1; repeat case_match; by simplify_eq. }
    destruct p; simpl in *; simplify_eq; try done.
    + destruct (ps !! 0) as [[]|]; try done; first [by rewrite (H0 AtSleep) | by rewrite (H0 AtJoin)].
    + destruct (unnotified i); [done|]. destruct missed; [done|].
      destruct (ps !! 0) as [[]|]; try done; first [by rewrite (H0 AtSleep) | by rewrite (H0 AtJoin)].
    + destruct (forallb is_ended (tail ps)) eqn:Hf; [|done]. simplify_eq.
      rewrite (proj2 (forallb_forall _ _)); [done|]. intros q Hq.
      apply list_elem_of_In, list_elem_of_lookup in Hq as [j Hj]. rewrite lookup_tail in Hj.
      destruct (lookup_lt_is_Some_2 ps (S j)) as [q0 Hq0]; [apply lookup_lt_Some in Hj; lia|].
      pose proof (all_ended_lookup _ _ _ Hf (Nat.neq_succ_0 j) Hq0) as ->.
      destruct (Hps (S j) _ q Hq0 Hj) as [<-|(i' & p1 & ps1 & d1 & st1 & Hn1 & Hst1)]; [done|].
      destruct p1; simpl in Hn1; repeat case_match; by simplify_eq.
Qed.

(** *** The program statement by statement *)
Abbreviation reach := (reachable (λ s, s = start) (exec_step exec)).

Definition roles (ps : list phase) : Prop := ∀ i p, ps !! i = Some p → is_main p = (i =? 0).

Lemma exec_phases s l s' :
  exec s l = Some s' → phases s' = phases s ∨ ∃ i p st p',
    phases s !! i = Some p ∧ next i p (phases s) (data_ (object s)) = Some (st, p') ∧
    phases s' = <[i := p']> (phases s).
Proof.
  destruct l as [i woken|i x]; unfold Programs.exec.
  - destruct (phases s !! i) as [p|] eqn:Hp; [|done]. destruct (threads _ !! i) as [[]|]; try done.
    destruct (next i p _ _) as [[st p']|] eqn:Hn; [|done]. cbn [mbind option_bind].
    destruct (statement_action st woken) as [x|]; [destruct (AtomicData.exec _ _); [|done]|];
      intros [= <-]; right; by exists i, p, st, p'.
  - destruct (is_internal x); [|done]. destruct (AtomicData.exec _ _); [|done]. intros [= <-]. by left.
Qed.

Lemma fine_roles s : reach s → roles (phases s).
Proof.
  apply (reachable_invariant _ _ (λ s, roles (phases s))).
  - intros ? ->. exact (counted_roles _ counted_start).
  - intros s1 l s2 Hr [->|(i & p & st & p' & Hp & Hn & ->)]%exec_phases; [done|].
    intros j q [[-> [<- _]]|[_ Hq]]%list_lookup_insert_Some; [|by apply Hr].
    rewrite (next_role _ _ _ _ _ _ Hn). by apply Hr.
Qed.

Definition phase_weight (p : phase) : nat :=
  match p with
  | AtBlocker => k + 3
  | Blocked _ => k + 2
  | AtLoop j => S (k - j)
  | Ended | Checked => 0
  | AtSleep => 3
  | AtJoin => 2
  | AtCheck => 1
  end.

Lemma next_weight i p ps d st p' :
  next i p ps d = Some (st, p') →
  phase_weight p' < phase_weight p ∧ match st with Use f => length f ≤ 4 | Step => True | _ => False end.
Proof.
  destruct p; simpl; intros; repeat case_match; simplify_eq; simpl; split; try lia.
  match goal with H : (_ <? _) = true |- _ => apply Nat.ltb_lt in H end. lia.
Qed.

Lemma start_simple : all_simple 4 start.
Proof. unfold all_simple. simpl. constructor; [done|]. by apply Forall_replicate. Qed.

Lemma start_potential : potential phase_weight 4 start = 7 * (3 + n * (k + 3)).
Proof.
  unfold potential. simpl.
  assert (∀ m, sum_list (cost (T := memory) <$> replicate m Idle) = 0) as H1.
  { induction m as [|m IH]; [done|]. csimpl. exact IH. }
  assert (∀ m, sum_list (phase_weight <$> replicate m AtBlocker) = m * (k + 3)) as H2.
  { induction m as [|m IH]; [done|]. csimpl. unfold fmap in *. rewrite IH. lia. }
  specialize (H1 n). specialize (H2 n). unfold fmap in *. lia.
Qed.

Definition finished (s : state memory phase) : Prop :=
  phases s !! 0 = Some Checked ∧ threads (object s) !! 0 = Some Idle.

(** A thread that has missed the notification, and sleeps. *)
Definition asleep (s : state memory phase) : Prop :=
  ∃ i, phases s !! i = Some (Blocked true) ∧ unnotified i = false.

Lemma fine_related s : reach s → ∃ a, counted a ∧ related next (S n) shared_data s a.
Proof.
  intros Hr. destruct (fine_coarse next (λ _ _, tt) (S n) numbers_isolated shared_data start_phases s)
    as (a & Ha & Hra); [unfold start_phases; simpl; by rewrite length_replicate|done|].
  exists a. split; [by apply coarse_counted|done].
Qed.

(** When the main thread has made its checks, nobody is in a call. *)
Lemma finished_numbers s : reach s → finished s → data_ (object s) = numbers max_number.
Proof.
  intros Hr [Hc Hi]. destruct (fine_related s Hr) as (a & Ha & Hra).
  assert (places a !! 0 = Some Checked) as H0.
  { destruct (lookup_lt_is_Some_2 (places a) 0) as [p Hp]; [rewrite (counted_length _ Ha); lia|].
    pose proof (rel_at _ _ _ _ _ Hra 0 _ _ _ Hi Hc Hp). simpl in *. by simplify_eq. }
  pose proof (counted_joined _ Ha (or_intror H0)) as Hend.
  destruct (lock_ (object s)) as [j|] eqn:Hl.
  { destruct (inv_owned _ _ (rel_object _ _ _ _ _ Hra) j Hl) as (c & Hj & Hh).
    destruct (related_lt next (S n) _ _ _ _ _ Hra Hj) as (p & p0 & _ & _ & Hp0 & Hat).
    assert (j ≠ 0) as Hne by (intros ->; by simplify_eq/=).
    pose proof (all_ended_lookup _ _ _ Hend Hne Hp0) as ->.
    by destruct c as [|f|[]|[]|[]|[q|]| |]. }
  pose proof (inv_unlocked _ _ (rel_object _ _ _ _ _ Hra) Hl) as Hd%execution_after.
  rewrite <-(rel_data _ _ _ _ _ Hra), (counted_data _ Ha) in Hd. rewrite Hd. f_equal.
  clear Hd. pose proof (counted_length _ Ha) as Hlen. destruct (places a) as [|p ps]; [done|].
  injection H0 as ->. injection Hlen as Hlen. simpl in Hend. csimpl. unfold max_number. rewrite <-Hlen.
  clear -Hend. induction ps as [|q ps IH]; [done|]. simpl in Hend.
  apply andb_true_iff in Hend as [Hq Hps]. destruct q; try done. csimpl. simpl in IH.
  specialize (IH Hps). lia.
Qed.

(** The only reason to stop early. *)
Lemma stuck_asleep s :
  reach s → (∃ l s', exec s l = Some s') ∨ finished s ∨ asleep s.
Proof.
  intros Hr. destruct (fine_related s Hr) as (a & _ & Hra).
  pose proof (rel_threads _ _ _ _ _ Hra) as Ht. pose proof (rel_phases _ _ _ _ _ Hra) as Hp.
  assert (all_simple 4 s) as Hs.
  { clear -Hr. revert s Hr. apply (reachable_invariant _ _ (all_simple 4)); [intros ? ->; apply start_simple|].
    intros s1 l s2 H1 H2. by destruct (potential_decreases next phase_weight 4 next_weight s1 l s2). }
  destruct (simple_progress next 4 shared_data s (rel_object _ _ _ _ _ Hra) Hs)
    as [?|Hall]; [congruence|by left|right].
  destruct (lookup_lt_is_Some_2 (phases s) 0) as [p0 H0]; [lia|].
  destruct (Hall 0 p0 H0) as [Hi0 Hn0]. pose proof (fine_roles s Hr) as Hroles.
  pose proof (Hroles 0 p0 H0) as Hm. destruct p0; try done; [|by left].
  simpl in Hn0. destruct (forallb is_ended (tail (phases s))) eqn:Hf; [done|].
  right. assert (∃ j p, phases s !! S j = Some p ∧ is_ended p = false) as (j & p & Hj & Hne).
  { clear -Hf. destruct (phases s) as [|q ps]; [done|]. simpl in *.
    induction ps as [|p ps IH]; [done|]. simpl in Hf. destruct (is_ended p) eqn:Hp; simpl in Hf.
    - destruct (IH Hf) as (j & p' & ? & ?). by exists (S j), p'.
    - by exists 0, p. }
  destruct (Hall (S j) p Hj) as [_ Hn]. pose proof (Hroles (S j) p Hj) as Hmj.
  destruct p as [|missed|m| | | | |]; try done; simpl in Hn; rewrite ?H0 in Hn.
  - done.
  - destruct (unnotified (S j)) eqn:Hu; [done|]. destruct missed; [by exists (S j)|done].
  - by destruct (m <? k).
Qed.
End Test.

(** ** Properties *)

(** C28: the test [interleaved_atomic_data] with [n] threads of [k] loops each: in
    every schedule the threads stop after a bounded number of steps, and then
    either the main thread has finished, or a thread sleeps that has only started
    to wait after the notification. When the main thread has joined the others,
    the data is what it compares with: all numbers in order, the odd ones and the
    even ones apart. *)
Theorem interleaved_numbers_test n k unnotified ls s :
  run (Programs.exec (next k unnotified)) (start n) ls = Some s →
  length ls ≤ 7 * (3 + n * (k + 3)) ∧
  ((∃ l s', Programs.exec (next k unnotified) s l = Some s') ∨ finished s ∨ asleep unnotified s) ∧
  (finished s → Nat.Even (max_number n k) → checks n k (data_ (object s)) = true).
Proof.
  intros Hrun. assert (reachable (λ s, s = start n) (exec_step (Programs.exec (next k unnotified))) s) as Hr
    by by eapply run_reachable.
  split_and!.
  - destruct (simple_run _ _ _ (next_weight k unnotified) _ _ _ (start_simple n) Hrun) as [_ Hl].
    rewrite start_potential in Hl. lia.
  - by apply (stuck_asleep n).
  - intros Hf He. rewrite (finished_numbers n k unnotified s Hr Hf). by apply numbers_checked.
Qed.

(** Two threads of one loop each, the second in its call while the first one
    waits for the lock. *)
Definition two_threads : list (action memory) :=
  [Issue 1 None; Issue 2 None; Issue 0 None; Issue 1 None; Issue 2 None; Issue 2 None; Internal 2 Acquire;
   Internal 2 Access; Issue 1 None; Internal 2 Access; Internal 2 Access; Internal 2 Access;
   Internal 2 Return; Internal 1 Acquire; Internal 1 Access; Internal 1 Access; Internal 1 Access;
   Internal 1 Access; Internal 1 Return; Issue 1 None; Issue 2 None; Issue 0 None; Issue 0 None;
   Internal 0 Acquire; Internal 0 Return].
Definition two_threads_state : state memory phase :=
  default (start 2) (run (Programs.exec (next 1 (λ _, false))) (start 2) two_threads).

Lemma interleaved_numbers_test_witness :
  length two_threads ≤ 77 ∧ checks 2 1 (data_ (object two_threads_state)) = true.
Proof.
  destruct (interleaved_numbers_test 2 1 (λ _, false) two_threads two_threads_state) as (Hl & _ & Hc);
    [vm_compute; reflexivity|]. split; [exact Hl|]. apply Hc.
  - split; vm_compute; reflexivity.
  - exists 1. reflexivity.
Defined.

(** A thread that is slower than the second that the main thread sleeps is never
    woken, and never joined. *)
Theorem late_thread_hangs k :
  ∃ ls s, run (Programs.exec (next k (λ _, false))) (start 1) ls = Some s ∧
    asleep (λ _, false) s ∧ ∀ l, Programs.exec (next k (λ _, false)) s l = None.
Proof.
  exists [Issue 0 None; Issue 1 None], (mkState (make shared_data 2) [AtJoin; Blocked true]).
  split_and!; [done|by exists 1|].
  intros [[|[|i]] woken|[|[|i]] a]; try done; simpl; by destruct a.
Qed.

End NumbersTest.
