(* ===== verification/BlockingQueue.v ===== *)
(** * The blocking queue

    [src/include/grpcw/util/blocking_queue.hpp] and its newer copy
    [src/ltb-util/src/ltb/util/blocking_queue.hpp]. First the bodies of the
    methods as functions on the queue, then their interleaving: the mutex makes
    each body one step ([AtomicData.linearizable] is the argument), but
    [notify_one] is called after the mutex is released, so it is a step of its
    own, and [pop_front] sleeps and is woken. *)
From S2P Require Import Prelude.

Module BlockingQueue.
Section Sequential.
Context {T : Type}.
Implicit Types q : list T.

(** [push_back] and [emplace_back] under the lock. *)
Definition push_back (value : T) q : list T := q ++ [value].

(** [pop_front] once the lock is held: [None] is the predicate of
    [condition_.wait] failing. *)
Definition pop_front q : option (T * list T) :=
  match q with [] => None | front :: rest => Some (front, rest) end.

(** [while (queue_.size() > 1) queue_.pop();] *)
Fixpoint pop_to_one q : list T :=
  match q with
  | _ :: (_ :: _) as rest => pop_to_one rest
  | _ => q
  end.

(** [pop_all_but_most_recent]: the front is copied out and stays; on an empty
    queue [std::queue::front] is undefined. *)
Definition pop_all_but_most_recent q : outcome (T * list T) :=
  match pop_to_one q with
  | [] => Fault front_of_empty
  | front :: rest => Ret (front, front :: rest)
  end.

Definition empty q : bool := match q with [] => true | _ => false end.

Definition size q : nat := length q.

(** [while (queue_.size() > 0) queue_.pop();] *)
Fixpoint clear q : list T := match q with [] => [] | _ :: rest => clear rest end.

(** [clear_all_and_push_back] of the newer copy. *)
Definition clear_all_and_push_back (value : T) q : list T := push_back value (clear q).

Lemma clear_nil q : clear q = [].
Proof. induction q; auto. Qed.

Lemma pop_to_one_snoc q x : pop_to_one (q ++ [x]) = [x].
Proof.
  induction q as [|y q IH]; [done|]. simpl.
  destruct (q ++ [x]) as [|z r] eqn:E; [by destruct q|done].
Qed.

End Sequential.

(** ** Threads *)
Section Concurrent.
Context {T : Type}.

Inductive pc : Type :=
| Ready
| Notifying (* has pushed and released the lock, [notify_one] comes next *)
| Popping (* in [pop_front], about to take the lock *)
| Sleeping. (* in [pop_front], waiting on the condition *)

(** How an element left the queue. *)
Inductive removal : Type := Delivered | Dropped.

(** [pushed] and [removed] are not part of the program: what was ever pushed,
    and what left the queue, in order. *)
Record state : Type := mkState {
  queue_ : list T;
  threads : list pc;
  pushed : list T;
  removed : list (removal * T)
}.

Definition make (n : nat) : state := mkState [] (replicate n Ready) [] [].

Inductive action : Type :=
| PushBack (value : T)
| Notify (woken : option nat)
| CallPopFront
| TryPopFront
| SpuriousWakeup
| PopAllButMostRecent
| Clear
| ClearAllAndPushBack (value : T).

Definition is_popping (c : pc) : bool := match c with Popping => true | _ => false end.
Definition is_sleeping (c : pc) : bool := match c with Sleeping => true | _ => false end.
Definition is_notifying (c : pc) : bool := match c with Notifying => true | _ => false end.

Definition set_pc (i : nat) (c : pc) (s : state) : state :=
  mkState (queue_ s) (<[i := c]> (threads s)) (pushed s) (removed s).

Definition drop_all (q : list T) : list (removal * T) := (Dropped,.) <$> q.

(** Thread [i] performs action [a]. *)
Definition exec (s : state) (ia : nat * action) : option state :=
  let '(i, a) := ia in
  c ← threads s !! i;
  match a, c with
  | PushBack v, Ready =>
      Some (set_pc i Notifying
        (mkState (push_back v (queue_ s)) (threads s) (pushed s ++ [v]) (removed s)))
  | ClearAllAndPushBack v, Ready =>
      Some (set_pc i Notifying
        (mkState (clear_all_and_push_back v (queue_ s)) (threads s) (pushed s ++ [v])
           (removed s ++ drop_all (queue_ s))))
  | Notify woken, Notifying =>
      match woken with
      | None => if count is_sleeping (threads s) is 0 then Some (set_pc i Ready s) else None
      | Some j =>
          match threads s !! j with
          | Some Sleeping => Some (set_pc i Ready (set_pc j Popping s))
          | _ => None
          end
      end
  | CallPopFront, Ready => Some (set_pc i Popping s)
  | TryPopFront, Popping =>
      match pop_front (queue_ s) with
      | None => Some (set_pc i Sleeping s)
      | Some (v, q) =>
          Some (set_pc i Ready (mkState q (threads s) (pushed s) (removed s ++ [(Delivered, v)])))
      end
  | SpuriousWakeup, Sleeping => Some (set_pc i Popping s)
  | PopAllButMostRecent, Ready =>
      match pop_all_but_most_recent (queue_ s) with
      | Ret (_, q) =>
          Some (mkState q (threads s) (pushed s)
                  (removed s ++ drop_all (take (length (queue_ s) - length q) (queue_ s))))
      | Fault _ => None
      end
  | Clear, Ready =>
      Some (mkState (clear (queue_ s)) (threads s) (pushed s) (removed s ++ drop_all (queue_ s)))
  | _, _ => None
  end.

Abbreviation init n := (λ s, s = make n).
Abbreviation step := (exec_step exec).

(** ** Invariants *)

(** Nothing is lost, duplicated or reordered. *)
Definition fifo (s : state) : Prop := (removed s).*2 ++ queue_ s = pushed s.

(** Every element that a sleeping consumer could take is matched by a thread
    that is about to wake one up or by a consumer that is awake. *)
Definition no_lost_wakeup (s : state) : Prop :=
  0 < count is_sleeping (threads s) →
  length (queue_ s) ≤ count is_notifying (threads s) + count is_popping (threads s).

Lemma drop_all_snd q : (drop_all q).*2 = q.
Proof. unfold drop_all. rewrite <-list_fmap_compose. apply list_fmap_id. Qed.

Lemma pop_all_but_most_recent_snoc (q : list T) x :
  pop_all_but_most_recent (q ++ [x]) = Ret (x, [x]).
Proof. unfold pop_all_but_most_recent. by rewrite pop_to_one_snoc. Qed.

Lemma pop_recent_inv (q : list T) v q' :
  pop_all_but_most_recent q = Ret (v, q') → ∃ l, q = l ++ [v] ∧ q' = [v].
Proof.
  destruct q as [|x l _] using rev_ind; [done|].
  rewrite pop_all_but_most_recent_snoc. intros [= <- <-]. by exists l.
Qed.

Lemma fifo_exec s ia s' : fifo s → exec s ia = Some s' → fifo s'.
Proof.
  destruct ia as [i a]. unfold fifo, exec. intros Hf.
  destruct (threads s !! i) as [c|] eqn:Hi; simpl; [|done].
  destruct a, c; simpl; intros Hs; simplify_eq/=; try done.
  - by rewrite <-Hf, <-app_assoc.
  - by repeat case_match; simplify_eq/=.
  - unfold pop_front in Hs. destruct (queue_ s) eqn:Hq; simplify_eq/=; [by rewrite Hq|].
    by rewrite <-Hf, fmap_app, <-app_assoc.
  - destruct (pop_all_but_most_recent _) as [[v q]|] eqn:Hp; simplify_eq/=.
    apply pop_recent_inv in Hp as (l & Hq & ->). rewrite Hq in *.
    rewrite fmap_app, drop_all_snd, length_app, Nat.add_sub, take_app_length; simpl.
    by rewrite <-Hf, <-app_assoc.
  - rewrite fmap_app, drop_all_snd, clear_nil, app_nil_r. simpl. done.
  - rewrite fmap_app, drop_all_snd. unfold clear_all_and_push_back, push_back.
    rewrite clear_nil. simpl. by rewrite Hf.
Qed.

(** How the numbers of threads in each phase change with one thread. *)
Lemma counts_set_pc (l : list pc) i c c' :
  l !! i = Some c →
  count is_sleeping (<[i := c']> l) + indicator is_sleeping c
    = count is_sleeping l + indicator is_sleeping c' ∧
  count is_notifying (<[i := c']> l) + indicator is_notifying c
    = count is_notifying l + indicator is_notifying c' ∧
  count is_popping (<[i := c']> l) + indicator is_popping c
    = count is_popping l + indicator is_popping c'.
Proof. intros H. by rewrite !(count_insert _ _ _ _ c' H). Qed.

Ltac count_threads :=
  repeat match goal with
  | H : ?l !! ?i = Some ?c |- context [count _ (<[?i := ?c']> ?l)] =>
      pose proof (counts_set_pc l i c c' H); clear H
  end; unfold indicator in *; simpl in *.

Lemma no_lost_wakeup_exec s ia s' :
  no_lost_wakeup s → exec s ia = Some s' → no_lost_wakeup s'.
Proof.
  destruct ia as [i a]. unfold no_lost_wakeup, exec. intros Hw.
  destruct (threads s !! i) as [c|] eqn:Hi; simpl; [|done].
  destruct a, c; simpl; intros Hs; simplify_eq/=.
  - unfold push_back. rewrite length_app. count_threads. lia.
  - destruct woken as [j|].
    + destruct (threads s !! j) as [[]|] eqn:Hj; simplify_eq/=.
      assert (<[j := Popping]> (threads s) !! i = Some Notifying) as Hi'.
      { rewrite list_lookup_insert_ne; congruence. }
      pose proof (counts_set_pc _ _ _ Popping Hj). count_threads. lia.
    + destruct (count is_sleeping (threads s)) eqn:Hc; simplify_eq/=.
      count_threads. lia.
  - count_threads. lia.
  - unfold pop_front in Hs.
    destruct (queue_ s) eqn:Hq; simplify_eq/=; rewrite ?Hq in *; count_threads; lia.
  - count_threads. lia.
  - destruct (pop_all_but_most_recent _) as [[v q]|] eqn:Hp; simplify_eq/=.
    apply pop_recent_inv in Hp as (l & Hq & ->). rewrite Hq, length_app in Hw. simpl in *. lia.
  - rewrite clear_nil. simpl. lia.
  - unfold clear_all_and_push_back, push_back. rewrite clear_nil. count_threads. lia.
Qed.

Lemma reachable_fifo n s : reachable (init n) step s → fifo s.
Proof.
  apply reachable_invariant; [by intros ? ->|]. intros. by eapply fifo_exec.
Qed.

Lemma count_replicate_ready (P : pc → bool) n : P Ready = false → count P (replicate n Ready) = 0.
Proof. intros H. induction n; simpl; [done|]. unfold indicator. by rewrite H. Qed.

Lemma reachable_no_lost_wakeup n s : reachable (init n) step s → no_lost_wakeup s.
Proof.
  apply reachable_invariant.
  - intros ? ->. unfold no_lost_wakeup. simpl. lia.
  - intros. by eapply no_lost_wakeup_exec.
Qed.

(** A consumer that is asleep while the queue has elements can be woken, and
    the one that runs first returns the front. *)
Lemma consumer_progress n s :
  reachable (init n) step s → queue_ s ≠ [] →
  0 < count is_popping (threads s) + count is_sleeping (threads s) →
  ∃ ls s' v, run exec s ls = Some s' ∧ length ls ≤ 2 ∧
    head (queue_ s) = Some v ∧ removed s' = removed s ++ [(Delivered, v)] ∧
    queue_ s' = tail (queue_ s).
Proof.
  intros Hr Hq Hc. destruct (queue_ s) as [|v q] eqn:Eq; [done|].
  assert (∀ s1 i, queue_ s1 = v :: q → threads s1 !! i = Some Popping →
    ∃ s2, exec s1 (i, TryPopFront) = Some s2 ∧
      removed s2 = removed s1 ++ [(Delivered, v)] ∧ queue_ s2 = q) as Htry.
  { intros s1 i Hq1 Hi. unfold exec. rewrite Hi. simpl. rewrite Hq1. simpl. by eexists. }
  destruct (decide (0 < count is_popping (threads s))) as [Hp|Hp].
  - apply count_pos_inv in Hp as (i & [] & Hi & ?); try done.
    destruct (Htry s i Eq Hi) as (s' & He & ? & ?).
    exists [(i, TryPopFront)], s', v. cbn [run]. rewrite He. repeat split; (done || simpl; lia).
  - pose proof (reachable_no_lost_wakeup n s Hr ltac:(lia)) as Hw. rewrite Eq in Hw. simpl in Hw.
    destruct (count_pos_inv is_notifying (threads s)) as (i & [] & Hi & ?); try done; [lia|].
    destruct (count_pos_inv is_sleeping (threads s)) as (j & [] & Hj & ?); try done; [lia|].
    assert (i ≠ j) by congruence.
    set (s1 := set_pc i Ready (set_pc j Popping s)).
    assert (threads s1 !! j = Some Popping) as Hj1.
    { simpl. rewrite list_lookup_insert_ne by done.
      apply list_lookup_insert_eq. by eapply lookup_lt_Some. }
    destruct (Htry s1 j Eq Hj1) as (s' & He & ? & ?).
    exists [(i, Notify (Some j)); (j, TryPopFront)], s', v.
    assert (exec s (i, Notify (Some j)) = Some s1) as He1.
    { unfold exec. rewrite Hi. simpl. by rewrite Hj. }
    cbn [run]. rewrite He1, He. repeat split; (done || simpl; lia).
Qed.

End Concurrent.
Arguments state : clear implicits.
Arguments action : clear implicits.

(** ** Properties *)

(** C22: first in, first out, exactly once.  In every interleaving of pushes, pops,
    clears and wake-ups, what has left the queue followed by what is in it is
    what was pushed, in the order of the pushes: no element is lost, duplicated
    or overtaken. *)
Theorem queue_fifo {T} n (s : state T) :
  reachable (λ s, s = make n) (exec_step exec) s →
  (removed s).*2 ++ queue_ s = pushed s.
Proof. apply reachable_fifo. Qed.

(** C24: no wake-up is lost although [notify_one] is called without the mutex.
    When no thread is about to notify and no consumer is awake, a consumer that
    sleeps in [pop_front] means that the queue is empty. *)
Theorem queue_no_lost_wakeup {T} n (s : state T) i :
  reachable (λ s, s = make n) (exec_step exec) s →
  count is_notifying (threads s) = 0 → count is_popping (threads s) = 0 →
  threads s !! i = Some Sleeping → queue_ s = [].
Proof.
  intros Hr Hn Hp Hi. pose proof (count_pos is_sleeping _ _ _ Hi eq_refl) as Hc.
  pose proof (reachable_no_lost_wakeup n s Hr Hc). apply nil_length_inv. lia.
Qed.

(** [pop_front] returns once there is something to return.  While the queue is
    not empty, a thread in [pop_front], asleep or not, is at most two steps of the
    program (a notification and a test) from a consumer returning the front. *)
Theorem pop_front_progress {T} n (s : state T) :
  reachable (λ s, s = make n) (exec_step exec) s → queue_ s ≠ [] →
  0 < count is_popping (threads s) + count is_sleeping (threads s) →
  ∃ ls s' v, run exec s ls = Some s' ∧ length ls ≤ 2 ∧
    head (queue_ s) = Some v ∧ removed s' = removed s ++ [(Delivered, v)] ∧
    queue_ s' = tail (queue_ s).
Proof. apply consumer_progress. Qed.

(** [pop_all_but_most_recent] returns the newest element and leaves it in
    the queue as its only element; on an empty queue it reads the front of an
    empty [std::queue], which it does not guard against. *)
Theorem pop_all_but_most_recent_spec {T} (q : list T) :
  match last q with
  | Some v => pop_all_but_most_recent q = Ret (v, [v])
  | None => pop_all_but_most_recent q = Fault front_of_empty
  end.
Proof.
  destruct q as [|x l _] using rev_ind; [done|].
  by rewrite last_snoc, pop_all_but_most_recent_snoc.
Qed.

(** One consumer asleep, two producers that have pushed and not yet notified. *)
Definition two_producers : list (nat * action nat) :=
  [(0, CallPopFront); (0, TryPopFront); (1, PushBack 7); (2, PushBack 8)].

Definition two_producers_state : state nat :=
  default (make 3) (run exec (make 3) two_producers).

Lemma two_producers_reachable :
  reachable (λ s, s = make 3) (exec_step exec) two_producers_state.
Proof.
  apply (run_reachable exec _ (make 3) two_producers); [done|]. vm_compute. reflexivity.
Qed.

(** A consumer asleep on an empty queue. *)
Definition idle_state : state nat :=
  mkState [] [Sleeping; Ready] [] [].

Lemma idle_reachable : reachable (λ s, s = make 2) (exec_step exec) idle_state.
Proof.
  apply (run_reachable exec _ (make 2) [(0, CallPopFront); (0, TryPopFront)]); [done|].
  vm_compute. reflexivity.
Qed.

Lemma queue_fifo_witness :
  (removed two_producers_state).*2 ++ queue_ two_producers_state = [7; 8].
Proof. apply (queue_fifo 3). exact two_producers_reachable. Defined.

Lemma queue_no_lost_wakeup_witness : queue_ idle_state = [].
Proof.
  apply (queue_no_lost_wakeup 2 idle_state 0); [exact idle_reachable|reflexivity..].
Defined.

Lemma pop_front_progress_witness :
  ∃ ls s' v, run exec two_producers_state ls = Some s' ∧ length ls ≤ 2 ∧
    head (queue_ two_producers_state) = Some v ∧
    removed s' = removed two_producers_state ++ [(Delivered, v)] ∧
    queue_ s' = tail (queue_ two_producers_state).
Proof.
  apply (pop_front_progress 3); [exact two_producers_reachable|vm_compute; done|vm_compute; lia].
Defined.

End BlockingQueue.
