(* ===== verification/BlockingQueueLocks.v ===== *)
(** * The blocking queue, lock by lock

    The methods of [src/include/grpcw/util/blocking_queue.hpp] and of
    [src/ltb-util/src/ltb/util/blocking_queue.hpp], statement by statement: the
    mutex is taken and released, [queue_] is accessed once per step, and the
    condition variable gives the mutex up while a consumer sleeps. The system of
    [BlockingQueue.v], whose methods are single steps, is its abstract
    specification. *)
From S2P Require Import Prelude BlockingQueue.

Module QueueLocks.
Section Queue.
Context {T : Type}.

Abbreviation abstract := (BlockingQueue.state T).

(** The method that a thread is in. *)
Inductive method : Type :=
| PushBack (value : T)
| ClearAllAndPushBack (value : T)
| PopFront
| PopAllButMostRecent
| Clear.

(** The next statement while the mutex is held. *)
Inductive statement : Type :=
| Push (value : T) (* [queue_.push(value);] *)
| ClearLoop (* [while (queue_.size() > 0) queue_.pop();] *)
| PopLoop (* [while (queue_.size() > 1) queue_.pop();] *)
| CopyFront (* [return queue_.front();] *)
| TestNotEmpty (* the predicate of [condition_.wait] *)
| MoveFront (* [T rc(std::move(queue_.front()));] *)
| PopMoved (rc : T) (* [queue_.pop();] *)
| Unlock (result : option T). (* the destructor of the lock, with what is returned *)

Inductive pc : Type :=
| Ready
| Locking (m : method)
| Holding (m : method) (st : statement)
| Notifying
| Sleeping.

(** [pushed] and [removed] are not part of the program: what was ever pushed,
    and what left [queue_], in order. *)
Record state : Type := mkState {
  queue_ : list T;
  mutex_ : option nat;
  threads : list pc;
  pushed : list T;
  removed : list (BlockingQueue.removal * T);
  crashed : option fault
}.

Definition make (n : nat) : state := mkState [] None (replicate n Ready) [] [] None.

(** The first statement of a method once it has the mutex. *)
Definition entry (m : method) : statement :=
  match m with
  | PushBack v => Push v
  | ClearAllAndPushBack _ | Clear => ClearLoop
  | PopFront => TestNotEmpty
  | PopAllButMostRecent => PopLoop
  end.

Definition set_pc (i : nat) (c : pc) (s : state) : state :=
  mkState (queue_ s) (mutex_ s) (<[i := c]> (threads s)) (pushed s) (removed s) (crashed s).
Definition set_mutex (m : option nat) (s : state) : state :=
  mkState (queue_ s) m (threads s) (pushed s) (removed s) (crashed s).
(** An access to [queue_]: its new contents, what was pushed and what left. *)
Definition access (q p : list T) (r : list (BlockingQueue.removal * T)) (s : state) : state :=
  mkState q (mutex_ s) (threads s) (pushed s ++ p) (removed s ++ r) (crashed s).
Definition crash (e : fault) (s : state) : state :=
  mkState (queue_ s) (mutex_ s) (threads s) (pushed s) (removed s) (Some e).

(** Methods that push notify after they have released the mutex. *)
Definition next_pc (m : method) : pc :=
  match m with PushBack _ | ClearAllAndPushBack _ => Notifying | _ => Ready end.

(** One statement with the mutex held. [queue_.front()] on an empty queue is
    undefined. *)
Definition exec_statement (i : nat) (m : method) (st : statement) (s : state) : option state :=
  match st, queue_ s with
  | Push v, q => Some (set_pc i (Holding m (Unlock None)) (access (q ++ [v]) [v] [] s))
  | ClearLoop, x :: q => Some (access q [] [(BlockingQueue.Dropped, x)] s)
  | ClearLoop, [] =>
      Some (set_pc i (Holding m (match m with ClearAllAndPushBack v => Push v | _ => Unlock None end)) s)
  | PopLoop, x :: (_ :: _) as q => Some (access q [] [(BlockingQueue.Dropped, x)] s)
  | PopLoop, _ => Some (set_pc i (Holding m CopyFront) s)
  | CopyFront, v :: _ => Some (set_pc i (Holding m (Unlock (Some v))) s)
  | CopyFront, [] => Some (crash front_of_empty s)
  | TestNotEmpty, [] => Some (set_mutex None (set_pc i Sleeping s))
  | TestNotEmpty, _ :: _ => Some (set_pc i (Holding m MoveFront) s)
  | MoveFront, v :: _ => Some (set_pc i (Holding m (PopMoved v)) s)
  | MoveFront, [] => Some (crash front_of_empty s)
  | PopMoved v, _ :: q =>
      Some (set_pc i (Holding m (Unlock (Some v))) (access q [] [(BlockingQueue.Delivered, v)] s))
  | PopMoved _, [] => Some (crash front_of_empty s)
  | Unlock _, _ => Some (set_mutex None (set_pc i (next_pc m) s))
  end.

Inductive action : Type :=
| Call (m : method)
| Lock
| Statement
| Notify (woken : option nat)
| SpuriousWakeup.

Definition is_sleeping (c : pc) : bool := match c with Sleeping => true | _ => false end.

(** A consumer that is woken takes the mutex again before it tests the
    predicate. *)
Definition exec (s : state) (ia : nat * action) : option state :=
  let '(i, a) := ia in
  match crashed s, threads s !! i with
  | None, Some c =>
      match a, c with
      | Call m, Ready => Some (set_pc i (Locking m) s)
      | Lock, Locking m =>
          match mutex_ s with
          | None => Some (set_mutex (Some i) (set_pc i (Holding m (entry m)) s))
          | Some _ => None
          end
      | Statement, Holding m st => exec_statement i m st s
      | Notify woken, Notifying =>
          match woken with
          | None => if count is_sleeping (threads s) is 0 then Some (set_pc i Ready s) else None
          | Some j =>
              match threads s !! j with
              | Some Sleeping => Some (set_pc i Ready (set_pc j (Locking PopFront) s))
              | _ => None
              end
          end
      | SpuriousWakeup, Sleeping => Some (set_pc i (Locking PopFront) s)
      | _, _ => None
      end
  | _, _ => None
  end.

(** ** Refinement *)

(** Where a thread is for the abstract queue: a method that has the mutex takes
    effect when it releases it. *)
Definition abstract_pc (c : pc) : BlockingQueue.pc :=
  match c with
  | Locking PopFront | Holding PopFront _ => BlockingQueue.Popping
  | Ready | Locking _ | Holding _ _ => BlockingQueue.Ready
  | Notifying => BlockingQueue.Notifying
  | Sleeping => BlockingQueue.Sleeping
  end.

(** Nothing has happened to the queue since the mutex was taken. *)
Definition untouched (a : abstract) (s : state) : Prop :=
  queue_ s = BlockingQueue.queue_ a ∧ pushed s = BlockingQueue.pushed a ∧
  removed s = BlockingQueue.removed a.

(** The first elements have been dropped. *)
Definition dropped (a : abstract) (s : state) : Prop :=
  pushed s = BlockingQueue.pushed a ∧
  ∃ d, BlockingQueue.queue_ a = d ++ queue_ s ∧
    removed s = BlockingQueue.removed a ++ BlockingQueue.drop_all d.

(** What the method that has the mutex has done so far. *)
Definition progress (m : method) (st : statement) (a : abstract) (s : state) : Prop :=
  match m, st with
  | PushBack v, Push w => v = w ∧ untouched a s
  | PushBack v, Unlock _ =>
      queue_ s = BlockingQueue.queue_ a ++ [v] ∧ pushed s = BlockingQueue.pushed a ++ [v] ∧
      removed s = BlockingQueue.removed a
  | ClearAllAndPushBack v, ClearLoop => dropped a s
  | ClearAllAndPushBack v, Push w => v = w ∧ dropped a s ∧ queue_ s = []
  | ClearAllAndPushBack v, Unlock _ =>
      queue_ s = [v] ∧ pushed s = BlockingQueue.pushed a ++ [v] ∧
      removed s = BlockingQueue.removed a ++ BlockingQueue.drop_all (BlockingQueue.queue_ a)
  | Clear, ClearLoop => dropped a s
  | Clear, Unlock _ => dropped a s ∧ queue_ s = []
  | PopAllButMostRecent, PopLoop => dropped a s ∧ (queue_ s = [] → BlockingQueue.queue_ a = [])
  | PopAllButMostRecent, CopyFront =>
      dropped a s ∧ (queue_ s = [] ∧ BlockingQueue.queue_ a = [] ∨ ∃ v, queue_ s = [v])
  | PopAllButMostRecent, Unlock r => ∃ v, r = Some v ∧ dropped a s ∧ queue_ s = [v]
  | PopFront, TestNotEmpty => untouched a s
  | PopFront, MoveFront => untouched a s ∧ queue_ s ≠ []
  | PopFront, PopMoved v => untouched a s ∧ head (queue_ s) = Some v
  | PopFront, Unlock r =>
      ∃ v, r = Some v ∧ BlockingQueue.queue_ a = v :: queue_ s ∧
        pushed s = BlockingQueue.pushed a ∧
        removed s = BlockingQueue.removed a ++ [(BlockingQueue.Delivered, v)]
  | _, _ => False
  end.

(** The states of the two systems that correspond. *)
Record refines (s : state) (a : abstract) : Prop := mkRefines {
  ref_threads : BlockingQueue.threads a = abstract_pc <$> threads s;
  ref_free : mutex_ s = None → untouched a s;
  ref_holder i : mutex_ s = Some i →
    ∃ m st, threads s !! i = Some (Holding m st) ∧ progress m st a s;
  ref_unique i m st : threads s !! i = Some (Holding m st) → mutex_ s = Some i
}.

(** A step of the method that has the mutex and keeps it. *)
Lemma refines_keep s a i m st st' s' :
  refines s a → threads s !! i = Some (Holding m st) →
  threads s' = <[i := Holding m st']> (threads s) → mutex_ s' = mutex_ s →
  progress m st' a s' → refines s' a.
Proof.
  intros [Ht _ _ Hu] Hi Hts Hm Hp. pose proof (Hu _ _ _ Hi) as Hs.
  split; rewrite ?Hts, ?Hm, ?Hs; [|done|..].
  - rewrite list_fmap_insert, Ht. symmetry. apply list_insert_id.
    rewrite list_lookup_fmap, Hi. by destruct m.
  - intros ? [= <-]. exists m, st'. split; [|done].
    apply list_lookup_insert_eq. by eapply lookup_lt_Some.
  - intros j m' st''. destruct (decide (i = j)) as [->|]; [done|].
    rewrite list_lookup_insert_ne by done. rewrite <-Hs. apply Hu.
Qed.

(** A step of a thread that leaves the mutex free. *)
Lemma refines_free s a i c s' a' :
  refines s a → (∀ j m st, threads s !! j = Some (Holding m st) → j = i) →
  threads s' = <[i := c]> (threads s) → (∀ m st, c ≠ Holding m st) → mutex_ s' = None →
  BlockingQueue.threads a' = <[i := abstract_pc c]> (BlockingQueue.threads a) →
  untouched a' s' → refines s' a'.
Proof.
  intros [Ht _ _ _] Hi Hts Hc Hm Hta Hp. split; rewrite ?Hts, ?Hm; [|done..|].
  - by rewrite Hta, Ht, list_fmap_insert.
  - intros j m st [[-> [? _]]|[? Hj]]%list_lookup_insert_Some; [by edestruct Hc|].
    by apply Hi in Hj.
Qed.

(** A step of a thread that has nothing to do with the mutex. *)
Lemma refines_other s a i c c' a' :
  refines s a → threads s !! i = Some c →
  (∀ m st, c ≠ Holding m st) → (∀ m st, c' ≠ Holding m st) →
  a' = BlockingQueue.set_pc i (abstract_pc c') a →
  refines (set_pc i c' s) a'.
Proof.
  intros [Ht Hf Hh Hu] Hi Hc Hc' ->. split; simpl.
  - by rewrite Ht, list_fmap_insert.
  - exact Hf.
  - intros j Hj. destruct (Hh j Hj) as (m & st & Hj' & Hp). exists m, st.
    assert (i ≠ j) by (intros ->; rewrite Hi in Hj'; injection Hj' as ->; by eapply Hc).
    rewrite list_lookup_insert_ne by done. split; [done|]. by destruct m, st.
  - intros j m st [[-> [? _]]|[? Hj]]%list_lookup_insert_Some; [by edestruct Hc'|].
    by eapply Hu.
Qed.

Lemma abstract_lookup s a i c :
  refines s a → threads s !! i = Some c → BlockingQueue.threads a !! i = Some (abstract_pc c).
Proof. intros Hr Hi. by rewrite (ref_threads _ _ Hr), list_lookup_fmap, Hi. Qed.

Lemma abstract_same s a i c c' :
  refines s a → threads s !! i = Some c → abstract_pc c = abstract_pc c' →
  a = BlockingQueue.set_pc i (abstract_pc c') a.
Proof.
  intros Hr Hi Hc. pose proof (abstract_lookup _ _ _ _ Hr Hi) as Ha. rewrite Hc in Ha.
  destruct a as [q l p r]. unfold BlockingQueue.set_pc. simpl in *. by rewrite list_insert_id.
Qed.

Lemma dropped_cons a s x q :
  dropped a s → queue_ s = x :: q →
  dropped a (access q [] [(BlockingQueue.Dropped, x)] s).
Proof.
  intros (Hp & d & Hq & Hr) E. rewrite E in Hq. unfold dropped. simpl.
  rewrite app_nil_r. split; [done|]. exists (d ++ [x]).
  rewrite <-app_assoc. split; [done|]. rewrite Hr.
  unfold BlockingQueue.drop_all. by rewrite fmap_app, <-app_assoc.
Qed.

(** What the abstract queue does when the method of thread [i] releases the
    mutex. *)
Definition abstract_action (m : method) : BlockingQueue.action T :=
  match m with
  | PushBack v => BlockingQueue.PushBack v
  | ClearAllAndPushBack v => BlockingQueue.ClearAllAndPushBack v
  | PopFront => BlockingQueue.TryPopFront
  | PopAllButMostRecent => BlockingQueue.PopAllButMostRecent
  | Clear => BlockingQueue.Clear
  end.

Lemma dropped_all a s :
  dropped a s → queue_ s = [] →
  pushed s = BlockingQueue.pushed a ∧
  removed s = BlockingQueue.removed a ++ BlockingQueue.drop_all (BlockingQueue.queue_ a).
Proof. intros (Hp & d & Hq & Hr) E. by rewrite Hq, E, app_nil_r. Qed.

(** Releasing the mutex is where the method takes effect. *)
Lemma unlock_simulated s a i m r :
  refines s a → threads s !! i = Some (Holding m (Unlock r)) → progress m (Unlock r) a s →
  ∃ a', BlockingQueue.exec a (i, abstract_action m) = Some a' ∧
    refines (set_mutex None (set_pc i (next_pc m) s)) a'.
Proof.
  intros Hr Hi Hp. pose proof (abstract_lookup _ _ _ _ Hr Hi) as Ha.
  assert (∀ j m' st', threads s !! j = Some (Holding m' st') → j = i) as Huniq.
  { intros j m' st' Hj. apply (ref_unique _ _ Hr) in Hj, Hi. congruence. }
  unfold BlockingQueue.exec. destruct m; simpl in *; rewrite Ha; simpl.
  - destruct Hp as (? & ? & ?). eexists. split; [done|].
    by eapply (refines_free s a i).
  - destruct Hp as (Hq & ? & ?). eexists. split; [done|].
    eapply (refines_free s a i); try done. split; simpl; [|done].
    unfold BlockingQueue.clear_all_and_push_back, BlockingQueue.push_back.
    by rewrite BlockingQueue.clear_nil.
  - destruct Hp as (v & -> & Hq & ? & ?). rewrite Hq. simpl. eexists. split; [done|].
    by eapply (refines_free s a i).
  - destruct Hp as (v & -> & (? & d & Hq & ?) & Hqs). rewrite Hq, Hqs.
    rewrite BlockingQueue.pop_all_but_most_recent_snoc. eexists. split; [done|].
    eapply (refines_free s a i); try done; simpl.
    + symmetry. by apply list_insert_id.
    + split; simpl; [done|].
      rewrite length_app, Nat.add_sub, take_app_length. done.
  - destruct Hp as (Hd & Hqs). eexists. split; [done|].
    destruct (dropped_all _ _ Hd Hqs).
    eapply (refines_free s a i); try done; simpl.
    + symmetry. by apply list_insert_id.
    + split; simpl; [by rewrite BlockingQueue.clear_nil|done].
Qed.

(** Every other statement is invisible, except that a consumer which finds
    nothing goes to sleep. *)
Lemma statement_simulated s a i m st s' :
  refines s a → threads s !! i = Some (Holding m st) →
  exec_statement i m st s = Some s' → crashed s' = None →
  ∃ ls a', run BlockingQueue.exec a ls = Some a' ∧ refines s' a'.
Proof.
  intros Hr Hi Hs Hc.
  pose proof (ref_unique _ _ Hr _ _ _ Hi) as Hm.
  assert (progress m st a s) as Hp.
  { destruct (ref_holder _ _ Hr _ Hm) as (m' & st' & Hi' & Hp). congruence. }
  assert (∀ q p r, refines (access q p r s) a → ∃ ls a', run BlockingQueue.exec a ls = Some a' ∧
    refines (access q p r s) a') as Hstay by (by intros; exists [], a).
  assert (∀ st' s1, threads s1 = <[i := Holding m st']> (threads s) → mutex_ s1 = mutex_ s →
    progress m st' a s1 → ∃ ls a', run BlockingQueue.exec a ls = Some a' ∧ refines s1 a') as Hkeep.
  { intros st' s1 ???. exists [], a. split; [done|]. by eapply refines_keep. }
  assert (threads s = <[i := Holding m st]> (threads s)) as Hid
    by by rewrite list_insert_id.
  destruct st; simpl in Hs.
  - (* Push *) simplify_eq/=. eapply (Hkeep (Unlock None)); [done..|].
    destruct m; simpl in *; try done.
    + destruct Hp as (-> & -> & -> & ->). by rewrite app_nil_r.
    + destruct Hp as (-> & Hd & Hq). destruct (dropped_all _ _ Hd Hq) as [-> ->].
      by rewrite Hq, app_nil_r.
  - (* ClearLoop *)
    destruct (queue_ s) as [|x q] eqn:Hq; simplify_eq/=.
    + eapply Hkeep; [done..|]. by destruct m; simpl in *.
    + eapply (Hkeep ClearLoop); [exact Hid|done|].
      destruct m; simpl in *; try done; by apply dropped_cons.
  - (* PopLoop *) destruct m; simpl in Hp; try done. destruct Hp as [Hd Hn].
    destruct (queue_ s) as [|x [|y q]] eqn:Hq; simplify_eq/=.
    + eapply (Hkeep CopyFront); [done..|]. simpl. split; [done|]. left. by rewrite Hq; auto.
    + eapply (Hkeep CopyFront); [done..|]. simpl. split; [done|]. right. by exists x.
    + eapply (Hkeep PopLoop); [exact Hid|done|]. simpl. split; [|done]. by apply dropped_cons.
  - (* CopyFront *) destruct m; simpl in Hp; try done. destruct Hp as [Hd [[Hn _]|[v Hn]]];
      rewrite Hn in Hs; simplify_eq/=.
    eapply (Hkeep (Unlock (Some v))); [done..|]. simpl. by exists v.
  - (* TestNotEmpty *) destruct m; simpl in Hp; try done.
    destruct (queue_ s) as [|x q] eqn:Hq; simplify_eq/=.
    + destruct Hp as (Hqa & ? & ?). exists [(i, BlockingQueue.TryPopFront)].
      eexists. split.
      * cbn [run]. unfold BlockingQueue.exec. rewrite (abstract_lookup _ _ _ _ Hr Hi). simpl.
        by rewrite <-Hqa, Hq.
      * eapply (refines_free s a i); try done.
        intros j m' st' Hj. apply (ref_unique _ _ Hr) in Hj. congruence.
    + eapply (Hkeep MoveFront); [done..|]. simpl. by rewrite Hq.
  - (* MoveFront *) destruct m; simpl in Hp; try done.
    destruct (queue_ s) as [|x q] eqn:Hq; simplify_eq/=.
    eapply (Hkeep (PopMoved x)); [done..|]. simpl. destruct Hp as [? _]. by rewrite Hq.
  - (* PopMoved *) destruct m; simpl in Hp; try done. destruct Hp as [(Hqa & Hpa & Hra) Hh].
    destruct (queue_ s) as [|x q] eqn:Hq; simplify_eq/=.
    eapply (Hkeep (Unlock (Some rc))); [done..|]. simpl. exists rc.
    by rewrite app_nil_r, <-Hqa, Hra.
  - (* Unlock *) simplify_eq/=.
    destruct (unlock_simulated s a i m result Hr Hi Hp) as (a' & He & ?).
    exists [(i, abstract_action m)], a'. cbn [run]. by rewrite He.
Qed.

(** A crash is the front of an empty queue, read by [pop_all_but_most_recent]
    while the abstract queue is empty. *)
Lemma crash_simulated s a i m st s' e :
  refines s a → threads s !! i = Some (Holding m st) →
  crashed s = None → exec_statement i m st s = Some s' → crashed s' = Some e →
  e = front_of_empty ∧ m = PopAllButMostRecent ∧ BlockingQueue.queue_ a = [].
Proof.
  intros Hr Hi H0 Hs Hc. pose proof (ref_unique _ _ Hr _ _ _ Hi) as Hm.
  destruct (ref_holder _ _ Hr _ Hm) as (m' & st' & Hi' & Hp).
  rewrite Hi in Hi'. injection Hi' as <- <-.
  destruct st, (queue_ s) as [|x [|y q]] eqn:Hq; simpl in Hs; rewrite ?Hq in Hs; simplify_eq/=;
    try congruence; destruct m; simpl in Hp; try done.
  - destruct Hp as [_ [[_ ?]|[? ?]]]; [done|congruence].
  - destruct Hp as [_ []]. done.
  - rewrite Hq in Hp. by destruct Hp.
Qed.

(** What the abstract queue shows of a state that has crashed. *)
Definition corresponds (s : state) (a : abstract) : Prop :=
  match crashed s with
  | None => refines s a
  | Some e => e = front_of_empty ∧ BlockingQueue.queue_ a = []
  end.

Lemma count_sleeping_abstract l :
  count BlockingQueue.is_sleeping (abstract_pc <$> l) = count is_sleeping l.
Proof.
  induction l as [|c l IH]; [done|]. rewrite fmap_cons. cbn [count]. rewrite IH.
  by destruct c as [|[]|[]| |].
Qed.

Lemma abstract_sleeping c : abstract_pc c = BlockingQueue.Sleeping → c = Sleeping.
Proof. by destruct c as [|[]|[]| |]. Qed.

Lemma notify_simulated s a i woken s' :
  corresponds s a → exec s (i, Notify woken) = Some s' →
  ∃ ls a', run BlockingQueue.exec a ls = Some a' ∧ corresponds s' a'.
Proof.
  unfold corresponds, exec. destruct (crashed s) eqn:Hc; [done|]. intros Hr Hs.
  destruct (threads s !! i) as [[]|] eqn:Hi; simplify_eq/=.
  pose proof (abstract_lookup _ _ _ _ Hr Hi) as Ha.
  exists [(i, BlockingQueue.Notify woken)]. cbn [run]. unfold BlockingQueue.exec.
  rewrite Ha. simpl. destruct woken as [j|].
  - destruct (threads s !! j) as [[]|] eqn:Hj; simplify_eq/=.
    rewrite (abstract_lookup _ _ _ _ Hr Hj). simpl. eexists. split; [done|].
    rewrite Hc. assert (i ≠ j) by congruence.
    assert (refines (set_pc j (Locking PopFront) s)
      (BlockingQueue.set_pc j BlockingQueue.Popping a)) as Hr1
      by by eapply (refines_other s a j Sleeping (Locking PopFront)).
    eapply (refines_other _ _ i Notifying Ready _ Hr1); [|done..].
    simpl. by rewrite list_lookup_insert_ne.
  - rewrite (ref_threads _ _ Hr), count_sleeping_abstract.
    destruct (count is_sleeping (threads s)); simplify_eq/=. eexists. split; [done|].
    rewrite Hc. by eapply (refines_other s a i Notifying Ready).
Qed.

Lemma exec_simulated s a ia s' :
  corresponds s a → exec s ia = Some s' →
  ∃ ls a', run BlockingQueue.exec a ls = Some a' ∧ corresponds s' a'.
Proof.
  destruct ia as [i [m| | |woken|]]; [| | |by apply notify_simulated|];
    unfold corresponds, exec; destruct (crashed s) eqn:Hc; (done || intros Hr Hs);
    destruct (threads s !! i) as [c|] eqn:Hi; (done || destruct c; simplify_eq/=); try rewrite Hc.
  - (* Call *) pose proof (abstract_lookup _ _ _ _ Hr Hi) as Ha.
    destruct m; try (exists [], a; split; [done|];
      eapply refines_other; [done|exact Hi|done|done|by eapply abstract_same]).
    exists [(i, BlockingQueue.CallPopFront)]. eexists. split.
    + cbn [run]. unfold BlockingQueue.exec. by rewrite Ha.
    + by eapply refines_other.
  - (* Lock *) destruct (mutex_ s) eqn:Hm; simplify_eq/=. rewrite Hc.
    pose proof (ref_free _ _ Hr Hm) as Hu. exists [], a. split; [done|].
    assert (i < length (threads s)) by by eapply lookup_lt_Some.
    split; simpl; [|done|..].
    + rewrite (ref_threads _ _ Hr), list_fmap_insert. symmetry. apply list_insert_id.
      rewrite list_lookup_fmap, Hi. by destruct m.
    + intros ? [= <-]. exists m, (entry m). split; [by apply list_lookup_insert_eq|].
      destruct Hu as (Hq & Hp & Hre).
      destruct m; simpl; unfold dropped, untouched; simpl; repeat split; try done;
        try (exists []; split; [done|by rewrite app_nil_r]). by rewrite Hq.
    + intros j m' st [[-> [? _]]|[? Hj]]%list_lookup_insert_Some; [done|].
      apply (ref_unique _ _ Hr) in Hj. congruence.
  - (* Statement *) destruct (crashed s') as [e|] eqn:Hc'.
    + exists [], a. split; [done|]. by edestruct crash_simulated as (? & ? & ?).
    + by eapply statement_simulated.
  - (* SpuriousWakeup *)
    exists [(i, BlockingQueue.SpuriousWakeup)]. eexists. split.
    + cbn [run]. unfold BlockingQueue.exec. by rewrite (abstract_lookup _ _ _ _ Hr Hi).
    + by eapply refines_other.
Qed.

Lemma refines_make n : refines (make n) (BlockingQueue.make n).
Proof.
  split; simpl; [by rewrite fmap_replicate|done|done|].
  intros i m st [? _]%lookup_replicate. done.
Qed.

Lemma reachable_corresponds n s :
  reachable (λ s, s = make n) (exec_step exec) s →
  ∃ a, reachable (λ a, a = BlockingQueue.make n) (exec_step BlockingQueue.exec) a ∧
    corresponds s a.
Proof.
  apply simulation_reachable.
  - intros ? ->. eexists. split; [done|]. apply refines_make.
  - intros c l c' a Hr Hs. destruct (exec_simulated c a l c' Hr Hs) as (ls & a' & He & ?).
    exists ls, a'. split; [by apply run_execution|done].
Qed.

(** ** Every critical section ends *)

(** The statements left before the mutex is released. *)
Definition remaining (st : statement) (q : list T) : nat :=
  match st with
  | Unlock _ => 1
  | Push _ | CopyFront | PopMoved _ => 2
  | MoveFront => 3
  | TestNotEmpty => 4
  | ClearLoop | PopLoop => length q + 3
  end.

Lemma statement_progress s i m st :
  threads s !! i = Some (Holding m st) → mutex_ s = Some i →
  ∃ s', exec_statement i m st s = Some s' ∧
    (mutex_ s' = None ∨ crashed s' = Some front_of_empty ∨
     ∃ st', threads s' !! i = Some (Holding m st') ∧ mutex_ s' = Some i ∧
       crashed s' = crashed s ∧ remaining st' (queue_ s') < remaining st (queue_ s)).
Proof.
  intros Hi Hm. assert (i < length (threads s)) by by eapply lookup_lt_Some.
  destruct st, (queue_ s) as [|x [|y q]] eqn:Hq; simpl; rewrite ?Hq; eexists; (split; [done|]);
    simpl; rewrite ?Hq; try (left; done); try (right; left; done); right; right;
    eexists; (split; [first [exact Hi|by apply list_lookup_insert_eq]|]);
    (split; [exact Hm|split; [done|]]); simpl; try lia; destruct m; simpl; lia.
Qed.

Lemma holder_releases s i m st :
  threads s !! i = Some (Holding m st) → mutex_ s = Some i → crashed s = None →
  ∃ k s', k ≤ remaining st (queue_ s) ∧ run exec s (replicate k (i, Statement)) = Some s' ∧
    (mutex_ s' = None ∨ crashed s' = Some front_of_empty).
Proof.
  remember (remaining st (queue_ s)) as n eqn:Hn. revert s st Hn.
  induction n as [n IH] using lt_wf_ind. intros s st Hn Hi Hm Hc.
  destruct (statement_progress s i m st Hi Hm) as (s1 & He & Hs1).
  assert (exec s (i, Statement) = Some s1) as Hx by (unfold exec; by rewrite Hc, Hi).
  assert (1 ≤ n) by (subst n; destruct st; simpl; lia).
  destruct Hs1 as [?|[?|(st' & Hi' & Hm' & Hc' & Hlt)]].
  - exists 1, s1. cbn [replicate run]. rewrite Hx. auto.
  - exists 1, s1. cbn [replicate run]. rewrite Hx. auto.
  - edestruct (IH (remaining st' (queue_ s1))) as (k & s2 & Hk & Hr & ?); [lia|done..|congruence|].
    exists (S k), s2. split; [lia|]. cbn [replicate run]. by rewrite Hx.
Qed.

End Queue.
Arguments state : clear implicits.
Arguments action : clear implicits.
Arguments method : clear implicits.

(** ** Properties *)

(** C23: the queue whose methods are atomic is a correct specification of the
    queue that takes its mutex, touches [queue_] one element at a time and sleeps
    on a condition variable. Every state that any interleaving of the statements
    reaches corresponds to a state that the specification reaches: the threads
    are in corresponding phases, and the contents agree whenever the mutex is
    free. A crash is always the front of an empty queue, read while the
    specification's queue is empty. *)
Theorem queue_refinement {T} n (s : state T) :
  reachable (λ s, s = make n) (exec_step exec) s →
  ∃ a : BlockingQueue.state T,
    reachable (λ a, a = BlockingQueue.make n) (exec_step BlockingQueue.exec) a ∧
    match crashed s with
    | None =>
        BlockingQueue.threads a = abstract_pc <$> threads s ∧
        (mutex_ s = None →
          queue_ s = BlockingQueue.queue_ a ∧ pushed s = BlockingQueue.pushed a ∧
          removed s = BlockingQueue.removed a)
    | Some e => e = front_of_empty ∧ BlockingQueue.queue_ a = []
    end.
Proof.
  intros Hr. destruct (reachable_corresponds n s Hr) as (a & Ha & Hs). exists a.
  unfold corresponds in Hs. split; [done|]. destruct (crashed s); [done|].
  split; [apply Hs|]. intros Hm. by apply (ref_free _ _ Hs).
Qed.

(** Every critical section of the queue ends. A thread that has the mutex
    releases it (or has read the front of an empty queue) after at most as many
    further statements as there are elements left to drop and four more. *)
Theorem critical_section_ends {T} n (s : state T) i :
  reachable (λ s, s = make n) (exec_step exec) s →
  mutex_ s = Some i → crashed s = None →
  ∃ k s', k ≤ length (queue_ s) + 4 ∧ run exec s (replicate k (i, Statement)) = Some s' ∧
    (mutex_ s' = None ∨ crashed s' = Some front_of_empty).
Proof.
  intros Hr Hm Hc. destruct (reachable_corresponds n s Hr) as (a & _ & Hs).
  unfold corresponds in Hs. rewrite Hc in Hs.
  destruct (ref_holder _ _ Hs _ Hm) as (m & st & Hi & _).
  destruct (holder_releases s i m st Hi Hm Hc) as (k & s' & Hk & ? & ?).
  exists k, s'. split; [|done]. destruct st; simpl in Hk; lia.
Qed.

(** Thread 0 sleeps in [pop_front]; thread 1 has pushed 1, 2 and 3 and woken it;
    thread 2 is in the middle of [pop_all_but_most_recent]. *)
Definition push_by (i : nat) (v : nat) (woken : option nat) : list (nat * action nat) :=
  [(i, Call (PushBack v)); (i, Lock); (i, Statement); (i, Statement); (i, Notify woken)].

Definition busy : list (nat * action nat) :=
  [(0, Call PopFront); (0, Lock); (0, Statement)] ++ push_by 1 1 (Some 0) ++
  push_by 1 2 None ++ push_by 1 3 None ++
  [(2, Call PopAllButMostRecent); (2, Lock); (2, Statement)].

Definition busy_state : state nat := default (make 3) (run exec (make 3) busy).

Lemma busy_reachable : reachable (λ s, s = make 3) (exec_step exec) busy_state.
Proof. apply (run_reachable exec _ (make 3) busy); [done|]. vm_compute. reflexivity. Qed.

Example busy_half_way :
  queue_ busy_state = [2; 3] ∧ mutex_ busy_state = Some 2 ∧
  threads busy_state = [Locking PopFront; Ready; Holding PopAllButMostRecent PopLoop].
Proof. vm_compute. done. Qed.

Lemma queue_refinement_witness :
  ∃ a : BlockingQueue.state nat,
    reachable (λ a, a = BlockingQueue.make 3) (exec_step BlockingQueue.exec) a ∧
    BlockingQueue.threads a =
      [BlockingQueue.Popping; BlockingQueue.Ready; BlockingQueue.Ready].
Proof.
  destruct (queue_refinement 3 busy_state busy_reachable) as (a & Ha & Ht & _).
  exists a. split; [exact Ha|exact Ht].
Defined.

Lemma critical_section_ends_witness :
  ∃ k s', k ≤ 6 ∧ run exec busy_state (replicate k (2, Statement)) = Some s' ∧
    (mutex_ s' = None ∨ crashed s' = Some front_of_empty).
Proof. apply (critical_section_ends 3 busy_state 2 busy_reachable); reflexivity. Defined.

End QueueLocks.
