(* ===== verification/QueueTests.v ===== *)
(** * The tests of the blocking queue

    [src/src/testing/util/blocking_queue_tests.cpp]: two tests of single
    functions, and the test in which two queues make two threads take turns,
    executed in every order of their steps. *)
From S2P Require Import Prelude Explore BlockingQueue.

Module QueueTests.

(** ** One thread *)
Definition empty_is_empty_checks : list bool :=
  let bq := [] in
  let bq1 := BlockingQueue.push_back "$" bq in
  let bq6 := foldl (λ q c, BlockingQueue.push_back c q) bq1 ["M"; "O"; "N"; "E"; "Y"] in
  let bq0 := BlockingQueue.clear bq6 in
  [BlockingQueue.size bq =? 0; BlockingQueue.empty bq;
   BlockingQueue.size bq1 =? 1; negb (BlockingQueue.empty bq1);
   BlockingQueue.size bq6 =? 6; negb (BlockingQueue.empty bq6);
   BlockingQueue.size bq0 =? 0; BlockingQueue.empty bq0].

Definition alphabet : string := "abcdefghijklmnopqrstuvwxyz".

Definition pop_all_but_most_recent_checks : list bool :=
  let strings := foldl (λ q c, BlockingQueue.push_back (String c EmptyString) q) [] (String.list_ascii_of_string alphabet) in
  match BlockingQueue.pop_all_but_most_recent strings with
  | Ret (s, q) => [bool_decide (s = "z"); BlockingQueue.size q =? 1]
  | Fault _ => [false]
  end.

Lemma sequential_tests_pass :
  Forall (λ b, b = true) (empty_is_empty_checks ++ pop_all_but_most_recent_checks).
Proof. by repeat constructor. Qed.

(** ** Two threads *)

(** A statement of a thread: [PushBack] into its queue, [PopFront] from the
    queue of the other, which sets [to_add], and [EmplaceBack] of [to_add] to the
    vector, which no lock protects; the main thread then joins the other one. *)
Inductive statement : Type :=
| PushBack (i : nat)
| PopFront
| EmplaceBack
| Join.

(** [for (short i = first; i < 10; i += 2)] *)
Definition indices (first : nat) : list nat := (λ k, first + 2 * k) <$> seq 0 5.

Definition main_program : list statement :=
  flat_map (λ i, [PushBack i; PopFront; EmplaceBack]) (indices 0) ++ [Join].
Definition thread_program : list statement :=
  flat_map (λ i, [PopFront; EmplaceBack; PushBack i]) (indices 1).

Record thread : Type := mkThread { program : list statement; to_add : nat }.

(** The main thread has index 0. *)
Record state : Type := mkState {
  even_bq : BlockingQueue.state nat;
  odds_bq : BlockingQueue.state nat;
  shared_data : list nat;
  main_thread : thread;
  other_thread : thread
}.

Definition start : state :=
  mkState (BlockingQueue.make 2) (BlockingQueue.make 2) [] (mkThread main_program 0)
    (mkThread thread_program 0).

Definition thread_of (main : bool) (s : state) : thread := if main then main_thread s else other_thread s.
Definition index (main : bool) : nat := if main then 0 else 1.

(** The queue a thread pushes to is the one the other pops from. *)
Definition queue (even : bool) (s : state) : BlockingQueue.state nat := if even then even_bq s else odds_bq s.
Definition set_queue (even : bool) (q : BlockingQueue.state nat) (s : state) : state :=
  if even then mkState q (odds_bq s) (shared_data s) (main_thread s) (other_thread s)
  else mkState (even_bq s) q (shared_data s) (main_thread s) (other_thread s).
Definition set_thread (main : bool) (t : thread) (s : state) : state :=
  if main then mkState (even_bq s) (odds_bq s) (shared_data s) t (other_thread s)
  else mkState (even_bq s) (odds_bq s) (shared_data s) (main_thread s) t.
Definition set_data (d : list nat) (s : state) : state :=
  mkState (even_bq s) (odds_bq s) d (main_thread s) (other_thread s).

Inductive action : Type :=
| Statement (main : bool)
| NotifyOne (main : bool) (woken : option bool)
| TryPopFront (main : bool)
| SpuriousWakeup (main : bool).

(** A thread is in no function of its queues. *)
Definition outside (main : bool) (s : state) : bool :=
  match BlockingQueue.threads (even_bq s) !! index main, BlockingQueue.threads (odds_bq s) !! index main with
  | Some BlockingQueue.Ready, Some BlockingQueue.Ready => true
  | _, _ => false
  end.

Definition on_queue (main even : bool) (a : BlockingQueue.action nat) (s : state) : option state :=
  q ← BlockingQueue.exec (queue even s) (index main, a); Some (set_queue even q s).

Definition exec_statement (main : bool) (s : state) : option state :=
  if outside main s then
    let t := thread_of main s in
    match program t with
    | PushBack i :: rest =>
        s ← on_queue main main (BlockingQueue.PushBack i) s;
        Some (set_thread main (mkThread rest (to_add t)) s)
    | PopFront :: _ => on_queue main (negb main) BlockingQueue.CallPopFront s
    | EmplaceBack :: rest =>
        Some (set_thread main (mkThread rest (to_add t)) (set_data (shared_data s ++ [to_add t]) s))
    | Join :: rest =>
        if outside (negb main) s && match program (thread_of (negb main) s) with [] => true | _ => false end
        then Some (set_thread main (mkThread rest (to_add t)) s) else None
    | [] => None
    end
  else None.

(** [pop_front] tests the queue, and returns its front if there is one. *)
Definition exec_try (main : bool) (s : state) : option state :=
  let t := thread_of main s in
  let from := negb main in
  match on_queue main from BlockingQueue.TryPopFront s with
  | Some s' =>
      match BlockingQueue.queue_ (queue from s) with
      | x :: _ => Some (set_thread main (mkThread (tail (program t)) x) s')
      | [] => Some s'
      end
  | None => None
  end.

Definition exec (s : state) (a : action) : option state :=
  match a with
  | Statement main => exec_statement main s
  | NotifyOne main woken => on_queue main main (BlockingQueue.Notify (index <$> woken)) s
  | TryPopFront main => exec_try main s
  | SpuriousWakeup main => on_queue main (negb main) BlockingQueue.SpuriousWakeup s
  end.

(** ** Every schedule *)
Definition labels : list action :=
  flat_map (λ m, [Statement m; NotifyOne m (Some true); NotifyOne m (Some false); NotifyOne m None;
    TryPopFront m; SpuriousWakeup m]) [true; false].

#[global] Instance queue_pc_eq_dec : EqDecision BlockingQueue.pc.
Proof. solve_decision. Defined.
#[global] Instance removal_eq_dec : EqDecision BlockingQueue.removal.
Proof. solve_decision. Defined.
#[global] Instance queue_state_eq_dec : EqDecision (BlockingQueue.state nat).
Proof. solve_decision. Defined.
#[global] Instance statement_eq_dec : EqDecision statement.
Proof. solve_decision. Defined.
#[global] Instance thread_eq_dec : EqDecision thread.
Proof. solve_decision. Defined.
#[global] Instance state_eq_dec : EqDecision state.
Proof. solve_decision. Defined.

Definition same (s s' : state) : bool := bool_decide (s = s').

Lemma same_queues_sound s s' : same s s' = true → s = s'.
Proof. apply bool_decide_eq_true_1. Qed.

Lemma labels_complete (a : action) : a ∈ labels.
Proof. unfold labels. destruct a as [[]|[] [[]|]|[]|[]]; set_solver. Qed.

Definition pc_weight (c : BlockingQueue.pc) : nat :=
  match c with
  | BlockingQueue.Notifying => 4
  | BlockingQueue.Ready => 2
  | BlockingQueue.Popping => 1
  | BlockingQueue.Sleeping => 0
  end.

Definition weight (s : state) : nat :=
  4 * (length (program (main_thread s)) + length (program (other_thread s)))
  + sum_list_with pc_weight (BlockingQueue.threads (even_bq s))
  + sum_list_with pc_weight (BlockingQueue.threads (odds_bq s)).

Definition is_spurious (a : action) : bool := match a with SpuriousWakeup _ => true | _ => false end.
Definition allowance (a : action) : nat := if is_spurious a then 2 else 0.

Definition finished (s : state) : bool :=
  match program (main_thread s) with [] => true | _ => false end.

(** The checks at the end of the test. *)
Definition checks (s : state) : bool :=
  BlockingQueue.empty (BlockingQueue.queue_ (even_bq s)) &&
  BlockingQueue.empty (BlockingQueue.queue_ (odds_bq s)) &&
  bool_decide (shared_data s = seq 0 10).

(** A thread is about to write to the vector. *)
Definition at_data (main : bool) (s : state) : bool :=
  outside main s && match program (thread_of main s) with EmplaceBack :: _ => true | _ => false end.

Definition safe (s : state) : bool :=
  negb (at_data true s && at_data false s) && (if finished s then checks s else true).

Definition strategy (s : state) : action :=
  default (Statement true) (find (λ a, bool_decide (is_Some (exec s a)))
    [Statement true; NotifyOne true (Some false); NotifyOne true None; TryPopFront true; Statement false;
     NotifyOne false (Some true); NotifyOne false None; TryPopFront false]).

Lemma interleaved_data_verified :
  verified exec labels same weight allowance finished strategy safe 132 1000 start = true.
Proof. vm_compute. reflexivity. Qed.

(** ** Properties *)

(** C29: the test of interleaved queues passes in every schedule: the threads
    never write to the vector at the same time although no lock protects it, a
    schedule has at most 132 steps and two for each spurious wake-up, the test can
    always end, and at the end both queues are empty and the vector holds the
    numbers in order. *)
Theorem interleaved_queues_test_passes ls s :
  run exec start ls = Some s →
  (at_data true s && at_data false s = false) ∧
  length ls ≤ 132 + 2 * length (filter is_spurious ls) ∧
  (∃ ls' s', run exec s ls' = Some s' ∧ finished s' = true ∧ length ls' ≤ 132) ∧
  (finished s = true → checks s = true).
Proof.
  intros Hr.
  destruct (verified_run _ _ _ same_queues_sound (λ _ l _ _, labels_complete l) _ _ _ _ _ _ _ _ ls s
    interleaved_data_verified Hr) as (Hs & Hl & Hf).
  unfold safe in Hs. apply andb_true_iff in Hs as [Hd%negb_true_iff Hc].
  unfold allowance in Hl; rewrite sum_allowance in Hl. change (weight start) with 132 in Hl.
  split_and!; [done|lia|done|]. intros Hfin. by rewrite Hfin in Hc.
Qed.

(** The main thread goes to sleep, wakes up for no reason and sleeps again before
    the other thread has answered. *)
Definition impatient : list action :=
  [Statement true; NotifyOne true None; Statement true; TryPopFront true; SpuriousWakeup true;
   TryPopFront true; Statement false; TryPopFront false; Statement false; Statement false;
   NotifyOne false (Some true); TryPopFront true; Statement true].

Lemma interleaved_queues_test_passes_witness :
  ∃ s, run exec start impatient = Some s ∧ shared_data s = [0; 1] ∧ length impatient ≤ 134.
Proof.
  assert (match run exec start impatient with
    Some s => bool_decide (shared_data s = [0; 1]) | None => false end = true) as Hc
    by (vm_compute; reflexivity).
  destruct (run exec start impatient) as [s|] eqn:Hr.
  - exists s. split_and!; [exact eq_refl|by apply bool_decide_eq_true_1 in Hc|].
    destruct (interleaved_queues_test_passes impatient s Hr) as (_ & Hl & _). exact Hl.
  - exfalso. by apply diff_false_true.
Defined.

End QueueTests.
