(* ===== verification/Tag.v ===== *)
(** * Completion-queue tags

    [src/include/grpcw/server/detail/tag.hpp] and
    [src/src/grpcw/server/detail/tag.cpp]: the labels, the tags and the map
    that owns them while an operation is outstanding.  The class [TagStore] is
    what the rpc handlers rely on; the tagger of the example programs
    ([ExampleTagger.v]) is a second instance of it. *)
From S2P Require Import Prelude.

(** ** The interface of a tag map

    A store issues a tag under the address of a fresh heap object and hands it
    back exactly once.  [store_missing] is what a key that is not in the map
    leads to. *)
Class TagStore (T : Type) := {
  store_make : addr → T → gmap addr T → gmap addr T;
  store_get : addr → gmap addr T → outcome (T * gmap addr T);
  store_missing : fault;
  store_make_fresh k t m : m !! k = None → store_make k t m = <[k := t]> m;
  store_get_present k t m : m !! k = Some t → store_get k m = Ret (t, delete k m);
  store_get_missing k m : m !! k = None → store_get k m = Fault store_missing
}.

Module Tag.

(** [enum class TagLabel] *)
Inductive TagLabel : Type :=
| writing
| done.

#[global] Instance TagLabel_eq_dec : EqDecision TagLabel.
Proof. solve_decision. Defined.

(** [struct Tag] *)
Record Tag : Type := mkTag { data : addr; label : TagLabel }.

#[global] Instance Tag_eq_dec : EqDecision Tag.
Proof. solve_decision. Defined.

(** [operator<<(std::ostream&, const Tag&)]; how a pointer prints is up to the
    implementation of the standard library. *)
Definition print (show_pointer : addr → string) (tag : Tag) : string :=
  ("{" +:+ show_pointer (data tag) +:+ ", " +:+
   (match label tag with done => "done" | writing => "writing" end) +:+ "}")%string.

(** [make_tag]: [fresh] is the address that [new Tag] returns, which is also
    the result. *)
Definition make_tag (fresh : addr) (d : addr) (l : TagLabel) (tags : gmap addr Tag)
    : addr * gmap addr Tag :=
  (fresh, emplace fresh (mkTag d l) tags).

(** [get_tag]: the assertion, which is compiled out with [NDEBUG], then
    [at], which throws when the key is missing, then [erase]. *)
Definition get_tag (ndebug : bool) (key : addr) (tags : gmap addr Tag)
    : outcome (Tag * gmap addr Tag) :=
  if negb ndebug && bool_decide (tags !! key = None) then Fault assert_failed
  else match tags !! key with
       | None => Fault out_of_range
       | Some tag_copy => Ret (tag_copy, delete key tags)
       end.

Lemma get_tag_present ndebug k t m :
  m !! k = Some t → get_tag ndebug k m = Ret (t, delete k m).
Proof.
  intros H. unfold get_tag. rewrite H, bool_decide_false, andb_false_r; done.
Qed.

Lemma get_tag_missing ndebug k m :
  m !! k = None →
  get_tag ndebug k m = Fault (if ndebug then out_of_range else assert_failed).
Proof. intros H. unfold get_tag. rewrite H, bool_decide_true by done. by destruct ndebug. Qed.

Lemma make_tag_fresh k d l m :
  m !! k = None → make_tag k d l m = (k, <[k := mkTag d l]> m).
Proof. intros H. unfold make_tag. by rewrite emplace_fresh. Qed.

(** The tag map of the library, with assertions on or off. *)
#[refine]
Definition tag_store (ndebug : bool) : TagStore Tag := {|
  store_make k t m := (make_tag k (data t) (label t) m).2;
  store_get := get_tag ndebug;
  store_missing := if ndebug then out_of_range else assert_failed
|}.
Proof.
  - intros k [d l] m H. by rewrite make_tag_fresh.
  - intros. by apply get_tag_present.
  - intros. by apply get_tag_missing.
Defined.

End Tag.

#[export] Hint Resolve Tag.get_tag_present Tag.get_tag_missing : grpcw.

(** ** What the interface gives its clients *)
Section TagStoreClient.
Context {T : Type} `{TS : TagStore T}.

(** Redeems the keys in the order in which the completion queue returns them. *)
Fixpoint store_get_all (ks : list addr) (m : gmap addr T) : outcome (list T * gmap addr T) :=
  match ks with
  | [] => Ret ([], m)
  | k :: ks => '(t, m) ← store_get k m; '(ts, m) ← store_get_all ks m; Ret (t :: ts, m)
  end.

(** Issues tags one after the other, the last of the list first. *)
Definition store_make_all (kts : list (addr * T)) (m : gmap addr T) : gmap addr T :=
  foldr (λ kt m, store_make kt.1 kt.2 m) m kts.

Lemma store_make_all_fresh kts :
  NoDup kts.*1 → store_make_all kts ∅ = list_to_map kts.
Proof.
  induction kts as [|[k t] kts IH]; intros Hnd; [done|].
  apply NoDup_cons in Hnd as [Hk Hnd]. simpl. rewrite IH by done.
  apply store_make_fresh. by apply not_elem_of_list_to_map.
Qed.

Lemma store_get_all_cons k ks t m :
  m !! k = Some t →
  store_get_all (k :: ks) m =
    ('(ts, m') ← store_get_all ks (delete k m); Ret (t :: ts, m')).
Proof. intros H. simpl. by rewrite (store_get_present k t m H). Qed.

Lemma store_get_all_some (kts : list (addr * T)) (m : gmap addr T) :
  NoDup kts.*1 →
  (∀ k t, (k, t) ∈ kts → m !! k = Some t) →
  store_get_all kts.*1 m = Ret (kts.*2, m ∖ list_to_map kts).
Proof.
  revert m. induction kts as [|[k t] kts IH]; intros m Hnd Hm.
  - simpl. by rewrite (right_id (∅ : gmap addr T) (∖)).
  - apply NoDup_cons in Hnd as [Hk Hnd].
    simpl in Hk. rewrite fmap_cons, (store_get_all_cons _ _ t) by (apply Hm; left).
    rewrite IH; [|done|].
    + simpl. do 2 f_equal. apply map_eq. intros i.
      rewrite !lookup_difference, lookup_delete. simpl. rewrite lookup_insert.
      case_decide; subst; destruct (list_to_map kts !! _) eqn:E; done.
    + intros k' t' Hin. rewrite lookup_delete_ne; [by apply Hm; right|].
      simpl. intros ->. simpl in Hin. apply Hk, list_elem_of_fmap. by exists (k', t').
Qed.

Lemma store_issue_redeem (kts kts' : list (addr * T)) :
  NoDup kts.*1 → kts' ≡ₚ kts →
  store_get_all kts'.*1 (store_make_all kts ∅) = Ret (kts'.*2, ∅).
Proof.
  intros Hnd Hp. assert (NoDup kts'.*1) as Hnd' by by rewrite Hp.
  rewrite store_make_all_fresh by done.
  rewrite store_get_all_some; [|done|].
  - by rewrite (list_to_map_proper kts' kts), map_difference_diag by done.
  - intros k t Hin. apply elem_of_list_to_map; [done|]. by rewrite <-Hp.
Qed.

Lemma store_get_all_twice k ks t m :
  m !! k = Some t → k ∈ ks → NoDup ks → (∀ k', k' ∈ ks → is_Some (m !! k')) →
  store_get_all (k :: ks) m = Fault store_missing.
Proof.
  intros Hk Hin Hnd Hall. rewrite (store_get_all_cons _ _ t) by done.
  assert (∀ m', m' !! k = None → (∀ k', k' ∈ ks → k' ≠ k → is_Some (m' !! k')) →
    store_get_all ks m' = Fault store_missing) as Hf.
  { clear Hall Hk. induction Hnd as [|k' ks Hk' Hnd IH]; [by apply not_elem_of_nil in Hin|].
    intros m' Hnone Hm'. simpl. destruct (decide (k' = k)) as [->|Hne].
    - by rewrite store_get_missing.
    - destruct (Hm' k') as [t' Ht']; [by left|done|].
      rewrite (store_get_present _ t') by done. simpl. rewrite IH; [done|..].
      + set_solver.
      + by rewrite lookup_delete_ne.
      + intros k'' Hk'' ?. rewrite lookup_delete_ne; [|set_solver]. apply Hm'; [by right|done]. }
  rewrite Hf; [done| |].
  - by rewrite lookup_delete_eq.
  - intros k' Hk' Hne. rewrite lookup_delete_ne by done. by apply Hall.
Qed.

End TagStoreClient.

(** ** Properties *)

(** C32: tags issued by [make_tag] under distinct addresses can be redeemed with
    [get_tag] in any order the completion queue delivers them: every redemption
    returns the very tag that was issued, no assertion fails, nothing is thrown,
    and the map ends up empty. *)
Theorem issue_redeem (ndebug : bool) (kts kts' : list (addr * Tag.Tag)) :
  NoDup kts.*1 → kts' ≡ₚ kts →
  store_get_all (TS := Tag.tag_store ndebug) kts'.*1
    (store_make_all (TS := Tag.tag_store ndebug) kts ∅) = Ret (kts'.*2, ∅).
Proof. apply store_issue_redeem. Qed.

Lemma issue_redeem_witness :
  store_get_all (TS := Tag.tag_store false) [2; 1]%N
    (store_make_all (TS := Tag.tag_store false)
       [(1, Tag.mkTag 7 Tag.writing); (2, Tag.mkTag 7 Tag.done)]%N ∅)
  = Ret ([Tag.mkTag 7 Tag.done; Tag.mkTag 7 Tag.writing]%N, ∅).
Proof.
  apply (issue_redeem false
    [(1, Tag.mkTag 7 Tag.writing); (2, Tag.mkTag 7 Tag.done)]%N
    [(2, Tag.mkTag 7 Tag.done); (1, Tag.mkTag 7 Tag.writing)]%N).
  - vm_compute. repeat constructor; set_solver.
  - apply Permutation_swap.
Defined.

(** A tag is redeemed at most once.  When the queue delivers a key a second
    time, [get_tag] does not return a stale tag: the assertion fails, or, with
    assertions compiled out, [at] throws. *)
Theorem redeem_twice (ndebug : bool) (k : addr) (ks : list addr) (t : Tag.Tag) m :
  m !! k = Some t → k ∈ ks → NoDup ks → (∀ k', k' ∈ ks → is_Some (m !! k')) →
  store_get_all (TS := Tag.tag_store ndebug) (k :: ks) m
  = Fault (if ndebug then out_of_range else assert_failed).
Proof. apply (store_get_all_twice (TS := Tag.tag_store ndebug)). Qed.

Lemma redeem_twice_witness :
  store_get_all (TS := Tag.tag_store true) [3; 3]%N {[3%N := Tag.mkTag 7 Tag.done]}
  = Fault out_of_range.
Proof.
  apply (redeem_twice true 3%N [3%N] (Tag.mkTag 7 Tag.done)).
  - reflexivity.
  - by left.
  - apply NoDup_singleton.
  - intros k' ->%list_elem_of_singleton. by eexists.
Defined.
