(* ===== verification/StreamRpcHandler.v ===== *)
(** * The handler of a streaming rpc

    [src/include/grpcw/server/detail/stream_rpc_handler.hpp]: the data shared
    by the threads of a handler and the bodies of its methods, as functions
    that return the new data and the calls made on gRPC and on the user's
    callbacks. The threads and the completion queue are in
    [StreamRpcSystem.v].  *)
From S2P Require Import Prelude Tag.

Module StreamRpcHandler.
Export Tag.

(** [operator new], for the connections and the tags: some address that is
    not in use. Any function with this property is allowed, a different one
    for every call of a method. *)
Definition allocator_ok (alloc : gset addr → addr) : Prop := ∀ used, alloc used ∉ used.

Section Handler.
Context {Request Response Status : Type}.

(** [struct Connections]. A [StreamConnection] is the request that gRPC
    writes into it; its context and responder are known to gRPC by the address
    of the connection. *)
Record Connections : Type := mkConnections {
  next : option (addr * Request);
  active : gmap addr Request;
  processing : gset addr;
  tags : gmap addr Tag
}.

(** What the methods of the handler do besides changing [Connections]: user
    callbacks and calls of the gRPC library. *)
Inductive effect : Type :=
| ConnectCallback (request : Request) (client : addr)
| DeleteCallback (request : Request) (client : addr)
| AsyncNotifyWhenDone (connection tag : addr)
| RequestCall (connection : addr)
| Write (connection : addr) (update : Response) (tag : addr)
| Finish (connection : addr) (status : Status) (tag : addr).

(** Which callbacks [on_connect] and [on_delete] have set. *)
Record callbacks : Type := mkCallbacks {
  connection_callback_ : bool;
  deletion_callback_ : bool
}.

Definition on_connect (cbs : callbacks) : callbacks := mkCallbacks true (deletion_callback_ cbs).
Definition on_delete (cbs : callbacks) : callbacks := mkCallbacks (connection_callback_ cbs) true.

Definition empty_connections : Connections := mkConnections None ∅ ∅ ∅.

(** The addresses of all live objects that the handler owns. *)
Definition live (c : Connections) : gset addr :=
  {[nullptr]} ∪ dom (active c) ∪ dom (tags c) ∪
  match next c with Some (p, _) => {[p]} | None => ∅ end.

(** [activate_next]. [fresh_request] is a default-constructed [Request]. *)
Definition activate_next (cbs : callbacks) (fresh_request : Request)
    (alloc : gset addr → addr) (c : Connections) : Connections * list effect :=
  let '(active', out) :=
    match next c with
    | Some (key, request) =>
        (emplace key request (active c),
         if connection_callback_ cbs then [ConnectCallback request key] else [])
    | None => (active c, [])
    end in
  let connection := alloc (live c) in
  let '(tag, tags') :=
    make_tag (alloc ({[connection]} ∪ live c)) connection done (tags c) in
  (mkConnections (Some (connection, fresh_request)) active' (processing c) tags',
   out ++ [AsyncNotifyWhenDone connection tag; RequestCall connection]).

(** The body that [write] and [finish] share for one stream: start the
    operation [op] under a new [writing] tag and mark the stream. *)
Definition start_op (op : addr → addr → effect) (alloc : gset addr → addr)
    (key : addr) (c : Connections) : Connections * list effect :=
  let '(tag, tags') := make_tag (alloc (live c)) key writing (tags c) in
  (mkConnections (next c) (active c) ({[key]} ∪ processing c) tags', [op key tag]).

(** [for (auto& active_pair : connections.active)] *)
Fixpoint start_ops (op : addr → addr → effect) (alloc : gset addr → addr)
    (keys : list addr) (c : Connections) : Connections * list effect :=
  match keys with
  | [] => (c, [])
  | key :: keys =>
      let '(c, out) := start_op op alloc key c in
      let '(c, outs) := start_ops op alloc keys c in
      (c, out ++ outs)
  end.

(** What the critical section of [write] and [finish] computes, the locals
    [notify] and [result] included. *)
Record section_result : Type := mkSectionResult {
  sr_connections : Connections;
  sr_effects : list effect;
  sr_notify : bool;
  sr_result : bool
}.

Definition write_section (op : addr → addr → effect) (client : addr)
    (alloc : gset addr → addr) (c : Connections) : section_result :=
  let notify := bool_decide (active c = ∅) in
  if decide (client = nullptr) then
    let '(c', out) := start_ops op alloc (map_to_list (active c)).*1 c in
    mkSectionResult c' out notify true
  else match active c !! client with
  | Some _ => let '(c', out) := start_op op alloc client c in mkSectionResult c' out notify true
  | None => mkSectionResult c [] notify false
  end.

(** The critical sections of [write(update, client)] and
    [finish(status, client)]. *)
Definition write (update : Response) := write_section (λ key tag, Write key update tag).
Definition finish (status : Status) := write_section (λ key tag, Finish key status tag).

(** What [write] and [finish] return to the caller: [result] is not used. *)
Definition returned (r : section_result) : bool := true.

(** [static_cast<StreamConnection*>(p)->request]: the object has to be alive. *)
Definition request_at (c : Connections) (p : addr) : outcome Request :=
  match active c !! p with
  | Some r => Ret r
  | None =>
      match next c with
      | Some (q, r) => if decide (p = q) then Ret r else Fault use_after_free
      | None => Fault use_after_free
      end
  end.

(** Calls [deletion_callback_] if it is set and erases the stream. *)
Definition delete_stream (cbs : callbacks) (p : addr) (c : Connections)
    : outcome (Connections * list effect) :=
  out ← (if deletion_callback_ cbs
         then r ← request_at c p; Ret [DeleteCallback r p]
         else Ret []);
  Ret (mkConnections (next c) (delete p (active c)) (processing c) (tags c), out).

(** The critical section of one iteration of [run_synchronization]; the last
    component is [all_streams_processed]. *)
Definition synchronize (ndebug : bool) (cbs : callbacks) (recv_tag : addr) (call_ok : bool)
    (c : Connections) : outcome (Connections * list effect * bool) :=
  '(tag, tags') ← get_tag ndebug recv_tag (tags c);
  let c := mkConnections (next c) (active c) (processing c) tags' in
  match label tag with
  | writing =>
      let c := mkConnections (next c) (active c) (processing c ∖ {[data tag]}) (tags c) in
      '(c, out) ← (if call_ok then Ret (c, []) else delete_stream cbs (data tag) c);
      Ret (c, out, bool_decide (processing c = ∅))
  | done =>
      '(c, out) ← (if decide (data tag ∈ processing c) then Ret (c, [])
                   else delete_stream cbs (data tag) c);
      Ret (c, out, false)
  end.

(** The tag under which an effect will be reported by the completion queue. *)
Definition effect_tag (e : effect) : gset addr :=
  match e with
  | AsyncNotifyWhenDone _ tag | Write _ _ tag | Finish _ _ tag => {[tag]}
  | _ => ∅
  end.
Definition effect_tags (out : list effect) : gset addr := ⋃ (effect_tag <$> out).

(** ** The invariant of the shared data

    A stream is marked as being processed exactly while one operation on it is
    outstanding, and only active streams are. *)
Record wf (c : Connections) : Prop := {
  wf_next p r : next c = Some (p, r) → active c !! p = None ∧ p ≠ nullptr;
  wf_processing p : p ∈ processing c ↔ ∃ k, tags c !! k = Some (mkTag p writing);
  wf_unique k1 k2 p : tags c !! k1 = Some (mkTag p writing) →
    tags c !! k2 = Some (mkTag p writing) → k1 = k2;
  wf_active : processing c ⊆ dom (active c);
  wf_null : active c !! nullptr = None
}.

Lemma wf_empty : wf empty_connections.
Proof.
  split; simpl; set_solver.
Qed.

(** *** Fresh addresses *)
Section Alloc.
Context (alloc : gset addr → addr) (Halloc : allocator_ok alloc).

Lemma alloc_live c :
  let p := alloc (live c) in
  p ≠ nullptr ∧ active c !! p = None ∧ tags c !! p = None ∧
  ∀ q r, next c = Some (q, r) → p ≠ q.
Proof using Halloc.
  simpl. pose proof (Halloc (live c)) as H.
  generalize dependent (alloc (live c)). intros p H. unfold live in H.
  rewrite !not_elem_of_union, !not_elem_of_dom, not_elem_of_singleton in H.
  destruct H as [[[? ?] ?] Hn]. repeat split; try done.
  intros q r Hq. rewrite Hq, not_elem_of_singleton in Hn. done.
Qed.

Lemma alloc_tag c p : tags c !! alloc ({[p]} ∪ live c) = None.
Proof using Halloc.
  pose proof (Halloc ({[p]} ∪ live c)) as H. unfold live in *.
  apply not_elem_of_dom. set_solver.
Qed.

(** *** [activate_next] *)
Definition activated (c : Connections) : gmap addr Request :=
  match next c with Some (key, r) => <[key := r]> (active c) | None => active c end.

(** Everything [activate_next] does, in terms of two fresh addresses. *)
Lemma activate_next_spec cbs fresh_request c :
  wf c →
  ∃ p k out, active c !! p = None ∧ p ≠ nullptr ∧ tags c !! k = None ∧
    (∀ q r, next c = Some (q, r) → p ≠ q) ∧
    out = match next c with
          | Some (key, r) => if connection_callback_ cbs then [ConnectCallback r key] else []
          | None => []
          end ∧
    activate_next cbs fresh_request alloc c =
      (mkConnections (Some (p, fresh_request)) (activated c) (processing c)
         (<[k := mkTag p done]> (tags c)),
       out ++ [AsyncNotifyWhenDone p k; RequestCall p]).
Proof using Halloc.
  intros Hwf. destruct (alloc_live c) as (? & ? & _ & Hn).
  exists (alloc (live c)), (alloc ({[alloc (live c)]} ∪ live c)).
  eexists. split_and!; [done..|apply alloc_tag|done|reflexivity|].
  unfold activate_next, activated.
  destruct (next c) as [[key r]|] eqn:E.
  - rewrite emplace_fresh by by apply (wf_next _ Hwf key r).
    rewrite make_tag_fresh by apply alloc_tag. done.
  - rewrite make_tag_fresh by apply alloc_tag. done.
Qed.

Lemma wf_activate_next cbs fresh_request c c' out :
  wf c → activate_next cbs fresh_request alloc c = (c', out) → wf c'.
Proof using Halloc.
  intros Hwf. destruct (activate_next_spec cbs fresh_request c Hwf)
    as (p & k & out' & Hp & Hp0 & Hk & Hn & _ & ->).
  intros [= <- _]. destruct Hwf as [Hnext Hproc Huniq Hact Hnull].
  assert (∀ k' q, <[k := mkTag p done]> (tags c) !! k' = Some (mkTag q writing) ↔
    tags c !! k' = Some (mkTag q writing)) as Htags.
  { intros k' q. destruct (decide (k = k')) as [<-|?].
    - rewrite lookup_insert_eq, Hk. naive_solver.
    - by rewrite lookup_insert_ne. }
  split; simpl.
  - intros q r [= <- <-]. split; [|done]. unfold activated.
    destruct (next c) as [[key r']|] eqn:E; [|done].
    rewrite lookup_insert_ne by (by apply not_eq_sym, (Hn key r')). done.
  - intros q. rewrite Hproc. by setoid_rewrite Htags.
  - intros k1 k2 q. rewrite !Htags. apply Huniq.
  - unfold activated. destruct (next c) as [[key r']|]; [|done]. set_solver.
  - unfold activated. destruct (next c) as [[key r']|] eqn:E; [|done].
    rewrite lookup_insert_ne; [done|]. by apply (Hnext key r').
Qed.

(** *** [write] and [finish] *)
Lemma start_op_spec op key c :
  ∃ k, tags c !! k = None ∧
    start_op op alloc key c =
      (mkConnections (next c) (active c) ({[key]} ∪ processing c)
         (<[k := mkTag key writing]> (tags c)), [op key k]).
Proof using Halloc.
  destruct (alloc_live c) as (_ & _ & Hk & _).
  exists (alloc (live c)). split; [done|]. unfold start_op. by rewrite make_tag_fresh.
Qed.

Lemma wf_start_op op key c c' out :
  wf c → key ∈ dom (active c) → key ∉ processing c →
  start_op op alloc key c = (c', out) → wf c'.
Proof using Halloc.
  intros Hwf Hkey Hnp. destruct (start_op_spec op key c) as (k & Hk & ->).
  intros [= <- _]. destruct Hwf as [Hnext Hproc Huniq Hact Hnull].
  assert (∀ k' q, <[k := mkTag key writing]> (tags c) !! k' = Some (mkTag q writing) ↔
    (k' = k ∧ q = key) ∨ tags c !! k' = Some (mkTag q writing)) as Htags.
  { intros k' q. destruct (decide (k = k')) as [<-|?].
    - rewrite lookup_insert_eq, Hk. naive_solver.
    - rewrite lookup_insert_ne by done. naive_solver. }
  split; simpl; [done| | | |done].
  - intros q. rewrite elem_of_union, elem_of_singleton, Hproc. setoid_rewrite Htags. naive_solver.
  - intros k1 k2 q. rewrite !Htags. rewrite Hproc in Hnp. naive_solver.
  - set_solver.
Qed.

Lemma start_op_frame op key c c' out :
  start_op op alloc key c = (c', out) →
  next c' = next c ∧ active c' = active c ∧ processing c' = {[key]} ∪ processing c ∧
  ∃ k, tags c !! k = None ∧ tags c' = <[k := mkTag key writing]> (tags c) ∧ out = [op key k].
Proof using Halloc.
  destruct (start_op_spec op key c) as (k & Hk & ->). intros [= <- <-]. naive_solver.
Qed.

(** Starting operations on several streams: one effect per stream, in order,
    each under a tag of its own. *)
Lemma start_ops_spec op keys c c' out :
  wf c → NoDup keys → (∀ p, p ∈ keys → p ∈ dom (active c) ∧ p ∉ processing c) →
  start_ops op alloc keys c = (c', out) →
  wf c' ∧ next c' = next c ∧ active c' = active c ∧
  processing c' = list_to_set keys ∪ processing c ∧
  ∃ ks, out = zip_with op keys ks ∧ length ks = length keys ∧ NoDup ks ∧
    (∀ k, k ∈ ks → tags c !! k = None) ∧ dom (tags c') = list_to_set ks ∪ dom (tags c).
Proof using Halloc.
  revert c c' out.
  induction keys as [|key keys IH]; intros c c' out Hwf Hnd Hkeys; cbn [start_ops].
  - intros [= <- <-]. split_and!; [done..|set_solver|].
    exists []. split_and!; [done..|constructor|set_solver|set_solver].
  - apply NoDup_cons in Hnd as [Hnin Hnd].
    destruct (start_op op alloc key c) as [c1 out1] eqn:E1.
    destruct (start_ops op alloc keys c1) as [c2 out2] eqn:E2.
    simpl. intros [= <- <-].
    destruct (Hkeys key) as [Hkey Hnp]; [by left|].
    pose proof (wf_start_op _ _ _ _ _ Hwf Hkey Hnp E1) as Hwf1.
    apply start_op_frame in E1 as (En & Ea & Ep & k & Hk & Et & ->).
    destruct (IH c1 c2 out2 Hwf1 Hnd) as (? & ? & ? & Hp & ks & -> & ? & ? & Hks & Hd).
    + intros p Hp. rewrite Ea, Ep. specialize (Hkeys p). set_solver.
    + done.
    + split_and!; [done|congruence..|rewrite Hp, Ep; set_solver|].
      exists (k :: ks). split_and!.
      * done.
      * simpl. congruence.
      * apply NoDup_cons. split; [|done]. intros Hin. specialize (Hks k Hin). rewrite Et in Hks.
        by rewrite lookup_insert_eq in Hks.
      * intros k' [->|Hin]%elem_of_cons; [done|]. specialize (Hks k' Hin). rewrite Et in Hks.
        apply lookup_insert_None in Hks. tauto.
      * rewrite Hd, Et, dom_insert_L. set_solver.
Qed.

Lemma write_section_spec op client c :
  wf c → processing c = ∅ →
  let r := write_section op client alloc c in
  let keys := if decide (client = nullptr) then (map_to_list (active c)).*1
              else if decide (client ∈ dom (active c)) then [client] else [] in
  wf (sr_connections r) ∧ next (sr_connections r) = next c ∧
  active (sr_connections r) = active c ∧ processing (sr_connections r) = list_to_set keys ∧
  (∃ ks, sr_effects r = zip_with op keys ks ∧ length ks = length keys ∧ NoDup ks ∧
    (∀ k, k ∈ ks → tags c !! k = None) ∧
    dom (tags (sr_connections r)) = list_to_set ks ∪ dom (tags c)) ∧
  sr_notify r = bool_decide (active c = ∅) ∧
  sr_result r = bool_decide (client = nullptr ∨ client ∈ dom (active c)).
Proof using Halloc.
  intros Hwf Hp. unfold write_section. cbv zeta.
  assert (∀ keys c' out, start_ops op alloc keys c = (c', out) → NoDup keys →
    (∀ p, p ∈ keys → p ∈ dom (active c)) →
    wf c' ∧ next c' = next c ∧ active c' = active c ∧ processing c' = list_to_set keys ∧
    ∃ ks, out = zip_with op keys ks ∧ length ks = length keys ∧ NoDup ks ∧
      (∀ k, k ∈ ks → tags c !! k = None) ∧ dom (tags c') = list_to_set ks ∪ dom (tags c)) as Hops.
  { intros keys c' out E Hnd Hin.
    destruct (start_ops_spec op keys c c' out) as (? & ? & ? & Hp' & ?); [done..| |done|].
    - intros p Hpin. rewrite Hp. set_solver.
    - split_and!; [done..|rewrite Hp', Hp; set_solver|done]. }
  case_decide as Hc.
  - destruct (start_ops _ _ _ _) as [c' out] eqn:E. simpl.
    destruct (Hops _ _ _ E) as (? & ? & ? & ? & ?).
    + apply NoDup_fst_map_to_list.
    + intros p ([q r] & -> & Hin)%list_elem_of_fmap. apply elem_of_dom.
      exists r. by apply elem_of_map_to_list.
    + rewrite (bool_decide_true (_ ∨ _)) by auto. done.
  - destruct (active c !! client) as [r|] eqn:E.
    + assert (client ∈ dom (active c)) by (by eapply elem_of_dom_2).
      rewrite decide_True by done. rewrite (bool_decide_true (_ ∨ _)) by auto.
      destruct (start_op op alloc client c) as [c' out] eqn:E1.
      cbn [sr_connections sr_effects sr_notify sr_result].
      destruct (Hops [client] c' out) as (? & ? & ? & ? & ?).
      * cbn [start_ops]. rewrite E1. by rewrite app_nil_r.
      * apply NoDup_singleton.
      * by intros p ->%list_elem_of_singleton.
      * done.
    + apply not_elem_of_dom in E. rewrite decide_False by done.
      rewrite (bool_decide_false (_ ∨ _)) by naive_solver. simpl.
      split_and!; [done..| |done|done].
      exists []. split_and!; [done..|constructor|set_solver|set_solver].
Qed.

(** Starting operations adds no [done] tag and loses none. *)
Lemma start_ops_done_tags op keys c c' out k p :
  start_ops op alloc keys c = (c', out) →
  tags c' !! k = Some (mkTag p done) ↔ tags c !! k = Some (mkTag p done).
Proof using Halloc.
  revert c c' out. induction keys as [|key keys IH]; intros c c' out; cbn [start_ops].
  - by intros [= <- <-].
  - destruct (start_op op alloc key c) as [c1 out1] eqn:E1.
    destruct (start_ops op alloc keys c1) as [c2 out2] eqn:E2. intros [= <- <-].
    rewrite (IH _ _ _ E2). apply start_op_frame in E1 as (_ & _ & _ & k' & Hk & -> & _).
    rewrite lookup_insert. case_decide as Heq; [subst; rewrite Hk|]; naive_solver.
Qed.

Lemma write_section_done_tags op client c k p :
  tags (sr_connections (write_section op client alloc c)) !! k = Some (mkTag p done) ↔
  tags c !! k = Some (mkTag p done).
Proof using Halloc.
  unfold write_section. case_decide.
  - destruct (start_ops _ _ _ _) as [c' out] eqn:E. by eapply start_ops_done_tags.
  - destruct (active c !! client); [|done].
    destruct (start_op op alloc client c) as [c' out] eqn:E.
    apply (start_ops_done_tags op [client] c c' (out ++ [])).
    cbn [start_ops]. by rewrite E.
Qed.

End Alloc.

(** *** [run_synchronization] *)

(** The data after the tag has been taken out of the map. *)
Definition without_tag (k : addr) (c : Connections) : Connections :=
  mkConnections (next c) (active c) (processing c) (delete k (tags c)).
Definition without_stream (p : addr) (c : Connections) : Connections :=
  mkConnections (next c) (delete p (active c)) (processing c ∖ {[p]}) (tags c).
Definition unmarked (p : addr) (c : Connections) : Connections :=
  mkConnections (next c) (active c) (processing c ∖ {[p]}) (tags c).

Lemma delete_stream_spec cbs p c :
  (deletion_callback_ cbs = true → is_Some (active c !! p)) →
  delete_stream cbs p c =
    Ret (mkConnections (next c) (delete p (active c)) (processing c) (tags c),
         match active c !! p with
         | Some r => if deletion_callback_ cbs then [DeleteCallback r p] else []
         | None => []
         end).
Proof.
  intros H. unfold delete_stream, request_at.
  destruct (deletion_callback_ cbs).
  - destruct H as [r Hr]; [done|]. by rewrite Hr.
  - by destruct (active c !! p).
Qed.

(** A [writing] tag unmarks its stream, and removes it if the operation failed:
    whatever happened before, this never fails. *)
Lemma synchronize_writing ndebug cbs k p call_ok c :
  wf c → tags c !! k = Some (mkTag p writing) →
  ∃ r, active c !! p = Some r ∧
  synchronize ndebug cbs k call_ok c =
    Ret (if call_ok then unmarked p (without_tag k c) else without_stream p (without_tag k c),
         if call_ok then [] else if deletion_callback_ cbs then [DeleteCallback r p] else [],
         bool_decide (processing c ∖ {[p]} = ∅)).
Proof.
  intros Hwf Hk.
  assert (p ∈ dom (active c)) as [r Hr]%elem_of_dom.
  { apply (wf_active _ Hwf), (wf_processing _ Hwf). by exists k. }
  exists r. split; [done|].
  unfold synchronize. rewrite (get_tag_present _ _ _ _ Hk). cbn. destruct call_ok.
  - done.
  - rewrite delete_stream_spec by by eexists. cbn. by rewrite Hr.
Qed.

(** A [done] tag removes its stream unless an operation is outstanding on it. *)
Lemma synchronize_done ndebug cbs k p call_ok c :
  tags c !! k = Some (mkTag p done) →
  synchronize ndebug cbs k call_ok c =
    if decide (p ∈ processing c) then Ret (without_tag k c, [], false)
    else '(c', out) ← delete_stream cbs p (without_tag k c); Ret (c', out, false).
Proof.
  intros Hk. unfold synchronize. rewrite (get_tag_present _ _ _ _ Hk). cbn.
  by case_decide.
Qed.

Lemma delete_stream_inv cbs p c c' out :
  delete_stream cbs p c = Ret (c', out) →
  c' = mkConnections (next c) (delete p (active c)) (processing c) (tags c).
Proof.
  unfold delete_stream. destruct (deletion_callback_ cbs); cbn.
  - destruct (request_at c p); cbn; intros; by simplify_eq.
  - intros; by simplify_eq.
Qed.

Lemma delete_stream_fault cbs p c e :
  delete_stream cbs p c = Fault e →
  e = use_after_free ∧ deletion_callback_ cbs = true ∧ active c !! p = None.
Proof.
  unfold delete_stream, request_at. destruct (deletion_callback_ cbs); cbn; [|done].
  destruct (active c !! p); cbn; [done|].
  destruct (next c) as [[q r]|]; [destruct (decide (p = q))|]; cbn; naive_solver.
Qed.

Lemma wf_without_tag_done k p c :
  wf c → tags c !! k = Some (mkTag p done) → wf (without_tag k c).
Proof.
  intros [Hnext Hproc Huniq Hact Hnull] Hk.
  assert (∀ k' q, delete k (tags c) !! k' = Some (mkTag q writing) ↔
    tags c !! k' = Some (mkTag q writing)) as Htags.
  { intros k' q. rewrite lookup_delete. case_decide; naive_solver. }
  split; simpl; [done| | |done..].
  - intros q. rewrite Hproc. by setoid_rewrite Htags.
  - intros k1 k2 q. rewrite !Htags. apply Huniq.
Qed.

Lemma wf_unmark k p c :
  wf c → tags c !! k = Some (mkTag p writing) → wf (unmarked p (without_tag k c)).
Proof.
  intros [Hnext Hproc Huniq Hact Hnull] Hk.
  assert (∀ k' q, delete k (tags c) !! k' = Some (mkTag q writing) ↔
    tags c !! k' = Some (mkTag q writing) ∧ q ≠ p) as Htags.
  { intros k' q. rewrite lookup_delete. case_decide; naive_solver. }
  split; simpl; [done| | | |done].
  - intros q. rewrite elem_of_difference, elem_of_singleton, Hproc.
    setoid_rewrite Htags. naive_solver.
  - intros k1 k2 q. rewrite !Htags. naive_solver.
  - set_solver.
Qed.

(** Removing a stream that is not marked. *)
Lemma wf_delete_active p c :
  wf c → p ∉ processing c →
  wf (mkConnections (next c) (delete p (active c)) (processing c) (tags c)).
Proof.
  intros [Hnext Hproc Huniq Hact Hnull] Hp. split; simpl; [|done..| |].
  - intros q r Hq. destruct (Hnext q r Hq). split; [|done]. by apply lookup_delete_None; right.
  - set_solver.
  - by apply lookup_delete_None; right.
Qed.

Lemma synchronize_wf ndebug cbs k call_ok c c' out all :
  wf c → synchronize ndebug cbs k call_ok c = Ret (c', out, all) → wf c'.
Proof.
  intros Hwf Hs. destruct (tags c !! k) as [[p []]|] eqn:Hk.
  - destruct (synchronize_writing ndebug cbs k p call_ok c Hwf Hk) as (r & Hr & E).
    rewrite E in Hs. simplify_eq.
    pose proof (wf_unmark k p c Hwf Hk) as Hu. destruct call_ok; [done|].
    apply (wf_delete_active p) in Hu; simpl in *; [done|set_solver].
  - rewrite (synchronize_done _ _ _ p) in Hs by done.
    pose proof (wf_without_tag_done k p c Hwf Hk) as Hu. case_decide; simplify_eq; [done|].
    destruct (delete_stream cbs p (without_tag k c)) as [[c1 out1]|] eqn:E; simplify_eq/=.
    apply delete_stream_inv in E as ->. by apply wf_delete_active.
  - unfold synchronize in Hs. rewrite get_tag_missing in Hs by done. done.
Qed.

Lemma synchronize_tags ndebug cbs k call_ok c c' out all :
  synchronize ndebug cbs k call_ok c = Ret (c', out, all) →
  is_Some (tags c !! k) ∧ tags c' = delete k (tags c) ∧ next c' = next c ∧
  effect_tags out = ∅.
Proof.
  unfold synchronize. destruct (tags c !! k) as [[p l]|] eqn:Hk.
  2: { rewrite get_tag_missing by done. done. }
  rewrite (get_tag_present _ _ _ _ Hk). cbn.
  assert (∀ c1 c2 out2, delete_stream cbs p c1 = Ret (c2, out2) →
    tags c2 = tags c1 ∧ next c2 = next c1 ∧ effect_tags out2 = ∅) as Hdel.
  { intros c1 c2 out2 E. pose proof E as E'. apply delete_stream_inv in E as ->.
    split_and!; [done..|]. unfold delete_stream in E'.
    destruct (deletion_callback_ cbs), (request_at c1 p); simplify_eq/=; done. }
  destruct l; [destruct call_ok|case_decide]; cbn; intros; simplify_eq/=; eauto.
  - destruct (delete_stream _ _ _) as [[c1 out1]|] eqn:E; simplify_eq/=.
    apply Hdel in E as (? & ? & ?). eauto.
  - destruct (delete_stream _ _ _) as [[c1 out1]|] eqn:E; simplify_eq/=.
    apply Hdel in E as (? & ? & ?). eauto.
Qed.

(** The only way an iteration goes wrong: a [done] tag whose stream is gone. *)
Lemma synchronize_fault ndebug cbs k call_ok c e :
  wf c → is_Some (tags c !! k) → synchronize ndebug cbs k call_ok c = Fault e →
  e = use_after_free ∧ deletion_callback_ cbs = true ∧
  ∃ p, tags c !! k = Some (mkTag p done) ∧ active c !! p = None.
Proof.
  intros Hwf [[p []] Hk] Hs.
  - destruct (synchronize_writing ndebug cbs k p call_ok c Hwf Hk) as (r & _ & E). congruence.
  - rewrite (synchronize_done _ _ _ p) in Hs by done. case_decide; [done|].
    destruct (delete_stream cbs p (without_tag k c)) as [[]|] eqn:E; simplify_eq/=.
    apply delete_stream_fault in E as (-> & ? & ?). eauto.
Qed.

End Handler.
Arguments Connections : clear implicits.
Arguments effect : clear implicits.
End StreamRpcHandler.
