(* ===== verification/StreamRpcSystem.v ===== *)
(** * A streaming handler at work

    The threads around the data of [StreamRpcHandler.v]: the server thread
    that calls [activate_next], the threads of the program that call [write]
    and [finish], the thread that runs [run_synchronization], and gRPC, which
    reports the outstanding operations on [queue_] in any order and with either
    result. Every critical section of [connections_] is one step, which
    [AtomicData.linearizable] justifies; waiting, waking and the calls of
    [notify_one] are steps of their own. *)
From S2P Require Import Prelude Tag StreamRpcHandler.

Module StreamRpcSystem.
Export StreamRpcHandler.
Section System.
Context {Request Response Status : Type}.
Context (ndebug : bool) (cbs : callbacks) (fresh_request : Request).

Inductive call : Type :=
| WriteCall (update : Response) (client : addr)
| FinishCall (status : Status) (client : addr).

Definition call_client (c : call) : addr :=
  match c with WriteCall _ client | FinishCall _ client => client end.

(** Where a thread is that uses the [StreamInterface]. *)
Inductive pc : Type :=
| Ready
| Waiting (c : call) (* about to take the lock and test the predicate *)
| Sleeping (c : call) (* in [condition_.wait] *)
| Notifying. (* has left the critical section with [notify] set *)

Record state : Type := mkState {
  conns : Connections Request;
  queue : gset addr; (* the tags of the operations outstanding on [queue_] *)
  arrived : bool; (* gRPC has accepted a call for [next] *)
  sync_notify : bool; (* [run_synchronization] is about to call [notify_one] *)
  writers : list pc;
  log : list (effect Request Response Status); (* every effect so far *)
  crashed : option fault (* how [run_synchronization] went wrong *)
}.

Definition init_state (n : nat) : state :=
  mkState empty_connections ∅ false false (replicate n Ready) [] None.

Inductive action : Type :=
| ActivateNext (alloc : gset addr → addr)
| Arrive (request : Request)
| Deliver (recv_tag : addr) (call_ok : bool)
| SyncNotify (woken : option nat)
| Call (i : nat) (c : call)
| Run (i : nat) (alloc : gset addr → addr)
| NotifyOne (i : nat) (woken : option nat)
| SpuriousWakeup (i : nat).

Definition is_sleeping (c : pc) : bool := match c with Sleeping _ => true | _ => false end.
Definition is_waiting (c : pc) : bool := match c with Waiting _ => true | _ => false end.
Definition is_notifying (c : pc) : bool := match c with Notifying => true | _ => false end.
Definition wake (c : pc) : pc := match c with Sleeping c => Waiting c | c => c end.

Definition set_writers (l : list pc) (s : state) : state :=
  mkState (conns s) (queue s) (arrived s) (sync_notify s) l (log s) (crashed s).

(** The connections after a step and the effects of the step; the operations
    that were started become outstanding. *)
Definition emit (c : Connections Request) (out : list (effect Request Response Status))
    (s : state) : state :=
  mkState c (queue s ∪ effect_tags out) (arrived s) (sync_notify s) (writers s)
    (log s ++ out) (crashed s).

(** [activate_next], called by [register_async_stream] the first time and by
    the server thread when a call has arrived. *)
Definition exec_activate (alloc : gset addr → addr) (s : state) : option state :=
  let ready := match next (conns s) with None => true | Some _ => arrived s end in
  if ready then
    let '(c, out) := activate_next cbs fresh_request alloc (conns s) in
    Some (emit c out (mkState (conns s) (queue s) false (sync_notify s) (writers s)
                        (log s) (crashed s)))
  else None.

(** gRPC writes the request of a new call into [next]. *)
Definition exec_arrive (request : Request) (s : state) : option state :=
  match next (conns s), arrived s with
  | Some (p, _), false =>
      let c := conns s in
      Some (mkState (mkConnections (Some (p, request)) (active c) (processing c) (tags c))
              (queue s) true (sync_notify s) (writers s) (log s) (crashed s))
  | _, _ => None
  end.

(** gRPC reports that a call is done only if the call has started. *)
Definition deliverable (recv_tag : addr) (s : state) : bool :=
  match tags (conns s) !! recv_tag, next (conns s) with
  | Some (mkTag p done), Some (q, _) => negb (bool_decide (p = q)) || arrived s
  | _, _ => true
  end.

(** [queue_.Next] returns [recv_tag], and one iteration of the loop. *)
Definition exec_deliver (recv_tag : addr) (call_ok : bool) (s : state) : option state :=
  if bool_decide (recv_tag ∈ queue s) && deliverable recv_tag s && negb (sync_notify s) then
    let q := queue s ∖ {[recv_tag]} in
    match synchronize ndebug cbs recv_tag call_ok (conns s) with
    | Ret (c, out, all_streams_processed) =>
        Some (emit c out (mkState (conns s) q (arrived s) all_streams_processed (writers s)
                            (log s) (crashed s)))
    | Fault e =>
        Some (mkState (conns s) q (arrived s) false (writers s) (log s) (Some e))
    end
  else None.

Definition section_of (c : call) (alloc : gset addr → addr) (cs : Connections Request) :=
  match c with
  | WriteCall update client => write update client alloc cs
  | FinishCall status client => finish status client alloc cs
  end.

(** The lock is taken and the predicate [processing.empty()] tested. *)
Definition exec_run (i : nat) (alloc : gset addr → addr) (s : state) : option state :=
  match writers s !! i with
  | Some (Waiting c) =>
      if decide (processing (conns s) = ∅) then
        let r := section_of c alloc (conns s) in
        let pc := if sr_notify r then Notifying else Ready in
        Some (emit (sr_connections r) (sr_effects r) (set_writers (<[i := pc]> (writers s)) s))
      else Some (set_writers (<[i := Sleeping c]> (writers s)) s)
  | _ => None
  end.

Definition exec_live (s : state) (a : action) : option state :=
  match a with
  | ActivateNext alloc => exec_activate alloc s
  | Arrive request => exec_arrive request s
  | Deliver recv_tag call_ok => exec_deliver recv_tag call_ok s
  | SyncNotify woken =>
      if sync_notify s then
        l ← pool_notify_one is_sleeping wake woken (writers s);
        Some (mkState (conns s) (queue s) (arrived s) false l (log s) (crashed s))
      else None
  | Call i c =>
      match writers s !! i with
      | Some Ready => Some (set_writers (<[i := Waiting c]> (writers s)) s)
      | _ => None
      end
  | Run i alloc => exec_run i alloc s
  | NotifyOne i woken =>
      match writers s !! i with
      | Some Notifying =>
          l ← pool_notify_one is_sleeping wake woken (<[i := Ready]> (writers s));
          Some (set_writers l s)
      | _ => None
      end
  | SpuriousWakeup i =>
      match writers s !! i with
      | Some (Sleeping c) => Some (set_writers (<[i := Waiting c]> (writers s)) s)
      | _ => None
      end
  end.

(** A process that has run into undefined behaviour makes no further steps. *)
Definition exec (s : state) (a : action) : option state :=
  match crashed s with Some _ => None | None => exec_live s a end.

(** The allocator of a step returns unused addresses. *)
Definition action_ok (a : action) : Prop :=
  match a with
  | ActivateNext alloc | Run _ alloc => allocator_ok alloc
  | _ => True
  end.

Abbreviation init n := (λ s, s = init_state n).
Abbreviation step := (exec_step_ok exec action_ok).

(** *** Assumptions under which stronger properties hold *)

(** The order in which the comments of [run_synchronization] expect gRPC to
    report: a stream is activated before it is done, and an operation on it
    fails only after the stream was reported as done. *)
Definition in_order (s : state) (a : action) : bool :=
  match a with
  | Deliver recv_tag call_ok =>
      match tags (conns s) !! recv_tag with
      | Some (mkTag p done) => bool_decide (p ∈ dom (active (conns s)))
      | Some (mkTag p writing) =>
          call_ok || bool_decide (map_Forall (λ _ t, t ≠ mkTag p done) (tags (conns s)))
      | None => true
      end
  | _ => true
  end.

(** A call of [write] or [finish] names a client, if it names one, that is
    connected when the critical section begins. *)
Definition known_clients (s : state) (a : action) : bool :=
  match a with
  | Run i _ =>
      match writers s !! i with
      | Some (Waiting c) =>
          bool_decide (processing (conns s) ≠ ∅ ∨ call_client c = nullptr ∨
                       call_client c ∈ dom (active (conns s)))
      | _ => true
      end
  | _ => true
  end.

(** ** Invariants *)

Record inv (s : state) : Prop := {
  inv_wf : wf (conns s);
  inv_queue : crashed s = None → queue s = dom (tags (conns s));
  inv_crash e : crashed s = Some e → e = use_after_free ∧ deletion_callback_ cbs = true
}.

Lemma inv_init n : inv (init_state n).
Proof. split; simpl; [apply wf_empty|set_solver|done]. Qed.

Lemma inv_set_writers l s : inv s → inv (set_writers l s).
Proof. by intros [? ? ?]. Qed.

Lemma effect_tags_app (out out' : list (effect Request Response Status)) :
  effect_tags (out ++ out') = effect_tags out ∪ effect_tags out'.
Proof. unfold effect_tags. by rewrite fmap_app, union_list_app_L. Qed.

Lemma effect_tags_ops (op : addr → addr → effect Request Response Status) keys ks :
  (∀ p k, effect_tag (op p k) = {[k]}) → length ks = length keys →
  effect_tags (zip_with op keys ks) = list_to_set ks.
Proof.
  intros Hop. revert ks. unfold effect_tags.
  induction keys as [|p keys IH]; intros [|k ks]; simpl; try done.
  intros [= Hl]. by rewrite Hop, IH.
Qed.

Lemma activate_tags c c' out alloc :
  allocator_ok alloc → wf c → activate_next cbs fresh_request alloc c = (c', out) →
  dom (tags c') = dom (tags c) ∪ effect_tags (out : list (effect Request Response Status)).
Proof.
  intros Ha Hwf.
  destruct (activate_next_spec (Response := Response) (Status := Status)
    alloc Ha cbs fresh_request c Hwf)
    as (p & k & out' & _ & _ & _ & _ & Hout & ->).
  intros [= <- <-]. simpl. rewrite dom_insert_L, effect_tags_app.
  assert (effect_tags out' = ∅) as ->.
  { rewrite Hout. destruct (next c) as [[]|]; [destruct (connection_callback_ cbs)|]; done. }
  unfold effect_tags. simpl. set_solver.
Qed.

Lemma section_tags c alloc cs :
  allocator_ok alloc → wf cs → processing cs = ∅ →
  let r := section_of c alloc cs in
  wf (sr_connections r) ∧
  dom (tags (sr_connections r)) = dom (tags cs) ∪ effect_tags (sr_effects r).
Proof.
  intros Ha Hwf Hp.
  assert (∀ op client, (∀ p k, effect_tag (op p k) = {[k]}) →
    let r := write_section (Request := Request) (Response := Response) (Status := Status)
      op client alloc cs in
    wf (sr_connections r) ∧
    dom (tags (sr_connections r)) = dom (tags cs) ∪ effect_tags (sr_effects r)) as H.
  { intros op client Hop. pose proof (write_section_spec alloc Ha op client cs Hwf Hp) as Hs.
    cbv zeta in *. destruct Hs as (? & _ & _ & _ & (ks & He & ? & _ & _ & Hd) & _).
    split; [done|]. rewrite He, Hd, effect_tags_ops by done. apply (comm_L _). }
  destruct c; apply H; done.
Qed.

Lemma stream_inv_exec s a s' : action_ok a → inv s → exec s a = Some s' → inv s'.
Proof.
  intros Hok [Hwf Hq Hc]. unfold exec. destruct (crashed s) as [|] eqn:Ec; [done|].
  specialize (Hq eq_refl). destruct a; simpl in *; intros Hs.
  - unfold exec_activate in Hs. case_match; [|done].
    destruct (activate_next cbs fresh_request alloc (conns s)) as [c out] eqn:E. simplify_eq.
    split; simpl; [by eapply wf_activate_next| |by rewrite Ec].
    intros _. rewrite Hq. symmetry. by eapply activate_tags.
  - unfold exec_arrive in Hs. destruct (next (conns s)) as [[p r]|] eqn:En; [|done].
    destruct (arrived s); simplify_eq. split; simpl; [|done|by rewrite Ec].
    destruct Hwf as [Hnext Hproc Huniq Hact Hnull]. split; simpl; try done.
    intros q r' [= <- <-]. by apply (Hnext p r).
  - unfold exec_deliver in Hs. case_match eqn:Hg; [|done].
    apply andb_prop in Hg as [[Hin%bool_decide_eq_true _]%andb_prop _].
    rewrite Hq in Hin. apply elem_of_dom in Hin.
    destruct (synchronize _ _ _ _ _) as [[[c out] all]|e] eqn:E; simplify_eq.
    + split; simpl; [by eapply synchronize_wf| |by rewrite Ec].
      intros _. apply synchronize_tags in E as (_ & -> & _ & ->).
      rewrite Hq, dom_delete_L. set_solver.
    + split; simpl; [done|done|]. intros e' [= <-].
      by destruct (synchronize_fault _ _ _ _ _ _ Hwf Hin E) as (? & ? & _).
  - destruct (sync_notify s); [|done].
    destruct (pool_notify_one _ _ _ _); simplify_eq/=. by split; simpl; rewrite ?Ec.
  - destruct (writers s !! i) as [[]|]; simplify_eq. apply inv_set_writers. by split; rewrite ?Ec.
  - unfold exec_run in Hs. destruct (writers s !! i) as [[| c | |]|]; simplify_eq.
    case_decide as Hp; simplify_eq; [|by apply inv_set_writers; split; rewrite ?Ec].
    destruct (section_tags c alloc (conns s) Hok Hwf Hp) as [? Hd].
    split; simpl; [done| |by rewrite Ec]. intros _. by rewrite Hq, Hd.
  - destruct (writers s !! i) as [[]|]; simplify_eq.
    destruct (pool_notify_one _ _ _ _); simplify_eq/=.
    apply inv_set_writers. by split; rewrite ?Ec.
  - destruct (writers s !! i) as [[]|]; simplify_eq. apply inv_set_writers. by split; rewrite ?Ec.
Qed.

Lemma stream_reachable_inv n s : reachable (init n) step s → inv s.
Proof.
  apply reachable_invariant.
  - intros ? ->. apply inv_init.
  - intros ??? ? [? ?]. by eapply stream_inv_exec.
Qed.

(** *** Reports in the expected order *)

Definition is_connect (p : addr) (e : effect Request Response Status) : bool :=
  match e with ConnectCallback _ q => bool_decide (q = p) | _ => false end.
Definition is_delete (p : addr) (e : effect Request Response Status) : bool :=
  match e with DeleteCallback _ q => bool_decide (q = p) | _ => false end.

Definition connected (p : addr) (s : state) : nat :=
  if decide (p ∈ dom (active (conns s))) then 1 else 0.

(** Clients are deleted once for every time they connected and are gone. *)
Definition balanced (s : state) : Prop :=
  cbs = mkCallbacks true true →
  ∀ p, count (is_connect p) (log s) = count (is_delete p) (log s) + connected p s.

Record ordered_inv (s : state) : Prop := {
  oi_inv : inv s;
  oi_done k p : tags (conns s) !! k = Some (mkTag p done) →
    p ∈ dom (active (conns s)) ∨ ∃ r, next (conns s) = Some (p, r);
  oi_unique k1 k2 p : tags (conns s) !! k1 = Some (mkTag p done) →
    tags (conns s) !! k2 = Some (mkTag p done) → k1 = k2;
  oi_crashed : crashed s = None;
  oi_balanced : balanced s
}.

(** Every part of the invariant but [inv], for a state with given data. *)
Lemma ordered_inv_same s s' :
  ordered_inv s → inv s' → active (conns s') = active (conns s) →
  (∀ p, (∃ r, next (conns s) = Some (p, r)) → ∃ r, next (conns s') = Some (p, r)) →
  (∀ k p, tags (conns s') !! k = Some (mkTag p done) → tags (conns s) !! k = Some (mkTag p done)) →
  crashed s' = None →
  (∀ p, count (is_connect p) (log s') = count (is_connect p) (log s)) →
  (∀ p, count (is_delete p) (log s') = count (is_delete p) (log s)) →
  ordered_inv s'.
Proof.
  intros [_ Hd Hu _ Hb] Hinv Ha Hn Ht Hc Hlc Hld. split; [done|..|done|].
  - intros k p. rewrite Ha. intros [?|?]%Ht%Hd; eauto.
  - intros k1 k2 p ?%Ht ?%Ht. by eapply Hu.
  - intros Hcbs p. unfold connected. rewrite Hlc, Hld, Ha. by apply Hb.
Qed.

Lemma ordered_inv_activate n s alloc s' :
  reachable (init n) step s → ordered_inv s → allocator_ok alloc →
  inv s' → exec_activate alloc s = Some s' → ordered_inv s'.
Proof.
  intros Hr Ho Hok Hinv' Hs. pose proof Ho as [[Hwf Hq _] Hd Hu Hc Hb].
  unfold exec_activate in Hs. case_match; [|done].
  destruct (activate_next_spec (Response := Response) (Status := Status)
    alloc Hok cbs fresh_request (conns s) Hwf)
    as (p & k & out & Hp & Hp0 & Hk & Hn & Hout & E).
  rewrite E in Hs. simplify_eq.
  assert (∀ q, q ∈ dom (activated (conns s)) ↔
    q ∈ dom (active (conns s)) ∨ ∃ r, next (conns s) = Some (q, r)) as Hact.
  { intros q. unfold activated. destruct (next (conns s)) as [[q' r']|] eqn:En.
    - rewrite dom_insert_L. set_solver.
    - naive_solver. }
  assert (∀ k', tags (conns s) !! k' ≠ Some (mkTag p done)) as Hfresh.
  { intros k' [Hin|[r Hr']]%Hd; [|by eapply Hn].
    apply elem_of_dom in Hin as [r Hr']. congruence. }
  split; simpl; [done|..|done|].
  - intros k' q. rewrite lookup_insert. case_decide; [naive_solver|].
    rewrite Hact. intros ?%Hd. tauto.
  - intros k1 k2 q. rewrite !lookup_insert. do 2 case_decide; naive_solver.
  - intros Hcbs q. unfold connected. simpl. rewrite !count_app. simpl.
    unfold indicator. simpl. rewrite !Nat.add_0_r, (Hb Hcbs q). unfold connected.
    rewrite Hcbs. simpl. unfold activated.
    destruct (next (conns s)) as [[q' r']|] eqn:En; simpl; [|lia].
    destruct (wf_next _ Hwf q' r' En) as [Hq' _]. unfold indicator.
    rewrite dom_insert_L. simpl. case_bool_decide as Hqq; [subst q'|].
    + rewrite (decide_False (P := q ∈ dom (active (conns s)))) by by apply not_elem_of_dom.
      rewrite decide_True by set_solver. lia.
    + destruct (decide (q ∈ dom (active (conns s)))).
      * rewrite decide_True by set_solver. lia.
      * rewrite decide_False by set_solver. lia.
Qed.

(** Removing an active stream whose [done] tag is not outstanding any more. *)
Lemma ordered_inv_remove s c k p r b :
  ordered_inv s → inv (mkState c (queue s ∖ {[k]} ∪ ∅) (arrived s) b (writers s)
    (log s ++ if deletion_callback_ cbs then [DeleteCallback r p] else []) None) →
  active (conns s) !! p = Some r →
  active c = delete p (active (conns s)) → next c = next (conns s) →
  tags c = delete k (tags (conns s)) →
  (∀ k', tags c !! k' ≠ Some (mkTag p done)) →
  ordered_inv (mkState c (queue s ∖ {[k]} ∪ ∅) (arrived s) b (writers s)
    (log s ++ if deletion_callback_ cbs then [DeleteCallback r p] else []) None).
Proof.
  intros [_ Hd Hu _ Hb] Hinv Hp Ha Hn Ht Hnone. split; simpl; [done|..|done|].
  - intros k' q Hk'. assert (q ≠ p) as Hqp by (intros ->; by eapply Hnone).
    rewrite Ht in Hk'. apply lookup_delete_Some in Hk' as [_ Hk'].
    rewrite Ha, Hn, dom_delete_L. destruct (Hd k' q Hk') as [?|?]; [left; set_solver|by right].
  - intros k1 k2 q. rewrite Ht, !lookup_delete_Some. intros [_ ?] [_ ?]. by eapply Hu.
  - intros Hcbs q. unfold connected. simpl. rewrite !count_app, (Hb Hcbs q), Hcbs. simpl.
    unfold connected, indicator. simpl. rewrite Ha, dom_delete_L.
    assert (p ∈ dom (active (conns s))) by by eapply elem_of_dom_2.
    case_bool_decide as Hpq; [subst q|].
    + rewrite decide_True by done. rewrite decide_False by set_solver. lia.
    + destruct (decide (q ∈ dom (active (conns s)))).
      * rewrite decide_True by set_solver. lia.
      * rewrite decide_False by set_solver. lia.
Qed.

Lemma effect_tags_delete (b : bool) r p :
  effect_tags (if b then [DeleteCallback r p] : list (effect Request Response Status) else []) = ∅.
Proof. by destruct b. Qed.

Lemma ordered_inv_deliver s k call_ok s' :
  ordered_inv s → inv s' → in_order s (Deliver k call_ok) = true →
  exec_deliver k call_ok s = Some s' → ordered_inv s'.
Proof.
  intros Ho Hinv' Hord Hs. pose proof Ho as [[Hwf Hq _] Hd Hu Hc _].
  unfold exec_deliver in Hs. case_match eqn:Hg; [|done].
  apply andb_prop in Hg as [[Hin%bool_decide_eq_true _]%andb_prop _].
  rewrite (Hq Hc) in Hin. apply elem_of_dom in Hin as [[p l] Hk].
  simpl in Hord. rewrite Hk in Hord.
  assert (∀ k' q, delete k (tags (conns s)) !! k' = Some (mkTag q done) →
    tags (conns s) !! k' = Some (mkTag q done)) as Hdel.
  { intros k' q. by intros [_ ?]%lookup_delete_Some. }
  destruct l.
  - destruct (synchronize_writing (Response := Response) (Status := Status)
      ndebug cbs k p call_ok (conns s) Hwf Hk) as (r & Hr & E).
    rewrite E in Hs. simplify_eq. unfold emit in *. simpl in *. rewrite Hc in *.
    destruct call_ok; simpl in *.
    + by apply (ordered_inv_same s); simpl; rewrite ?app_nil_r in *.
    + apply bool_decide_eq_true in Hord.
      rewrite effect_tags_delete in *. apply ordered_inv_remove; try done.
      intros k' Hk'%Hdel. by apply (Hord k' (mkTag p done)).
  - apply bool_decide_eq_true in Hord. rewrite (synchronize_done _ _ _ p) in Hs by done.
    case_decide as Hp.
    + simplify_eq. by apply (ordered_inv_same s); simpl; rewrite ?app_nil_r in *.
    + apply elem_of_dom in Hord as [r Hr].
      rewrite delete_stream_spec in Hs by by eexists. simpl in Hs. rewrite Hr in Hs.
      simplify_eq. unfold emit in *. simpl in *. rewrite Hc in *.
      rewrite effect_tags_delete in *. apply ordered_inv_remove; try done.
      intros k' Hk'. pose proof (Hu _ _ _ (Hdel _ _ Hk') Hk) as ->.
      simpl in Hk'. by apply lookup_delete_Some in Hk' as [? _].
Qed.

Lemma ordered_inv_run s i alloc s' :
  ordered_inv s → allocator_ok alloc → inv s' → exec_run i alloc s = Some s' → ordered_inv s'.
Proof.
  intros Ho Hok Hinv' Hs. pose proof Ho as [[Hwf _ _] _ _ Hc _].
  unfold exec_run in Hs. destruct (writers s !! i) as [[| c | |]|]; simplify_eq.
  case_decide as Hp; simplify_eq; [|by apply (ordered_inv_same s)].
  assert (∃ op client, section_of c alloc (conns s) = write_section op client alloc (conns s) ∧
    ∀ p q k, is_connect p (op q k) = false ∧ is_delete p (op q k) = false) as (op & client & Hop & Hcnt).
  { destruct c; by eexists _, _. }
  rewrite Hop in *. pose proof (write_section_spec alloc Hok op client (conns s) Hwf Hp) as Hspec.
  cbv zeta in Hspec. destruct Hspec as (_ & Hn & Ha & _ & (ks & Heff & _) & _).
  assert (∀ f keys, (∀ p k, f (op p k) = false) → count f (zip_with op keys ks) = 0) as Hzip.
  { intros f keys Hf. clear -Hf. revert ks.
    induction keys as [|p keys IH]; intros [|k ks]; simpl; try done.
    unfold indicator. by rewrite Hf, IH. }
  apply (ordered_inv_same s); simpl; [done..| | | |done| |].
  - done.
  - intros p. by rewrite Hn.
  - intros k p. apply write_section_done_tags. done.
  - intros p. rewrite count_app, Heff, Hzip; [lia|]. intros. apply Hcnt.
  - intros p. rewrite count_app, Heff, Hzip; [lia|]. intros. apply Hcnt.
Qed.

Lemma ordered_inv_exec n s a s' :
  reachable (init n) step s → ordered_inv s → action_ok a →
  in_order s a = true → exec s a = Some s' → ordered_inv s'.
Proof.
  intros Hr Ho Hok Hord Hs.
  assert (inv s') as Hinv' by (eapply stream_inv_exec; [exact Hok|apply Ho|exact Hs]).
  pose proof (oi_crashed _ Ho) as Hc. unfold exec in Hs. rewrite Hc in Hs.
  destruct a; simpl in *.
  - by eapply ordered_inv_activate.
  - unfold exec_arrive in Hs. destruct (next (conns s)) as [[p r]|] eqn:En; [|done].
    destruct (arrived s); simplify_eq. apply (ordered_inv_same s); simpl; try done.
    intros q [r' Hr']. rewrite En in Hr'. simplify_eq. by eexists.
  - by eapply ordered_inv_deliver.
  - destruct (sync_notify s); [|done].
    destruct (pool_notify_one _ _ _ _); simplify_eq/=. by apply (ordered_inv_same s).
  - destruct (writers s !! i) as [[]|]; simplify_eq. by apply (ordered_inv_same s).
  - by eapply ordered_inv_run.
  - destruct (writers s !! i) as [[]|]; simplify_eq.
    destruct (pool_notify_one _ _ _ _); simplify_eq/=. by apply (ordered_inv_same s).
  - destruct (writers s !! i) as [[]|]; simplify_eq. by apply (ordered_inv_same s).
Qed.

Lemma reachable_ordered n s :
  reachable (init n) (exec_step_ok (restrict in_order exec) action_ok) s → ordered_inv s.
Proof.
  intros Hr. induction Hr as [s ->|s a s' Hr IH [Hok [Hord Hs]%restrict_inv]].
  - split; [apply inv_init|simpl; set_solver|simpl; set_solver|done|].
    intros Hcbs p. simpl. unfold connected. simpl. by rewrite decide_False by set_solver.
  - apply reachable_restrict in Hr. by eapply ordered_inv_exec.
Qed.

(** *** Waking the writers up *)

(** While a writer sleeps, something is going to wake one up: an operation is
    outstanding, or a notification, or a writer is awake that will test the
    predicate again. *)
Definition no_lost_wakeup (s : state) : Prop :=
  0 < count is_sleeping (writers s) → crashed s = None →
  processing (conns s) ≠ ∅ ∨ sync_notify s = true ∨
  0 < count is_notifying (writers s) ∨ 0 < count is_waiting (writers s).

Lemma count_waiting_insert (l : list pc) i c c' :
  l !! i = Some c → 0 < count is_waiting (<[i := Waiting c']> l).
Proof.
  intros Hi. apply (count_pos _ _ i (Waiting c')); [|done].
  apply list_lookup_insert_eq. by eapply lookup_lt_Some.
Qed.

(** A notification reaches a sleeping writer if there is one. *)
Lemma notify_wakes woken l l' :
  pool_notify_one is_sleeping wake woken l = Some l' →
  count is_sleeping l' = 0 ∨ 0 < count is_waiting l'.
Proof.
  intros [[-> ?]|(j & c & Hj & Hs & ->)]%pool_notify_one_inv; [by left|].
  destruct c as [| |c|]; try done. right. by eapply count_waiting_insert.
Qed.

(** After the critical section of a call for all clients or for one that is
    connected, either some operation is outstanding or the writer is going to
    notify. *)
Lemma known_client_section c alloc cs :
  allocator_ok alloc → wf cs → processing cs = ∅ →
  call_client c = nullptr ∨ call_client c ∈ dom (active cs) →
  let r := section_of c alloc cs in
  sr_notify r = true ∨ processing (sr_connections r) ≠ ∅.
Proof.
  intros Hok Hwf Hp Hc. cbv zeta.
  assert (∃ op, section_of c alloc cs = write_section op (call_client c) alloc cs) as [op ->].
  { destruct c; by eexists. }
  pose proof (write_section_spec alloc Hok op (call_client c) cs Hwf Hp) as Hspec.
  cbv zeta in Hspec. destruct Hspec as (_ & _ & _ & Hproc & _ & -> & _). rewrite Hproc.
  case_bool_decide as Ha; [by left|right]. case_decide as Hc0.
  - intros He. apply Ha. apply map_empty. intros p.
    destruct (active cs !! p) as [r|] eqn:Hpr; [|done].
    assert (p ∈ (list_to_set (map_to_list (active cs)).*1 : gset addr)) as Hin.
    { apply elem_of_list_to_set, list_elem_of_fmap. exists (p, r). split; [done|].
      by apply elem_of_map_to_list. }
    rewrite He in Hin. set_solver.
  - destruct Hc as [?|Hc]; [done|]. rewrite decide_True by done. set_solver.
Qed.

(** An iteration that leaves no operation outstanding is followed by a
    notification, unless nothing was outstanding before. *)
Lemma synchronize_processing k call_ok (c c' : Connections Request) out all :
  wf c → synchronize (Response := Response) (Status := Status) ndebug cbs k call_ok c
    = Ret (c', out, all) →
  (processing c' = processing c ∧ all = false) ∨ all = bool_decide (processing c' = ∅).
Proof.
  intros Hwf Hs. destruct (tags c !! k) as [[p []]|] eqn:Hk.
  - destruct (synchronize_writing (Response := Response) (Status := Status)
      ndebug cbs k p call_ok c Hwf Hk) as (r & Hr & E).
    rewrite E in Hs. simplify_eq. right. by destruct call_ok.
  - rewrite (synchronize_done _ _ _ p) in Hs by done. left. case_decide; simplify_eq; [done|].
    destruct (delete_stream cbs p (without_tag k c)) as [[c1 out1]|] eqn:E; simplify_eq/=.
    by apply delete_stream_inv in E as ->.
  - apply synchronize_tags in Hs as [[??] _]. congruence.
Qed.

Record wakeup_inv (s : state) : Prop := {
  wi_inv : inv s;
  wi_wakeup : no_lost_wakeup s
}.

Lemma wakeup_exec s a s' :
  wakeup_inv s → action_ok a → known_clients s a = true → exec s a = Some s' →
  no_lost_wakeup s'.
Proof.
  intros [[Hwf _ _] Hw] Hok Hbr Hs. unfold exec in Hs.
  destruct (crashed s) as [|] eqn:Hc; [done|].
  unfold no_lost_wakeup in *. rewrite Hc in Hw.
  destruct a; simpl in *.
  - unfold exec_activate in Hs. case_match; [|done].
    destruct (activate_next_spec (Response := Response) (Status := Status)
      alloc Hok cbs fresh_request (conns s) Hwf) as (p & k & out & _ & _ & _ & _ & _ & E).
    rewrite E in Hs. simplify_eq. simpl. by rewrite Hc.
  - unfold exec_arrive in Hs. destruct (next (conns s)) as [[p r]|]; [|done].
    destruct (arrived s); simplify_eq. simpl. by rewrite Hc.
  - unfold exec_deliver in Hs. case_match eqn:Hg; [|done].
    apply andb_prop in Hg as [_ Hn%negb_true_iff]. rewrite Hn in Hw.
    destruct (synchronize _ _ _ _ _) as [[[c out] all]|e] eqn:E; simplify_eq/=.
    + intros Hsl _. destruct (Hw Hsl eq_refl) as [?|[?|?]]; [|done|by auto].
      apply synchronize_processing in E as [[-> _]| ->]; [by left| |done].
      case_bool_decide; [by right; left|by left].
    + done.
  - destruct (sync_notify s); [|done].
    destruct (pool_notify_one _ _ _ _) as [l|] eqn:E; simplify_eq/=.
    apply notify_wakes in E as [?|?]; eauto; lia.
  - destruct (writers s !! i) as [[]|] eqn:Hi; simplify_eq/=.
    intros _ _. right. right. right. by eapply count_waiting_insert.
  - unfold exec_run in Hs. destruct (writers s !! i) as [[| c | |]|] eqn:Hi; simplify_eq.
    apply bool_decide_eq_true in Hbr. case_decide as Hp; simplify_eq/=; [|by left].
    destruct Hbr as [?|Hcc]; [done|]. intros _ _.
    destruct (known_client_section c alloc (conns s) Hok Hwf Hp Hcc) as [Hn|?]; [|by left].
    right. right. left. rewrite Hn. apply (count_pos _ _ i Notifying); [|done].
    apply list_lookup_insert_eq. by eapply lookup_lt_Some.
  - destruct (writers s !! i) as [[]|] eqn:Hi; simplify_eq.
    destruct (pool_notify_one _ _ _ _) as [l|] eqn:E; simplify_eq/=.
    apply notify_wakes in E as [?|?]; [lia|auto].
  - destruct (writers s !! i) as [[| |c|]|] eqn:Hi; simplify_eq/=.
    intros _ _. right. right. right. by eapply count_waiting_insert.
Qed.

Lemma reachable_wakeup n s :
  reachable (init n) (exec_step_ok (restrict known_clients exec) action_ok) s → wakeup_inv s.
Proof.
  intros Hr. induction Hr as [s ->|s a s' Hr IH [Hok [Hbr Hs]%restrict_inv]].
  - split; [apply inv_init|].
    unfold no_lost_wakeup. simpl. intros Hn.
    apply count_pos_inv in Hn as (i & c & [-> _]%lookup_replicate & ?). done.
  - split; [|by eapply wakeup_exec].
    by eapply stream_inv_exec; [exact Hok|apply IH|].
Qed.

Lemma deliver_enabled k call_ok s :
  k ∈ queue s → deliverable k s = true → sync_notify s = false →
  is_Some (exec_deliver k call_ok s).
Proof.
  intros Hk Hd Hn. unfold exec_deliver. rewrite bool_decide_true by done. rewrite Hd, Hn. simpl.
  destruct (synchronize _ _ _ _ _) as [[[]]|]; by eexists.
Qed.

(** *** A state in which the sleeping writers are forgotten *)

(** Steps other than new calls and spurious wake-ups. *)
Definition proceeds (a : action) : Prop :=
  action_ok a ∧ match a with Call _ _ | SpuriousWakeup _ => False | _ => True end.

Record forgotten (s : state) : Prop := {
  fg_inv : inv s;
  fg_processing : processing (conns s) = ∅;
  fg_sync_notify : sync_notify s = false;
  fg_notifying : count is_notifying (writers s) = 0;
  fg_waiting : count is_waiting (writers s) = 0
}.

(** Without outstanding operations only [done] tags are reported, and after
    those nobody is notified. *)
Lemma synchronize_idle k call_ok (c c' : Connections Request) out all :
  wf c → processing c = ∅ →
  synchronize (Response := Response) (Status := Status) ndebug cbs k call_ok c = Ret (c', out, all) →
  processing c' = ∅ ∧ all = false.
Proof.
  intros Hwf Hp Hs. destruct (tags c !! k) as [[p []]|] eqn:Hk.
  - assert (p ∈ processing c) by (apply (wf_processing _ Hwf); eauto). set_solver.
  - rewrite (synchronize_done _ _ _ p) in Hs by done. case_decide; simplify_eq; [done|].
    destruct (delete_stream cbs p (without_tag k c)) as [[c1 out1]|] eqn:E; simplify_eq/=.
    by apply delete_stream_inv in E as ->.
  - apply synchronize_tags in Hs as [[??] _]. congruence.
Qed.

Lemma forgotten_exec s a s' :
  forgotten s → proceeds a → exec s a = Some s' → forgotten s' ∧ writers s' = writers s.
Proof.
  intros [Hinv Hp Hsn Hn Hw] [Hok Ha] Hs.
  assert (inv s') as Hinv' by by eapply stream_inv_exec.
  destruct Hinv as [Hwf _ _].
  assert (writers s' = writers s ∧ processing (conns s') = ∅ ∧ sync_notify s' = false)
    as (Hw' & ? & ?); [|by split; [split; rewrite ?Hw'|]].
  unfold exec in Hs. destruct (crashed s); [done|].
  destruct a as [alloc|r|k ok|w| |i alloc|i w|]; simpl in *; try done.
  - unfold exec_activate in Hs. case_match; [|done].
    destruct (activate_next_spec (Response := Response) (Status := Status)
      alloc Hok cbs fresh_request (conns s) Hwf) as (p & k & out & _ & _ & _ & _ & _ & E).
    rewrite E in Hs. by simplify_eq.
  - unfold exec_arrive in Hs. destruct (next (conns s)) as [[p q]|]; [|done].
    destruct (arrived s); by simplify_eq.
  - unfold exec_deliver in Hs. case_match; [|done].
    destruct (synchronize _ _ _ _ _) as [[[c out] all]|e] eqn:E; simplify_eq/=; [|done].
    by apply synchronize_idle in E as [? ->].
  - by rewrite Hsn in Hs.
  - unfold exec_run in Hs. destruct (writers s !! i) as [[]|] eqn:Hi; simplify_eq.
    pose proof (count_pos is_waiting _ _ _ Hi eq_refl). lia.
  - destruct (writers s !! i) as [[]|] eqn:Hi; simplify_eq.
    pose proof (count_pos is_notifying _ _ _ Hi eq_refl). lia.
Qed.

Lemma forgotten_execution s ls s' :
  execution (exec_step_ok exec proceeds) s ls s' → forgotten s → writers s' = writers s.
Proof.
  induction 1 as [|s a s1 ls s' [Ha Hs] He IH]; [done|]. intros Hf.
  destruct (forgotten_exec s a s1 Hf Ha Hs) as [Hf1 Hw]. rewrite IH; done.
Qed.

End System.
Arguments state : clear implicits.
Arguments action : clear implicits.
Arguments call : clear implicits.
Arguments ordered_inv {_ _ _} _ _.
Arguments wakeup_inv {_ _ _} _ _.
Arguments inv {_ _ _} _ _.

(** ** Properties *)
Section Properties.
Context {Request Response Status : Type}.
Context (ndebug : bool) (cbs : callbacks) (fresh_request : Request) (n : nat).
Implicit Types s : state Request Response Status.

Abbreviation any_order := (exec_step_ok (exec ndebug cbs fresh_request) action_ok).
Abbreviation expected_order :=
  (exec_step_ok (restrict in_order (exec ndebug cbs fresh_request)) action_ok).
Abbreviation connected_calls :=
  (exec_step_ok (restrict known_clients (exec ndebug cbs fresh_request)) action_ok).

(** C1: gRPC's rule that at most one write is outstanding on a stream is kept.
    In every interleaving, two outstanding operations never belong to the same
    stream, a stream is marked as being processed exactly while its operation
    is outstanding, only streams that are alive are, and every outstanding tag
    is in the tag map, so that the completion queue never returns a tag that
    [get_tag] does not find. *)
Theorem one_operation_per_stream s :
  reachable (λ s, s = init_state n) any_order s →
  (∀ k1 k2 p, tags (conns s) !! k1 = Some (mkTag p writing) →
    tags (conns s) !! k2 = Some (mkTag p writing) → k1 = k2) ∧
  (∀ p, p ∈ processing (conns s) ↔ ∃ k, tags (conns s) !! k = Some (mkTag p writing)) ∧
  processing (conns s) ⊆ dom (active (conns s)) ∧
  (crashed s = None → queue s = dom (tags (conns s))).
Proof.
  intros [Hwf Hq _]%stream_reachable_inv. split_and!.
  - apply (wf_unique _ Hwf).
  - apply (wf_processing _ Hwf).
  - apply (wf_active _ Hwf).
  - done.
Qed.

(** C2: the assertion of [get_tag] holds in every interleaving, and nothing is
    thrown: the only way in which [run_synchronization] can go wrong is to read
    the request of a stream that is gone, and only to pass it to a deletion
    callback. A handler without a deletion callback never goes wrong. *)
Theorem synchronization_safe s :
  reachable (λ s, s = init_state n) any_order s →
  crashed s = None ∨ (crashed s = Some use_after_free ∧ deletion_callback_ cbs = true).
Proof.
  intros Hr%stream_reachable_inv. destruct (crashed s) as [e|] eqn:E; [|by left].
  destruct (inv_crash _ _ Hr e E) as [-> ?]. by right.
Qed.


(** No writer is forgotten in a program whose calls are for all clients or for
    one that is connected when its turn comes. While a writer sleeps, an operation is outstanding, a notification is about
    to be sent, or another writer is awake and will test the predicate. *)
Theorem sleeping_writers_wake_up s :
  reachable (λ s, s = init_state n) connected_calls s →
  0 < count is_sleeping (writers s) → crashed s = None →
  processing (conns s) ≠ ∅ ∨ sync_notify s = true ∨
  0 < count is_notifying (writers s) ∨ 0 < count is_waiting (writers s).
Proof. intros Hr%reachable_wakeup. apply Hr. Qed.

(** [write(update)] starts exactly one write of the update on every
    connected stream, each under a tag of its own, marks all of them, and leaves
    the connections as they are. *)
Theorem write_to_all_spec (update : Response) alloc (c : Connections Request) :
  allocator_ok alloc → wf c → processing c = ∅ →
  let r := write (Status := Status) update nullptr alloc c in
  active (sr_connections r) = active c ∧
  processing (sr_connections r) = dom (active c) ∧
  ∃ ks, sr_effects r = zip_with (λ p k, Write p update k) (map_to_list (active c)).*1 ks ∧
    length ks = size (active c) ∧ NoDup ks ∧ list_to_set ks ## dom (tags c).
Proof.
  intros Hok Hwf Hp. cbv zeta. unfold write.
  pose proof (write_section_spec (Response := Response) (Status := Status) alloc Hok
    (λ p k, Write p update k) nullptr c Hwf Hp) as Hs. cbv zeta in Hs.
  rewrite decide_True in Hs by done.
  destruct Hs as (_ & _ & -> & -> & (ks & -> & Hl & Hnd & Hks & _) & _).
  split_and!; [done| |].
  - apply set_eq. intros p. rewrite elem_of_list_to_set, list_elem_of_fmap, elem_of_dom.
    split.
    + intros ([q r] & -> & Hin). exists r. by apply elem_of_map_to_list.
    + intros [r Hr]. exists (p, r). split; [done|]. by apply elem_of_map_to_list.
  - exists ks. split_and!; [done|by rewrite Hl, length_fmap, length_map_to_list|done|].
    intros k Hk Hd. apply elem_of_list_to_set, Hks in Hk. by apply not_elem_of_dom in Hk.
Qed.

(** [write(update, client)] for a client that is not connected starts
    nothing and changes nothing, but the caller is told that it succeeded: the
    local [result] is false and [true] is returned. *)
Theorem write_to_unknown_client (update : Response) client alloc (c : Connections Request) :
  client ≠ nullptr → client ∉ dom (active c) →
  let r := write (Status := Status) update client alloc c in
  sr_connections r = c ∧ sr_effects r = [] ∧ sr_result r = false ∧ returned r = true.
Proof.
  intros Hc Hn%not_elem_of_dom. cbv zeta. unfold write, write_section.
  by rewrite decide_False, Hn.
Qed.

End Properties.

(** *** Concrete runs

    Requests and updates are numbers. [prefer p] is an allocator that returns
    the address [p] whenever it is free. *)
Definition prefer (p : addr) (used : gset addr) : addr :=
  if decide (p ∈ used) then fresh used else p.

Lemma prefer_ok p : allocator_ok (prefer p).
Proof. intros used. unfold prefer. case_decide; [apply is_fresh|done]. Qed.

Definition both_callbacks : callbacks := mkCallbacks true true.

Abbreviation demo_action := (action N N unit).
Abbreviation demo_exec := (exec (Response := N) (Status := unit) false both_callbacks 0%N).
Abbreviation demo_init n := (init_state (Request := N) (Response := N) (Status := unit) n).
Abbreviation demo_step := (exec_step_ok demo_exec action_ok).

(** A client connects at address 1 (its [done] tag is 2, the next connection
    and its tag are 3 and 4) and is written to under the tag 5. *)
Definition connect_and_write : list demo_action :=
  [ActivateNext (prefer 1); Arrive 7; ActivateNext (prefer 3); Call 0 (WriteCall 42 nullptr);
   Run 0 (prefer 5)]%N.

(** The write fails before the client is reported as done: the stream is
    deleted with the first report and read with the second. *)
Definition failed_write_first : list demo_action :=
  connect_and_write ++ [Deliver 5 false; SyncNotify None; Deliver 2 false]%N.

(** In between, another client connects and gets the address of the first. *)
Definition address_reused : list demo_action :=
  connect_and_write ++
  [Deliver 5 false; SyncNotify None; Arrive 8; ActivateNext (prefer 1); Arrive 9;
   ActivateNext (prefer 6); Deliver 2 false]%N.

(** The client is gone before the server thread has activated it. *)
Definition done_before_activated : list demo_action :=
  [ActivateNext (prefer 1); Arrive 7; Deliver 2 false; ActivateNext (prefer 3)]%N.

(** Two writers wait for a write; the one that is woken writes to a client that
    does not exist. *)
Definition forgotten_writer : list demo_action :=
  connect_and_write ++
  [Call 0 (WriteCall 43 99); Run 0 fresh; Call 1 (WriteCall 44 nullptr); Run 1 fresh;
   Deliver 5 true; SyncNotify (Some 0%nat); Run 0 fresh]%N.

Definition demo (n : nat) (ls : list demo_action) : state N N unit :=
  default (demo_init n) (run demo_exec (demo_init n) ls).

Lemma demo_ok (ls : list demo_action) :
  Forall (λ a, match a with ActivateNext f | Run _ f =>
    f = fresh ∨ ∃ p, f = prefer p | _ => True end) ls → Forall action_ok ls.
Proof.
  intros Hls. eapply Forall_impl; [exact Hls|]. intros [] H; simpl in *; try done;
    (destruct H as [-> | [p ->]]; [intros used; apply is_fresh | apply prefer_ok]).
Qed.

Ltac solve_demo_ok := apply demo_ok; repeat constructor; by eexists.

Lemma stream_demo_reachable n ls :
  Forall action_ok ls → is_Some (run demo_exec (demo_init n) ls) →
  reachable (λ s, s = demo_init n) demo_step (demo n ls).
Proof.
  intros Hok [s Hs]. unfold demo. rewrite Hs. simpl. by eapply run_reachable_ok.
Qed.

Lemma demo_restricted allowed n ls :
  Forall action_ok ls →
  run (restrict allowed demo_exec) (demo_init n) ls = Some (demo n ls) →
  reachable (λ s, s = demo_init n) (exec_step_ok (restrict allowed demo_exec) action_ok)
    (demo n ls).
Proof. intros. by eapply run_reachable_ok. Qed.

(** A client whose write fails before it is reported as done is deleted
    twice. Such an interleaving is possible, and the second deletion reads the
    request of the freed stream for the deletion callback. *)
Theorem deletion_uses_freed_stream :
  ∃ s, reachable (λ s, s = demo_init 1) demo_step s ∧
    crashed s = Some use_after_free ∧ count (is_delete 1%N) (log s) = 1.
Proof.
  exists (demo 1 failed_write_first). split; [|vm_compute; done].
  apply stream_demo_reachable; [solve_demo_ok|vm_compute; by eexists].
Qed.

(** The late report of a stream that was already deleted removes another
    client when the address has been reused: client 9, on whose stream nothing
    failed and which has not been reported as done, is disconnected. *)
Theorem stale_report_deletes_new_client :
  ∃ s k, reachable (λ s, s = demo_init 1) demo_step s ∧
    last (log s) = Some (DeleteCallback 9%N 1%N) ∧
    active (conns s) !! 1%N = None ∧
    tags (conns s) !! k = Some (mkTag 1%N done) ∧ k ∈ queue s.
Proof.
  exists (demo 1 address_reused), 5%N. split_and!.
  - apply stream_demo_reachable; [solve_demo_ok|vm_compute; by eexists].
  - vm_compute. done.
  - vm_compute. done.
  - vm_compute. done.
  - vm_compute. done.
Qed.

(** A call that ends before the server thread has activated it is reported
    to the deletion callback before the connection callback, and its stream
    stays connected although no report about it is outstanding any more. *)
Theorem done_before_activation_leaks :
  ∃ s, reachable (λ s, s = demo_init 1) demo_step s ∧
    filter (λ e, is_connect 1%N e ∨ is_delete 1%N e) (log s)
      = [DeleteCallback 7%N 1%N; ConnectCallback 7%N 1%N] ∧
    active (conns s) !! 1%N = Some 7%N ∧
    ∀ k l, tags (conns s) !! k ≠ Some (mkTag 1%N l).
Proof.
  exists (demo 1 done_before_activated). split_and!.
  - apply stream_demo_reachable; [solve_demo_ok|vm_compute; by eexists].
  - vm_compute. done.
  - vm_compute. done.
  - assert (map_Forall (λ _ t, data t ≠ 1%N) (tags (conns (demo 1 done_before_activated)))) as H.
    { apply (bool_decide_unpack _). vm_compute. done. }
    intros k l Hk. by apply (H k _ Hk).
Qed.

(** A writer can be forgotten once [write] is called for a client that is
    not connected. In the state reached a writer waits to write to all clients,
    nothing is being processed, and the writer still sleeps whatever else
    happens, reports of gRPC and new clients included, until some thread makes a
    new call or it wakes up spuriously. *)
Theorem unknown_client_forgets_writer :
  ∃ s, reachable (λ s, s = demo_init 2) demo_step s ∧ crashed s = None ∧
    processing (conns s) = ∅ ∧
    ∀ ls s', execution (exec_step_ok demo_exec proceeds) s ls s' →
      writers s' !! 1 = Some (Sleeping (WriteCall 44%N nullptr)).
Proof.
  exists (demo 2 forgotten_writer).
  assert (reachable (λ s, s = demo_init 2) demo_step (demo 2 forgotten_writer)) as Hr.
  { apply stream_demo_reachable; [solve_demo_ok|vm_compute; by eexists]. }
  split_and!; [done|vm_compute; done|vm_compute; done|].
  intros ls s' He. rewrite (forgotten_execution _ _ _ _ _ _ He).
  - vm_compute. done.
  - apply stream_reachable_inv in Hr. split; [done|vm_compute; done..].
Qed.

(** *** Witnesses *)
Lemma one_operation_per_stream_witness :
  5%N ∈ queue (demo 1 connect_and_write) ∧
  processing (conns (demo 1 connect_and_write))
    ⊆ dom (active (conns (demo 1 connect_and_write))).
Proof.
  split; [vm_compute; done|].
  apply (one_operation_per_stream false both_callbacks 0%N 1 (demo 1 connect_and_write)).
  apply stream_demo_reachable; [solve_demo_ok|vm_compute; by eexists].
Defined.

Lemma synchronization_safe_witness :
  crashed (demo 1 failed_write_first) = None ∨
  (crashed (demo 1 failed_write_first) = Some use_after_free ∧ true = true).
Proof.
  apply (synchronization_safe false both_callbacks 0%N 1 (demo 1 failed_write_first)).
  apply stream_demo_reachable; [solve_demo_ok|vm_compute; by eexists].
Defined.

(** The expected order: done first, then the failed write. *)
Definition done_first : list demo_action :=
  connect_and_write ++ [Deliver 2 false; Deliver 5 false; SyncNotify None]%N.


(** An update for the connected client has to wait for the broadcast. *)
Definition two_writers : list demo_action :=
  connect_and_write ++ [Call 1 (WriteCall 44 1); Run 1 fresh]%N.

Lemma sleeping_writers_wake_up_witness :
  processing (conns (demo 2 two_writers)) ≠ ∅ ∨
  sync_notify (demo 2 two_writers) = true ∨
  0 < count is_notifying (writers (demo 2 two_writers)) ∨
  0 < count is_waiting (writers (demo 2 two_writers)).
Proof.
  apply (sleeping_writers_wake_up false both_callbacks 0%N 2 (demo 2 two_writers)).
  - apply demo_restricted; [solve_demo_ok|vm_compute; done].
  - vm_compute. lia.
  - vm_compute. done.
Defined.

Lemma write_to_all_spec_witness :
  let r := write (Request := N) (Status := unit) 42%N nullptr fresh empty_connections in
  processing (sr_connections r) = ∅.
Proof.
  apply (write_to_all_spec (Request := N) (Status := unit) 42%N fresh empty_connections).
  - intros used. apply is_fresh.
  - apply wf_empty.
  - done.
Defined.

Lemma write_to_unknown_client_witness :
  let r := write (Request := N) (Status := unit) 42%N 9%N fresh empty_connections in
  sr_result r = false ∧ returned r = true.
Proof.
  apply (write_to_unknown_client (Request := N) (Status := unit) 42%N 9%N fresh
    empty_connections); [done|set_solver].
Defined.

End StreamRpcSystem.
