(* ===== verification/StreamRpcProgress.v ===== *)
(** * The calls of [write] and [finish] return

    [StreamRpcSystem.v] shows that a sleeping writer is never without somebody
    who is going to wake it. Here is what this amounts to for the callers of
    [src/include/grpcw/server/detail/stream_rpc_handler.hpp]: once the program
    makes no further calls and no further clients connect, every schedule of the
    writers, of [run_synchronization] and of gRPC's reports comes to an end
    within a bound that depends on the state only, and at the end every call
    has returned. *)
From S2P Require Import Prelude Tag StreamRpcHandler StreamRpcSystem.

Module StreamRpcProgress.
Import StreamRpcSystem.
Section Progress.
Context {Request Response Status : Type}.
Context (ndebug : bool) (cbs : callbacks) (fresh_request : Request).
Implicit Types s : state Request Response Status.
Abbreviation writer := (pc (Response := Response) (Status := Status)).

(** The steps of the calls that are under way and of gRPC. *)
Definition settles (a : action Request Response Status) : Prop :=
  action_ok a ∧
  match a with Deliver _ _ | SyncNotify _ | Run _ _ | NotifyOne _ _ => True | _ => False end.

(** The steps that a writer can still cause, if [n] streams are active: its own
    ones, and for every operation that it starts the report, the notification
    that may follow and the writer that this wakes up. *)
Definition weight (n : nat) (c : writer) : nat :=
  match c with
  | Ready => 0
  | Notifying => 2
  | Sleeping _ => 3 * n + 3
  | Waiting _ => 3 * n + 4
  end.

Definition work (n : nat) s : nat :=
  3 * size (queue s) + (if sync_notify s then 2 else 0) + sum_list (weight n <$> writers s).

Lemma weight_bound n (l : list writer) : sum_list (weight n <$> l) <= length l * (3 * n + 4).
Proof. induction l as [|c l IH]; csimpl; [lia|]. destruct c; simpl; lia. Qed.

Lemma weight_notify n woken (l l' : list writer) :
  pool_notify_one is_sleeping wake woken l = Some l' →
  sum_list (weight n <$> l') <= S (sum_list (weight n <$> l)).
Proof.
  intros [[-> _]|(j & c & Hj & Hs & ->)]%pool_notify_one_inv; [lia|].
  pose proof (sum_list_insert (weight n) l j c (wake c) Hj) as Hsum.
  assert (weight n (wake c) <= S (weight n c)) by (destruct c; simpl; lia). lia.
Qed.

(** A critical section starts at most one operation per active stream. *)
Lemma section_effects_size c alloc cs :
  allocator_ok alloc → wf cs → processing cs = ∅ →
  let r := section_of (Request := Request) (Response := Response) (Status := Status) c alloc cs in
  active (sr_connections r) = active cs ∧ size (effect_tags (sr_effects r)) <= size (active cs).
Proof.
  intros Hok Hwf Hp. cbv zeta.
  assert (∃ op, section_of c alloc cs = write_section op (call_client c) alloc cs ∧
    ∀ p k, effect_tag (op p k) = {[k]}) as (op & -> & Hop) by (destruct c; by eexists).
  pose proof (write_section_spec alloc Hok op (call_client c) cs Hwf Hp) as Hspec.
  cbv zeta in Hspec. destruct Hspec as (_ & _ & Ha & _ & (ks & -> & Hl & _) & _).
  split; [done|]. rewrite effect_tags_ops by done.
  assert (size (list_to_set ks : gset addr) <= length ks) as Hks.
  { clear. induction ks as [|k ks IH]; simpl; [done|].
    rewrite size_union_alt, size_singleton.
    assert (size ((list_to_set ks : gset addr) ∖ {[k]}) <= size (list_to_set ks : gset addr));
      [apply subseteq_size; set_solver|lia]. }
  rewrite Hl in Hks. etransitivity; [exact Hks|].
  repeat case_decide; [by rewrite length_fmap, length_map_to_list| |simpl; lia].
  simpl. assert (size (active cs) ≠ 0); [|lia]. rewrite map_size_non_empty_iff.
  intros E. rewrite E in *. set_solver.
Qed.

Lemma synchronize_active k call_ok (c c' : Connections Request) out all :
  wf c → synchronize (Response := Response) (Status := Status) ndebug cbs k call_ok c
    = Ret (c', out, all) → size (active c') <= size (active c).
Proof.
  intros Hwf Hs. destruct (tags c !! k) as [[p []]|] eqn:Hk.
  - destruct (synchronize_writing (Response := Response) (Status := Status)
      ndebug cbs k p call_ok c Hwf Hk) as (r & Hr & E).
    rewrite E in Hs. simplify_eq. destruct call_ok; simpl; [done|].
    apply size_delete_le.
  - rewrite (synchronize_done _ _ _ p) in Hs by done. case_decide; simplify_eq; [done|].
    destruct (delete_stream cbs p (without_tag k c)) as [[c1 out1]|] eqn:E; simplify_eq/=.
    apply delete_stream_inv in E as ->. simpl. apply size_delete_le.
  - apply synchronize_tags in Hs as [[??] _]. congruence.
Qed.

Lemma settles_work n s a s' :
  inv cbs s → size (active (conns s)) <= n → settles a →
  exec ndebug cbs fresh_request s a = Some s' →
  size (active (conns s')) <= n ∧ work n s' < work n s.
Proof.
  intros [Hwf _ _] Hn [Hok Ha] Hs. unfold exec in Hs. destruct (crashed s); [done|].
  destruct a as [| |k call_ok|woken| |i alloc|i woken|]; try done; simpl in Hs.
  - unfold exec_deliver in Hs. case_match eqn:Hg; [|done].
    apply andb_prop in Hg as [[Hin%bool_decide_eq_true _]%andb_prop Hsn%negb_true_iff].
    pose proof (size_remove _ _ Hin) as Hsize. unfold work. rewrite Hsn.
    destruct (synchronize _ _ _ _ _) as [[[c out] all]|e] eqn:E; simplify_eq/=; [|lia].
    apply synchronize_active in E as Hsub; [|done].
    apply synchronize_tags in E as (_ & _ & _ & ->). rewrite (right_id_L ∅ (∪)).
    destruct all; lia.
  - unfold work. destruct (sync_notify s) eqn:Hsn; [|done].
    destruct (pool_notify_one _ _ _ _) as [l|] eqn:E; simplify_eq/=.
    apply (weight_notify n) in E. lia.
  - unfold exec_run in Hs. destruct (writers s !! i) as [[|c| |]|] eqn:Hi; simplify_eq.
    case_decide as Hp; simplify_eq; unfold work; simpl.
    + destruct (section_effects_size c alloc (conns s) Hok Hwf Hp) as [-> Hsize].
      split; [done|].
      assert (size (queue s ∪ effect_tags (sr_effects (section_of c alloc (conns s))))
        <= size (queue s) + size (active (conns s))) as Hq.
      { rewrite size_union_alt. etransitivity; [|apply Nat.add_le_mono_l, Hsize].
        apply Nat.add_le_mono_l, subseteq_size. set_solver. }
      pose proof (sum_list_insert (weight n) (writers s) i (Waiting c)
        (if sr_notify (section_of c alloc (conns s)) then Notifying else Ready) Hi) as Hsum.
      cbn [weight] in Hsum. destruct (sr_notify _); cbn [weight] in *; lia.
    + split; [done|].
      pose proof (sum_list_insert (weight n) (writers s) i (Waiting c) (Sleeping c) Hi) as Hsum.
      cbn [weight] in Hsum. lia.
  - destruct (writers s !! i) as [[]|] eqn:Hi; simplify_eq.
    destruct (pool_notify_one _ _ _ _) as [l|] eqn:E; simplify_eq/=.
    split; [done|]. unfold work. simpl. apply (weight_notify n) in E.
    pose proof (sum_list_insert (weight n) (writers s) i Notifying Ready Hi) as Hsum.
    cbn [weight] in Hsum. lia.
Qed.

Abbreviation connected_calls :=
  (exec_step_ok (restrict known_clients (exec ndebug cbs fresh_request)) action_ok).
Abbreviation settling :=
  (exec_step_ok (restrict known_clients (exec ndebug cbs fresh_request)) settles).

Lemma settling_execution n0 n s ls s' :
  reachable (λ s, s = init_state n0) connected_calls s → size (active (conns s)) <= n →
  execution settling s ls s' →
  reachable (λ s, s = init_state n0) connected_calls s' ∧ length ls + work n s' <= work n s.
Proof.
  intros Hr Hn He. induction He as [|s a s1 ls s' [Ha Hs] _ IH]; [done|].
  assert (inv cbs s) as Hi by (eapply stream_reachable_inv, reachable_restrict, Hr).
  assert (reachable (λ s, s = init_state n0) connected_calls s1) as Hr1.
  { eapply reachable_step; [exact Hr|]. split; [apply Ha|done]. }
  apply restrict_inv in Hs as [_ Hs].
  destruct (settles_work n s a s1 Hi Hn Ha Hs) as [Hn1 Hw].
  destruct (IH Hr1 Hn1). split; [done|]. simpl. lia.
Qed.

(** A call for a client that is not connected when it gets the lock. *)
Definition unknown_call s : Prop :=
  ∃ i c, writers s !! i = Some (Waiting c) ∧
    call_client c ≠ nullptr ∧ call_client c ∉ dom (active (conns s)).

(** While a call is under way, some step is possible. *)
Lemma settling_progress s :
  inv cbs s → no_lost_wakeup s → crashed s = None →
  Forall (λ c, c = Ready) (writers s) ∨ unknown_call s ∨ ∃ a s', settling s a s'.
Proof.
  intros Hi Hw Hc. destruct (sync_notify s) eqn:Hsn.
  { right. right. destruct (pool_notify_one_total is_sleeping wake (writers s)) as (woken & w & E).
    exists (SyncNotify woken). eexists. split; [by split|]. unfold restrict. simpl.
    unfold exec. rewrite Hc. simpl. rewrite Hsn. simpl. by rewrite E. }
  destruct (decide (0 < count is_notifying (writers s))) as [Hn|Hn].
  { right. right. apply count_pos_inv in Hn as (i & c & Hic & Hcn). destruct c; try done.
    destruct (pool_notify_one_total is_sleeping wake (<[i := Ready]> (writers s)))
      as (woken & w & E).
    exists (NotifyOne i woken). eexists. split; [by split|]. unfold restrict. simpl.
    unfold exec. rewrite Hc. simpl. rewrite Hic. simpl. by rewrite E. }
  destruct (decide (0 < count is_waiting (writers s))) as [Hwt|Hwt].
  { right. apply count_pos_inv in Hwt as (i & c & Hic & Hcw). destruct c as [|c| |]; try done.
    destruct (known_clients s (Run i fresh)) eqn:Hk.
    - right. exists (Run i fresh).
      assert (is_Some (exec ndebug cbs fresh_request s (Run i fresh))) as [s' Hs'].
      { unfold exec. rewrite Hc. simpl. unfold exec_run. rewrite Hic. case_decide; by eexists. }
      exists s'. split; [split; [|done]; intros used; apply is_fresh|].
      unfold restrict. by rewrite Hk.
    - left. exists i, c. split; [done|]. simpl in Hk. rewrite Hic in Hk.
      apply bool_decide_eq_false in Hk. tauto. }
  destruct (decide (0 < count is_sleeping (writers s))) as [Hsl|Hsl].
  - right. right. destruct (Hw Hsl Hc) as [Hp|[?|[?|?]]]; [|congruence|lia..].
    apply set_choose_L in Hp as [p Hp]. destruct Hi as [Hwf Hq _].
    apply (wf_processing _ Hwf) in Hp as [k Hk].
    destruct (deliver_enabled ndebug cbs k true s) as [s' Hs'].
    + rewrite (Hq Hc). by eapply elem_of_dom_2.
    + unfold deliverable. by rewrite Hk.
    + done.
    + exists (Deliver k true), s'. split; [by split|]. unfold restrict. simpl.
      unfold exec. by rewrite Hc.
  - left. apply Forall_lookup. intros i c Hic.
    destruct c; [done|..]; exfalso;
      [apply Hwt|apply Hsl|apply Hn]; by eapply count_pos.
Qed.


End Progress.

(** The state of [two_writers]: the second writer sleeps, and what happens then. *)
Definition reports_and_wakes : list (action N N unit) :=
  [Deliver 5 true; SyncNotify (Some 1%nat); Run 1 (prefer 6); Deliver 6 true; SyncNotify None]%N.


End StreamRpcProgress.
