(* ===== verification/StreamRpcShutdown.v ===== *)
(** * The end of a streaming handler

    The destructor of [StreamRpcHandler] shuts [queue_] down and joins the
    thread of [run_synchronization], which goes on with every operation that is
    still outstanding until [queue_.Next] returns false. This file runs the
    system of [StreamRpcSystem.v] up to the end of that destructor.

    The server destroys its handlers after its own thread has been joined and
    after [server_->Shutdown], and the program does not use the
    [StreamInterface] of a handler that is being destroyed: from the first line
    of the destructor on, only gRPC and [run_synchronization] make steps. The
    [done] tag of a connection that was never accepted is not reported, so
    [Next] does not wait for it. *)
From S2P Require Import Prelude Tag StreamRpcHandler StreamRpcSystem.

Module StreamRpcShutdown.
Export StreamRpcSystem.
Section Lifetime.
Context {Request Response Status : Type}.
Context (ndebug : bool) (cbs : callbacks) (fresh_request : Request).

Inductive owner_pc : Type :=
| Alive
| Joining (* [queue_.Shutdown()] has returned *)
| Destroyed.

Record lifetime : Type := mkLifetime {
  sys : state Request Response Status;
  owner : owner_pc;
  sync_returned : bool (* [queue_.Next] has returned false *)
}.

Definition life_init (n : nat) : lifetime := mkLifetime (init_state n) Alive false.

Inductive life_action : Type :=
| Sys (a : action Request Response Status)
| Destructor
| SyncExit
| Join.

(** Nobody is inside of [write] or [finish]. *)
Definition unused (s : state Request Response Status) : bool :=
  forallb (λ c, match c with Ready => true | _ => false end) (writers s).

(** The steps that remain possible once the queue has been shut down. *)
Definition closing (a : action Request Response Status) : bool :=
  match a with Deliver _ _ | SyncNotify _ => true | _ => false end.

(** Every operation that gRPC is going to report has been reported. *)
Definition drained (s : state Request Response Status) : bool :=
  bool_decide (set_Forall (λ k, deliverable k s = false) (queue s)).

Definition crash_free (s : state Request Response Status) : bool :=
  match crashed s with None => true | Some _ => false end.

Definition life_exec (l : lifetime) (a : life_action) : option lifetime :=
  match a, owner l with
  | Sys a, Alive =>
      s ← exec ndebug cbs fresh_request (sys l) a; Some (mkLifetime s Alive false)
  | Sys a, Joining =>
      if closing a && negb (sync_returned l) then
        s ← exec ndebug cbs fresh_request (sys l) a; Some (mkLifetime s Joining false)
      else None
  | Destructor, Alive =>
      if unused (sys l) && crash_free (sys l)
      then Some (mkLifetime (sys l) Joining false) else None
  | SyncExit, Joining =>
      if negb (sync_returned l) && negb (sync_notify (sys l)) && drained (sys l) &&
         crash_free (sys l)
      then Some (mkLifetime (sys l) Joining true) else None
  | Join, Joining =>
      if sync_returned l then Some (mkLifetime (sys l) Destroyed true) else None
  | _, _ => None
  end.

Definition life_ok (a : life_action) : Prop :=
  match a with Sys a => action_ok a | _ => True end.

(** What the comments in [run_synchronization] say about gRPC: the reports
    arrive in order ([in_order]), and an operation that is reported after the
    end of its call has failed. *)
Definition as_documented (l : lifetime) (a : life_action) : bool :=
  match a with
  | Sys a =>
      in_order (sys l) a &&
      match a with
      | Deliver k true =>
          match tags (conns (sys l)) !! k with
          | Some (mkTag p writing) =>
              negb (bool_decide (map_Forall (λ _ t, t ≠ mkTag p done) (tags (conns (sys l)))))
          | _ => true
          end
      | _ => true
      end
  | _ => true
  end.

(** ** The system underneath *)

Lemma life_step_sys l a l' :
  life_exec l a = Some l' →
  (∃ b, a = Sys b ∧ exec ndebug cbs fresh_request (sys l) b = Some (sys l') ∧
     sync_returned l' = false ∧ owner l' = owner l) ∨
  sys l' = sys l.
Proof.
  unfold life_exec. intros Hs.
  destruct a as [b| | |], (owner l) eqn:Eo; try done; try (case_match; [|done]);
    try (destruct (exec ndebug cbs fresh_request (sys l) b) eqn:E; [|done]);
    simplify_eq/=; eauto 10.
Qed.

Lemma life_sys_reachable n l :
  reachable (λ l, l = life_init n) (exec_step_ok life_exec life_ok) l →
  reachable (λ s, s = init_state n) (exec_step_ok (exec ndebug cbs fresh_request) action_ok)
    (sys l).
Proof.
  induction 1 as [l ->|l a l' _ IH [Hok Hs]]; [by constructor|].
  apply life_step_sys in Hs as [(b & -> & E & _)| ->]; [|done].
  eapply reachable_step; [done|by split].
Qed.

Lemma life_sys_ordered n l :
  reachable (λ l, l = life_init n)
    (exec_step_ok (restrict as_documented life_exec) life_ok) l →
  reachable (λ s, s = init_state n)
    (exec_step_ok (restrict in_order (exec ndebug cbs fresh_request)) action_ok) (sys l).
Proof.
  induction 1 as [l ->|l a l' _ IH [Hok [Hd Hs]%restrict_inv]]; [by constructor|].
  apply life_step_sys in Hs as [(b & -> & E & _)| ->]; [|done].
  eapply reachable_step; [done|]. split; [done|].
  apply andb_prop in Hd as [Hd _]. unfold restrict. by rewrite Hd.
Qed.

(** ** Termination of the destructor *)

(** Two steps for every outstanding operation, one for the notification that is
    due, one for the end of the loop and one for the join. *)
Definition work (l : lifetime) : nat :=
  match owner l with
  | Destroyed => 0
  | _ => 2 * size (queue (sys l)) + (if sync_notify (sys l) then 1 else 0) +
         (if sync_returned l then 0 else 1) + 1
  end.

Lemma closing_step s a s' :
  closing a = true → exec ndebug cbs fresh_request s a = Some s' →
  2 * size (queue s') + (if sync_notify s' then 1 else 0) <
  2 * size (queue s) + (if sync_notify s then 1 else 0).
Proof.
  unfold exec. intros Ha Hs. destruct (crashed s); [done|].
  destruct a as [| |k call_ok|woken| | | |]; try done; simpl in Hs.
  - unfold exec_deliver in Hs. case_match eqn:Hg; [|done].
    apply andb_prop in Hg as [[Hin%bool_decide_eq_true _]%andb_prop Hn].
    apply negb_true_iff in Hn. pose proof (size_remove _ _ Hin) as Hsize.
    destruct (synchronize _ _ _ _ _) as [[[c out] all]|e] eqn:E; simplify_eq/=.
    + apply synchronize_tags in E as (_ & _ & _ & ->). rewrite (right_id_L ∅ (∪)).
      rewrite Hn. destruct all; lia.
    + rewrite Hn. lia.
  - destruct (sync_notify s) eqn:?; [|done].
    destruct (pool_notify_one _ _ _ _); simplify_eq/=. lia.
Qed.

Lemma life_step_work l a l' :
  owner l ≠ Alive → life_exec l a = Some l' → owner l' ≠ Alive ∧ work l' < work l.
Proof.
  unfold life_exec, work. intros Ho Hs. destruct a as [b| | |], (owner l) eqn:Eo; try done.
  - case_match eqn:Hg; [|done]. apply andb_prop in Hg as [Hb Hr%negb_true_iff].
    destruct (exec ndebug cbs fresh_request (sys l) b) as [s|] eqn:E; simplify_eq/=.
    apply closing_step in E; [|done]. rewrite Hr. split; [done|]. lia.
  - case_match eqn:Hg; [|done]. apply andb_prop in Hg as [[[Hr%negb_true_iff _]%andb_prop _]%andb_prop _].
    simplify_eq/=. rewrite Hr. split; [done|]. lia.
  - case_match eqn:Hg; [|done]. simplify_eq/=. split; [done|]. lia.
Qed.

Lemma life_execution_work l ls l' :
  execution (exec_step_ok life_exec life_ok) l ls l' → owner l ≠ Alive →
  owner l' ≠ Alive ∧ length ls + work l' ≤ work l.
Proof.
  induction 1 as [|l a l1 ls l' [_ Hs] _ IH]; intros Ho; simpl; [done|].
  destruct (life_step_work _ _ _ Ho Hs) as [Ho1 Hw].
  destruct (IH Ho1). split; [done|]. lia.
Qed.

(** While the destructor waits, some step is possible unless
    [run_synchronization] has gone wrong. *)
Lemma joining_progress l :
  owner l = Joining → crashed (sys l) = None → ∃ a l', life_ok a ∧ life_exec l a = Some l'.
Proof.
  intros Ho Hc. destruct (sync_returned l) eqn:Hr.
  { exists Join. eexists. split; [done|]. simpl. by rewrite Ho, Hr. }
  destruct (sync_notify (sys l)) eqn:Hn.
  { destruct (pool_notify_one_total is_sleeping wake (writers (sys l))) as (woken & w & Hw).
    exists (Sys (SyncNotify woken)). eexists. split; [done|].
    simpl. rewrite Ho, Hr. simpl. unfold exec. rewrite Hc. simpl. by rewrite Hn, Hw. }
  destruct (drained (sys l)) eqn:Hd.
  { exists SyncExit. eexists. split; [done|]. simpl. unfold crash_free.
    by rewrite Ho, Hr, Hn, Hd, Hc. }
  unfold drained in Hd. apply bool_decide_eq_false in Hd.
  apply not_set_Forall_Exists in Hd as (k & Hk & Hdk); [|solve_decision].
  exists (Sys (Deliver k true)). simpl in Hdk. apply not_false_is_true in Hdk.
  destruct (deliver_enabled ndebug cbs k true (sys l)) as [s Hs]; [done..|].
  eexists. split; [done|]. simpl. rewrite Ho, Hr. simpl. unfold exec. rewrite Hc. simpl.
  by rewrite Hs.
Qed.

(** ** The clients of a handler that was destroyed *)

(** Every connected stream will be reported once more: its operation is
    outstanding, or its end. *)
Record watched (s : state Request Response Status) : Prop := {
  watched_active p : p ∈ dom (active (conns s)) →
    p ∈ processing (conns s) ∨ ∃ k, tags (conns s) !! k = Some (mkTag p done);
  watched_next p r : next (conns s) = Some (p, r) →
    ∃ k, tags (conns s) !! k = Some (mkTag p done)
}.

Lemma watched_same s s' :
  watched s → conns s' = conns s → watched s'.
Proof. intros [Ha Hn] E. split; rewrite E; done. Qed.

Lemma watched_activate s alloc s' :
  inv cbs s → watched s → allocator_ok alloc →
  exec_activate cbs fresh_request alloc s = Some s' → watched s'.
Proof.
  intros [Hwf _ _] [Ha Hn] Hok Hs. unfold exec_activate in Hs. case_match; [|done].
  destruct (activate_next_spec (Response := Response) (Status := Status)
    alloc Hok cbs fresh_request (conns s) Hwf)
    as (p & k & out & _ & _ & Hk & _ & _ & E).
  rewrite E in Hs. simplify_eq.
  assert (∀ q k', tags (conns s) !! k' = Some (mkTag q done) →
    <[k := mkTag p done]> (tags (conns s)) !! k' = Some (mkTag q done)) as Hold.
  { intros q k' Hk'. rewrite lookup_insert_ne; [done|]. intros ->. congruence. }
  split; simpl.
  - intros q Hq. unfold activated in Hq.
    destruct (next (conns s)) as [[q' r']|] eqn:En.
    + rewrite dom_insert_L in Hq. apply elem_of_union in Hq as [->%elem_of_singleton|Hq].
      * destruct (Hn q' r' eq_refl) as [k' ?]. right. eauto.
      * destruct (Ha q Hq) as [|[k' ?]]; eauto.
    + destruct (Ha q Hq) as [|[k' ?]]; eauto.
  - intros q r [= <- <-]. exists k. apply lookup_insert_eq.
Qed.

(** The report of [k] takes one tag away; a tag with another label or of
    another stream stays. *)
Lemma done_tag_kept (m : gmap addr Tag) k t q :
  (∃ k', m !! k' = Some (mkTag q done)) → m !! k = Some t → t ≠ mkTag q done →
  ∃ k', delete k m !! k' = Some (mkTag q done).
Proof.
  intros [k' Hk'] Hk Ht. exists k'. rewrite lookup_delete_ne; [done|]. intros ->. congruence.
Qed.

Lemma watched_deliver l k call_ok s' :
  inv cbs (sys l) → watched (sys l) → crashed (sys l) = None →
  as_documented l (Sys (Deliver k call_ok)) = true →
  exec_deliver ndebug cbs k call_ok (sys l) = Some s' → watched s'.
Proof.
  intros [Hwf Hq _] [Ha Hn] Hc Hd Hs. specialize (Hq Hc).
  unfold exec_deliver in Hs. case_match eqn:Hg; [|done].
  apply andb_prop in Hg as [[Hin%bool_decide_eq_true _]%andb_prop _].
  rewrite Hq in Hin. apply elem_of_dom in Hin as [[p lbl] Hk].
  simpl in Hd. apply andb_prop in Hd as [Hord Hdoc]. rewrite Hk in Hord, Hdoc.
  assert (∀ r, next (conns (sys l)) ≠ Some (p, r) ∨ lbl = writing) as Hnp.
  { intros r. destruct lbl; [by right|left]. apply bool_decide_eq_true in Hord.
    intros E. apply (wf_next _ Hwf) in E as [E _]. apply elem_of_dom in Hord as [? ?]. congruence. }
  assert (∀ q r, next (conns (sys l)) = Some (q, r) →
    ∃ k', delete k (tags (conns (sys l))) !! k' = Some (mkTag q done)) as Hn'.
  { intros q r E. eapply done_tag_kept; [by eapply Hn|done|]. intros [= -> ->].
    by destruct (Hnp r). }
  assert (∀ q, q ∈ dom (active (conns (sys l))) → q ≠ p →
    q ∈ processing (conns (sys l)) ∖ {[p]} ∨
    ∃ k', delete k (tags (conns (sys l))) !! k' = Some (mkTag q done)) as Hother.
  { intros q Hqa Hqp. destruct (Ha q Hqa) as [?|?]; [left; set_solver|right].
    eapply done_tag_kept; [done..|congruence]. }
  destruct lbl.
  - destruct (synchronize_writing (Response := Response) (Status := Status)
      ndebug cbs k p call_ok (conns (sys l)) Hwf Hk) as (r & Hr & E).
    rewrite E in Hs. simplify_eq. unfold emit. destruct call_ok; split; simpl; try done.
    + intros q Hqa. destruct (decide (q = p)) as [->|]; [|by apply Hother].
      right. eapply done_tag_kept; [|done..]. apply negb_true_iff, bool_decide_eq_false in Hdoc.
      apply map_not_Forall in Hdoc as (k' & t & Hk' & Ht); [|solve_decision].
      exists k'. apply dec_stable in Ht. by subst t.
    + intros q. rewrite dom_delete_L. intros Hqa. apply Hother; set_solver.
  - rewrite (synchronize_done _ _ _ p) in Hs by done. apply bool_decide_eq_true in Hord.
    case_decide as Hp.
    + simplify_eq. split; simpl; [|done]. intros q Hqa.
      destruct (decide (q = p)) as [->|Hqp]; [by left|].
      destruct (Hother q Hqa Hqp) as [?|?]; [left; set_solver|by right].
    + rewrite delete_stream_spec in Hs by (intros _; by apply elem_of_dom). simplify_eq/=.
      split; simpl; [|done]. intros q. rewrite dom_delete_L. intros Hqa.
      destruct (Hother q) as [?|?]; [set_solver..|left; set_solver|by right].
Qed.

Lemma watched_run s i alloc s' :
  inv cbs s → watched s → allocator_ok alloc → exec_run i alloc s = Some s' → watched s'.
Proof.
  intros [Hwf _ _] [Ha Hn] Hok Hs. unfold exec_run in Hs.
  destruct (writers s !! i) as [[| c | |]|]; simplify_eq.
  case_decide as Hp; simplify_eq; [|by apply (watched_same s)].
  assert (∃ op client, section_of c alloc (conns s) =
    write_section (Request := Request) (Response := Response) (Status := Status)
      op client alloc (conns s)) as (op & client & ->) by (destruct c; by eexists _, _).
  pose proof (write_section_spec alloc Hok op client (conns s) Hwf Hp) as Hspec.
  cbv zeta in Hspec. destruct Hspec as (_ & En & Ea & _).
  split; simpl; rewrite ?En, ?Ea.
  - intros p Hpa. destruct (Ha p Hpa) as [?|[k ?]]; [set_solver|right].
    exists k. by apply write_section_done_tags.
  - intros p r E. destruct (Hn p r E) as [k ?]. exists k. by apply write_section_done_tags.
Qed.

Lemma watched_exec l a s' :
  inv cbs (sys l) → watched (sys l) → action_ok a → as_documented l (Sys a) = true →
  exec ndebug cbs fresh_request (sys l) a = Some s' → watched s'.
Proof.
  intros Hi Hw Hok Hd Hs. unfold exec in Hs. destruct (crashed (sys l)) eqn:Hc; [done|].
  destruct a as [alloc|request|k call_ok|woken|i c|i alloc|i woken|i]; simpl in Hs.
  - by eapply watched_activate.
  - unfold exec_arrive in Hs. destruct (next (conns (sys l))) as [[p r]|] eqn:En; [|done].
    destruct (arrived (sys l)); simplify_eq. destruct Hw as [Ha Hn]. split; simpl; [done|].
    intros q r' [= <- <-]. by eapply Hn.
  - by eapply watched_deliver.
  - destruct (sync_notify (sys l)); [|done].
    destruct (pool_notify_one _ _ _ _); simplify_eq/=. by apply (watched_same (sys l)).
  - destruct (writers (sys l) !! i) as [[]|]; simplify_eq. by apply (watched_same (sys l)).
  - by eapply watched_run.
  - destruct (writers (sys l) !! i) as [[]|]; simplify_eq.
    destruct (pool_notify_one _ _ _ _); simplify_eq/=. by apply (watched_same (sys l)).
  - destruct (writers (sys l) !! i) as [[]|]; simplify_eq. by apply (watched_same (sys l)).
Qed.

(** A drained queue means that no client is left. *)
Lemma drained_no_clients s :
  inv cbs s → watched s → crashed s = None → drained s = true → active (conns s) = ∅.
Proof.
  intros [Hwf Hq _] [Ha _] Hc Hd%bool_decide_eq_true. rewrite (Hq Hc) in Hd.
  apply dom_empty_iff_L, elem_of_equiv_empty_L. intros p Hp.
  assert (∀ k t, tags (conns s) !! k = Some t → deliverable k s = false) as Hk.
  { intros k t E. apply Hd. by eapply elem_of_dom_2. }
  destruct (Ha p Hp) as [(k & E)%(wf_processing _ Hwf)|[k E]];
    pose proof (Hk k _ E) as Hf; unfold deliverable in Hf; rewrite E in Hf; [done|].
  destruct (next (conns s)) as [[q r]|] eqn:En; [|done].
  apply (wf_next _ Hwf) in En as [En _]. apply elem_of_dom in Hp as [? Hp].
  rewrite bool_decide_false in Hf by (intros ->; congruence). done.
Qed.

Record life_inv (l : lifetime) : Prop := {
  li_inv : inv cbs (sys l);
  li_watched : watched (sys l);
  li_returned : sync_returned l = true → active (conns (sys l)) = ∅;
  li_destroyed : owner l = Destroyed → sync_returned l = true
}.

Lemma life_inv_reachable n l :
  reachable (λ l, l = life_init n)
    (exec_step_ok (restrict as_documented life_exec) life_ok) l → life_inv l.
Proof.
  intros Hr. induction Hr as [l ->|l a l' Hr IH [Hok [Hd Hs]%restrict_inv]].
  { split; [apply inv_init| |done..]. split; simpl; set_solver. }
  destruct IH as [Hi Hw Hret Hdes]. destruct a as [b| | |].
  - simpl in Hok. apply life_step_sys in Hs as Hs'. destruct Hs' as [(b' & [= <-] & E & Hf & Ho)|E].
    + split; [by eapply stream_inv_exec|by eapply watched_exec|congruence|].
      intros Hx. rewrite Ho in Hx. unfold life_exec in Hs. by rewrite Hx in Hs.
    + unfold life_exec in Hs. destruct (owner l); try case_match; try done;
        destruct (exec _ _ _ _ _) as [s|] eqn:Es; simplify_eq/=;
        (split; [by eapply stream_inv_exec|by eapply watched_exec|done|done]).
  - simpl in Hs. destruct (owner l); try done. case_match; simplify_eq. by split.
  - simpl in Hs. destruct (owner l); try done. case_match eqn:Hg; simplify_eq.
    apply andb_prop in Hg as [[_ Hdr]%andb_prop Hc].
    split; simpl; [done..| |done]. intros _. apply drained_no_clients; try done.
    unfold crash_free in Hc. by destruct (crashed (sys l)).
  - simpl in Hs. destruct (owner l); try done. case_match; simplify_eq. by split.
Qed.

End Lifetime.
Arguments lifetime : clear implicits.
Arguments life_action : clear implicits.

(** ** Properties *)
Section ShutdownProperties.
Context {Request Response Status : Type}.
Context (ndebug : bool) (cbs : callbacks) (fresh_request : Request) (n : nat).
Implicit Types l : lifetime Request Response Status.

Abbreviation life_step := (exec_step_ok (life_exec ndebug cbs fresh_request) life_ok).
Abbreviation documented_step :=
  (exec_step_ok (restrict as_documented (life_exec ndebug cbs fresh_request)) life_ok).

(** C5: the destructor of a streaming handler returns. From the moment it waits
    for its thread, every run ends within two steps per outstanding operation
    and three more, whatever gRPC reports and in whichever order; and a run that
    has come to its end has destroyed the handler, unless
    [run_synchronization] has read the request of a deleted stream for the
    deletion callback. *)
Theorem stream_handler_joins l :
  reachable (λ l, l = life_init n) life_step l → owner l = Joining →
  ∀ ls l', execution life_step l ls l' →
    length ls ≤ 2 * size (queue (sys l)) + 3 ∧
    ((∀ a l'', ¬ life_step l' a l'') →
     owner l' = Destroyed ∨
     (crashed (sys l') = Some use_after_free ∧ deletion_callback_ cbs = true)).
Proof.
  intros Hr Ho ls l' He.
  destruct (life_execution_work _ _ _ _ _ _ He) as [Ho' Hw]; [by rewrite Ho|]. split.
  - unfold work at 2 in Hw. rewrite Ho in Hw. destruct (sync_notify _), (sync_returned l); lia.
  - intros Hstuck. assert (inv cbs (sys l')) as Hi.
    { eapply stream_reachable_inv, life_sys_reachable, reachable_execution; done. }
    destruct (owner l') eqn:E; [done| |by left]. right.
    destruct (crashed (sys l')) as [e|] eqn:Hc.
    + destruct (inv_crash _ _ Hi e Hc) as [-> ?]. done.
    + destruct (joining_progress ndebug cbs fresh_request l' E Hc) as (a & l'' & ? & ?).
      by destruct (Hstuck a l'').
Qed.


End ShutdownProperties.

(** *** A run: a client is connected and an update on its way when the handler
    is destroyed; the connection that waits for the next client is never
    reported. *)
Abbreviation life_demo_exec :=
  (life_exec (Response := N) (Status := unit) false both_callbacks 0%N).

Definition destroy_while_writing : list (life_action N N unit) :=
  (Sys <$> connect_and_write) ++ [Destructor].

Definition reports_and_join : list (life_action N N unit) :=
  [Sys (Deliver 2%N false); Sys (Deliver 5%N false); Sys (SyncNotify None); SyncExit; Join].

Definition life_demo (ls : list (life_action N N unit)) : lifetime N N unit :=
  default (life_init 1) (run life_demo_exec (life_init 1) ls).

Lemma life_demo_ok ls :
  Forall action_ok ls → Forall life_ok ((Sys <$> ls) : list (life_action N N unit)).
Proof. intros H. apply Forall_fmap. by eapply Forall_impl. Qed.

Lemma life_demo_joining_reachable :
  reachable (λ l, l = life_init 1) (exec_step_ok life_demo_exec life_ok)
    (life_demo destroy_while_writing).
Proof.
  eapply (run_reachable_ok _ _ _ (life_init 1) destroy_while_writing).
  - done.
  - apply Forall_app. split; [apply life_demo_ok; solve_demo_ok|by repeat constructor].
  - vm_compute. done.
Qed.

Lemma stream_handler_joins_witness :
  owner (life_demo destroy_while_writing) = Joining ∧
  length reports_and_join ≤ 2 * size (queue (sys (life_demo destroy_while_writing))) + 3.
Proof.
  split; [vm_compute; done|].
  eapply (stream_handler_joins false both_callbacks 0%N 1 (life_demo destroy_while_writing)).
  - apply life_demo_joining_reachable.
  - vm_compute. done.
  - repeat (eapply execution_cons; [split; [done|vm_compute; done]|]). apply execution_nil.
Defined.


End StreamRpcShutdown.
