(* ===== verification/RpcHandler.v ===== *)
(** * The interface of the rpc handlers

    [src/include/grpcw/server/detail/async_rpc_handler_interface.hpp]: what the
    server relies on is a single virtual method. Its contract is the class
    [AsyncRpcHandlerInterface]; the handler of streams implements it here, the
    handler of simple calls in [NonStreamRpcHandler.v], and the server of
    [GrpcAsyncServer.v] is verified against the class. *)
From S2P Require Import Prelude Tag StreamRpcHandler.

(** Every call of [activate_next] asks gRPC for exactly one more call of the rpc,
    to be received by a connection that is new, and the server can go on. [E] is
    what the handler takes from its surroundings: fresh memory and the answers
    of gRPC, which have to satisfy [handler_env_ok]. *)
Class AsyncRpcHandlerInterface (H E : Type) := {
  handler_ok : H → Prop;
  handler_env_ok : H → E → Prop;
  handler_next : H → option addr;
  handler_activate_next : H → E → outcome (H * list addr);
  handler_activate_next_spec h e :
    handler_ok h → handler_env_ok h e →
    ∃ h' p, handler_activate_next h e = Ret (h', [p]) ∧ handler_ok h' ∧
      handler_next h' = Some p ∧ handler_next h ≠ Some p ∧ p ≠ nullptr
}.

Module StreamRpc.
Import StreamRpcHandler.

Section Instance.
Context {Request Response Status : Type}.
Context (cbs : callbacks).

(** The connections an activation asks gRPC to fill. *)
Definition requested (out : list (effect Request Response Status))
    : list addr :=
  omap (λ e, match e with RequestCall p => Some p | _ => None end) out.

(** [StreamRpcHandler] implements the interface. *)
#[refine, export]
Instance stream_handler
    : AsyncRpcHandlerInterface (Connections Request) (Request * (gset addr → addr)) := {|
  handler_ok := wf;
  handler_env_ok _ e := allocator_ok e.2;
  handler_next c := fst <$> next c;
  handler_activate_next c e :=
    let '(c', out) := activate_next (Response := Response) (Status := Status) cbs e.1 e.2 c in
    Ret (c', requested out)
|}.
Proof.
  intros c [fresh_request alloc] Hwf Halloc. simpl in *.
  destruct (activate_next (Response := Response) (Status := Status) cbs fresh_request alloc c)
    as [c' out] eqn:E.
  pose proof (wf_activate_next alloc Halloc cbs fresh_request c c' out Hwf E) as Hwf'.
  destruct (activate_next_spec (Response := Response) (Status := Status) alloc Halloc cbs
    fresh_request c Hwf) as (p & k & out1 & Hp & Hp0 & Hk & Hn & Hout & E1).
  rewrite E1 in E. injection E as <- <-. do 2 eexists. split_and!; [|done|done| |done].
  - unfold requested. rewrite omap_app. simpl. rewrite Hout.
    by destruct (next c) as [[key r]|], (connection_callback_ cbs).
  - destruct (next c) as [[q r]|]; [|done]. simpl. intros [= ->]. by eapply Hn.
Defined.

End Instance.
End StreamRpc.

(** ** Handlers of two kinds behind one interface

    The server owns its handlers as [std::unique_ptr<AsyncRpcHandlerInterface>]:
    which [activate_next] runs is decided by the object. *)
Module AnyRpc.
Section Instance.
Context {H1 E1 H2 E2 : Type}.
Context `{!AsyncRpcHandlerInterface H1 E1} `{!AsyncRpcHandlerInterface H2 E2}.

Definition activate_next (h : H1 + H2) (e : E1 + E2) : outcome ((H1 + H2) * list addr) :=
  match h, e with
  | inl h, inl e => '(h', l) ← handler_activate_next h e; Ret (inl h', l)
  | inr h, inr e => '(h', l) ← handler_activate_next h e; Ret (inr h', l)
  | _, _ => Fault (invalid_argument "surroundings of another kind of handler")
  end.

#[refine, export]
Instance any_handler : AsyncRpcHandlerInterface (H1 + H2) (E1 + E2) := {|
  handler_ok h := match h with inl h => handler_ok h | inr h => handler_ok h end;
  handler_env_ok h e :=
    match h, e with
    | inl h, inl e => handler_env_ok h e
    | inr h, inr e => handler_env_ok h e
    | _, _ => False
    end;
  handler_next h := match h with inl h => handler_next h | inr h => handler_next h end;
  handler_activate_next := activate_next
|}.
Proof.
  intros [h|h] [e|e] Hok He; try done;
    destruct (handler_activate_next_spec h e Hok He) as (h' & p & E & ? & ? & ? & ?);
    simpl; rewrite E; by do 2 eexists.
Defined.

(** The kind of a handler never changes. *)
Lemma activate_next_kind (h : H1) e h' l :
  activate_next (inl h) e = Ret (h', l) → ∃ c, h' = inl c.
Proof.
  destruct e as [e|e]; simpl; [|done].
  destruct (handler_activate_next h e) as [[c ?]|]; simpl; [|done]. intros [= <- <-]. eauto.
Qed.

End Instance.
End AnyRpc.
