(* ===== verification/NonStreamRpcHandler.v ===== *)
(** * The handler of a simple rpc

    [src/include/grpcw/server/detail/non_stream_rpc_handler.hpp]: one
    connection at a time; the activation that answers a request also asks for
    the next one. *)
From S2P Require Import Prelude RpcHandler.

Module NonStreamRpcHandler.
Section Handler.
Context {Request Response Status CallbackState : Type}.

(** [callback_(request, &response)], which may keep a state of its own. *)
Context (callback_ : CallbackState → Request → Response → Status * Response * CallbackState).

(** Default-constructed messages. *)
Context (new_request : Request) (new_response : Response).

(** The members that change. A [NonStreamRpcConnection] is known to gRPC by its
    address; gRPC writes the request into it. *)
Record handler : Type := mkHandler {
  connection_ : option (addr * Request);
  callback_state : CallbackState
}.

Inductive effect : Type :=
| Finish (connection : addr) (response : Response) (status : Status) (tag : addr)
| RequestCall (connection : addr).

(** What an activation gets from outside: the address of the new connection,
    the address of the local [response], and the result of [queue_.Next]. *)
Record surroundings : Type := mkSurroundings {
  connection_address : addr;
  response_address : addr;
  next_event : option (addr * bool)
}.

(** The three assertions on the result of [queue_.Next], which are compiled
    out with [NDEBUG]. *)
Definition check_finished (ndebug : bool) (e : surroundings) : outcome () :=
  if ndebug then Ret ()
  else match next_event e with
       | Some (recv_tag, call_ok) =>
           if negb call_ok then Fault assert_failed
           else if decide (recv_tag = response_address e) then Ret ()
           else Fault assert_failed
       | None => Fault assert_failed
       end.

Definition activate_next (ndebug : bool) (h : handler) (e : surroundings)
    : outcome (handler * list effect) :=
  '(cs, out) ← (match connection_ h with
                | Some (p, request) =>
                    let '(status, response, cs) := callback_ (callback_state h) request new_response in
                    _ ← check_finished ndebug e;
                    Ret (cs, [Finish p response status (response_address e)])
                | None => Ret (callback_state h, [])
                end);
  Ret (mkHandler (Some (connection_address e, new_request)) cs,
       out ++ [RequestCall (connection_address e)]).

(** The loop of the destructor over the events that are left in [queue_]. *)
Fixpoint drain (ndebug : bool) (call_oks : list bool) : outcome () :=
  match call_oks with
  | [] => Ret ()
  | call_ok :: call_oks =>
      if negb ndebug && call_ok then Fault assert_failed else drain ndebug call_oks
  end.

(** gRPC receives a request for the waiting connection. *)
Definition receive (request : Request) (h : handler) : handler :=
  mkHandler ((λ p, (p.1, request)) <$> connection_ h) (callback_state h).

(** gRPC reports that the response has been sent, and memory is fresh. *)
Definition sent (h : handler) (e : surroundings) : Prop :=
  next_event e = Some (response_address e, true) ∧ connection_address e ≠ nullptr ∧
  (fst <$> connection_ h) ≠ Some (connection_address e).

Lemma activate_next_sent ndebug h e :
  sent h e →
  activate_next ndebug h e =
    Ret (match connection_ h with
         | Some (p, request) =>
             let '(status, response, cs) := callback_ (callback_state h) request new_response in
             (mkHandler (Some (connection_address e, new_request)) cs,
              [Finish p response status (response_address e); RequestCall (connection_address e)])
         | None =>
             (mkHandler (Some (connection_address e, new_request)) (callback_state h),
              [RequestCall (connection_address e)])
         end).
Proof.
  intros (He & _ & _). unfold activate_next. destruct (connection_ h) as [[p r]|]; [|done].
  destruct (callback_ _ r new_response) as [[status response] cs]. unfold check_finished.
  rewrite He. simpl. rewrite decide_True by done. by destruct ndebug.
Qed.

Definition requested (out : list effect) : list addr :=
  omap (λ x, match x with RequestCall p => Some p | _ => None end) out.

(** The handler implements the interface of the server. *)
#[refine]
Definition non_stream_handler (ndebug : bool) : AsyncRpcHandlerInterface handler surroundings := {|
  handler_ok _ := True;
  handler_env_ok := sent;
  handler_next h := fst <$> connection_ h;
  handler_activate_next h e :=
    '(h', out) ← activate_next ndebug h e; Ret (h', requested out)
|}.
Proof.
  intros h e _ He. rewrite activate_next_sent by done. destruct He as (_ & ? & ?).
  destruct (connection_ h) as [[p r]|]; simpl; [|by eauto 10].
  destruct (callback_ _ r new_response) as [[status response] cs]. simpl. by eauto 10.
Defined.

(** ** The answers *)

(** The requests of the clients, one after the other. *)
Fixpoint serve (ndebug : bool) (h : handler) (calls : list (Request * surroundings))
    : outcome (handler * list effect) :=
  match calls with
  | [] => Ret (h, [])
  | (request, e) :: calls =>
      '(h, out) ← activate_next ndebug (receive request h) e;
      '(h, outs) ← serve ndebug h calls;
      Ret (h, out ++ outs)
  end.

Definition answers (out : list effect) : list (Response * Status) :=
  omap (λ x, match x with Finish _ response status _ => Some (response, status) | _ => None end) out.

(** What the callback computes for the requests in this order. *)
Fixpoint callback_results (cs : CallbackState) (requests : list Request) : list (Response * Status) :=
  match requests with
  | [] => []
  | request :: requests =>
      let '(status, response, cs) := callback_ cs request new_response in
      (response, status) :: callback_results cs requests
  end.

(** Every response is reported as sent, and the memory of a new connection is
    not that of the connection it replaces. *)
Fixpoint all_sent (p : addr) (calls : list (Request * surroundings)) : Prop :=
  match calls with
  | [] => True
  | (_, e) :: calls =>
      next_event e = Some (response_address e, true) ∧
      connection_address e ≠ nullptr ∧ connection_address e ≠ p ∧
      all_sent (connection_address e) calls
  end.

Lemma serve_answers ndebug h p r calls :
  connection_ h = Some (p, r) → all_sent p calls →
  ∃ h' out, serve ndebug h calls = Ret (h', out) ∧
    answers out = callback_results (callback_state h) calls.*1 ∧
    length (requested out) = length calls ∧ is_Some (connection_ h').
Proof.
  revert h p r. induction calls as [|[request e] calls IH]; intros h p r Hc Hs; simpl.
  { exists h, []. by rewrite Hc. }
  destruct Hs as (He & Hn & Hp & Hs).
  rewrite activate_next_sent by (split_and!; [done..|]; simpl; rewrite Hc; simpl; congruence).
  simpl. rewrite Hc. simpl.
  destruct (callback_ (callback_state h) request new_response) as [[status response] cs]. simpl.
  destruct (IH (mkHandler (Some (connection_address e, new_request)) cs)
    (connection_address e) new_request) as (h' & out & -> & Ha & Hl & ?); [done..|].
  simpl. do 2 eexists. split_and!; [done|..|done]; simpl; by rewrite ?Ha, ?Hl.
Qed.


(** A call that is cancelled before its response is sent makes gRPC report
    the response with [call_ok = false]: with assertions on the server stops,
    and without them the handler goes on as if the response had been sent. *)
Theorem cancelled_call_fails_assertion h e p request :
  connection_ h = Some (p, request) → next_event e = Some (response_address e, false) →
  activate_next false h e = Fault assert_failed ∧
  ∃ h' out, activate_next true h e = Ret (h', out) ∧ length (answers out) = 1 ∧
    requested out = [connection_address e].
Proof.
  intros Hc He. unfold activate_next. rewrite Hc.
  destruct (callback_ (callback_state h) request new_response) as [[status response] cs].
  unfold check_finished. rewrite He. split; [done|]. simpl. by do 2 eexists.
Qed.

End Handler.

(** *** Witnesses: a callback that counts the calls and doubles the request. *)
Definition doubling (n : nat) (request response : nat) : bool * nat * nat := (true, 2 * request, S n).


Lemma cancelled_call_fails_assertion_witness :
  activate_next doubling 0 0 false (mkHandler (Some (1%N, 5)) 0) (mkSurroundings 2 9 (Some (9, false)))%N
  = Fault assert_failed.
Proof.
  apply (cancelled_call_fails_assertion doubling 0 0 (mkHandler (Some (1%N, 5)) 0)
    (mkSurroundings 2 9 (Some (9, false)))%N 1%N 5); reflexivity.
Defined.

End NonStreamRpcHandler.
