(* ===== verification/GrpcAsyncServer.v ===== *)
(** * The asynchronous server

    [src/include/grpcw/server/grpc_async_server.hpp]: the map of the rpc
    handlers, the thread that serves the completion queue, registration and
    shutdown. The handlers are known through their interface only. *)
From S2P Require Import Prelude RpcHandler NonStreamRpcHandler.

Module GrpcAsyncServer.
Section Server.
Context {Handler E : Type} `{!AsyncRpcHandlerInterface Handler E}.

(** [run_thread_]: inside [server_queue_->Next], inside [activate_next] of the
    handler [key] before it calls gRPC, or returned. *)
Inductive run_pc : Type :=
| Polling
| Activating (key : addr)
| Returned.

#[global] Instance run_pc_eq_dec : EqDecision run_pc.
Proof. solve_decision. Defined.

(** What the owner waits for in [server_->Shutdown]. *)
Inductive shutdown_kind : Type :=
| ShutdownAndWait
| ForceShutdownIn
| Destructor.

Inductive owner_pc : Type :=
| Ready
| Registering (key : addr)
| ShuttingDown (kind : shutdown_kind)
| BeforeQueueShutdown
| Joining
| Destroyed.

Record state : Type := mkState {
  rpc_handlers_ : gmap addr Handler;
  requested : list addr; (* gRPC: calls that were asked for under these tags *)
  events : list (addr * bool); (* [server_queue_] *)
  open_calls : nat; (* gRPC: calls that have arrived and are not over *)
  server_shutdown : bool;
  queue_shutdown : bool;
  run_thread : run_pc;
  owner : owner_pc;
  crashed : option fault
}.

(** The constructor. *)
Definition init : state := mkState ∅ [] [] 0 false false Polling Ready None.

Definition crash (e : fault) (s : state) : state :=
  mkState (rpc_handlers_ s) (requested s) (events s) (open_calls s) (server_shutdown s)
    (queue_shutdown s) (run_thread s) (owner s) (Some e).
Definition with_threads (r : run_pc) (o : owner_pc) (s : state) : state :=
  mkState (rpc_handlers_ s) (requested s) (events s) (open_calls s) (server_shutdown s)
    (queue_shutdown s) r o (crashed s).

(** [handler->activate_next()] of the handler [key]: gRPC is asked for calls
    under the tag [key], which must not happen on a queue that is shut down. *)
Definition activate (key : addr) (e : E) (s : state) : state :=
  match rpc_handlers_ s !! key with
  | None => crash use_after_free s
  | Some h =>
      match handler_activate_next h e with
      | Fault f => crash f s
      | Ret (h', connections) =>
          if queue_shutdown s then crash queue_shut_down s
          else mkState (<[key := h']> (rpc_handlers_ s))
                 (requested s ++ ((λ _, key) <$> connections)) (events s) (open_calls s)
                 (server_shutdown s) (queue_shutdown s) (run_thread s) (owner s) (crashed s)
      end
  end.

Inductive action : Type :=
(* the owner *)
| Register (key : addr) (h : Handler)
| RegisterActivate (e : E)
| Shutdown (kind : shutdown_kind)
| ShutdownReturns
| QueueShutdown
| Join
(* [run_thread_] *)
| Take (i : nat)
| ActivateNext (e : E)
| RunExit
(* gRPC *)
| Arrive (i : nat)
| Reject (i : nat)
| EndCall.

(** [register_async] and [register_async_stream] up to [use_safely]: a new
    handler under its own address. *)
Definition exec_register (key : addr) (h : Handler) (s : state) : option state :=
  match owner s with
  | Ready =>
      if bool_decide (rpc_handlers_ s !! key = None) then
        Some (with_threads (run_thread s) (Registering key)
          (mkState (emplace key h (rpc_handlers_ s)) (requested s) (events s) (open_calls s)
             (server_shutdown s) (queue_shutdown s) (run_thread s) (owner s) (crashed s)))
      else None
  | _ => None
  end.

(** [tag->activate_next()] in both of them. *)
Definition exec_register_activate (e : E) (s : state) : option state :=
  match owner s with
  | Registering key => Some (activate key e (with_threads (run_thread s) Ready s))
  | _ => None
  end.

(** [shutdown_and_wait], [force_shutdown_in] and the start of the destructor:
    new calls are rejected, and the caller waits until all calls are over;
    [force_shutdown_in] ends them. *)
Definition exec_shutdown (kind : shutdown_kind) (s : state) : option state :=
  match owner s with
  | Ready =>
      Some (mkState (rpc_handlers_ s) (requested s) (events s) (open_calls s) true
              (queue_shutdown s) (run_thread s) (ShuttingDown kind) (crashed s))
  | _ => None
  end.

Definition exec_shutdown_returns (s : state) : option state :=
  match owner s with
  | ShuttingDown ForceShutdownIn =>
      Some (mkState (rpc_handlers_ s) (requested s) (events s) 0 (server_shutdown s)
              (queue_shutdown s) (run_thread s) Ready (crashed s))
  | ShuttingDown ShutdownAndWait =>
      if bool_decide (open_calls s = 0) then Some (with_threads (run_thread s) Ready s) else None
  | ShuttingDown Destructor =>
      if bool_decide (open_calls s = 0)
      then Some (with_threads (run_thread s) BeforeQueueShutdown s) else None
  | _ => None
  end.

(** The rest of the destructor: [server_queue_->Shutdown()] and the join, after
    which the members are destroyed. *)
Definition exec_queue_shutdown (s : state) : option state :=
  match owner s with
  | BeforeQueueShutdown =>
      Some (mkState (rpc_handlers_ s) (requested s) (events s) (open_calls s) (server_shutdown s)
              true (run_thread s) Joining (crashed s))
  | _ => None
  end.

Definition exec_join (s : state) : option state :=
  match owner s, run_thread s with
  | Joining, Returned =>
      Some (mkState ∅ (requested s) (events s) (open_calls s) (server_shutdown s)
              (queue_shutdown s) Returned Destroyed (crashed s))
  | _, _ => None
  end.

(** [server_queue_->Next] returns an event, and the loop finds the handler:
    [at] throws if there is none, and nothing catches it. *)
Definition exec_take (i : nat) (s : state) : option state :=
  match run_thread s, events s !! i with
  | Polling, Some (tag, call_ok) =>
      let s := mkState (rpc_handlers_ s) (requested s) (delete i (events s)) (open_calls s)
                 (server_shutdown s) (queue_shutdown s) (run_thread s) (owner s) (crashed s) in
      if (call_ok : bool) then
        match rpc_handlers_ s !! tag with
        | Some _ => Some (with_threads (Activating tag) (owner s) s)
        | None => Some (crash out_of_range s)
        end
      else Some (mkState (delete tag (rpc_handlers_ s)) (requested s) (events s) (open_calls s)
                   (server_shutdown s) (queue_shutdown s) (run_thread s) (owner s) (crashed s))
  | _, _ => None
  end.

Definition exec_activate_next (e : E) (s : state) : option state :=
  match run_thread s with
  | Activating key => Some (activate key e (with_threads Polling (owner s) s))
  | _ => None
  end.

(** [Next] returns false once the queue is shut down and every call that was
    asked for has been reported. *)
Definition exec_run_exit (s : state) : option state :=
  match run_thread s, requested s, events s with
  | Polling, [], [] => if queue_shutdown s then Some (with_threads Returned (owner s) s) else None
  | _, _, _ => None
  end.

(** A client calls an rpc, or the call that was asked for is given up because
    the server has been shut down. *)
Definition exec_report (i : nat) (call_ok : bool) (s : state) : option state :=
  match requested s !! i with
  | Some tag =>
      Some (mkState (rpc_handlers_ s) (delete i (requested s)) (events s ++ [(tag, call_ok)])
              (if call_ok then S (open_calls s) else open_calls s) (server_shutdown s)
              (queue_shutdown s) (run_thread s) (owner s) (crashed s))
  | None => None
  end.

Definition exec_end_call (s : state) : option state :=
  match open_calls s with
  | S n => Some (mkState (rpc_handlers_ s) (requested s) (events s) n (server_shutdown s)
                   (queue_shutdown s) (run_thread s) (owner s) (crashed s))
  | 0 => None
  end.

Definition exec_live (s : state) (a : action) : option state :=
  match a with
  | Register key h => exec_register key h s
  | RegisterActivate e => exec_register_activate e s
  | Shutdown kind => exec_shutdown kind s
  | ShutdownReturns => exec_shutdown_returns s
  | QueueShutdown => exec_queue_shutdown s
  | Join => exec_join s
  | Take i => exec_take i s
  | ActivateNext e => exec_activate_next e s
  | RunExit => exec_run_exit s
  | Arrive i => if server_shutdown s then None else exec_report i true s
  | Reject i => if server_shutdown s then exec_report i false s else None
  | EndCall => exec_end_call s
  end.

Definition exec (s : state) (a : action) : option state :=
  match crashed s with Some _ => None | None => exec_live s a end.

(** What the handlers rely on: a new handler is well-formed, and an activation
    finds what its handler needs. *)
Definition activation_env (key : addr) (e : E) (s : state) : Prop :=
  match rpc_handlers_ s !! key with Some h => handler_env_ok h e | None => True end.

Definition env (s : state) (a : action) : Prop :=
  match a with
  | Register _ h => handler_ok h
  | RegisterActivate e =>
      match owner s with Registering key => activation_env key e s | _ => True end
  | ActivateNext e =>
      match run_thread s with Activating key => activation_env key e s | _ => True end
  | _ => True
  end.

Abbreviation reach := (reachable (λ s, s = init) (env_step env exec)).

(** ** Handlers and outstanding calls correspond one to one *)

(** The tags that gRPC, the queue or a thread still holds. *)
Definition pc_keys (r : run_pc) : list addr :=
  match r with Activating key => [key] | _ => [] end.
Definition owner_keys (o : owner_pc) : list addr :=
  match o with Registering key => [key] | _ => [] end.
Definition keys (s : state) : list addr :=
  requested s ++ (events s).*1 ++ pc_keys (run_thread s) ++ owner_keys (owner s).

Definition keys_ok (ks : list addr) (m : gmap addr Handler) : Prop :=
  NoDup ks ∧ ∀ k, k ∈ ks ↔ is_Some (m !! k).

Lemma keys_ok_perm ks ks' m : ks ≡ₚ ks' → keys_ok ks m → keys_ok ks' m.
Proof. intros Hp [Hn Hk]. split; [by rewrite <-Hp|]. intros k. by rewrite <-Hp. Qed.

Lemma keys_ok_update ks k h m : k ∈ ks → keys_ok ks m → keys_ok ks (<[k := h]> m).
Proof.
  intros Hin [Hn Hk]. split; [done|]. intros k'. destruct (decide (k = k')) as [<-|].
  - rewrite lookup_insert_eq. naive_solver.
  - by rewrite lookup_insert_ne.
Qed.

Lemma keys_ok_add ks k h m : m !! k = None → keys_ok ks m → keys_ok (k :: ks) (<[k := h]> m).
Proof.
  intros Hm [Hn Hk]. split.
  - constructor; [|done]. rewrite Hk, Hm. by intros [? ?].
  - intros k'. rewrite elem_of_cons. destruct (decide (k = k')) as [<-|].
    + rewrite lookup_insert_eq. naive_solver.
    + rewrite lookup_insert_ne by done. naive_solver.
Qed.

Lemma keys_ok_remove ks k m : keys_ok (k :: ks) m → keys_ok ks (delete k m).
Proof.
  intros [[Hk Hn]%NoDup_cons Hks]. split; [done|]. intros k'.
  destruct (decide (k = k')) as [<-|].
  - rewrite lookup_delete_eq. split; [done|by intros [? ?]].
  - rewrite lookup_delete_ne by done. rewrite <-Hks, elem_of_cons. naive_solver.
Qed.

Definition closing (o : owner_pc) : bool :=
  match o with Joining | Destroyed => true | _ => false end.

Record inv (s : state) : Prop := mkInv {
  inv_keys : keys_ok (keys s) (rpc_handlers_ s);
  inv_handlers : map_Forall (λ _, handler_ok) (rpc_handlers_ s);
  inv_rejected k : (k, false) ∈ events s → server_shutdown s = true;
  inv_closing : queue_shutdown s = closing (owner s);
  inv_shutdown : (queue_shutdown s = true ∨ ∃ kind, owner s = ShuttingDown kind) ∨
    owner s = BeforeQueueShutdown → server_shutdown s = true;
  inv_returned : run_thread s = Returned →
    queue_shutdown s = true ∧ requested s = [] ∧ events s = []
}.

Lemma server_init_inv : inv init.
Proof.
  constructor; try done.
  - split; [constructor|]. intros k. simpl. split; [by intros ?%elem_of_nil|by intros [? ?]].
  - intros k ?%elem_of_nil. done.
  - simpl. naive_solver.
Qed.

(** An activation of a handler whose tag nobody else holds. *)
Lemma activate_ok key e s :
  keys_ok (key :: keys s) (rpc_handlers_ s) → map_Forall (λ _, handler_ok) (rpc_handlers_ s) →
  activation_env key e s →
  (queue_shutdown s = true ∧ activate key e s = crash queue_shut_down s) ∨
  ∃ h', queue_shutdown s = false ∧ handler_ok h' ∧
    activate key e s =
      mkState (<[key := h']> (rpc_handlers_ s)) (requested s ++ [key]) (events s) (open_calls s)
        (server_shutdown s) (queue_shutdown s) (run_thread s) (owner s) (crashed s).
Proof.
  intros [_ Hk] Hall Henv. destruct (proj1 (Hk key)) as [h Hh]; [by left|].
  unfold activation_env in Henv. rewrite Hh in Henv.
  destruct (handler_activate_next_spec h e (Hall _ _ Hh) Henv) as (h' & p & E1 & Hok & _).
  unfold activate. rewrite Hh, E1. destruct (queue_shutdown s); [by left|right].
  by exists h'.
Qed.

Lemma inv_activate key e s s0 :
  inv s0 → s = with_threads (run_thread s) (owner s) s0 → keys s0 ≡ₚ key :: keys s →
  closing (owner s) = closing (owner s0) → run_thread s ≠ Returned →
  (server_shutdown s = false → ∀ kind, owner s ≠ ShuttingDown kind) →
  owner s ≠ BeforeQueueShutdown ∨ server_shutdown s = true →
  activation_env key e s → crashed s = None →
  (crashed (activate key e s) = Some queue_shut_down ∧ queue_shutdown s = true) ∨
  inv (activate key e s) ∧ crashed (activate key e s) = None.
Proof.
  intros [Hkeys Hok Hrej Hcl Hsh Hret] Es Hp Hc Hr Ho1 Ho2 Henv Hcr.
  assert (rpc_handlers_ s = rpc_handlers_ s0) as Ehs by by rewrite Es.
  assert (events s = events s0 ∧ server_shutdown s = server_shutdown s0 ∧
          queue_shutdown s = queue_shutdown s0) as (Eev & Ess & Eqs) by by rewrite Es.
  destruct (activate_ok key e s) as [[Hq ->]|(h' & Hq & Hh' & ->)]; try done.
  - rewrite Ehs. by eapply keys_ok_perm.
  - by rewrite Ehs.
  - by left.
  - right. split; [|done]. constructor; simpl.
    + apply keys_ok_update; [unfold keys; simpl; set_solver|].
      rewrite Ehs. eapply keys_ok_perm; [|done]. rewrite Hp. unfold keys. simpl.
      rewrite <-app_assoc. simpl. by rewrite <-Permutation_middle.
    + apply map_Forall_insert_2; [done|]. by rewrite Ehs.
    + rewrite Eev, Ess. done.
    + congruence.
    + rewrite Hq. intros [[|[kind Hk]]|Hk]; [done| |].
      * destruct (server_shutdown s) eqn:E1; [done|]. by destruct (Ho1 eq_refl kind).
      * by destruct Ho2.
    + done.
Qed.

(** A step that keeps the handlers and does not lose a tag. *)
Lemma inv_same s s' :
  inv s → rpc_handlers_ s' = rpc_handlers_ s → keys s' ≡ₚ keys s →
  queue_shutdown s' = closing (owner s') →
  ((queue_shutdown s' = true ∨ ∃ kind, owner s' = ShuttingDown kind) ∨
    owner s' = BeforeQueueShutdown → server_shutdown s' = true) →
  (server_shutdown s = true → server_shutdown s' = true) →
  (∀ k, (k, false) ∈ events s' → (k, false) ∈ events s ∨ server_shutdown s' = true) →
  (run_thread s' = Returned → queue_shutdown s' = true ∧ requested s' = [] ∧ events s' = []) →
  inv s'.
Proof.
  intros [Hk Hh Hr Hc Hs Ht] E1 E2 H1 H2 H3 H4 H5. constructor; try done.
  - rewrite E1. by eapply keys_ok_perm.
  - by rewrite E1.
  - intros k Hin. destruct (H4 k Hin); [|done]. eauto.
Qed.

Lemma exec_owner_inv a s s' :
  inv s → env s a → exec_live s a = Some s' → crashed s = None →
  match a with Register _ _ | Shutdown _ | ShutdownReturns | QueueShutdown | Join => True
             | _ => False end →
  inv s' ∧ crashed s' = None.
Proof.
  intros Hi He H Hcr Ha. pose proof Hi as [Hk Hh Hr Hc Hs Ht].
  destruct a as [key h| |kind| | | | | | | | |]; try done; simpl in H.
  - unfold exec_register in H. destruct (owner s) eqn:Eo; try done.
    destruct (bool_decide_reflect (rpc_handlers_ s !! key = None)) as [Hf|]; [|done].
    injection H as <-. split; [|done]. rewrite emplace_fresh by done.
    constructor; unfold with_threads; simpl; try done.
    + eapply keys_ok_perm; [|apply (keys_ok_add (keys s) key h _ Hf Hk)]. unfold keys. simpl. rewrite Eo.
      simpl. solve_Permutation.
    + apply map_Forall_insert_2; [|done]. apply He.
    + intros [[Hq|[kind Hk']]|]; [by rewrite Hc in Hq|done..].
  - unfold exec_shutdown in H. destruct (owner s) eqn:Eo; try done. injection H as <-.
    split; [|done]. apply (inv_same s); simpl; auto; try done.
    unfold keys. simpl. by rewrite Eo.
  - unfold exec_shutdown_returns in H. destruct (owner s) as [| |kind| | |] eqn:Eo; try done.
    assert (server_shutdown s = true) as Hss by naive_solver.
    destruct kind; [case_bool_decide; [|done]| |case_bool_decide; [|done]];
      injection H as <-; (split; [|done]); apply (inv_same s); simpl; auto;
      unfold keys; simpl; by rewrite Eo.
  - unfold exec_queue_shutdown in H. destruct (owner s) eqn:Eo; try done. injection H as <-.
    assert (server_shutdown s = true) as Hss by naive_solver.
    split; [|done]. apply (inv_same s); simpl; auto.
    + unfold keys. simpl. by rewrite Eo.
    + intros Hret. destruct (Ht Hret). done.
  - unfold exec_join in H. destruct (owner s) eqn:Eo; try done.
    destruct (run_thread s) eqn:Er; try done. injection H as <-.
    assert (server_shutdown s = true) as Hss by naive_solver.
    destruct (Ht eq_refl) as (Hq & Hreq & Hev). split; [|done].
    constructor; simpl; try done. unfold keys. simpl. rewrite Hreq, Hev. simpl.
    split; [constructor|]. intros k. split; [by intros ?%elem_of_nil|by intros [? ?]].
Qed.

Lemma exec_take_inv i s s' :
  inv s → crashed s = None → exec_take i s = Some s' → inv s' ∧ crashed s' = None.
Proof.
  intros Hi Hcr H. pose proof Hi as [Hk Hh Hr Hc Hs Ht]. unfold exec_take in H.
  destruct (run_thread s) eqn:Er; try done.
  destruct (events s !! i) as [[tag ok]|] eqn:Ei; [|done].
  pose proof (delete_Permutation _ _ _ Ei) as Hp.
  assert (keys s ≡ₚ tag :: requested s ++ (delete i (events s)).*1 ++ owner_keys (owner s)) as Hkp.
  { unfold keys. rewrite Er, (fmap_Permutation fst _ _ Hp). simpl. solve_Permutation. }
  assert (∀ k ok', (k, ok') ∈ delete i (events s) → (k, ok') ∈ events s) as Hsub.
  { intros k ok' Hin. eapply elem_of_Permutation_proper; [exact Hp|]. by right. }
  pose proof (keys_ok_perm _ _ _ Hkp Hk) as Hk'.
  destruct ok; simpl in H.
  - destruct (proj2 Hk' tag) as [[h Hh'] _]; [by left|]. rewrite Hh' in H.
    injection H as <-. split; [|done]. apply (inv_same s); simpl; auto; try done.
    rewrite Hkp. unfold keys. simpl. solve_Permutation.
  - injection H as <-. split; [|done]. constructor; simpl; try done; eauto.
    + apply keys_ok_remove in Hk'. eapply keys_ok_perm; [|done]. unfold keys. simpl.
      solve_Permutation.
    + by apply map_Forall_delete.
Qed.

Lemma exec_report_inv i ok s s' :
  inv s → crashed s = None → (ok = false → server_shutdown s = true) →
  exec_report i ok s = Some s' → inv s' ∧ crashed s' = None.
Proof.
  intros Hi Hcr Hok H. pose proof Hi as [Hk Hh Hr Hc Hs Ht]. unfold exec_report in H.
  destruct (requested s !! i) as [tag|] eqn:Ei; [|done]. injection H as <-. split; [|done].
  apply (inv_same s); simpl; auto.
  - unfold keys. simpl. rewrite fmap_app. simpl.
    rewrite (delete_Permutation _ _ _ Ei) at 2. solve_Permutation.
  - intros k [?|Hin%list_elem_of_singleton]%elem_of_app; [by left|]. injection Hin as <- Hin. auto.
  - intros Hret. destruct (Ht Hret) as (_ & Hreq & _). by rewrite Hreq in Ei.
Qed.

Lemma server_step_inv s a s' :
  inv s → crashed s = None → env s a → exec_live s a = Some s' →
  (crashed s' = Some queue_shut_down ∧ queue_shutdown s = true) ∨ inv s' ∧ crashed s' = None.
Proof.
  intros Hi Hcr He H. pose proof Hi as [Hk Hh Hr Hc Hs Ht].
  destruct a as [key h|e|kind| | | |i|e| |i|i|]; simpl in H;
    try (right; by eapply exec_owner_inv).
  - unfold exec_register_activate in H. destruct (owner s) as [|key| | | |] eqn:Eo; try done.
    injection H as <-. simpl in He. rewrite Eo in He.
    assert (run_thread s ≠ Returned) as Hret.
    { intros Hret. destruct (Ht Hret) as (Hq & _). by rewrite Hc in Hq. }
    apply (inv_activate key e (with_threads (run_thread s) Ready s) s); try done; simpl.
    + unfold keys. simpl. rewrite Eo. simpl. solve_Permutation.
    + by rewrite Eo.
    + by left.
  - right. by eapply exec_take_inv.
  - unfold exec_activate_next in H. destruct (run_thread s) as [|key|] eqn:Er; try done.
    injection H as <-. simpl in He. rewrite Er in He.
    apply (inv_activate key e (with_threads Polling (owner s) s) s); try done; simpl.
    + unfold keys. simpl. rewrite Er. simpl. solve_Permutation.
    + intros Hss kind Hkind. rewrite Hs in Hss; [done|]. left. right. by exists kind.
    + destruct (server_shutdown s) eqn:Ess; [by right|left]. intros Ho.
      by discriminate Hs; right.
  - right. unfold exec_run_exit in H. destruct (run_thread s) eqn:Er; try done.
    destruct (requested s) eqn:Ereq; [|done]. destruct (events s) eqn:Eev; [|done].
    destruct (queue_shutdown s) eqn:Eq; [|done]. injection H as <-. split; [|done].
    apply (inv_same s); simpl; rewrite ?Ereq, ?Eev, ?Eq; auto; try congruence.
    unfold keys. simpl. by rewrite Er, Ereq, Eev.
  - right. destruct (server_shutdown s) eqn:Ess; [done|].
    by apply (exec_report_inv i true s s' Hi Hcr).
  - right. destruct (server_shutdown s) eqn:Ess; [|done].
    by apply (exec_report_inv i false s s' Hi Hcr).
  - right. unfold exec_end_call in H. destruct (open_calls s); [done|]. injection H as <-.
    split; [|done]. apply (inv_same s); auto.
Qed.

(** ** The end of the server *)
Definition rejected (s : state) : Prop := ∀ k ok, (k, ok) ∈ events s → ok = false.

(** Nothing is left that would ask gRPC for a call once the queue is shut down. *)
Definition quiet (s : state) : Prop :=
  queue_shutdown s = true → rejected s ∧ ∀ key, run_thread s ≠ Activating key.

(** The destructor shuts the queue down only after [run_thread_] is back in
    [Next] and has taken the calls that had arrived. *)
Definition quiet_env (s : state) (a : action) : Prop :=
  env s a ∧
  match a with QueueShutdown => rejected s ∧ ∀ key, run_thread s ≠ Activating key | _ => True end.

Lemma exec_live_frame a s s' :
  exec_live s a = Some s' → crashed s' = None → a ≠ QueueShutdown → queue_shutdown s' = queue_shutdown s.
Proof.
  assert (∀ key e s, queue_shutdown (activate key e s) = queue_shutdown s) as Hact.
  { intros key e s1. unfold activate. destruct (rpc_handlers_ s1 !! key); [|done].
    destruct (handler_activate_next _ e) as [[? ?]|]; [|done]. by destruct (queue_shutdown s1) eqn:E1. }
  intros H Hc Ha. destruct a; try done; simpl in H.
  - unfold exec_register in H. destruct (owner s); try done. case_bool_decide; [|done].
    by injection H as <-.
  - unfold exec_register_activate in H. destruct (owner s); try done. injection H as <-. by rewrite Hact.
  - unfold exec_shutdown in H. destruct (owner s); try done. by injection H as <-.
  - unfold exec_shutdown_returns in H.
    by destruct (owner s) as [| |[]| | |]; try done; repeat case_bool_decide; simplify_eq.
  - unfold exec_join in H. by destruct (owner s), (run_thread s); simplify_eq.
  - unfold exec_take in H. destruct (run_thread s), (events s !! i) as [[tag []]|]; simplify_eq/=; try done.
    by destruct (rpc_handlers_ s !! tag); simplify_eq.
  - unfold exec_activate_next in H. destruct (run_thread s); try done. injection H as <-. by rewrite Hact.
  - unfold exec_run_exit in H. destruct (run_thread s), (requested s), (events s); try done.
    by destruct (queue_shutdown s) eqn:E1; simplify_eq.
  - unfold exec_report in H. destruct (server_shutdown s); [done|].
    by destruct (requested s !! i); simplify_eq.
  - unfold exec_report in H. destruct (server_shutdown s); [|done].
    by destruct (requested s !! i); simplify_eq.
  - unfold exec_end_call in H. by destruct (open_calls s); simplify_eq.
Qed.

Lemma exec_live_quiet a s s' :
  inv s → quiet s → crashed s = None → env s a → a ≠ QueueShutdown → queue_shutdown s = true →
  exec_live s a = Some s' → rejected s' ∧ (∀ key, run_thread s' ≠ Activating key) ∧ crashed s' = None.
Proof.
  intros Hi Hqu Hcr He Ha Hq H. destruct (Hqu Hq) as [Hrej Hpc].
  pose proof Hi as [_ _ _ Hc Hs _]. rewrite Hq in Hc.
  destruct a; try done; simpl in H.
  - unfold exec_register in H. by destruct (owner s).
  - unfold exec_register_activate in H. by destruct (owner s).
  - unfold exec_shutdown in H. by destruct (owner s).
  - unfold exec_shutdown_returns in H. by destruct (owner s).
  - unfold exec_join in H. by destruct (owner s), (run_thread s); simplify_eq.
  - unfold exec_take in H. destruct (run_thread s) eqn:Er; try done.
    destruct (events s !! i) as [[tag ok]|] eqn:Ei; [|done].
    rewrite (Hrej tag ok) in H by (by eapply list_elem_of_lookup_2). injection H as <-.
    split_and!; [|done|done]. intros k ok' Hin. apply (Hrej k).
    eapply elem_of_Permutation_proper; [by apply delete_Permutation|]. by right.
  - unfold exec_activate_next in H. destruct (run_thread s) eqn:Er; try done. by destruct (Hpc key).
  - unfold exec_run_exit in H. destruct (run_thread s), (requested s), (events s) eqn:Eev; try done.
    rewrite Hq in H. injection H as <-. split_and!; [|done|done].
    intros k ok. simpl. rewrite Eev. by intros ?%elem_of_nil.
  - by rewrite Hs in H by auto.
  - rewrite Hs in H by auto. unfold exec_report in H.
    destruct (requested s !! i); simplify_eq. split_and!; [|done|done].
    intros k ok. simpl. intros [?|Hin%list_elem_of_singleton]%elem_of_app; [by eapply Hrej|by simplify_eq].
  - unfold exec_end_call in H. by destruct (open_calls s); simplify_eq.
Qed.

Lemma quiet_step s a s' :
  inv s → crashed s = None → quiet s → quiet_env s a → exec s a = Some s' →
  inv s' ∧ crashed s' = None ∧ quiet s'.
Proof.
  intros Hi Hcr Hq [He Ha] H. unfold exec in H. rewrite Hcr in H.
  destruct (server_step_inv s a s' Hi Hcr He H) as [[Hc' Hq']|[Hi' Hc']].
  - exfalso. assert (a ≠ QueueShutdown) as Hne.
    { intros ->. simpl in H. unfold exec_queue_shutdown in H.
      destruct (owner s); simplify_eq. simpl in Hc'. congruence. }
    destruct (exec_live_quiet a s s' Hi Hq Hcr He Hne Hq' H) as (_ & _ & ?). congruence.
  - split_and!; [done..|]. intros Hq'.
    assert (a = QueueShutdown ∨ a ≠ QueueShutdown) as [->|Hne]
      by (destruct a; (by left) || by right).
    + simpl in H. unfold exec_queue_shutdown in H. destruct (owner s); simplify_eq. done.
    + rewrite (exec_live_frame a s s' H Hc' Hne) in Hq'.
      by destruct (exec_live_quiet a s s' Hi Hq Hcr He Hne Hq' H) as (? & ? & _).
Qed.

(** The steps of gRPC and of [run_thread_] while the destructor waits. *)
Definition closing_step (a : action) : bool :=
  match a with Take _ | Reject _ | RunExit => true | _ => false end.

Definition steps_left (s : state) : nat :=
  2 * length (requested s) + length (events s) +
  match run_thread s with Returned => 0 | _ => 1 end.

(** The destructor waits for [run_thread_], and nothing asks for more calls. *)
Record draining (s : state) : Prop := mkDraining {
  dr_inv : inv s;
  dr_crashed : crashed s = None;
  dr_quiet : quiet s;
  dr_owner : owner s = Joining
}.

Lemma draining_queue s : draining s → queue_shutdown s = true.
Proof. intros [[_ _ _ Hc _ _] _ _ Ho]. by rewrite Hc, Ho. Qed.

Lemma closing_step_decreases s a s' :
  draining s → closing_step a = true → exec s a = Some s' →
  draining s' ∧ S (steps_left s') = steps_left s.
Proof.
  intros Hd Ha H. pose proof (draining_queue s Hd) as Hqs. destruct Hd as [Hi Hc Hq Ho].
  destruct (quiet_step s a s' Hi Hc Hq) as (Hi' & Hc' & Hq'); [by destruct a|done|].
  unfold exec in H. rewrite Hc in H. destruct (Hq Hqs) as [Hrej _].
  cut (owner s' = Joining ∧ S (steps_left s') = steps_left s); [by intros []|].
  unfold steps_left. destruct a; try done; simpl in H.
  - unfold exec_take in H. destruct (run_thread s) eqn:Er; try done.
    destruct (events s !! i) as [[tag ok]|] eqn:Ei; [|done].
    rewrite (Hrej tag ok) in H by (by eapply list_elem_of_lookup_2). injection H as <-. simpl.
    rewrite length_delete by (by eexists). apply lookup_lt_Some in Ei. split; [done|lia].
  - unfold exec_run_exit in H. destruct (run_thread s), (requested s) eqn:Ereq, (events s) eqn:Eev; try done.
    rewrite Hqs in H. injection H as <-. simpl. by rewrite Ereq, Eev.
  - destruct (server_shutdown s); [|done]. unfold exec_report in H.
    destruct (requested s !! i) eqn:Ei; [|done]. injection H as <-. simpl.
    rewrite length_delete by (by eexists). rewrite length_app. apply lookup_lt_Some in Ei.
    simpl. split; [done|lia].
Qed.

Lemma closing_steps_bounded ls s s' :
  draining s → forallb closing_step ls → run exec s ls = Some s' → length ls ≤ steps_left s.
Proof.
  revert s. induction ls as [|a ls IH]; intros s Hd Hls H; simpl in *; [lia|].
  apply andb_True in Hls as [Ha%Is_true_true_1 Hls].
  destruct (exec s a) as [s1|] eqn:E1; [|done].
  destruct (closing_step_decreases s a s1 Hd Ha E1) as [Hd1 <-].
  specialize (IH s1 Hd1 Hls H). lia.
Qed.

Lemma closing_step_available s :
  draining s → run_thread s ≠ Returned → ∃ a s', closing_step a = true ∧ exec s a = Some s'.
Proof.
  intros Hd Hr. pose proof (draining_queue s Hd) as Hqs. destruct Hd as [[_ _ _ _ Hs _] Hc Hq Ho].
  destruct (Hq Hqs) as [Hrej Hpc]. unfold exec. rewrite Hc.
  destruct (run_thread s) as [|key|] eqn:Er; [|by destruct (Hpc key)|done].
  destruct (events s) as [|[k ok] evs] eqn:Eev.
  - destruct (requested s) as [|k ks] eqn:Ereq.
    + exists RunExit. simpl. unfold exec_run_exit. rewrite Er, Ereq, Eev, Hqs. eauto.
    + exists (Reject 0). simpl. rewrite Hs by auto. unfold exec_report. rewrite Ereq. simpl. eauto.
  - exists (Take 0). simpl. unfold exec_take. rewrite Er, Eev. simpl.
    rewrite (Hrej k ok) by (rewrite Eev; by left). eauto.
Qed.

Lemma run_thread_drains n s :
  draining s → steps_left s ≤ n →
  ∃ ls s', forallb closing_step ls ∧ run exec s ls = Some s' ∧ draining s' ∧
    run_thread s' = Returned.
Proof.
  revert s. induction n as [|n IH]; intros s Hd Hn.
  - exists [], s. split_and!; try done. unfold steps_left in Hn. destruct (run_thread s); [lia..|done].
  - destruct (decide (run_thread s = Returned)) as [Hr|Hr]; [by exists [], s|].
    destruct (closing_step_available s Hd Hr) as (a & s1 & Ha & E1).
    destruct (closing_step_decreases s a s1 Hd Ha E1) as [Hd1 Hl].
    destruct (IH s1 Hd1) as (ls & s' & Hls & Hrun & ? & ?); [lia|].
    exists (a :: ls), s'. simpl. rewrite E1. rewrite Ha. by split_and!.
Qed.

(** ** Properties *)

Lemma server_reach_inv s :
  reach s → (crashed s = Some queue_shut_down ∧ queue_shutdown s = true) ∨
  inv s ∧ crashed s = None.
Proof.
  revert s. apply reachable_invariant; [intros ? ->; right; split; [apply server_init_inv|done]|].
  intros s1 a s2 IH [He H]. unfold exec in H. destruct IH as [[Hc _]|[Hi Hc]]; rewrite Hc in H; [done|].
  destruct (server_step_inv s1 a s2 Hi Hc He H) as [[Hc2 Hq2]|]; [left|by right].
  split; [done|]. destruct a; simpl in H.
  all: try by (destruct (exec_owner_inv _ s1 s2 Hi He H Hc) as [_ ?]; [done|congruence]).
  all: try by (destruct (exec_take_inv _ s1 s2 Hi Hc H) as [_ ?]; congruence).
  - unfold exec_register_activate in H. destruct (owner s1); try done. injection H as <-.
    unfold activate in *. destruct (rpc_handlers_ _ !! key); [|done].
    destruct (handler_activate_next _ e) as [[? ?]|]; [|done]. simpl in *. by rewrite Hq2 in *.
  - unfold exec_activate_next in H. destruct (run_thread s1); try done. injection H as <-.
    unfold activate in *. destruct (rpc_handlers_ _ !! key); [|done].
    destruct (handler_activate_next _ e) as [[? ?]|]; [|done]. simpl in *. by rewrite Hq2 in *.
  - unfold exec_run_exit in H. destruct (run_thread s1), (requested s1), (events s1); try done.
    rewrite Hq2 in H. injection H as <-. simpl in Hc2. congruence.
  - destruct (server_shutdown s1) eqn:Ess; [done|].
    destruct (exec_report_inv i true s1 s2 Hi Hc) as [_ ?]; [done..|congruence].
  - destruct (server_shutdown s1) eqn:Ess; [|done].
    destruct (exec_report_inv i false s1 s2 Hi Hc) as [_ ?]; [done..|congruence].
  - unfold exec_end_call in H. destruct (open_calls s1); [done|]. injection H as <-.
    simpl in Hc2. congruence.
Qed.

(** C14: every event of the server's queue has its handler: no activation finds
    its key missing from the map, so [at] never throws and no handler is used
    after it was erased. Each handler that is registered is awaited by exactly
    one outstanding call, event or activation, and only the shutdown of the
    server takes a handler out of service. The one way in which the server can
    fail is to ask for a call on the queue after the destructor has shut it
    down. *)
Theorem every_event_has_its_handler s :
  reach s →
  (crashed s = None ∨ crashed s = Some queue_shut_down ∧ queue_shutdown s = true) ∧
  (crashed s = None →
   NoDup (keys s) ∧ (∀ k, k ∈ keys s ↔ is_Some (rpc_handlers_ s !! k)) ∧
   ∀ k, (k, false) ∈ events s → server_shutdown s = true).
Proof.
  intros Hr. destruct (server_reach_inv s Hr) as [[Hc Hq]|[Hi Hc]].
  - split; [by right|]. congruence.
  - split; [by left|]. intros _. destruct Hi as [[? ?] _ ? _ _ _]. done.
Qed.

(** C15: if the destructor finds [run_thread_] back in [Next] and all calls that
    had arrived taken, the server never fails, and the destructor returns: once
    the queue is shut down, gRPC and [run_thread_] take at most two steps for
    each outstanding call, one for each event and one to return, one of them is
    always possible, and then the join succeeds. *)
Theorem destructor_returns s :
  reachable (λ s, s = init) (env_step quiet_env exec) s →
  crashed s = None ∧
  (owner s = Joining →
   (∀ ls s', forallb closing_step ls → run exec s ls = Some s' →
     length ls ≤ 2 * length (requested s) + length (events s) + 1) ∧
   ∃ ls s', forallb closing_step ls ∧ run exec s (ls ++ [Join]) = Some s' ∧
     owner s' = Destroyed ∧ crashed s' = None).
Proof.
  intros Hr. assert (inv s ∧ crashed s = None ∧ quiet s) as (Hi & Hc & Hq).
  { revert s Hr. apply reachable_invariant; [intros ? ->; split_and!; [apply server_init_inv|done|done]|].
    intros s1 a s2 (? & ? & ?) [? ?]. by eapply quiet_step. }
  split; [done|]. intros Ho. assert (draining s) as Hd by by constructor. split.
  - intros ls s' Hls H. pose proof (closing_steps_bounded ls s s' Hd Hls H) as Hb.
    unfold steps_left in Hb. destruct (run_thread s); lia.
  - destruct (run_thread_drains _ s Hd (le_n _)) as (ls & s1 & Hls & Hrun & [_ Hc1 _ Ho1] & Er1).
    exists ls. eexists. split; [done|]. rewrite run_app, Hrun. simpl. unfold exec. rewrite Hc1. simpl.
    unfold exec_join. rewrite Ho1, Er1. done.
Qed.

End Server.
Arguments state : clear implicits.
Arguments action : clear implicits.
(** *** Concrete runs: a server with one simple rpc. *)
Import NonStreamRpcHandler.

#[local] Instance demo_handler : AsyncRpcHandlerInterface (handler (Request := nat)) surroundings :=
  non_stream_handler doubling 0 0 false.

Abbreviation demo_state := (state (handler (Request := nat) (CallbackState := nat))).
Abbreviation demo_action := (action (handler (Request := nat) (CallbackState := nat)) surroundings).
Definition demo_exec : demo_state → demo_action → option demo_state := exec.
Definition demo (ls : list demo_action) : demo_state := default init (run demo_exec init ls).

Definition sent_from (connection : addr) : surroundings :=
  mkSurroundings connection 9%N (Some (9%N, true)).

Definition serve_one_call : list demo_action :=
  [Register 1%N (mkHandler None 0); RegisterActivate (sent_from 2%N); Arrive 0; Take 0].

(** The destructor in the usual order, and one that is faster than the thread. *)
Definition shut_down_after : list demo_action :=
  serve_one_call ++
  [EndCall; ActivateNext (sent_from 3%N); Shutdown Destructor; ShutdownReturns; QueueShutdown].
Definition shut_down_during : list demo_action :=
  serve_one_call ++
  [EndCall; Shutdown Destructor; ShutdownReturns; QueueShutdown; ActivateNext (sent_from 3%N)].

Lemma server_demo_reachable env' ls :
  env_run env' demo_exec init ls → is_Some (run demo_exec init ls) →
  reachable (λ s, s = init) (env_step env' demo_exec) (demo ls).
Proof. intros He [s Hs]. unfold demo. rewrite Hs. by eapply env_run_reachable. Qed.

Ltac solve_env := vm_compute; repeat split; try done; intros; set_solver.

(** The destructor can shut the queue down between the end of the last call
    and the request for the next one in the same [activate_next]; the handler
    then starts an operation on a queue that no longer accepts any. *)
Theorem activation_after_queue_shutdown :
  ∃ s : demo_state, reachable (λ s, s = init) (env_step env demo_exec) s ∧
    owner s = Joining ∧ crashed s = Some queue_shut_down.
Proof.
  exists (demo shut_down_during). split; [|vm_compute; done].
  apply server_demo_reachable; [solve_env|vm_compute; by eexists].
Qed.

(** *** Witnesses *)
Lemma every_event_has_its_handler_witness :
  events (demo (take 3 serve_one_call)) = [(1%N, true)] ∧
  crashed (demo (take 3 serve_one_call)) = None.
Proof.
  split; [vm_compute; done|].
  destruct (every_event_has_its_handler (demo (take 3 serve_one_call))) as [[?|[? ?]] _].
  - apply (server_demo_reachable env); [solve_env|vm_compute; by eexists].
  - done.
  - done.
Defined.

Lemma destructor_returns_witness :
  ∃ ls s', forallb closing_step ls ∧
    run demo_exec (demo shut_down_after) (ls ++ [Join]) = Some s' ∧
    owner s' = Destroyed ∧ crashed s' = None.
Proof.
  apply (destructor_returns (demo shut_down_after)).
  - apply (server_demo_reachable quiet_env); [solve_env|vm_compute; by eexists].
  - vm_compute. done.
Defined.

End GrpcAsyncServer.
