(* ===== verification/ServerLifetime.v ===== *)
(** * The end of a server together with its handlers

    [GrpcAsyncServer.v] knows its handlers through [activate_next] only. But the
    server also destroys them: [run_thread_] erases a handler when the request
    it waits for is given up
    ([src/include/grpcw/server/grpc_async_server.hpp]), and the destructor of a
    handler waits for gRPC and for the handler's own thread. The class
    [ClosableHandler] states what the server relies on for its own end; both
    kinds of handlers implement it, and the destructor of the server is shown to
    return with all of them destroyed. *)
From S2P Require Import Prelude Tag StreamRpcHandler StreamRpcSystem StreamRpcShutdown.
From S2P Require Import RpcHandler NonStreamRpcHandler GrpcAsyncServer.
#[local] Open Scope nat_scope.

(** A handler of type [H] with steps [A] of its own, which becomes a [D] with
    steps [B] while its destructor runs. The steps of a handler that nobody
    uses, [handler_closing], come to an end, and so does the destructor: that
    is what [handler_work] and [dying_work] count. *)
Class ClosableHandler (H E A D B : Type) `{!AsyncRpcHandlerInterface H E} := {
  handler_step : H → A → option H;
  handler_step_ok : A → Prop;
  handler_closing : A → bool;
  handler_failed : H → option fault;
  handler_in_use : H → bool;
  handler_work : H → nat;
  handler_destroy : H → D;
  dying_step : D → B → option D;
  dying_step_ok : B → Prop;
  dying_failed : D → option fault;
  dying_done : D → bool;
  dying_work : D → nat;
  dying_ok : D → Prop;
  handler_step_spec h a h' :
    handler_ok h → handler_step_ok a → handler_step h a = Some h' →
    handler_failed h' = None → handler_ok h';
  handler_step_closing h a h' :
    handler_ok h → handler_closing a = true → handler_step h a = Some h' →
    handler_work h' < handler_work h ∧
    (handler_in_use h = false → handler_in_use h' = false);
  handler_destroy_spec h :
    handler_ok h → handler_in_use h = false →
    dying_ok (handler_destroy h) ∧ dying_work (handler_destroy h) ≤ handler_work h;
  dying_step_spec d b d' :
    dying_ok d → dying_step_ok b → dying_step d b = Some d' →
    dying_work d' < dying_work d ∧ (dying_failed d' = None → dying_ok d');
  dying_progress d :
    dying_ok d → dying_done d = true ∨ ∃ b d', dying_step_ok b ∧ dying_step d b = Some d'
}.

Module ServerLifetime.
Import GrpcAsyncServer.
Section Server.
Context {H E A D B : Type} `{!AsyncRpcHandlerInterface H E} `{!ClosableHandler H E A D B}.

Abbreviation server_state := (GrpcAsyncServer.state H).
Abbreviation server_action := (GrpcAsyncServer.action H E).

(** [erasing] is the handler whose destructor runs, [left_over] those that the
    server still has when its members are destroyed. *)
Record system : Type := mkSystem {
  server : server_state;
  erasing : option D;
  left_over : list H;
  failure : option fault
}.

Definition system_init : system := mkSystem GrpcAsyncServer.init None [] None.

Inductive system_action : Type :=
| Server (a : server_action)
| Handler (key : addr) (a : A) (* a step of a handler and of those that use it *)
| Erasing (b : B) (* a step while a handler is destroyed *)
| Erased (* the destructor of the handler returns *)
| NextMember. (* the destructor of the map goes on to the next handler *)

(** Steps that wait while a handler is being erased: those of [run_thread_],
    which is the one that erases it, those that need the mutex of
    [rpc_handlers_], and the join of [run_thread_]. *)
Definition waits_for_erase (a : server_action) : bool :=
  match a with
  | Take _ | ActivateNext _ | RunExit | Register _ _ | Join => true
  | _ => false
  end.

(** [rpc_handlers.erase(tag)] for an event that failed. *)
Definition erased_by (a : server_action) (s : server_state) : option H :=
  match a with
  | Take i =>
      match events s !! i with
      | Some (tag, false) => rpc_handlers_ s !! tag
      | _ => None
      end
  | _ => None
  end.

Definition destroy (h : H) (s : system) : system :=
  if handler_in_use h
  then mkSystem (server s) None (left_over s) (Some use_after_free)
  else mkSystem (server s) (Some (handler_destroy h)) (left_over s) (failure s).

Definition exec_server (a : server_action) (s : system) : option system :=
  if waits_for_erase a && bool_decide (is_Some (erasing s)) then None
  else
    o ← GrpcAsyncServer.exec (server s) a;
    let s' := mkSystem o (erasing s)
                (match a with Join => (map_to_list (rpc_handlers_ (server s))).*2 | _ => left_over s end)
                (failure s) in
    Some (match erased_by a (server s) with Some h => destroy h s' | None => s' end).

Definition set_handler (key : addr) (h : H) (s : server_state) : server_state :=
  GrpcAsyncServer.mkState (<[key := h]> (rpc_handlers_ s)) (requested s) (events s) (open_calls s)
    (server_shutdown s) (queue_shutdown s) (run_thread s) (owner s) (crashed s).

Definition exec_system (s : system) (l : system_action) : option system :=
  match failure s, crashed (server s) with
  | None, None =>
      match l with
      | Server a => exec_server a s
      | Handler key a =>
          h ← rpc_handlers_ (server s) !! key;
          h' ← handler_step h a;
          Some (mkSystem (set_handler key h' (server s)) (erasing s) (left_over s) (handler_failed h'))
      | Erasing b =>
          d ← erasing s;
          d' ← dying_step d b;
          Some (mkSystem (server s) (Some d') (left_over s) (dying_failed d'))
      | Erased =>
          d ← erasing s;
          if dying_done d then Some (mkSystem (server s) None (left_over s) None) else None
      | NextMember =>
          match erasing s, left_over s with
          | None, h :: hs => Some (destroy h (mkSystem (server s) None hs None))
          | _, _ => None
          end
      end
  | _, _ => None
  end.

(** The assumptions of [GrpcAsyncServer.destructor_returns], and that nobody is
    inside of a method of a handler that is erased. *)
Definition system_env (s : system) (l : system_action) : Prop :=
  match l with
  | Server a =>
      quiet_env (server s) a ∧
      ∀ h, erased_by a (server s) = Some h → handler_in_use h = false
  | Handler _ a => handler_step_ok a
  | Erasing b => dying_step_ok b
  | _ => True
  end.

(** ** Invariant *)
Record system_inv (s : system) : Prop := mkSystemInv {
  si_server : GrpcAsyncServer.inv (server s);
  si_crashed : crashed (server s) = None;
  si_quiet : quiet (server s);
  si_erasing d : erasing s = Some d → dying_ok d;
  si_left : left_over s = [];
  si_destroyed : owner (server s) = Destroyed →
    run_thread (server s) = Returned ∧ rpc_handlers_ (server s) = ∅
}.

Lemma server_inv_update key h h' (s : server_state) :
  GrpcAsyncServer.inv s → rpc_handlers_ s !! key = Some h → handler_ok h' →
  GrpcAsyncServer.inv (set_handler key h' s).
Proof.
  intros [Hk Hh Hr Hc Hs Ht] Hkey Hok. split; simpl; try done.
  - apply keys_ok_update; [|done]. apply Hk. by eexists.
  - by apply map_Forall_insert_2.
Qed.

(** Nothing refers to a handler any more when [run_thread_] has returned. *)
Lemma joined_no_handlers (s : server_state) :
  GrpcAsyncServer.inv s → owner s = Joining → run_thread s = Returned → rpc_handlers_ s = ∅.
Proof.
  intros [[_ Hk] _ _ _ _ Ht] Ho Hr. destruct (Ht Hr) as (_ & Hreq & Hev).
  apply map_empty. intros k. destruct (rpc_handlers_ s !! k) eqn:Ek; [|done].
  assert (k ∈ keys s) as Hin by (apply Hk; by eexists).
  unfold keys in Hin. rewrite Hreq, Hev, Ho, Hr in Hin. by apply elem_of_nil in Hin.
Qed.

Lemma erased_handler_ok a (s : server_state) h :
  GrpcAsyncServer.inv s → erased_by a s = Some h → handler_ok h.
Proof.
  intros [_ Hh _ _ _ _] He. unfold erased_by in He.
  destruct a; try done. destruct (events s !! i) as [[tag []]|]; try done. by eapply Hh.
Qed.

Lemma exec_server_join (s s' : server_state) :
  GrpcAsyncServer.exec s Join = Some s' → owner s = Joining ∧ run_thread s = Returned.
Proof.
  unfold GrpcAsyncServer.exec. destruct (crashed s); [done|]. simpl. unfold exec_join.
  by destruct (owner s), (run_thread s).
Qed.

Lemma destroyed_by_join a (s s' : server_state) :
  GrpcAsyncServer.exec s a = Some s' → owner s' = Destroyed → owner s = Destroyed ∨ a = Join.
Proof.
  assert (∀ key e s, owner (activate key e s) = owner s) as Hact.
  { intros key e s1. unfold activate. destruct (rpc_handlers_ s1 !! key); [|done].
    destruct (handler_activate_next _ e) as [[? ?]|]; [|done]. by destruct (queue_shutdown s1). }
  unfold GrpcAsyncServer.exec. destruct (crashed s); [done|]. intros Hs Ho.
  destruct a; simpl in Hs; [..|by right| | | | | |]; left.
  - unfold exec_register in Hs. destruct (owner s); try done. case_bool_decide; by simplify_eq/=.
  - unfold exec_register_activate in Hs. destruct (owner s); simplify_eq. by rewrite Hact in Ho.
  - unfold exec_shutdown in Hs. destruct (owner s); by simplify_eq/=.
  - unfold exec_shutdown_returns in Hs.
    destruct (owner s) as [| |[]| | |]; repeat case_bool_decide; by simplify_eq/=.
  - unfold exec_queue_shutdown in Hs. destruct (owner s); by simplify_eq/=.
  - unfold exec_take in Hs. destruct (run_thread s); try done.
    destruct (events s !! i) as [[tag []]|]; simplify_eq/=; [|done].
    by destruct (rpc_handlers_ s !! tag); simplify_eq/=.
  - unfold exec_activate_next in Hs. destruct (run_thread s); simplify_eq. by rewrite Hact in Ho.
  - unfold exec_run_exit in Hs. destruct (run_thread s), (requested s), (events s); try done.
    by destruct (queue_shutdown s); simplify_eq/=.
  - unfold exec_report in Hs. destruct (server_shutdown s); [done|].
    by destruct (requested s !! i); simplify_eq/=.
  - unfold exec_report in Hs. destruct (server_shutdown s); [|done].
    by destruct (requested s !! i); simplify_eq/=.
  - unfold exec_end_call in Hs. by destruct (open_calls s); simplify_eq/=.
Qed.

(** A server that was destroyed only sees the end of calls. *)
Lemma destroyed_step a (s s' : server_state) :
  GrpcAsyncServer.inv s → owner s = Destroyed → run_thread s = Returned →
  GrpcAsyncServer.exec s a = Some s' →
  a = EndCall ∧ run_thread s' = Returned ∧ rpc_handlers_ s' = rpc_handlers_ s.
Proof.
  intros [_ _ _ _ _ Ht] Ho Hr. destruct (Ht Hr) as (_ & Hreq & _).
  unfold GrpcAsyncServer.exec. destruct (crashed s); [done|]. destruct a; simpl.
  - unfold exec_register. by rewrite Ho.
  - unfold exec_register_activate. by rewrite Ho.
  - unfold exec_shutdown. by rewrite Ho.
  - unfold exec_shutdown_returns. by rewrite Ho.
  - unfold exec_queue_shutdown. by rewrite Ho.
  - unfold exec_join. by rewrite Ho.
  - unfold exec_take. by rewrite Hr.
  - unfold exec_activate_next. by rewrite Hr.
  - unfold exec_run_exit. by rewrite Hr.
  - destruct (server_shutdown s); [done|]. unfold exec_report. by rewrite Hreq.
  - destruct (server_shutdown s); [|done]. unfold exec_report. by rewrite Hreq.
  - unfold exec_end_call. destruct (open_calls s); [done|]. by intros [= <-].
Qed.

Lemma exec_joined (s s' : server_state) :
  GrpcAsyncServer.exec s Join = Some s' → run_thread s' = Returned ∧ rpc_handlers_ s' = ∅.
Proof.
  unfold GrpcAsyncServer.exec. destruct (crashed s); [done|]. simpl. unfold exec_join.
  destruct (owner s), (run_thread s); try done. by intros [= <-].
Qed.

Lemma system_inv_exec s l s' :
  system_inv s → system_env s l → exec_system s l = Some s' → failure s' = None → system_inv s'.
Proof.
  intros [Hi Hc Hq He Hl Hde] Henv Hs Hf. unfold exec_system in Hs.
  destruct (failure s) eqn:Efail; [done|]. rewrite Hc in Hs. destruct l as [a|key a|b| |].
  - unfold exec_server in Hs. destruct (_ && _); [done|].
    destruct (GrpcAsyncServer.exec (server s) a) as [o|] eqn:Eo; [|done]. simpl in Hs.
    destruct Henv as [Henv Huse].
    destruct (quiet_step (server s) a o Hi Hc Hq Henv Eo) as (Hi' & Hc' & Hq').
    assert (owner o = Destroyed → run_thread o = Returned ∧ rpc_handlers_ o = ∅) as Hde'.
    { intros Ho. destruct (destroyed_by_join a (server s) o Eo Ho) as [Ho1| ->];
        [|by eapply exec_joined].
      destruct (Hde Ho1) as [Hr1 Hm]. rewrite <-Hm.
      by apply (destroyed_step a (server s) o Hi Ho1 Hr1 Eo). }
    assert (left_over s' = [] ∧ server s' = o ∧
      ∀ d, erasing s' = Some d → dying_ok d) as (? & <- & ?); [|by split].
    assert (match a with Join => (map_to_list (rpc_handlers_ (server s))).*2 | _ => left_over s end = [])
      as El.
    { destruct a; try done. apply exec_server_join in Eo as [Ho Hr].
      by rewrite joined_no_handlers. }
    rewrite El in Hs. destruct (erased_by a (server s)) as [h|] eqn:Eh.
    + unfold destroy in Hs. rewrite (Huse h) in Hs by done. simplify_eq/=.
      split_and!; [done..|]. intros d [= <-]. apply handler_destroy_spec; [|by apply Huse].
      by apply (erased_handler_ok a (server s)).
    + by simplify_eq/=.
  - destruct (rpc_handlers_ (server s) !! key) as [h|] eqn:Eh; [|done]. simpl in Hs.
    destruct (handler_step h a) as [h'|] eqn:Ea; [|done]. simplify_eq/=.
    split; simpl; try done.
    + eapply server_inv_update; [done..|].
      eapply handler_step_spec; [|done..]. by apply (inv_handlers _ Hi key).
    + intros Ho. destruct (Hde Ho) as [_ Hm]. rewrite Hm in Eh. done.
  - destruct (erasing s) as [d|] eqn:Ed; [|done]. simpl in Hs.
    destruct (dying_step d b) as [d'|] eqn:Eb; [|done]. simplify_eq/=. split; simpl; try done.
    intros ? [= <-]. by apply (dying_step_spec d b d' (He d eq_refl) Henv Eb).
  - destruct (erasing s) as [d|] eqn:Ed; [|done]. simpl in Hs.
    destruct (dying_done d); simplify_eq. by split.
  - rewrite Hl in Hs. by destruct (erasing s).
Qed.

Lemma system_inv_reachable s :
  reachable (λ s, s = system_init) (env_step system_env exec_system) s →
  failure s = None → system_inv s.
Proof.
  intros Hr. induction Hr as [s ->|s l s' _ IH [He Hs]].
  - intros _. split; try done. apply server_init_inv.
  - intros Hf. eapply system_inv_exec; [apply IH|done..].
    unfold exec_system in Hs. by destruct (failure s).
Qed.

(** ** The steps of the destructor *)
Definition ends_server (a : server_action) : bool :=
  match a with Take _ | Reject _ | RunExit | Join => true | _ => false end.

Definition ends (l : system_action) : bool :=
  match l with
  | Server a => ends_server a
  | Handler _ a => handler_closing a
  | Erasing _ | Erased | NextMember => true
  end.

Definition handlers_work (m : gmap addr H) : nat :=
  sum_list (handler_work <$> (map_to_list m).*2).

Lemma handlers_work_delete key h (m : gmap addr H) :
  m !! key = Some h → handlers_work m = handler_work h + handlers_work (delete key m).
Proof.
  intros Hk. unfold handlers_work. by rewrite <-(map_to_list_delete m key h Hk).
Qed.

Lemma handlers_work_update key h h' (m : gmap addr H) :
  m !! key = Some h →
  handlers_work (<[key := h']> m) + handler_work h = handlers_work m + handler_work h'.
Proof.
  intros Hk. rewrite (handlers_work_delete key h m Hk).
  rewrite (handlers_work_delete key h' (<[key := h']> m)) by apply lookup_insert_eq.
  rewrite delete_insert_eq. lia.
Qed.

(** A bound for the steps of the destructor: two for every request and event
    that is left, and those of the handlers and of their destructors. *)
Definition steps_bound (s : system) : nat :=
  match owner (server s) with
  | Destroyed => 0
  | _ => 2 * steps_left (server s) + handlers_work (rpc_handlers_ (server s)) + 1
  end + match erasing s with Some d => S (dying_work d) | None => 0 end.

Definition nobody_inside (s : system) : Prop :=
  map_Forall (λ _ h, handler_in_use h = false) (rpc_handlers_ (server s)).

Definition ending (s : system) : Prop :=
  (owner (server s) = Joining ∨ owner (server s) = Destroyed) ∧ nobody_inside s.

(** A step of the server itself while its destructor waits for [run_thread_]. *)
Lemma ends_server_spec a (s s' : server_state) :
  draining s → GrpcAsyncServer.closing_step a = true → GrpcAsyncServer.exec s a = Some s' →
  draining s' ∧ S (steps_left s') = steps_left s ∧
  match erased_by a s with
  | Some h => ∃ key, rpc_handlers_ s !! key = Some h ∧ rpc_handlers_ s' = delete key (rpc_handlers_ s)
  | None => rpc_handlers_ s' = rpc_handlers_ s
  end.
Proof.
  intros Hd Ha Hs. destruct (closing_step_decreases s a s' Hd Ha Hs) as [Hd' Hl].
  split_and!; [done..|]. destruct Hd as [_ Hc _ _]. unfold GrpcAsyncServer.exec in Hs.
  rewrite Hc in Hs. destruct a; try done; simpl in *.
  - unfold exec_take in Hs. destruct (run_thread s); try done.
    destruct (events s !! i) as [[tag []]|]; simplify_eq/=.
    + by destruct (rpc_handlers_ s !! tag); simplify_eq/=.
    + destruct (rpc_handlers_ s !! tag) eqn:Et; [by eauto|]. by apply delete_id.
  - unfold exec_run_exit in Hs. destruct (run_thread s), (requested s), (events s); try done.
    by destruct (queue_shutdown s); simplify_eq/=.
  - unfold exec_report in Hs. destruct (server_shutdown s); [|done].
    by destruct (requested s !! i); simplify_eq/=.
Qed.

Lemma system_draining s : system_inv s → owner (server s) = Joining → draining (server s).
Proof. by intros [? ? ? _ _ _] ?; split. Qed.

Lemma ending_server_step s a s' :
  system_inv s → failure s = None → ending s → ends_server a = true →
  (∀ h, erased_by a (server s) = Some h → handler_in_use h = false) →
  exec_server a s = Some s' → ending s' ∧ steps_bound s' < steps_bound s.
Proof.
  intros Hi Hf [Ho Hu] Ha Huse Hs. unfold exec_server in Hs.
  destruct (waits_for_erase a && _) eqn:Hw; [done|].
  destruct (GrpcAsyncServer.exec (server s) a) as [o|] eqn:Eo; [|done]. simpl in Hs.
  assert (owner (server s) = Joining) as Hj.
  { destruct Ho as [?|Ho]; [done|]. destruct (si_destroyed _ Hi Ho) as [Hr _].
    by destruct (destroyed_step a _ _ (si_server _ Hi) Ho Hr Eo) as [-> _]. }
  assert (a = Join ∨ GrpcAsyncServer.closing_step a = true) as [->|Hcl] by (destruct a; auto).
  - simpl in Hs. simplify_eq. unfold ending, nobody_inside, steps_bound. simpl.
    unfold GrpcAsyncServer.exec in Eo. rewrite (si_crashed _ Hi) in Eo. simpl in Eo.
    unfold exec_join in Eo. rewrite Hj in *. destruct (run_thread (server s)); simplify_eq/=.
    split; [split; [by right|by apply map_Forall_empty]|]. lia.
  - destruct (ends_server_spec a _ _ (system_draining _ Hi Hj) Hcl Eo) as ([_ _ _ Hj'] & Hl & Hm).
    unfold ending, nobody_inside, steps_bound in *.
    destruct (erased_by a (server s)) as [h|] eqn:Eh.
    + destruct Hm as (key & Hk & Hm). unfold destroy in Hs. rewrite Huse in Hs by done.
      simplify_eq/=. rewrite Hm, Hj, Hj'.
      assert (erasing s = None) as ->.
      { destruct a; try done. simpl in Hw. by apply bool_decide_eq_false, eq_None_not_Some in Hw. }
      assert (handler_ok h) as Hok by (by eapply erased_handler_ok, Eh; apply Hi).
      pose proof (handler_destroy_spec h Hok (Huse h eq_refl)) as [_ Hwk].
      split; [split; [by left|by apply map_Forall_delete]|].
      rewrite (handlers_work_delete key h _ Hk). lia.
    + assert (s' = mkSystem o (erasing s) (left_over s) (failure s)) as -> by (by destruct a; simplify_eq).
      simpl. rewrite Hm, Hj, Hj'. split; [split; [by left|done]|]. lia.
Qed.

Lemma ending_step s l s' :
  system_inv s → failure s = None → ending s → ends l = true → system_env s l →
  exec_system s l = Some s' → (failure s' = None → ending s') ∧ steps_bound s' < steps_bound s.
Proof.
  intros Hi Hf Hen Hl Henv Hs. pose proof Hi as [Hsi Hc _ He Hlo Hde].
  unfold exec_system in Hs. rewrite Hf, Hc in Hs.
  destruct l as [a|key a|b| |]; simpl in *.
  - destruct Henv as [_ Huse].
    destruct (ending_server_step s a s' Hi Hf Hen Hl Huse Hs). by split.
  - destruct (rpc_handlers_ (server s) !! key) as [h|] eqn:Eh; [|done]. simpl in Hs.
    destruct (handler_step h a) as [h'|] eqn:Ea; [|done]. simplify_eq/=.
    assert (handler_ok h) as Hok by (by apply (inv_handlers _ Hsi key)).
    destruct (handler_step_closing h a h' Hok Hl Ea) as [Hw Hu'].
    destruct Hen as [Ho Hu]. unfold ending, nobody_inside, steps_bound in *. simpl.
    split; [intros _; split; [done|]; apply map_Forall_insert_2; [|done]; apply Hu', (Hu key h Eh)|].
    destruct Ho as [Ho|Ho]; [|by destruct (Hde Ho) as [_ Hm]; rewrite Hm in Eh].
    rewrite Ho. unfold steps_left. simpl. pose proof (handlers_work_update key h h' _ Eh). lia.
  - destruct (erasing s) as [d|] eqn:Ed; [|done]. simpl in Hs.
    destruct (dying_step d b) as [d'|] eqn:Eb; [|done]. simplify_eq/=. split; [by intros _|].
    destruct (dying_step_spec d b d' (He d eq_refl) Henv Eb) as [Hw _].
    unfold steps_bound. simpl. rewrite Ed. lia.
  - destruct (erasing s) as [d|] eqn:Ed; [|done]. simpl in Hs.
    destruct (dying_done d); simplify_eq/=. split; [by intros _|].
    unfold steps_bound. simpl. rewrite Ed. lia.
  - rewrite Hlo in Hs. by destruct (erasing s).
Qed.

Abbreviation reach := (reachable (λ s, s = system_init) (env_step system_env exec_system)).

(** The steps that are left once the destructor has shut the queue down. *)
Definition ending_run := execution (env_step (λ s l, system_env s l ∧ ends l = true) exec_system).

Lemma ending_execution s ls s' :
  ending_run s ls s' → reach s → ending s →
  reach s' ∧ (failure s' = None → ending s') ∧ length ls + steps_bound s' ≤ steps_bound s.
Proof.
  induction 1 as [s|s l s1 ls s' [[Henv Hl] Hs] He IH]; intros Hr Hen; [done|].
  assert (failure s = None) as Hf by (unfold exec_system in Hs; by destruct (failure s)).
  pose proof (system_inv_reachable s Hr Hf) as Hi.
  destruct (ending_step s l s1 Hi Hf Hen Hl Henv Hs) as [Hen1 Hw].
  assert (reach s1) as Hr1 by (eapply reachable_step; [done|by split]).
  destruct (failure s1) eqn:Hf1.
  - inversion He as [|? l' s2 ? ? [_ Hs2]]; subst.
    + split_and!; [done|congruence|simpl; lia].
    + unfold exec_system in Hs2. by rewrite Hf1 in Hs2.
  - destruct (IH Hr1 (Hen1 eq_refl)) as (? & ? & ?). split_and!; [done..|]. simpl. lia.
Qed.

Definition destroyed (s : system) : Prop :=
  owner (server s) = Destroyed ∧ erasing s = None ∧ left_over s = [].

(** Until everything is destroyed some step is possible. *)
Lemma ending_progress s :
  system_inv s → failure s = None → ending s →
  destroyed s ∨ ∃ l s', (system_env s l ∧ ends l = true) ∧ exec_system s l = Some s'.
Proof.
  intros Hi Hf [Ho Hu]. pose proof Hi as [Hsi Hc _ He Hlo Hde].
  destruct (erasing s) as [d|] eqn:Ed.
  { right. destruct (dying_progress d (He d eq_refl)) as [Hdone|(b & d' & Hb & Hd')].
    - exists Erased. eexists. split; [done|]. unfold exec_system. rewrite Hf, Hc, Ed. simpl.
      by rewrite Hdone.
    - exists (Erasing b). eexists. split; [done|]. unfold exec_system. rewrite Hf, Hc, Ed. simpl.
      by rewrite Hd'. }
  destruct Ho as [Ho|Ho]; [|by left]. right.
  pose proof (system_draining s Hi Ho) as Hd.
  assert (∃ a o, ends_server a = true ∧ GrpcAsyncServer.exec (server s) a = Some o) as (a & o & Ha & Eo).
  { destruct (decide (run_thread (server s) = Returned)) as [Hr|Hr].
    - exists Join. eexists. split; [done|]. unfold GrpcAsyncServer.exec. rewrite Hc. simpl.
      unfold exec_join. by rewrite Ho, Hr.
    - destruct (closing_step_available _ Hd Hr) as (a & o & Ha & Eo). exists a, o.
      split; [by destruct a|done]. }
  assert (∀ h, erased_by a (server s) = Some h → handler_in_use h = false) as Huse.
  { intros h Eh. unfold erased_by in Eh. destruct a; try done.
    destruct (events (server s) !! i) as [[tag []]|]; try done. by apply (Hu tag). }
  assert (is_Some (exec_system s (Server a))) as [s' Hs'].
  { unfold exec_system. rewrite Hf, Hc. unfold exec_server. rewrite Ed, bool_decide_false by
      (by intros [? ?]). rewrite andb_false_r, Eo. by eexists. }
  exists (Server a), s'. split; [split; [|done]|done]. split; [|done]. by destruct a.
Qed.


End Server.
Arguments system : clear implicits.
Arguments system_action : clear implicits.
End ServerLifetime.

(** ** The streaming handler *)
Module ClosableStream.
Import StreamRpcShutdown.
Section Instance.
Context {Request Response Status : Type}.
Context (ndebug : bool) (cbs : callbacks) (fresh_request : Request).

Abbreviation stream := (state Request Response Status).

(** What the server sees of a handler with its threads: [activate_next] is
    called for a connection that gRPC has filled. *)
Definition activated (alloc : gset addr → addr) (s : stream) : outcome (stream * list addr) :=
  let '(c, out) := activate_next cbs fresh_request alloc (conns s) in
  Ret (emit c out (mkState (conns s) (queue s) false (sync_notify s) (writers s) (log s) (crashed s)),
       StreamRpc.requested out).

Lemma activated_exec alloc (s s' : stream) l :
  crashed s = None → next (conns s) = None ∨ arrived s = true →
  activated alloc s = Ret (s', l) → exec ndebug cbs fresh_request s (ActivateNext alloc) = Some s'.
Proof.
  unfold activated, exec, exec_live, exec_activate. intros -> Ha Hs.
  destruct (activate_next _ _ _ _) as [c out]. simplify_eq.
  destruct (next (conns s)) as [[p r]|]; [|done]. by destruct Ha as [?| ->].
Qed.

#[refine, export]
Instance stream_system_handler : AsyncRpcHandlerInterface stream (gset addr → addr) := {|
  handler_ok s := inv cbs s ∧ crashed s = None;
  handler_env_ok s alloc := allocator_ok alloc ∧ (next (conns s) = None ∨ arrived s = true);
  handler_next s := fst <$> next (conns s);
  handler_activate_next s alloc := activated alloc s
|}.
Proof.
  intros s alloc [Hi Hc] [Hok Ha].
  destruct (handler_activate_next_spec (AsyncRpcHandlerInterface := StreamRpc.stream_handler cbs
    (Response := Response) (Status := Status)) (conns s) (fresh_request, alloc))
    as (c & p & E & _ & Hn & Hne & Hp0); [apply Hi|done|].
  simpl in *. destruct (activated alloc s) as [[s' l]|] eqn:Es.
  - pose proof (activated_exec alloc s s' l Hc Ha Es) as Hx. unfold activated in Es.
    destruct (activate_next _ _ _ _) as [c' out]. simplify_eq.
    eexists _, p. split; [by rewrite H|]. split_and!; try done.
    by eapply (stream_inv_exec ndebug cbs fresh_request s (ActivateNext alloc)).
  - unfold activated in Es. by destruct (activate_next _ _ _ _).
Defined.

(** The steps of a stream apart from its activation. *)
Definition stream_step (s : stream) (a : action Request Response Status) : option stream :=
  match a with ActivateNext _ => None | _ => exec ndebug cbs fresh_request s a end.

(** Reports and notifications of a handler that nobody uses leave its users
    alone. *)
Lemma closing_unused s a (s' : stream) :
  closing a = true → exec ndebug cbs fresh_request s a = Some s' →
  unused s = true → unused s' = true.
Proof.
  unfold exec. intros Ha Hs Hu. destruct (crashed s); [done|]. destruct a; try done; simpl in Hs.
  - unfold exec_deliver in Hs. case_match; [|done].
    destruct (synchronize _ _ _ _ _) as [[[c out] all]|]; by simplify_eq/=.
  - destruct (sync_notify s); [|done].
    destruct (pool_notify_one _ _ _ _) as [l|] eqn:E; simplify_eq/=.
    apply pool_notify_one_inv in E as [[-> _]|(j & c & Hj & Hs & ->)]; [done|]. exfalso.
    unfold unused in Hu. rewrite forallb_forall in Hu.
    specialize (Hu c). destruct c; try done.
    discriminate Hu. apply list_elem_of_In. by eapply list_elem_of_lookup_2.
Qed.

#[refine, export]
Instance stream_closable :
    ClosableHandler stream (gset addr → addr) (action Request Response Status)
      (lifetime Request Response Status) (life_action Request Response Status) := {|
  handler_step := stream_step;
  handler_step_ok := action_ok;
  handler_closing := closing;
  handler_failed := crashed;
  handler_in_use s := negb (unused s);
  handler_work s := 2 * size (queue s) + (if sync_notify s then 1 else 0) + 2;
  handler_destroy s := mkLifetime s Joining false;
  dying_step := life_exec ndebug cbs fresh_request;
  dying_step_ok := life_ok;
  dying_failed d := crashed (sys d);
  dying_done d := match owner d with Destroyed => true | _ => false end;
  dying_work := work;
  dying_ok d := inv cbs (sys d) ∧ crashed (sys d) = None ∧ owner d ≠ Alive
|}.
Proof.
  - intros s a s' [Hi _] Ha Hs Hc. split; [|done].
    eapply (stream_inv_exec ndebug cbs fresh_request); [done..|]. unfold stream_step in Hs. by destruct a.
  - intros s a s' _ Ha Hs. assert (exec ndebug cbs fresh_request s a = Some s') as Hs'.
    { unfold stream_step in Hs. by destruct a. }
    pose proof (closing_step _ _ _ s a s' Ha Hs'). split; [lia|].
    intros Hu%negb_false_iff. apply negb_false_iff. by eapply closing_unused.
  - intros s [Hi Hc] Hu. split; [done|]. unfold work. simpl. lia.
  - intros d b d' (Hi & Hc & Ho) Hb Hs.
    destruct (life_step_work _ _ _ _ _ _ Ho Hs) as [Ho' Hw]. split; [done|].
    intros Hc'. split_and!; [|done..].
    apply life_step_sys in Hs as [(a & -> & Hs & _)| ->]; [|done]. by eapply stream_inv_exec.
  - intros d (Hi & Hc & Ho). destruct (owner d) eqn:Eo; [done| |by left]. right.
    destruct (joining_progress ndebug cbs fresh_request d Eo Hc) as (b & d' & ? & ?). eauto.
Defined.

End Instance.
End ClosableStream.

(** ** The simple handler

    Its destructor finds nothing in [queue_], since every activation waits for
    the answer it has started. *)
Module ClosableNonStream.
Import NonStreamRpcHandler.
Section Instance.
Context {Request Response Status CallbackState : Type}.
Context (callback_ : CallbackState → Request → Response → Status * Response * CallbackState).
Context (new_request : Request) (new_response : Response) (ndebug : bool).

#[local] Existing Instance non_stream_handler.
#[local] Instance simple_handler :
  AsyncRpcHandlerInterface (handler (Request := Request) (CallbackState := CallbackState)) surroundings :=
  non_stream_handler callback_ new_request new_response ndebug.

#[refine]
Definition non_stream_closable :
    ClosableHandler (handler (Request := Request) (CallbackState := CallbackState)) surroundings
      Request bool unit := {|
  handler_step h request := Some (receive request h);
  handler_step_ok _ := True;
  handler_closing _ := false;
  handler_failed _ := None;
  handler_in_use _ := false;
  handler_work _ := 1;
  handler_destroy _ := false;
  dying_step returned _ :=
    if returned then None else match drain ndebug [] with Ret _ => Some true | Fault _ => None end;
  dying_step_ok _ := True;
  dying_failed _ := None;
  dying_done returned := returned;
  dying_work returned := if (returned : bool) then 0 else 1;
  dying_ok _ := True
|}.
Proof.
  - done.
  - done.
  - done.
  - intros [] [] d' _ _; simpl; [done|]. intros [= <-]. split; [lia|done].
  - intros [] _; [by left|]. right. by exists tt, true.
Defined.

End Instance.
End ClosableNonStream.

(** ** Handlers of both kinds *)
Module AnyClosable.
Section Instance.
Context {H1 E1 A1 D1 B1 H2 E2 A2 D2 B2 : Type}.
Context `{!AsyncRpcHandlerInterface H1 E1} `{!ClosableHandler H1 E1 A1 D1 B1}.
Context `{!AsyncRpcHandlerInterface H2 E2} `{!ClosableHandler H2 E2 A2 D2 B2}.
#[local] Existing Instance AnyRpc.any_handler.

Definition step (h : H1 + H2) (a : A1 + A2) : option (H1 + H2) :=
  match h, a with
  | inl h, inl a => inl <$> handler_step h a
  | inr h, inr a => inr <$> handler_step h a
  | _, _ => None
  end.

Definition dying (d : D1 + D2) (b : B1 + B2) : option (D1 + D2) :=
  match d, b with
  | inl d, inl b => inl <$> dying_step d b
  | inr d, inr b => inr <$> dying_step d b
  | _, _ => None
  end.

Definition either {X Y Z : Type} (f : X → Z) (g : Y → Z) (x : X + Y) : Z :=
  match x with inl x => f x | inr y => g y end.

#[refine, export]
Instance any_closable : ClosableHandler (H1 + H2) (E1 + E2) (A1 + A2) (D1 + D2) (B1 + B2) := {|
  handler_step := step;
  handler_step_ok := either handler_step_ok handler_step_ok;
  handler_closing := either handler_closing handler_closing;
  handler_failed := either handler_failed handler_failed;
  handler_in_use := either handler_in_use handler_in_use;
  handler_work := either handler_work handler_work;
  handler_destroy := sum_map handler_destroy handler_destroy;
  dying_step := dying;
  dying_step_ok := either dying_step_ok dying_step_ok;
  dying_failed := either dying_failed dying_failed;
  dying_done := either dying_done dying_done;
  dying_work := either dying_work dying_work;
  dying_ok := either dying_ok dying_ok
|}.
Proof.
  - intros [h|h] [a|a] h' Hh Ha Hs Hf; try done; simpl in Hs;
      apply fmap_Some in Hs as (x & Hx & ->); exact (handler_step_spec h a x Hh Ha Hx Hf).
  - intros [h|h] [a|a] h' Hh Ha Hs; try done; simpl in Hs;
      apply fmap_Some in Hs as (x & Hx & ->); exact (handler_step_closing h a x Hh Ha Hx).
  - intros [h|h]; simpl; apply handler_destroy_spec.
  - intros [d|d] [b|b] d' Hd Hb Hs; try done; simpl in Hs;
      apply fmap_Some in Hs as (x & Hx & ->); exact (dying_step_spec d b x Hd Hb Hx).
  - intros [d|d] Hd; simpl in Hd |- *.
    + destruct (dying_progress d Hd) as [?|(b & d' & Hb & Hs)]; [by left|right].
      exists (inl b), (inl d'). simpl. by rewrite Hs.
    + destruct (dying_progress d Hd) as [?|(b & d' & Hb & Hs)]; [by left|right].
      exists (inr b), (inr d'). simpl. by rewrite Hs.
Defined.

End Instance.
End AnyClosable.

(** ** A server with a streaming handler is destroyed

    A client is connected when the server is shut down; the handler waits for
    the next one. *)
Module ServerLifetimeRun.
Import ServerLifetime ClosableStream.
Import (hints) ClosableStream.

Abbreviation demo_cbs := (StreamRpcHandler.mkCallbacks true true).
Abbreviation demo_stream := (StreamRpcSystem.state nat nat nat).
Abbreviation demo_act := (StreamRpcSystem.action nat nat nat).
#[local] Instance demo_interface : AsyncRpcHandlerInterface demo_stream (gset addr → addr) :=
  stream_system_handler false demo_cbs 0.
#[local] Instance demo_closable :
    ClosableHandler demo_stream (gset addr → addr) demo_act
      (StreamRpcShutdown.lifetime nat nat nat) (StreamRpcShutdown.life_action nat nat nat) :=
  stream_closable false demo_cbs 0.

Abbreviation demo_system := (system demo_stream (StreamRpcShutdown.lifetime nat nat nat)).
Abbreviation demo_system_action :=
  (system_action demo_stream (gset addr → addr) demo_act (StreamRpcShutdown.life_action nat nat nat)).
Definition demo_exec : demo_system → demo_system_action → option demo_system := exec_system.

Definition client_connects : list demo_system_action :=
  [Server (GrpcAsyncServer.Register 1%N (StreamRpcSystem.init_state 0));
   Server (GrpcAsyncServer.RegisterActivate next_address);
   Handler 1%N (StreamRpcSystem.Arrive 7);
   Server (GrpcAsyncServer.Arrive 0); Server (GrpcAsyncServer.Take 0);
   Server (GrpcAsyncServer.ActivateNext next_address)].
Definition shut_down : list demo_system_action :=
  [Server GrpcAsyncServer.EndCall; Server (GrpcAsyncServer.Shutdown GrpcAsyncServer.Destructor);
   Server GrpcAsyncServer.ShutdownReturns; Server GrpcAsyncServer.QueueShutdown].
Definition handler_erased : list demo_system_action :=
  [Server (GrpcAsyncServer.Reject 0); Server (GrpcAsyncServer.Take 0);
   Erasing (StreamRpcShutdown.Sys (StreamRpcSystem.Deliver 2%N false));
   Erasing StreamRpcShutdown.SyncExit; Erasing StreamRpcShutdown.Join; Erased;
   Server GrpcAsyncServer.RunExit; Server GrpcAsyncServer.Join].

Definition demo (ls : list demo_system_action) : demo_system :=
  default system_init (run demo_exec system_init ls).
Definition demo_env : demo_system → demo_system_action → Prop := system_env.
Definition before_end : demo_system := demo (client_connects ++ shut_down).

Abbreviation demo_reach := (reachable (λ s, s = system_init) (env_step demo_env demo_exec)).

(** The two activations of the handler allocate; everything else is computed. *)
Lemma lifetime_demo_registered : demo_reach (demo (take 2 client_connects)).
Proof.
  eapply (reachable_step _ _ (demo (take 1 client_connects)) (Server (GrpcAsyncServer.RegisterActivate next_address))).
  - eapply (env_run_reachable demo_env demo_exec _ system_init (take 1 client_connects)); [done| |].
    + split; [|done]. split; [|done]. split; [|done]. split; [apply StreamRpcSystem.inv_init|done].
    + vm_compute. reflexivity.
  - split; [|vm_compute; reflexivity]. split; [|done]. split; [|done].
    assert (GrpcAsyncServer.owner (server (demo (take 1 client_connects)))
      = GrpcAsyncServer.Registering 1%N) as Ho by (vm_compute; reflexivity).
    assert (GrpcAsyncServer.rpc_handlers_ (server (demo (take 1 client_connects))) !! 1%N
      = Some (StreamRpcSystem.init_state 0)) as Hh by (vm_compute; reflexivity).
    unfold GrpcAsyncServer.env, GrpcAsyncServer.activation_env. rewrite Ho, Hh.
    split; [exact next_address_fresh|by left].
Qed.

Lemma demo_reach_run s ls s' :
  demo_reach s → env_run demo_env demo_exec s ls → run demo_exec s ls = Some s' → demo_reach s'.
Proof. intros. eapply reachable_execution; [done|]. by apply env_run_execution. Qed.

Lemma demo_connected : demo_reach (demo client_connects).
Proof.
  eapply (reachable_step _ _ (demo (take 5 client_connects)) (Server (GrpcAsyncServer.ActivateNext next_address))).
  - eapply (demo_reach_run _ (take 3 (drop 2 client_connects)) _ lifetime_demo_registered).
    + vm_compute. repeat split; by intros.
    + vm_compute. reflexivity.
  - split; [|vm_compute; reflexivity]. split; [|done]. split; [|done].
    assert (GrpcAsyncServer.run_thread (server (demo (take 5 client_connects)))
      = GrpcAsyncServer.Activating 1%N) as Ho by (vm_compute; reflexivity).
    assert (∃ h, GrpcAsyncServer.rpc_handlers_ (server (demo (take 5 client_connects))) !! 1%N = Some h
      ∧ StreamRpcSystem.arrived h = true) as (h & Hh & Ha).
    { destruct (_ !! 1%N) as [h|] eqn:Eh; [exists h; split; [done|]|vm_compute in Eh; discriminate Eh].
      apply (f_equal (fmap StreamRpcSystem.arrived)) in Eh. vm_compute in Eh. by injection Eh. }
    unfold GrpcAsyncServer.env, GrpcAsyncServer.activation_env. rewrite Ho, Hh.
    split; [exact next_address_fresh|by right].
Qed.

Lemma before_end_reachable : demo_reach before_end.
Proof.
  eapply (demo_reach_run _ shut_down _ demo_connected); [|vm_compute; reflexivity].
  vm_compute. repeat split; intros; try done. by match goal with H : _ |- _ => inversion H end.
Qed.

Definition owner_shuts_down : list demo_system_action :=
  [Server GrpcAsyncServer.EndCall; Server (GrpcAsyncServer.Shutdown GrpcAsyncServer.ShutdownAndWait);
   Server GrpcAsyncServer.ShutdownReturns; Server (GrpcAsyncServer.Reject 0); Server (GrpcAsyncServer.Take 0);
   Erasing (StreamRpcShutdown.Sys (StreamRpcSystem.Deliver 2%N false));
   Erasing StreamRpcShutdown.SyncExit; Erasing StreamRpcShutdown.Join; Erased].
Definition after_shutdown : demo_system := demo (client_connects ++ owner_shuts_down).

(** The comment at [register_async_stream] allows a [StreamInterface*] to be used
    until the server is destroyed. But [shutdown_and_wait], which the owner of the
    server may call at any time, makes [run_thread_] erase the handlers: the server
    is alive, the object behind the pointer is not. *)
Theorem stream_destroyed_by_shutdown :
  demo_reach after_shutdown ∧ failure after_shutdown = None ∧
  GrpcAsyncServer.owner (server after_shutdown) = GrpcAsyncServer.Ready ∧
  GrpcAsyncServer.run_thread (server after_shutdown) = GrpcAsyncServer.Polling ∧
  GrpcAsyncServer.rpc_handlers_ (server after_shutdown) = ∅ ∧ erasing after_shutdown = None.
Proof.
  split; [|vm_compute; repeat split; done].
  eapply (demo_reach_run _ owner_shuts_down _ demo_connected); [|vm_compute; reflexivity].
  vm_compute. repeat split; by intros ? [= <-].
Qed.


End ServerLifetimeRun.
