(* ===== verification/GrpcClientStream.v ===== *)
(** * A stream of updates on the client

    [src/include/grpcw/client/grpc_client_stream.hpp]: a stream is started when
    the client is connected and stopped when it is not; in between a thread of
    its own reads the updates and calls the user back.  *)
From S2P Require Import Prelude.

Module GrpcClientStream.
Section Stream.
Context {Update Status : Type}.

(** What a [ClientReader] is going to deliver: the updates [Read] returns
    before it returns false, and the status of [Finish]. *)
Record reader : Type := mkReader { reads : list Update; finish_status : Status }.

(** [TryCancel] makes the reads end early and changes the status; what is still
    delivered is up to gRPC. *)
Context (try_cancel : reader → reader).

(** [std::thread]: whether it has been joined, and whether its function has
    returned. *)
Record thread : Type := mkThread { joinable : bool; returned : bool }.

(** [init_func_ n] is the reader of the [n]-th start of the stream. *)
Record stream : Type := mkStream {
  context_ : bool; (* [context_ != nullptr] *)
  reader_ : option reader;
  stream_thread_ : option thread;
  init_func_ : nat → reader;
  starts : nat;
  on_update_ : bool; (* whether the callback is set *)
  on_finish_ : bool
}.

Inductive event : Type :=
| OnUpdate (update : Update)
| OnFinish (status : Status).

(** The constructor. *)
Definition make (init_func : nat → reader) : stream :=
  mkStream false None None init_func 0 false false.

Definition streaming (s : stream) : bool := context_ s.

Definition on_update (s : stream) : stream :=
  mkStream (context_ s) (reader_ s) (stream_thread_ s) (init_func_ s) (starts s) true (on_finish_ s).
Definition on_finish (s : stream) : stream :=
  mkStream (context_ s) (reader_ s) (stream_thread_ s) (init_func_ s) (starts s) (on_update_ s) true.

(** [stream_thread_ = std::make_unique<std::thread>(...)] destroys the previous
    thread object, which terminates the program if it is joinable. *)
Definition replace_thread (old : option thread) : outcome (option thread) :=
  match old with
  | Some (mkThread true _) => Fault std_terminate
  | _ => Ret (Some (mkThread true false))
  end.

Definition start_stream (s : stream) : outcome stream :=
  if streaming s then Ret s
  else
    t ← replace_thread (stream_thread_ s);
    Ret (mkStream true (Some (init_func_ s (starts s))) t (init_func_ s) (S (starts s))
           (on_update_ s) (on_finish_ s)).

(** One round of the loop of the stream's thread: a read, or the end. *)
Definition thread_step (s : stream) : option (stream * list event) :=
  match stream_thread_ s, reader_ s with
  | Some (mkThread j false), Some r =>
      match reads r with
      | u :: us =>
          Some (mkStream (context_ s) (Some (mkReader us (finish_status r))) (stream_thread_ s)
                  (init_func_ s) (starts s) (on_update_ s) (on_finish_ s),
                if on_update_ s then [OnUpdate u] else [])
      | [] =>
          Some (mkStream (context_ s) (reader_ s) (Some (mkThread j true))
                  (init_func_ s) (starts s) (on_update_ s) (on_finish_ s),
                if on_finish_ s then [OnFinish (finish_status r)] else [])
      end
  | _, _ => None
  end.

(** [join] lets the thread run to its end; one round for every read and one
    for the end are enough. *)
Fixpoint run_thread (fuel : nat) (s : stream) : stream * list event :=
  match fuel with
  | 0 => (s, [])
  | S fuel =>
      match thread_step s with
      | None => (s, [])
      | Some (s, out) => let '(s, outs) := run_thread fuel s in (s, out ++ outs)
      end
  end.

Definition rounds (s : stream) : nat :=
  match reader_ s with Some r => S (length (reads r)) | None => 0 end.

Definition join (s : stream) : outcome (stream * list event) :=
  match stream_thread_ s with
  | None => Fault null_dereference
  | Some (mkThread false _) => Fault (invalid_argument "thread is not joinable")
  | Some (mkThread true _) =>
      let '(s, out) := run_thread (rounds s) s in
      Ret (mkStream (context_ s) (reader_ s) (Some (mkThread false true))
             (init_func_ s) (starts s) (on_update_ s) (on_finish_ s), out)
  end.

Definition stop_stream (s : stream) : outcome (stream * list event) :=
  if negb (streaming s) then Ret (s, [])
  else
    '(s, out) ← join (mkStream (context_ s) (try_cancel <$> reader_ s) (stream_thread_ s)
                        (init_func_ s) (starts s) (on_update_ s) (on_finish_ s));
    Ret (mkStream false (reader_ s) (stream_thread_ s) (init_func_ s) (starts s)
           (on_update_ s) (on_finish_ s), out).

(** The implicit destructor destroys the thread object. *)
Definition destroy (s : stream) : outcome () :=
  match stream_thread_ s with
  | Some (mkThread true _) => Fault std_terminate
  | _ => Ret ()
  end.

(** ** The invariant of a stream: it has a context exactly while its thread has
    not been joined, and a context comes with a reader. *)
Definition wf (s : stream) : Prop :=
  match stream_thread_ s with
  | Some t => joinable t = context_ s
  | None => context_ s = false
  end ∧ (context_ s = true → is_Some (reader_ s)).

(** The results of the operations on well-formed streams. *)
Definition started (s : stream) : stream :=
  if streaming s then s
  else mkStream true (Some (init_func_ s (starts s))) (Some (mkThread true false))
         (init_func_ s) (S (starts s)) (on_update_ s) (on_finish_ s).

Definition stopped (s : stream) : stream :=
  if streaming s then
    mkStream false (match stream_thread_ s with
                    | Some (mkThread _ false) =>
                        (λ r, mkReader [] (finish_status (try_cancel r))) <$> reader_ s
                    | _ => try_cancel <$> reader_ s
                    end)
      (Some (mkThread false true)) (init_func_ s) (starts s) (on_update_ s) (on_finish_ s)
  else s.

(** The callbacks of a thread that runs to its end. *)
Definition callbacks_of (s : stream) (r : reader) : list event :=
  (if on_update_ s then OnUpdate <$> reads r else []) ++
  (if on_finish_ s then [OnFinish (finish_status r)] else []).

Definition stop_events (s : stream) : list event :=
  if streaming s then
    match stream_thread_ s, reader_ s with
    | Some (mkThread _ false), Some r => callbacks_of s (try_cancel r)
    | _, _ => []
    end
  else [].

Lemma wf_make f : wf (make f).
Proof. done. Qed.

Lemma wf_on_update s : wf s → wf (on_update s).
Proof. done. Qed.

Lemma wf_on_finish s : wf s → wf (on_finish s).
Proof. done. Qed.

Lemma start_stream_wf s : wf s → start_stream s = Ret (started s) ∧ wf (started s) ∧ streaming (started s) = true.
Proof.
  intros Hwf. pose proof Hwf as [Ht Hr]. unfold start_stream, started, streaming.
  destruct (context_ s) eqn:Hc.
  - done.
  - destruct (stream_thread_ s) as [[[] b]|]; simpl in *; try done;
      (split_and!; [done| |done]; split; [done|by eexists]).
Qed.

Lemma run_thread_all s r t :
  stream_thread_ s = Some (mkThread t false) → reader_ s = Some r →
  run_thread (rounds s) s =
    (mkStream (context_ s) (Some (mkReader [] (finish_status r))) (Some (mkThread t true))
       (init_func_ s) (starts s) (on_update_ s) (on_finish_ s), callbacks_of s r).
Proof.
  destruct s as [c rd th f n u e]; simpl. intros -> ->. destruct r as [us st].
  unfold rounds, callbacks_of; simpl.
  induction us as [|x us IH]; simpl.
  - by rewrite app_nil_r; destruct u.
  - simpl in IH. rewrite IH. by destruct u.
Qed.

Lemma run_thread_returned n s t :
  stream_thread_ s = Some (mkThread t true) → run_thread n s = (s, []).
Proof. intros Ht. destruct n; simpl; [done|]. unfold thread_step. by rewrite Ht. Qed.

#[local] Arguments run_thread fuel s : simpl never.

Lemma stop_stream_wf s :
  wf s → stop_stream s = Ret (stopped s, stop_events s) ∧ wf (stopped s) ∧
  streaming (stopped s) = false.
Proof.
  intros Hwf. pose proof Hwf as [Ht Hr].
  unfold stop_stream, stopped, stop_events, streaming.
  destruct (context_ s) eqn:Hc; simpl; [|done].
  destruct (stream_thread_ s) as [[j b]|] eqn:Hth; [|done]. simpl in Ht. subst j.
  destruct Hr as [r Hr]; [done|]. rewrite Hr. simpl. split; [|split; [split|]; done].
  unfold join. simpl. destruct b.
  - by rewrite (run_thread_returned _ _ true).
  - by rewrite (run_thread_all _ (try_cancel r) true).
Qed.

Lemma thread_step_wf s s' out :
  wf s → thread_step s = Some (s', out) → wf s' ∧ streaming s' = streaming s.
Proof.
  unfold thread_step, wf, streaming. intros [Ht Hr].
  destruct (stream_thread_ s) as [[j []]|] eqn:Eth; try done.
  destruct (reader_ s) as [[[|u us] st]|] eqn:Er; try done; simpl.
  - intros [= <- <-]. simpl. eauto.
  - intros [= <- <-]. simpl. eauto.
Qed.

Lemma destroy_stopped s : wf s → streaming s = false → destroy s = Ret ().
Proof.
  unfold wf, destroy, streaming. intros [Ht _] Hc. rewrite Hc in Ht.
  by destruct (stream_thread_ s) as [[[] ?]|].
Qed.

End Stream.
Arguments reader : clear implicits.
Arguments stream : clear implicits.
Arguments event : clear implicits.

(** ** Properties *)

(** The operations of the owner of a stream. *)
Inductive op : Type := Start | Stop | SetOnUpdate | SetOnFinish | ThreadStep.

Definition apply_op {U St} (try_cancel : reader U St → reader U St) (s : stream U St) (o : op)
    : outcome (stream U St * list (event U St)) :=
  match o with
  | Start => s ← start_stream s; Ret (s, [])
  | Stop => stop_stream try_cancel s
  | SetOnUpdate => Ret (on_update s, [])
  | SetOnFinish => Ret (on_finish s, [])
  | ThreadStep => Ret (default (s, []) (thread_step s))
  end.

Fixpoint apply_ops {U St} (try_cancel : reader U St → reader U St) (s : stream U St) (os : list op)
    : outcome (stream U St * list (event U St)) :=
  match os with
  | [] => Ret (s, [])
  | o :: os =>
      '(s, out) ← apply_op try_cancel s o;
      '(s, outs) ← apply_ops try_cancel s os;
      Ret (s, out ++ outs)
  end.

Lemma apply_op_wf {U St} try_cancel (s : stream U St) o :
  wf s → ∃ s' out, apply_op try_cancel s o = Ret (s', out) ∧ wf s'.
Proof.
  intros Hwf. destruct o; simpl.
  - destruct (start_stream_wf s Hwf) as (-> & ? & _). simpl. eauto.
  - destruct (stop_stream_wf try_cancel s Hwf) as (-> & ? & _). eauto.
  - eauto using wf_on_update.
  - eauto using wf_on_finish.
  - destruct (thread_step s) as [[s' out]|] eqn:E; simpl; [|eauto].
    apply thread_step_wf in E as [? _]; eauto.
Qed.

Lemma apply_ops_wf {U St} try_cancel (s : stream U St) os :
  wf s → ∃ s' out, apply_ops try_cancel s os = Ret (s', out) ∧ wf s'.
Proof.
  revert s. induction os as [|o os IH]; intros s Hwf; simpl; [eauto|].
  destruct (apply_op_wf try_cancel s o Hwf) as (s1 & out & -> & Hwf1). simpl.
  destruct (IH s1 Hwf1) as (s2 & outs & -> & ?). simpl. eauto.
Qed.

(** No sequence of starts, stops, callback changes and progress of the
    stream's thread makes the program terminate or join a thread twice: every
    operation returns, and a stream that is stopped last can be destroyed. *)
Theorem stream_never_terminates {U St} try_cancel (f : nat → reader U St) os :
  ∃ s out, apply_ops try_cancel (make f) (os ++ [Stop]) = Ret (s, out) ∧
    streaming s = false ∧ destroy s = Ret ().
Proof.
  assert (∀ s : stream U St, wf s →
    ∃ s' out, apply_ops try_cancel s (os ++ [Stop]) = Ret (s', out) ∧ wf s' ∧
      streaming s' = false) as H.
  { induction os as [|o os IH]; intros s Hwf; simpl.
    - destruct (stop_stream_wf try_cancel s Hwf) as (-> & ? & ?). simpl. eauto.
    - destruct (apply_op_wf try_cancel s o Hwf) as (s1 & out & -> & Hwf1). simpl.
      destruct (IH s1 Hwf1) as (s2 & outs & -> & ?). simpl. eauto. }
  destruct (H (make f) (wf_make f)) as (s & out & ? & ? & ?).
  exists s, out. split_and!; [done..|by apply destroy_stopped].
Qed.

(** C34: a stream whose callbacks are set before it starts delivers every update
    of its reader, in order, and then the status, once; a second [start_stream]
    has no effect while it is streaming. *)
Theorem stream_delivers_all {U St} try_cancel (f : nat → reader U St) n :
  length (reads (f 0)) < n →
  ∃ s, apply_ops try_cancel (make f)
         ([SetOnUpdate; SetOnFinish; Start; Start] ++ replicate n ThreadStep)
       = Ret (s, (OnUpdate <$> reads (f 0)) ++ [OnFinish (finish_status (f 0))]) ∧
    streaming s = true.
Proof.
  simpl. set (s0 := mkStream _ _ _ _ _ _ _).
  assert (∀ us m s, stream_thread_ s = Some (mkThread true false) →
    reader_ s = Some (mkReader us (finish_status (f 0))) → on_update_ s = true →
    on_finish_ s = true → streaming s = true → length us < m →
    ∃ s', apply_ops try_cancel s (replicate m ThreadStep)
      = Ret (s', (OnUpdate <$> us) ++ [OnFinish (finish_status (f 0))]) ∧
      streaming s' = true) as H.
  { assert (∀ m s, stream_thread_ s = Some (mkThread true true) →
      apply_ops try_cancel s (replicate m ThreadStep) = Ret (s, [])) as Hidle.
    { induction m as [|m IH]; intros s Hs; [done|]. simpl. unfold thread_step.
      rewrite Hs. simpl. by rewrite IH. }
    intros us. induction us as [|u us IH]; intros [|m] s Ht Hr Hu Hf Hst Hm; simpl in *; try lia.
    - unfold thread_step. rewrite Ht, Hr, Hf. simpl. rewrite Hidle by done. by eexists.
    - unfold thread_step. rewrite Ht, Hr, Hu. simpl.
      edestruct (IH m) as (s' & -> & ?); [..|by exists s']; simpl; (done || lia). }
  intros Hn. destruct (H (reads (f 0)) n s0) as (s' & -> & ?); try done.
  - subst s0. simpl. by destruct (f 0).
  - by exists s'.
Qed.

Lemma stream_delivers_all_witness :
  ∃ s, apply_ops id (make (λ _, mkReader [1; 2; 3] true))
         ([SetOnUpdate; SetOnFinish; Start; Start] ++ replicate 4 ThreadStep)
       = Ret (s, [OnUpdate 1; OnUpdate 2; OnUpdate 3; OnFinish true]) ∧
    streaming s = true.
Proof. apply (stream_delivers_all id (λ _, mkReader [1; 2; 3] true) 4). simpl. lia. Defined.

(** An update that is read before [on_update] is called is lost. A stream
    that is registered while the client is connected starts at once, before the
    caller can set the callbacks of the [GrpcClientStreamCallbackSetter]. *)
Theorem update_before_callback_is_lost {U St} try_cancel (f : nat → reader U St) u us :
  reads (f 0) = u :: us →
  ∃ s, apply_ops try_cancel (make f) [Start; ThreadStep; SetOnUpdate; SetOnFinish] = Ret (s, []) ∧
    reader_ s = Some (mkReader us (finish_status (f 0))).
Proof.
  intros Hu. simpl. unfold thread_step. simpl. rewrite Hu. simpl. by eexists.
Qed.

Lemma update_before_callback_is_lost_witness :
  ∃ s, apply_ops id (make (λ _, mkReader [1; 2; 3] true))
         [Start; ThreadStep; SetOnUpdate; SetOnFinish] = Ret (s, []) ∧
    reader_ s = Some (mkReader [2; 3] true).
Proof. apply (update_before_callback_is_lost id (λ _, mkReader [1; 2; 3] true) 1 [2; 3]). reflexivity. Defined.

End GrpcClientStream.
