(* ===== verification/GrpcClient.v ===== *)
(** * The client

    [src/include/grpcw/client/grpc_client.hpp] and
    [src/include/grpcw/client/grpc_client_state.hpp]. One thread owns the
    client and calls [change_server], [kill_streams_and_channel] and the
    destructor; [run_thread_] reacts to the changes of the connection that gRPC
    reports on [queue_]; the streams have threads of their own; [use_stub],
    [get_state] and [register_stream] may be called at any time. Every critical
    section of [shared_data_] is one step ([AtomicData.linearizable]). *)
From S2P Require Import Prelude GrpcClientStream.

Module GrpcClient.
Export GrpcClientStream.

(** ** States of the connection *)

(** [enum class GrpcClientState]; the last constructor stands for the values
    that are none of the enumerators. *)
Inductive GrpcClientState : Type :=
| not_connected
| attempting_to_connect
| connected
| invalid_client_state (value : Z).

#[global] Instance GrpcClientState_eq_dec : EqDecision GrpcClientState.
Proof. solve_decision. Defined.

(** [to_string] and [operator<<] *)
Definition to_string (state : GrpcClientState) : outcome string :=
  match state with
  | not_connected => Ret "not_connected"
  | attempting_to_connect => Ret "attempting_to_connect"
  | connected => Ret "connected"
  | invalid_client_state _ => Fault (invalid_argument "Invalid GrpcClientState")
  end.

(** gRPC's [grpc_connectivity_state], by the names the source uses. *)
Inductive grpc_connectivity_state : Type :=
| GRPC_CHANNEL_IDLE
| GRPC_CHANNEL_CONNECTING
| GRPC_CHANNEL_READY
| GRPC_CHANNEL_TRANSIENT_FAILURE
| GRPC_CHANNEL_SHUTDOWN
| invalid_connectivity_state (value : Z).

#[global] Instance connectivity_eq_dec : EqDecision grpc_connectivity_state.
Proof. solve_decision. Defined.

Definition to_cnc_client_state (state : grpc_connectivity_state) : outcome GrpcClientState :=
  match state with
  | GRPC_CHANNEL_SHUTDOWN | GRPC_CHANNEL_IDLE => Ret not_connected
  | GRPC_CHANNEL_CONNECTING | GRPC_CHANNEL_TRANSIENT_FAILURE => Ret attempting_to_connect
  | GRPC_CHANNEL_READY => Ret connected
  | invalid_connectivity_state _ => Fault (invalid_argument "Invalid grpc_connectivity_state")
  end.

Section Client.
Context {Update Status : Type}.
Context (try_cancel : reader Update Status → reader Update Status).

Abbreviation client_stream := (stream Update Status).

(** [struct SharedData]. A channel is named by a number; the stub is the one of
    the channel. *)
Record SharedData : Type := mkSharedData {
  connection_state : grpc_connectivity_state;
  channel : option nat;
  stub : option nat;
  streams : gmap addr client_stream
}.

(** [grpc::CompletionQueue]: whether the notification asked for with
    [NotifyOnStateChange] is outstanding, and whether it was shut down. *)
Record completion_queue : Type := mkQueue { outstanding : bool; is_shutdown : bool }.

(** What the owner of the client does after [kill_streams_and_channel]. *)
Inductive continuation : Type :=
| Killed
| ChangeServer (address : string)
| ChangeServerInProcess (in_process_channel : nat)
| Destroy.

(** The thread that owns the client, inside [kill_streams_and_channel]: after
    the critical section, after [queue_->Shutdown()], or outside. *)
Inductive owner_pc : Type :=
| Outside
| BeforeShutdown (k : continuation)
| BeforeJoin (k : continuation)
| Destroyed.

Record state : Type := mkState {
  shared : SharedData;
  using_in_process_server_ : bool;
  server_address_ : string;
  queue_ : option completion_queue;
  running : bool; (* [run_thread_] is joinable and has not returned *)
  owner : owner_pc;
  reported : list GrpcClientState; (* calls of the connection callback *)
  stream_events : list (addr * event Update Status);
  crashed : option fault
}.

(** [GrpcClient() = default] *)
Definition init : state :=
  mkState (mkSharedData GRPC_CHANNEL_IDLE None None ∅) false "" None false Outside [] [] None.

Definition with_shared (d : SharedData) (s : state) : state :=
  mkState d (using_in_process_server_ s) (server_address_ s) (queue_ s) (running s) (owner s)
    (reported s) (stream_events s) (crashed s).
Definition with_queue (q : option completion_queue) (s : state) : state :=
  mkState (shared s) (using_in_process_server_ s) (server_address_ s) q (running s) (owner s)
    (reported s) (stream_events s) (crashed s).
Definition with_owner (o : owner_pc) (s : state) : state :=
  mkState (shared s) (using_in_process_server_ s) (server_address_ s) (queue_ s) (running s) o
    (reported s) (stream_events s) (crashed s).
Definition with_running (b : bool) (s : state) : state :=
  mkState (shared s) (using_in_process_server_ s) (server_address_ s) (queue_ s) b (owner s)
    (reported s) (stream_events s) (crashed s).
Definition with_server (in_process : bool) (address : string) (s : state) : state :=
  mkState (shared s) in_process address (queue_ s) (running s) (owner s)
    (reported s) (stream_events s) (crashed s).
(** [if (state_changed) connection_change_callback(cnc_client_state);] *)
Definition report (changed : bool) (c : GrpcClientState) (s : state) : state :=
  mkState (shared s) (using_in_process_server_ s) (server_address_ s) (queue_ s) (running s)
    (owner s) (if changed then reported s ++ [c] else reported s) (stream_events s) (crashed s).
Definition record_events (evs : list (addr * event Update Status)) (s : state) : state :=
  mkState (shared s) (using_in_process_server_ s) (server_address_ s) (queue_ s) (running s)
    (owner s) (reported s) (stream_events s ++ evs) (crashed s).
Definition crash (e : fault) (s : state) : state :=
  mkState (shared s) (using_in_process_server_ s) (server_address_ s) (queue_ s) (running s)
    (owner s) (reported s) (stream_events s) (Some e).

(** [for (auto& stream_pair : data.streams) stream_pair.second->start_stream( *data.stub);] *)
Definition start_streams (d : SharedData) : outcome SharedData :=
  match stub d with
  | None => if decide (streams d = ∅) then Ret d else Fault null_dereference
  | Some _ =>
      m ← map_outcome start_stream (streams d);
      Ret (mkSharedData (connection_state d) (channel d) (stub d) m)
  end.

(** [for (auto& stream_pair : data.streams) stream_pair.second->stop_stream();] *)
Definition stop_streams (d : SharedData)
    : outcome (SharedData * list (addr * event Update Status)) :=
  m ← map_outcome (stop_stream try_cancel) (streams d);
  Ret (mkSharedData (connection_state d) (channel d) (stub d) (fst <$> m),
       flat_map (λ kx, (kx.1,.) <$> kx.2.2) (map_to_list m)).

(** The critical section of [kill_streams_and_channel]. *)
Definition kill_section (d : SharedData)
    : outcome (SharedData * list (addr * event Update Status)) :=
  '(d, evs) ← stop_streams d;
  Ret (mkSharedData (connection_state d) None None (streams d), evs).

(** The critical section of [change_server(address, callback)]: the state of
    the client and whether it has changed are used after it. [fresh_channel] is
    the channel that [CreateCustomChannel] returns, [new_state] its state. *)
Definition change_server_section (fresh_channel : nat) (new_state : grpc_connectivity_state)
    (d : SharedData) : outcome (SharedData * GrpcClientState * bool) :=
  cnc_client_state ← to_cnc_client_state new_state;
  old ← to_cnc_client_state (connection_state d);
  Ret (mkSharedData new_state (Some fresh_channel) (Some fresh_channel) (streams d),
       cnc_client_state, negb (bool_decide (cnc_client_state = old))).

(** The critical section of [change_server(in_process_channel)]. *)
Definition in_process_section (in_process_channel : nat) (d : SharedData) : SharedData :=
  mkSharedData GRPC_CHANNEL_READY (Some in_process_channel) (Some in_process_channel) (streams d).

(** What an iteration of [run] leaves behind: the data, the events of stopped
    streams, whether the notification was asked for again, and the report. *)
Record iteration : Type := mkIteration {
  it_data : SharedData;
  it_events : list (addr * event Update Status);
  it_rearmed : bool;
  it_report : option GrpcClientState
}.

(** The critical section of [run]; [current] is what [GetState] returns. *)
Definition run_section (result_ok : bool) (current : grpc_connectivity_state) (d : SharedData)
    : outcome iteration :=
  match channel d with
  | Some _ =>
      if result_ok then
        old_client_state ← to_cnc_client_state (connection_state d);
        cnc_client_state ← to_cnc_client_state current;
        let d := mkSharedData current (channel d) (stub d) (streams d) in
        if decide (cnc_client_state = old_client_state) then Ret (mkIteration d [] true None)
        else if decide (current = GRPC_CHANNEL_READY) then
          d ← start_streams d; Ret (mkIteration d [] true (Some cnc_client_state))
        else
          '(d, evs) ← stop_streams d; Ret (mkIteration d evs true (Some cnc_client_state))
      else Ret (mkIteration d [] true None)
  | None =>
      c ← to_cnc_client_state (connection_state d);
      if decide (c = not_connected) then Ret (mkIteration d [] false None)
      else Ret (mkIteration (mkSharedData GRPC_CHANNEL_SHUTDOWN None (stub d) (streams d)) []
                  false (Some not_connected))
  end.

(** The critical section of [register_stream]; [key] is the address of the new
    stream. *)
Definition register_section (key : addr) (init_func : nat → reader Update Status)
    (d : SharedData) : outcome SharedData :=
  let new_stream := make init_func in
  new_stream ← (match channel d with
                | Some _ =>
                    if decide (connection_state d = GRPC_CHANNEL_READY) then
                      match stub d with
                      | Some _ => start_stream new_stream
                      | None => Fault null_dereference
                      end
                    else Ret new_stream
                | None => Ret new_stream
                end);
  Ret (mkSharedData (connection_state d) (channel d) (stub d) (emplace key new_stream (streams d))).

(** [on_stream_update] and [on_stream_finish]: an unknown key is ignored. *)
Definition on_stream (set_callback : client_stream → client_stream) (key : addr)
    (d : SharedData) : SharedData :=
  mkSharedData (connection_state d) (channel d) (stub d) (alter set_callback key (streams d)).

(** [use_stub]: the result, or the failure of [usage_func( *data.stub)]. *)
Definition use_stub (d : SharedData) : outcome bool :=
  if decide (connection_state d = GRPC_CHANNEL_READY) then
    match stub d with
    | Some _ => Ret true
    | None => Fault null_dereference
    end
  else Ret false.

Definition get_state (d : SharedData) : outcome GrpcClientState :=
  to_cnc_client_state (connection_state d).

(** ** Threads *)
Inductive action : Type :=
| Kill (k : continuation)
| Shutdown
| Join (fresh_channel : nat) (new_state : grpc_connectivity_state)
| RunNext (result_ok : bool) (current : grpc_connectivity_state)
| RunExit
| RegisterStream (key : addr) (init_func : nat → reader Update Status)
| OnStreamUpdate (key : addr)
| OnStreamFinish (key : addr)
| StreamStep (key : addr)
| UseStub
| GetState.

(** The start of [kill_streams_and_channel]. *)
Definition exec_kill (k : continuation) (s : state) : option state :=
  match owner s with
  | Outside =>
      match kill_section (shared s) with
      | Ret (d, evs) => Some (with_owner (BeforeShutdown k) (record_events evs (with_shared d s)))
      | Fault e => Some (crash e s)
      end
  | _ => None
  end.

(** [if (queue_) queue_->Shutdown();] *)
Definition exec_shutdown (s : state) : option state :=
  match owner s with
  | BeforeShutdown k =>
      Some (with_owner (BeforeJoin k)
        (with_queue ((λ q, mkQueue (outstanding q) true) <$> queue_ s) s))
  | _ => None
  end.

(** The join, which waits for [run_thread_], and the rest of the function that
    called [kill_streams_and_channel]. *)
Definition exec_join (fresh_channel : nat) (new_state : grpc_connectivity_state) (s : state)
    : option state :=
  match owner s, running s with
  | BeforeJoin Killed, false => Some (with_owner Outside s)
  | BeforeJoin Destroy, false =>
      match map_outcome destroy (streams (shared s)) with
      | Ret _ => Some (with_owner Destroyed s)
      | Fault e => Some (crash e s)
      end
  | BeforeJoin (ChangeServer address), false =>
      match change_server_section fresh_channel new_state (shared s) with
      | Ret (d, c, changed) =>
          Some (with_owner Outside (with_running true (report changed c
            (with_queue (Some (mkQueue true false)) (with_shared d (with_server false address s))))))
      | Fault e => Some (crash e s)
      end
  | BeforeJoin (ChangeServerInProcess ch), false =>
      Some (with_owner Outside
        (with_shared (in_process_section ch (shared s)) (with_server true "In-Process" s)))
  | _, _ => None
  end.

(** [queue_->Next] returns a notification and an iteration of [run] follows. *)
Definition exec_run_next (result_ok : bool) (current : grpc_connectivity_state) (s : state)
    : option state :=
  match queue_ s with
  | Some q =>
      if running s && outstanding q then
        match run_section result_ok current (shared s) with
        | Ret it =>
            Some (record_events (it_events it)
              (report (bool_decide (is_Some (it_report it))) (default not_connected (it_report it))
                (with_queue (Some (mkQueue (it_rearmed it) (is_shutdown q)))
                  (with_shared (it_data it) s))))
        | Fault e => Some (crash e s)
        end
      else None
  | None => None
  end.

(** [queue_->Next] returns false once the queue is shut down and drained. *)
Definition exec_run_exit (s : state) : option state :=
  match queue_ s with
  | Some q =>
      if running s && is_shutdown q && negb (outstanding q) then Some (with_running false s)
      else None
  | None => None
  end.

Definition exec_live (s : state) (a : action) : option state :=
  match a with
  | Kill k => exec_kill k s
  | Shutdown => exec_shutdown s
  | Join fresh_channel new_state => exec_join fresh_channel new_state s
  | RunNext result_ok current => exec_run_next result_ok current s
  | RunExit => exec_run_exit s
  | RegisterStream key init_func =>
      if bool_decide (streams (shared s) !! key = None) then
        match register_section key init_func (shared s) with
        | Ret d => Some (with_shared d s)
        | Fault e => Some (crash e s)
        end
      else None
  | OnStreamUpdate key => Some (with_shared (on_stream on_update key (shared s)) s)
  | OnStreamFinish key => Some (with_shared (on_stream on_finish key (shared s)) s)
  | StreamStep key =>
      st ← streams (shared s) !! key;
      '(st', out) ← thread_step st;
      let d := shared s in
      Some (record_events ((key,.) <$> out) (with_shared
        (mkSharedData (connection_state d) (channel d) (stub d) (<[key := st']> (streams d))) s))
  | UseStub =>
      match use_stub (shared s) with Ret _ => Some s | Fault e => Some (crash e s) end
  | GetState =>
      match get_state (shared s) with Ret _ => Some s | Fault e => Some (crash e s) end
  end.

Definition exec (s : state) (a : action) : option state :=
  match crashed s, owner s with
  | Some _, _ | _, Destroyed => None
  | None, _ => exec_live s a
  end.

(** gRPC only returns enumerators. *)
Definition valid_state (c : grpc_connectivity_state) : Prop :=
  match c with invalid_connectivity_state _ => False | _ => True end.
Definition action_ok (a : action) : Prop :=
  match a with
  | Join _ c | RunNext _ c => valid_state c
  | _ => True
  end.

(** A client that is never switched to a server in the same process. *)
Definition external_only (s : state) (a : action) : bool :=
  match a with Kill (ChangeServerInProcess _) => false | _ => true end.

(** A new channel is not connected yet. *)
Definition starts_unconnected (s : state) (a : action) : bool :=
  external_only s a &&
  match a with Join _ GRPC_CHANNEL_READY => false | _ => true end.

(** ** Invariant of the shared data *)
Definition cnc (c : grpc_connectivity_state) : GrpcClientState :=
  match to_cnc_client_state c with Ret x => x | Fault _ => not_connected end.

Lemma to_cnc_valid c : valid_state c → to_cnc_client_state c = Ret (cnc c).
Proof. by destruct c. Qed.

Lemma cnc_ready c : cnc c = connected → c = GRPC_CHANNEL_READY.
Proof. by destruct c. Qed.

(** The streams are well-formed and only stream while the client is connected;
    the stub comes and goes with the channel. *)
Record data_ok (d : SharedData) : Prop := mkDataOk {
  ok_wf : map_Forall (λ _, wf) (streams d);
  ok_stub : is_Some (stub d) ↔ is_Some (channel d);
  ok_state : valid_state (connection_state d);
  ok_streaming : map_Forall (λ _ st, streaming st = true →
    is_Some (channel d) ∧ connection_state d = GRPC_CHANNEL_READY) (streams d)
}.

(** The converse: every stream is running while the client is connected. *)
Definition follows (d : SharedData) : Prop :=
  is_Some (channel d) → connection_state d = GRPC_CHANNEL_READY →
  map_Forall (λ _ st, streaming st = true) (streams d).

Lemma start_streams_ok d :
  data_ok d → is_Some (stub d) →
  start_streams d
  = Ret (mkSharedData (connection_state d) (channel d) (stub d) (started <$> streams d)).
Proof.
  intros [Hwf _ _ _] [c Hc]. unfold start_streams. rewrite Hc.
  rewrite (map_outcome_total _ started); [done|].
  intros k st Hk. by destruct (start_stream_wf st (Hwf _ _ Hk)).
Qed.

Lemma stop_streams_ok d :
  data_ok d → ∃ evs, stop_streams d
  = Ret (mkSharedData (connection_state d) (channel d) (stub d)
           (stopped try_cancel <$> streams d), evs).
Proof.
  intros [Hwf _ _ _]. unfold stop_streams.
  rewrite (map_outcome_total _ (λ st, (stopped try_cancel st, stop_events try_cancel st))).
  - simpl. rewrite <-map_fmap_compose. by eexists.
  - intros k st Hk. by destruct (stop_stream_wf try_cancel st (Hwf _ _ Hk)).
Qed.

Lemma stopped_ok c ch sb (m : gmap addr client_stream) :
  map_Forall (λ _, wf) m → (is_Some sb ↔ is_Some ch) → valid_state c →
  data_ok (mkSharedData c ch sb (stopped try_cancel <$> m)).
Proof.
  intros Hwf Hs Hv. constructor; simpl; [| done | done |];
    intros k st (st0 & <- & Hk)%lookup_fmap_Some;
    destruct (stop_stream_wf try_cancel st0 (Hwf _ _ Hk)) as (_ & ? & Hst); [done|].
  by rewrite Hst.
Qed.

Lemma kill_section_ok d :
  data_ok d → ∃ evs d', kill_section d = Ret (d', evs) ∧ data_ok d' ∧ channel d' = None ∧
    connection_state d' = connection_state d ∧
    map_Forall (λ _ st, streaming st = false) (streams d').
Proof.
  intros Hd. destruct (stop_streams_ok d Hd) as [evs E]. unfold kill_section. rewrite E. simpl.
  destruct Hd. do 2 eexists. split_and!; [done| |done|done|].
  - by apply stopped_ok.
  - intros k st (st0 & <- & Hk)%lookup_fmap_Some.
    by destruct (stop_stream_wf try_cancel st0 (ok_wf0 _ _ Hk)) as (_ & _ & ?).
Qed.

(** Without a channel no stream is streaming, so the data may take any state. *)
Lemma no_channel_ok d c ch sb :
  data_ok d → channel d = None → (is_Some sb ↔ is_Some ch) → valid_state c →
  data_ok (mkSharedData c ch sb (streams d)).
Proof.
  intros [Hwf _ _ Hst] Hch Hs Hv. constructor; simpl; [done..|].
  intros k st Hk Hs'. destruct (Hst k st Hk Hs') as [[? ?] _]. congruence.
Qed.

Lemma change_server_section_ok ch c d :
  data_ok d → channel d = None → valid_state c →
  ∃ d', change_server_section ch c d
        = Ret (d', cnc c, negb (bool_decide (cnc c = cnc (connection_state d)))) ∧
    data_ok d' ∧ is_Some (channel d') ∧ connection_state d' = c.
Proof.
  intros Hd Hch Hc. unfold change_server_section.
  rewrite (to_cnc_valid c Hc), (to_cnc_valid _ (ok_state d Hd)). simpl.
  eexists. split_and!; [done| |by eexists|done]. by apply no_channel_ok.
Qed.

Lemma in_process_section_ok ch d :
  data_ok d → channel d = None → data_ok (in_process_section ch d).
Proof. intros. by apply no_channel_ok. Qed.

(** What an iteration of [run] does, whatever happened to the channel. *)
Record iteration_ok (d : SharedData) (it : iteration) : Prop := mkIterationOk {
  io_data : data_ok (it_data it);
  io_channel : channel (it_data it) = channel d;
  io_rearmed : it_rearmed it = bool_decide (is_Some (channel d));
  io_report : match it_report it with
              | Some c => c = cnc (connection_state (it_data it)) ∧ c ≠ cnc (connection_state d)
              | None => cnc (connection_state (it_data it)) = cnc (connection_state d)
              end;
  io_dead : channel d = None → cnc (connection_state (it_data it)) = not_connected;
  io_follows : follows d → follows (it_data it)
}.

Lemma started_ok d c :
  data_ok d → is_Some (channel d) → c = GRPC_CHANNEL_READY →
  data_ok (mkSharedData c (channel d) (stub d) (started <$> streams d)) ∧
  follows (mkSharedData c (channel d) (stub d) (started <$> streams d)).
Proof.
  intros [Hwf Hs _ _] Hch ->.
  assert (∀ k st, (started <$> streams d) !! k = Some st → wf st ∧ streaming st = true) as H.
  { intros k st (st0 & <- & Hk)%lookup_fmap_Some.
    by destruct (start_stream_wf st0 (Hwf _ _ Hk)) as (_ & ? & ?). }
  split; [constructor; simpl; [|done..|]|].
  - intros k st Hk. by destruct (H k st Hk).
  - by intros k st _ _.
  - intros _ _ k st Hk. by destruct (H k st Hk).
Qed.

Lemma run_section_ok r c d :
  data_ok d → valid_state c → ∃ it, run_section r c d = Ret it ∧ iteration_ok d it.
Proof.
  intros Hd Hc. pose proof Hd as [Hwf Hs Hv Hst]. unfold run_section.
  destruct (channel d) as [ch|] eqn:Ech.
  - destruct r; [|eexists; split; [done|]; constructor; simpl; by rewrite ?Ech].
    rewrite (to_cnc_valid _ Hv), (to_cnc_valid c Hc). cbn [mbind outcome_bind].
    destruct (decide (cnc c = cnc (connection_state d))) as [Eq|Ne].
    + eexists; split; [done|]. constructor; simpl; rewrite ?Ech; try done.
      * constructor; simpl; rewrite ?Ech; try done.
        intros k st Hk Hstr. destruct (Hst k st Hk Hstr) as [_ E]. split; [by eexists|].
        apply cnc_ready. by rewrite Eq, E.
      * unfold follows. simpl. rewrite Ech. intros Hf ? ->. apply Hf; [done|].
        by apply cnc_ready.
    + set (d1 := mkSharedData c (Some ch) (stub d) (streams d)).
      destruct (decide (c = GRPC_CHANNEL_READY)) as [Ec|Nc].
      * assert (∃ sb, stub d = Some sb) as [sb Esb] by (apply Hs; by eexists).
        unfold start_streams. simpl. rewrite Esb.
        rewrite (map_outcome_total _ started)
          by (intros k st Hk; by destruct (start_stream_wf st (Hwf _ _ Hk))).
        cbn [mbind outcome_bind]. destruct (started_ok d c Hd) as [Hd' Hf]; [by eexists|done|].
        eexists; split; [done|]. rewrite Ech, Esb in *. constructor; simpl; by rewrite ?Ech.
      * unfold stop_streams. simpl.
        rewrite (map_outcome_total _ (λ st, (stopped try_cancel st, stop_events try_cancel st)))
          by (intros k st Hk; by destruct (stop_stream_wf try_cancel st (Hwf _ _ Hk))).
        cbn [mbind outcome_bind]. eexists; split; [done|].
        constructor; cbn -[cnc]; rewrite <-?map_fmap_compose; try by rewrite ?Ech.
        { by apply stopped_ok. }
        by intros _ _ ?.
  - rewrite (to_cnc_valid _ Hv). cbn [mbind outcome_bind].
    destruct (decide (cnc (connection_state d) = not_connected)) as [E|E].
    + eexists; split; [done|]. constructor; simpl; by rewrite ?Ech.
    + eexists; split; [done|]. constructor; simpl; rewrite ?Ech; try done.
      by apply no_channel_ok.
Qed.

Lemma register_section_ok key f d :
  data_ok d → streams d !! key = None →
  ∃ d', register_section key f d = Ret d' ∧ data_ok d' ∧ channel d' = channel d ∧
    connection_state d' = connection_state d ∧ (follows d → follows d').
Proof.
  intros Hd Hk. pose proof Hd as [Hwf Hs Hv Hst].
  assert (∀ st, wf st → (streaming st = true → is_Some (channel d) ∧
      connection_state d = GRPC_CHANNEL_READY) →
    data_ok (mkSharedData (connection_state d) (channel d) (stub d) (<[key:=st]> (streams d))))
    as Hins.
  { intros st Hst1 Hst2. constructor; simpl; try done; by apply map_Forall_insert_2. }
  assert (∀ st, (is_Some (channel d) → connection_state d = GRPC_CHANNEL_READY →
      streaming st = true) → follows d →
    follows (mkSharedData (connection_state d) (channel d) (stub d) (<[key:=st]> (streams d))))
    as Hfol.
  { intros st H Hf Hc Hr. simpl in *. apply map_Forall_insert_2; [by apply H|by apply Hf]. }
  unfold register_section.
  destruct (channel d) as [ch|] eqn:Ech; [destruct (decide _) as [E|E]|].
  - destruct (proj2 Hs) as [sb Esb]; [by eexists|]. rewrite Esb in *.
    destruct (start_stream_wf (make f) (wf_make f)) as (-> & ? & ?).
    cbn [mbind outcome_bind]. rewrite emplace_fresh by done.
    eexists. split_and!; [done|apply Hins; [done|]|done|done|by apply Hfol].
    intros _. split; [by eexists|done].
  - cbn [mbind outcome_bind]. rewrite emplace_fresh by done.
    eexists. split_and!; [done|by apply Hins|done|done|by apply Hfol].
  - cbn [mbind outcome_bind]. rewrite emplace_fresh by done.
    eexists. split_and!; [done|by apply Hins|done|done|]. apply Hfol. by intros [].
Qed.

(** Changes of a single stream that keep it well-formed and running or not. *)
Lemma change_stream_ok d m :
  data_ok d →
  (∀ k st, m !! k = Some st → wf st ∧
    ∃ st0, streams d !! k = Some st0 ∧ streaming st0 = streaming st) →
  data_ok (mkSharedData (connection_state d) (channel d) (stub d) m) ∧
  (follows d → follows (mkSharedData (connection_state d) (channel d) (stub d) m)).
Proof.
  intros [Hwf Hs Hv Hst] Hm. split; [constructor; simpl; [|done..|]|].
  - intros k st Hk. by destruct (Hm k st Hk).
  - intros k st Hk. destruct (Hm k st Hk) as (_ & st0 & Hk0 & <-). by apply (Hst k).
  - intros Hf Hc Hr k st Hk. destruct (Hm k st Hk) as (_ & st0 & Hk0 & <-).
    by apply (Hf Hc Hr k).
Qed.

Lemma on_stream_ok set_callback key d :
  (∀ st, wf st → wf (set_callback st) ∧ streaming (set_callback st) = streaming st) →
  data_ok d →
  data_ok (on_stream set_callback key d) ∧ (follows d → follows (on_stream set_callback key d)).
Proof.
  intros H Hd. apply change_stream_ok; [done|]. pose proof (ok_wf d Hd) as Hwf.
  intros k st. destruct (decide (key = k)) as [<-|Hne].
  - rewrite lookup_alter_eq. intros (st0 & Hk & ->)%fmap_Some.
    destruct (H st0 (Hwf _ _ Hk)). eauto.
  - rewrite lookup_alter_ne by done. intros Hk. split; [by apply (Hwf k)|eauto].
Qed.

Lemma stream_step_ok key st st' out d :
  data_ok d → streams d !! key = Some st → thread_step st = Some (st', out) →
  data_ok (mkSharedData (connection_state d) (channel d) (stub d) (<[key:=st']> (streams d))) ∧
  (follows d → follows (mkSharedData (connection_state d) (channel d) (stub d)
     (<[key:=st']> (streams d)))).
Proof.
  intros Hd Hk Hst. pose proof (ok_wf d Hd) as Hwf.
  destruct (thread_step_wf st st' out (Hwf _ _ Hk) Hst) as [? ?].
  apply change_stream_ok; [done|]. intros k x. destruct (decide (key = k)) as [<-|Hne].
  - rewrite lookup_insert_eq. intros [= <-]. eauto.
  - rewrite lookup_insert_ne by done. intros Hx. split; [by apply (Hwf k)|eauto].
Qed.

(** ** Invariant of the client *)
Definition drained (q : option completion_queue) : Prop :=
  match q with Some q => is_shutdown q = true ∧ outstanding q = false | None => True end.

(** Where the owner is decides whether the channel exists and what the queue
    may hold while [run_thread_] is still there. *)
Definition owner_ok (s : state) : Prop :=
  match owner s, running s with
  | Outside, true => is_Some (channel (shared s)) ∧ queue_ s = Some (mkQueue true false)
  | BeforeShutdown _, true =>
      channel (shared s) = None ∧ ∃ b, queue_ s = Some (mkQueue b false)
  | BeforeJoin _, true =>
      channel (shared s) = None ∧ ∃ b, queue_ s = Some (mkQueue b true)
  | Destroyed, true => False
  | Outside, false => drained (queue_ s)
  | (BeforeShutdown _ | BeforeJoin _ | Destroyed), false =>
      channel (shared s) = None ∧ drained (queue_ s)
  end.

Record inv (s : state) : Prop := mkInv {
  inv_data : data_ok (shared s);
  inv_owner : owner_ok s
}.

Lemma client_init_inv : inv init.
Proof. constructor; [|done]. by constructor. Qed.

(** Splits the guards and sub-computations of a step. *)
Ltac split_exec H :=
  repeat match type of H with
  | context [match ?x with _ => _ end] => let E := fresh "E" in destruct x eqn:E; try discriminate H
  end.

(** The steps of the owner and of [run_thread_]. *)
Lemma exec_kill_ok k s s' :
  inv s → exec_kill k s = Some s' →
  inv s' ∧ crashed s' = crashed s ∧ reported s' = reported s ∧ running s' = running s ∧
  owner s = Outside ∧ owner s' = BeforeShutdown k ∧ channel (shared s') = None ∧
  queue_ s' = queue_ s ∧ connection_state (shared s') = connection_state (shared s).
Proof.
  intros [Hd Ho] H. unfold exec_kill, owner_ok in *.
  destruct (owner s) eqn:Eo; try done.
  destruct (kill_section_ok _ Hd) as (evs & d' & Ek & Hd' & Hc & Hcs & _).
  rewrite Ek in H. injection H as <-. simpl. split_and!; try done.
  constructor; [done|]. unfold owner_ok. simpl.
  destruct (running s); [|done]. destruct Ho as [_ ->]. eauto.
Qed.

Lemma exec_shutdown_ok s s' :
  inv s → exec_shutdown s = Some s' →
  inv s' ∧ crashed s' = crashed s ∧ reported s' = reported s ∧ shared s' = shared s ∧
  running s' = running s ∧ channel (shared s) = None ∧
  (∃ k, owner s = BeforeShutdown k ∧ owner s' = BeforeJoin k).
Proof.
  intros [Hd Ho] H. unfold exec_shutdown, owner_ok in *.
  destruct (owner s) eqn:Eo; try done. injection H as <-. simpl.
  split_and!; try done; [|by destruct (running s), Ho|by eexists].
  constructor; [done|]. unfold owner_ok. simpl. destruct (running s).
  - destruct Ho as [? [b ->]]. simpl. eauto.
  - destruct Ho as [? Hq]. split; [done|]. destruct (queue_ s) as [[]|]; naive_solver.
Qed.

Lemma exec_run_next_ok r c s s' :
  inv s → valid_state c → exec_run_next r c s = Some s' →
  ∃ it, inv s' ∧ crashed s' = crashed s ∧ owner s' = owner s ∧ running s' = true ∧
    running s = true ∧
    iteration_ok (shared s) it ∧ shared s' = it_data it ∧
    reported s' = reported s ++ option_list (it_report it) ∧
    ∃ sh, queue_ s = Some (mkQueue true sh) ∧
      queue_ s' = Some (mkQueue (bool_decide (is_Some (channel (shared s)))) sh).
Proof.
  intros [Hd Ho] Hc H. unfold exec_run_next in H.
  destruct (queue_ s) as [q|] eqn:Eq; [|done].
  destruct (running s) eqn:Er; [|done]. destruct (outstanding q) eqn:Eout; [|done].
  simpl in H. destruct (run_section_ok r c _ Hd Hc) as (it & Eit & Hit).
  rewrite Eit in H. injection H as <-. exists it. simpl.
  pose proof Hit as [Hd' Hch Hre _ _ _].
  split_and!; try done;
    [|by destruct (it_report it); simpl; rewrite ?app_nil_r
     |exists (is_shutdown q); rewrite Hre, <-Eout; by destruct q].
  constructor; [done|]. unfold owner_ok in *. simpl. rewrite Er in *. rewrite Hch, Hre.
  destruct (owner s); [| | |done]; destruct Ho as [Hch' Hq].
  - rewrite Eq in Hq. injection Hq as ->. split; [done|]. simpl. by rewrite bool_decide_true.
  - rewrite Eq in Hq. destruct Hq as [b [= ->]]. eauto.
  - rewrite Eq in Hq. destruct Hq as [b [= ->]]. eauto.
Qed.

Lemma exec_run_exit_ok s s' :
  inv s → exec_run_exit s = Some s' →
  inv s' ∧ crashed s' = crashed s ∧ reported s' = reported s ∧ shared s' = shared s ∧
  running s = true ∧ running s' = false ∧ owner s' = owner s ∧ channel (shared s) = None ∧
  (∃ q, queue_ s = Some q ∧ outstanding q = false).
Proof.
  intros [Hd Ho] H. unfold exec_run_exit in H.
  destruct (queue_ s) as [q|] eqn:Eq; [|done].
  destruct (running s) eqn:Er; [|done]. destruct (is_shutdown q) eqn:Esh; [|done].
  destruct (outstanding q) eqn:Eout; [done|]. injection H as <-.
  unfold owner_ok in Ho. rewrite Er in Ho.
  assert (channel (shared s) = None ∧ ∃ k, owner s = BeforeJoin k) as [Hch [k Hk]].
  { destruct (owner s) as [| |k|]; [| | |done]; destruct Ho as [? Hq]; rewrite Eq in Hq.
    - injection Hq as ->. simpl in *. done.
    - destruct Hq as [b [= ->]]. simpl in *. done.
    - eauto. }
  simpl. split_and!; try done; [|by eexists]. constructor; [done|].
  unfold owner_ok. simpl. rewrite Hk, Eq. done.
Qed.

(** The function that called [kill_streams_and_channel] goes on. *)
Definition joined (k : continuation) (c : grpc_connectivity_state) (s s' : state) : Prop :=
  match k with
  | Killed => s' = with_owner Outside s
  | Destroy => s' = with_owner Destroyed s
  | ChangeServer address =>
      owner s' = Outside ∧ running s' = true ∧ is_Some (channel (shared s')) ∧
      connection_state (shared s') = c ∧
      reported s' = reported s ++
        (if decide (cnc c = cnc (connection_state (shared s))) then [] else [cnc c])
  | ChangeServerInProcess _ =>
      owner s' = Outside ∧ running s' = false ∧ is_Some (channel (shared s')) ∧
      connection_state (shared s') = GRPC_CHANNEL_READY ∧ reported s' = reported s
  end.

Lemma exec_join_ok ch c s s' :
  inv s → valid_state c → exec_join ch c s = Some s' →
  inv s' ∧ crashed s' = crashed s ∧ running s = false ∧ channel (shared s) = None ∧
  ∃ k, owner s = BeforeJoin k ∧ joined k c s s'.
Proof.
  intros [Hd Ho] Hc H. unfold exec_join, owner_ok in *.
  destruct (owner s) as [| |k|] eqn:Eo; try done.
  destruct (running s) eqn:Er; [by destruct k|]. destruct Ho as [Hch Hq].
  destruct k as [|address|ch'|].
  - injection H as <-. split_and!; try done; [|by eexists].
    constructor; [done|]. unfold owner_ok. simpl. by rewrite Er.
  - destruct (change_server_section_ok ch c _ Hd Hch Hc) as (d' & E & Hd' & Hch' & Hcs).
    rewrite E in H. injection H as <-. simpl.
    split_and!; try done.
    eexists; split; [done|]. simpl. split_and!; try done.
    repeat case_decide; destruct (bool_decide_reflect (cnc c = cnc (connection_state (shared s))));
      simpl; rewrite ?app_nil_r; congruence.
  - injection H as <-. simpl. split_and!; try done.
    + constructor; [by apply in_process_section_ok|]. unfold owner_ok. simpl. by rewrite Er.
    + eexists; split; [done|]. simpl. split_and!; try done.
  - rewrite (map_outcome_total _ (λ _, ())) in H.
    + injection H as <-. split_and!; try done; [|by eexists].
      constructor; [done|]. unfold owner_ok. simpl. by rewrite Er.
    + intros k st Hk. apply destroy_stopped; [by apply (ok_wf _ Hd k)|].
      destruct (streaming st) eqn:Est; [|done].
      destruct (ok_streaming _ Hd k st Hk Est) as [[? ?] _]. congruence.
Qed.

Lemma join_total ch c s k :
  inv s → owner s = BeforeJoin k → running s = false → valid_state c →
  ∃ s', exec_join ch c s = Some s'.
Proof.
  intros [Hd Ho] Hk Er Hc. unfold exec_join, owner_ok in *. rewrite Hk, Er in *.
  destruct Ho as [Hch _]. destruct k; try (by eexists).
  - destruct (change_server_section_ok ch c _ Hd Hch Hc) as (d' & -> & _). by eexists.
  - destruct (map_outcome destroy (streams (shared s))); by eexists.
Qed.

(** The steps of the other threads. *)
Definition shared_action (a : action) : bool :=
  match a with
  | RegisterStream _ _ | OnStreamUpdate _ | OnStreamFinish _ | StreamStep _ | UseStub | GetState =>
      true
  | _ => false
  end.

Record shared_step (a : action) (s s' : state) : Prop := mkSharedStep {
  sh_inv : inv s';
  sh_crashed : crashed s' = crashed s ∨ (a = UseStub ∧
    connection_state (shared s) = GRPC_CHANNEL_READY ∧ stub (shared s) = None);
  sh_owner : owner s' = owner s;
  sh_running : running s' = running s;
  sh_queue : queue_ s' = queue_ s;
  sh_reported : reported s' = reported s;
  sh_channel : channel (shared s') = channel (shared s);
  sh_state : connection_state (shared s') = connection_state (shared s);
  sh_follows : follows (shared s) → follows (shared s')
}.

Lemma with_shared_step a evs d s :
  inv s → data_ok d → channel d = channel (shared s) →
  connection_state d = connection_state (shared s) → (follows (shared s) → follows d) →
  shared_step a s (record_events evs (with_shared d s)).
Proof.
  intros [Hd Ho] Hd' Hc Hs Hf. constructor; simpl; try done; [|by left].
  constructor; [done|]. unfold owner_ok in *. simpl. by rewrite Hc.
Qed.

Lemma with_shared_step' a d s :
  inv s → data_ok d → channel d = channel (shared s) →
  connection_state d = connection_state (shared s) → (follows (shared s) → follows d) →
  shared_step a s (with_shared d s).
Proof.
  intros. destruct (with_shared_step a [] d s) as [[] ? ? ? ? ? ? ? ?]; try done.
Qed.

Lemma crash_step a e s :
  inv s → a = UseStub → connection_state (shared s) = GRPC_CHANNEL_READY →
  stub (shared s) = None → shared_step a s (crash e s).
Proof. intros [Hd Ho] ???. constructor; try done. by right. Qed.

Lemma same_step a s : inv s → shared_step a s s.
Proof. intros. constructor; try done. by left. Qed.

Lemma exec_shared_ok a s s' :
  inv s → shared_action a = true → exec_live s a = Some s' → shared_step a s s'.
Proof.
  intros Hi Ha H. pose proof Hi as [Hd _]. destruct a; try done; simpl in H.
  - destruct (bool_decide_reflect (streams (shared s) !! key = None)) as [Hk|]; [|done].
    destruct (register_section_ok key init_func _ Hd Hk) as (d' & E & ? & ? & ? & ?).
    rewrite E in H. injection H as <-. by apply with_shared_step'.
  - injection H as <-.
    destruct (on_stream_ok on_update key _ (λ st H, conj (wf_on_update st H) eq_refl) Hd).
    by apply with_shared_step'.
  - injection H as <-.
    destruct (on_stream_ok on_finish key _ (λ st H, conj (wf_on_finish st H) eq_refl) Hd).
    by apply with_shared_step'.
  - destruct (streams (shared s) !! key) as [st|] eqn:Ek; [|done]. simpl in H.
    destruct (thread_step st) as [[st' out]|] eqn:Es; [|done]. simpl in H. injection H as <-.
    destruct (stream_step_ok key st st' out _ Hd Ek Es). by apply with_shared_step.
  - unfold use_stub in H. destruct (decide _) as [Er|].
    + destruct (stub (shared s)) eqn:Es; injection H as <-; [by apply same_step|].
      by apply crash_step.
    + injection H as <-. by apply same_step.
  - unfold get_state in H. rewrite (to_cnc_valid _ (ok_state _ Hd)) in H. injection H as <-.
    by apply same_step.
Qed.

Lemma client_step_inv s a s' :
  inv s → action_ok a → exec_live s a = Some s' →
  inv s' ∧ (crashed s' = crashed s ∨ a = UseStub ∧
    connection_state (shared s) = GRPC_CHANNEL_READY ∧ stub (shared s) = None).
Proof.
  intros Hi Ha H. destruct (shared_action a) eqn:Esh.
  { by destruct (exec_shared_ok a s s' Hi Esh H). }
  destruct a; try done; simpl in *.
  - by destruct (exec_kill_ok k s s' Hi H) as (? & ? & _); auto.
  - by destruct (exec_shutdown_ok s s' Hi H) as (? & ? & _); auto.
  - by destruct (exec_join_ok fresh_channel new_state s s' Hi Ha H) as (? & ? & _); auto.
  - by destruct (exec_run_next_ok result_ok current s s' Hi Ha H) as (? & ? & ? & _); auto.
  - by destruct (exec_run_exit_ok s s' Hi H) as (? & ? & _); auto.
Qed.

(** ** A client that only connects to other processes *)

(** The calls of the connection callback after the state [c]: every call
    changes the state. *)
Fixpoint alternates (c : GrpcClientState) (calls : list GrpcClientState) : Prop :=
  match calls with
  | [] => True
  | c' :: calls => c ≠ c' ∧ alternates c' calls
  end.

(** The state the last call has reported. *)
Fixpoint last_reported (c : GrpcClientState) (calls : list GrpcClientState) : GrpcClientState :=
  match calls with [] => c | c' :: calls => last_reported c' calls end.

Lemma alternates_snoc c calls c' :
  alternates c calls → last_reported c calls ≠ c' →
  alternates c (calls ++ [c']) ∧ last_reported c (calls ++ [c']) = c'.
Proof.
  revert c. induction calls as [|x calls IH]; intros c; simpl; [done|].
  intros [? ?] ?. by destruct (IH x).
Qed.

Definition in_process_continuation (o : owner_pc) : bool :=
  match o with
  | BeforeShutdown (ChangeServerInProcess _) | BeforeJoin (ChangeServerInProcess _) => true
  | _ => false
  end.

Definition silent (s : state) : Prop :=
  running s = false ∨ ∃ q, queue_ s = Some q ∧ outstanding q = false.

Record ext_inv (s : state) : Prop := mkExtInv {
  ext_inv_inv : inv s;
  ext_owner : in_process_continuation (owner s) = false;
  ext_channel : running s = false → channel (shared s) = None;
  ext_settled : channel (shared s) = None → silent s →
    connection_state (shared s) ≠ GRPC_CHANNEL_READY ∧
    cnc (connection_state (shared s)) = not_connected;
  ext_reported : alternates not_connected (reported s) ∧
    last_reported not_connected (reported s) = cnc (connection_state (shared s))
}.

Lemma init_ext_inv : ext_inv init.
Proof. by constructor. Qed.

Lemma not_ready c : cnc c = not_connected → c ≠ GRPC_CHANNEL_READY.
Proof. by intros H ->. Qed.

Lemma report_step l c o c' :
  alternates not_connected l → last_reported not_connected l = cnc c →
  match o with Some x => x = cnc c' ∧ x ≠ cnc c | None => cnc c' = cnc c end →
  alternates not_connected (l ++ option_list o) ∧
  last_reported not_connected (l ++ option_list o) = cnc c'.
Proof.
  intros Ha Hl Ho. destruct o as [x|]; simpl.
  - destruct Ho as [-> Hne]. apply alternates_snoc; [done|]. congruence.
  - rewrite app_nil_r. split; [done|congruence].
Qed.

Lemma shared_ext_inv a s s' : ext_inv s → shared_step a s s' → ext_inv s'.
Proof.
  intros [Hi Ho Hc Hs Hr] [Hi' _ Eo Er Eq Erep Ec Est _].
  constructor; unfold silent in *; rewrite ?Eo, ?Er, ?Eq, ?Erep, ?Ec, ?Est; done.
Qed.

Lemma join_ext_inv ch c s s' :
  ext_inv s → valid_state c → exec_join ch c s = Some s' → ext_inv s'.
Proof.
  intros [Hi Ho Hc Hs Hr] Hv H.
  destruct (exec_join_ok ch c s s' Hi Hv H) as (Hi' & _ & Er & Ech & k & Ek & J).
  rewrite Ek in Ho. destruct k as [| | |]; try done; simpl in J.
  - subst s'. by constructor.
  - destruct J as (Eo & Er' & [ch' Ech'] & Est & Erep).
    constructor; [done|by rewrite Eo|by rewrite Er'|by rewrite Ech'|].
    rewrite Erep, Est. destruct (decide _) as [E|E]; simpl.
    + rewrite app_nil_r. by rewrite E.
    + destruct Hr. apply alternates_snoc; [done|congruence].
  - subst s'. by constructor.
Qed.

Lemma exec_ext_inv s a s' :
  ext_inv s → action_ok a → external_only s a = true → exec_live s a = Some s' → ext_inv s'.
Proof.
  intros Hx Ha Hext H. destruct (shared_action a) eqn:Esh.
  { apply (shared_ext_inv a s s' Hx). apply exec_shared_ok; [|done..]. by destruct Hx. }
  pose proof Hx as [Hi Ho Hc Hs Hr]. destruct a; try done; simpl in *.
  - destruct (exec_kill_ok k s s' Hi H) as (? & _ & Erep & Er & Eo & Eo' & Ech & Eq & Est).
    pose proof (inv_owner s Hi) as Hw. unfold owner_ok in Hw. rewrite Eo in Hw.
    constructor; [done|by rewrite Eo'; destruct k|done| |by rewrite Erep, Est].
    intros _. unfold silent in *. rewrite Er, Eq, Est. destruct (running s).
    + intros [|(q & Hq & Hf)]; [done|]. destruct Hw as [_ Hw]. rewrite Hw in Hq.
      injection Hq as <-. done.
    + intros _. apply Hs; [by apply Hc|by left].
  - destruct (exec_shutdown_ok s s' Hi H) as (? & _ & Erep & Esh' & Er & Ech & k & Eo & Eo').
    rewrite Eo in Ho.
    constructor; [done|by rewrite Eo'; destruct k|by rewrite Esh'| |by rewrite Erep, Esh'].
    rewrite Esh'. intros _ Hq. apply Hs; [done|]. unfold silent in *. rewrite Er in Hq.
    destruct Hq as [|(q & Hq & Hf)]; [by left|]. right.
    unfold exec_shutdown in H. rewrite Eo in H. injection H as <-. simpl in Hq.
    apply fmap_Some in Hq as (q0 & -> & ->). simpl in Hf. eauto.
  - by eapply join_ext_inv.
  - destruct (exec_run_next_ok result_ok current s s' Hi Ha H)
      as (it & ? & _ & Eo & Er' & Er & [Hd Hch _ Hrep Hdead _] & Esh' & Erep & _).
    constructor; [done|by rewrite Eo|by rewrite Er'| |].
    + rewrite Esh', Hch. intros Hn _. split; [apply not_ready|]; by apply Hdead.
    + rewrite Erep, Esh'. destruct Hr. by eapply report_step.
  - destruct (exec_run_exit_ok s s' Hi H)
      as (? & _ & Erep & Esh' & Er & Er' & Eo & Ech & q & Eq & Hq).
    constructor; [done|by rewrite Eo|by rewrite Esh'| |by rewrite Erep, Esh'].
    rewrite Esh'. intros _ _. apply Hs; [done|]. right. eauto.
Qed.

(** ** Reachable states *)
Abbreviation reach allowed :=
  (reachable (λ s, s = init) (exec_step_ok (restrict allowed exec) action_ok)).

Lemma exec_inv s a s' : exec s a = Some s' → crashed s = None ∧ owner s ≠ Destroyed ∧ exec_live s a = Some s'.
Proof. unfold exec. by destruct (crashed s), (owner s). Qed.

Lemma client_reach_inv allowed s : reach allowed s → inv s.
Proof.
  apply reachable_invariant; [intros ? ->; apply client_init_inv|].
  intros s1 a s2 Hi [Ha [_ (_ & _ & H)%exec_inv]%restrict_inv].
  by destruct (client_step_inv s1 a s2 Hi Ha H).
Qed.

Lemma reach_ext_inv allowed s :
  (∀ s a, allowed s a = true → external_only s a = true) → reach allowed s → ext_inv s.
Proof.
  intros Hall. apply reachable_invariant; [intros ? ->; apply init_ext_inv|].
  intros s1 a s2 Hi [Ha [Hal (_ & _ & H)%exec_inv]%restrict_inv].
  eapply exec_ext_inv; eauto.
Qed.

Lemma unconnected_follows s a s' :
  ext_inv s → follows (shared s) → action_ok a → starts_unconnected s a = true →
  exec_live s a = Some s' → follows (shared s').
Proof.
  intros [Hi Ho _ _ _] Hf Ha Hal H. destruct (shared_action a) eqn:Esh.
  { by apply (exec_shared_ok a s s' Hi Esh H). }
  destruct a; try done; simpl in *.
  - destruct (exec_kill_ok k s s' Hi H) as (_ & _ & _ & _ & _ & _ & Ech & _).
    intros [? ?]. congruence.
  - by destruct (exec_shutdown_ok s s' Hi H) as (_ & _ & _ & -> & _).
  - destruct (exec_join_ok fresh_channel new_state s s' Hi Ha H)
      as (_ & _ & _ & Ech & k & Ek & J).
    rewrite Ek in Ho. destruct k; try done; simpl in J; [by rewrite J| |by rewrite J].
    destruct J as (_ & _ & _ & Est & _). intros _ Hr. by rewrite <-Est, Hr in Hal.
  - destruct (exec_run_next_ok result_ok current s s' Hi Ha H)
      as (it & _ & _ & _ & _ & _ & [_ _ _ _ _ Hfol] & -> & _); auto.
  - by destruct (exec_run_exit_ok s s' Hi H) as (_ & _ & _ & -> & _).
Qed.

Lemma starts_unconnected_external s a :
  starts_unconnected s a = true → external_only s a = true.
Proof. unfold starts_unconnected. by intros [? _]%andb_true_iff. Qed.

Lemma reach_follows s : reach starts_unconnected s → follows (shared s).
Proof.
  intros Hr. cut (ext_inv s ∧ follows (shared s)); [by intros []|]. revert s Hr.
  apply reachable_invariant; [intros ? ->; split; [apply init_ext_inv|by intros [? ?]]|].
  intros s1 a s2 [Hi Hf] [Ha [Hal (_ & _ & H)%exec_inv]%restrict_inv].
  split; [eapply exec_ext_inv; eauto using starts_unconnected_external|].
  by eapply unconnected_follows.
Qed.

(** The iterations of [run_thread_]. *)
Definition run_step (a : action) : bool :=
  match a with RunNext _ _ | RunExit => true | _ => false end.

(** The iterations that are left once the channel has been deleted. *)
Definition rounds_left (s : state) : nat :=
  if running s then S (match queue_ s with Some q => Nat.b2n (outstanding q) | None => 0 end)
  else 0.

Lemma run_step_decreases a s s' :
  inv s → channel (shared s) = None → action_ok a → run_step a = true →
  exec_live s a = Some s' → channel (shared s') = None ∧ rounds_left s = S (rounds_left s').
Proof.
  intros Hi Hch Ha Hrs H. destruct a; try done; simpl in *.
  - destruct (exec_run_next_ok result_ok current s s' Hi Ha H)
      as (it & _ & _ & _ & Er' & Er & [_ Hc _ _ _ _] & -> & _ & sh & Eq & Eq').
    split; [congruence|]. unfold rounds_left. by rewrite Er, Er', Eq, Eq', Hch.
  - destruct (exec_run_exit_ok s s' Hi H) as (_ & _ & _ & -> & Er & Er' & _ & _ & q & Eq & Hq).
    split; [done|]. unfold rounds_left. by rewrite Er, Er', Eq, Hq.
Qed.

Lemma run_steps_bounded ls s s' :
  inv s → channel (shared s) = None → Forall action_ok ls → forallb run_step ls →
  run exec s ls = Some s' → length ls ≤ rounds_left s.
Proof.
  revert s. induction ls as [|a ls IH]; intros s Hi Hch Ha Hrs H; simpl in *; [lia|].
  inversion_clear Ha as [|? ? Ha1 Ha2]. apply andb_True in Hrs as [Hr1 Hr2].
  apply Is_true_true_1 in Hr1.
  destruct (exec s a) as [s1|] eqn:E; [|done]. apply exec_inv in E as (_ & _ & E).
  destruct (client_step_inv s a s1 Hi Ha1 E) as [Hi1 _].
  destruct (run_step_decreases a s s1 Hi Hch Ha1 Hr1 E) as [Hch1 ->].
  specialize (IH s1 Hi1 Hch1 Ha2 Hr2 H). lia.
Qed.

(** While the owner waits for it, [run_thread_] can go on until it returns. *)
Lemma run_step_available s k :
  inv s → crashed s = None → owner s = BeforeJoin k → running s = true →
  ∃ a s', run_step a = true ∧ action_ok a ∧ exec s a = Some s' ∧
    inv s' ∧ crashed s' = None ∧ owner s' = BeforeJoin k.
Proof.
  intros Hi Hcr Ho Er. pose proof (inv_owner s Hi) as Hw. unfold owner_ok in Hw.
  rewrite Ho, Er in Hw. destruct Hw as [Hch [b Hq]].
  assert (∀ a s', action_ok a → run_step a = true → exec_live s a = Some s' →
    exec s a = Some s' ∧ inv s' ∧ crashed s' = None ∧ owner s' = BeforeJoin k) as Hgo.
  { intros a s' Ha Hrs H. unfold exec. rewrite Hcr, Ho. split; [done|].
    destruct (client_step_inv s a s' Hi Ha H) as [? [Hc|(-> & _)]]; [|done].
    split; [done|]. split; [congruence|]. destruct a; try done; simpl in H.
    - destruct (exec_run_next_ok result_ok current s s' Hi Ha H) as (? & ? & ? & ? & _).
      congruence.
    - destruct (exec_run_exit_ok s s' Hi H) as (_ & _ & _ & _ & _ & _ & ? & _). congruence. }
  assert (∃ a s', action_ok a ∧ run_step a = true ∧ exec_live s a = Some s')
    as (a & s' & Ha & Hrs & H).
  { destruct b.
    - destruct (run_section_ok false GRPC_CHANNEL_IDLE _ (inv_data s Hi)) as (it & E & _); [done|].
      exists (RunNext false GRPC_CHANNEL_IDLE). simpl. unfold exec_run_next.
      rewrite Hq, Er. simpl. rewrite E. by eexists.
    - exists RunExit. simpl. unfold exec_run_exit. rewrite Hq, Er. by eexists. }
  destruct (Hgo a s' Ha Hrs H) as (? & ? & ? & ?). by exists a, s'.
Qed.

Lemma run_thread_returns n s k :
  inv s → crashed s = None → owner s = BeforeJoin k → rounds_left s ≤ n →
  ∃ ls s', Forall action_ok ls ∧ forallb run_step ls ∧ run exec s ls = Some s' ∧
    inv s' ∧ crashed s' = None ∧ owner s' = BeforeJoin k ∧ running s' = false.
Proof.
  revert s. induction n as [|n IH]; intros s Hi Hcr Ho Hn.
  { exists [], s. simpl. split_and!; try done. unfold rounds_left in Hn.
    by destruct (running s); [lia|]. }
  destruct (running s) eqn:Er; [|by exists [], s; simpl; split_and!].
  destruct (run_step_available s k Hi Hcr Ho Er) as (a & s1 & Hrs & Ha & E & Hi1 & Hc1 & Ho1).
  pose proof (inv_owner s Hi) as Hw. unfold owner_ok in Hw. rewrite Ho, Er in Hw.
  destruct (run_step_decreases a s s1 Hi (proj1 Hw) Ha Hrs) as [_ Hl].
  { by apply exec_inv in E as (_ & _ & ?). }
  destruct (IH s1 Hi1 Hc1 Ho1) as (ls & s' & ? & ? & ? & ?); [lia|].
  exists (a :: ls), s'. simpl. rewrite Hrs, E. split_and!; try done; [by constructor|naive_solver..].
Qed.

(** Without [run_thread_], and until the owner acts, the only steps are those
    of the threads that share the data; they leave a stopped stream stopped. *)
Definition stopped_stream (key : addr) (s : state) : Prop :=
  ∃ st, streams (shared s) !! key = Some st ∧ streaming st = false.

Definition is_kill (a : action) : bool := match a with Kill _ => true | _ => false end.

Lemma shared_keeps_stopped key a s s' :
  inv s → stopped_stream key s → shared_action a = true → exec_live s a = Some s' →
  stopped_stream key s'.
Proof.
  unfold stopped_stream. intros Hi (st & Hk & Hst) Ha H. destruct a as [| | | | |key' f|key'|key'|key'| |];
    try done; simpl in H.
  - destruct (bool_decide_reflect (streams (shared s) !! key' = None)) as [Hk'|]; [|done].
    unfold register_section in H.
    destruct (match channel (shared s) with Some _ => _ | None => _ end) as [st'|] eqn:E;
      injection H as <-; simpl; [|by exists st].
    rewrite emplace_fresh by done. rewrite lookup_insert_ne by congruence. by exists st.
  - injection H as <-. simpl. destruct (decide (key' = key)) as [->|].
    + rewrite lookup_alter_eq, Hk. by eexists.
    + rewrite lookup_alter_ne by done. by exists st.
  - injection H as <-. simpl. destruct (decide (key' = key)) as [->|].
    + rewrite lookup_alter_eq, Hk. by eexists.
    + rewrite lookup_alter_ne by done. by exists st.
  - destruct (streams (shared s) !! key') as [st'|] eqn:Ek'; [|done]. simpl in H.
    destruct (thread_step st') as [[st'' out]|] eqn:Es; [|done]. injection H as <-. simpl.
    destruct (decide (key' = key)) as [->|].
    + rewrite lookup_insert_eq. exists st''. split; [done|].
      destruct (thread_step_wf st' st'' out (ok_wf _ (inv_data _ Hi) _ _ Ek') Es) as [_ ->].
      congruence.
    + rewrite lookup_insert_ne by done. by exists st.
  - destruct (use_stub (shared s)); injection H as <-; by exists st.
  - destruct (get_state (shared s)); injection H as <-; by exists st.
Qed.

Lemma idle_keeps_stopped key ls s s' :
  inv s → owner s = Outside → running s = false → stopped_stream key s →
  forallb (λ a, negb (is_kill a)) ls → run exec s ls = Some s' → stopped_stream key s'.
Proof.
  revert s. induction ls as [|a ls IH]; intros s Hi Ho Er Hst Hls H; simpl in *; [by simplify_eq|].
  apply andb_True in Hls as [Ha Hls].
  destruct (exec s a) as [s1|] eqn:E; [|done]. apply exec_inv in E as (_ & _ & E).
  destruct (shared_action a) eqn:Esh.
  - pose proof (exec_shared_ok a s s1 Hi Esh E) as [Hi1 _ Eo1 Er1 _ _ _ _ _].
    apply (IH s1); try done; [congruence..|]. by apply (shared_keeps_stopped key a s).
  - destruct a; try done; simpl in E.
    + unfold exec_shutdown in E. by rewrite Ho in E.
    + unfold exec_join in E. by rewrite Ho in E.
    + unfold exec_run_next in E. rewrite Er in E. by destruct (queue_ s).
    + unfold exec_run_exit in E. rewrite Er in E. by destruct (queue_ s).
Qed.

(** ** Properties *)


(** C8: [kill_streams_and_channel] returns. Once the owner waits for
    [run_thread_], that thread takes at most two more iterations, it can always
    take the next one, and afterwards the join succeeds and the function that
    killed the channel ([change_server] or the destructor) completes. *)
Theorem kill_streams_and_channel_returns s k ch c :
  reach (λ _ _, true) s → crashed s = None → owner s = BeforeJoin k → valid_state c →
  (∀ ls s', Forall action_ok ls → forallb run_step ls → run exec s ls = Some s' →
    length ls ≤ 2) ∧
  ∃ ls s', forallb run_step ls ∧ run exec s (ls ++ [Join ch c]) = Some s' ∧
    crashed s' = None ∧ (owner s' = Outside ∨ owner s' = Destroyed).
Proof.
  intros Hr Hcr Ho Hv. apply client_reach_inv in Hr as Hi.
  assert (channel (shared s) = None) as Hch.
  { pose proof (inv_owner s Hi) as Hw. unfold owner_ok in Hw. rewrite Ho in Hw.
    by destruct (running s), Hw. }
  split.
  - intros ls s' Ha Hrs H. etransitivity; [by apply (run_steps_bounded ls s s')|].
    unfold rounds_left. destruct (running s), (queue_ s) as [[[] ?]|]; simpl; lia.
  - destruct (run_thread_returns _ s k Hi Hcr Ho (le_n _))
      as (ls & s1 & _ & Hrs & Hrun & Hi1 & Hc1 & Ho1 & Er1).
    destruct (join_total ch c s1 k Hi1 Ho1 Er1 Hv) as [s2 E2].
    exists ls, s2. split; [done|].
    destruct (exec_join_ok ch c s1 s2 Hi1 Hv E2) as (_ & Hc2 & _ & _ & k' & Hk' & J).
    split_and!; [|congruence|].
    + rewrite run_app, Hrun. simpl. unfold exec. rewrite Hc1, Ho1. simpl. by rewrite E2.
    + destruct k'; simpl in J; try (by left; apply J); subst s2; auto.
Qed.



(** The owner of the client is the only one who calls [use_stub], and only
    connects to other processes. *)
Definition owner_uses_stub (s : state) (a : action) : bool :=
  external_only s a &&
  match a, owner s with UseStub, Outside => true | UseStub, _ => false | _, _ => true end.

(** C9: under this use the client never fails: no thread object is destroyed or
    assigned while it is joinable, no stream is started without a stub, and
    [use_stub] never dereferences a null stub, in whatever order the threads
    run and gRPC reports changes. *)
Theorem client_never_fails s : reach owner_uses_stub s → crashed s = None.
Proof.
  intros Hr. cut (ext_inv s ∧ crashed s = None); [by intros []|]. revert s Hr.
  apply reachable_invariant; [intros ? ->; split; [apply init_ext_inv|done]|].
  intros s1 a s2 [Hx Hcr] [Ha [Hal (_ & _ & H)%exec_inv]%restrict_inv].
  apply andb_true_iff in Hal as [Hext Huse].
  split; [by eapply exec_ext_inv|]. pose proof Hx as [Hi _ Hc Hs _].
  destruct (client_step_inv s1 a s2 Hi Ha H) as [_ [->|(-> & Hready & Hstub)]]; [done|].
  destruct (owner s1) eqn:Eo; try done. exfalso.
  assert (channel (shared s1) = None) as Hch.
  { apply eq_None_not_Some. intros Hsome. apply (ok_stub _ (inv_data _ Hi)) in Hsome.
    rewrite Hstub in Hsome. by destruct Hsome. }
  assert (running s1 = false) as Er.
  { pose proof (inv_owner s1 Hi) as Hw. unfold owner_ok in Hw. rewrite Eo in Hw.
    destruct (running s1); [|done]. destruct Hw as [[? ?] _]. congruence. }
  destruct Hs as [Hn _]; [done|by left|]. done.
Qed.

End Client.
Arguments state : clear implicits.
Arguments action : clear implicits.
Arguments SharedData : clear implicits.
(** *** Concrete runs *)
Abbreviation demo_state := (state nat unit).
Abbreviation demo_action := (action nat unit).
Definition demo_exec : demo_state → demo_action → option demo_state := exec id.
Definition demo (ls : list demo_action) : demo_state := default init (run demo_exec init ls).

Abbreviation demo_reach allowed :=
  (reachable (λ s, s = init) (exec_step_ok (restrict allowed demo_exec) action_ok)).

Lemma client_demo_reachable allowed ls :
  Forall action_ok ls → is_Some (run (restrict allowed demo_exec) init ls) →
  demo_reach allowed (demo ls).
Proof.
  intros Hok [s Hs]. unfold demo. rewrite (run_restrict _ _ _ _ _ Hs).
  by eapply run_reachable_ok.
Qed.

Ltac solve_demo :=
  match goal with
  | |- reachable _ (exec_step_ok (restrict ?allowed _) _) (demo ?ls) =>
      apply (client_demo_reachable allowed ls);
      [repeat constructor|vm_compute; by eexists]
  end.

(** A stream is registered, the client connects to a server, then it is killed. *)
Definition demo_stream : nat → reader nat unit := λ _, mkReader [1; 2] ().
Definition connect : list demo_action :=
  [RegisterStream 7%N demo_stream; Kill (ChangeServer "localhost:9090"); Shutdown;
   Join 1 GRPC_CHANNEL_IDLE; RunNext true GRPC_CHANNEL_CONNECTING; RunNext true GRPC_CHANNEL_READY].
Definition connect_and_kill : list demo_action := connect ++ [Kill Killed; Shutdown].
Definition killed : list demo_action :=
  connect_and_kill ++ [RunNext false GRPC_CHANNEL_IDLE; RunExit].

(** [use_stub] dereferences a null pointer once a client of a server in the
    same process is killed: the state stays [GRPC_CHANNEL_READY] because no
    [run_thread_] updates it, and the stub is gone. *)
Theorem use_stub_after_in_process_kill :
  ∃ s : demo_state, demo_reach (λ _ _, true) s ∧ crashed s = None ∧ owner s = Outside ∧
    channel (shared s) = None ∧ get_state (shared s) = Ret connected ∧
    use_stub (shared s) = Fault null_dereference.
Proof.
  exists (demo [Kill (ChangeServerInProcess 1); Shutdown; Join 0 GRPC_CHANNEL_IDLE;
                Kill Killed; Shutdown; Join 0 GRPC_CHANNEL_IDLE]).
  split; [solve_demo|]. vm_compute. done.
Qed.

(** So does a call of [use_stub] from another thread while a connected
    client is being killed, before [run_thread_] has seen the shutdown. *)
Theorem use_stub_while_killed :
  ∃ s : demo_state, demo_reach external_only s ∧ crashed s = None ∧
    owner s = BeforeShutdown Killed ∧ use_stub (shared s) = Fault null_dereference.
Proof.
  exists (demo (connect ++ [Kill Killed])). split; [solve_demo|]. vm_compute. done.
Qed.

(** A stream that is registered before the client is given a channel to a
    server in the same process never starts, although the client is connected:
    it stays stopped whatever happens, until the owner calls [change_server],
    [kill_streams_and_channel] or the destructor. *)
Theorem in_process_stream_never_starts :
  ∃ s : demo_state, demo_reach (λ _ _, true) s ∧ get_state (shared s) = Ret connected ∧
    use_stub (shared s) = Ret true ∧ stopped_stream 7%N s ∧
    ∀ ls s', forallb (λ a, negb (is_kill a)) ls → run demo_exec s ls = Some s' →
      stopped_stream 7%N s'.
Proof.
  set (ls0 := [RegisterStream 7%N demo_stream; Kill (ChangeServerInProcess 1); Shutdown;
               Join 0 GRPC_CHANNEL_IDLE] : list demo_action).
  assert (demo_reach (λ _ _, true) (demo ls0)) as Hr by (subst ls0; solve_demo).
  assert (stopped_stream 7%N (demo ls0)) as Hst by (vm_compute; by eexists).
  exists (demo ls0). split_and!; [done|vm_compute; done|vm_compute; done|done|].
  intros ls s'. apply (idle_keeps_stopped id 7%N ls); [|vm_compute; done..|done].
  by apply (client_reach_inv id) in Hr.
Qed.


Lemma kill_streams_and_channel_returns_witness :
  ∃ ls s', forallb (run_step (Update := nat) (Status := unit)) ls ∧
    run demo_exec (demo connect_and_kill) (ls ++ [Join 0 GRPC_CHANNEL_IDLE]) = Some s' ∧
    crashed s' = None ∧ (owner s' = Outside ∨ owner s' = Destroyed).
Proof.
  apply (kill_streams_and_channel_returns id (demo connect_and_kill) Killed).
  - solve_demo.
  - vm_compute. done.
  - vm_compute. done.
  - done.
Defined.



Lemma client_never_fails_witness : crashed (demo (killed ++ [Join 0 GRPC_CHANNEL_IDLE; UseStub])) = None.
Proof. apply (client_never_fails id). solve_demo. Defined.

End GrpcClient.
