(* ===== verification/ClientCallbacks.v ===== *)
(** * Stream callbacks and the lock of the client

    [src/include/grpcw/client/grpc_client.hpp] stops its streams inside of a
    critical section of [shared_data_], and [stop_stream] in
    [grpc_client_stream.hpp] joins the thread of the stream. File [GrpcClient]
    takes that section as one step; here it is taken apart: the thread that
    stops the streams ([kill_streams_and_channel], or [run] when the connection
    is lost) and the threads of the streams, whose callbacks may call the client
    and then wait for the same lock. *)
From S2P Require Import Prelude.

Module ClientCallbacks.

(** Who has locked the mutex of [shared_data_]. *)
Inductive holder : Type := Stopper | StreamThread (key : addr).

#[global] Instance holder_eq_dec : EqDecision holder.
Proof. solve_decision. Defined.

(** The thread of a stream: about to call [Read], which delivers [updates] more
    updates; in [on_update_], after which that many are left, or in [on_finish_];
    in a method of the client that the callback has called; returned. *)
Inductive callback : Type := OnUpdate (updates : nat) | OnFinish.
Inductive phase : Type :=
| Reading (updates : nat)
| InCallback (c : callback)
| UsingClient (c : callback)
| Returned.

(** The critical section that stops the streams: waiting for the lock, about to
    stop the next of the streams [todo], joining the thread of a stream, and
    after the section. *)
Inductive stopper_pc : Type :=
| Outside
| Stopping (todo : list addr)
| Joining (key : addr) (todo : list addr)
| Stopped.

Record state : Type := mkState {
  mutex_ : option holder;
  stopper : stopper_pc;
  streams : gmap addr phase
}.

Section System.
(** Whether the callbacks of the streams call a method of the client. *)
Context (uses_client : bool).
(** How many updates gRPC still delivers after [TryCancel]. *)
Context (try_cancel : nat → nat).

Inductive action : Type :=
| EnterSection
| StopNext
| ThreadJoined
| LeaveSection
| StreamStep (key : addr).

(** After a callback the loop of the stream's thread goes on, or ends. *)
Definition after (c : callback) : phase :=
  match c with OnUpdate updates => Reading updates | OnFinish => Returned end.

(** One step of the thread of a stream. [on_update_] and [on_finish_] are set;
    a callback that calls the client goes through [use_safely]. *)
Definition stream_step (key : addr) (p : phase) (m : option holder) : option (phase * option holder) :=
  match p with
  | Reading (S updates) => Some (InCallback (OnUpdate updates), m)
  | Reading 0 => Some (InCallback OnFinish, m)
  | InCallback c =>
      if uses_client then
        match m with None => Some (UsingClient c, Some (StreamThread key)) | Some _ => None end
      else Some (after c, m)
  | UsingClient c => Some (after c, None)
  | Returned => None
  end.

Definition cancel (p : phase) : phase :=
  match p with
  | Reading updates => Reading (try_cancel updates)
  | InCallback (OnUpdate updates) => InCallback (OnUpdate (try_cancel updates))
  | UsingClient (OnUpdate updates) => UsingClient (OnUpdate (try_cancel updates))
  | p => p
  end.

Definition exec (s : state) (a : action) : option state :=
  match a, stopper s with
  | EnterSection, Outside =>
      match mutex_ s with
      | None => Some (mkState (Some Stopper) (Stopping (map_to_list (streams s)).*1) (streams s))
      | Some _ => None
      end
  | StopNext, Stopping (key :: todo) =>
      Some (mkState (mutex_ s) (Joining key todo) (alter cancel key (streams s)))
  | ThreadJoined, Joining key todo =>
      match streams s !! key with
      | Some Returned | None => Some (mkState (mutex_ s) (Stopping todo) (streams s))
      | _ => None
      end
  | LeaveSection, Stopping [] => Some (mkState None Stopped (streams s))
  | StreamStep key, _ =>
      p ← streams s !! key;
      '(p', m) ← stream_step key p (mutex_ s);
      Some (mkState m (stopper s) (<[key := p']> (streams s)))
  | _, _ => None
  end.

(** A client whose streams have just been started. *)
Definition initial (s : state) : Prop :=
  mutex_ s = None ∧ stopper s = Outside ∧
  map_Forall (λ _ p, ∃ updates, p = Reading updates) (streams s).

Abbreviation reach := (reachable initial (exec_step exec)).

(** The steps a stream's thread still takes. *)
Definition steps_left (p : phase) : nat :=
  match p with
  | Reading updates => 2 * updates + 2
  | InCallback (OnUpdate updates) | UsingClient (OnUpdate updates) => 2 * updates + 3
  | InCallback OnFinish | UsingClient OnFinish => 1
  | Returned => 0
  end.

(** Without calls of the client no stream's thread ever needs the lock. *)
Definition independent (s : state) : Prop :=
  map_Forall (λ _ p, match p with UsingClient _ => False | _ => True end) (streams s).

Lemma stream_step_independent key p m :
  uses_client = false → match p with UsingClient _ => False | Returned => False | _ => True end →
  ∃ p', stream_step key p m = Some (p', m) ∧ steps_left p = S (steps_left p') ∧
    match p' with UsingClient _ => False | _ => True end.
Proof.
  intros Hu Hp. unfold stream_step. rewrite Hu.
  destruct p as [[|n]|[n|]|[n|]|]; simpl; try done;
    eexists; (split_and!; [reflexivity|simpl; lia|done]).
Qed.

Lemma exec_independent s a s' :
  uses_client = false → independent s → exec s a = Some s' → independent s'.
Proof.
  intros Hu Hi H. unfold exec in H.
  destruct a as [| | | |key].
  - destruct (stopper s), (mutex_ s); try done. by injection H as <-.
  - destruct (stopper s) as [|[|key todo]| |]; try done. injection H as <-.
    intros k p. simpl. destruct (decide (key = k)) as [<-|Hne].
    + rewrite lookup_alter_eq. intros (p0 & Hk & ->)%fmap_Some.
      specialize (Hi _ _ Hk). by destruct p0 as [|[]|[]|].
    + rewrite lookup_alter_ne by done. apply Hi.
  - destruct (stopper s) as [| |key todo|]; try done.
    destruct (streams s !! key) as [[| | |]|]; try done; by injection H as <-.
  - destruct (stopper s) as [|[|]| |]; try done. by injection H as <-.
  - destruct (streams s !! key) as [p|] eqn:Hk; [|by destruct (stopper s)].
    assert (stream_step key p (mutex_ s) ≫= (λ '(p', m),
      Some (mkState m (stopper s) (<[key := p']> (streams s)))) = Some s') as H'
      by (by destruct (stopper s)). clear H.
    specialize (Hi _ _ Hk) as Hp. destruct p as [n|c|c|]; try done.
    + destruct (stream_step_independent key (Reading n) (mutex_ s) Hu I) as (p' & E & _ & Hp').
      rewrite E in H'. injection H' as <-. by apply map_Forall_insert_2.
    + destruct (stream_step_independent key (InCallback c) (mutex_ s) Hu I) as (p' & E & _ & Hp').
      rewrite E in H'. injection H' as <-. by apply map_Forall_insert_2.
Qed.

Lemma reach_independent s : uses_client = false → reach s → independent s.
Proof.
  intros Hu. apply reachable_invariant.
  - intros s0 (_ & _ & H) k p Hk. by destruct (H k p Hk) as [n ->].
  - intros s1 a s2 Hi H. by eapply exec_independent.
Qed.

(** The thread of a stream runs to its end on its own. *)
Lemma run_stream s key p :
  uses_client = false → independent s → streams s !! key = Some p →
  run exec s (replicate (steps_left p) (StreamStep key))
  = Some (mkState (mutex_ s) (stopper s) (<[key := Returned]> (streams s))).
Proof.
  intros Hu. remember (steps_left p) as n eqn:En. revert s p En.
  induction n as [|n IH]; intros s p En Hi Hk.
  - assert (p = Returned) as -> by (destruct p as [|[]|[]|]; simpl in *; try lia; done).
    simpl. rewrite insert_id by done. by destruct s.
  - destruct (stream_step_independent key p (mutex_ s) Hu) as (p' & E & El & Hp').
    { specialize (Hi _ _ Hk). by destruct p. }
    cbn [replicate run].
    assert (exec s (StreamStep key) = Some (mkState (mutex_ s) (stopper s) (<[key := p']> (streams s))))
      as -> by (unfold exec; destruct (stopper s); rewrite Hk; simpl; by rewrite E).
    rewrite (IH _ p').
    + simpl. by rewrite insert_insert_eq.
    + lia.
    + simpl. by apply map_Forall_insert_2.
    + simpl. by rewrite lookup_insert_eq.
Qed.

Definition completes (s : state) : Prop :=
  ∃ ls s', run exec s ls = Some s' ∧ stopper s' = Stopped ∧ mutex_ s' = None.

Lemma completes_run ls s s1 : run exec s ls = Some s1 → completes s1 → completes s.
Proof.
  intros E (ls' & s' & E' & ? & ?). exists (ls ++ ls'), s'. split_and!; [|done..].
  by rewrite run_app, E.
Qed.

Lemma joining_completes s key todo :
  uses_client = false → independent s → stopper s = Joining key todo →
  (∀ s, independent s → stopper s = Stopping todo → completes s) → completes s.
Proof.
  intros Hu Hi Hs Hnext. destruct (streams s !! key) as [p|] eqn:Hk.
  - apply (completes_run (replicate (steps_left p) (StreamStep key) ++ [ThreadJoined]) _
      (mkState (mutex_ s) (Stopping todo) (<[key := Returned]> (streams s)))).
    + rewrite run_app, (run_stream s key p Hu Hi Hk). simpl. rewrite Hs. by rewrite lookup_insert_eq.
    + apply Hnext; [|done]. by apply map_Forall_insert_2.
  - apply (completes_run [ThreadJoined] _ (mkState (mutex_ s) (Stopping todo) (streams s))).
    + simpl. by rewrite Hs, Hk.
    + by apply Hnext.
Qed.

Lemma stopping_completes todo s :
  uses_client = false → independent s → stopper s = Stopping todo → completes s.
Proof.
  intros Hu. revert s. induction todo as [|key todo IH]; intros s Hi Hs.
  - exists [LeaveSection], (mkState None Stopped (streams s)). simpl. by rewrite Hs.
  - destruct (exec s StopNext) as [s1|] eqn:E; [|by unfold exec in E; rewrite Hs in E].
    apply (completes_run [StopNext] _ s1); [by cbn [run]; rewrite E|].
    pose proof (exec_independent s StopNext s1 Hu Hi E) as Hi1.
    unfold exec in E. rewrite Hs in E. injection E as <-.
    by apply (joining_completes _ key todo).
Qed.


End System.

(** ** Concrete runs: one stream with an update that its thread is handling. *)
Definition one_stream : state := mkState None Outside {[1%N := Reading 1]}.
Definition stop_during_callback : list action := [StreamStep 1%N; EnterSection; StopNext].

Lemma one_stream_initial : initial one_stream.
Proof.
  split_and!; [done..|]. unfold one_stream. simpl.
  apply map_Forall_singleton. by exists 1.
Qed.

(** The client deadlocks if a callback calls one of its methods while the
    streams are being stopped: the thread that stops them holds the lock and
    joins the thread of the stream, which waits for the lock. No thread can take
    a step any more. *)
Theorem callback_deadlocks_client :
  ∃ s, reachable initial (exec_step (exec true (λ _, 0))) s ∧
    mutex_ s = Some Stopper ∧ stopper s = Joining 1%N [] ∧
    streams s !! 1%N = Some (InCallback (OnUpdate 0)) ∧ ∀ a, exec true (λ _, 0) s a = None.
Proof.
  assert (∃ s, run (exec true (λ _, 0)) one_stream stop_during_callback = Some s ∧
    mutex_ s = Some Stopper ∧ stopper s = Joining 1%N [] ∧
    streams s = {[1%N := InCallback (OnUpdate 0)]}) as (s & E & Hm & Hs & Hst).
  { vm_compute. eexists. split_and!; reflexivity. }
  exists s. split_and!; [|done..|by rewrite Hst|].
  - eapply run_reachable; [|exact E]. apply one_stream_initial.
  - intros a. unfold exec. rewrite Hs, Hst. destruct a as [| | | |key]; try done.
    destruct (decide (key = 1%N)) as [->|Hne].
    + rewrite lookup_singleton_eq. simpl. by rewrite Hm.
    + by rewrite lookup_singleton_ne by done.
Qed.


End ClientCallbacks.
