(* ===== verification/ClientTests.v ===== *)
(** * The tests of the client

    [src/src/testing/grpcw/client/grpc_client_tests.cpp]: a client
    ([GrpcClient.v]), the queue into which its callback pushes the states of the
    connection ([BlockingQueue.v]), the servers of the test, and the thread that
    runs the test. Each test is a list of statements that is executed next to
    [run_thread_] in every order, against everything that gRPC may report about
    the connection. *)
From S2P Require Import Prelude Explore BlockingQueue GrpcClient.

Module ClientTests.
Import GrpcClient.

(** The tests register no streams, their updates have no type to speak of. *)
Abbreviation client_state := (GrpcClient.state () ()).
Abbreviation exec_client := (GrpcClient.exec (λ r : reader () (), r)).

(** ** The strings

    [grpc_client_state_tests.cpp] and the first test of [grpc_client_tests.cpp]:
    [CHECK_THROWS_AS] holds if the exception is [std::invalid_argument]. *)
Definition throws_invalid_argument {A} (o : outcome A) : bool :=
  match o with Fault (invalid_argument _) => true | _ => false end.

Definition prints (text : string) (o : outcome string) : bool :=
  match o with Ret x => bool_decide (x = text) | Fault _ => false end.

Definition client_state_string_checks : list bool :=
  [prints "not_connected" (to_string not_connected);
   prints "attempting_to_connect" (to_string attempting_to_connect);
   prints "connected" (to_string connected);
   throws_invalid_argument (to_string (invalid_client_state (-1)))].

Definition returns (c : GrpcClientState) (o : outcome GrpcClientState) : bool :=
  match o with Ret x => bool_decide (x = c) | Fault _ => false end.

Definition connectivity_state_checks : list bool :=
  [returns attempting_to_connect (to_cnc_client_state GRPC_CHANNEL_CONNECTING);
   returns not_connected (to_cnc_client_state GRPC_CHANNEL_IDLE);
   returns connected (to_cnc_client_state GRPC_CHANNEL_READY);
   returns not_connected (to_cnc_client_state GRPC_CHANNEL_SHUTDOWN);
   returns attempting_to_connect (to_cnc_client_state GRPC_CHANNEL_TRANSIENT_FAILURE);
   throws_invalid_argument (to_cnc_client_state (invalid_connectivity_state 0xffff))].

(** ** The test programs *)
Inductive statement : Type :=
| RequireState (state : GrpcClientState) (* [REQUIRE(client.get_state() == state)] *)
| RequirePop (state : GrpcClientState) (* [REQUIRE(updater.state_queue.pop_front() == state)] *)
| RequireEmpty (* [REQUIRE(updater.state_queue.empty())] *)
| CheckConnects (* [check_connects(updater.state_queue)] *)
| ChangeTo (address : string) (* [client.change_server(address, handle_state_change)] *)
| ChangeToInProcess (* [client.change_server(ip_server.in_process_channel())] *)
| KillStreamsAndChannel
| DestroyClient (* the end of the client's scope *)
| StartServer (address : string) (* [ScopedGrpcServer server(..., address)] *)
| StopServer (address : string). (* the end of the server's scope *)

#[global] Instance statement_eq_dec : EqDecision statement.
Proof. solve_decision. Defined.

Definition no_server : list statement :=
  [RequireState not_connected; ChangeTo "0.0.0.0:50050"; RequirePop attempting_to_connect;
   DestroyClient; RequirePop not_connected; RequireEmpty].

Definition no_server_stop_connection_attempts : list statement :=
  [RequireState not_connected; ChangeTo "0.0.0.0:50051"; RequirePop attempting_to_connect;
   KillStreamsAndChannel; RequirePop not_connected; DestroyClient; RequireEmpty].

Definition delayed_server : list statement :=
  [RequireState not_connected; ChangeTo "0.0.0.0:50052"; RequirePop attempting_to_connect;
   StartServer "0.0.0.0:50052"; RequirePop connected; StopServer "0.0.0.0:50052";
   RequirePop not_connected; RequirePop attempting_to_connect;
   DestroyClient; RequirePop not_connected; RequireEmpty].

Definition already_running_server : list statement :=
  [StartServer "0.0.0.0:50053"; RequireState not_connected; ChangeTo "0.0.0.0:50053"; CheckConnects;
   DestroyClient; RequirePop not_connected; RequireEmpty; StopServer "0.0.0.0:50053"].

Definition multiple_addresses : list statement :=
  [StartServer "0.0.0.0:50054"; RequireState not_connected; ChangeTo "0.0.0.0:50054"; CheckConnects;
   StartServer "0.0.0.0:50055"; ChangeTo "0.0.0.0:50055"; RequirePop not_connected; CheckConnects;
   ChangeTo "0.0.0.0:50054"; RequirePop not_connected; CheckConnects;
   StopServer "0.0.0.0:50055"; DestroyClient; RequirePop not_connected; RequireEmpty;
   StopServer "0.0.0.0:50054"].

(** The two tests of this name do the same; the server in the process of the
    test listens on no address. *)
Definition external_to_inprocess_and_back : list statement :=
  [StartServer "0.0.0.0:50056"; RequireState not_connected; ChangeTo "0.0.0.0:50056"; CheckConnects;
   ChangeToInProcess; RequirePop not_connected; RequireEmpty; RequireState connected;
   ChangeTo "0.0.0.0:50056"; RequirePop not_connected; CheckConnects;
   DestroyClient; RequirePop not_connected; RequireEmpty; StopServer "0.0.0.0:50056"].

(** ** Running a test *)
Inductive caller : Type := MainThread | RunThread.

#[global] Instance caller_eq_dec : EqDecision caller.
Proof. solve_decision. Defined.

Record state : Type := mkTest {
  client : client_state;
  state_queue : list GrpcClientState; (* [StateUpdater::state_queue] *)
  callback : option (caller * GrpcClientState); (* who is about to call [handle_state_change] *)
  listening : list string; (* the servers that run *)
  script : list statement; (* what is left of the test *)
  failed : bool (* a [REQUIRE] did not hold, which ends the test *)
}.

Definition start (test : list statement) : state := mkTest GrpcClient.init [] None [] test false.

Inductive action : Type :=
| Main (new_state : grpc_connectivity_state)
| Next (result_ok : bool) (current : grpc_connectivity_state)
| Exit
| HandleStateChange.

(** The calls of the connection callback are not remembered in the client: they
    go to the queue. *)
Definition forget (c : client_state) : client_state :=
  mkState (shared c) (using_in_process_server_ c) (server_address_ c) (queue_ c) (running c) (owner c)
    [] (stream_events c) (crashed c).

(** A thread has moved the client to [c]. *)
Definition settle (who : caller) (c : client_state) (rest : list statement) (s : state) : state :=
  mkTest (forget c) (state_queue s)
    (match reported c with [] => callback s | x :: _ => Some (who, x) end)
    (listening s) rest (failed s).

(** [REQUIRE(b)], with [rest] behind it. *)
Definition require (b : bool) (q : list GrpcClientState) (rest : list statement) (s : state) : state :=
  if b then mkTest (client s) q (callback s) (listening s) rest (failed s)
  else mkTest (client s) q (callback s) (listening s) (script s) true.

(** The next step of a function of the client that disconnects it first. *)
Definition call_client (k : continuation) (new_state : grpc_connectivity_state)
    (rest : list statement) (s : state) : option state :=
  match owner (client s) with
  | Outside => c ← exec_client (client s) (Kill k); Some (settle MainThread c (script s) s)
  | BeforeShutdown _ => c ← exec_client (client s) Shutdown; Some (settle MainThread c (script s) s)
  | BeforeJoin _ => c ← exec_client (client s) (Join 1 new_state); Some (settle MainThread c rest s)
  | Destroyed => None
  end.

Definition with_listening (l : list string) (rest : list statement) (s : state) : state :=
  mkTest (client s) (state_queue s) (callback s) l rest (failed s).

Definition in_callback (who : caller) (s : state) : bool :=
  match callback s with Some (w, _) => bool_decide (w = who) | None => false end.

(** The thread of the test. *)
Definition exec_main (new_state : grpc_connectivity_state) (s : state) : option state :=
  if failed s || in_callback MainThread s then None else
  match script s with
  | [] => None
  | RequireState c :: rest =>
      Some (require (returns c (get_state (shared (client s)))) (state_queue s) rest s)
  | RequirePop c :: rest =>
      '(x, q) ← BlockingQueue.pop_front (state_queue s);
      Some (require (bool_decide (x = c)) q rest s)
  | RequireEmpty :: rest =>
      Some (require (BlockingQueue.empty (state_queue s)) (state_queue s) rest s)
  | CheckConnects :: rest =>
      '(x, q) ← BlockingQueue.pop_front (state_queue s);
      if decide (x = attempting_to_connect) then Some (require true q (RequirePop connected :: rest) s)
      else Some (require (bool_decide (x = connected)) q rest s)
  | ChangeTo address :: rest => call_client (ChangeServer address) new_state rest s
  | ChangeToInProcess :: rest => call_client (ChangeServerInProcess 2) new_state rest s
  | KillStreamsAndChannel :: rest => call_client Killed new_state rest s
  | DestroyClient :: rest => call_client Destroy new_state rest s
  | StartServer address :: rest => Some (with_listening (address :: listening s) rest s)
  | StopServer address :: rest =>
      Some (with_listening (filter (λ a, a ≠ address) (listening s)) rest s)
  end.

(** [run_thread_] goes on when its callback has returned; it does not exist
    before that of [change_server] has. *)
Definition exec_run_thread (a : GrpcClient.action () ()) (s : state) : option state :=
  match callback s with
  | None => c ← exec_client (client s) a; Some (settle RunThread c (script s) s)
  | Some _ => None
  end.

(** [StateUpdater::handle_state_change] *)
Definition handle_state_change (s : state) : option state :=
  match callback s with
  | Some (_, x) =>
      Some (mkTest (client s) (BlockingQueue.push_back x (state_queue s)) None (listening s)
              (script s) (failed s))
  | None => None
  end.

Definition exec (s : state) (a : action) : option state :=
  match a with
  | Main new_state => exec_main new_state s
  | Next result_ok current => exec_run_thread (RunNext result_ok current) s
  | Exit => exec_run_thread RunExit s
  | HandleStateChange => handle_state_change s
  end.

(** ** gRPC

    What a channel reports, as its documentation describes it. A channel becomes
    ready only if a server listens at the address; a ready channel notices that
    the server has gone when the server says so, and becomes idle; it goes on
    trying to connect otherwise. [GetState] may be called some time after the
    change, so several changes look like one. *)
Definition is_valid (c : grpc_connectivity_state) : bool :=
  match c with invalid_connectivity_state _ => false | _ => true end.

Definition may_become (up : bool) (last current : grpc_connectivity_state) : bool :=
  match last, current with
  | (GRPC_CHANNEL_IDLE | GRPC_CHANNEL_CONNECTING | GRPC_CHANNEL_TRANSIENT_FAILURE),
    (GRPC_CHANNEL_CONNECTING | GRPC_CHANNEL_TRANSIENT_FAILURE) => true
  | (GRPC_CHANNEL_IDLE | GRPC_CHANNEL_CONNECTING | GRPC_CHANNEL_TRANSIENT_FAILURE),
    GRPC_CHANNEL_READY => up
  | GRPC_CHANNEL_READY, GRPC_CHANNEL_IDLE => negb up
  | _, _ => false
  end.

(** The state of a new channel: a test may rely on it being idle. *)
Definition may_start (idle up : bool) (c : grpc_connectivity_state) : bool :=
  match c with
  | GRPC_CHANNEL_IDLE => true
  | GRPC_CHANNEL_CONNECTING | GRPC_CHANNEL_TRANSIENT_FAILURE => negb idle
  | GRPC_CHANNEL_READY => negb idle && up
  | _ => false
  end.

Definition is_up (address : string) (s : state) : bool := bool_decide (address ∈ listening s).

(** Without a channel, and if the notification comes because its time is up or
    because the queue is shut down, nobody asks for the state. *)
Definition documented (idle : bool) (s : state) (a : action) : bool :=
  match a with
  | Main new_state =>
      match script s with
      | ChangeTo address :: _ => may_start idle (is_up address s) new_state
      | _ => is_valid new_state
      end
  | Next result_ok current =>
      match channel (shared (client s)) with
      | Some _ =>
          if result_ok then
            may_become (is_up (server_address_ (client s)) s)
              (connection_state (shared (client s))) current
          else is_valid current
      | None => is_valid current
      end
  | Exit | HandleStateChange => true
  end.

Abbreviation exec_test idle := (restrict (documented idle) exec).

(** ** Every schedule *)
Definition connectivity_states : list grpc_connectivity_state :=
  [GRPC_CHANNEL_IDLE; GRPC_CHANNEL_CONNECTING; GRPC_CHANNEL_READY;
   GRPC_CHANNEL_TRANSIENT_FAILURE; GRPC_CHANNEL_SHUTDOWN].

Definition labels : list action :=
  [Exit; HandleStateChange] ++ (Main <$> connectivity_states) ++ (Next true <$> connectivity_states)
  ++ (Next false <$> connectivity_states).

Lemma is_valid_elem c : is_valid c = true → c ∈ connectivity_states.
Proof. destruct c; unfold connectivity_states; set_solver. Qed.

Lemma documented_valid idle s a : documented idle s a = true → a ∈ labels.
Proof.
  assert (∀ up c, may_start idle up c = true → is_valid c = true) as Hs by (by intros ? []).
  assert (∀ up l c, may_become up l c = true → is_valid c = true) as Hb by (by intros ? [] []).
  unfold labels. intros Ha. repeat rewrite elem_of_app. destruct a as [c|r c| |]; [| |set_solver..].
  - right; left. apply list_elem_of_fmap. exists c. split; [done|]. apply is_valid_elem. simpl in Ha.
    destruct (script s) as [|[] ?]; eauto.
  - assert (is_valid c = true) as Hc%is_valid_elem.
    { simpl in Ha. destruct (channel _); [|done]. destruct r; eauto. }
    right; right. destruct r; [left|right]; apply list_elem_of_fmap; eauto.
Qed.

#[global] Instance continuation_eq_dec : EqDecision continuation.
Proof. solve_decision. Defined.
#[global] Instance owner_pc_eq_dec : EqDecision owner_pc.
Proof. solve_decision. Defined.
#[global] Instance completion_queue_eq_dec : EqDecision completion_queue.
Proof. solve_decision. Defined.

(** States without streams can be compared. *)
Definition same_data (d d' : SharedData () ()) : bool :=
  bool_decide (connection_state d = connection_state d') && bool_decide (channel d = channel d') &&
  bool_decide (stub d = stub d') &&
  match map_to_list (streams d), map_to_list (streams d') with [], [] => true | _, _ => false end.

Definition same_client (c c' : client_state) : bool :=
  if decide (owner c = owner c') then
  bool_decide (queue_ c = queue_ c') &&
  bool_decide (running c = running c') && same_data (shared c) (shared c') &&
  bool_decide (using_in_process_server_ c = using_in_process_server_ c') &&
  bool_decide (server_address_ c = server_address_ c') && bool_decide (crashed c = crashed c') &&
  bool_decide (reported c = reported c') &&
  match stream_events c, stream_events c' with [], [] => true | _, _ => false end
  else false.

(** The script differs most often, so it is compared first. *)
Definition same (s s' : state) : bool :=
  if decide (length (script s) = length (script s')) then
    if same_client (client s) (client s') then
      bool_decide (state_queue s = state_queue s') && bool_decide (callback s = callback s') &&
      bool_decide (listening s = listening s') && bool_decide (failed s = failed s') &&
      bool_decide (script s = script s')
    else false
  else false.

Ltac split_same H :=
  repeat match type of H with
  | _ && _ = true =>
      let H1 := fresh "H" in let H2 := fresh "H" in
      apply andb_true_iff in H as [H1 H2]; split_same H1; split_same H2
  | bool_decide _ = true => apply bool_decide_eq_true_1 in H
  end.

Lemma same_data_sound d d' : same_data d d' = true → d = d'.
Proof.
  unfold same_data. destruct d as [c ch st m], d' as [c' ch' st' m']. simpl. intros H.
  destruct (map_to_list m) eqn:Em; [|by rewrite andb_false_r in H].
  destruct (map_to_list m') eqn:Em'; [|by rewrite andb_false_r in H].
  apply map_to_list_empty_iff in Em, Em'. split_same H. congruence.
Qed.

Lemma same_client_sound c c' : same_client c c' = true → c = c'.
Proof.
  unfold same_client. destruct c as [d ? ? ? ? ? ? e ?], c' as [d' ? ? ? ? ? ? e' ?]. simpl.
  case_decide; [|done]. intros H'. destruct e, e'; try (by rewrite andb_false_r in H').
  split_same H'. match goal with H : same_data _ _ = true |- _ => apply same_data_sound in H end.
  congruence.
Qed.

Lemma same_test_sound s s' : same s s' = true → s = s'.
Proof.
  unfold same. destruct s as [c ? ? ? ? ?], s' as [c' ? ? ? ? ?]. simpl. case_decide; [|done].
  destruct (same_client c c') eqn:E; [|done]. apply same_client_sound in E. intros H'.
  split_same H'. congruence.
Qed.

(** What is left to do apart from the notifications of gRPC. *)
Definition statement_weight (st : statement) : nat :=
  match st with
  | ChangeTo _ | ChangeToInProcess | KillStreamsAndChannel | DestroyClient => 5
  | CheckConnects => 2
  | _ => 1
  end.

Definition weight (s : state) : nat :=
  sum_list_with statement_weight (script s)
  - match owner (client s) with Outside | Destroyed => 0 | BeforeShutdown _ => 1 | BeforeJoin _ => 2 end
  + (if callback s then 1 else 0) + Nat.b2n (running (client s)) - Nat.b2n (failed s).

Definition is_next (a : action) : bool := match a with Next _ _ => true | _ => false end.
Definition allowance (a : action) : nat := if is_next a then 2 else 0.

Definition finished (s : state) : bool :=
  match script s, callback s with [], None => negb (running (client s)) | _, _ => false end.

Definition safe (s : state) : bool :=
  negb (failed s) && match crashed (client s) with None => true | Some _ => false end.

(** A schedule that ends: gRPC reports what the test waits for. *)
Definition expected (s : state) : grpc_connectivity_state :=
  match connection_state (shared (client s)) with
  | GRPC_CHANNEL_READY => GRPC_CHANNEL_IDLE
  | _ => if is_up (server_address_ (client s)) s then GRPC_CHANNEL_READY else GRPC_CHANNEL_CONNECTING
  end.

Definition strategy (idle : bool) (s : state) : action :=
  if callback s then HandleStateChange
  else if exec_test idle s (Main GRPC_CHANNEL_IDLE) then Main GRPC_CHANNEL_IDLE
  else if exec_test idle s Exit then Exit
  else Next true (expected s).

Definition verified_test (idle : bool) (test : list statement) : bool :=
  verified (exec_test idle) labels same weight allowance finished (strategy idle) safe 60 2000 (start test).

(** The tests; the last one only passes if new channels are idle. *)
Definition tests : list (bool * list statement) :=
  [(false, no_server); (false, no_server_stop_connection_attempts); (false, delayed_server);
   (false, already_running_server); (false, multiple_addresses);
   (true, external_to_inprocess_and_back)].

Lemma tests_verified : forallb (λ t, verified_test t.1 t.2 && (weight (start t.2) <=? 35)) tests = true.
Proof. vm_compute. reflexivity. Qed.

Lemma string_tests_pass :
  Forall (λ b, b = true) (client_state_string_checks ++ connectivity_state_checks).
Proof. by repeat constructor. Qed.

(** ** The client of a test is a client *)

(** [GrpcClient.exec] does not look at the calls that were reported. *)
Definition prepend (l : list GrpcClientState) (c : client_state) : client_state :=
  mkState (shared c) (using_in_process_server_ c) (server_address_ c) (queue_ c) (running c) (owner c)
    (l ++ reported c) (stream_events c) (crashed c).

Lemma prepend_forget c : prepend (reported c) (forget c) = c.
Proof. destruct c. unfold prepend. simpl. by rewrite app_nil_r. Qed.

Lemma exec_prepend l c a : exec_client (prepend l c) a = prepend l <$> exec_client c a.
Proof.
  unfold GrpcClient.exec. simpl. destruct (crashed c); [done|].
  assert (exec_live (λ r, r) (prepend l c) a = prepend l <$> exec_live (λ r, r) c a) as H;
    [|by destruct (owner c)].
  destruct a; simpl; unfold exec_kill, exec_shutdown, exec_join, exec_run_next, exec_run_exit; simpl;
    repeat case_match; simplify_eq/=; try done;
    unfold record_events, report, prepend; simpl; repeat case_match; try (by rewrite ?app_assoc).
  destruct (streams (shared c) !! key) as [st|]; [|done]. simpl. by destruct (thread_step st) as [[]|].
Qed.

(** What was pushed to the queue, or will be at once, is what the client has
    reported; [popped] is what the test has taken from it. *)
Definition pending (s : state) : list GrpcClientState :=
  match callback s with Some (_, x) => [x] | None => [] end.

Definition is_client (s : state) (g : client_state) : Prop :=
  client s = forget g ∧ ∃ popped, reported g = popped ++ state_queue s ++ pending s.

Abbreviation client_reach := (reachable (λ g, g = GrpcClient.init) (exec_step_ok exec_client action_ok)).

Lemma exec_of_forget g a c :
  exec_client (forget g) a = Some c →
  ∃ g', exec_client g a = Some g' ∧ forget g' = forget c ∧ reported g' = reported g ++ reported c.
Proof.
  intros H. pose proof (exec_prepend (reported g) (forget g) a) as E.
  rewrite prepend_forget, H in E. eexists. by split_and!.
Qed.

(** At most one call of the callback per step, and none if one is pending. *)
Lemma exec_reports c a c' :
  reported c = [] → exec_client c a = Some c' → length (reported c') ≤ 1.
Proof.
  intros Hr. unfold GrpcClient.exec. destruct (crashed c); [done|].
  assert (exec_live (λ r, r) c a = Some c' → length (reported c') ≤ 1) as H; [|by destruct (owner c)].
  destruct a; simpl; unfold exec_kill, exec_shutdown, exec_join, exec_run_next, exec_run_exit, report; simpl;
    repeat case_match; intros; simplify_eq/=; rewrite ?Hr; simpl; try lia.
  destruct (streams (shared c) !! key) as [st|]; [|done]. simpl in *.
  destruct (thread_step st) as [[]|]; simplify_eq/=. rewrite Hr. simpl. lia.
Qed.

(** A step of the client in a test. *)
Lemma settle_is_client s g who c a rest :
  is_client s g → action_ok a → exec_client (client s) a = Some c →
  (callback s = None ∨ reported c = []) →
  ∃ g', exec_step_ok exec_client action_ok g a g' ∧ is_client (settle who c rest s) g'.
Proof.
  intros [Hc [popped Hp]] Ha He Hcb. pose proof (exec_reports (client s) a c) as Hr.
  rewrite Hc in He, Hr. specialize (Hr eq_refl He).
  destruct (exec_of_forget g a c He) as (g' & Hg' & Hf & Hrep).
  exists g'. split; [by split|]. split; [done|]. exists popped. rewrite Hrep, Hp, <-!app_assoc.
  f_equal. simpl. f_equal. unfold pending in *. simpl.
  destruct (reported c) as [|x [|]]; simpl in *; [by rewrite app_nil_r| |lia].
  destruct Hcb as [->|?]; done.
Qed.

(** [run_thread_] is there while it is in its callback, so that no join returns. *)
Definition is_test (s : state) (g : client_state) : Prop :=
  is_client s g ∧ (in_callback RunThread s = true → running (client s) = true).

Lemma owner_step_quiet c a c' :
  match a with Kill _ | Shutdown => True | _ => False end → exec_client c a = Some c' →
  reported c' = reported c ∧ running c' = running c.
Proof.
  unfold GrpcClient.exec. intros Ha. destruct (crashed c); [done|].
  destruct a; try done; simpl; unfold exec_kill, exec_shutdown;
    repeat case_match; intros; by simplify_eq.
Qed.

Lemma join_waits c ch new_state c' :
  exec_client c (Join ch new_state) = Some c' → running c = false.
Proof.
  unfold GrpcClient.exec. destruct (crashed c); [done|]. simpl. unfold exec_join.
  destruct (owner c) as [| |[]|]; try done; by destruct (running c).
Qed.

Lemma run_step_runs c a c' :
  run_step a = true → exec_client c a = Some c' →
  running c = true ∧ (running c' = true ∨ reported c' = reported c).
Proof.
  unfold GrpcClient.exec. intros Ha. destruct (crashed c); [done|].
  destruct a; try done; simpl; unfold exec_run_next, exec_run_exit;
    destruct (owner c), (queue_ c) as [q|], (running c) eqn:Er; simpl; try done; intros H;
    repeat case_match; simplify_eq/=; eauto.
Qed.

Abbreviation steps_to g s' := (∃ ls g', execution (exec_step_ok exec_client action_ok) g ls g' ∧ is_test s' g').

Lemma one_step g a g' s' : exec_step_ok exec_client action_ok g a g' → is_test s' g' → steps_to g s'.
Proof. intros. exists [a], g'. split; [|done]. econstructor; [done|constructor]. Qed.

Lemma no_step s s' g :
  is_test s g → client s' = client s → callback s' = callback s →
  (∃ taken, state_queue s = taken ++ state_queue s') → steps_to g s'.
Proof.
  intros [[Hc [popped Hp]] Hr] Ec Ecb [taken Eq]. exists [], g. split; [constructor|].
  split; [split; [by rewrite Ec|]|].
  - exists (popped ++ taken). unfold pending. by rewrite Ecb, <-app_assoc, (app_assoc taken), <-Eq.
  - unfold in_callback. by rewrite Ecb, Ec.
Qed.

Lemma call_client_step k new_state rest s s' g :
  is_test s g → in_callback MainThread s = false → valid_state new_state →
  call_client k new_state rest s = Some s' → steps_to g s'.
Proof.
  intros [Hg Hr] Hm Hv. unfold call_client.
  assert (∀ a c r, match a with Kill _ | Shutdown => True | _ => False end → exec_client (client s) a = Some c →
    steps_to g (settle MainThread c r s)) as Hquiet.
  { intros a c r Ha He. destruct (owner_step_quiet _ _ _ Ha He) as [Er Ern].
    rewrite (proj1 Hg) in Er. simpl in Er.
    destruct (settle_is_client s g MainThread c a r Hg) as (g' & Hs & Hg'); [by destruct a|done|by right|].
    eapply one_step; [done|]. split; [done|]. unfold settle, in_callback in *. simpl. by rewrite Er, Ern. }
  destruct (owner (client s)); [| | |done].
  - destruct (exec_client _ _) eqn:E; [|done]. intros [= <-]. by eapply (Hquiet (Kill k)).
  - destruct (exec_client _ _) eqn:E; [|done]. intros [= <-]. by eapply (Hquiet Shutdown).
  - destruct (exec_client _ _) as [c|] eqn:E; [|done]. intros [= <-].
    pose proof (join_waits _ _ _ _ E) as Hrun.
    assert (callback s = None) as Hcb.
    { unfold in_callback in *. destruct (callback s) as [[[] ?]|]; [done| |done].
      specialize (Hr eq_refl). congruence. }
    destruct (settle_is_client s g MainThread c (Join 1 new_state) rest Hg) as (g' & Hs & Hg'); [done..|by left|].
    eapply one_step; [done|]. split; [done|]. unfold settle, in_callback. simpl.
    destruct (reported c); [by rewrite Hcb|done].
Qed.

Lemma require_step b q rest s g :
  is_test s g → (∃ taken, state_queue s = taken ++ q) → steps_to g (require b q rest s).
Proof. intros Hg Hq. eapply no_step; [done|by destruct b..]. Qed.

Lemma pop_front_taken {A} (q : list A) x q' :
  BlockingQueue.pop_front q = Some (x, q') → ∃ taken, q = taken ++ q'.
Proof. destruct q; [done|]. intros [= -> ->]. by exists [x]. Qed.

Lemma main_step new_state s s' g :
  is_test s g → valid_state new_state → exec_main new_state s = Some s' → steps_to g s'.
Proof.
  intros Hg Hv. unfold exec_main. destruct (failed s); [done|]. simpl.
  destruct (in_callback MainThread s) eqn:Hm; [done|].
  assert (∃ taken, state_queue s = taken ++ state_queue s) as Hq by (by exists []).
  destruct (script s) as [|[] rest]; try done;
    try (by intros; eapply call_client_step); try (intros [= <-]; by eapply require_step);
    try (intros [= <-]; by eapply no_step).
  - destruct (BlockingQueue.pop_front _) as [[x q]|] eqn:E; [|done]. intros [= <-].
    eapply require_step; [done|]. by eapply pop_front_taken.
  - destruct (BlockingQueue.pop_front _) as [[x q]|] eqn:E; [|done].
    cbn [mbind option_bind]. apply pop_front_taken in E.
    case_decide; intros [= <-]; [by eapply no_step|by apply require_step].
Qed.

Lemma run_thread_step a s s' g :
  is_test s g → run_step a = true → action_ok a → exec_run_thread a s = Some s' → steps_to g s'.
Proof.
  intros [Hg Hr] Ha Hok. unfold exec_run_thread. destruct (callback s) eqn:Hcb; [done|].
  destruct (exec_client (client s) a) as [c|] eqn:E; [|done]. intros [= <-].
  destruct (run_step_runs _ _ _ Ha E) as [_ Hrun]. rewrite (proj1 Hg) in Hrun. simpl in Hrun.
  destruct (settle_is_client s g RunThread c a (script s) Hg) as (g' & Hs & Hg'); [done..|by left|].
  eapply one_step; [done|]. split; [done|]. unfold settle, in_callback. simpl.
  destruct (reported c) eqn:Er; [by rewrite Hcb|]. by destruct Hrun.
Qed.

Lemma test_simulation idle :
  simulation_step (exec_step (exec_test idle)) (exec_step_ok exec_client action_ok) is_test.
Proof.
  intros s a s' g Hg [Hd He]%restrict_inv. pose proof (documented_valid _ _ _ Hd) as Hl.
  assert (∀ c, c ∈ connectivity_states → valid_state c) as Hv.
  { apply Forall_forall. by repeat constructor. }
  unfold labels in Hl. repeat rewrite elem_of_app in Hl. repeat rewrite list_elem_of_fmap in Hl.
  destruct a as [c|r c| |]; simpl in He.
  - eapply main_step; [done| |done]. destruct Hl as [Hl|[[y [[= ->] ?]]|Hl]]; [set_solver|auto|].
    destruct Hl as [[y [? _]]|[y [? _]]]; done.
  - eapply (run_thread_step (RunNext r c)); [done..| |done]. apply Hv.
    destruct Hl as [Hl|[[y [? _]]|Hl]]; [set_solver|done|].
    by destruct Hl as [[y [[= _ ->] ?]]|[y [[= _ ->] ?]]].
  - by eapply (run_thread_step RunExit).
  - unfold handle_state_change in He. destruct (callback s) as [[w x]|] eqn:Hcb; [|done].
    injection He as <-. destruct Hg as [[Hc [popped Hp]] Hr]. exists [], g. split; [constructor|].
    split; [|done]. split; [done|]. exists popped. unfold pending in *. rewrite Hcb in Hp. simpl.
    by rewrite app_nil_r.
Qed.

(** Whatever the test, its client is one of [GrpcClient.v]. *)
Lemma client_of_test idle test ls s :
  run (exec_test idle) (start test) ls = Some s → ∃ g, client_reach g ∧ is_test s g.
Proof.
  intros Hr. eapply (simulation_reachable (λ s, s = start test)).
  - intros ? ->. exists GrpcClient.init. split; [done|]. split; [split; [done|by exists []]|done].
  - apply test_simulation.
  - by eapply run_reachable.
Qed.

(** ** Properties *)


(** The test with a late server, with a deadline that expires while it waits. *)
Definition late_server : list action :=
  [Main GRPC_CHANNEL_IDLE; Main GRPC_CHANNEL_IDLE; Main GRPC_CHANNEL_IDLE; Main GRPC_CHANNEL_IDLE;
   Next false GRPC_CHANNEL_IDLE; Next true GRPC_CHANNEL_CONNECTING; HandleStateChange;
   Main GRPC_CHANNEL_IDLE; Next true GRPC_CHANNEL_TRANSIENT_FAILURE; Main GRPC_CHANNEL_IDLE;
   Next true GRPC_CHANNEL_READY; HandleStateChange; Main GRPC_CHANNEL_IDLE].


(** The tests that switch to a server in the same process and back rely on new
    channels being idle: otherwise the client is not reported as disconnected. *)
Theorem in_process_test_needs_idle_channel :
  ∃ ls s, run (exec_test false) (start external_to_inprocess_and_back) ls = Some s ∧ failed s = true.
Proof.
  exists ([Main GRPC_CHANNEL_IDLE; Main GRPC_CHANNEL_IDLE; Main GRPC_CHANNEL_IDLE;
    Main GRPC_CHANNEL_IDLE; Main GRPC_CHANNEL_IDLE; Next true GRPC_CHANNEL_READY; HandleStateChange;
    Main GRPC_CHANNEL_IDLE; Main GRPC_CHANNEL_IDLE; Next false GRPC_CHANNEL_IDLE; HandleStateChange;
    Main GRPC_CHANNEL_IDLE; Exit; Main GRPC_CHANNEL_IDLE; Main GRPC_CHANNEL_IDLE; Main GRPC_CHANNEL_IDLE;
    Main GRPC_CHANNEL_IDLE; Main GRPC_CHANNEL_IDLE; Main GRPC_CHANNEL_IDLE;
    Main GRPC_CHANNEL_CONNECTING; HandleStateChange; Main GRPC_CHANNEL_IDLE]).
  match goal with |- ∃ s, run ?e ?s0 ?ls = _ ∧ _ => set (r := run e s0 ls) end.
  assert (match r with Some s => failed s | None => false end = true) as Hc by (vm_compute; reflexivity).
  destruct r as [s|]; [|discriminate Hc]. by exists s.
Qed.

End ClientTests.
