(* ===== verification/GrpcServer.v ===== *)
(** * Synchronous servers

    [src/src/grpcw/server/grpc_server.cpp] and [scoped_grpc_server.cpp]: how a
    server is built, and the thread that runs it while the owner destroys it;
    [src/src/testing/test_server.cpp] does the same by hand. The service of the
    tests, [src/src/testing/test_service.cpp], is the module [TestService]. *)
From S2P Require Import Prelude.

Module GrpcServer.

(** [grpc::ServerBuilder] after the calls of the constructor. *)
Record builder : Type := mkBuilder {
  services : nat;
  max_message_size : Z;
  listening_ports : list string
}.

(** [std::numeric_limits<int>::max()] *)
Definition int_max : Z := 2 ^ 31 - 1.

(** The constructor of [GrpcServer]. *)
Definition build (server_address : string) : builder :=
  let builder := mkBuilder 1 int_max [] in
  if negb (bool_decide (server_address = "")) then
    mkBuilder (services builder) (max_message_size builder)
      (listening_ports builder ++ [server_address])
  else builder.

(** The members of [ScopedGrpcServer] while the threads run. The thread of
    [run_thread_] is about to call [server_->Wait()], inside it, or back. *)
Inductive run_pc : Type := Starting | Waiting | Returned.

Inductive owner_pc : Type :=
| Alive
| ShuttingDown (* inside [server_.shutdown()] *)
| Joining
| Destroyed.

Record state : Type := mkState {
  server : builder;
  open_calls : nat; (* gRPC: the calls that are being served *)
  is_shutdown : bool;
  run_thread_ : run_pc;
  owner : owner_pc
}.

(** The constructor: the server is complete before the thread starts. *)
Definition make (server_address : string) : state :=
  mkState (build server_address) 0 false Starting Alive.

Inductive action : Type :=
| Run
| WaitReturns
| Destructor
| ShutdownReturns
| Join
| Arrive
| EndCall.

Definition exec (s : state) (a : action) : option state :=
  match a with
  | Run =>
      match run_thread_ s with
      | Starting => Some (mkState (server s) (open_calls s) (is_shutdown s) Waiting (owner s))
      | _ => None
      end
  | WaitReturns =>
      match run_thread_ s, open_calls s with
      | Waiting, O =>
          if is_shutdown s then Some (mkState (server s) 0 true Returned (owner s)) else None
      | _, _ => None
      end
  | Destructor =>
      match owner s with
      | Alive => Some (mkState (server s) (open_calls s) true (run_thread_ s) ShuttingDown)
      | _ => None
      end
  | ShutdownReturns =>
      match owner s, open_calls s with
      | ShuttingDown, O => Some (mkState (server s) 0 (is_shutdown s) (run_thread_ s) Joining)
      | _, _ => None
      end
  | Join =>
      match owner s, run_thread_ s with
      | Joining, Returned => Some (mkState (server s) (open_calls s) (is_shutdown s) Returned Destroyed)
      | _, _ => None
      end
  | Arrive =>
      if is_shutdown s then None
      else Some (mkState (server s) (S (open_calls s)) false (run_thread_ s) (owner s))
  | EndCall =>
      match open_calls s with
      | S n => Some (mkState (server s) n (is_shutdown s) (run_thread_ s) (owner s))
      | O => None
      end
  end.

Abbreviation reach server_address :=
  (reachable (λ s, s = make server_address) (exec_step exec)).

Record inv (server_address : string) (s : state) : Prop := mkInv {
  inv_server : server s = build server_address;
  inv_shutdown : is_shutdown s = match owner s with Alive => false | _ => true end;
  inv_returned : run_thread_ s = Returned → is_shutdown s = true ∧ open_calls s = 0;
  inv_joining : owner s = Joining ∨ owner s = Destroyed → open_calls s = 0;
  inv_destroyed : owner s = Destroyed → run_thread_ s = Returned
}.

Lemma reach_server_inv address s : reach address s → inv address s.
Proof.
  apply reachable_invariant; [by intros ? ->|].
  intros s1 a s2 [H1 H2 H3 H4 H5] H. unfold exec_step, exec in H.
  destruct a; destruct (owner s1) eqn:Eo; destruct (run_thread_ s1) eqn:Er;
    destruct (open_calls s1) eqn:Ec; destruct (is_shutdown s1) eqn:Es;
    simplify_eq/=; constructor; simpl; rewrite ?Eo, ?Er, ?Ec, ?Es; naive_solver.
Qed.

Lemma end_calls s :
  run exec s (replicate (open_calls s) EndCall)
  = Some (mkState (server s) 0 (is_shutdown s) (run_thread_ s) (owner s)).
Proof.
  destruct s as [b n sd r o]. simpl. induction n as [|n IH]; [done|]. simpl. apply IH.
Qed.

(** A server listens on its address, unless the address is empty, and
    accepts messages of every size an [int] can count. Once the destructor has
    asked it to shut down, it returns as soon as the open calls are over: from
    every state in which it waits, whether [run_thread_] has called [Wait] yet
    or not, the end of those calls and at most four more steps destroy it. A
    destroyed server serves no call and its thread has returned. *)
Theorem scoped_server_stops address s :
  reach address s →
  listening_ports (server s) = (if decide (address = "") then [] else [address]) ∧
  max_message_size (server s) = 2147483647%Z ∧
  (owner s = Destroyed → run_thread_ s = Returned ∧ open_calls s = 0) ∧
  (owner s = ShuttingDown ∨ owner s = Joining →
   ∃ ls s', length ls ≤ 4 ∧ run exec s (replicate (open_calls s) EndCall ++ ls) = Some s' ∧
     owner s' = Destroyed).
Proof.
  intros Hr. apply reach_server_inv in Hr as [H1 H2 H3 H4 H5].
  rewrite H1. unfold build. split_and!.
  - by repeat case_decide; case_bool_decide.
  - by case_bool_decide.
  - naive_solver.
  - intros Ho. assert (is_shutdown s = true) as Hs by (rewrite H2; by destruct Ho as [-> | ->]).
    destruct Ho as [Ho|Ho]; destruct (run_thread_ s) eqn:Er.
    + exists [Run; WaitReturns; ShutdownReturns; Join]. eexists. rewrite run_app, end_calls, Hs, Er, Ho.
      simpl. split_and!; [lia|done|done].
    + exists [WaitReturns; ShutdownReturns; Join]. eexists. rewrite run_app, end_calls, Hs, Er, Ho.
      simpl. split_and!; [lia|done|done].
    + exists [ShutdownReturns; Join]. eexists. rewrite run_app, end_calls, Er, Ho.
      simpl. split_and!; [lia|done|done].
    + exists [Run; WaitReturns; Join]. eexists. rewrite run_app, end_calls, Hs, Er, Ho.
      simpl. split_and!; [lia|done|done].
    + exists [WaitReturns; Join]. eexists. rewrite run_app, end_calls, Hs, Er, Ho.
      simpl. split_and!; [lia|done|done].
    + exists [Join]. eexists. rewrite run_app, end_calls, Er, Ho.
      simpl. split_and!; [lia|done|done].
Qed.

Lemma scoped_server_stops_witness :
  listening_ports (server (make "localhost:1")) = ["localhost:1"] ∧
  (∃ ls s', length ls ≤ 4 ∧
     run exec (mkState (build "localhost:1") 1 true Starting ShuttingDown) (replicate 1 EndCall ++ ls)
     = Some s' ∧ owner s' = Destroyed).
Proof.
  split.
  - apply (scoped_server_stops "localhost:1" (make "localhost:1")). by constructor.
  - apply (scoped_server_stops "localhost:1" (mkState (build "localhost:1") 1 true Starting ShuttingDown)).
    + eapply (run_reachable exec _ (make "localhost:1") [Arrive; Destructor]); reflexivity.
    + by left.
Defined.

End GrpcServer.

Module TestService.
Section Service.
Context {TestMessage : Type}.

Inductive Status : Type := OK | CANCELLED.

(** [echo] *)
Definition echo (request : TestMessage) : TestMessage * Status := (request, OK).

(** [endless_echo_stream]: what [Write] and [IsCancelled] return in each round;
    the messages written, and the status once the loop has ended. *)
Fixpoint endless_echo_stream (fuel : nat) (rounds : nat → bool * bool) (request : TestMessage)
    : list TestMessage * option Status :=
  match fuel with
  | O => ([], None)
  | S fuel =>
      let '(write, cancelled) := rounds 0 in
      if negb write then ([request], Some OK)
      else if cancelled then ([request], Some CANCELLED)
      else let '(out, status) := endless_echo_stream fuel (λ n, rounds (S n)) request in
           (request :: out, status)
  end.

(** The stream goes on after the round [n]. *)
Definition goes_on (r : bool * bool) : bool := r.1 && negb r.2.

(** [endless_echo_stream] ends in the first round in which the write fails
    or the client has cancelled, and not before: it has then written the request
    once per round, and its status is [CANCELLED] exactly if that write still
    succeeded. *)
Theorem echo_stream_ends_when_cancelled rounds request n fuel :
  n < fuel → (∀ i, i < n → goes_on (rounds i) = true) → goes_on (rounds n) = false →
  endless_echo_stream fuel rounds request =
    (replicate (S n) request, Some (if (rounds n).1 then CANCELLED else OK)) ∧
  ∀ fuel', fuel' ≤ n → endless_echo_stream fuel' rounds request = (replicate fuel' request, None).
Proof.
  revert rounds fuel. induction n as [|n IH]; intros rounds [|fuel] Hf Hgo Hend; try lia.
  - split.
    + simpl. unfold goes_on in Hend. destruct (rounds 0) as [[] []]; done.
    + intros [|fuel'] ?; [done|lia].
  - assert (rounds 0 = (true, false)) as E0.
    { specialize (Hgo 0 ltac:(lia)). unfold goes_on in Hgo. by destruct (rounds 0) as [[] []]. }
    destruct (IH (λ n, rounds (S n)) fuel) as [IH1 IH2].
    + lia.
    + intros i Hi. apply Hgo. lia.
    + done.
    + split.
      * simpl. rewrite E0. simpl. by rewrite IH1.
      * intros [|fuel'] ?; [done|]. simpl. rewrite E0. simpl. rewrite IH2 by lia. done.
Qed.

End Service.

Lemma echo_stream_ends_when_cancelled_witness :
  endless_echo_stream 5 (λ n, (true, n =? 2)) "hi"%string
  = (["hi"; "hi"; "hi"]%string, Some CANCELLED).
Proof.
  apply (echo_stream_ends_when_cancelled (λ n, (true, n =? 2)) "hi"%string 2 5).
  - lia.
  - intros [|[|i]] ?; [done|done|lia].
  - done.
Defined.

End TestService.
