(* ===== verification/ServerTests.v ===== *)
(** * The tests of the server

    [src/src/testing/grpcw/server/grpc_server_tests.cpp] and the first two of
    [src/src/testing/test_server.cpp]: a server ([GrpcServer.v]) with its thread,
    the service of the tests, and a client that calls [echo] once, in every order
    of their steps. *)
From S2P Require Import Prelude Explore GrpcServer.

Module ServerTests.
Import GrpcServer.

Definition test_msg : string := "a1, 23kqv9 !F(VMas3982fj!#!#+(*@)(a assdaf;le 1342 asdw32nm".

(** The test: [stub->echo(&context, request, &response)] until it returns, the
    checks, then [server.shutdown()] (or the destructor of [TestServer]) and the
    join. A response is a message with the status of the call. *)
Inductive test_pc : Type :=
| AtEcho
| InEcho (* the call is on its way *)
| Served (response : string * TestService.Status) (* [echo] has returned on the server *)
| AtShutdown
| InShutdown
| AtJoin
| Done.

Record state : Type := mkTest {
  server : GrpcServer.state;
  main : test_pc;
  checked : list bool
}.

Inductive action : Type := Main | RunThread | Service.

Definition start (server_address : string) : state := mkTest (make server_address) AtEcho [].

(** [CHECK(status.ok()); CHECK(response.msg() == test_msg);] *)
Definition checks (response : string * TestService.Status) : list bool :=
  [match response.2 with TestService.OK => true | TestService.CANCELLED => false end;
   bool_decide (response.1 = test_msg)].

Definition step_server (a : GrpcServer.action) (m : test_pc) (c : list bool) (s : state) : option state :=
  sv ← GrpcServer.exec (server s) a; Some (mkTest sv m (checked s ++ c)).

Definition exec_main (s : state) : option state :=
  match main s with
  | AtEcho => step_server Arrive InEcho [] s
  | InEcho => None
  | Served response => Some (mkTest (server s) AtShutdown (checked s ++ checks response))
  | AtShutdown => step_server Destructor InShutdown [] s
  | InShutdown => step_server ShutdownReturns AtJoin [] s
  | AtJoin => step_server GrpcServer.Join Done [] s
  | Done => None
  end.

(** [server_->Wait()] is called, or returns. *)
Definition exec_run_thread (s : state) : option state :=
  match run_thread_ (server s) with
  | Starting => step_server Run (main s) [] s
  | _ => step_server WaitReturns (main s) [] s
  end.

(** [TestService::echo] *)
Definition exec_service (s : state) : option state :=
  match main s with
  | InEcho => step_server EndCall (Served (TestService.echo test_msg)) [] s
  | _ => None
  end.

Definition exec (s : state) (a : action) : option state :=
  match a with
  | Main => exec_main s
  | RunThread => exec_run_thread s
  | Service => exec_service s
  end.

Definition labels : list action := [Main; RunThread; Service].

#[global] Instance builder_eq_dec : EqDecision builder.
Proof. solve_decision. Defined.
#[global] Instance run_pc_eq_dec : EqDecision run_pc.
Proof. solve_decision. Defined.
#[global] Instance server_owner_eq_dec : EqDecision owner_pc.
Proof. solve_decision. Defined.
#[global] Instance server_eq_dec : EqDecision GrpcServer.state.
Proof. solve_decision. Defined.
#[global] Instance status_eq_dec : EqDecision TestService.Status.
Proof. solve_decision. Defined.
#[global] Instance test_pc_eq_dec : EqDecision test_pc.
Proof. solve_decision. Defined.
#[global] Instance state_eq_dec : EqDecision state.
Proof. solve_decision. Defined.

Definition weight (s : state) : nat :=
  match main s with
  | AtEcho => 6 | InEcho => 5 | Served _ => 4 | AtShutdown => 3 | InShutdown => 2 | AtJoin => 1 | Done => 0
  end +
  match run_thread_ (server s) with Starting => 2 | Waiting => 1 | Returned => 0 end.

Definition is_done (s : state) : bool := bool_decide (main s = Done).

(** No check fails; when the test is over its thread has returned. *)
Definition safe (s : state) : bool :=
  forallb id (checked s) &&
  (if is_done s then bool_decide (run_thread_ (server s) = Returned) && (length (checked s) =? 2) else true).

Definition strategy (s : state) : action :=
  default Main (find (λ a, bool_decide (is_Some (exec s a))) [Service; RunThread; Main]).

(** The servers of the tests: one that listens, and one in the same process. *)
Definition addresses : list string := ["0.0.0.0:50050"; ""].

Lemma server_tests_verified :
  forallb (λ a, verified exec labels (λ s s', bool_decide (s = s')) weight (λ _, 0) is_done strategy safe
    8 100 (start a)) addresses = true.
Proof. vm_compute. reflexivity. Qed.

(** The tests of the server pass: in every order of the test, the server's thread
    and the service, both checks hold, the run has at most eight steps, and it
    can be completed to one in which the thread has been joined. *)
Theorem server_tests_pass address ls s :
  address ∈ addresses → run exec (start address) ls = Some s →
  forallb id (checked s) = true ∧ length ls ≤ 8 ∧
  (main s = Done → run_thread_ (server s) = Returned ∧ length (checked s) = 2) ∧
  ∃ ls' s', run exec s ls' = Some s' ∧ main s' = Done ∧ length ls' ≤ 8.
Proof.
  intros Ha Hr. pose proof server_tests_verified as Hall. rewrite forallb_forall in Hall.
  apply list_elem_of_In, Hall in Ha.
  eapply verified_run in Ha as (Hs & Hl & ls' & s' & Hr' & Hf & Hn); [..|exact Hr].
  - unfold safe in Hs. apply andb_true_iff in Hs as [Hc Hd].
    assert (sum_list ((λ _, 0) <$> ls) = 0) as H0 by (clear; by induction ls).
    assert (weight (start address) = 8) as Hw by done.
    split_and!; [done|lia| |].
    + intros Hm. unfold is_done in Hd. rewrite bool_decide_true in Hd by done.
      apply andb_true_iff in Hd as [?%bool_decide_eq_true_1 ?%Nat.eqb_eq]. done.
    + exists ls', s'. split_and!; [done|by apply bool_decide_eq_true_1 in Hf|done].
  - intros s1 s2 H. by apply bool_decide_eq_true_1 in H.
  - intros s1 a s2 _. unfold labels. destruct a; set_solver.
Qed.

(** The thread may call [Wait] after the server was shut down. *)
Lemma server_tests_pass_witness :
  ∃ s, run exec (start "") [Main; Service; Main; Main; RunThread; Main; RunThread; Main] = Some s ∧
    run_thread_ (server s) = Returned.
Proof.
  assert (run exec (start "") [Main; Service; Main; Main; RunThread; Main; RunThread; Main]
    = Some (mkTest (GrpcServer.mkState (build "") 0 true Returned Destroyed) Done [true; true])) as Hr
    by (vm_compute; reflexivity).
  eexists. split; [exact Hr|].
  apply (server_tests_pass "" _ _ ltac:(right; left) Hr). reflexivity.
Defined.

End ServerTests.
