(* ===== verification/Bits.v ===== *)
(** * Bit patterns

    The parts of [src/ltb-util/] that compute on machine words: the comparison
    of floating-point numbers by their representation
    ([google/AlmostEquals.h], [ltb/util/comparison_utils.hpp]), the flags of
    [ltb/util/enum_bits.hpp] and [hash_combine] of [ltb/util/hash_utils.hpp]. A
    word of [w] bits is a number [0 <= x < 2^w]. *)
From S2P Require Import Prelude.
#[local] Open Scope Z_scope.

(** Results of unsigned arithmetic on [w] bits. *)
Definition wrap (w x : Z) : Z := x mod 2 ^ w.
Definition wnot (w x : Z) : Z := wrap w (Z.lnot x).

Lemma wrap_small w x : 0 <= x < 2 ^ w → wrap w x = x.
Proof. apply Z.mod_small. Qed.

Lemma wrap_range w x : 0 <= w → 0 <= wrap w x < 2 ^ w.
Proof. intros. apply Z.mod_pos_bound. lia. Qed.

(** Negation of a word, as [~x + 1]. *)
Lemma wnot_succ w x : 0 <= w → 0 < x < 2 ^ w → wrap w (wnot w x + 1) = 2 ^ w - x.
Proof.
  intros Hw Hx. unfold wnot. unfold wrap. rewrite Zplus_mod_idemp_l.
  replace (Z.lnot x + 1) with (- x) by (pose proof (Z.add_lnot_diag x); lia).
  rewrite Z.mod_opp_l_nz; rewrite ?Z.mod_small; lia.
Qed.

(** A single bit of a word. *)
Lemma land_pow2 n x : 0 <= n → Z.land (2 ^ n) x = if Z.testbit x n then 2 ^ n else 0.
Proof.
  intros Hn. apply Z.bits_inj'. intros i Hi. rewrite Z.land_spec, Z.pow2_bits_eqb by done.
  destruct (Z.eqb_spec n i) as [->|Hne].
  - destruct (Z.testbit x i) eqn:E; [by rewrite Z.pow2_bits_true|by rewrite Z.bits_0].
  - destruct (Z.testbit x n); [by rewrite Z.pow2_bits_false|by rewrite Z.bits_0].
Qed.

Lemma land_pow2_eqb n x : 0 <= n → (Z.land (2 ^ n) x =? 0) = negb (Z.testbit x n).
Proof.
  intros Hn. rewrite land_pow2 by done. destruct (Z.testbit x n); [|done].
  apply Z.eqb_neq. pose proof (Z.pow_pos_nonneg 2 n). lia.
Qed.

(** The top bit of a word of [n + 1] bits. *)
Lemma testbit_top n x :
  0 <= n → 0 <= x < 2 ^ (n + 1) → Z.testbit x n = (2 ^ n <=? x).
Proof.
  intros Hn Hx. rewrite Z.pow_add_r in Hx by lia.
  assert (x / 2 ^ n = if 2 ^ n <=? x then 1 else 0) as E.
  { destruct (Z.leb_spec (2 ^ n) x).
    - symmetry. apply (Z.div_unique _ _ 1 (x - 2 ^ n)); lia.
    - apply Z.div_small. lia. }
  apply eq_true_iff_eq. rewrite Z.testbit_true by done. rewrite E. by destruct (2 ^ n <=? x).
Qed.

(** Setting a bit that is above a number. *)
Lemma lor_top n x : 0 <= n → 0 <= x < 2 ^ n → Z.lor (2 ^ n) x = 2 ^ n + x.
Proof.
  intros Hn Hx. assert (Z.land (2 ^ n) x = 0) as E.
  { rewrite land_pow2 by done. destruct (Z.testbit x n) eqn:T; [|done].
    assert (n < 0 ∨ 0 <= n) as [|] by lia; [lia|].
    rewrite testbit_top in T; [|done|rewrite Z.pow_add_r; lia]. apply Z.leb_le in T. lia. }
  by rewrite Z.add_nocarry_lxor, Z.lxor_lor.
Qed.

(** ** Floating-point numbers *)
Module FloatingPoint.

(** The instances of the template: its parameters in terms of [sizeof] and
    [std::numeric_limits]. *)
Inductive RawType : Type := float | double.

Definition sizeof (t : RawType) : Z := match t with float => 4 | double => 8 end.
Definition digits (t : RawType) : Z := match t with float => 24 | double => 53 end.

Definition kBitCount t := 8 * sizeof t.
Definition kFractionBitCount t := digits t - 1.
Definition kExponentBitCount t := kBitCount t - 1 - kFractionBitCount t.
Definition kSignBitMask t := wrap (kBitCount t) (Z.shiftl 1 (kBitCount t - 1)).
Definition kFractionBitMask t := Z.shiftr (wnot (kBitCount t) 0) (kExponentBitCount t + 1).
Definition kExponentBitMask t :=
  wnot (kBitCount t) (Z.lor (kSignBitMask t) (kFractionBitMask t)).
Definition kMaxUlps : Z := 4.

Definition Infinity t := kExponentBitMask t.
(** [FLT_MAX] and [DBL_MAX] *)
Definition Max t := match t with float => 0x7f7fffff | double => 0x7fefffffffffffff end.

Definition exponent_bits t (bits : Z) := Z.land (kExponentBitMask t) bits.
Definition fraction_bits t (bits : Z) := Z.land (kFractionBitMask t) bits.
Definition sign_bit t (bits : Z) := Z.land (kSignBitMask t) bits.

Definition is_nan t (bits : Z) : bool :=
  (exponent_bits t bits =? kExponentBitMask t) && negb (fraction_bits t bits =? 0).

Definition SignAndMagnitudeToBiased t (sam : Z) : Z :=
  if negb (Z.land (kSignBitMask t) sam =? 0) then wrap (kBitCount t) (wnot (kBitCount t) sam + 1)
  else Z.lor (kSignBitMask t) sam.

Definition DistanceBetweenSignAndMagnitudeNumbers t (sam1 sam2 : Z) : Z :=
  let biased1 := SignAndMagnitudeToBiased t sam1 in
  let biased2 := SignAndMagnitudeToBiased t sam2 in
  if biased1 >=? biased2 then wrap (kBitCount t) (biased1 - biased2)
  else wrap (kBitCount t) (biased2 - biased1).

(** The method and the function [AlmostEquals], and [almost_equal]. *)
Definition AlmostEquals t (lhs rhs : Z) : bool :=
  if is_nan t lhs || is_nan t rhs then false
  else DistanceBetweenSignAndMagnitudeNumbers t lhs rhs <=? kMaxUlps.

(** ** What the bits mean *)

(** The position of a number among all numbers of its type, both zeros at 0:
    neighbouring numbers have neighbouring positions. *)
Definition ordinal t (bits : Z) : Z :=
  if bits <? 2 ^ (kBitCount t - 1) then bits else 2 ^ (kBitCount t - 1) - bits.

(** The exponent and the fraction as numbers. *)
Definition exponent t (bits : Z) : Z :=
  (bits / 2 ^ kFractionBitCount t) mod 2 ^ kExponentBitCount t.
Definition fraction t (bits : Z) : Z := bits mod 2 ^ kFractionBitCount t.

Definition word t (bits : Z) : Prop := 0 <= bits < 2 ^ kBitCount t.

Lemma masks t :
  kSignBitMask t = 2 ^ (kBitCount t - 1) ∧
  kFractionBitMask t = Z.ones (kFractionBitCount t) ∧
  kExponentBitMask t = Z.shiftl (Z.ones (kExponentBitCount t)) (kFractionBitCount t) ∧
  0 < kFractionBitCount t ∧ 0 < kExponentBitCount t ∧
  kBitCount t = kBitCount t - 1 + 1 ∧ 0 < kBitCount t - 1.
Proof. by destruct t. Qed.

Lemma biased_spec t bits :
  word t bits → SignAndMagnitudeToBiased t bits = ordinal t bits + 2 ^ (kBitCount t - 1).
Proof.
  unfold word, SignAndMagnitudeToBiased, ordinal. intros Hb.
  destruct (masks t) as (-> & _ & _ & _ & _ & E & Hn). set (n := kBitCount t - 1) in *.
  rewrite land_pow2_eqb, negb_involutive by lia. rewrite E in *.
  rewrite testbit_top by (unfold n in *; lia).
  destruct (Z.leb_spec (2 ^ n) bits); destruct (Z.ltb_spec bits (2 ^ n)); try lia.
  - rewrite wnot_succ; [|lia|]; rewrite ?Z.pow_add_r in *; lia.
  - rewrite lor_top; lia.
Qed.

Lemma ordinal_range t bits :
  word t bits → - 2 ^ (kBitCount t - 1) < ordinal t bits < 2 ^ (kBitCount t - 1).
Proof.
  unfold word, ordinal. destruct (masks t) as (_ & _ & _ & _ & _ & E & Hn). rewrite E at 1.
  rewrite Z.pow_add_r by lia. destruct (Z.ltb_spec bits (2 ^ (kBitCount t - 1))); lia.
Qed.

Lemma distance_spec t a b :
  word t a → word t b →
  DistanceBetweenSignAndMagnitudeNumbers t a b = Z.abs (ordinal t a - ordinal t b).
Proof.
  intros Ha Hb. unfold DistanceBetweenSignAndMagnitudeNumbers.
  rewrite !biased_spec by done.
  pose proof (ordinal_range t a Ha). pose proof (ordinal_range t b Hb).
  destruct (masks t) as (_ & _ & _ & _ & _ & E & Hn).
  assert (2 ^ kBitCount t = 2 * 2 ^ (kBitCount t - 1)) as E2.
  { rewrite E at 1. rewrite Z.pow_add_r by lia. lia. }
  rewrite Z.geb_leb. destruct (Z.leb_spec (ordinal t b + 2 ^ (kBitCount t - 1))
    (ordinal t a + 2 ^ (kBitCount t - 1))); rewrite wrap_small; lia.
Qed.

Lemma is_nan_spec t bits :
  is_nan t bits = true ↔ exponent t bits = 2 ^ kExponentBitCount t - 1 ∧ fraction t bits ≠ 0.
Proof.
  destruct (masks t) as (_ & Ef & Ee & Hf & He & _ & _).
  unfold is_nan, exponent_bits, fraction_bits, exponent, fraction. rewrite Ef, Ee.
  rewrite andb_true_iff, negb_true_iff, Z.eqb_eq, Z.eqb_neq.
  rewrite (Z.land_comm (Z.ones (kFractionBitCount t))), Z.land_ones by lia.
  assert (Z.land (Z.shiftl (Z.ones (kExponentBitCount t)) (kFractionBitCount t)) bits =
    Z.shiftl (Z.land (Z.shiftr bits (kFractionBitCount t)) (Z.ones (kExponentBitCount t)))
      (kFractionBitCount t)) as ->.
  { apply Z.bits_inj'. intros i Hi. rewrite Z.land_spec, !Z.shiftl_spec, Z.land_spec by done.
    destruct (Z.le_gt_cases (kFractionBitCount t) i).
    - rewrite Z.shiftr_spec by lia. rewrite Z.sub_add. by rewrite andb_comm.
    - by rewrite !(Z.testbit_neg_r _ (i - _)) by lia. }
  rewrite Z.land_ones, Z.shiftr_div_pow2, !Z.shiftl_mul_pow2, Z.ones_equiv by lia.
  pose proof (Z.pow_pos_nonneg 2 (kFractionBitCount t)).
  split; intros [H1 H2]; (split; [|done]); nia.
Qed.

(** C37: [AlmostEquals] holds exactly for numbers that are not NaN and at most
    four places apart in the order of all numbers of the type, the two zeros
    counting as one and infinity following the largest finite number; NaN is
    recognised by its exponent and its fraction, and the unsigned arithmetic
    never overflows. *)
Theorem almost_equals_spec t a b :
  word t a → word t b →
  (AlmostEquals t a b = true ↔
   ¬ (exponent t a = 2 ^ kExponentBitCount t - 1 ∧ fraction t a ≠ 0) ∧
   ¬ (exponent t b = 2 ^ kExponentBitCount t - 1 ∧ fraction t b ≠ 0) ∧
   Z.abs (ordinal t a - ordinal t b) <= 4).
Proof.
  intros Ha Hb. unfold AlmostEquals. rewrite distance_spec by done.
  pose proof (is_nan_spec t a) as Na. pose proof (is_nan_spec t b) as Nb.
  destruct (is_nan t a), (is_nan t b); simpl; rewrite ?Z.leb_le; unfold kMaxUlps; naive_solver.
Qed.

(** [FLT_MAX] and infinity, and a NaN and itself. *)
Lemma almost_equals_spec_witness :
  AlmostEquals float (Max float) (Infinity float) = true ∧
  AlmostEquals float (Infinity float + 1) (Infinity float + 1) = false.
Proof.
  split.
  - apply (almost_equals_spec float); [vm_compute; done..|]. vm_compute.
    split_and!; [by intros [? ?]|intros [_ H]; by apply H|done].
  - vm_compute. done.
Defined.

End FloatingPoint.

(** ** Flags *)
Module EnumBits.
Section Flags.
(** The width of the underlying type, which is unsigned. *)
Context (w : Z).

(** [BitType(1) << static_cast<BitType>(type)], for an enumerator below the
    width; the enumerator is given by its value. *)
Definition to_bit (type : Z) : Z := wrap w (Z.shiftl 1 type).

(** The variadic [to_bits]. *)
Fixpoint to_bits (type : Z) (types : list Z) : Z :=
  match types with
  | [] => to_bit type
  | type' :: types => Z.lor (to_bit type) (to_bits type' types)
  end.

Definition toggle_flag (flags flag : Z) : Z := Z.lxor flags (to_bit flag).
Definition has_flag (flags flag : Z) : bool := negb (Z.land flags (to_bit flag) =? 0).
Definition all_bits : Z := wnot w 0.

Lemma to_bit_pow2 e : 0 <= e < w → to_bit e = 2 ^ e.
Proof.
  intros He. unfold to_bit. rewrite Z.shiftl_1_l. apply wrap_small.
  split; [apply Z.pow_nonneg; lia|apply Z.pow_lt_mono_r; lia].
Qed.

Lemma has_flag_testbit flags e : 0 <= e < w → has_flag flags e = Z.testbit flags e.
Proof.
  intros He. unfold has_flag.
  by rewrite to_bit_pow2, Z.land_comm, land_pow2_eqb, negb_involutive by lia.
Qed.

Lemma to_bits_testbit e es i :
  Forall (λ e, 0 <= e < w) (e :: es) →
  Z.testbit (to_bits e es) i = bool_decide (i ∈ e :: es).
Proof.
  revert e. induction es as [|e' es IH]; intros e Hall; simpl; inversion_clear Hall as [|? ? He Hes].
  - rewrite to_bit_pow2 by done. rewrite Z.pow2_bits_eqb by lia.
    apply eq_true_iff_eq. rewrite Z.eqb_eq, bool_decide_eq_true, list_elem_of_singleton. naive_solver.
  - rewrite Z.lor_spec, IH, to_bit_pow2 by done. rewrite Z.pow2_bits_eqb by lia.
    apply eq_true_iff_eq.
    rewrite orb_true_iff, Z.eqb_eq, !bool_decide_eq_true, (elem_of_cons (e' :: es)). naive_solver.
Qed.

(** Flags behave like a set of enumerators. [to_bits] contains exactly the
    enumerators it is given, [all_bits] contains every enumerator, [toggle_flag]
    changes the membership of its flag and of no other one, and toggling twice
    restores the flags. *)
Theorem flags_are_sets e es e1 e2 flags :
  Forall (λ e, 0 <= e < w) (e :: es) → 0 <= e1 < w → 0 <= e2 < w →
  has_flag (to_bits e es) e1 = bool_decide (e1 ∈ e :: es) ∧
  has_flag all_bits e1 = true ∧
  has_flag (toggle_flag flags e1) e2 = xorb (has_flag flags e2) (bool_decide (e1 = e2)) ∧
  toggle_flag (toggle_flag flags e1) e1 = flags.
Proof.
  intros Hes He1 He2. rewrite !has_flag_testbit by done. unfold toggle_flag, all_bits.
  split_and!.
  - by apply to_bits_testbit.
  - unfold wnot, wrap. rewrite Z.mod_pow2_bits_low by lia. rewrite Z.lnot_spec by lia.
    by rewrite Z.bits_0.
  - rewrite Z.lxor_spec, to_bit_pow2 by done. rewrite Z.pow2_bits_eqb by lia. f_equal.
    apply eq_true_iff_eq. by rewrite Z.eqb_eq, bool_decide_eq_true.
  - by rewrite Z.lxor_assoc, Z.lxor_nilpotent, Z.lxor_0_r.
Qed.

End Flags.

(** The examples of the documentation of [to_bits]. *)
Lemma flags_are_sets_witness :
  has_flag 32 (to_bits 32 0 [2]) 2 = true ∧ to_bits 32 0 [2] = 5.
Proof.
  split; [|vm_compute; done].
  apply (flags_are_sets 32 0 [2] 2 1 0); [repeat constructor; lia|lia..].
Defined.

End EnumBits.

(** ** Hashes *)
Module Hash.

(** [hash_combine]: [hash] is [std::hash] of the type, on 64 bits. *)
Definition hash_combine {T} (hash : T → Z) (seed : Z) (v : T) : Z :=
  Z.lxor seed (wrap 64 (hash v + 0x9e3779b9 + wrap 64 (Z.shiftl seed 6) + Z.shiftr seed 2)).

(** For a fixed seed [hash_combine] only identifies values that [std::hash]
    already identifies, so combining never makes more collisions. *)
Theorem hash_combine_injective {T} (hash : T → Z) seed v1 v2 :
  (∀ v, 0 <= hash v < 2 ^ 64) →
  hash_combine hash seed v1 = hash_combine hash seed v2 ↔ hash v1 = hash v2.
Proof.
  intros Hh. unfold hash_combine. split; [|by intros ->]. intros E.
  assert (∀ a b, Z.lxor seed a = Z.lxor seed b → a = b) as Hx.
  { intros a b Hab. rewrite <-(Z.lxor_0_l a), <-(Z.lxor_0_l b), <-(Z.lxor_nilpotent seed).
    by rewrite !Z.lxor_assoc, Hab. }
  apply Hx in E. unfold wrap in E. set (c := Z.shiftl seed 6 mod 2 ^ 64) in E.
  pose proof (Hh v1). pose proof (Hh v2).
  pose proof (Z.div_mod (hash v1 + 0x9e3779b9 + c + Z.shiftr seed 2) (2 ^ 64)).
  pose proof (Z.div_mod (hash v2 + 0x9e3779b9 + c + Z.shiftr seed 2) (2 ^ 64)). nia.
Qed.

Lemma hash_combine_injective_witness :
  hash_combine (λ b : bool, if b then 1 else 0) 7 true
  ≠ hash_combine (λ b : bool, if b then 1 else 0) 7 false.
Proof.
  intros E. apply (hash_combine_injective (λ b : bool, if b then 1 else 0)) in E; [done|].
  intros []; lia.
Defined.

End Hash.
