(* ===== verification/Comparison.v ===== *)
(** * The comparison of floating-point numbers without bit patterns

    [src/ltb-util/src/ltb/util/comparison_utils.hpp] defines [almost_equal]
    twice: as [AlmostEquals], which [Bits.v] models, and by arithmetic for
    device code. Here is the second one, on the numbers of the Standard
    Library's [SpecFloat]: IEEE 754 with round to nearest, without the payload
    of NaNs. [prec] and [emax] give the format, 24 and 128 for [float], 53 and
    1024 for [double]. *)
From S2P Require Import Prelude Bits.
From Stdlib Require Import SpecFloat.

Module Comparison.
Section Format.
Context (prec emax : Z).

(** [T scale = 1.0] and [T epsilon = 10 * std::numeric_limits<T>::epsilon()] *)
Definition default_scale : spec_float := SFone prec emax.
Definition default_epsilon : spec_float :=
  SFmul prec emax (binary_normalize prec emax 10 0 false) (binary_normalize prec emax 1 (1 - prec) false).

Definition almost_equal (a b scale epsilon : spec_float) : bool :=
  let exactly_equal := SFeqb a b in
  exactly_equal ||
  SFltb (SFabs (SFsub prec emax a b))
    (SFmul prec emax epsilon (SFadd prec emax (SFadd prec emax scale (SFabs a)) (SFabs b))).

(** The number that a bit pattern stands for. *)
Definition number (t : FloatingPoint.RawType) (bits : Z) : spec_float :=
  let sign := bool_decide (FloatingPoint.sign_bit t bits ≠ 0)%Z in
  let e := FloatingPoint.exponent t bits in
  let f := FloatingPoint.fraction t bits in
  if (FloatingPoint.exponent_bits t bits =? FloatingPoint.kExponentBitMask t)%Z then
    if (f =? 0)%Z then S754_infinity sign else S754_nan
  else
    let m := if (e =? 0)%Z then f else (f + 2 ^ FloatingPoint.kFractionBitCount t)%Z in
    match m with
    | Zpos m => S754_finite sign m (Z.max 1 e + (3 - emax - prec) - 1)
    | _ => S754_zero sign
    end.

Lemma SFeqb_refl a : a ≠ S754_nan → SFeqb a a = true.
Proof.
  intros Ha. unfold SFeqb, SFcompare. destruct a as [s|[]| |[] m e]; try done.
  - by rewrite Z.compare_refl, Pos.compare_cont_refl.
  - by rewrite Z.compare_refl, Pos.compare_cont_refl.
Qed.

(** Nothing is less than a NaN, and an infinity is less than nothing. *)
Lemma infinity_not_less x : SFltb (S754_infinity false) x = false.
Proof. by destruct x as [|[]| |[]]. Qed.

Lemma difference_of_infinity a b :
  (∃ s, a = S754_infinity s) ∨ (∃ s, b = S754_infinity s) →
  SFabs (SFsub prec emax a b) = S754_infinity false ∨ SFabs (SFsub prec emax a b) = S754_nan.
Proof.
  intros [[s ->]|[s ->]]; [destruct b as [|s'| |]|destruct a as [|s'| |]]; simpl; auto;
    destruct s, s'; simpl; auto.
Qed.

(** An infinity is equal to a number only if it is the same infinity. *)
Lemma almost_equal_infinity a b scale epsilon :
  (∃ s, a = S754_infinity s) ∨ (∃ s, b = S754_infinity s) →
  almost_equal a b scale epsilon = true ↔ a = b.
Proof.
  intros Hi. unfold almost_equal.
  assert (∀ x, SFltb (SFabs (SFsub prec emax a b)) x = false) as ->.
  { intros x. destruct (difference_of_infinity a b Hi) as [-> | ->]; [apply infinity_not_less|done]. }
  rewrite orb_false_r. split.
  - destruct Hi as [[s ->]|[s ->]].
    + destruct s, b as [|[]| |]; done.
    + destruct s, a as [|[]| |]; done.
  - intros ->. apply SFeqb_refl. destruct Hi as [[s ->]|[s ->]]; done.
Qed.

(** The special values, for every format, scale and epsilon: a NaN is
    almost equal to nothing, every other value to itself, an infinity to
    nothing else, and the zeros of both signs to each other. *)
Theorem almost_equal_special_values a b scale epsilon :
  almost_equal S754_nan b scale epsilon = false ∧
  almost_equal a S754_nan scale epsilon = false ∧
  (a ≠ S754_nan → almost_equal a a scale epsilon = true) ∧
  (∀ s, almost_equal (S754_infinity s) b scale epsilon = true ↔ b = S754_infinity s) ∧
  (∀ s, almost_equal a (S754_infinity s) scale epsilon = true ↔ a = S754_infinity s) ∧
  (∀ s s', almost_equal (S754_zero s) (S754_zero s') scale epsilon = true).
Proof.
  split_and!.
  - done.
  - unfold almost_equal. by destruct a.
  - intros Ha. unfold almost_equal. by rewrite SFeqb_refl.
  - intros s. rewrite almost_equal_infinity by eauto. by split.
  - intros s. by rewrite almost_equal_infinity by eauto.
  - done.
Qed.

End Format.

(** ** Where it departs from an equality of nearby numbers *)

(** [almost_equal(a, b)] for two [double]s. *)
Definition almost_equal_double (a b : Z) : bool :=
  almost_equal 53 1024 (number 53 1024 FloatingPoint.double a) (number 53 1024 FloatingPoint.double b)
    (default_scale 53 1024) (default_epsilon 53 1024).

(** The comparison for device code is not the one for the host. It is not
    symmetric: the sum of the magnitudes is rounded in the order of the
    arguments, so of two numbers near 0.156 the first is almost equal to the
    second but not the second to the first. It equates numbers of the same sign
    whose magnitudes overflow when they are added, such as the largest number
    and the half of it. And it equates one with a neighbour eight units away,
    where [AlmostEquals] allows four. *)
Theorem comparisons_disagree :
  (almost_equal_double 0x3fc3ffffffffffcc 0x3fc4000000000035 ≠
   almost_equal_double 0x3fc4000000000035 0x3fc3ffffffffffcc) ∧
  almost_equal_double (FloatingPoint.Max FloatingPoint.double) 0x7fe0000000000000 = true ∧
  (almost_equal_double 0x3ff0000000000000 0x3ff0000000000008 = true ∧
   FloatingPoint.AlmostEquals FloatingPoint.double 0x3ff0000000000000 0x3ff0000000000008 = false).
Proof. split_and!; vm_compute; done. Qed.

End Comparison.
