(* ===== verification/ErrorResult.v ===== *)
(** * Errors and results

    The error handling of [src/ltb-util/src/ltb/util/]: [error.hpp] and
    [error.cpp], [result.hpp], [string.cpp], [file_utils.cpp], and the checks of
    [src/ltb-util/src/ltb/cuda/]. *)
From S2P Require Import Prelude.
From stdpp Require Import pretty.
#[local] Open Scope string_scope.
#[local] Arguments String.append !s1 s2 /.

(** ** Strings *)
Module Text.

(** [starts_with]: [compare(0, n, prefix) == 0] compares the first [n]
    characters, or all of them if there are fewer. *)
Definition starts_with (str prefix : string) : bool :=
  bool_decide (String.substring 0 (String.length prefix) str = prefix).

(** [str.substr(pos)] for [pos <= str.size()] *)
Definition substr (pos : nat) (str : string) : string :=
  String.substring pos (String.length str - pos) str.

Lemma prefix_app p r : String.prefix p (p +:+ r) = true.
Proof. induction p as [|c p IH]; simpl; [by destruct r|]. by destruct (Ascii.ascii_dec c c). Qed.

Lemma substring_all r : String.substring 0 (String.length r) r = r.
Proof. induction r as [|c r IH]; [done|]. simpl. by rewrite IH. Qed.

Lemma substr_app p r : substr (String.length p) (p +:+ r) = r.
Proof.
  unfold substr. induction p as [|c p IH]; simpl; [|done].
  rewrite Nat.sub_0_r. apply substring_all.
Qed.

Lemma prefix_inv p s : String.prefix p s = true → s = p +:+ substr (String.length p) s.
Proof.
  unfold substr. revert s. induction p as [|c p IH]; intros s; simpl.
  - intros _. by rewrite Nat.sub_0_r, substring_all.
  - destruct s as [|c' s]; [done|]. simpl. destruct (Ascii.ascii_dec c c') as [->|]; [|done].
    intros H. by rewrite (IH s H) at 1.
Qed.

Lemma starts_with_prefix s p : starts_with s p = String.prefix p s.
Proof.
  apply eq_true_iff_eq. unfold starts_with. rewrite bool_decide_eq_true.
  symmetry. apply String.prefix_correct.
Qed.

Lemma index_prefix p s : String.index 0 p s = Some 0%nat ↔ String.prefix p s = true.
Proof.
  destruct s as [|c s]; [by destruct p|]. cbn [String.index].
  destruct (String.prefix p (String c s)) eqn:E; [by split|].
  destruct (String.index 0 p s); naive_solver.
Qed.

End Text.

(** ** Errors *)
Module Error.
Import Text.

Record SourceLocation : Type := mkSourceLocation { filename : string; line_number : Z }.

Inductive Severity : Type := SeverityError | SeverityWarning.

Section Paths.
(** [paths::project_root()], generated by the build. *)
Context (project_root : string).

(** [get_relative_path_string] *)
Definition get_relative_path_string (path : string) : string :=
  match String.index 0 project_root path with
  | Some O => substr (String.length project_root) path
  | _ => path
  end.

(** [create_debug_message] *)
Definition create_debug_message (source_location : SourceLocation) (error_message : string) : string :=
  let result := "[" in
  let result :=
    if bool_decide (filename source_location = "") then result
    else result +:+ get_relative_path_string (filename source_location) in
  let result :=
    if bool_decide (0 <= line_number source_location)%Z
    then result +:+ (":" +:+ pretty (line_number source_location)) else result in
  result +:+ ("] " +:+ error_message).

Record Error : Type := mkError {
  source_location_ : SourceLocation;
  severity_ : Severity;
  error_message_ : string;
  debug_message_ : string
}.

(** The constructor. *)
Definition make_error (source_location : SourceLocation) (severity : Severity)
    (error_message : string) : Error :=
  mkError source_location severity error_message
    (create_debug_message source_location error_message).

Definition append_message (error : Error) (message : string) : Error :=
  make_error (source_location_ error) (severity_ error)
    (error_message_ error +:+ " " +:+ message).

(** [operator==] *)
Definition error_eqb (error other : Error) : bool :=
  bool_decide (debug_message_ error = debug_message_ other).

(** The values a program can build. *)
Inductive built : Error → Prop :=
| built_make l s m : built (make_error l s m)
| built_append e m : built e → built (append_message e m).

Lemma append_assoc a b c : a +:+ (b +:+ c) = (a +:+ b) +:+ c.
Proof. induction a as [|x a IH]; [done|]. simpl. by f_equal. Qed.

Lemma append_nil_r a : a +:+ "" = a.
Proof. induction a as [|x a IH]; [done|]. simpl. by f_equal. Qed.

Lemma built_debug e :
  built e → debug_message_ e = create_debug_message (source_location_ e) (error_message_ e).
Proof. by destruct 1. Qed.

Lemma create_debug_message_app l m r :
  create_debug_message l (m +:+ r) = create_debug_message l m +:+ r.
Proof. unfold create_debug_message. by rewrite <-!append_assoc. Qed.

(** An error keeps its origin while messages are appended to it: location
    and severity stay, the messages are separated by spaces, and the debug
    message is always the location in front of the whole message, with the path
    relative to the project if the file is inside it and unchanged otherwise. *)
Theorem append_message_spec e ms :
  built e →
  let e' := foldl append_message e ms in
  let suffix := foldr (λ m r, " " +:+ m +:+ r) "" ms in
  source_location_ e' = source_location_ e ∧ severity_ e' = severity_ e ∧
  error_message_ e' = error_message_ e +:+ suffix ∧
  debug_message_ e' = debug_message_ e +:+ suffix ∧
  (∀ path, get_relative_path_string (project_root +:+ path) = path) ∧
  (∀ path, starts_with path project_root = false → get_relative_path_string path = path).
Proof.
  intros He. cbv zeta. split_and!; revert e He.
  - induction ms as [|m ms IH]; intros e He; simpl; [done|]. rewrite IH; [done|by constructor].
  - induction ms as [|m ms IH]; intros e He; simpl; [done|]. rewrite IH; [done|by constructor].
  - induction ms as [|m ms IH]; intros e He; simpl.
    + by rewrite append_nil_r.
    + rewrite IH by by constructor. simpl. by rewrite <-!append_assoc.
  - induction ms as [|m ms IH]; intros e He; cbn [foldl foldr].
    + by rewrite append_nil_r.
    + rewrite IH by by constructor. unfold append_message, make_error. cbn [debug_message_].
      rewrite create_debug_message_app, (built_debug e He).
      by rewrite <-!append_assoc.
  - intros _ _ path. unfold get_relative_path_string.
    rewrite (proj2 (index_prefix _ _) (prefix_app _ _)). apply substr_app.
  - intros _ _ path Hp. unfold get_relative_path_string. rewrite starts_with_prefix in Hp.
    destruct (String.index 0 project_root path) as [[|n]|] eqn:E; [|done..].
    apply index_prefix in E. congruence.
Qed.

(** Equality ignores the severity: a warning equals the error with the same
    location and message. *)
Theorem severity_is_not_compared l m :
  error_eqb (make_error l SeverityError m) (make_error l SeverityWarning m) = true.
Proof. unfold error_eqb. by apply bool_decide_true. Qed.

End Paths.

Lemma append_message_spec_witness :
  debug_message_ (append_message "/root/" (make_error "/root/"
    (mkSourceLocation "/root/src/a.cpp" 12) SeverityWarning "bad") "thing")
  = "[src/a.cpp:12] bad thing".
Proof.
  apply (append_message_spec "/root/" (make_error "/root/"
    (mkSourceLocation "/root/src/a.cpp" 12) SeverityWarning "bad") ["thing"]).
  constructor.
Defined.

End Error.

(** ** Results *)
Module Result.
#[local] Open Scope list_scope.

(** [Result<T, E>] is a [tl::expected]. *)
Inductive Result (T E : Type) : Type :=
| Value (value : T)
| Unexpected (error : E).
Arguments Value {T E} value.
Arguments Unexpected {T E} error.

(** The four overloads of [and_then], through [and_then_impl]. *)
Definition and_then {T U E} (exp : Result T E) (f : T → Result U E) : Result U E :=
  match exp with Value value => f value | Unexpected error => Unexpected error end.

(** [success] *)
Definition success {E} : Result () E := Value ().

(** [value_or_throw] and [value_or_throw_impl] *)
Definition value_or_throw {T} (result : Result T Error.Error) : outcome T :=
  match result with
  | Value value => Ret value
  | Unexpected error => Fault (runtime_error (Error.error_message_ error))
  end.

(** [operator==] of results whose values and errors can be compared. *)
Definition result_eqb {T1 T2 E1 E2} (value_eqb : T1 → T2 → bool) (err_eqb : E1 → E2 → bool)
    (lhs : Result T1 E1) (rhs : Result T2 E2) : bool :=
  match lhs, rhs with
  | Value v1, Value v2 => value_eqb v1 v2
  | Unexpected e1, Unexpected e2 => err_eqb e1 e2
  | _, _ => false
  end.

(** [result.and_then(f1).and_then(f2)...] *)
Definition chain {T E} (fs : list (T → Result T E)) (r : Result T E) : Result T E :=
  foldl and_then r fs.

Lemma chain_unexpected {T E} (fs : list (T → Result T E)) e : chain fs (Unexpected e) = Unexpected e.
Proof. unfold chain. induction fs as [|f fs IH]; [done|]. simpl. apply IH. Qed.

Lemma chain_app {T E} (fs gs : list (T → Result T E)) r : chain (fs ++ gs) r = chain gs (chain fs r).
Proof. apply foldl_app. Qed.

(** A chain of [and_then] stops at the first function that fails: it ends
    with an error exactly if some function of the chain returns this error for
    the value computed by those before it, whatever the functions after it are;
    and it may be regrouped into one function that is itself a chain. *)
Theorem chain_stops_at_first_error {T E} (fs : list (T → Result T E)) (v : T) e :
  (chain fs (Value v) = Unexpected e ↔
   ∃ fs1 f fs2 x, fs = fs1 ++ f :: fs2 ∧ chain fs1 (Value v) = Value x ∧ f x = Unexpected e) ∧
  (∀ fs1 fs2, fs = fs1 ++ fs2 →
   chain fs (Value v) = and_then (chain fs1 (Value v)) (λ x, chain fs2 (Value x))).
Proof.
  split.
  - split.
    + induction fs as [|f fs IH] using rev_ind; [done|]. rewrite chain_app. simpl.
      destruct (chain fs (Value v)) as [x|e'] eqn:E1; simpl.
      * intros Hf. by exists fs, f, [], x.
      * intros [= ->]. destruct IH as (fs1 & f1 & fs2 & x & -> & ? & ?); [done|].
        exists fs1, f1, (fs2 ++ [f]), x. by rewrite <-app_assoc.
    + intros (fs1 & f & fs2 & x & -> & E1 & Hf). rewrite chain_app, E1. simpl.
      rewrite Hf. apply chain_unexpected.
  - intros fs1 fs2 ->. rewrite chain_app.
    destruct (chain fs1 (Value v)); [done|]. apply chain_unexpected.
Qed.

End Result.

(** ** Files *)
Module FileUtils.
Import Result Error.

(** An [std::ifstream]: whether it could be opened, what [tellg] returns at the
    end of the file, and the bytes that [read] finds. *)
Record ifstream : Type := mkStream { is_open : bool; tellg : Z; contents : string }.

(** [std::string(n, ' ')] *)
Fixpoint spaces (n : nat) : string :=
  match n with O => "" | S n => " " +:+ spaces n end.

(** [read(&buffer[0], size)] overwrites as many characters as there are. *)
Fixpoint read (buffer available : string) : string :=
  match buffer, available with
  | String _ buffer, String c available => String c (read buffer available)
  | _, _ => buffer
  end.

(** [read_file_to_string] *)
Definition read_file_to_string (project_root this_file filename : string) (input_stream : ifstream)
    : Result string Error :=
  if negb (is_open input_stream) then
    Unexpected (make_error project_root (mkSourceLocation this_file 34) SeverityError
                  ("Failed to open: '" +:+ filename +:+ "'"))
  else if (tellg input_stream =? -1)%Z then Value ""
  else Value (read (spaces (Z.to_nat (tellg input_stream))) (contents input_stream)).

Lemma read_all s : read (spaces (String.length s)) s = s.
Proof. induction s as [|c s IH]; simpl; [done|]. by rewrite IH. Qed.

Lemma read_length b s : String.length (read b s) = String.length b.
Proof. revert s. induction b as [|c b IH]; intros [|c' s]; simpl; auto. Qed.

Lemma spaces_length n : String.length (spaces n) = n.
Proof. induction n as [|n IH]; simpl; auto. Qed.



End FileUtils.

(** ** Checks of library calls *)
Module Checked.

Section Check.
(** CUDA or OPTIX: its name, the value that means success, and its function
    that describes an error. *)
Context (library : string) (success : Z) (getErrorString : Z → string).

Definition newline : string := String (Ascii.ascii_of_nat 10) "".
Definition tab : string := String (Ascii.ascii_of_nat 9) "".
Definition quote : string := String (Ascii.ascii_of_nat 34) "".

(** [error_string]; [static_cast<unsigned int>] wraps around. *)
Definition error_string (result : Z) (func file : string) (line : Z) : string :=
  if bool_decide (result ≠ success) then
    library +:+ " error at " +:+ file +:+ ":" +:+ pretty line +:+ newline +:+
    tab +:+ "code=" +:+ pretty (result mod 2 ^ 32)%Z +:+ "(" +:+ getErrorString result +:+ ")" +:+
    newline +:+ tab +:+ quote +:+ func +:+ quote
  else "".

Definition check (result : Z) (func file : string) (line : Z) : outcome () :=
  let error_message := error_string result func file line in
  if bool_decide (error_message = "") then Ret () else Fault (runtime_error error_message).

(** [LTB_SAFE_CUDA_CHECK] and [LTB_SAFE_OPTIX_CHECK] at the given place: what
    the function around the macro returns at once, if it returns. *)
Definition safe_check (project_root : string) (result : Z) (func file : string) (line : Z)
    : option (Result.Result () Error.Error) :=
  let error_message := error_string result func file line in
  if bool_decide (error_message = "") then None
  else Some (Result.Unexpected (Error.make_error project_root (Error.mkSourceLocation file line)
               Error.SeverityError error_message)).

Lemma append_not_empty c a b : String c a +:+ b ≠ "".
Proof. done. Qed.

Lemma error_string_empty result func file line :
  library ≠ "" → error_string result func file line = "" ↔ result = success.
Proof.
  intros Hl. destruct library as [|c lib] eqn:El; [done|].
  unfold error_string. case_bool_decide; [|naive_solver].
  rewrite El. split; [|done]. intros E. by apply append_not_empty in E.
Qed.

(** [check] throws exactly if the call did not succeed, and the exception
    carries the description of the error. *)
Theorem check_throws_on_error result func file line :
  library ≠ "" →
  (check result func file line = Ret () ↔ result = success) ∧
  (result ≠ success →
   check result func file line = Fault (runtime_error (error_string result func file line))).
Proof.
  intros Hl. pose proof (error_string_empty result func file line Hl) as H. unfold check. split.
  - rewrite <-H. by case_bool_decide.
  - intros Hr. rewrite bool_decide_false; [done|]. by rewrite H.
Qed.

(** The two ways of checking agree: a function returns early at the macro
    exactly if [check] throws, and throwing the returned error with
    [value_or_throw] throws what [check] throws. *)
Theorem safe_check_agrees project_root result func file line :
  library ≠ "" →
  check result func file line =
    match safe_check project_root result func file line with
    | None => Ret ()
    | Some error => Result.value_or_throw error
    end ∧
  (safe_check project_root result func file line = None ↔ result = success).
Proof.
  intros Hl. pose proof (error_string_empty result func file line Hl) as H.
  unfold check, safe_check. case_bool_decide as E; simpl; split; try done.
  - by rewrite <-H.
  - rewrite <-H. by split.
Qed.

End Check.

Lemma check_throws_on_error_witness :
  check "CUDA" 0 (λ _, "out of memory") 0 "f()" "a.cu" 3 = Ret ().
Proof. by apply (check_throws_on_error "CUDA" 0 (λ _, "out of memory") 0 "f()" "a.cu" 3). Defined.

Lemma safe_check_agrees_witness :
  check "OPTIX" 0 (λ _, "invalid value") 7001 "f()" "a.cu" 3 =
  Fault (runtime_error (error_string "OPTIX" 0 (λ _, "invalid value") 7001 "f()" "a.cu" 3)).
Proof.
  rewrite (proj1 (safe_check_agrees "OPTIX" 0 (λ _, "invalid value") "" 7001 "f()" "a.cu" 3
    ltac:(done))). done.
Defined.

End Checked.
