(* ===== verification/ErrorTests.v ===== *)
(** * The unit tests of errors and strings

    The test cases at the end of [src/ltb-util/src/ltb/util/string.cpp] and
    [error.cpp] as functions of the model in [ErrorResult.v]: the ones on errors
    pass for every file and line, the one on paths depends on where the project
    lies. *)
From S2P Require Import Prelude ErrorResult.
From stdpp Require Import pretty.
#[local] Open Scope string_scope.

Module ErrorTests.
Import Text Error.

(** [string_starts_with] *)
Definition starts_with_checks : bool :=
  starts_with "" "" && starts_with "check for prefix" "" && starts_with "check for prefix" "c" &&
  starts_with "check for prefix" "check" && starts_with "check for prefix" "check " &&
  starts_with "check for prefix" "check for prefix" &&
  negb (starts_with "" "?") && negb (starts_with "check for prefix" "z") &&
  negb (starts_with "check for prefix" "checkk") && negb (starts_with "check for prefix" "check  ") &&
  negb (starts_with "check for prefix" "check for prefix?").

Lemma length_append a b : String.length (a +:+ b) = (String.length a + String.length b)%nat.
Proof. induction a as [|c a IH]; [done|]. simpl. by rewrite IH. Qed.

Section Paths.
Context (project_root slash : string).

(** [get relative path string] *)
Definition relative_path_checks : bool :=
  bool_decide (get_relative_path_string project_root "/no/project/root" = "/no/project/root") &&
  bool_decide (get_relative_path_string project_root (project_root +:+ "with/project/root")
    = "with/project/root").

(** [LTB_MAKE_ERROR] and [LTB_MAKE_WARNING] in line [line] of [file]. *)
Definition make_error_here (file : string) (line : Z) (msg : string) : Error :=
  make_error project_root (mkSourceLocation file line) SeverityError msg.
Definition make_warning_here (file : string) (line : Z) (msg : string) : Error :=
  make_error project_root (mkSourceLocation file line) SeverityWarning msg.

Definition severity_eqb (s s' : Severity) : bool :=
  match s, s' with
  | SeverityError, SeverityError | SeverityWarning, SeverityWarning => true
  | _, _ => false
  end.

(** [check error helpers] and [check warning helpers], whose first check is in
    line [line]. *)
Definition error_checks (file : string) (line : Z) : bool :=
  bool_decide (error_message_ (make_error_here file line "Error message") = "Error message") &&
  error_eqb (make_error_here file (line + 1) "blarg") (make_error_here file (line + 1) "blarg") &&
  severity_eqb (severity_ (make_error_here file (line + 2) "this is bad")) SeverityError.
Definition warning_checks (file : string) (line : Z) : bool :=
  bool_decide (error_message_ (make_warning_here file line "Warning message") = "Warning message") &&
  error_eqb (make_warning_here file (line + 1) "blarg") (make_warning_here file (line + 1) "blarg") &&
  severity_eqb (severity_ (make_warning_here file (line + 2) "not so bad")) SeverityWarning.

(** [build_expected_message], which no check uses. *)
Definition this_file : string :=
  "src" +:+ slash +:+ "ltb" +:+ slash +:+ "util" +:+ slash +:+ "error.cpp".
Definition build_expected_message (file_prefix : string) (line_number : Z) (error_message : string) : string :=
  let prefix := if bool_decide (file_prefix = "") then "" else file_prefix +:+ slash in
  "[" +:+ (prefix +:+ this_file) +:+ (":" +:+ pretty line_number) +:+ ("] " +:+ error_message).

Lemma relative_path_checks_spec :
  relative_path_checks = true ↔
  project_root = "" ∨ starts_with "/no/project/root" project_root = false.
Proof.
  unfold relative_path_checks. rewrite andb_true_iff, !bool_decide_eq_true.
  assert (get_relative_path_string project_root (project_root +:+ "with/project/root")
    = "with/project/root") as ->.
  { unfold get_relative_path_string. rewrite (proj2 (index_prefix _ _) (prefix_app _ _)). apply substr_app. }
  unfold get_relative_path_string. rewrite starts_with_prefix.
  destruct (String.prefix project_root "/no/project/root") eqn:Hp.
  - rewrite (proj2 (index_prefix _ _) Hp). apply prefix_inv in Hp.
    assert (∀ a b : string, a +:+ b = b → a = "") as Hempty.
    { intros a b Hab. apply (f_equal String.length) in Hab. rewrite length_append in Hab.
      destruct a; [done|]. simpl in Hab. lia. }
    split; [|intros [->|?]; [by vm_compute|congruence]].
    intros [Heq _]. left. rewrite Heq in Hp. by eapply Hempty.
  - split; [by right|]. intros _. split; [|done].
    destruct (String.index 0 project_root "/no/project/root") as [[|n]|] eqn:E; [|done..].
    apply index_prefix in E. congruence.
Qed.

(** What the test cases establish. Those on prefixes and those on errors and
    warnings pass in every file, at every line and for every place of the
    project; the one on paths passes unless the project lies in one of the
    directories [/], [/no/] and so on, of which the test wrongly assumes that no
    project is there; and the message that the helper of the tests expects is the
    debug message of an error that is made in the file. *)
Theorem unit_tests_pass file line file_prefix msg :
  (0 <= line)%Z →
  starts_with_checks = true ∧ error_checks file line = true ∧ warning_checks file line = true ∧
  (relative_path_checks = true ↔
    project_root = "" ∨ starts_with "/no/project/root" project_root = false) ∧
  debug_message_ (make_error_here
    (project_root +:+ ((if bool_decide (file_prefix = "") then "" else file_prefix +:+ slash) +:+ this_file))
    line msg) = build_expected_message file_prefix line msg.
Proof.
  intros Hline. split_and!; [vm_compute; done| | |apply relative_path_checks_spec|].
  - unfold error_checks, error_eqb. simpl. by rewrite !bool_decide_true.
  - unfold warning_checks, error_eqb. simpl. by rewrite !bool_decide_true.
  - set (path := _ +:+ this_file). unfold make_error_here, make_error, create_debug_message.
    cbn [debug_message_ filename line_number].
    assert (project_root +:+ path ≠ "") as Hne.
    { intros H%(f_equal String.length). subst path. rewrite !length_append in H. simpl in H. lia. }
    rewrite (bool_decide_true (0 <= line)%Z) by done. rewrite (bool_decide_false (project_root +:+ path = "")) by done.
    assert (get_relative_path_string project_root (project_root +:+ path) = path) as ->.
    { unfold get_relative_path_string. rewrite (proj2 (index_prefix _ _) (prefix_app _ _)). apply substr_app. }
    subst path. unfold build_expected_message. by rewrite <-!append_assoc.
Qed.
End Paths.

Lemma unit_tests_pass_witness :
  relative_path_checks "/home/user/" = true ∧
  debug_message_ (make_error_here "/home/user/" "/home/user/ltb-util/src/ltb/util/error.cpp" 128 "bad")
  = "[ltb-util/src/ltb/util/error.cpp:128] bad".
Proof.
  destruct (unit_tests_pass "/home/user/" "/" "error.cpp" 128 "ltb-util" "bad") as (_ & _ & _ & Hp & Hm);
    [lia|]. split; [apply Hp; right; vm_compute; reflexivity|exact Hm].
Defined.

(** ** Errors with a context *)

(** [ContextError] and [make_context_error] *)
Record ContextError (Context : Type) : Type := mkContextError { error : Error; context : Context }.
Definition make_context_error {Context} (e : Error) (c : Context) : ContextError Context :=
  mkContextError Context e c.

End ErrorTests.
