(* ===== verification/Diagnostics.v ===== *)
(** * Names of types and timers

    Helpers of [src/ltb-util/src/ltb/util/] that produce text for people:
    [type_string.hpp] and [type_string.cpp] write the name of a type, and
    [timer.hpp] and [timer.cpp] report how long something took. *)
From S2P Require Import Prelude.
From Stdlib Require Import String Ascii.
From stdpp Require Import pretty strings.

(** ** Replacing substrings

    [std::regex_replace] with a pattern that has no special characters: the
    matches are found from left to right and do not overlap. *)
Module Replace.
Section Replace.
Context {A : Type} `{!EqDecision A} (pattern replacement : list A).

(** [skip] elements belong to the last match. *)
Fixpoint replace_from (skip : nat) (s : list A) : list A :=
  match s with
  | [] => []
  | c :: s' =>
      match skip with
      | S skip => replace_from skip s'
      | O =>
          if decide (pattern `prefix_of` c :: s')
          then replacement ++ replace_from (length pattern - 1) s'
          else c :: replace_from 0 s'
      end
  end.

Definition replace (s : list A) : list A := replace_from 0 s.

Definition occurs (s : list A) : Prop := ∃ a b, s = a ++ pattern ++ b.

(** Two words that can start at the same place of a text. *)
Definition compatible (x y : list A) : bool :=
  bool_decide (x `prefix_of` y) || bool_decide (y `prefix_of` x).

(** No occurrence of the pattern overlaps with a replacement, or contains one. *)
Definition no_clash : bool :=
  forallb (λ i, negb (compatible (drop i pattern) replacement)) (seq 1 (length pattern - 1)) &&
  forallb (λ i, negb (compatible pattern (drop i replacement))) (seq 0 (length replacement)).

Context (Hne : pattern ≠ []).

Lemma replace_from_drop k s : replace_from k s = replace (drop k s).
Proof.
  revert k. induction s as [|c s IH]; intros [|k]; [done..|]. simpl. apply IH.
Qed.

Lemma replace_match s : replace (pattern ++ s) = replacement ++ replace s.
Proof using All.
  assert (∃ c p, pattern = c :: p) as (c & p & Ep) by (destruct pattern; by eauto).
  assert (pattern ++ s = c :: (p ++ s)) as E by by rewrite Ep.
  unfold replace at 1. rewrite E. cbn [replace_from].
  rewrite decide_True by (rewrite <-E; by apply prefix_app_r).
  rewrite replace_from_drop, Ep. simpl. by rewrite Nat.sub_0_r, drop_app_length.
Qed.

Lemma replace_miss c s : ¬ pattern `prefix_of` c :: s → replace (c :: s) = c :: replace s.
Proof. intros H. unfold replace. simpl. by rewrite decide_False. Qed.

(** Every text is made of matches and of characters at which none begins. *)
Lemma replace_ind (P : list A → Prop) :
  P [] → (∀ s, P s → P (pattern ++ s)) →
  (∀ c s, ¬ pattern `prefix_of` c :: s → P s → P (c :: s)) → ∀ s, P s.
Proof using All.
  intros Hnil Hmatch Hmiss s.
  induction s as [[|c s] IH] using (induction_ltof1 _ length); unfold ltof in IH; [done|].
  destruct (decide (pattern `prefix_of` c :: s)) as [[s' E]|Hno].
  - rewrite E. apply Hmatch, IH. rewrite E, length_app.
    destruct pattern; [done|]. simpl. lia.
  - apply Hmiss; [done|]. apply IH. simpl. lia.
Qed.

Lemma prefix_compatible x y t : x `prefix_of` y ++ t → compatible x y = true.
Proof.
  intros Hx. assert (x `prefix_of` y ∨ y `prefix_of` x) as [H|H].
  { eapply prefix_weak_total; [done|]. by apply prefix_app_r. }
  - unfold compatible. by rewrite bool_decide_true.
  - unfold compatible. by rewrite (bool_decide_true (y `prefix_of` x)), orb_true_r.
Qed.

Lemma replace_absent s : ¬ occurs s → replace s = s.
Proof using All.
  induction s as [|s IH|c s Hno IH] using replace_ind; intros Ho; [done| |].
  - destruct Ho. by exists [], s.
  - rewrite replace_miss by done. rewrite IH; [done|].
    intros (a & b & ->). apply Ho. by exists (c :: a), b.
Qed.

Section NoClash.
Context (Hclash : no_clash = true).

Lemma no_clash_inner i :
  0 < i → i < length pattern → compatible (drop i pattern) replacement = false.
Proof using All.
  intros H0 H1. unfold no_clash in Hclash. apply andb_prop in Hclash as [H _].
  rewrite forallb_forall in H. apply negb_true_iff, H, in_seq. lia.
Qed.

Lemma no_clash_outer i :
  i < length replacement → compatible pattern (drop i replacement) = false.
Proof using All.
  intros H1. unfold no_clash in Hclash. apply andb_prop in Hclash as [_ H].
  rewrite forallb_forall in H. apply negb_true_iff, H, in_seq. lia.
Qed.

(** The end of a pattern that begins the result began the text already. *)
Lemma replace_tail s i :
  0 < i → drop i pattern `prefix_of` replace s → drop i pattern `prefix_of` s.
Proof using All.
  revert i. induction s as [|s IH|c s Hno IH] using replace_ind; intros i Hi Hp; [done| |].
  - rewrite replace_match in Hp. destruct (decide (i < length pattern)) as [Hlt|Hge].
    + apply prefix_compatible in Hp. by rewrite no_clash_inner in Hp.
    + rewrite drop_ge by lia. apply prefix_nil.
  - rewrite replace_miss in Hp by done.
    destruct (drop i pattern) as [|x t] eqn:Ed; [apply prefix_nil|].
    pose proof (prefix_cons_inv_1 _ _ _ _ Hp) as ->.
    apply prefix_cons_inv_2 in Hp. apply prefix_cons.
    assert (t = drop (S i) pattern) as ->.
    { change t with (drop 1 (c :: t)). by rewrite <-Ed, drop_drop, Nat.add_1_r. }
    apply IH; [lia|done].
Qed.

(** The result contains the pattern nowhere. *)
Lemma replace_clean s : ¬ occurs (replace s).
Proof using All.
  induction s as [|s IH|c s Hno IH] using replace_ind; intros (a & b & E).
  - symmetry in E. apply app_nil in E as [_ E]. by apply app_nil in E as [? _].
  - rewrite replace_match in E. destruct (decide (length a < length replacement)) as [Hlt|Hge].
    + apply (f_equal (drop (length a))) in E.
      rewrite drop_app_le, drop_app_length in E by lia.
      assert (pattern `prefix_of` drop (length a) replacement ++ replace s) as Hp.
      { rewrite E. by apply prefix_app_r. }
      apply prefix_compatible in Hp. by rewrite no_clash_outer in Hp.
    + apply (f_equal (drop (length replacement))) in E.
      rewrite drop_app_length, drop_app_le in E by lia.
      apply IH. by eexists _, _.
  - rewrite replace_miss in E by done. destruct a as [|c' a].
    + assert (pattern = c :: drop 1 pattern ∧ replace s = drop 1 pattern ++ b) as [Ep Er].
      { clear -E Hne. remember (replace s) as r. clear Heqr.
        destruct pattern; [done|]. by injection E as -> ->. }
      apply Hno. rewrite Ep. apply prefix_cons, replace_tail; [lia|].
      rewrite Er. by apply prefix_app_r.
    + injection E as _ E. apply IH. by exists a, b.
Qed.

End NoClash.
End Replace.
End Replace.

(** ** Names of types *)
Module TypeNames.

(** [std::regex_replace(str, std::regex(pattern), replacement)] *)
Definition regex_replace (str pattern replacement : string) : string :=
  string_of_list_ascii (Replace.replace (list_ascii_of_string pattern)
    (list_ascii_of_string replacement) (list_ascii_of_string str)).

Definition ugly_string1 : string :=
  "std::__cxx11::basic_string<char, std::char_traits<char>, std::allocator<char> > >".
Definition ugly_string2 : string :=
  "std::__cxx11::basic_string<char, std::char_traits<char>, std::allocator<char> >".

Definition replace_ugly_strings (type_str : string) : string :=
  let type_str := regex_replace type_str ugly_string1 "std::string>" in
  let type_str := regex_replace type_str ugly_string2 "std::string" in
  type_str.

(** [demangle]; [abi::__cxa_demangle] belongs to the compiler's run-time library
    and returns a status with the text. *)
Definition demangle (__cxa_demangle : string → Z * string) (name : string) : string :=
  let '(status, res) := __cxa_demangle name in
  if (status =? 0)%Z then res else name.

(** [type_string]; [mangled] is [typeid(T).name()]. *)
Definition type_string (__cxa_demangle : string → Z * string) (mangled : string) : string :=
  replace_ugly_strings (demangle __cxa_demangle mangled).

Definition contains (str part : string) : Prop :=
  Replace.occurs (list_ascii_of_string part) (list_ascii_of_string str).

Lemma regex_replace_absent str pattern replacement :
  list_ascii_of_string pattern ≠ [] → ¬ contains str pattern →
  regex_replace str pattern replacement = str.
Proof.
  intros Hne H. unfold regex_replace. rewrite Replace.replace_absent by done.
  apply string_of_list_ascii_of_string.
Qed.

Lemma regex_replace_clean str pattern replacement :
  list_ascii_of_string pattern ≠ [] →
  Replace.no_clash (list_ascii_of_string pattern) (list_ascii_of_string replacement) = true →
  ¬ contains (regex_replace str pattern replacement) pattern.
Proof.
  intros Hne Hc. unfold contains, regex_replace. rewrite list_ascii_of_string_of_list_ascii.
  by apply Replace.replace_clean.
Qed.

(** The longer spelling contains the shorter one. *)
Lemma contains_ugly str : contains str ugly_string1 → contains str ugly_string2.
Proof.
  intros (a & b & E).
  exists a, (list_ascii_of_string " >" ++ b). rewrite E. done.
Qed.

(** The name of a type never contains the spelled-out [std::string], in
    neither of the two spellings, whatever the demangler returns; the cleaning
    leaves names alone that do not contain it, so it has no further effect on
    its own result. *)
Theorem type_string_clean __cxa_demangle (mangled : string) :
  let name := type_string __cxa_demangle mangled in
  ¬ contains name ugly_string1 ∧ ¬ contains name ugly_string2 ∧
  replace_ugly_strings name = name ∧
  (¬ contains (demangle __cxa_demangle mangled) ugly_string2 → name = demangle __cxa_demangle mangled).
Proof.
  assert (∀ str, ¬ contains str ugly_string2 → replace_ugly_strings str = str) as Hid.
  { intros str H. unfold replace_ugly_strings. rewrite (regex_replace_absent str) by
      (done || by intros ?%contains_ugly).
    by apply regex_replace_absent. }
  cbv zeta. assert (¬ contains (type_string __cxa_demangle mangled) ugly_string2) as H2.
  { unfold type_string, replace_ugly_strings. apply regex_replace_clean; [done|].
    vm_compute. done. }
  split_and!; [by intros ?%contains_ugly|done|by apply Hid|apply Hid].
Qed.

(** A vector of strings as GCC spells it. *)
Example vector_of_strings :
  replace_ugly_strings
    (String.concat "" ["std::vector<"; ugly_string2; ", std::allocator<"; ugly_string1; " >"])
  = "std::vector<std::string, std::allocator<std::string> >"%string.
Proof. vm_compute. done. Qed.

End TypeNames.

(** ** Timers

    Points in time are nanoseconds of [std::chrono::steady_clock]. *)
Module Timers.
#[local] Open Scope string_scope.

Record Timer : Type := mkTimer {
  name_ : string;
  ostream_ : bool; (* there is a stream to write to *)
  start_time_ : Z
}.

Definition newline : string := String (Ascii.ascii_of_nat 10) EmptyString.

(** The last [n] decimal digits of a number. *)
Fixpoint last_digits (n : nat) (z : Z) : string :=
  match n with
  | O => EmptyString
  | S n => last_digits n (z / 10) +:+ pretty (z mod 10)%Z
  end.

(** [std::to_string] of the milliseconds as a [double], which has six decimal
    places and is exact below 2^52 nanoseconds, or 52 days. *)
Definition to_string (duration : Z) : string :=
  pretty (duration / 1000000)%Z +:+ "." +:+ last_digits 6 duration.

(** The constructor. *)
Definition make (now : Z) (name : string) (os : bool) : Timer := mkTimer name os now.

(** The methods return what they write to the stream. *)
Definition start (now : Z) (t : Timer) : Timer * string :=
  (mkTimer (name_ t) (ostream_ t) now,
   if ostream_ t then name_ t +:+ "..." +:+ newline else EmptyString).

Definition millis_since_start (now : Z) (t : Timer) : Z * string :=
  let duration := (now - start_time_ t)%Z in
  (duration,
   if ostream_ t then
     name_ t +:+ (if bool_decide (name_ t = EmptyString) then EmptyString else ": ") +:+
     to_string duration +:+ "ms" +:+ newline
   else EmptyString).

(** [ScopedTimer]: the constructor starts a timer that writes, the destructor
    reports. *)
Definition scoped_timer (constructed started destroyed : Z) (name : string) : Z * string :=
  let '(t, out) := start started (make constructed name true) in
  let '(duration, out') := millis_since_start destroyed t in
  (duration, out +:+ out').

(** Only the last start counts, and a timer without a stream is silent. *)
Lemma last_start_counts now name os starts last t out :
  start last (foldl (λ t now, (start now t).1) (make now name os) starts) = (t, out) →
  ∀ now', (millis_since_start now' t).1 = (now' - last)%Z ∧
    (os = false → out = EmptyString ∧ (millis_since_start now' t).2 = EmptyString).
Proof.
  assert (∀ starts t, ostream_ (foldl (λ t now, (start now t).1) t starts) = ostream_ t) as Hos.
  { intros l. induction l as [|x l IH]; intros t0; simpl; [done|]. by rewrite IH. }
  intros [= <- <-] now'. split; [done|]. intros ->. simpl. by rewrite Hos.
Qed.

Example scoped_timer_report :
  scoped_timer 5 1000000 13500042 "load"
  = (12500042%Z, "load..." +:+ newline +:+ "load: 12.500042ms" +:+ newline).
Proof. vm_compute. done. Qed.

End Timers.
