(* ===== verification/Utilities.v ===== *)
(** * Small utilities

    [src/ltb-util/src/ltb/util/container_utils.hpp] ([Module Containers]) and
    [src/ltb-util/src/ltb/util/generic_guard.hpp] ([Module Guard]). *)
From S2P Require Import Prelude.

Module Containers.

(** [has_key] on a map and [has_item] on a sequence. *)
Definition has_key {A} (map : gmap addr A) (key : addr) : bool :=
  match map !! key with Some _ => true | None => false end.

Section Sequence.
Context {T : Type}.

(** [std::find], as the position it returns; [std::end] is the length. *)
Fixpoint find (item : T → bool) (v : list T) : nat :=
  match v with
  | [] => 0
  | x :: v => if item x then 0 else S (find item v)
  end.

Definition has_item (item : T → bool) (v : list T) : bool :=
  negb (bool_decide (find item v = length v)).

(** [std::remove_if]: [n] elements from position [i] on are left; the elements
    that stay are moved to position [result]. *)
Fixpoint remove_if (pred : T → bool) (n i result : nat) (v : list T) : list T * nat :=
  match n with
  | 0 => (v, result)
  | S n =>
      match v !! i with
      | Some x =>
          if pred x then remove_if pred n (S i) result v
          else remove_if pred n (S i) (S result) (<[result := x]> v)
      | None => (v, result)
      end
  end.

(** [v.erase(first, std::end(v))]: the container and the returned iterator. *)
Definition erase_tail (v : list T) (first : nat) : list T * nat := (take first v, first).

Definition remove_all_by_predicate (pred : T → bool) (v : list T) : list T * nat :=
  let '(v, first) := remove_if pred (length v) 0 0 v in erase_tail v first.

(** [value] is not an element of [v] itself: [std::remove] reads it through a
    reference while it moves elements. *)
Definition remove_all_by_value (equal : T → T → bool) (value : T) (v : list T) : list T * nat :=
  remove_all_by_predicate (λ x, equal x value) v.

Lemma find_spec item v : find item v = length v ↔ ∀ x, x ∈ v → item x = false.
Proof.
  induction v as [|y v IH]; simpl.
  - split; [|done]. by intros _ x ?%elem_of_nil.
  - destruct (item y) eqn:E.
    + split; [done|]. intros H. rewrite H in E; [done|]. by left.
    + split.
      * intros [= H] x [->|Hx]%elem_of_cons; [done|]. by apply IH.
      * intros H. f_equal. apply IH. intros x Hx. apply H. by right.
Qed.

(** The elements before [result] are those of the first [i] that stay, and those
    from [i] on have not been touched. *)
Lemma remove_if_spec pred v0 n i r v :
  length v = length v0 → i + n = length v0 → r ≤ i →
  take r v = List.filter (λ x, negb (pred x)) (take i v0) → drop i v = drop i v0 →
  let '(v', r') := remove_if pred n i r v in
  take r' v' = List.filter (λ x, negb (pred x)) v0 ∧ r' ≤ length v'.
Proof.
  revert i r v. induction n as [|n IH]; intros i r v Hlen Hn Hr Ht Hd; simpl.
  - rewrite Ht, take_ge by lia. split; [done|lia].
  - assert (v !! i = v0 !! i) as Ei by (rewrite <-(Nat.add_0_r i), <-!lookup_drop; by rewrite Hd).
    destruct (lookup_lt_is_Some_2 v0 i) as [x Hx]; [lia|]. rewrite Ei, Hx.
    assert (take (S i) v0 = take i v0 ++ [x]) as Et by by apply take_S_r.
    assert (drop (S i) v = drop (S i) v0) as Ed.
    { replace (S i) with (i + 1) by lia. by rewrite <-!drop_drop, Hd. }
    destruct (pred x) eqn:Ep.
    + apply IH; try done; [lia..|]. rewrite Et, List.filter_app. simpl. rewrite Ep. simpl.
      by rewrite app_nil_r.
    + apply IH; [by rewrite length_insert|lia|lia| |].
      * rewrite Et, List.filter_app. simpl. rewrite Ep. simpl.
        rewrite (take_S_r _ r x) by (apply list_lookup_insert_eq; lia).
        by rewrite take_insert_ge, Ht by lia.
      * by rewrite drop_insert_lt by lia.
Qed.

End Sequence.

(** The helpers on containers do what their names say: [has_item] finds
    exactly the elements of the sequence, and the in-place
    [remove_all_by_predicate] keeps exactly the elements that do not satisfy the
    predicate, in their order, and returns the new end. *)
Theorem containers_spec {T} (pred : T → bool) (v : list T) :
  (has_item pred v = true ↔ ∃ x, x ∈ v ∧ pred x = true) ∧
  remove_all_by_predicate pred v =
    (List.filter (λ x, negb (pred x)) v, length (List.filter (λ x, negb (pred x)) v)) ∧
  has_item pred (remove_all_by_predicate pred v).1 = false.
Proof.
  assert (remove_all_by_predicate pred v =
    (List.filter (λ x, negb (pred x)) v, length (List.filter (λ x, negb (pred x)) v))) as Hrm.
  { unfold remove_all_by_predicate, erase_tail.
    pose proof (remove_if_spec pred v (length v) 0 0 v) as H.
    destruct (remove_if pred (length v) 0 0 v) as [v' r'].
    destruct H as [H Hr]; [done..|]. rewrite <-H, length_take. f_equal. lia. }
  split_and!; [|done|].
  - unfold has_item. destruct (bool_decide_reflect (find pred v = length v)) as [H|H]; simpl.
    + rewrite find_spec in H. split; [done|]. intros (x & Hx & Hp). by rewrite H in Hp.
    + split; [intros _|done]. clear Hrm. induction v as [|y v IH]; [done|]. simpl in H.
      destruct (pred y) eqn:E; [exists y; split; [by left|done]|].
      destruct IH as (x & ? & ?); [by intros ?%(f_equal S)|]. exists x. split; [by right|done].
  - rewrite Hrm. unfold has_item. rewrite bool_decide_true; [done|]. apply find_spec.
    intros x Hx. apply list_elem_of_In, List.filter_In in Hx as [_ Hx]. by destruct (pred x).
Qed.

End Containers.

Module Guard.
Section Guard.
Context {Args Event : Type}.

(** A function as [call_func] sees it: it takes the stored arguments by
    reference, or nothing. It does something, may change the arguments, and may
    throw. *)
Inductive callable : Type :=
| TakesArguments (func : Args → list Event * Args * option fault)
| TakesNothing (func : list Event * option fault).

(** [call_func]: the overload for [int] wins if the function accepts the
    arguments. *)
Definition call_func (func : callable) (arguments : Args) : list Event * Args * option fault :=
  match func with
  | TakesArguments f => f arguments
  | TakesNothing (events, thrown) => (events, arguments, thrown)
  end.

(** A call of [make_guard]. *)
Record make_guard : Type := mkGuard {
  init_func : callable;
  destroy_func : callable;
  args : Args
}.

(** The constructor: what it does, and the guard's [arguments_] or the
    exception. *)
Definition construct (g : make_guard) : list Event * (Args + fault) :=
  match call_func (init_func g) (args g) with
  | (events, arguments, None) => (events, inl arguments)
  | (events, _, Some e) => (events, inr e)
  end.

(** The destructor is [noexcept]: an exception in it ends the program. *)
Definition destruct_guard (g : make_guard) (arguments_ : Args) : list Event * option fault :=
  match call_func (destroy_func g) arguments_ with
  | (events, _, None) => (events, None)
  | (events, _, Some _) => (events, Some std_terminate)
  end.

(** A block that declares [guards] and then runs [body]: the guards that were
    constructed are destroyed when the block is left, normally or by an
    exception. *)
Fixpoint block (guards : list make_guard) (body : list Event * option fault)
    : list Event * option fault :=
  match guards with
  | [] => body
  | g :: guards =>
      match construct g with
      | (events, inr e) => (events, Some e)
      | (events, inl arguments_) =>
          let '(inner, thrown) := block guards body in
          if decide (thrown = Some std_terminate) then (events ++ inner, thrown)
          else
            match destruct_guard g arguments_ with
            | (outer, None) => (events ++ inner ++ outer, thrown)
            | (outer, Some e) => (events ++ inner ++ outer, Some e)
            end
      end
  end.

(** A guard that is constructed and destroyed without an exception, and what
    the two do. *)
Definition balanced (g : make_guard) (push pop : list Event) : Prop :=
  ∃ arguments_, construct g = (push, inl arguments_) ∧ destruct_guard g arguments_ = (pop, None).

Lemma block_balanced guards pushes pops inner thrown rest body :
  length pushes = length guards → length pops = length guards →
  (∀ i g push pop, guards !! i = Some g → pushes !! i = Some push → pops !! i = Some pop →
    balanced g push pop) →
  block rest body = (inner, thrown) → thrown ≠ Some std_terminate →
  block (guards ++ rest) body = (concat pushes ++ inner ++ concat (reverse pops), thrown).
Proof.
  intros Hl1 Hl2 Hb Hrest Ht. revert pushes pops Hl1 Hl2 Hb.
  induction guards as [|g guards IH]; intros [|push pushes] [|pop pops] Hl1 Hl2 Hb; try done; simpl.
  - by rewrite Hrest, app_nil_r.
  - destruct (Hb 0 g push pop) as (arguments_ & Ec & Ed); [done..|]. rewrite Ec.
    rewrite (IH pushes pops); [|simpl in *; lia..|].
    + rewrite decide_False by done. rewrite Ed. f_equal.
      rewrite reverse_cons, concat_app. simpl. by rewrite app_nil_r, <-!(assoc_L (++)).
    + intros i. apply (Hb (S i)).
Qed.

(** Guards behave like a stack. If the guards of a block can be constructed
    and destroyed, their init functions run in order before the body and their
    destroy functions in the opposite order after it, whether the body returns
    or throws; and if the construction of a further guard throws, the body does
    not run and exactly the guards before it are destroyed, in the opposite
    order. *)
Theorem guards_are_a_stack guards pushes pops body :
  length pushes = length guards → length pops = length guards →
  (∀ i g push pop, guards !! i = Some g → pushes !! i = Some push → pops !! i = Some pop →
    balanced g push pop) →
  body.2 ≠ Some std_terminate →
  block guards body = (concat pushes ++ body.1 ++ concat (reverse pops), body.2) ∧
  ∀ g more events e, construct g = (events, inr e) → e ≠ std_terminate →
    block (guards ++ g :: more) body = (concat pushes ++ events ++ concat (reverse pops), Some e).
Proof.
  intros Hl1 Hl2 Hb Ht. split.
  - rewrite <-(app_nil_r guards). destruct body as [inner thrown].
    by apply block_balanced.
  - intros g more events e Hg He. apply block_balanced; [done..| |congruence].
    simpl. by rewrite Hg.
Qed.

End Guard.

(** Guards that push and pop their argument, which the init function changes. *)
Inductive stack_event : Type := Push (n : nat) | Pop (n : nat) | Work.

Definition push_pop (n : nat) : make_guard :=
  mkGuard (TakesArguments (λ n, ([Push n], S n, None))) (TakesArguments (λ n, ([Pop n], n, None))) n.
Definition broken : @make_guard nat stack_event :=
  mkGuard (TakesNothing ([], Some (invalid_argument "broken"))) (TakesNothing ([], None)) 0.

Lemma guards_are_a_stack_witness :
  block [push_pop 1; push_pop 2] ([Work], Some out_of_range)
    = ([Push 1; Push 2; Work; Pop 3; Pop 2], Some out_of_range) ∧
  block [push_pop 1; push_pop 2; broken] ([Work], None)
    = ([Push 1; Push 2; Pop 3; Pop 2], Some (invalid_argument "broken")).
Proof.
  assert (∀ i g push pop, [push_pop 1; push_pop 2] !! i = Some g →
    [[Push 1]; [Push 2]] !! i = Some push → [[Pop 2]; [Pop 3]] !! i = Some pop →
    balanced g push pop) as Hb.
  { intros [|[|i]] g push pop H1 H2 H3; simpl in *; simplify_eq; by eexists. }
  split.
  - apply (guards_are_a_stack [push_pop 1; push_pop 2] [[Push 1]; [Push 2]] [[Pop 2]; [Pop 3]]
      ([Work], Some out_of_range)); done.
  - destruct (guards_are_a_stack [push_pop 1; push_pop 2] [[Push 1]; [Push 2]] [[Pop 2]; [Pop 3]]
      ([Work], None) eq_refl eq_refl Hb) as [_ H]; [done|].
    by apply (H broken [] []).
Defined.

End Guard.
