(* ===== verification/GuardPrograms.v ===== *)
(** * Guards: which ones compile, and the test program

    The overloads of [call_func] in
    [src/ltb-util/src/ltb/util/generic_guard.hpp] are chosen by the types of the
    arguments ([Module GuardTypes]); what a chosen one does is the [callable] of
    [Utilities.v]. [Module GuardTest] is the test program
    [src/ltb-util/src/ltb/util/generic_guard.cpp]. *)
From S2P Require Import Prelude Utilities.

Module GuardTypes.
Section Types.
(** Floating-point numbers, with the conversions of the language. *)
Context {float : Type} (of_int : Z → float) (to_int : float → Z).

(** The types of the arguments and parameters. *)
Inductive ty : Type := Float | Int | String | CharPtr.

#[global] Instance ty_eq_dec : EqDecision ty.
Proof. solve_decision. Defined.

Inductive val : Type :=
| VFloat (x : float)
| VInt (n : Z)
| VString (s : string)
| VChars (s : string). (* a [const char*] to a literal *)

Definition type_of (v : val) : ty :=
  match v with VFloat _ => Float | VInt _ => Int | VString _ => String | VChars _ => CharPtr end.

(** The implicit conversion of an argument to a parameter. *)
Definition convert (p : ty) (v : val) : option val :=
  match p, v with
  | Float, VFloat x => Some (VFloat x)
  | Float, VInt n => Some (VFloat (of_int n))
  | Int, VInt n => Some (VInt n)
  | Int, VFloat x => Some (VInt (to_int x))
  | String, VString s => Some (VString s)
  | String, VChars s => Some (VString s)
  | CharPtr, VChars s => Some (VChars s)
  | _, _ => None
  end.

(** Whether the conversion exists depends on the types alone. *)
Definition convertible (p a : ty) : bool :=
  match p, a with
  | (Float | Int), (Float | Int) => true
  | String, (String | CharPtr) => true
  | CharPtr, CharPtr => true
  | _, _ => false
  end.

Definition accepts (params arguments : list ty) : bool :=
  (length params =? length arguments) && forallb (λ pa, convertible pa.1 pa.2) (zip params arguments).

(** A function or a lambda: the types of its parameters and its body. *)
Record func (Event : Type) : Type := mkFunc {
  params : list ty;
  body : list val → list Event * option fault
}.

Arguments mkFunc {Event}.
Arguments params {Event}.
Arguments body {Event}.

(** The two overloads of [call_func]. *)
Inductive overload : Type := ForInt | ForLong.

(** The call [call_func(0, func, ...)]: each overload takes part if the
    expression in its return type is well-formed, and [int] is a better match for
    [0] than [long]. Without a candidate the program does not compile. *)
Definition resolve {Event} (f : func Event) (arguments : list ty) : option overload :=
  if accepts (params f) arguments then Some ForInt
  else if accepts (params f) [] then Some ForLong
  else None.

(** What the body of the function receives. *)
Definition received {Event} (f : func Event) (arguments : list val) : option (list val) :=
  match resolve f (type_of <$> arguments) with
  | Some ForInt => mapM (λ pv, convert pv.1 pv.2) (zip (params f) arguments)
  | Some ForLong => Some []
  | None => None
  end.

(** The instance of [call_func] for this function. *)
Definition instantiate {Event} (f : func Event) (arguments : list ty) :
    option (@Guard.callable (list val) Event) :=
  match resolve f arguments with
  | Some ForInt =>
      Some (Guard.TakesArguments (λ vs,
        match mapM (λ pv, convert pv.1 pv.2) (zip (params f) vs) with
        | Some ws => let '(events, thrown) := body f ws in (events, vs, thrown)
        | None => ([], vs, None)
        end))
  | Some ForLong => Some (Guard.TakesNothing (body f []))
  | None => None
  end.

(** [make_guard(init_func, destroy_func, args...)] if it compiles; the arguments
    are stored decayed. *)
Definition compile_guard {Event} (init_func destroy_func : func Event) (args : list val) :
    option (@Guard.make_guard (list val) Event) :=
  i ← instantiate init_func (type_of <$> args);
  d ← instantiate destroy_func (type_of <$> args);
  Some (Guard.mkGuard i d args).

Lemma convert_typed p v : convertible p (type_of v) = true →
  ∃ w, convert p v = Some w ∧ type_of w = p.
Proof. destruct p, v; simpl; try done; eauto. Qed.

Lemma accepts_converts ps vs :
  accepts ps (type_of <$> vs) = true →
  ∃ ws, mapM (λ pv, convert pv.1 pv.2) (zip ps vs) = Some ws ∧ type_of <$> ws = ps.
Proof.
  unfold accepts. rewrite length_fmap, andb_true_iff. intros [Hl%Nat.eqb_eq Hc].
  revert vs Hl Hc. induction ps as [|p ps IH]; intros [|v vs] Hl Hc; try done; [by exists []|].
  simpl in Hc. apply andb_true_iff in Hc as [Hc1 Hc2].
  destruct (convert_typed p v Hc1) as (w & Hw & Ht).
  destruct (IH vs) as (ws & Hws & Hts); [by injection Hl|done|].
  exists (w :: ws). simpl. rewrite Hw. simpl. rewrite Hws. split; [done|].
  rewrite Ht. f_equal. exact Hts.
Qed.

Lemma accepts_nil ps : accepts ps [] = bool_decide (ps = []).
Proof. by destruct ps. Qed.

(** An instantiated function is called with values of the types of its
    parameters. *)
Lemma instantiate_typed {Event} (f : func Event) vs c :
  instantiate f (type_of <$> vs) = Some c →
  ∃ ws, received f vs = Some ws ∧ type_of <$> ws = params f ∧
    Guard.call_func c vs = ((body f ws).1, vs, (body f ws).2).
Proof.
  unfold instantiate, received, resolve.
  destruct (accepts (params f) (type_of <$> vs)) eqn:Ha.
  - intros [= <-]. destruct (accepts_converts _ _ Ha) as (ws & Hws & Ht).
    exists ws. split_and!; try done. simpl. rewrite Hws. by destruct (body f ws).
  - rewrite accepts_nil. destruct (bool_decide_reflect (params f = [])) as [Hp|]; [|done].
    intros [= <-]. exists []. rewrite Hp. split_and!; try done. simpl. by destruct (body f []).
Qed.

End Types.
Arguments func {float} Event.
Arguments mkFunc {float Event}.
Arguments params {float Event}.
Arguments body {float Event}.
Arguments val : clear implicits.


End GuardTypes.

(** ** The test program *)
Module GuardTest.
Import GuardTypes.
Section Test.
Context {float : Type} (of_int : Z → float) (to_int : float → Z) (zero : float).

(** [push_called] and [pop_called]; a function of the test sets one of them. *)
Record globals : Type := mkGlobals { push_called : bool; pop_called : bool }.
Inductive event : Type := SetPush | SetPop | Check (g : globals → bool).

Abbreviation function := (@func float event).

(** The functions of the test, by their parameters. *)
Definition push (ps : list ty) : function := mkFunc ps (λ _, ([SetPush], None)).
Definition pop (ps : list ty) : function := mkFunc ps (λ _, ([SetPop], None)).
Definition void_push : function := push [].
Definition void_pop : function := pop [].
Definition float_push : function := push [Float].
Definition float_pop : function := pop [Float].
Definition string_push : function := push [String].
Definition string_pop : function := pop [String].
Definition int_and_string_push : function := push [Int; String].
Definition int_and_string_pop : function := pop [Int; String].

(** [[] { f(args...); }] *)
Definition lambda (f : function) (args : list (val float)) : function :=
  mkFunc [] (λ _, match received of_int to_int f args with Some ws => body f ws | None => ([], None) end).

(** [[](float arg) { f(arg); }] *)
Definition float_lambda (f : function) : function :=
  mkFunc [Float] (λ vs, match received of_int to_int f vs with Some ws => body f ws | None => ([], None) end).

(** The arguments of [make_guard] in each [SUBCASE]. *)
Definition no_lambdas : list (function * function * list (val float)) :=
  [(void_push, void_pop, []);
   (float_push, void_pop, [VFloat zero]);
   (void_push, float_pop, [VFloat zero]);
   (float_push, float_pop, [VFloat zero]);
   (string_push, void_pop, [VChars "Will this compile?"]);
   (void_push, string_pop, [VChars "Of course it will compile!"]);
   (string_push, string_pop, [VString "This will too!"]);
   (int_and_string_push, void_pop, [VInt 3; VChars "Multi-arg?"]);
   (void_push, int_and_string_pop, [VInt 7; VChars EmptyString]);
   (int_and_string_push, int_and_string_pop, [VInt 21; VString EmptyString])].

Definition with_lambdas : list (function * function * list (val float)) :=
  [(lambda void_push [], void_pop, []);
   (lambda float_push [VFloat zero], float_pop, [VFloat zero]);
   (void_push, lambda float_pop [VFloat zero], []);
   (float_push, lambda void_pop [], [VFloat zero]);
   (lambda float_push [VFloat zero], lambda int_and_string_pop [VInt 73; VChars "blarg"], []);
   (float_lambda float_push, float_lambda float_pop, [VFloat zero])].

(** The checks inside a subcase, while the guard lives. *)
Definition checks_inside : list event :=
  [Check push_called; Check (λ g, negb (pop_called g))].

(** Performs the events; [false] if a check fails. *)
Fixpoint perform (g : globals) (events : list event) : globals * bool :=
  match events with
  | [] => (g, true)
  | SetPush :: events => perform (mkGlobals true (pop_called g)) events
  | SetPop :: events => perform (mkGlobals (push_called g) true) events
  | Check c :: events =>
      if c g then perform g events else ((perform g events).1, false)
  end.

(** One run of the test case, which enters one subcase: [None] if it does not
    compile, otherwise whether all its checks hold. *)
Definition test_case (sub : function * function * list (val float)) : option bool :=
  let '(init_func, destroy_func, args) := sub in
  g ← compile_guard of_int to_int init_func destroy_func args;
  let '(events, thrown) := Guard.block [g] (checks_inside, None) in
  let '(globals, ok) := perform (mkGlobals false false) events in
  Some (ok && match thrown with None => true | Some _ => false end &&
        push_called globals && pop_called globals).

End Test.

(** Every subcase of the test of the guards compiles and passes: the push
    function has run and the pop function has not while the guard lives, and both
    have run when it is gone, whether they are functions or lambdas and whichever
    of them takes the arguments. *)
Theorem guard_test_passes {float} (of_int : Z → float) (to_int : float → Z) (zero : float) :
  Forall (λ sub, test_case of_int to_int sub = Some true)
    (no_lambdas zero ++ with_lambdas of_int to_int zero).
Proof. repeat constructor. Qed.

(** Without the overload for [long] the second subcase would not compile. *)
Example mixed_guard_overloads (zero : nat) :
  resolve (@float_push nat) (type_of <$> [VFloat zero]) = Some ForInt ∧
  resolve (@void_pop nat) (type_of <$> [VFloat zero]) = Some ForLong.
Proof. done. Qed.

End GuardTest.
