(* ===== verification/ExampleTagger.v ===== *)
(** * The tags of the example programs

    [src/example/src/shared/tag.cpp] and [tagger.cpp]: the same tags as in
    [Tag.v] with five labels, a map of its own behind a mutex, and an exception
    for unknown keys. *)
From S2P Require Import Prelude Tag.

Module ExampleTagger.

(** [enum class TagLabel] *)
Inductive TagLabel : Type :=
| ClientConnectionChange
| ClientFinished
| ServerNewRpc
| ServerWriting
| ServerDone.

#[global] Instance TagLabel_eq_dec : EqDecision TagLabel.
Proof. solve_decision. Defined.

(** [struct Tag] *)
Record Tag : Type := mkTag { data : addr; label : TagLabel }.

#[global] Instance Tag_eq_dec : EqDecision Tag.
Proof. solve_decision. Defined.

(** [operator<<(std::ostream&, const Tag&)] *)
Definition print (show_pointer : addr → string) (tag : Tag) : string :=
  ("{" +:+ show_pointer (data tag) +:+ ", " +:+
   (match label tag with
    | ClientConnectionChange => "ClientConnectionChange"
    | ClientFinished => "ClientFinished"
    | ServerNewRpc => "ServerNewRpc"
    | ServerDone => "ServerDone"
    | ServerWriting => "ServerWriting"
    end) +:+ "}")%string.

(** [make_tag] and [Tagger::make_tag]; [fresh] is the address of the new tag. *)
Definition make_tag (fresh : addr) (d : addr) (l : TagLabel) (tags : gmap addr Tag)
    : addr * gmap addr Tag :=
  (fresh, emplace fresh (mkTag d l) tags).

(** [get_tag] and [Tagger::get_tag] *)
Definition get_tag (key : addr) (tags : gmap addr Tag) : outcome (Tag * gmap addr Tag) :=
  match tags !! key with
  | None => Fault (runtime_error "provided tag does not exist in the map")
  | Some tag_copy => Ret (tag_copy, delete key tags)
  end.

Lemma make_tag_new k d l m : m !! k = None → make_tag k d l m = (k, <[k := mkTag d l]> m).
Proof. intros H. unfold make_tag. by rewrite emplace_fresh. Qed.

(** The second implementation of the interface of [Tag.v]. *)
#[refine, export]
Instance tagger : TagStore Tag := {|
  store_make k t m := (make_tag k (data t) (label t) m).2;
  store_get := get_tag;
  store_missing := runtime_error "provided tag does not exist in the map"
|}.
Proof.
  - intros k [d l] m H. by rewrite make_tag_new.
  - intros k t m H. unfold get_tag. by rewrite H.
  - intros k m H. unfold get_tag. by rewrite H.
Defined.

(** The tags of the examples behave like those of the library: issued under
    distinct addresses they can be redeemed in any order, each exactly; and
    redeeming one of them a second time throws instead of returning a stale
    tag. *)
Theorem example_tags_redeemed_once (kts kts' : list (addr * Tag)) k :
  NoDup kts.*1 → kts' ≡ₚ kts → k ∈ kts.*1 →
  store_get_all kts'.*1 (store_make_all kts ∅) = Ret (kts'.*2, ∅) ∧
  store_get_all (k :: kts'.*1) (store_make_all kts ∅)
  = Fault (runtime_error "provided tag does not exist in the map").
Proof.
  intros Hnd Hp Hk. split; [by apply store_issue_redeem|].
  apply list_elem_of_fmap in Hk as ([k' t] & -> & Hin).
  assert (∀ k t, (k, t) ∈ kts → store_make_all kts ∅ !! k = Some t) as Hl.
  { intros k t' ?. rewrite store_make_all_fresh by done. by apply elem_of_list_to_map. }
  apply (store_get_all_twice (TS := tagger) k' _ t); [by apply Hl| |by rewrite Hp|].
  - rewrite Hp. apply list_elem_of_fmap. by exists (k', t).
  - intros k'' Hk''. rewrite Hp in Hk''. apply list_elem_of_fmap in Hk'' as ([k3 t3] & -> & ?).
    eexists. by apply Hl.
Qed.

Lemma example_tags_redeemed_once_witness :
  store_get_all [1]%N (store_make_all [(1, mkTag 7 ServerDone)]%N ∅)
    = Ret ([mkTag 7 ServerDone]%N, ∅) ∧
  store_get_all [1; 1]%N (store_make_all [(1, mkTag 7 ServerDone)]%N ∅)
    = Fault (runtime_error "provided tag does not exist in the map").
Proof.
  apply (example_tags_redeemed_once [(1, mkTag 7 ServerDone)]%N [(1, mkTag 7 ServerDone)]%N 1%N).
  - vm_compute. repeat constructor; set_solver.
  - done.
  - vm_compute. by left.
Defined.

End ExampleTagger.
