(* ===== verification/ExampleAsyncServer.v ===== *)
(** * The asynchronous server of the examples

    [src/example/src/server/async_server.hpp], [rpc.hpp], [connections.hpp] and
    [unary_rpc_handler.hpp]: a server that does everything on one thread, fed by
    a queue of initialization tasks and then by gRPC's completion queue, with
    one handler object per call. Steps of different threads interleave; a
    critical section of [shutdown_mutex_] is one step, except for the
    destructor, which waits for gRPC while it holds the mutex. *)
From S2P Require Import Prelude Tag ExampleTagger StreamRpcHandler.

Module ExampleAsyncServer.
Import ExampleTagger.

(** [allocator_ok] of [StreamRpcHandler.v] describes [operator new]. *)
Abbreviation allocator_ok := StreamRpcHandler.allocator_ok.

(** [std::thread::id] *)
Inductive thread_id : Type := RunThread | OwnerThread | UserThread.

#[global] Instance thread_id_eq_dec : EqDecision thread_id.
Proof. solve_decision. Defined.

(** [UnaryRpcHandler]: the members that handlers differ in. The connection is
    known to gRPC by the address of the handler. *)
Record handler : Type := mkHandler { parent_thread_id_ : thread_id; register_rpc_ : nat }.

(** The tasks of [initialization_queue_]. *)
Inductive task : Type :=
| BuildServer
| SetShutdownPointers
| RegisterRpc (rpc : nat)
| NoTask. (* [nullptr] *)

Inductive run_pc : Type := Initializing | Serving | Returned.

Inductive owner_pc : Type :=
| Alive
| ShuttingDown (* in [shutdown_server_->Shutdown()], holding the mutex *)
| Joining
| Destroyed.

(** [accepted] and [writers] belong to gRPC and to the user: the tags of the
    calls that have arrived, and the handlers whose [UnaryWriter] the user still
    has to [finish]. [registered] records the rpcs registered so far. *)
Record state : Type := mkState {
  initialization_queue_ : list task;
  server_ : bool;
  shutdown_server_ : bool; (* whether the pointers are set *)
  data_ : gmap addr handler;
  tags_ : gmap addr Tag;
  running_ : bool;
  shutdown_mutex_ : option thread_id;
  run_thread_ : run_pc;
  owner : owner_pc;
  server_shutdown : bool;
  queue_shutdown : bool;
  accepted : gset addr;
  writers : gset addr;
  registered : list nat;
  crashed : option fault
}.

(** The constructor. *)
Definition init : state :=
  mkState [BuildServer; SetShutdownPointers] false false ∅ ∅ false None Initializing Alive
    false false ∅ ∅ [] None.

Definition crash (e : fault) (s : state) : state :=
  mkState (initialization_queue_ s) (server_ s) (shutdown_server_ s) (data_ s) (tags_ s)
    (running_ s) (shutdown_mutex_ s) (run_thread_ s) (owner s) (server_shutdown s)
    (queue_shutdown s) (accepted s) (writers s) (registered s) (Some e).
Definition with_queue (q : list task) (running : bool) (s : state) : state :=
  mkState q (server_ s) (shutdown_server_ s) (data_ s) (tags_ s)
    running (shutdown_mutex_ s) (run_thread_ s) (owner s) (server_shutdown s)
    (queue_shutdown s) (accepted s) (writers s) (registered s) (crashed s).
Definition with_server (server pointers : bool) (s : state) : state :=
  mkState (initialization_queue_ s) server pointers (data_ s) (tags_ s)
    (running_ s) (shutdown_mutex_ s) (run_thread_ s) (owner s) (server_shutdown s)
    (queue_shutdown s) (accepted s) (writers s) (registered s) (crashed s).
Definition with_data (d : gmap addr handler) (t : gmap addr Tag) (s : state) : state :=
  mkState (initialization_queue_ s) (server_ s) (shutdown_server_ s) d t
    (running_ s) (shutdown_mutex_ s) (run_thread_ s) (owner s) (server_shutdown s)
    (queue_shutdown s) (accepted s) (writers s) (registered s) (crashed s).
Definition with_threads (m : option thread_id) (r : run_pc) (o : owner_pc) (sh qs : bool)
    (s : state) : state :=
  mkState (initialization_queue_ s) (server_ s) (shutdown_server_ s) (data_ s) (tags_ s)
    (running_ s) m r o sh qs (accepted s) (writers s) (registered s) (crashed s).
Definition with_calls (a w : gset addr) (s : state) : state :=
  mkState (initialization_queue_ s) (server_ s) (shutdown_server_ s) (data_ s) (tags_ s)
    (running_ s) (shutdown_mutex_ s) (run_thread_ s) (owner s) (server_shutdown s)
    (queue_shutdown s) a w (registered s) (crashed s).
Definition with_registered (r : list nat) (s : state) : state :=
  mkState (initialization_queue_ s) (server_ s) (shutdown_server_ s) (data_ s) (tags_ s)
    (running_ s) (shutdown_mutex_ s) (run_thread_ s) (owner s) (server_shutdown s)
    (queue_shutdown s) (accepted s) (writers s) r (crashed s).

(** Addresses in use. *)
Definition live (s : state) : gset addr := {[nullptr]} ∪ dom (data_ s) ∪ dom (tags_ s).

(** [queue_rpc] with [queue_handler]: the handler is stored and asks gRPC for a
    call under a new tag. *)
Definition queue_rpc (alloc : gset addr → addr) (h : handler) (s : state) : state :=
  let rpc_ptr := alloc (live s) in
  let '(_, tags) := make_tag (alloc ({[rpc_ptr]} ∪ live s)) rpc_ptr ServerNewRpc (tags_ s) in
  with_data (emplace rpc_ptr h (data_ s)) tags s.

(** [clone] copies every member. *)
Definition clone (h : handler) : handler := mkHandler (parent_thread_id_ h) (register_rpc_ h).

(** [finish] and [finish_with_error], called by the thread [current] when the
    mutex is held by [held]: [None] if the call has to wait for the mutex. *)
Definition finish (current : thread_id) (held : option thread_id) (alloc : gset addr → addr)
    (p : addr) (h : handler) (s : state) : option (outcome state) :=
  let send := with_data (data_ s) (make_tag (alloc (live s)) p ServerDone (tags_ s)).2 s in
  if decide (parent_thread_id_ h ≠ current) then
    match held with
    | None => Some (Ret send)
    | Some holder => if decide (holder = current) then Some (Fault relock) else None
    end
  else Some (Ret send).

Section System.
(** Whether the user's callback answers before it returns, or keeps the writer. *)
Context (answers_now : bool).

(** [invoke_user_callback], on the server's thread, which holds the mutex. *)
Definition invoke_user_callback (alloc : gset addr → addr) (p : addr) (h : handler) (s : state)
    : option (outcome state) :=
  if answers_now then finish RunThread (Some RunThread) alloc p h s
  else Some (Ret (with_calls (accepted s) ({[p]} ∪ writers s) s)).

Definition erase (p : addr) (s : state) : state := with_data (delete p (data_ s)) (tags_ s) s.

(** The body of the loop of [run] after [Next] has returned. *)
Definition process (received_tag : addr) (completed_successfully : bool)
    (alloc : gset addr → addr) (s : state) : option (outcome state) :=
  match get_tag received_tag (tags_ s) with
  | Fault e => Some (Fault e)
  | Ret (tag, tags) =>
      let s := with_data (data_ s) tags s in
      if completed_successfully then
        match label tag with
        | ServerNewRpc =>
            match data_ s !! data tag with
            | None => Some (Fault use_after_free)
            | Some rpc => invoke_user_callback alloc (data tag) rpc (queue_rpc alloc (clone rpc) s)
            end
        | ServerWriting => Some (Ret s)
        | ServerDone => Some (Ret (erase (data tag) s))
        | ClientConnectionChange | ClientFinished =>
            Some (Fault (runtime_error "Don't use client tags in the server ya dummy"))
        end
      else Some (Ret (erase (data tag) s))
  end.

(** [register_async]: the result, and the task it adds. *)
Definition register_async (rpc : nat) (s : state) : outcome state :=
  if running_ s then Fault (runtime_error "Cannot register functions after starting the server")
  else Ret (with_queue (initialization_queue_ s ++ [RegisterRpc rpc]) (running_ s) s).

Definition start (s : state) : state :=
  with_queue (initialization_queue_ s ++ [NoTask]) true s.

(** An initialization task, with the mutex held. gRPC must not be asked for a call
    on a queue that was shut down. *)
Definition run_task (alloc : gset addr → addr) (t : task) (s : state) : state :=
  match t with
  | BuildServer => with_server true (shutdown_server_ s) s
  | SetShutdownPointers =>
      if server_ s then with_server (server_ s) true s else crash null_dereference s
  | RegisterRpc rpc =>
      if negb (server_ s) then crash null_dereference s
      else if queue_shutdown s then crash queue_shut_down s
      else with_registered (rpc :: registered s) (queue_rpc alloc (mkHandler RunThread rpc) s)
  | NoTask => with_threads (shutdown_mutex_ s) Serving (owner s) (server_shutdown s) (queue_shutdown s) s
  end.

Inductive action : Type :=
| RegisterAsync (rpc : nat)
| Start
| Destructor
| ShutdownReturns
| Join
| RunTask (alloc : gset addr → addr)
| Next (received_tag : addr) (completed_successfully : bool) (alloc : gset addr → addr)
| RunExit
| UserFinish (p : addr) (alloc : gset addr → addr)
| Arrive (tag : addr).

(** What gRPC may report: a call that has arrived, a request for a call that is
    given up after the shutdown, or the end of an answer with either result. *)
Definition deliverable (received_tag : addr) (ok : bool) (s : state) : bool :=
  match tags_ s !! received_tag with
  | Some (mkTag _ ServerNewRpc) =>
      if ok then bool_decide (received_tag ∈ accepted s)
      else server_shutdown s && bool_decide (received_tag ∉ accepted s)
  | Some _ => true
  | None => false
  end.

Definition settle (s : state) (r : option (outcome state)) : option state :=
  match r with
  | Some (Ret s') => Some s'
  | Some (Fault e) => Some (crash e s)
  | None => None
  end.

Definition is_free (s : state) : bool := bool_decide (shutdown_mutex_ s = None).

Definition exec_live (s : state) (a : action) : option state :=
  match a with
  | RegisterAsync rpc =>
      match owner s with
      | Alive => match register_async rpc s with Ret s' => Some s' | Fault _ => Some s end
      | _ => None
      end
  | Start => match owner s with Alive => Some (start s) | _ => None end
  | Destructor =>
      match owner s with
      | Alive =>
          if is_free s then
            if shutdown_server_ s then
              Some (with_threads (Some OwnerThread) (run_thread_ s) ShuttingDown true (queue_shutdown s) s)
            else Some (crash null_dereference s)
          else None
      | _ => None
      end
  | ShutdownReturns =>
      match owner s with
      | ShuttingDown =>
          if bool_decide (accepted s = ∅) && bool_decide (writers s = ∅) then
            Some (with_threads None (run_thread_ s) Joining (server_shutdown s) true s)
          else None
      | _ => None
      end
  | Join =>
      match owner s, run_thread_ s with
      | Joining, Returned =>
          Some (with_threads None Returned Destroyed (server_shutdown s) (queue_shutdown s) s)
      | _, _ => None
      end
  | RunTask alloc =>
      match run_thread_ s, initialization_queue_ s with
      | Initializing, t :: ts =>
          if is_free s || (match t with NoTask => true | _ => false end)
          then Some (run_task alloc t (with_queue ts (running_ s) s)) else None
      | _, _ => None
      end
  | Next received_tag ok alloc =>
      match run_thread_ s with
      | Serving =>
          if is_free s && deliverable received_tag ok s then
            let s := with_calls (accepted s ∖ {[received_tag]}) (writers s) s in
            settle s (process received_tag ok alloc s)
          else None
      | _ => None
      end
  | RunExit =>
      match run_thread_ s with
      | Serving =>
          if queue_shutdown s && bool_decide (tags_ s = ∅)
          then Some (with_threads (shutdown_mutex_ s) Returned (owner s) (server_shutdown s)
                       (queue_shutdown s) s)
          else None
      | _ => None
      end
  | UserFinish p alloc =>
      if bool_decide (p ∈ writers s) then
        let s' := with_calls (accepted s) (writers s ∖ {[p]}) s in
        match data_ s !! p with
        | Some h => settle s (finish UserThread (shutdown_mutex_ s) alloc p h s')
        | None => Some (crash use_after_free s)
        end
      else None
  | Arrive tag =>
      match tags_ s !! tag with
      | Some (mkTag _ ServerNewRpc) =>
          if negb (server_shutdown s) && bool_decide (tag ∉ accepted s)
          then Some (with_calls ({[tag]} ∪ accepted s) (writers s) s) else None
      | _ => None
      end
  end.

Definition exec (s : state) (a : action) : option state :=
  match crashed s with Some _ => None | None => exec_live s a end.

Definition action_ok (a : action) : Prop :=
  match a with
  | RunTask alloc | Next _ _ alloc | UserFinish _ alloc => allocator_ok alloc
  | _ => True
  end.

Abbreviation reach := (reachable (λ s, s = init) (exec_step_ok exec action_ok)).

(** ** The handlers and their tags *)

(** Every handler is awaited by gRPC under one tag, or its writer is with the
    user; all of them belong to the server's thread. *)
Record calls_ok (d : gmap addr handler) (t : gmap addr Tag) (w : gset addr) : Prop := mkCallsOk {
  co_tag k p l : t !! k = Some (mkTag p l) →
    (l = ServerNewRpc ∨ l = ServerDone) ∧ is_Some (d !! p) ∧ p ∉ w;
  co_unique k1 k2 p l1 l2 : t !! k1 = Some (mkTag p l1) → t !! k2 = Some (mkTag p l2) → k1 = k2;
  co_writer p : p ∈ w → is_Some (d !! p);
  co_parent p h : d !! p = Some h → parent_thread_id_ h = RunThread
}.

(** A handler that nobody knows about. *)
Definition loose (p : addr) (t : gmap addr Tag) (w : gset addr) : Prop :=
  (∀ k l, t !! k ≠ Some (mkTag p l)) ∧ p ∉ w.

(** Some handler waits for a call of the rpc [r]. *)
Definition waiting (r : nat) (d : gmap addr handler) (t : gmap addr Tag) : Prop :=
  ∃ k p h, t !! k = Some (mkTag p ServerNewRpc) ∧ d !! p = Some h ∧ register_rpc_ h = r.

Lemma calls_ok_new d t w p k h :
  calls_ok d t w → d !! p = None → t !! k = None → parent_thread_id_ h = RunThread →
  calls_ok (<[p := h]> d) (<[k := mkTag p ServerNewRpc]> t) w ∧
  waiting (register_rpc_ h) (<[p := h]> d) (<[k := mkTag p ServerNewRpc]> t) ∧
  (∀ r, waiting r d t → waiting r (<[p := h]> d) (<[k := mkTag p ServerNewRpc]> t)).
Proof.
  intros [H1 H2 H3 H4] Hp Hk Hh.
  assert (∀ k l, t !! k ≠ Some (mkTag p l)) as Hno.
  { intros k' l Hk'. destruct (H1 _ _ _ Hk') as (_ & [? ?] & _). congruence. }
  split_and!.
  - constructor.
    + intros k' p' l [[<- [= <- <-]]|[Hne Hk']]%lookup_insert_Some.
      * split_and!; [by left|rewrite lookup_insert_eq; by eexists|].
        intros Hw. destruct (H3 _ Hw) as [? ?]. congruence.
      * destruct (H1 _ _ _ Hk') as (? & [? ?] & ?). split_and!; [done| |done].
        rewrite lookup_insert_ne; [by eexists|]. intros <-. by destruct (Hno k' l).
    + intros k1 k2 p' l1 l2 [[<- [= <- <-]]|[? Hk1]]%lookup_insert_Some
        [[<- [= ?]]|[? Hk2]]%lookup_insert_Some; subst; try done.
      * by destruct (Hno k2 l2).
      * by destruct (Hno k1 l1).
      * by eapply H2.
    + intros p' Hw. destruct (decide (p = p')) as [<-|]; [rewrite lookup_insert_eq; by eexists|].
      rewrite lookup_insert_ne by done. by apply H3.
    + intros p' h' [[<- <-]|[? ?]]%lookup_insert_Some; [done|by eapply H4].
  - exists k, p, h. by rewrite !lookup_insert_eq.
  - intros r (k' & p' & h' & Hk' & Hp' & Hr). exists k', p', h'.
    rewrite !lookup_insert_ne; [done|congruence..].
Qed.

Lemma calls_ok_take d t w k p l :
  calls_ok d t w → t !! k = Some (mkTag p l) →
  calls_ok d (delete k t) w ∧ loose p (delete k t) w ∧ is_Some (d !! p) ∧
  (∀ r h, waiting r d t → (l = ServerNewRpc → d !! p = Some h → register_rpc_ h ≠ r) →
     d !! p = Some h → waiting r d (delete k t)).
Proof.
  intros [H1 H2 H3 H4] Hk. destruct (H1 _ _ _ Hk) as (? & ? & ?). split_and!; try done.
  - constructor; [| |done..].
    + intros k' p' l' [? ?]%lookup_delete_Some. eauto.
    + intros k1 k2 p' l1 l2 [? ?]%lookup_delete_Some [? ?]%lookup_delete_Some. eauto.
  - split; [|done]. intros k' l' [Hne Hk']%lookup_delete_Some. by apply Hne, (H2 _ _ p l l').
  - intros r h (k' & p' & h' & Hk' & Hp' & Hr) Hl Hh. exists k', p', h'. split_and!; [|done..].
    rewrite lookup_delete_ne; [done|]. intros <-. rewrite Hk in Hk'.
    injection Hk' as <- ->. rewrite Hp' in Hh. injection Hh as <-. by apply Hl.
Qed.

Lemma calls_ok_done d t w p k :
  calls_ok d t w → is_Some (d !! p) → loose p t w → t !! k = None →
  calls_ok d (<[k := mkTag p ServerDone]> t) w ∧
  (∀ r, waiting r d t → waiting r d (<[k := mkTag p ServerDone]> t)).
Proof.
  intros [H1 H2 H3 H4] Hp [Hno Hw] Hk. split; [constructor; [| |done..]|].
  - intros k' p' l [[<- [= <- <-]]|[? ?]]%lookup_insert_Some; [|eauto].
    split_and!; [by right|done..].
  - intros k1 k2 p' l1 l2 [[<- [= <- <-]]|[? Hk1]]%lookup_insert_Some
      [[<- [= ?]]|[? Hk2]]%lookup_insert_Some; subst; try done.
    + by destruct (Hno k2 l2).
    + by destruct (Hno k1 l1).
    + by eapply H2.
  - intros r (k' & p' & h' & Hk' & ? & ?). exists k', p', h'.
    rewrite lookup_insert_ne; [done|congruence].
Qed.

Lemma calls_ok_erase d t w p :
  calls_ok d t w → loose p t w →
  calls_ok (delete p d) t w ∧ (∀ r, waiting r d t → waiting r (delete p d) t).
Proof.
  intros [H1 H2 H3 H4] [Hno Hw]. split; [constructor; [|done| |]|].
  - intros k p' l Hk. destruct (H1 _ _ _ Hk) as (? & ? & ?). split_and!; [done| |done].
    rewrite lookup_delete_ne; [done|]. intros <-. by destruct (Hno k l).
  - intros p' Hp'. rewrite lookup_delete_ne; [by apply H3|congruence].
  - intros p' h [? ?]%lookup_delete_Some. eauto.
  - intros r (k & p' & h' & Hk & ? & ?). exists k, p', h'.
    rewrite lookup_delete_ne; [done|]. intros <-. by destruct (Hno k ServerNewRpc).
Qed.

Lemma calls_ok_writer d t w p :
  calls_ok d t w → loose p t w → is_Some (d !! p) → calls_ok d t ({[p]} ∪ w).
Proof.
  intros [H1 H2 H3 H4] [Hno Hw] Hp. constructor; [|done| |done].
  - intros k p' l Hk. destruct (H1 _ _ _ Hk) as (? & ? & ?). split_and!; [done..|].
    assert (p' ≠ p) by (intros ->; by destruct (Hno k l)). set_solver.
  - intros p' [->%elem_of_singleton|?]%elem_of_union; [done|]. by apply H3.
Qed.

Lemma calls_ok_finished d t w p :
  calls_ok d t w → p ∈ w → calls_ok d t (w ∖ {[p]}) ∧ loose p t (w ∖ {[p]}) ∧ is_Some (d !! p).
Proof.
  intros [H1 H2 H3 H4] Hp. split_and!; [constructor; [|done| |done]|..].
  - intros k p' l Hk. destruct (H1 _ _ _ Hk) as (? & ? & ?). split_and!; [done..|set_solver].
  - intros p' Hp'. apply H3. set_solver.
  - split; [|set_solver]. intros k l Hk. by destruct (H1 _ _ _ Hk) as (_ & _ & ?).
  - by apply H3.
Qed.

(** ** Invariant *)
Record inv (s : state) : Prop := mkInv {
  inv_calls : calls_ok (data_ s) (tags_ s) (writers s);
  inv_server : server_ s = true ∨ ∃ q, initialization_queue_ s = BuildServer :: q;
  inv_waiting r : r ∈ registered s → server_shutdown s = false →
    waiting r (data_ s) (tags_ s);
  inv_mutex : shutdown_mutex_ s ≠ Some UserThread
}.

Lemma example_init_inv : inv init.
Proof.
  constructor; simpl.
  - by constructor.
  - right. by eexists.
  - intros r ?%elem_of_nil. done.
  - done.
Qed.

(** Two fresh addresses for a handler and its tag. *)
Lemma queue_rpc_ok alloc h s :
  allocator_ok alloc → calls_ok (data_ s) (tags_ s) (writers s) → parent_thread_id_ h = RunThread →
  ∃ d t, queue_rpc alloc h s = with_data d t s ∧ calls_ok d t (writers s) ∧
    waiting (register_rpc_ h) d t ∧
    (∀ r, waiting r (data_ s) (tags_ s) → waiting r d t) ∧
    (∀ p, loose p (tags_ s) (writers s) → is_Some (data_ s !! p) →
       loose p t (writers s) ∧ d !! p = data_ s !! p).
Proof.
  intros Hal Hc Hh. unfold queue_rpc.
  pose proof (Hal (live s)) as Hp. pose proof (Hal ({[alloc (live s)]} ∪ live s)) as Hk.
  set (p := alloc (live s)) in *. set (k := alloc ({[p]} ∪ live s)) in *. unfold live in *.
  assert (data_ s !! p = None) as Hp' by (apply not_elem_of_dom; set_solver).
  assert (tags_ s !! k = None) as Hk' by (apply not_elem_of_dom; set_solver).
  rewrite make_tag_new, emplace_fresh by done.
  destruct (calls_ok_new _ _ _ p k h Hc Hp' Hk' Hh) as (H1 & H2 & H3).
  do 2 eexists. split_and!; [done..|]. intros q [Hno Hw] [hq Hq].
  assert (q ≠ p) by congruence. split; [split; [|done]|by rewrite lookup_insert_ne].
  intros k' l [[<- [= ? ?]]|[? Hk1]]%lookup_insert_Some; [congruence|]. by apply (Hno k' l).
Qed.

Lemma finish_ok current held alloc p h s :
  allocator_ok alloc → calls_ok (data_ s) (tags_ s) (writers s) →
  loose p (tags_ s) (writers s) → data_ s !! p = Some h →
  current = RunThread ∨ held = None →
  ∃ t, finish current held alloc p h s = Some (Ret (with_data (data_ s) t s)) ∧
    calls_ok (data_ s) t (writers s) ∧
    (∀ r, waiting r (data_ s) (tags_ s) → waiting r (data_ s) t).
Proof.
  intros Hal Hc Hl Hh Hcur. unfold finish. rewrite (co_parent _ _ _ Hc p h Hh).
  pose proof (Hal (live s)) as Hk. set (k := alloc (live s)) in *. unfold live in Hk.
  assert (tags_ s !! k = None) as Hk' by (apply not_elem_of_dom; set_solver).
  rewrite make_tag_new by done.
  destruct (calls_ok_done _ _ _ p k Hc ltac:(by eexists) Hl Hk') as [H1 H2].
  eexists. split_and!; [|exact H1|exact H2].
  destruct (decide (RunThread ≠ current)); [|done]. destruct Hcur as [Hcur|Hcur]; congruence || by rewrite Hcur.
Qed.

Lemma inv_data s d t w :
  inv s → calls_ok d t w →
  (∀ r, r ∈ registered s → server_shutdown s = false → waiting r d t) →
  inv (with_data d t (with_calls (accepted s) w s)).
Proof. intros [_ H2 _ H4] Hc Hw. by constructor. Qed.

Lemma process_inv k p l ok alloc s :
  inv s → allocator_ok alloc → tags_ s !! k = Some (mkTag p l) →
  (ok = false → l = ServerNewRpc → server_shutdown s = true) →
  ∃ s', process k ok alloc s = Some (Ret s') ∧ inv s' ∧ crashed s' = crashed s.
Proof.
  intros [Hc Hs Hw Hm] Hal Hk Hrej. destruct (co_tag _ _ _ Hc k p l Hk) as (Hl & [h Hh] & _).
  destruct (calls_ok_take _ _ _ k p l Hc Hk) as (Hc1 & Hloose & _ & Hwait).
  destruct (calls_ok_erase _ _ _ p Hc1 Hloose) as [Hce Hwe].
  unfold process, get_tag. rewrite Hk. simpl. destruct ok.
  - destruct Hl as [-> | ->].
    + rewrite Hh.
      set (s1 := with_data (data_ s) (delete k (tags_ s)) s).
      destruct (queue_rpc_ok alloc (clone h) s1 Hal Hc1) as (d & t & -> & Hc2 & Hnew & Hold & Hkeep).
      { apply (co_parent _ _ _ Hc p h Hh). }
      destruct (Hkeep p Hloose ltac:(by eexists)) as [Hloose2 Hdp]. simpl in Hdp. rewrite Hh in Hdp.
      assert (∀ r, r ∈ registered s → server_shutdown s = false → waiting r d t) as Hw2.
      { intros r Hr Hsh. destruct (decide (register_rpc_ h = r)) as [<-|Hne]; [done|].
        apply Hold, (Hwait r h); [by apply Hw|by intros _ _|done]. }
      unfold invoke_user_callback. destruct answers_now.
      * destruct (finish_ok RunThread (Some RunThread) alloc p h (with_data d t s1) Hal Hc2 Hloose2 Hdp)
          as (t' & -> & Hc3 & Hw3); [by left|].
        eexists. split_and!; [done| |done]. constructor; simpl; auto.
      * eexists. split_and!; [done| |done]. constructor; simpl; auto.
        apply calls_ok_writer; [done..|by rewrite Hdp].
    + eexists. split_and!; [done| |done]. constructor; simpl; auto.
      intros r Hr Hsh. apply Hwe, (Hwait r h); [by apply Hw|done|done].
  - eexists. split_and!; [done| |done]. constructor; simpl; auto.
    intros r Hr Hsh. apply Hwe, (Hwait r h); [by apply Hw| |done].
    intros -> _ _. rewrite Hrej in Hsh; done.
Qed.

(** Why a step may fail: only because the destructor runs before the
    initialization tasks have been run. *)
Definition early (s : state) : Prop :=
  crashed s = Some null_dereference ∧ shutdown_server_ s = false ∨
  crashed s = Some queue_shut_down ∧ queue_shutdown s = true ∧ run_thread_ s = Initializing.

Lemma exec_live_example s a s' :
  inv s → crashed s = None → action_ok a → exec_live s a = Some s' →
  (inv s' ∧ crashed s' = None) ∨ early s'.
Proof.
  intros Hi Hcr Ha H. pose proof Hi as [Hc Hs Hw Hm].
  destruct a as [rpc| | | | |alloc|k ok alloc| |p alloc|k]; simpl in H.
  - left. destruct (owner s); try done. unfold register_async in H. destruct (running_ s);
      injection H as <-; [done|]. split; [|done]. constructor; simpl; auto.
    destruct Hs as [?|[q ->]]; [by left|right; by eexists].
  - left. destruct (owner s); try done. injection H as <-. split; [|done].
    constructor; simpl; auto. destruct Hs as [?|[q ->]]; [by left|right; by eexists].
  - destruct (owner s); try done. destruct (is_free s); [|done].
    destruct (shutdown_server_ s) eqn:Esp; injection H as <-; [left|by right; left].
    split; [|done]. by constructor.
  - left. destruct (owner s); try done.
    destruct (bool_decide _ && bool_decide _); [|done]. injection H as <-. split; [|done]. by constructor.
  - left. destruct (owner s), (run_thread_ s); simplify_eq. split; [|done]. by constructor.
  - destruct (run_thread_ s) eqn:Ert; try done. destruct (initialization_queue_ s) as [|t ts] eqn:Eq; [done|].
    destruct (is_free s || _); [|done]. injection H as <-. destruct t; simpl; [left..| |left].
    + split; [|done]. constructor; simpl; auto.
    + destruct Hs as [Hs|[q [= ]]]. rewrite Hs. split; [|done]. constructor; simpl; auto.
    + destruct Hs as [Hs|[q [= ]]]. rewrite Hs. simpl.
      destruct (queue_shutdown s) eqn:Eqs; [right; right; by split_and!|left].
      destruct (queue_rpc_ok alloc (mkHandler RunThread rpc) (with_queue ts (running_ s) s) Ha Hc eq_refl)
        as (d & t & -> & Hc2 & Hnew & Hold & _).
      split; [|done]. constructor; simpl; [done|by left| |done].
      intros r [->|Hr]%elem_of_cons Hsh; [done|]. by apply Hold, Hw.
    + destruct Hs as [Hs|[q [= ]]]. split; [|done]. constructor; simpl; auto.
  - left. destruct (run_thread_ s); try done.
    destruct (is_free s); [|done]. destruct (deliverable k ok s) eqn:Ed; [|done]. simpl in H.
    unfold deliverable in Ed. destruct (tags_ s !! k) as [[p l]|] eqn:Ek; [|done].
    destruct (process_inv k p l ok alloc (with_calls (accepted s ∖ {[k]}) (writers s) s))
      as (s1 & E1 & Hi1 & Hc1); [by constructor|done|done| |].
    { simpl. intros -> ->. by apply andb_true_iff in Ed as [? _]. }
    rewrite E1 in H. injection H as <-. split; [done|]. by rewrite Hc1.
  - left. destruct (run_thread_ s); try done.
    destruct (queue_shutdown s && _); [|done]. injection H as <-. split; [|done]. by constructor.
  - left. destruct (bool_decide_reflect (p ∈ writers s)) as [Hp|]; [|done].
    destruct (calls_ok_finished _ _ _ p Hc Hp) as (Hc1 & Hloose & [h Hh]). rewrite Hh in H.
    destruct (shutdown_mutex_ s) as [m|] eqn:Em.
    + unfold finish in H. rewrite (co_parent _ _ _ Hc p h Hh) in H. simpl in H.
      destruct (decide (m = UserThread)) as [->|]; [|done].
      done.
    + destruct (finish_ok UserThread None alloc p h (with_calls (accepted s) (writers s ∖ {[p]}) s) Ha
        Hc1 Hloose Hh) as (t & E1 & Hc2 & Hw2); [by right|].
      rewrite E1 in H.
      injection H as <-. split; [|done]. constructor; simpl; auto. by rewrite Em.
  - left. destruct (tags_ s !! k) as [[p []]|]; try done.
    destruct (negb _ && _); [|done]. injection H as <-. split; [|done]. by constructor.
Qed.

(** ** Properties *)

Lemma reach_example s : reach s → (inv s ∧ crashed s = None) ∨ early s.
Proof.
  intros Hr. induction Hr as [s ->|s a s' _ IH [Ha H]]; [left; split; [apply example_init_inv|done]|].
  unfold exec in H. destruct IH as [[Hi Hc]|[[Hc _]|[Hc _]]]; rewrite Hc in H; [|done..].
  by eapply exec_live_example.
Qed.

(** C30: the server never uses a handler after it was erased, never redeems an
    unknown tag, never sees a tag of a client, and its callback never locks the
    mutex the server already holds, whether the user answers at once or later
    from another thread, and in whatever order calls, answers and the shutdown
    are reported. The only failures are a destructor that runs before the
    initialization tasks have set its pointers, and a registration that is left
    when it has shut the queue down. Every outstanding tag belongs to
    a stored handler, at most one per handler, and every rpc that has been
    registered has a handler that waits for its next call, until the shutdown. *)
Theorem registered_rpc_always_waiting s :
  reach s →
  (crashed s = None ∨ crashed s = Some null_dereference ∧ shutdown_server_ s = false ∨
   crashed s = Some queue_shut_down ∧ queue_shutdown s = true ∧ run_thread_ s = Initializing) ∧
  (crashed s = None →
   (∀ k1 k2 p l1 l2, tags_ s !! k1 = Some (mkTag p l1) → tags_ s !! k2 = Some (mkTag p l2) →
      k1 = k2 ∧ is_Some (data_ s !! p)) ∧
   ∀ r, r ∈ registered s → server_shutdown s = false → waiting r (data_ s) (tags_ s)).
Proof.
  intros Hr. destruct (reach_example s Hr) as [[[Hc _ Hw _] Hcr]|Hcr].
  - split; [by left|]. intros _. split; [|done]. intros k1 k2 p l1 l2 H1 H2.
    split; [by eapply (co_unique _ _ _ Hc)|]. by apply (co_tag _ _ _ Hc k1 p l1 H1).
  - split; [by right|]. destruct Hcr as [[? _]|[? _]]; congruence.
Qed.

End System.
(** ** Concrete runs *)

Definition demo_exec := exec true.
Definition demo (ls : list action) : state := default init (run demo_exec init ls).

Abbreviation demo_reach := (reachable (λ s, s = init) (exec_step_ok demo_exec action_ok)).

Lemma example_demo_reachable ls :
  Forall action_ok ls → is_Some (run demo_exec init ls) → demo_reach (demo ls).
Proof. intros Hok [s Hs]. unfold demo. rewrite Hs. by eapply run_reachable_ok. Qed.

Ltac solve_demo :=
  apply example_demo_reachable;
  [repeat constructor; intros ?; apply next_address_fresh|vm_compute; by eexists].

Lemma no_call_after_shutdown b s k : server_shutdown s = true → exec b s (Arrive k) = None.
Proof.
  intros Hs. unfold exec. destruct (crashed s); [done|]. simpl. rewrite Hs.
  by destruct (tags_ s !! k) as [[p []]|].
Qed.

(** One rpc is registered and the server started; a call arrives. *)
Definition started : list action :=
  [RunTask next_address; RunTask next_address; RegisterAsync 4; Start;
   RunTask next_address; RunTask next_address].
Definition called : list action := started ++ [Arrive 2%N].

(** The destructor can wait for good: it holds [shutdown_mutex_] while
    gRPC's [Shutdown] waits for the calls to end, and the server's thread needs
    this mutex to answer a call that has arrived. No step of the program or of
    gRPC is possible in the state reached. *)
Theorem shutdown_waits_for_its_own_mutex :
  ∃ s, demo_reach s ∧ crashed s = None ∧ owner s = ShuttingDown ∧ accepted s ≠ ∅ ∧
    ∀ a, demo_exec s a = None.
Proof.
  exists (demo (called ++ [Destructor])). split_and!; [solve_demo|vm_compute; done..|].
  intros [rpc| | | | |alloc|k ok alloc| |p alloc|k]; try (vm_compute; done).
  apply no_call_after_shutdown. vm_compute. done.
Qed.

(** The destructor of a server that was never started waits for good: its
    thread is still in [initialization_queue_.pop_front()]. *)
Theorem unstarted_server_waits_forever :
  ∃ s, demo_reach s ∧ crashed s = None ∧ owner s = Joining ∧ run_thread_ s = Initializing ∧
    ∀ a, demo_exec s a = None.
Proof.
  set (ls := [RunTask next_address; RunTask next_address; Destructor; ShutdownReturns]).
  exists (demo ls). split_and!; [solve_demo|vm_compute; done..|].
  intros [rpc| | | | |alloc|k ok alloc| |p alloc|k]; try (vm_compute; done).
Qed.

Lemma registered_rpc_always_waiting_witness :
  4 ∈ registered (demo (called ++ [Next 2 true next_address]%N)) ∧
  waiting 4 (data_ (demo (called ++ [Next 2 true next_address]%N)))
    (tags_ (demo (called ++ [Next 2 true next_address]%N))).
Proof.
  split; [vm_compute; left|].
  apply (registered_rpc_always_waiting true).
  - solve_demo.
  - vm_compute. done.
  - vm_compute. left.
  - vm_compute. done.
Defined.

End ExampleAsyncServer.
