(* ===== verification/NewArchServer.v ===== *)
(** * The newer example server

    [main] of [src/example/src/server/new_arch_server.cpp] around the server of
    [ExampleAsyncServer.v]: one rpc is registered, whose callback answers before
    it returns, the server is started, and the server is destroyed once enter
    has been pressed. *)
From S2P Require Import Prelude Tag ExampleTagger StreamRpcHandler ExampleAsyncServer.

Module NewArchServer.
Import ExampleTagger ExampleAsyncServer.

Inductive main_pc : Type :=
| Register (* [server.register_async(...)] *)
| StartServer (* [server.start()] *)
| WaitForEnter (* [std::cin.ignore()] *)
| Destroy (* the destructor of [server] *)
| AwaitCalls
| JoinThread
| Exited.

Record state : Type := mkState { server : ExampleAsyncServer.state; main : main_pc }.

Definition init : state := mkState ExampleAsyncServer.init Register.

(** [Service::RequestGetServerTimeNow]. *)
Definition get_server_time_now : nat := 0.

Inductive action : Type :=
| Enter
| Server (a : ExampleAsyncServer.action).

(** The calls of [main]; the rest is done by the server's thread and gRPC. *)
Definition call_server (m : main_pc) (a : ExampleAsyncServer.action) : option main_pc :=
  match m, a with
  | Register, RegisterAsync rpc => if rpc =? get_server_time_now then Some StartServer else None
  | StartServer, Start => Some WaitForEnter
  | Destroy, Destructor => Some AwaitCalls
  | AwaitCalls, ShutdownReturns => Some JoinThread
  | JoinThread, Join => Some Exited
  | m, (RunTask _ | Next _ _ _ | RunExit | UserFinish _ _ | ExampleAsyncServer.Arrive _) => Some m
  | _, _ => None
  end.

Definition exec (s : state) (a : action) : option state :=
  match a with
  | Enter =>
      match main s, crashed (server s) with
      | WaitForEnter, None => Some (mkState (server s) Destroy)
      | _, _ => None
      end
  | Server b =>
      m ← call_server (main s) b;
      o ← ExampleAsyncServer.exec true (server s) b;
      Some (mkState o m)
  end.

Definition action_ok (a : action) : Prop :=
  match a with Server b => ExampleAsyncServer.action_ok b | Enter => True end.

Abbreviation reach := (reachable (λ s, s = init) (exec_step_ok exec action_ok)).

(** ** The server as a component *)

Lemma arch_server_reach s :
  reach s → reachable (λ s, s = ExampleAsyncServer.init)
    (exec_step_ok (ExampleAsyncServer.exec true) ExampleAsyncServer.action_ok) (server s).
Proof.
  apply (reachable_invariant _ _ (λ s, reachable (λ s, s = ExampleAsyncServer.init)
    (exec_step_ok (ExampleAsyncServer.exec true) ExampleAsyncServer.action_ok) (server s))).
  - intros ? ->. by constructor.
  - intros s1 [|b] s2 IH [Ha H]; simpl in H.
    + destruct (main s1), (crashed (server s1)); by simplify_eq/=.
    + destruct (call_server _ _); [|done]. simpl in H.
      destruct (ExampleAsyncServer.exec true (server s1) b) as [o|] eqn:E; [|done]. simplify_eq/=.
      eapply reachable_step; [done|]. by split.
Qed.

(** What only the owner changes. *)
Record same_owner (o o' : ExampleAsyncServer.state) : Prop := mkSame {
  same_pc : owner o' = owner o;
  same_shutdown : server_shutdown o' = server_shutdown o;
  same_queue : queue_shutdown o' = queue_shutdown o;
  same_mutex : shutdown_mutex_ o' = shutdown_mutex_ o;
  same_running : running_ o' = running_ o
}.

Definition background (b : ExampleAsyncServer.action) : bool :=
  match b with
  | RunTask _ | Next _ _ _ | RunExit | UserFinish _ _ | ExampleAsyncServer.Arrive _ => true
  | _ => false
  end.

Lemma finish_same current held alloc p h o o' :
  finish current held alloc p h o = Some (Ret o') →
  same_owner o o' ∧ writers o' = writers o ∧ accepted o' = accepted o ∧
  run_thread_ o' = run_thread_ o ∧ initialization_queue_ o' = initialization_queue_ o ∧
  shutdown_server_ o' = shutdown_server_ o ∧ registered o' = registered o.
Proof. unfold finish. repeat case_match; intros; simplify_eq; by split_and!. Qed.

Lemma process_same k ok alloc o o' :
  process true k ok alloc o = Some (Ret o') →
  same_owner o o' ∧ writers o' = writers o ∧ accepted o' = accepted o ∧
  run_thread_ o' = run_thread_ o ∧ initialization_queue_ o' = initialization_queue_ o ∧
  shutdown_server_ o' = shutdown_server_ o ∧ registered o' = registered o.
Proof.
  unfold process. destruct (get_tag _ _) as [[t tags]|]; [|done].
  destruct ok; [|intros [= <-]; by split_and!].
  destruct (label t); try done; try (intros [= <-]; by split_and!).
  destruct (_ !! data t) as [h|]; [|done]. unfold invoke_user_callback. intros H.
  apply finish_same in H as ([] & ? & ? & ? & ? & ? & ?). simpl in *. by split_and!.
Qed.

Lemma background_same o b o' :
  ExampleAsyncServer.exec true o b = Some o' → background b = true → writers o = ∅ →
  same_owner o o' ∧ writers o' = ∅ ∧ (server_shutdown o = true → accepted o' ⊆ accepted o).
Proof.
  unfold ExampleAsyncServer.exec. destruct (crashed o); [done|].
  destruct b as [| | | | |alloc|k ok alloc| |p alloc|k]; try done; simpl; intros H _ Hw.
  - destruct (run_thread_ o) eqn:Er; try done. destruct (initialization_queue_ o) as [|t ts]; [done|].
    destruct (_ || _); [|done]. injection H as <-.
    destruct t; simpl; try case_match; try case_match; by split_and!.
  - destruct (run_thread_ o) eqn:Er; try done. destruct (_ && _); [|done].
    unfold settle in H. destruct (process _ _ _ _ _) as [[o1|e]|] eqn:Hp; try done; injection H as <-.
    + apply process_same in Hp as ([] & Hw1 & Ha & _). simpl in *.
      split_and!; [done|congruence|]. intros _. rewrite Ha. set_solver.
    + split_and!; [done|done|]. simpl. set_solver.
  - destruct (run_thread_ o) eqn:Er; try done. destruct (_ && _); [|done]. injection H as <-.
    by split_and!.
  - rewrite Hw in H. rewrite bool_decide_false in H; [done|]. set_solver.
  - destruct (tags_ o !! k) as [[p []]|]; try done. destruct (negb _ && _) eqn:E; [|done].
    injection H as <-. split_and!; [done|done|]. intros Hs. by rewrite Hs in E.
Qed.

(** The initialization tasks are run in order. *)
Definition pointers_ok (o : ExampleAsyncServer.state) : Prop :=
  shutdown_server_ o = true ∨
  run_thread_ o = Initializing ∧
  ∃ q, initialization_queue_ o = SetShutdownPointers :: q ∨
       initialization_queue_ o = BuildServer :: SetShutdownPointers :: q.

Lemma background_pointers o b o' :
  ExampleAsyncServer.exec true o b = Some o' → background b = true →
  crashed o' = None → pointers_ok o → pointers_ok o'.
Proof.
  unfold ExampleAsyncServer.exec. destruct (crashed o); [done|].
  destruct b as [| | | | |alloc|k ok alloc| |p alloc|k]; try done; simpl; intros H _ Hcr Hp.
  - destruct (run_thread_ o) eqn:Er; try done.
    destruct Hp as [Hp|(_ & q & [Hq|Hq])].
    + destruct (initialization_queue_ o) as [|t ts]; [done|]. left.
      destruct (_ || _); [|done]. injection H as <-.
      destruct t; simpl; try case_match; try case_match; done.
    + rewrite Hq in H. destruct (_ || _); [|done]. injection H as <-. simpl in *.
      destruct (server_ o); [by left|done].
    + rewrite Hq in H. destruct (_ || _); [|done]. injection H as <-. right. simpl. eauto.
  - destruct (run_thread_ o) eqn:Er; try done. destruct (_ && _); [|done].
    unfold settle in H. destruct (process _ _ _ _ _) as [[o1|e]|] eqn:Hpr; try done; injection H as <-; [|done].
    apply process_same in Hpr as (_ & _ & _ & Hr & Hq & Hs & _).
    destruct Hp as [Hp|[Hp _]]; [left; by rewrite Hs|congruence].
  - destruct (run_thread_ o) eqn:Er; try done. destruct (_ && _); [|done]. injection H as <-.
    destruct Hp as [Hp|[Hp _]]; [by left|congruence].
  - destruct (bool_decide _); [|done]. destruct (data_ o !! p); [|by injection H as <-].
    unfold settle in H. destruct (finish _ _ _ _ _ _) as [[o1|e]|] eqn:Hf; try done; injection H as <-; [|done].
    apply finish_same in Hf as (_ & _ & _ & Hr & Hq & Hs & _).
    unfold pointers_ok. rewrite Hs, Hr, Hq. exact Hp.
  - destruct (tags_ o !! k) as [[p []]|]; try done. destruct (negb _ && _) eqn:E; [|done].
    injection H as <-. exact Hp.
Qed.

(** What the server is doing for [main]. *)
Definition owner_at (m : main_pc) (o : ExampleAsyncServer.state) : Prop :=
  match m with
  | Register | StartServer | WaitForEnter | Destroy =>
      owner o = Alive ∧ shutdown_mutex_ o = None ∧ server_shutdown o = false ∧ queue_shutdown o = false
  | AwaitCalls =>
      owner o = ShuttingDown ∧ shutdown_mutex_ o = Some OwnerThread ∧ server_shutdown o = true ∧
      queue_shutdown o = false
  | JoinThread =>
      owner o = Joining ∧ shutdown_mutex_ o = None ∧ server_shutdown o = true ∧
      queue_shutdown o = true ∧ accepted o = ∅
  | Exited => owner o = Destroyed
  end.

Record good (s : state) : Prop := mkGood {
  good_owner : owner_at (main s) (server s);
  good_writers : writers (server s) = ∅;
  good_pointers : pointers_ok (server s);
  good_running : running_ (server s) = match main s with Register | StartServer => false | _ => true end
}.

Lemma owner_at_same m o o' :
  same_owner o o' → (server_shutdown o = true → accepted o' ⊆ accepted o) →
  owner_at m o → owner_at m o'.
Proof.
  intros [Ho Hs Hq Hm Hr] Ha. destruct m; simpl; rewrite Ho, ?Hs, ?Hq, ?Hm; try done.
  intros (? & ? & Hsh & ? & Hacc). specialize (Ha Hsh). split_and!; try done. set_solver.
Qed.

Lemma arch_exec_good s a s' :
  good s → exec s a = Some s' → crashed (server s') = None → good s'.
Proof.
  intros [Ho Hw Hp Hr] H Hc. destruct a as [|b]; simpl in H.
  { destruct (main s) eqn:Em, (crashed (server s)); simplify_eq/=. by split. }
  destruct (call_server (main s) b) as [m|] eqn:Em; [|done]. simpl in H.
  destruct (ExampleAsyncServer.exec true (server s) b) as [o|] eqn:E; [|done]. simplify_eq/=.
  destruct (background b) eqn:Hb.
  - assert (m = main s) as -> by (destruct (main s), b; simplify_eq/=; congruence).
    destruct (background_same _ _ _ E Hb Hw) as (Hs & Hw' & Ha).
    split; simpl; [by eapply owner_at_same|done|by eapply background_pointers|].
    by rewrite (same_running _ _ Hs).
  - unfold ExampleAsyncServer.exec in E. destruct (crashed (server s)); [done|].
    destruct (main s) eqn:Emain, b; simplify_eq/=.
    + destruct (rpc =? _); [|done]. injection Em as <-.
      destruct Ho as (Hal & Hm & Hsh & Hq). rewrite Hal in E. unfold register_async in E.
      rewrite Hr in E. injection E as <-. split; simpl; try done.
      destruct Hp as [?|(? & q & [Hq'|Hq'])]; [by left|right..]; simpl; rewrite Hq'; simpl; eauto.
    + destruct Ho as (Hal & Hm & Hsh & Hq). rewrite Hal in E. injection E as <-.
      split; simpl; try done.
      destruct Hp as [?|(? & q & [Hq'|Hq'])]; [by left|right..]; simpl; rewrite Hq'; simpl; eauto.
    + destruct Ho as (Hal & Hm & Hsh & Hq). rewrite Hal in E. unfold is_free in E.
      rewrite Hm in E. simpl in E. destruct (shutdown_server_ (server s)) eqn:Ep;
        injection E as <-; [|done]. split; simpl; try done.
    + destruct Ho as (Hal & Hm & Hsh & Hq). rewrite Hal in E.
      destruct (bool_decide_reflect (accepted (server s) = ∅)); [|done]. simpl in E.
      destruct (bool_decide _); [|done]. injection E as <-. split; simpl; try done.
    + destruct Ho as (Hal & Hm & Hsh & Hq & Hacc). rewrite Hal in E.
      destruct (run_thread_ (server s)) eqn:Ert; try done. injection E as <-. split; simpl; try done.
      destruct Hp as [?|[? _]]; [by left|congruence].
Qed.

Lemma arch_reach_good s : reach s → crashed (server s) = None → good s.
Proof.
  induction 1 as [s ->|s a s' Hr IH [_ H]]; intros Hc.
  - split; simpl; try done. right. split; [done|]. eauto.
  - eapply arch_exec_good; [|done..]. apply IH. destruct a as [|b]; simpl in H.
    + by destruct (main s), (crashed (server s)).
    + destruct (call_server _ _); [|done]. simpl in H. unfold ExampleAsyncServer.exec in H.
      by destruct (crashed (server s)).
Qed.

(** ** The end of [main] *)

(** Without calls, gRPC gives up the outstanding requests one after the other. *)
Lemma server_drains n s :
  size (tags_ (server s)) = n → main s = JoinThread → crashed (server s) = None →
  owner_at JoinThread (server s) → run_thread_ (server s) = Serving →
  ∃ ls s', length ls = n + 2 ∧ run exec s ls = Some s' ∧ main s' = Exited ∧
    crashed (server s') = None.
Proof.
  revert s. induction n as [|n IH]; intros s Hn Hm Hc (Ho & Hmu & Hsh & Hq & Ha) Hrt.
  - apply map_size_empty_iff in Hn.
    set (s1 := mkState (with_threads None Returned Joining true true (server s)) JoinThread).
    assert (exec s (Server RunExit) = Some s1) as He.
    { unfold exec. rewrite Hm. simpl. unfold ExampleAsyncServer.exec. rewrite Hc. simpl.
      rewrite Hrt, Hq, Hn. simpl. by rewrite Hmu, Ho, Hsh. }
    exists [Server RunExit; Server Join]. eexists. split; [done|]. cbn [run]. rewrite He.
    unfold exec. simpl. unfold ExampleAsyncServer.exec. simpl. by rewrite Hc.
  - destruct (map_choose (tags_ (server s))) as (k & [p l] & Hk); [intros E; by rewrite E in Hn|].
    set (s1 := mkState (with_data (delete p (data_ (server s))) (delete k (tags_ (server s)))
      (with_calls ∅ (writers (server s)) (server s))) JoinThread).
    assert (exec s (Server (Next k false next_address)) = Some s1) as He.
    { unfold exec. rewrite Hm. simpl. unfold ExampleAsyncServer.exec. rewrite Hc. simpl.
      rewrite Hrt. unfold is_free. rewrite Hmu. simpl. unfold deliverable. rewrite Hk, Ha, Hsh.
      replace (∅ ∖ {[k]} : gset addr) with (∅ : gset addr) by set_solver.
      unfold process, get_tag. simpl. rewrite Hk.
      destruct l; simpl; try done. }
    destruct (IH s1) as (ls & s' & Hl & Hrun & ? & ?); try done.
    + simpl. rewrite map_size_delete_Some by by eexists. lia.
    + exists (Server (Next k false next_address) :: ls), s'. split; [simpl; lia|].
      cbn [run]. by rewrite He.
Qed.

(** ** Properties *)


(** Enter before the server's thread has built the server: the destructor
    dereferences a null pointer. With a registration left in the queue it is
    instead asked for a call on a queue that was shut down. *)
Theorem enter_too_early :
  (∃ s, reach s ∧ crashed (server s) = Some null_dereference) ∧
  (∃ s, reach s ∧ crashed (server s) = Some queue_shut_down).
Proof.
  set (ls := [Server (RegisterAsync 0); Server Start; Enter; Server Destructor]).
  set (rt := Server (RunTask next_address)).
  set (ls' := [Server (RegisterAsync 0); Server Start; rt; rt; Enter; Server Destructor;
    Server ShutdownReturns; rt]).
  split.
  - exists (default init (run exec init ls)). split; [|vm_compute; done].
    apply (run_reachable_ok exec action_ok _ init ls); [done|by repeat constructor|vm_compute; done].
  - exists (default init (run exec init ls')). split; [|vm_compute; done].
    apply (run_reachable_ok exec action_ok _ init ls'); [done| |vm_compute; done].
    repeat constructor; intros ?; apply next_address_fresh.
Qed.

(** One call is answered, then enter is pressed. *)
Definition one_call : list action :=
  Server <$> [RegisterAsync 0; Start; RunTask next_address; RunTask next_address;
    RunTask next_address; RunTask next_address; Arrive 2%N; Next 2%N true next_address].

Definition before_exit : state := default init (run exec init (one_call ++ [Enter])).

Lemma before_exit_reachable : reach before_exit.
Proof.
  apply (run_reachable_ok exec action_ok _ init (one_call ++ [Enter])); [done| |vm_compute; done].
  repeat constructor; intros ?; apply next_address_fresh.
Qed.


End NewArchServer.
