(* ===== verification/ExampleStreamHandler.v ===== *)
(** * The streaming handler of the examples

    [src/example/src/server/server_stream_rpc_handler.hpp], as the loop of
    [src/example/src/server/async_server.hpp] would serve it: a handler asks for
    a call, clones itself when the call arrives, and hands itself to the user as
    a writer. Its mutex protects the handler only; [write] and [finish] do not
    wait for the operations that are outstanding. Each operation is one step. *)
From S2P Require Import Prelude Tag ExampleTagger StreamRpcHandler.

Module ExampleStreamHandler.
Import ExampleTagger.

Abbreviation allocator_ok := StreamRpcHandler.allocator_ok.

(** [ServerStreamRpcHandler]: the function that registers it and the callback,
    both copied by [clone]. *)
Record handler : Type := mkHandler { register_rpc_ : nat; on_request_ : nat }.

Definition clone (h : handler) : handler := mkHandler (register_rpc_ h) (on_request_ h).

(** What was started on gRPC under a tag. *)
Inductive operation : Type :=
| RequestCall (rpc : nat)
| Write (response : nat)
| Finish.

(** The handlers of the server, the tags, the operations that gRPC has not
    reported, and the calls of [on_request_] so far: these are the writers the
    user knows. *)
Record state : Type := mkState {
  data_ : gmap addr handler;
  tags_ : gmap addr Tag;
  operations : gmap addr (addr * operation);
  requests : list (nat * addr);
  crashed : option fault
}.

Definition init : state := mkState ∅ ∅ ∅ [] None.

Definition crash (e : fault) (s : state) : state :=
  mkState (data_ s) (tags_ s) (operations s) (requests s) (Some e).

(** Addresses in use. *)
Definition live (s : state) : gset addr := {[nullptr]} ∪ dom (data_ s) ∪ dom (tags_ s).

(** [tagger_.make_tag(this, label)] and the call of gRPC that takes the tag. *)
Definition start_operation (alloc : gset addr → addr) (this : addr) (l : TagLabel) (op : operation)
    (s : state) : state :=
  let '(tag, tags) := make_tag (alloc (live s)) this l (tags_ s) in
  mkState (data_ s) tags (<[tag := (this, op)]> (operations s)) (requests s) (crashed s).

(** [queue_rpc] of the server: the handler is stored, then [queue_handler]. *)
Definition queue_handler (alloc : gset addr → addr) (this : addr) (h : handler) (s : state) : state :=
  start_operation alloc this ServerNewRpc (RequestCall (register_rpc_ h)) s.

Definition queue_rpc (alloc : gset addr → addr) (h : handler) (s : state) : state :=
  let this := alloc (live s) in
  queue_handler alloc this h
    (mkState (emplace this h (data_ s)) (tags_ s) (operations s) (requests s) (crashed s)).

(** [invoke_user_callback] *)
Definition invoke_user_callback (this : addr) (h : handler) (s : state) : state :=
  mkState (data_ s) (tags_ s) (operations s) (requests s ++ [(on_request_ h, this)]) (crashed s).

(** [write] and [finish], through the pointer the user was given. *)
Definition write (alloc : gset addr → addr) (this : addr) (response : nat) (s : state) : state :=
  match data_ s !! this with
  | Some _ => start_operation alloc this ServerWriting (Write response) s
  | None => crash use_after_free s
  end.
Definition finish (alloc : gset addr → addr) (this : addr) (s : state) : state :=
  match data_ s !! this with
  | Some _ => start_operation alloc this ServerDone Finish s
  | None => crash use_after_free s
  end.

Definition erase (this : addr) (s : state) : state :=
  mkState (delete this (data_ s)) (tags_ s) (operations s) (requests s) (crashed s).

(** The body of the loop of [AsyncServer::run] for the reports on these
    handlers. *)
Definition process (alloc : gset addr → addr) (received_tag : addr) (completed_successfully : bool)
    (s : state) : state :=
  match get_tag received_tag (tags_ s) with
  | Fault e => crash e s
  | Ret (tag, tags) =>
      let s := mkState (data_ s) tags (operations s) (requests s) (crashed s) in
      if completed_successfully then
        match label tag with
        | ServerNewRpc =>
            match data_ s !! data tag with
            | None => crash use_after_free s
            | Some rpc => invoke_user_callback (data tag) rpc (queue_rpc alloc (clone rpc) s)
            end
        | ServerWriting => s
        | ServerDone => erase (data tag) s
        | ClientConnectionChange | ClientFinished =>
            crash (runtime_error "Don't use client tags in the server ya dummy") s
        end
      else erase (data tag) s
  end.

Inductive action : Type :=
| Register (rpc callback : nat) (alloc : gset addr → addr)
| Report (tag : addr) (ok : bool) (alloc : gset addr → addr)
| UserWrite (writer : nat) (response : nat) (alloc : gset addr → addr)
| UserFinish (writer : nat) (alloc : gset addr → addr).

(** gRPC reports an outstanding operation; the user calls one of the writers. *)
Definition exec (s : state) (a : action) : option state :=
  match crashed s with
  | Some _ => None
  | None =>
      match a with
      | Register rpc callback alloc => Some (queue_rpc alloc (mkHandler rpc callback) s)
      | Report tag ok alloc =>
          match operations s !! tag with
          | Some _ =>
              Some (process alloc tag ok
                (mkState (data_ s) (tags_ s) (delete tag (operations s)) (requests s) None))
          | None => None
          end
      | UserWrite i response alloc =>
          r ← requests s !! i; Some (write alloc r.2 response s)
      | UserFinish i alloc => r ← requests s !! i; Some (finish alloc r.2 s)
      end
  end.

Definition action_ok (a : action) : Prop :=
  match a with
  | Register _ _ alloc | Report _ _ alloc | UserWrite _ _ alloc | UserFinish _ alloc =>
      allocator_ok alloc
  end.

Abbreviation reach := (reachable (λ s, s = init) (exec_step_ok exec action_ok)).

(** ** Tags and operations correspond one to one *)
Definition label_of (op : operation) : TagLabel :=
  match op with RequestCall _ => ServerNewRpc | Write _ => ServerWriting | Finish => ServerDone end.

Definition tag_of (x : addr * operation) : Tag := mkTag x.1 (label_of x.2).

Record inv (s : state) : Prop := mkInv {
  inv_tags : tags_ s = tag_of <$> operations s;
  inv_crash : crashed s = None ∨ crashed s = Some use_after_free
}.

Lemma start_operation_inv alloc this op s :
  allocator_ok alloc → inv s → inv (start_operation alloc this (label_of op) op s).
Proof.
  intros Ha [Ht Hc]. unfold start_operation.
  assert (tags_ s !! alloc (live s) = None) as Hf.
  { apply not_elem_of_dom. pose proof (Ha (live s)) as Hn. unfold live in Hn at 2. set_solver. }
  rewrite make_tag_new by done. constructor; simpl; [|done].
  by rewrite fmap_insert, Ht.
Qed.

Lemma queue_rpc_inv alloc h s : allocator_ok alloc → inv s → inv (queue_rpc alloc h s).
Proof.
  intros Ha [Ht Hc]. unfold queue_rpc, queue_handler.
  change ServerNewRpc with (label_of (RequestCall (register_rpc_ h))).
  by apply start_operation_inv.
Qed.

Lemma crash_inv s : inv s → inv (crash use_after_free s).
Proof. intros [Ht _]. constructor; [done|by right]. Qed.

(** A report is about an operation, so its tag is known. *)
Lemma stream_process_inv alloc k ok s x :
  allocator_ok alloc → inv s → operations s !! k = Some x →
  inv (process alloc k ok (mkState (data_ s) (tags_ s) (delete k (operations s)) (requests s) None)).
Proof.
  intros Ha [Ht _] Hk. unfold process. simpl.
  assert (get_tag k (tags_ s) = Ret (tag_of x, tag_of <$> delete k (operations s))) as ->.
  { unfold get_tag. rewrite Ht, lookup_fmap, Hk. simpl. by rewrite fmap_delete. }
  set (s1 := mkState (data_ s) (tag_of <$> delete k (operations s)) (delete k (operations s))
               (requests s) None).
  assert (inv s1) as Hs1 by (constructor; [done|by left]).
  destruct ok; [|by destruct Hs1; constructor].
  destruct x as [p [rpc|response|]]; simpl.
  - destruct (data_ s !! p) as [h|]; [|by apply crash_inv].
    destruct (queue_rpc_inv alloc (clone h) s1 Ha Hs1). by constructor.
  - done.
  - by destruct Hs1; constructor.
Qed.

Lemma exec_stream_inv s a s' : inv s → action_ok a → exec s a = Some s' → inv s'.
Proof.
  intros Hi Ha H. unfold exec in H. destruct (crashed s); [done|]. destruct a; simpl in Ha.
  - injection H as <-. by apply queue_rpc_inv.
  - destruct (operations s !! tag) eqn:Ek; [|done]. injection H as <-. by eapply stream_process_inv.
  - destruct (requests s !! writer) as [[c p]|]; [|done]. injection H as <-. unfold write. simpl.
    destruct (data_ s !! p); [|by apply crash_inv].
    change ServerWriting with (label_of (Write response)). by apply start_operation_inv.
  - destruct (requests s !! writer) as [[c p]|]; [|done]. injection H as <-. unfold finish. simpl.
    destruct (data_ s !! p); [|by apply crash_inv].
    change ServerDone with (label_of Finish). by apply start_operation_inv.
Qed.

(** C35: every operation that was started on gRPC is known by exactly one tag,
    which carries its handler and its kind, and there are no other tags; so
    whatever gRPC reports, in any order, the lookup of the tag never throws and
    the label is never one of the client's. The only failure that is possible is
    the use of a handler that was deleted. *)
Theorem stream_tags_match_operations s :
  reach s →
  tags_ s = tag_of <$> operations s ∧ (crashed s = None ∨ crashed s = Some use_after_free) ∧
  ∀ k x, operations s !! k = Some x →
    get_tag k (tags_ s) = Ret (tag_of x, tag_of <$> delete k (operations s)).
Proof.
  intros Hr. assert (inv s) as [Ht Hc].
  { revert s Hr. apply reachable_invariant.
    - intros ? ->. constructor; [done|by left].
    - intros s1 a s2 Hi [Ha H]. by eapply exec_stream_inv. }
  split_and!; [done..|]. intros k x Hk. unfold get_tag. rewrite Ht, lookup_fmap, Hk. simpl.
  by rewrite fmap_delete.
Qed.

(** ** Concrete runs *)
Definition demo (ls : list action) : state := default init (run exec init ls).

Lemma demo_stream_reach ls :
  Forall action_ok ls → is_Some (run exec init ls) → reach (demo ls).
Proof. intros Hok [s Hs]. unfold demo. rewrite Hs. by eapply run_reachable_ok. Qed.

Ltac solve_stream_demo :=
  apply demo_stream_reach; [repeat constructor; intros ?; apply next_address_fresh|vm_compute; by eexists].

(** A call arrives, and the user writes twice. *)
Definition two_writes : list action :=
  [Register 5 0 next_address; Report 2 true next_address;
   UserWrite 0 10 next_address; UserWrite 0 11 next_address].

(** The handler does not wait for the previous write: two writes of one stream
    can be outstanding, which gRPC does not allow. *)
Theorem writes_overlap :
  ∃ s k1 k2 p, reach s ∧ crashed s = None ∧ k1 ≠ k2 ∧
    operations s !! k1 = Some (p, Write 10) ∧ operations s !! k2 = Some (p, Write 11).
Proof.
  exists (demo two_writes), 4%N, 5%N, 1%N. split; [solve_stream_demo|]. vm_compute. done.
Qed.

(** When the client is gone a write fails and the handler is deleted. Nothing
    tells the user, whose next write uses the deleted handler. *)
Theorem write_after_failed_write :
  ∃ s, reach s ∧ crashed s = Some use_after_free.
Proof.
  exists (demo (take 3 two_writes ++ [Report 4 false next_address; UserWrite 0 11 next_address])).
  split; [solve_stream_demo|]. vm_compute. done.
Qed.

Lemma stream_tags_match_operations_witness :
  tags_ (demo two_writes) = tag_of <$> operations (demo two_writes) ∧
  size (operations (demo two_writes)) = 3.
Proof.
  split; [|vm_compute; done]. apply (stream_tags_match_operations (demo two_writes)).
  solve_stream_demo.
Defined.

End ExampleStreamHandler.
