(* ===== verification/ExampleClock.v ===== *)
(** * The clock service of the examples

    [src/example/src/example_server.cpp] and [server/new_arch_server.cpp]: the
    time since the start of the server in the format a client asks for. A
    duration is a number of nanoseconds. *)
From S2P Require Import Prelude.
From stdpp Require Import pretty.
#[local] Open Scope Z_scope.

Module ExampleClock.

Definition nanoseconds_per_second : Z := 1000000000.
Definition nanoseconds_per_minute : Z := 60 * nanoseconds_per_second.
Definition nanoseconds_per_hour : Z := 60 * nanoseconds_per_minute.

(** [std::chrono::duration_cast] to a coarser unit truncates towards zero. *)
Definition hours (duration : Z) : Z := Z.quot duration nanoseconds_per_hour.
Definition minutes (duration : Z) : Z := Z.quot duration nanoseconds_per_minute.
Definition seconds (duration : Z) : Z := Z.quot duration nanoseconds_per_second.

(** The three numbers of [make_pretty_time_string]. *)
Definition pretty_time (duration : Z) : Z * Z * Z :=
  let h := hours duration in
  let m := minutes (duration - h * nanoseconds_per_hour) in
  let s := seconds (duration - h * nanoseconds_per_hour - m * nanoseconds_per_minute) in
  (h, m, s).

Definition make_pretty_time_string (duration : Z) : string :=
  let '(h, m, s) := pretty_time duration in
  (pretty h +:+ "h  " +:+ pretty m +:+ "m  " +:+ pretty s +:+ "s")%string.

(** [protocol::Format]; [sentinel] are the values protobuf adds, and an open
    enum may hold any other value. *)
Inductive Format : Type :=
| COMPOUND
| HOURS
| MINUTES
| SECONDS
| sentinel_or_unknown (value : Z).

(** [ExampleServer::get_time] and [time_since]: the display time; the status is
    always [OK]. *)
Definition get_time (format : Format) (time_since_server_start : Z) : string :=
  match format with
  | COMPOUND => make_pretty_time_string time_since_server_start
  | HOURS => pretty (hours time_since_server_start) +:+ "h"
  | MINUTES => pretty (minutes time_since_server_start) +:+ "m"
  | SECONDS => pretty (seconds time_since_server_start) +:+ "s"
  | sentinel_or_unknown _ => ""
  end.

(** The start time is taken before the service can be called and the clock is
    the system's: it may be set back, so negative durations are possible. *)
Lemma pretty_time_nonneg d :
  0 <= d → pretty_time d =
    (d / nanoseconds_per_hour,
     d mod nanoseconds_per_hour / nanoseconds_per_minute,
     d mod nanoseconds_per_minute / nanoseconds_per_second).
Proof.
  intros Hd. unfold pretty_time, hours, minutes, seconds.
  unfold nanoseconds_per_hour, nanoseconds_per_minute, nanoseconds_per_second.
  rewrite Z.quot_div_nonneg by lia.
  set (h := d / (60 * (60 * 1000000000))).
  assert (d - h * (60 * (60 * 1000000000)) = d mod (60 * (60 * 1000000000))) as E
    by (rewrite Z.mod_eq by lia; lia).
  assert (0 <= d mod (60 * (60 * 1000000000))) by (apply Z.mod_pos_bound; lia).
  rewrite E. rewrite Z.quot_div_nonneg by lia.
  set (r := d mod (60 * (60 * 1000000000))) in *.
  assert (r - r / (60 * 1000000000) * (60 * 1000000000) = r mod (60 * 1000000000)) as E2
    by (rewrite Z.mod_eq by lia; lia).
  rewrite E2. rewrite Z.quot_div_nonneg by (try apply Z.mod_pos_bound; lia).
  assert (r mod (60 * 1000000000) = d mod (60 * 1000000000)) as ->; [|done].
  assert (r = d + (- 60 * h) * (60 * 1000000000)) as -> by (unfold r, h; rewrite Z.mod_eq by lia; lia).
  by rewrite Z.mod_add by lia.
Qed.

Lemma split_time d :
  0 <= d → ∃ h m s t,
    pretty_time d = (h, m, s) ∧ d = nanoseconds_per_second * (3600 * h + 60 * m + s) + t ∧
    0 <= h ∧ 0 <= m < 60 ∧ 0 <= s < 60 ∧ 0 <= t < nanoseconds_per_second.
Proof.
  intros Hd. rewrite pretty_time_nonneg by done. unfold nanoseconds_per_hour, nanoseconds_per_minute.
  set (N := nanoseconds_per_second). assert (0 < N) as HN by done.
  exists (d / (60 * (60 * N))), (d mod (60 * (60 * N)) / (60 * N)), (d mod (60 * N) / N), (d mod N).
  split; [done|].
  assert (d mod (60 * (60 * N)) mod (60 * N) = d mod (60 * N)) as E1.
  { rewrite (Z.mod_eq d (60 * (60 * N))) by lia.
    replace (d - 60 * (60 * N) * (d / (60 * (60 * N))))
      with (d + (- 60 * (d / (60 * (60 * N)))) * (60 * N)) by lia.
    by rewrite Z.mod_add by lia. }
  assert (d mod (60 * N) mod N = d mod N) as E2.
  { rewrite (Z.mod_eq d (60 * N)) by lia.
    replace (d - 60 * N * (d / (60 * N))) with (d + (- 60 * (d / (60 * N))) * N) by lia.
    by rewrite Z.mod_add by lia. }
  pose proof (Z.div_mod d (60 * (60 * N))) as D1.
  pose proof (Z.div_mod (d mod (60 * (60 * N))) (60 * N)) as D2.
  pose proof (Z.div_mod (d mod (60 * N)) N) as D3.
  pose proof (Z.mod_pos_bound d (60 * (60 * N))). pose proof (Z.mod_pos_bound d (60 * N)).
  pose proof (Z.mod_pos_bound d N).
  rewrite E1 in D2. rewrite E2 in D3.
  split_and!; try apply Z.div_pos; try apply Z.div_lt_upper_bound; lia.
Qed.

(** The compound format splits the elapsed time without losing a second: the
    minutes and the seconds stay below 60, and hours, minutes and seconds add up
    to the whole seconds that the format for seconds shows; the formats for
    hours and minutes show the same time truncated. *)
Theorem time_formats_agree d :
  0 <= d →
  let '(h, m, s) := pretty_time d in
  0 <= m < 60 ∧ 0 <= s < 60 ∧ 0 <= h ∧
  get_time COMPOUND d = (pretty h +:+ "h  " +:+ pretty m +:+ "m  " +:+ pretty s +:+ "s")%string ∧
  get_time SECONDS d = (pretty (3600 * h + 60 * m + s) +:+ "s")%string ∧
  get_time MINUTES d = (pretty (60 * h + m) +:+ "m")%string ∧
  get_time HOURS d = (pretty h +:+ "h")%string.
Proof.
  intros Hd. destruct (split_time d Hd) as (h & m & s & t & E & Ed & Hh & Hm & Hs & Ht).
  unfold get_time, make_pretty_time_string. rewrite E. unfold hours, minutes, seconds.
  unfold nanoseconds_per_hour, nanoseconds_per_minute in *.
  set (N := nanoseconds_per_second) in *. assert (0 < N) as HN by done.
  rewrite !Z.quot_div_nonneg by lia.
  rewrite <-(Z.div_unique d N (3600 * h + 60 * m + s) t) by lia.
  rewrite <-(Z.div_unique d (60 * N) (60 * h + m) (N * s + t)) by nia.
  rewrite <-(Z.div_unique d (60 * (60 * N)) h (N * (60 * m + s) + t)) by nia.
  split_and!; done || lia.
Qed.

(** One day, one hour, one minute and one nanosecond less than two seconds. *)
Lemma time_formats_agree_witness :
  get_time SECONDS 90061999999999 = "90061s"%string ∧
  get_time COMPOUND 90061999999999 = "25h  1m  1s"%string.
Proof.
  assert (0 <= 90061999999999) as H by lia. split.
  - apply (time_formats_agree 90061999999999 H).
  - apply (time_formats_agree 90061999999999 H).
Defined.

(** ** Machine integers

    [std::chrono::nanoseconds], and so the duration, has 64 bits; hours, minutes
    and seconds have at least 23, 29 and 35 bits. *)
Definition fits (bits z : Z) : bool := (- 2 ^ (bits - 1) <=? z) && (z <? 2 ^ (bits - 1)).
Definition checked (bits z : Z) : option Z := if fits bits z then Some z else None.

(** [make_pretty_time_string] with every intermediate result at its width: [None]
    if one of them overflows. *)
Definition pretty_time_checked (duration : Z) : option (Z * Z * Z) :=
  hours ← checked 23 (hours duration);
  hours_in_ns ← checked 64 (hours * nanoseconds_per_hour);
  below_hour ← checked 64 (duration - hours_in_ns);
  minutes ← checked 29 (minutes below_hour);
  minutes_in_ns ← checked 64 (minutes * nanoseconds_per_minute);
  below_minute ← checked 64 (below_hour - minutes_in_ns);
  seconds ← checked 35 (seconds below_minute);
  Some (hours, minutes, seconds).

(** Truncation towards zero keeps the remainder between zero and the value. *)
Lemma quot_bounds d n :
  0 < n → Z.abs (d - Z.quot d n * n) < n ∧ Z.abs (Z.quot d n * n) <= Z.abs d ∧
  Z.abs (d - Z.quot d n * n) <= Z.abs d ∧ n * Z.abs (Z.quot d n) <= Z.abs d.
Proof.
  intros Hn. pose proof (Z.quot_rem' d n) as E.
  destruct (Z.le_ge_cases 0 d) as [Hd|Hd].
  - pose proof (Z.rem_bound_pos d n Hd Hn). pose proof (Z.quot_pos d n Hd Hn). nia.
  - pose proof (Z.rem_bound_pos_neg d n Hn Hd) as Hr.
    assert (Z.quot d n <= 0) by (rewrite <-(Z.opp_involutive d), Z.quot_opp_l by lia;
      pose proof (Z.quot_pos (- d) n); lia).
    nia.
Qed.

Lemma fits_within bits b z : 2 ^ (bits - 1) = b → - b <= z < b → fits bits z = true.
Proof.
  intros <- [H1 H2]. unfold fits. by rewrite (proj2 (Z.leb_le _ _) H1), (proj2 (Z.ltb_lt _ _) H2).
Qed.

Lemma checked_within bits b z : 2 ^ (bits - 1) = b → - b <= z < b → checked bits z = Some z.
Proof. intros Hb Hz. unfold checked. by rewrite (fits_within bits b z Hb Hz). Qed.

Lemma fits_64 d : fits 64 d = true → - 9223372036854775808 <= d < 9223372036854775808.
Proof. unfold fits. intros [H1%Z.leb_le H2%Z.ltb_lt]%andb_true_iff. by split. Qed.

(** Truncated division of a 64-bit number, by the number of nanoseconds. *)
Lemma hours_bounds d :
  Z.abs (d - hours d * nanoseconds_per_hour) < 3600000000000 ∧
  Z.abs (hours d * nanoseconds_per_hour) <= Z.abs d ∧ 3600000000000 * Z.abs (hours d) <= Z.abs d.
Proof. by destruct (quot_bounds d nanoseconds_per_hour eq_refl) as (? & ? & ? & ?). Qed.
Lemma minutes_bounds d :
  Z.abs (d - minutes d * nanoseconds_per_minute) < 60000000000 ∧
  Z.abs (minutes d * nanoseconds_per_minute) <= Z.abs d ∧ 60000000000 * Z.abs (minutes d) <= Z.abs d.
Proof. by destruct (quot_bounds d nanoseconds_per_minute eq_refl) as (? & ? & ? & ?). Qed.
Lemma seconds_bounds d : 1000000000 * Z.abs (seconds d) <= Z.abs d.
Proof. by destruct (quot_bounds d nanoseconds_per_second eq_refl) as (? & ? & ? & ?). Qed.

Lemma checked_chain d h a r m b t s :
  hours d = h → h * nanoseconds_per_hour = a → d - a = r → minutes r = m →
  m * nanoseconds_per_minute = b → r - b = t → seconds t = s →
  checked 23 h = Some h → checked 64 a = Some a → checked 64 r = Some r → checked 29 m = Some m →
  checked 64 b = Some b → checked 64 t = Some t → checked 35 s = Some s →
  pretty_time_checked d = Some (h, m, s) ∧ pretty_time d = (h, m, s).
Proof.
  intros E1 E2 E3 E4 E5 E6 E7 C1 C2 C3 C4 C5 C6 C7. unfold pretty_time_checked, pretty_time.
  rewrite E1, C1. cbn [mbind option_bind]. rewrite E2, C2. cbn [mbind option_bind].
  rewrite E3, C3. cbn [mbind option_bind]. rewrite E4, C4. cbn [mbind option_bind].
  rewrite E5, C5. cbn [mbind option_bind]. rewrite E6, C6. cbn [mbind option_bind].
  rewrite E7, C7. by split.
Qed.

(** C40: no arithmetic of the clock overflows. For every duration that 64 bits can
    hold, negative ones included, all intermediate results stay within 64 bits
    and the results within the guaranteed widths of hours, minutes and seconds,
    in the compound format and in the others; the minutes and seconds of the
    compound format are below 60 in magnitude. *)
Theorem time_never_overflows d :
  fits 64 d = true →
  pretty_time_checked d = Some (pretty_time d) ∧
  (let '(h, m, s) := pretty_time d in Z.abs m < 60 ∧ Z.abs s < 60) ∧
  fits 23 (hours d) = true ∧ fits 29 (minutes d) = true ∧ fits 35 (seconds d) = true.
Proof.
  intros Hd%fits_64.
  pose proof (minutes_bounds d) as (_ & _ & Hdm). pose proof (seconds_bounds d) as Hds.
  destruct (hours_bounds d) as (H1 & H2 & H3).
  remember (hours d) as h eqn:Eh. remember (h * nanoseconds_per_hour) as a eqn:Ea.
  remember (d - a) as r eqn:Er. destruct (minutes_bounds r) as (H4 & H5 & H6).
  remember (minutes r) as m eqn:Em. remember (m * nanoseconds_per_minute) as b eqn:Eb.
  remember (r - b) as t eqn:Et. pose proof (seconds_bounds t) as H7.
  remember (seconds t) as s eqn:Es.
  assert (- 9223372036854775808 <= a < 9223372036854775808) by (clear - Hd H1 H2 Er; lia).
  assert (- 4194304 <= h < 4194304) by (clear - Hd H3; lia).
  assert (- 268435456 <= minutes d < 268435456) by (clear - Hd Hdm; lia).
  assert (- 17179869184 <= seconds d < 17179869184) by (clear - Hd Hds; lia).
  assert (Z.abs m < 60) as Hm by (clear - H1 H6; lia).
  assert (Z.abs s < 60) as Hs by (clear - H4 H7; lia).
  assert (Z.abs b < 3600000000000) as Hb by (clear - H1 H5; lia).
  destruct (checked_chain d h a r m b t s) as [E1 E2]; [by symmetry..| | | | | | | |].
  - by apply (checked_within 23 4194304).
  - by apply (checked_within 64 9223372036854775808).
  - apply (checked_within 64 9223372036854775808); [done|clear - H1; lia].
  - apply (checked_within 29 268435456); [done|clear - Hm; lia].
  - apply (checked_within 64 9223372036854775808); [done|clear - Hb; lia].
  - apply (checked_within 64 9223372036854775808); [done|clear - H4; lia].
  - apply (checked_within 35 17179869184); [done|clear - Hs; lia].
  - rewrite E1, E2. split_and!; try done.
    + by apply (fits_within 23 4194304).
    + by apply (fits_within 29 268435456).
    + by apply (fits_within 35 17179869184).
Qed.

(** The smallest 64-bit number of nanoseconds. *)
Lemma time_never_overflows_witness :
  pretty_time_checked (-9223372036854775808) = Some (-2562047, -47, -16).
Proof.
  rewrite (proj1 (time_never_overflows (-9223372036854775808) eq_refl)). vm_compute. reflexivity.
Defined.

(** ** The ticker of [ExampleServer] *)

(** The loop of [ticker_]: what [keep_ticking_] holds in each round, and the
    times at which it wakes up; the updates written to [time_stream_]. *)
Fixpoint ticker (fuel : nat) (keep_ticking : nat → bool) (now : nat → Z) : list string * bool :=
  match fuel with
  | O => ([], false)
  | S fuel =>
      if keep_ticking O then
        let '(out, ended) := ticker fuel (λ n, keep_ticking (S n)) (λ n, now (S n)) in
        (get_time COMPOUND (now O) :: out, ended)
      else ([], true)
  end.

(** The ticker writes one update per round, the compound time of that round,
    and ends in the first round that finds [keep_ticking_] cleared: after the
    destructor has cleared the flag at most the round in progress is written. *)
Theorem ticker_stops keep_ticking now n fuel :
  (n < fuel)%nat → (∀ i, (i < n)%nat → keep_ticking i = true) → keep_ticking n = false →
  ticker fuel keep_ticking now = ((λ i, get_time COMPOUND (now i)) <$> seq 0 n, true).
Proof.
  revert keep_ticking now fuel. induction n as [|n IH]; intros k now [|fuel] Hf Hk Hn;
    [lia| |lia|].
  - simpl. by rewrite Hn.
  - cbn [ticker]. rewrite (Hk 0%nat) by lia.
    rewrite (IH (λ n, k (S n)) (λ n, now (S n)) fuel); [|lia|intros i ?; apply Hk; lia|done].
    f_equal. simpl. f_equal. by rewrite <-fmap_S_seq, <-list_fmap_compose.
Qed.

Lemma ticker_stops_witness :
  ticker 5 (λ i, (i <? 2)%nat) (λ i, 1000000000 * Z.of_nat i)
  = (["0h  0m  0s"; "0h  0m  1s"]%string, true).
Proof.
  apply (ticker_stops (λ i, (i <? 2)%nat) (λ i, 1000000000 * Z.of_nat i) 2 5).
  - lia.
  - intros [|[|i]] ?; [done|done|lia].
  - done.
Defined.

End ExampleClock.
