(* ===== verification/ExampleServer.v ===== *)
(** * The example servers

    [src/example/src/example_server.cpp]: the constructor, the ticker thread, the
    destructor and [main] around the server of [GrpcAsyncServer.v], which owns
    handlers of both kinds. *)
From S2P Require Import Prelude StreamRpcHandler RpcHandler NonStreamRpcHandler.
From S2P Require Import GrpcAsyncServer ExampleClock.
#[local] Open Scope nat_scope.

Module ExampleServer.
Import GrpcAsyncServer.
Section Server.
(** The handlers of [GetServerTimeUpdates] and of [GetServerTimeNow]. *)
Context {Stream StreamEnv Unary UnaryEnv : Type}.
Context `{!AsyncRpcHandlerInterface Stream StreamEnv} `{!AsyncRpcHandlerInterface Unary UnaryEnv}.
Context (server_start_time_ : Z).

#[local] Existing Instance AnyRpc.any_handler.

Abbreviation server_state := (@GrpcAsyncServer.state (Stream + Unary)).
Abbreviation server_action := (@GrpcAsyncServer.action (Stream + Unary) (StreamEnv + UnaryEnv)).

(** Where [main] is: in the constructor, waiting for enter, in the destructor of
    [ExampleServer] and in that of the server. *)
Inductive main_pc : Type :=
| RegisterStream (* [register_async_stream(...)] *)
| ActivateStream
| RegisterUnary (* [register_async(...)] *)
| ActivateUnary
| StoreKeepTicking (* [keep_ticking_.store(true)] *)
| StartTicker (* [ticker_ = std::thread(...)] *)
| WaitForEnter (* [std::cin.ignore()] *)
| ClearKeepTicking (* [keep_ticking_.store(false)] *)
| JoinTicker (* [ticker_.join()] *)
| ShutdownServer (* [server_->shutdown_and_wait()] *)
| AwaitCalls
| DestroyServer (* the destructor of [server_] *)
| AwaitNothing
| ShutdownQueue
| JoinServer
| Exited.

#[global] Instance main_pc_eq_dec : EqDecision main_pc.
Proof. solve_decision. Defined.

Inductive ticker_pc : Type :=
| NoThread
| Testing (* [while (keep_ticking_)] *)
| Sleeping (* [sleep_for(1s)] *)
| Reading (* [get_time(request, &time)] *)
| Writing (time : string) (* [time_stream_->write(time)] *)
| Ended.

(** [written] records the updates. *)
Record state : Type := mkState {
  server_ : server_state;
  time_stream_ : option addr; (* the handler whose stream it is *)
  keep_ticking_ : bool;
  ticker_ : ticker_pc;
  main : main_pc;
  written : list string;
  failed : option fault
}.

Definition init : state :=
  mkState GrpcAsyncServer.init None true NoThread RegisterStream [] None.

Inductive action : Type :=
| Main
| Ticker (now : Z)
| Server (a : server_action).

(** What the threads of the server and gRPC do on their own. *)
Definition background (a : server_action) : bool :=
  match a with
  | Take _ | ActivateNext _ | RunExit | Arrive _ | Reject _ | EndCall => true
  | _ => false
  end.

(** The calls of [main] into the server, in the order of the program. *)
Definition call_server (m : main_pc) (a : server_action) : option main_pc :=
  match m, a with
  | RegisterStream, Register _ (inl _) => Some ActivateStream
  | ActivateStream, RegisterActivate _ => Some RegisterUnary
  | RegisterUnary, Register _ (inr _) => Some ActivateUnary
  | ActivateUnary, RegisterActivate _ => Some StoreKeepTicking
  | ShutdownServer, Shutdown ShutdownAndWait => Some AwaitCalls
  | AwaitCalls, ShutdownReturns => Some DestroyServer
  | DestroyServer, Shutdown Destructor => Some AwaitNothing
  | AwaitNothing, ShutdownReturns => Some ShutdownQueue
  | ShutdownQueue, QueueShutdown => Some JoinServer
  | JoinServer, Join => Some Exited
  | m, a => if background a then Some m else None
  end.

Definition with_main (m : main_pc) (s : state) : state :=
  mkState (server_ s) (time_stream_ s) (keep_ticking_ s) (ticker_ s) m (written s) (failed s).
Definition with_ticker (t : ticker_pc) (s : state) : state :=
  mkState (server_ s) (time_stream_ s) (keep_ticking_ s) t (main s) (written s) (failed s).
Definition with_keep_ticking (b : bool) (s : state) : state :=
  mkState (server_ s) (time_stream_ s) b (ticker_ s) (main s) (written s) (failed s).

(** The statements of [main] that do not concern the server. *)
Definition exec_main (s : state) : option state :=
  match main s with
  | StoreKeepTicking => Some (with_main StartTicker (with_keep_ticking true s))
  | StartTicker => Some (with_main WaitForEnter (with_ticker Testing s))
  | WaitForEnter => Some (with_main ClearKeepTicking s)
  | ClearKeepTicking => Some (with_main JoinTicker (with_keep_ticking false s))
  | JoinTicker =>
      match ticker_ s with
      | Ended => Some (with_main ShutdownServer s)
      | _ => None
      end
  | _ => None
  end.

(** The loop of [ticker_]; the request has the default format. *)
Definition exec_ticker (now : Z) (s : state) : option state :=
  match ticker_ s with
  | Testing => Some (with_ticker (if keep_ticking_ s then Sleeping else Ended) s)
  | Sleeping => Some (with_ticker Reading s)
  | Reading =>
      Some (with_ticker
        (Writing (ExampleClock.get_time ExampleClock.COMPOUND (now - server_start_time_))) s)
  | Writing time =>
      match time_stream_ s ≫= (rpc_handlers_ (server_ s) !!.) with
      | Some (inl _) =>
          Some (mkState (server_ s) (time_stream_ s) (keep_ticking_ s) Testing (main s)
                  (written s ++ [time]) (failed s))
      | _ =>
          Some (mkState (server_ s) (time_stream_ s) (keep_ticking_ s) (ticker_ s) (main s)
                  (written s) (Some use_after_free))
      end
  | NoThread | Ended => None
  end.

(** [register_async_stream(...).stream()] returns the new handler. *)
Definition stream_after (a : server_action) (s : state) : option addr :=
  match main s, a, owner (server_ s) with
  | ActivateStream, RegisterActivate _, Registering key => Some key
  | _, _, _ => time_stream_ s
  end.

Definition exec_server (a : server_action) (s : state) : option state :=
  m ← call_server (main s) a;
  o ← GrpcAsyncServer.exec (server_ s) a;
  Some (mkState o (stream_after a s) (keep_ticking_ s) (ticker_ s) m (written s) (failed s)).

Definition exec (s : state) (a : action) : option state :=
  match failed s, crashed (server_ s) with
  | None, None =>
      match a with
      | Main => exec_main s
      | Ticker now => exec_ticker now s
      | Server b => exec_server b s
      end
  | _, _ => None
  end.

Definition env (s : state) (a : action) : Prop :=
  match a with Server b => GrpcAsyncServer.env (server_ s) b | _ => True end.

Abbreviation reach := (reachable (λ s, s = init) (env_step env exec)).

(** ** The server as a component *)

Lemma exec_server_inv s a s' :
  exec s a = Some s' →
  failed s = None ∧ crashed (server_ s) = None ∧
  (server_ s' = server_ s ∨
   ∃ b, a = Server b ∧ GrpcAsyncServer.exec (server_ s) b = Some (server_ s')).
Proof.
  unfold exec. destruct (failed s) eqn:Hf; [done|]. destruct (crashed (server_ s)) eqn:Hc; [done|].
  intros H. split_and!; try done. destruct a as [|now|b].
  - left. unfold exec_main in H. destruct (main s); try done; try (by simplify_eq/=).
    by destruct (ticker_ s); simplify_eq/=.
  - left. unfold exec_ticker in H. destruct (ticker_ s); simplify_eq/=; try done.
    destruct (_ ≫= _) as [[]|]; by simplify_eq/=.
  - right. unfold exec_server in H. destruct (call_server _ _); [|done]. simpl in H.
    destruct (GrpcAsyncServer.exec (server_ s) b) as [o|] eqn:E; [|done]. simplify_eq/=. eauto.
Qed.

(** What the example does to its server is a run of the server. *)
Lemma app_server_reach s :
  reach s → reachable (λ s, s = GrpcAsyncServer.init)
    (env_step GrpcAsyncServer.env GrpcAsyncServer.exec) (server_ s).
Proof.
  apply (reachable_invariant _ _ (λ s, reachable (λ s, s = GrpcAsyncServer.init)
    (env_step GrpcAsyncServer.env GrpcAsyncServer.exec) (server_ s))).
  - intros ? ->. by constructor.
  - intros s1 a s2 IH [He Hx]. destruct (exec_server_inv _ _ _ Hx) as (_ & _ & [->|(b & -> & Hb)]);
      [done|]. eapply reachable_step; [done|]. by split.
Qed.

Lemma server_inv s : reach s → crashed (server_ s) = None → GrpcAsyncServer.inv (server_ s).
Proof. intros Hr%app_server_reach%server_reach_inv Hc. destruct Hr as [[? _]|[? _]]; congruence. Qed.

(** Background steps leave the owner alone and, after the shutdown, start no
    call. *)
Lemma activate_frame key e (s : server_state) :
  owner (activate key e s) = owner s ∧ server_shutdown (activate key e s) = server_shutdown s ∧
  open_calls (activate key e s) = open_calls s.
Proof.
  unfold activate. destruct (rpc_handlers_ s !! key); [|done].
  destruct (handler_activate_next _ _) as [[]|]; [|done]. by destruct (queue_shutdown s).
Qed.

Lemma background_frame (s s' : server_state) a :
  background a = true → GrpcAsyncServer.exec s a = Some s' →
  owner s' = owner s ∧ server_shutdown s' = server_shutdown s ∧
  (server_shutdown s = true → open_calls s' ≤ open_calls s).
Proof.
  unfold GrpcAsyncServer.exec. destruct (crashed s); [done|].
  destruct a; try done; intros _; simpl.
  - unfold exec_take. destruct (run_thread s); try done.
    destruct (events s !! i) as [[tag []]|]; try done; [|by intros [= <-]].
    simpl. destruct (rpc_handlers_ s !! tag); by intros [= <-].
  - unfold exec_activate_next. destruct (run_thread s); try done. intros [= <-].
    destruct (activate_frame key e (with_threads Polling (owner s) s)) as (-> & -> & ->). simpl. done.
  - unfold exec_run_exit. destruct (run_thread s), (requested s), (events s); try done.
    destruct (queue_shutdown s); [|done]. by intros [= <-].
  - destruct (server_shutdown s) eqn:E; [done|]. unfold exec_report.
    destruct (requested s !! i); [|done]. by intros [= <-].
  - destruct (server_shutdown s) eqn:E; [|done]. unfold exec_report.
    destruct (requested s !! i); [|done]. by intros [= <-].
  - unfold exec_end_call. destruct (open_calls s) eqn:E; [done|]. intros [= <-]. simpl.
    split_and!; try done. lia.
Qed.

(** ** The stream of the ticker *)

Definition is_stream (key : addr) (m : gmap addr (Stream + Unary)) : Prop :=
  ∃ c, m !! key = Some (inl c).

Lemma activate_stream key k e (s : server_state) :
  is_stream key (rpc_handlers_ s) → is_stream key (rpc_handlers_ (activate k e s)).
Proof.
  unfold activate. intros [c Hc]. destruct (rpc_handlers_ s !! k) as [h|] eqn:Hk; [|by exists c].
  destruct (handler_activate_next h e) as [[h' l]|] eqn:E; [|by exists c].
  destruct (queue_shutdown s); [by exists c|]. unfold is_stream. simpl.
  destruct (decide (k = key)) as [->|]; [|rewrite lookup_insert_ne by done; by exists c].
  rewrite lookup_insert_eq. rewrite Hc in Hk. injection Hk as <-.
  apply AnyRpc.activate_next_kind in E as [c' ->]. by exists c'.
Qed.

(** Until it is shut down the server keeps its handlers. *)
Lemma server_keeps_stream key (s s' : server_state) a :
  GrpcAsyncServer.inv s → GrpcAsyncServer.exec s a = Some s' → server_shutdown s' = false →
  is_stream key (rpc_handlers_ s) → is_stream key (rpc_handlers_ s').
Proof.
  intros Hi. unfold GrpcAsyncServer.exec. destruct (crashed s); [done|].
  destruct a; simpl; intros H Hsh Hk.
  - unfold exec_register in H. destruct (owner s); try done.
    case_bool_decide as Hn; [|done]. injection H as <-. simpl in *.
    destruct Hk as [c Hc]. rewrite emplace_fresh by done. exists c.
    rewrite lookup_insert_ne; [done|congruence].
  - unfold exec_register_activate in H. destruct (owner s); try done. injection H as <-.
    by apply activate_stream.
  - unfold exec_shutdown in H. destruct (owner s); try done. by injection H as <-.
  - unfold exec_shutdown_returns in H. destruct (owner s) as [| |[]| | |]; try done;
      try case_bool_decide; try done; by injection H as <-.
  - unfold exec_queue_shutdown in H. destruct (owner s); try done. by injection H as <-.
  - unfold exec_join in H. destruct (owner s) eqn:Ho, (run_thread s); try done.
    injection H as <-. simpl in Hsh. rewrite (inv_shutdown _ Hi) in Hsh; [done|].
    left. left. by rewrite (inv_closing _ Hi), Ho.
  - unfold exec_take in H. destruct (run_thread s); try done.
    destruct (events s !! i) as [[tag []]|] eqn:Ei; try done.
    + simpl in H. destruct (rpc_handlers_ s !! tag); by injection H as <-.
    + injection H as <-. simpl in Hsh.
      rewrite (inv_rejected _ Hi tag) in Hsh; [done|]. by eapply list_elem_of_lookup_2.
  - unfold exec_activate_next in H. destruct (run_thread s); try done. injection H as <-.
    by apply activate_stream.
  - unfold exec_run_exit in H. destruct (run_thread s), (requested s), (events s); try done.
    destruct (queue_shutdown s); [|done]. by injection H as <-.
  - destruct (server_shutdown s); [done|]. unfold exec_report in H.
    destruct (requested s !! i); [|done]. by injection H as <-.
  - destruct (server_shutdown s); [|done]. unfold exec_report in H.
    destruct (requested s !! i); [|done]. by injection H as <-.
  - unfold exec_end_call in H. destruct (open_calls s); [done|]. by injection H as <-.
Qed.

(** ** The phases of the program *)

Definition constructing (m : main_pc) : bool :=
  match m with
  | RegisterStream | ActivateStream | RegisterUnary | ActivateUnary | StoreKeepTicking
  | StartTicker => true
  | _ => false
  end.
Definition ticking (m : main_pc) : bool :=
  match m with WaitForEnter | ClearKeepTicking | JoinTicker => true | _ => false end.
Definition may_tick (m : main_pc) : bool :=
  match m with WaitForEnter | ClearKeepTicking => true | _ => false end.
Definition calls_over (m : main_pc) : bool :=
  match m with
  | DestroyServer | AwaitNothing | ShutdownQueue | JoinServer | Exited => true
  | _ => false
  end.

(** What the server is doing for [main]. *)
Definition owner_at (m : main_pc) (s : server_state) : Prop :=
  match m with
  | ActivateStream => ∃ key, owner s = Registering key ∧ is_stream key (rpc_handlers_ s)
  | ActivateUnary => ∃ key, owner s = Registering key
  | AwaitCalls => owner s = ShuttingDown ShutdownAndWait
  | AwaitNothing => owner s = ShuttingDown Destructor
  | ShutdownQueue => owner s = BeforeQueueShutdown
  | JoinServer => owner s = Joining
  | Exited => owner s = Destroyed
  | _ => owner s = Ready
  end.

Definition stream_stored (m : main_pc) : bool :=
  match m with RegisterStream | ActivateStream => false | _ => true end.

Record good (s : state) : Prop := mkGood {
  good_failed : failed s = None;
  good_owner : owner_at (main s) (server_ s);
  good_open : server_shutdown (server_ s) =
    negb (constructing (main s) || ticking (main s) || bool_decide (main s = ShutdownServer));
  good_ticker : if constructing (main s) then ticker_ s = NoThread
                else if ticking (main s) then ticker_ s ≠ NoThread else ticker_ s = Ended;
  good_cleared : keep_ticking_ s = constructing (main s) || may_tick (main s);
  good_calls : calls_over (main s) = true → open_calls (server_ s) = 0;
  good_stream : stream_stored (main s) = true →
    ∃ key, time_stream_ s = Some key ∧
      (server_shutdown (server_ s) = false → is_stream key (rpc_handlers_ (server_ s)))
}.

Lemma main_good s s' : good s → exec_main s = Some s' → good s'.
Proof.
  intros [Hf Ho Hsh Ht Hk Hc Hs] H. unfold exec_main in H.
  destruct (main s) eqn:Em; try done; simpl in *; try destruct (ticker_ s) eqn:Et; simplify_eq/=;
    split; simpl; rewrite ?Em, ?Et; simpl; try done; try (by apply Hs).
Qed.

Lemma ticker_good s now s' : good s → exec_ticker now s = Some s' → good s'.
Proof.
  intros Hg H. pose proof Hg as [Hf Ho Hsh Ht Hk Hc Hs].
  assert (ticking (main s) = true ∧ constructing (main s) = false) as [Htk Hcn].
  { clear - Ht H. unfold exec_ticker in H.
    destruct (main s), (ticker_ s); simpl in *; done. }
  rewrite Hcn, Htk in Ht.
  assert (∀ t w, t ≠ NoThread → good (mkState (server_ s) (time_stream_ s) (keep_ticking_ s) t
    (main s) w (failed s))) as Hset.
  { intros t w Hn. split; simpl; try done. by rewrite Hcn, Htk. }
  unfold exec_ticker in H. destruct (ticker_ s) as [| | | |time|]; try done;
    try (injection H as <-; by apply Hset).
  - injection H as <-. apply Hset. by destruct (keep_ticking_ s).
  - destruct Hs as (key & Hkey & Hal); [by destruct (main s)|].
    rewrite Hkey in H. simpl in H. destruct Hal as [c Hal].
    { rewrite Hsh, Htk, orb_true_r. done. }
    rewrite Hal in H. injection H as <-. by rewrite <-Hkey; apply Hset.
Qed.

Lemma background_good s b s' :
  good s → GrpcAsyncServer.inv (server_ s) → background b = true →
  exec_server b s = Some s' → good s'.
Proof.
  intros [Hf Ho Hsh Ht Hk Hc Hs] Hi Hb H. unfold exec_server in H.
  assert (call_server (main s) b = Some (main s)) as Em by by destruct (main s), b.
  rewrite Em in H. simpl in H.
  destruct (GrpcAsyncServer.exec (server_ s) b) as [o|] eqn:E; [|done]. simpl in H.
  assert (stream_after b s = time_stream_ s) as Est by (unfold stream_after; by destruct (main s), b).
  rewrite Est in H. injection H as <-.
  destruct (background_frame _ _ _ Hb E) as (Eo & Es & Ec).
  assert (∀ key, (server_shutdown (server_ s) = false → is_stream key (rpc_handlers_ (server_ s))) →
    server_shutdown o = false → is_stream key (rpc_handlers_ o)) as Hkeep.
  { intros key H1 H2. eapply server_keeps_stream; [done..|]. apply H1. by rewrite <-Es. }
  split; simpl; try done.
  - destruct (main s); simpl in *; rewrite ?Eo; try done.
    destruct Ho as (key & Hown & Hst). exists key. split; [done|]. apply Hkeep; [done|by rewrite Es, Hsh].
  - by rewrite Es.
  - intros Hover. specialize (Hc Hover). rewrite Hc in Ec.
    assert (open_calls o ≤ 0); [|lia]. apply Ec. rewrite Hsh. by destruct (main s).
  - intros Hst. destruct (Hs Hst) as (key & ? & ?). exists key. split; [done|]. by apply Hkeep.
Qed.

(** The server shuts down: its handlers no longer matter. *)
Ltac same_stream Hs Emain :=
  let k := fresh "k" in
  destruct (Hs eq_refl) as (k & ? & ?); split; simpl; try done; exists k; unfold stream_after;
  rewrite Emain; split; [done|congruence].

Lemma owner_good s b s' :
  good s → GrpcAsyncServer.inv (server_ s) → crashed (server_ s) = None → background b = false →
  exec_server b s = Some s' → good s'.
Proof.
  intros [Hf Ho Hsh Ht Hk Hc Hs] Hi Hcr Hb H. unfold exec_server in H.
  destruct (call_server (main s) b) as [m|] eqn:Em; [|done]. simpl in H.
  destruct (GrpcAsyncServer.exec (server_ s) b) as [o|] eqn:E; [|done]. simpl in H. injection H as <-.
  pose proof (λ key, server_keeps_stream key _ _ _ Hi E) as Hkeep.
  unfold GrpcAsyncServer.exec in E. rewrite Hcr in E.
  destruct (main s) eqn:Emain, b as [key [h|h]|e|[]| | | | | | | | |]; simpl in Em; try done;
    injection Em as <-; simpl in E, Ho, Hsh, Ht, Hk, Hc, Hs.
  - unfold exec_register in E. rewrite Ho in E. case_bool_decide as Hn; [|done]. injection E as <-.
    split; simpl; try done. exists key. split; [done|]. rewrite emplace_fresh by done.
    exists h. apply lookup_insert_eq.
  - destruct Ho as (key & Hown & Hst). unfold exec_register_activate in E. rewrite Hown in E.
    injection E as <-. destruct (activate_frame key e (with_threads (run_thread (server_ s)) Ready
      (server_ s))) as (Eo & Es & Ec).
    split; simpl; rewrite ?Eo, ?Es; try done. intros _. exists key.
    unfold stream_after. rewrite Emain, Hown. split; [done|]. intros _. by apply activate_stream.
  - unfold exec_register in E. rewrite Ho in E. case_bool_decide as Hn; [|done]. injection E as <-.
    destruct (Hs eq_refl) as (k & Hk1 & Hk2).
    split; simpl; try done; [by exists key|]. intros _. exists k. unfold stream_after. rewrite Emain.
    split; [done|]. intros _. apply Hkeep; [done|by apply Hk2].
  - destruct Ho as (key & Hown). unfold exec_register_activate in E. rewrite Hown in E.
    injection E as <-. destruct (activate_frame key e (with_threads (run_thread (server_ s)) Ready
      (server_ s))) as (Eo & Es & Ec). destruct (Hs eq_refl) as (k & Hk1 & Hk2).
    split; simpl; rewrite ?Eo, ?Es; try done. intros _. exists k.
    unfold stream_after. rewrite Emain. split; [done|]. intros _. apply activate_stream. simpl.
    by apply Hk2.
  - unfold exec_shutdown in E. rewrite Ho in E. injection E as <-. same_stream Hs Emain.
  - unfold exec_shutdown_returns in E. rewrite Ho in E. case_bool_decide as Hz; [|done].
    injection E as <-. same_stream Hs Emain.
  - unfold exec_shutdown in E. rewrite Ho in E. injection E as <-. same_stream Hs Emain.
  - unfold exec_shutdown_returns in E. rewrite Ho in E. case_bool_decide as Hz; [|done].
    injection E as <-. same_stream Hs Emain.
  - unfold exec_queue_shutdown in E. rewrite Ho in E. injection E as <-. same_stream Hs Emain.
  - unfold exec_join in E. rewrite Ho in E. destruct (run_thread (server_ s)); try done.
    injection E as <-. same_stream Hs Emain.
Qed.

Lemma app_exec_good s a s' :
  good s → (crashed (server_ s) = None → GrpcAsyncServer.inv (server_ s)) →
  exec s a = Some s' → good s'.
Proof.
  unfold exec. intros Hg Hi H. destruct (failed s); [done|].
  destruct (crashed (server_ s)) eqn:Hc; [done|]. specialize (Hi eq_refl).
  destruct a as [|now|b]; [by eapply main_good|by eapply ticker_good|].
  destruct (background b) eqn:Hb; [by eapply background_good|by eapply owner_good].
Qed.

Lemma app_reach_good s : reach s → good s.
Proof.
  induction 1 as [s ->|s a s' Hr IH [He H]].
  - split; simpl; try done.
  - eapply app_exec_good; [done| |done]. by apply server_inv.
Qed.

(** ** The end of the ticker *)

Definition is_ticker (a : action) : bool := match a with Ticker _ => true | _ => false end.

(** The steps and the writes that are left once [keep_ticking_] is cleared. *)
Definition steps_left (t : ticker_pc) : nat :=
  match t with
  | NoThread | Ended => 0 | Testing => 1 | Writing _ => 2 | Reading => 3 | Sleeping => 4
  end.
Definition writes_left (t : ticker_pc) : nat :=
  match t with Sleeping | Reading | Writing _ => 1 | _ => 0 end.

Lemma exec_cleared s a s' :
  good s → keep_ticking_ s = false → exec s a = Some s' → failed s' = None →
  keep_ticking_ s' = false ∧
  steps_left (ticker_ s') + (if is_ticker a then 1 else 0) = steps_left (ticker_ s) ∧
  length (written s') + writes_left (ticker_ s') = length (written s) + writes_left (ticker_ s).
Proof.
  intros [_ _ _ _ Hk _ _] Hcl. rewrite Hk in Hcl. unfold exec.
  destruct (failed s); [done|]. destruct (crashed (server_ s)); [done|].
  destruct a as [|now|b]; intros H Hf.
  - unfold exec_main in H. destruct (main s); try done. rewrite Hcl in Hk.
    destruct (ticker_ s) eqn:Et; simplify_eq/=. rewrite Et. simpl. split_and!; [done|lia..].
  - rewrite Hcl in Hk. unfold exec_ticker in H. rewrite Hk in H.
    destruct (ticker_ s); simplify_eq/=; try done.
    destruct (_ ≫= _) as [[]|]; simplify_eq/=; try done.
    rewrite length_app. simpl. split_and!; [done|lia..].
  - unfold exec_server in H. destruct (call_server _ _); [|done]. simpl in H.
    destruct (GrpcAsyncServer.exec _ _); [|done]. simplify_eq/=.
    rewrite Hk, Hcl. split_and!; [done|lia..].
Qed.

Lemma run_cleared s ls s' :
  reach s → keep_ticking_ s = false → execution (env_step env exec) s ls s' →
  keep_ticking_ s' = false ∧
  length (List.filter is_ticker ls) + steps_left (ticker_ s') = steps_left (ticker_ s) ∧
  length (written s') + writes_left (ticker_ s') = length (written s) + writes_left (ticker_ s).
Proof.
  intros Hr Hk He. revert Hr Hk. induction He as [s|s a s1 ls s' [Ha Hx] He IH]; intros Hr Hk; [done|].
  assert (reach s1) as Hr1 by (eapply reachable_step; [done|by split]).
  destruct (exec_cleared s a s1 (app_reach_good s Hr) Hk Hx (good_failed _ (app_reach_good _ Hr1)))
    as (Hk1 & Hs1 & Hw1).
  destruct (IH Hr1 Hk1) as (? & Hs & Hw). simpl. destruct (is_ticker a); simpl; split_and!; done || lia.
Qed.

Lemma ticker_enabled s now :
  good s → crashed (server_ s) = None → ticker_ s ≠ NoThread → ticker_ s ≠ Ended →
  is_Some (exec s (Ticker now)).
Proof.
  intros [Hf _ _ _ _ _ _] Hc H0 H1. unfold exec. rewrite Hf, Hc. unfold exec_ticker.
  destruct (ticker_ s); try done; eauto. destruct (_ ≫= _) as [[]|]; eauto.
Qed.

(** ** Properties *)



End Server.
Arguments action : clear implicits.
Arguments state : clear implicits.

(** ** A concrete run: one handler of each kind, one call, then enter. *)
#[local] Instance demo_streams : AsyncRpcHandlerInterface
    (StreamRpcHandler.Connections nat) (nat * (gset addr → addr)) :=
  StreamRpc.stream_handler (Request := nat) (Response := nat) (Status := nat)
    (StreamRpcHandler.mkCallbacks false false).
#[local] Existing Instance GrpcAsyncServer.demo_handler.

Abbreviation demo_stream := (StreamRpcHandler.Connections nat).
Abbreviation demo_unary := (NonStreamRpcHandler.handler (Request := nat) (CallbackState := nat)).
Abbreviation demo_state := (state demo_stream demo_unary).
Abbreviation demo_action := (action demo_stream (nat * (gset addr → addr)) demo_unary
  NonStreamRpcHandler.surroundings).
Definition demo_exec : demo_state → demo_action → option demo_state := exec 0.
Abbreviation demo_env := (env : demo_state → demo_action → Prop).

Definition one_tick : list demo_action :=
  [Server (Register 1%N (inl StreamRpcHandler.empty_connections));
   Server (RegisterActivate (inl (0, next_address)));
   Server (Register 2%N (inr (NonStreamRpcHandler.mkHandler None 0)));
   Server (RegisterActivate (inr (GrpcAsyncServer.sent_from 5%N)));
   Main; Main; Ticker 0; Ticker 0; Ticker 61000000000; Ticker 0; Ticker 0;
   Main; Main].
Definition leaving : list demo_action := [Ticker 0; Ticker 62000000000; Ticker 0; Ticker 0; Main].

Definition demo (ls : list demo_action) : demo_state := default init (run demo_exec init ls).

(** The stream's handler allocates; everything else is computed. *)
Lemma demo_registered :
  reachable (λ s, s = init) (env_step demo_env demo_exec) (demo (take 2 one_tick)).
Proof.
  eapply (reachable_step _ _ (demo (take 1 one_tick))
    (Server (RegisterActivate (inl (0, next_address))))).
  - eapply (env_run_reachable demo_env demo_exec _ init (take 1 one_tick)); [done| |].
    + split; [|done]. apply StreamRpcHandler.wf_empty.
    + vm_compute. reflexivity.
  - split; [|vm_compute; reflexivity].
    assert (owner (server_ (demo (take 1 one_tick))) = Registering 1%N) as Ho
      by (vm_compute; reflexivity).
    assert (rpc_handlers_ (server_ (demo (take 1 one_tick))) !! 1%N
      = Some (inl StreamRpcHandler.empty_connections)) as Hh by (vm_compute; reflexivity).
    unfold env, GrpcAsyncServer.env, activation_env. rewrite Ho, Hh. exact next_address_fresh.
Qed.

Lemma demo_reachable ls :
  env_run demo_env demo_exec (demo (take 2 one_tick)) ls →
  is_Some (run demo_exec (demo (take 2 one_tick)) ls) →
  reachable (λ s, s = init) (env_step demo_env demo_exec)
    (default init (run demo_exec (demo (take 2 one_tick)) ls)).
Proof.
  intros He [s Hs]. rewrite Hs. eapply reachable_execution; [apply demo_registered|].
  by apply env_run_execution.
Qed.

Definition after_tick : demo_state :=
  default init (run demo_exec (demo (take 2 one_tick)) (drop 2 one_tick)).

Lemma after_tick_reachable :
  reachable (λ s, s = init) (env_step demo_env demo_exec) after_tick.
Proof.
  apply demo_reachable; [|vm_compute; by eexists].
  vm_compute. repeat split; by intros.
Qed.



End ExampleServer.
