(* ===== verification/NewArchExample.v ===== *)
(** * The class [ExampleServer] of the newer example

    [src/example/src/server/new_arch_server.cpp] keeps a copy of the class of
    [example_server.cpp] whose constructor is cut down: it registers the stream,
    but neither the simple call nor the ticker. Nothing in the program creates
    an object of it; here an owner does, who destroys it at some time. *)
From S2P Require Import Prelude StreamRpcHandler RpcHandler GrpcAsyncServer ExampleClock.
#[local] Open Scope nat_scope.

Module NewArchExample.
Import GrpcAsyncServer.
Section Server.
Context {Stream StreamEnv : Type} `{!AsyncRpcHandlerInterface Stream StreamEnv}.

Abbreviation server_state := (@GrpcAsyncServer.state Stream).
Abbreviation server_action := (@GrpcAsyncServer.action Stream StreamEnv).

(** Where the owner is. *)
Inductive owner_at : Type :=
| RegisterStream | ActivateStream (* [register_async_stream(...).stream()] *)
| Constructed
| TestTicker (* [if (ticker_.joinable()) ticker_.join();] *)
| ShutdownServer | AwaitCalls (* [server_->shutdown_and_wait();] *)
| DestroyServer | AwaitNothing | ShutdownQueue | JoinServer (* the destructor of [server_] *)
| Gone.

(** [ticker_]: whether the thread object is joinable. *)
Record state : Type := mkState {
  server_ : server_state;
  time_stream_ : option addr;
  keep_ticking_ : bool;
  ticker_ : bool;
  at_ : owner_at
}.

Definition init : state := mkState GrpcAsyncServer.init None true false RegisterStream.

Inductive action : Type :=
| Owner
| Server (a : server_action).

(** What the threads of the server and gRPC do on their own. *)
Definition background (a : server_action) : bool :=
  match a with
  | Take _ | ActivateNext _ | RunExit | Arrive _ | Reject _ | EndCall => true
  | _ => false
  end.

(** The calls of the constructor and the destructor. *)
Definition call_server (o : owner_at) (a : server_action) : option owner_at :=
  match o, a with
  | RegisterStream, Register _ _ => Some ActivateStream
  | ActivateStream, RegisterActivate _ => Some Constructed
  | ShutdownServer, Shutdown ShutdownAndWait => Some AwaitCalls
  | AwaitCalls, ShutdownReturns => Some DestroyServer
  | DestroyServer, Shutdown Destructor => Some AwaitNothing
  | AwaitNothing, ShutdownReturns => Some ShutdownQueue
  | ShutdownQueue, QueueShutdown => Some JoinServer
  | JoinServer, Join => Some Gone
  | o, a => if background a then Some o else None
  end.

Definition exec_owner (s : state) : option state :=
  match at_ s with
  | Constructed => Some (mkState (server_ s) (time_stream_ s) false (ticker_ s) TestTicker)
  | TestTicker =>
      (* the join of a thread that nothing has started would not return *)
      if ticker_ s then None
      else Some (mkState (server_ s) (time_stream_ s) (keep_ticking_ s) false ShutdownServer)
  | _ => None
  end.

Definition stream_after (a : server_action) (s : state) : option addr :=
  match at_ s, a, owner (server_ s) with
  | ActivateStream, RegisterActivate _, Registering key => Some key
  | _, _, _ => time_stream_ s
  end.

Definition exec (s : state) (a : action) : option state :=
  match a with
  | Owner => exec_owner s
  | Server b =>
      o ← call_server (at_ s) b;
      server ← GrpcAsyncServer.exec (server_ s) b;
      Some (mkState server (stream_after b s) (keep_ticking_ s) (ticker_ s) o)
  end.

Definition env (s : state) (a : action) : Prop :=
  match a with Server b => GrpcAsyncServer.env (server_ s) b | Owner => True end.

Abbreviation reach := (reachable (λ s, s = init) (env_step env exec)).

(** ** The server as a component *)

Lemma new_server_reach s :
  reach s → reachable (λ s, s = GrpcAsyncServer.init)
    (env_step GrpcAsyncServer.env GrpcAsyncServer.exec) (server_ s).
Proof.
  apply (reachable_invariant _ _ (λ s, reachable (λ s, s = GrpcAsyncServer.init)
    (env_step GrpcAsyncServer.env GrpcAsyncServer.exec) (server_ s))).
  - intros ? ->. by constructor.
  - intros s1 [|b] s2 IH [He Hx]; simpl in Hx.
    + unfold exec_owner in Hx. destruct (at_ s1); try done; [by simplify_eq|].
      by destruct (ticker_ s1); simplify_eq.
    + destruct (call_server _ _); [|done]. simpl in Hx.
      destruct (GrpcAsyncServer.exec (server_ s1) b) as [srv|] eqn:E; [|done]. simplify_eq/=.
      eapply reachable_step; [done|]. by split.
Qed.

(** Handlers are added by registrations only. *)
Lemma activate_keys k e (s : server_state) key :
  is_Some (rpc_handlers_ (activate k e s) !! key) → is_Some (rpc_handlers_ s !! key).
Proof.
  unfold activate. destruct (rpc_handlers_ s !! k) as [h|] eqn:Hk; [|done].
  destruct (handler_activate_next h e) as [[h' l]|]; [|done]. destruct (queue_shutdown s); [done|].
  simpl. destruct (decide (k = key)) as [->|]; [by rewrite Hk|by rewrite lookup_insert_ne].
Qed.

Lemma exec_keys a (s s' : server_state) key :
  GrpcAsyncServer.exec s a = Some s' → is_Some (rpc_handlers_ s' !! key) →
  is_Some (rpc_handlers_ s !! key) ∨ (∃ h, a = Register key h) ∧ owner s' = Registering key.
Proof.
  unfold GrpcAsyncServer.exec. destruct (crashed s); [done|].
  destruct a as [k h|e|kind| | | |i|e| |i|i|]; simpl; intros Hs Hkey.
  - unfold exec_register in Hs. destruct (owner s); try done. case_bool_decide as Hn; simplify_eq/=.
    rewrite emplace_fresh in Hkey by done.
    destruct (decide (k = key)) as [->|]; [right; eauto|]. rewrite lookup_insert_ne in Hkey by done. by left.
  - unfold exec_register_activate in Hs. destruct (owner s); simplify_eq.
    left. by apply (activate_keys key0 e (with_threads (run_thread s) Ready s)).
  - unfold exec_shutdown in Hs. destruct (owner s); simplify_eq. by left.
  - unfold exec_shutdown_returns in Hs.
    destruct (owner s) as [| |[]| | |]; try case_bool_decide; simplify_eq; by left.
  - unfold exec_queue_shutdown in Hs. destruct (owner s); simplify_eq. by left.
  - unfold exec_join in Hs. destruct (owner s), (run_thread s); simplify_eq.
    simpl in Hkey. rewrite lookup_empty in Hkey. by destruct Hkey.
  - unfold exec_take in Hs. destruct (run_thread s); try done.
    destruct (events s !! i) as [[tag []]|]; simplify_eq/=.
    + destruct (rpc_handlers_ s !! tag); simplify_eq; by left.
    + left. destruct Hkey as [h [_ Hh]%lookup_delete_Some]. by exists h.
  - unfold exec_activate_next in Hs. destruct (run_thread s); simplify_eq.
    left. by apply (activate_keys key0 e (with_threads Polling (owner s) s)).
  - unfold exec_run_exit in Hs. destruct (run_thread s), (requested s), (events s); try done.
    destruct (queue_shutdown s); simplify_eq. by left.
  - destruct (server_shutdown s); [done|]. unfold exec_report in Hs.
    destruct (requested s !! i); simplify_eq. by left.
  - destruct (server_shutdown s); [|done]. unfold exec_report in Hs.
    destruct (requested s !! i); simplify_eq. by left.
  - unfold exec_end_call in Hs. destruct (open_calls s); simplify_eq. by left.
Qed.

Lemma background_owner a (s s' : server_state) :
  background a = true → GrpcAsyncServer.exec s a = Some s' → owner s' = owner s.
Proof.
  unfold GrpcAsyncServer.exec. destruct (crashed s); [done|].
  assert (∀ key e (s : server_state), owner (activate key e s) = owner s) as Hact.
  { intros key e s1. unfold activate. destruct (rpc_handlers_ s1 !! key); [|done].
    destruct (handler_activate_next _ _) as [[? ?]|]; [|done]. by destruct (queue_shutdown s1). }
  destruct a as [k h|e|kind| | | |i|e| |i|i|]; try done; simpl; intros _ Hs.
  - unfold exec_take in Hs. destruct (run_thread s); try done.
    destruct (events s !! i) as [[tag []]|]; simplify_eq/=; [|done].
    by destruct (rpc_handlers_ s !! tag); simplify_eq/=.
  - unfold exec_activate_next in Hs. destruct (run_thread s); simplify_eq. by rewrite Hact.
  - unfold exec_run_exit in Hs. destruct (run_thread s), (requested s), (events s); try done.
    by destruct (queue_shutdown s); simplify_eq/=.
  - destruct (server_shutdown s); [done|]. unfold exec_report in Hs.
    by destruct (requested s !! i); simplify_eq/=.
  - destruct (server_shutdown s); [|done]. unfold exec_report in Hs.
    by destruct (requested s !! i); simplify_eq/=.
  - unfold exec_end_call in Hs. by destruct (open_calls s); simplify_eq/=.
Qed.

Record good (s : state) : Prop := mkGood {
  good_ticker : ticker_ s = false;
  good_empty : at_ s = RegisterStream → rpc_handlers_ (server_ s) = ∅;
  good_handlers key : is_Some (rpc_handlers_ (server_ s) !! key) →
    match at_ s with
    | ActivateStream => owner (server_ s) = Registering key
    | _ => time_stream_ s = Some key
    end
}.

Lemma exec_new_good s a s' : good s → exec s a = Some s' → good s'.
Proof.
  intros [Ht He Hh] Hs. destruct a as [|b]; simpl in Hs.
  - unfold exec_owner in Hs. destruct (at_ s) eqn:Ea; try done; [by simplify_eq; split|].
    rewrite Ht in Hs. by simplify_eq; split.
  - destruct (call_server (at_ s) b) as [o|] eqn:Ec; [|done]. simpl in Hs.
    destruct (GrpcAsyncServer.exec (server_ s) b) as [server|] eqn:Es; [|done]. simplify_eq/=.
    pose proof (λ key, exec_keys b (server_ s) server key Es) as Hkeys.
    destruct (background b) eqn:Hb.
    + pose proof (background_owner b _ _ Hb Es) as Hown.
      assert (o = at_ s ∧ stream_after b s = time_stream_ s) as [-> Hst]
        by (unfold stream_after; destruct (at_ s), b; simpl in *; simplify_eq; done).
      assert (∀ key, is_Some (rpc_handlers_ server !! key) → is_Some (rpc_handlers_ (server_ s) !! key)) as Hsub.
      { intros key Hkey. destruct (Hkeys key Hkey) as [?|[[h ->] _]]; [done|by simpl in Hb]. }
      split; simpl; [done| |].
      * intros Ea. apply map_empty. intros key. apply eq_None_not_Some. intros Hkey.
        apply Hsub in Hkey. rewrite He in Hkey by done. rewrite lookup_empty in Hkey. by destruct Hkey.
      * intros key Hkey. specialize (Hh key (Hsub key Hkey)). rewrite Hst, Hown. done.
    + split; simpl; [done| |].
      * by destruct (at_ s), b as [| |[]| | | | | | | | |]; simpl in *; simplify_eq.
      * intros key Hkey. unfold stream_after.
        destruct (at_ s) eqn:Ea, b as [k h|e|[]| | | | | | | | |]; simpl in Ec; simplify_eq;
          destruct (Hkeys key Hkey) as [Hin|[[h' Heq] Hown]]; try done;
          try (apply Hh in Hin; by rewrite ?Hin).
        by rewrite He, lookup_empty in Hin by done.
Qed.

Lemma new_reach_good s : reach s → good s.
Proof.
  apply (reachable_invariant _ _ good).
  - intros ? ->. split; [done..|]. simpl. intros key [? ?]. by simplify_map_eq.
  - intros s1 a s2 Hg [_ Hs]. by eapply exec_new_good.
Qed.

(** The cut-down server never ticks and serves one rpc. What it does is a run of
    [GrpcAsyncServer]; from the constructor to the end of the destructor the only
    handler is that of the stream, so at most one call is asked for at a time and
    the simple call is never answered; no thread is ever started for the ticker,
    so the destructor does not wait for one. *)
Theorem new_example_server_only_streams s :
  reach s →
  reachable (λ s, s = GrpcAsyncServer.init)
    (env_step GrpcAsyncServer.env GrpcAsyncServer.exec) (server_ s) ∧
  ticker_ s = false ∧
  (at_ s ≠ ActivateStream → ∀ key, is_Some (rpc_handlers_ (server_ s) !! key) → time_stream_ s = Some key) ∧
  (crashed (server_ s) = None → length (keys (server_ s)) ≤ 1).
Proof.
  intros Hr. pose proof (new_server_reach s Hr) as Hsr. pose proof (new_reach_good s Hr) as [Ht He Hh].
  split_and!; [done..| |].
  - intros Ha key Hkey. specialize (Hh key Hkey). revert Ha Hh. by destruct (at_ s).
  - intros Hc. apply server_reach_inv in Hsr as [[? _]|[Hi _]]; [congruence|].
    destruct (inv_keys _ Hi) as [Hnd Hk].
    assert (∀ k k', k ∈ keys (server_ s) → k' ∈ keys (server_ s) → k = k') as Heq.
    { intros k k' H1%Hk%Hh H2%Hk%Hh. revert H1 H2. destruct (at_ s); congruence. }
    destruct (keys (server_ s)) as [|k [|k' l]]; simpl; try lia.
    rewrite (Heq k k') in Hnd; [|set_solver..]. apply NoDup_cons in Hnd as [Hn _]. set_solver.
Qed.

End Server.
Arguments state : clear implicits.
Arguments action : clear implicits.

(** [time_since], which answers the simple call in [main] instead of a member of
    the class: times are in nanoseconds, [now] is [system_clock::now()]. *)
Definition time_since (start_time now : Z) (request : ExampleClock.Format) : string :=
  ExampleClock.get_time request (now - start_time).

(** It is the display of the other server, with which it shares its text. *)
Example time_since_minute :
  time_since 5 61000000005 ExampleClock.COMPOUND = "0h  1m  1s"%string ∧
  time_since 5 61000000005 ExampleClock.MINUTES = "1m"%string.
Proof. split; vm_compute; reflexivity. Qed.

End NewArchExample.
