(* ===== verification/TaskClient.v ===== *)
(** * The client of the examples that is driven by tasks

    [src/example/src/client/client.hpp] and
    [src/example/src/client/unary_rpc_handler.hpp]: a client that does everything
    on a thread fed by a queue of tasks. *)
From S2P Require Import Prelude Tag ExampleTagger.

Module TaskClient.
Import ExampleTagger.

(** ** Calls *)

(** What a client does besides changing its state: it starts a call and waits
    for it under a tag, and calls the user back. *)
Inductive effect : Type :=
| StartCall (rpc tag : addr)
| OnFinish (rpc : addr).

(** The members of [Client] and its tagger; [completion_queue_] holds whether
    it was shut down. [next_calls] counts the calls of [Next]. *)
Record client : Type := mkClient {
  completion_queue_ : option bool;
  channel_ : bool;
  stub_ : bool;
  completion_queue_valid_ : bool;
  rpcs_ : gset addr;
  tags_ : gmap addr Tag;
  next_calls : nat
}.

(** [UnaryRpcHandler::send]; [fresh] is the address of the tag. *)
Definition send (rpc fresh : addr) (c : client) : client * list effect :=
  let '(tag, tags) := make_tag fresh rpc ClientFinished (tags_ c) in
  (mkClient (completion_queue_ c) (channel_ c) (stub_ c) (completion_queue_valid_ c) (rpcs_ c)
     tags (next_calls c), [StartCall rpc tag]).

Definition set_valid (valid : bool) (c : client) : client :=
  mkClient (completion_queue_ c) (channel_ c) (stub_ c) valid (rpcs_ c) (tags_ c) (next_calls c).
Definition erase (rpc : addr) (c : client) : client :=
  mkClient (completion_queue_ c) (channel_ c) (stub_ c) (completion_queue_valid_ c)
    (rpcs_ c ∖ {[rpc]}) (tags_ c) (next_calls c).

(** [process_completion_queue]; [event] is what [Next] returns. *)
Definition process_completion_queue (event : option (addr * bool)) (c : client)
    : outcome (client * list effect) :=
  if negb (completion_queue_valid_ c) then Ret (c, [])
  else
    let c := mkClient (completion_queue_ c) (channel_ c) (stub_ c) (completion_queue_valid_ c)
               (rpcs_ c) (tags_ c) (S (next_calls c)) in
    match completion_queue_ c, event with
    | None, _ => Fault null_dereference
    | Some _, None => Ret (set_valid false c, [])
    | Some _, Some (received_tag, completed_successfully) =>
        '(tag, tags) ← get_tag received_tag (tags_ c);
        let c := mkClient (completion_queue_ c) (channel_ c) (stub_ c) (completion_queue_valid_ c)
                   (rpcs_ c) tags (next_calls c) in
        if (completed_successfully : bool) then
          match label tag with
          | ClientConnectionChange => Ret (c, [])
          | ClientFinished =>
              if decide (data tag ∈ rpcs_ c) then Ret (erase (data tag) c, [OnFinish (data tag)])
              else Fault use_after_free
          | ServerNewRpc | ServerWriting | ServerDone =>
              Fault (runtime_error "Don't use server tags in the client ya dummy")
          end
        else Ret (erase (data tag) c, [])
    end.

(** ** Tasks *)
Inductive task : Type :=
| InitializeObjects
| DestroyObjects
| PoisonPill.

#[global] Instance task_eq_dec : EqDecision task.
Proof. solve_decision. Defined.

Inductive owner_pc : Type := Alive | Joining | Destroyed.

Record state : Type := mkState {
  members : client;
  task_queue_ : list task;
  returned : bool; (* [task_thread_] has left its loop *)
  owner : owner_pc;
  crashed : option fault
}.

(** The constructor. *)
Definition init : state :=
  mkState (mkClient None false false false ∅ ∅ 0) [InitializeObjects] false Alive None.

(** The tasks of the constructor and the destructor; the last one ends with an
    assertion. *)
Definition run_task (ndebug : bool) (event : option (addr * bool)) (t : task) (c : client)
    : outcome client :=
  match t with
  | InitializeObjects =>
      Ret (mkClient (Some false) true true (completion_queue_valid_ c) (rpcs_ c) (tags_ c)
             (next_calls c))
  | DestroyObjects =>
      match completion_queue_ c with
      | None => Fault null_dereference
      | Some _ =>
          '(c, _) ← process_completion_queue event
                      (mkClient (Some true) false false (completion_queue_valid_ c) (rpcs_ c)
                         (tags_ c) (next_calls c));
          if negb ndebug && completion_queue_valid_ c then Fault assert_failed else Ret c
      end
  | PoisonPill => Ret c
  end.

Inductive action : Type :=
| RunTask (event : option (addr * bool))
| Destructor
| Join.

Definition exec (ndebug : bool) (s : state) (a : action) : option state :=
  match crashed s with
  | Some _ => None
  | None =>
      match a with
      | RunTask event =>
          match returned s, task_queue_ s with
          | false, PoisonPill :: ts => Some (mkState (members s) ts true (owner s) None)
          | false, t :: ts =>
              match run_task ndebug event t (members s) with
              | Ret c => Some (mkState c ts false (owner s) None)
              | Fault e => Some (mkState (members s) ts false (owner s) (Some e))
              end
          | _, _ => None
          end
      | Destructor =>
          match owner s with
          | Alive =>
              Some (mkState (members s) (task_queue_ s ++ [DestroyObjects; PoisonPill]) (returned s)
                      Joining None)
          | _ => None
          end
      | Join =>
          match owner s, returned s with
          | Joining, true => Some (mkState (members s) (task_queue_ s) true Destroyed None)
          | _, _ => None
          end
      end
  end.

Definition initialized (c : client) : Prop := is_Some (completion_queue_ c).

(** The tasks that are left, by the progress of the owner and the thread. *)
Definition tasks_ok (s : state) : Prop :=
  match owner s with
  | Alive => returned s = false ∧
      (task_queue_ s = [InitializeObjects] ∨ task_queue_ s = [] ∧ initialized (members s))
  | Joining =>
      returned s = false ∧
        (task_queue_ s = [InitializeObjects; DestroyObjects; PoisonPill] ∨
         initialized (members s) ∧ task_queue_ s = [DestroyObjects; PoisonPill] ∨
         task_queue_ s = [PoisonPill]) ∨
      returned s = true
  | Destroyed => returned s = true
  end.

Record inv (s : state) : Prop := mkInv {
  inv_crashed : crashed s = None;
  inv_valid : completion_queue_valid_ (members s) = false;
  inv_next : next_calls (members s) = 0;
  inv_tasks : tasks_ok s
}.

Lemma run_task_spec ndebug event t c :
  completion_queue_valid_ c = false → (t = DestroyObjects → initialized c) →
  ∃ c', run_task ndebug event t c = Ret c' ∧ completion_queue_valid_ c' = false ∧
    next_calls c' = next_calls c ∧ (t = InitializeObjects → initialized c').
Proof.
  intros Hv Hi. destruct t; simpl.
  - eexists. split_and!; [done..|]. by eexists.
  - destruct (Hi eq_refl) as [b ->]. unfold process_completion_queue. simpl. rewrite Hv. simpl.
    rewrite ?Hv, andb_false_r. eexists. split_and!; done.
  - by exists c.
Qed.

Lemma exec_task_inv ndebug s a s' : inv s → exec ndebug s a = Some s' → inv s'.
Proof.
  intros [Hc Hv Hn Ht] H. unfold exec in H. rewrite Hc in H. unfold tasks_ok in Ht.
  destruct a as [event| |].
  - destruct (returned s) eqn:Er; [done|].
    assert (∀ t ts, task_queue_ s = t :: ts → t ≠ PoisonPill → (t = DestroyObjects → initialized (members s)) →
      ∃ c, s' = mkState c ts false (owner s) None ∧ completion_queue_valid_ c = false ∧
        next_calls c = 0 ∧ (t = InitializeObjects → initialized c)) as Hrun.
    { intros t ts Et Hne Hi. rewrite Et in H.
      destruct (run_task_spec ndebug event t (members s) Hv Hi) as (c & E & ? & ? & ?).
      exists c. rewrite E in H. destruct t; try done; split_and!; try done; congruence. }
    destruct (owner s) eqn:Eo.
    + destruct Ht as [_ [Et|[Et _]]]; [|by rewrite Et in H].
      destruct (Hrun _ _ Et) as (c & -> & ? & ? & ?); [done..|]. constructor; try done.
      unfold tasks_ok; simpl; rewrite ?Eo; naive_solver.
    + destruct Ht as [[_ [Et|[[Hi Et]|Et]]]|?]; [| | |done].
      * destruct (Hrun _ _ Et) as (c & -> & ? & ? & ?); [done..|]. constructor; try done.
        unfold tasks_ok; simpl; rewrite ?Eo; naive_solver.
      * destruct (Hrun _ _ Et) as (c & -> & ? & ? & ?); [done..|]. constructor; try done.
        unfold tasks_ok; simpl; rewrite ?Eo; naive_solver.
      * rewrite Et in H. injection H as <-. constructor; try done. unfold tasks_ok. simpl. by right.
    + congruence.
  - destruct (owner s) eqn:Eo; try done. injection H as <-. constructor; try done.
    unfold tasks_ok. simpl. left. destruct Ht as [-> [-> |[-> ?]]]; auto.
  - destruct (owner s) eqn:Eo; try done. destruct (returned s); [|done]. injection H as <-.
    by constructor.
Qed.

Abbreviation reach ndebug := (reachable (λ s, s = init) (exec_step (exec ndebug))).

Lemma reach_task_inv ndebug s : reach ndebug s → inv s.
Proof.
  apply reachable_invariant; [|intros ? ? ?; apply exec_task_inv].
  intros ? ->. constructor; try done. unfold tasks_ok. simpl. auto.
Qed.

(** What remains to be run when the owner joins: at most three tasks, each of
    which runs, and then the thread has returned. *)
Lemma joining_returned ndebug s :
  inv s → owner s = Joining → returned s = true →
  ∃ s', exec ndebug s Join = Some s' ∧ owner s' = Destroyed.
Proof. intros [Hc _ _ _] Ho Hr. unfold exec. rewrite Hc, Ho, Hr. by eexists. Qed.

Lemma joining_task ndebug s t ts :
  inv s → owner s = Joining → returned s = false → task_queue_ s = t :: ts →
  (t = DestroyObjects → initialized (members s)) →
  ∃ s', exec ndebug s (RunTask None) = Some s' ∧ inv s' ∧ owner s' = Joining ∧
    task_queue_ s' = ts ∧ returned s' = bool_decide (t = PoisonPill) ∧
    (t = InitializeObjects → initialized (members s')).
Proof.
  intros Hi Ho Hr Et Hd. pose proof Hi as [Hc Hv _ _].
  destruct (run_task_spec ndebug None t (members s) Hv Hd) as (c & E & _ & _ & Hc').
  assert (∃ s2, exec ndebug s (RunTask None) = Some s2 ∧ owner s2 = Joining ∧ task_queue_ s2 = ts ∧
    returned s2 = bool_decide (t = PoisonPill) ∧ (t = InitializeObjects → initialized (members s2)))
    as (s2 & E2 & ? & ? & ? & ?).
  { unfold exec. rewrite Hc, Hr, Et, E. destruct t; eexists; split_and!; try done; congruence. }
  exists s2. split_and!; try done. by eapply exec_task_inv.
Qed.

Lemma joining_ends ndebug s :
  inv s → owner s = Joining →
  ∃ n s', n ≤ 3 ∧ run (exec ndebug) s (replicate n (RunTask None) ++ [Join]) = Some s' ∧
    owner s' = Destroyed.
Proof.
  assert (∀ s, inv s → owner s = Joining → returned s = true →
    ∃ s', run (exec ndebug) s (replicate 0 (RunTask None) ++ [Join]) = Some s' ∧ owner s' = Destroyed)
    as H0.
  { intros s1 ? ? ?. destruct (joining_returned ndebug s1) as (s2 & E & ?); [done..|].
    exists s2. simpl. by rewrite E. }
  assert (∀ s, inv s → owner s = Joining → returned s = false → task_queue_ s = [PoisonPill] →
    ∃ s', run (exec ndebug) s (replicate 1 (RunTask None) ++ [Join]) = Some s' ∧ owner s' = Destroyed)
    as H1.
  { intros s1 ? ? ? ?. destruct (joining_task ndebug s1 PoisonPill []) as (s2 & E & ? & ? & ? & ? & _);
      [done..|]. destruct (H0 s2) as (s3 & E3 & ?); [done..|]. exists s3. cbn in *. by rewrite E. }
  assert (∀ s, inv s → owner s = Joining → returned s = false → initialized (members s) →
    task_queue_ s = [DestroyObjects; PoisonPill] →
    ∃ s', run (exec ndebug) s (replicate 2 (RunTask None) ++ [Join]) = Some s' ∧ owner s' = Destroyed)
    as H2.
  { intros s1 ? ? ? ? ?.
    destruct (joining_task ndebug s1 DestroyObjects [PoisonPill]) as (s2 & E & ? & ? & ? & ? & _);
      [done..|]. destruct (H1 s2) as (s3 & E3 & ?); [done..|]. exists s3. cbn in *. by rewrite E. }
  intros Hi Ho. pose proof (inv_tasks s Hi) as Ht. unfold tasks_ok in Ht. rewrite Ho in Ht.
  destruct Ht as [[Hr [Et|[[? Et]|Et]]]|Hr].
  - destruct (joining_task ndebug s InitializeObjects [DestroyObjects; PoisonPill])
      as (s2 & E & ? & ? & ? & ? & Hini); [done..|].
    destruct (H2 s2) as (s3 & E3 & ?); auto. exists 3, s3. split_and!; [lia| |done].
    cbn in *. by rewrite E.
  - destruct (H2 s) as (s' & ? & ?); [done..|]. exists 2, s'. split_and!; [lia|done..].
  - destruct (H1 s) as (s' & ? & ?); [done..|]. exists 1, s'. split_and!; [lia|done..].
  - destruct (H0 s) as (s' & ? & ?); [done..|]. exists 0, s'. split_and!; [lia|done..].
Qed.

(** The completion queue of the client is never read: the flag that allows
    it is false from the start and nothing sets it, so [process_completion_queue]
    always returns at once and no event of a call reaches the user. The
    destructor is orderly all the same: the assertion holds, the queue object
    exists when it is shut down, and after at most three tasks the thread can be
    joined. *)
Theorem completion_queue_never_read ndebug s :
  reach ndebug s →
  crashed s = None ∧ completion_queue_valid_ (members s) = false ∧ next_calls (members s) = 0 ∧
  (∀ event, process_completion_queue event (members s) = Ret (members s, [])) ∧
  (owner s = Joining →
   ∃ n s', n ≤ 3 ∧ run (exec ndebug) s (replicate n (RunTask None) ++ [Join]) = Some s' ∧
     owner s' = Destroyed).
Proof.
  intros Hr. pose proof (reach_task_inv ndebug s Hr) as Hi. pose proof Hi as [Hc Hv Hn Ht].
  split_and!; [done..| |].
  { intros event. unfold process_completion_queue. by rewrite Hv. }
  intros Ho. by apply joining_ends.
Qed.

Lemma completion_queue_never_read_witness :
  ∃ s, reach false s ∧ owner s = Joining ∧ crashed s = None ∧
    ∃ n s', n ≤ 3 ∧ run (exec false) s (replicate n (RunTask None) ++ [Join]) = Some s' ∧
      owner s' = Destroyed.
Proof.
  assert (∃ s, run (exec false) init [RunTask None; Destructor] = Some s ∧ owner s = Joining)
    as (s & E & Ho) by (vm_compute; eexists; split; reflexivity).
  assert (reach false s) as Hr by (eapply run_reachable; [|exact E]; reflexivity).
  exists s. pose proof (completion_queue_never_read false s Hr) as (Hc & _ & _ & _ & H).
  split_and!; [done..|]. by apply H.
Defined.

End TaskClient.
