(* ===== verification/ExampleClient.v ===== *)
(** * The console client of the examples

    [src/example/src/example_client.cpp]: a client built on [GrpcClient]
    ([Module ExampleClient]), and the loop that reads its commands ([Module
    Console]). *)
From S2P Require Import Prelude GrpcClientStream GrpcClient ExampleClock.

Module ExampleClient.
Export GrpcClient.
Import ExampleClock.

Section App.
Context {Update Status : Type}.
Context (try_cancel : reader Update Status → reader Update Status).

(** What the thread of [main] does inside [toggle_streaming]: the calls of
    [on_update] and [on_finish] that follow [register_stream]. *)
Inductive caller_pc : Type :=
| Idle
| SettingUpdate (key : addr)
| SettingFinish (key : addr).

(** [class ExampleClient]. [stream_context_] points to the context of the last
    start of a stream, which is alive while that stream is streaming. *)
Record app : Type := mkApp {
  grpc_client_ : state Update Status;
  stream_context_ : option addr;
  caller : caller_pc;
  failed : option fault
}.

(** The members before the body of the constructor, which calls
    [change_server]; that call is [Kill (ChangeServer host_address)] and the
    steps that follow it. *)
Definition app_init : app := mkApp init None Idle None.

(** The streams of [new] that were started since [old]: the function that was
    given to [register_stream] has run for them. *)
Definition newly_started (old new : gmap addr (stream Update Status)) : list addr :=
  fst <$> filter (λ kx, match old !! kx.1 with Some st => starts st | None => 0 end < starts kx.2)
            (map_to_list new).

Definition is_finish (e : addr * event Update Status) : bool :=
  match e.2 with OnFinish _ => true | OnUpdate _ => false end.

(** What the callbacks of the streams do to [stream_context_]: the start of a
    stream sets it, the end of any stream resets it. *)
Definition context_after (old new : state Update Status) (context : option addr) : option addr :=
  if existsb is_finish (drop (length (stream_events old)) (stream_events new)) then None
  else match last (newly_started (streams (shared old)) (streams (shared new))) with
       | Some k => Some k
       | None => context
       end.

(** A step of the client with the callbacks it runs. *)
Definition lift (pc : caller_pc) (a : action Update Status) (s : app) : option app :=
  match exec try_cancel (grpc_client_ s) a with
  | Some c => Some (mkApp c (context_after (grpc_client_ s) c (stream_context_ s)) pc None)
  | None => None
  end.

(** [stream_context_->TryCancel()] *)
Definition cancel_stream (key : addr) (s : app) : app :=
  let c := grpc_client_ s in
  let d := shared c in
  match streams d !! key with
  | Some st =>
      if streaming st then
        let st := mkStream (context_ st) (try_cancel <$> reader_ st) (stream_thread_ st)
                    (init_func_ st) (starts st) (on_update_ st) (on_finish_ st) in
        mkApp (with_shared (mkSharedData (connection_state d) (channel d) (stub d)
                              (<[key := st]> (streams d))) c)
          (stream_context_ s) (caller s) None
      else mkApp c (stream_context_ s) (caller s) (Some use_after_free)
  | None => mkApp c (stream_context_ s) (caller s) (Some use_after_free)
  end.

(** [toggle_streaming] up to the return of [register_stream]; [key] is the
    address of the stream that is allocated. *)
Definition toggle_streaming (key : addr) (init_func : nat → reader Update Status) (s : app)
    : option app :=
  match stream_context_ s with
  | Some k => Some (cancel_stream k s)
  | None => lift (SettingUpdate key) (RegisterStream key init_func) s
  end.

Inductive app_action : Type :=
| Toggle (key : addr) (init_func : nat → reader Update Status)
| Chain (* [.on_update(...)], [.on_finish(...)] *)
| Client (a : action Update Status).

(** The steps of the library that [ExampleClient] does not take itself. *)
Definition library_action (a : action Update Status) : bool :=
  match a with RegisterStream _ _ | OnStreamUpdate _ | OnStreamFinish _ => false | _ => true end.

Definition app_exec (s : app) (a : app_action) : option app :=
  match failed s with
  | Some _ => None
  | None =>
      match a, caller s with
      | Toggle key init_func, Idle => toggle_streaming key init_func s
      | Chain, SettingUpdate key => lift (SettingFinish key) (OnStreamUpdate key) s
      | Chain, SettingFinish key => lift Idle (OnStreamFinish key) s
      | Client a, pc => if library_action a then lift pc a s else None
      | _, _ => None
      end
  end.

Definition app_action_ok (a : app_action) : Prop :=
  match a with Client a => action_ok a | _ => True end.

Abbreviation app_reach :=
  (reachable (λ s, s = app_init) (exec_step_ok app_exec app_action_ok)).

(** [get_server_time_now]; [rpc] is the display time after
    [stub.GetServerTimeNow], which is empty if the call fails. *)
Definition get_server_time_now (rpc : Format → string) (format : Format) (s : app)
    : outcome string :=
  used ← use_stub (shared (grpc_client_ s));
  Ret (if (used : bool) then rpc format else "Not connected a server")%string.

Lemma lift_inv pc a s s' :
  inv (grpc_client_ s) → action_ok a → lift pc a s = Some s' → inv (grpc_client_ s').
Proof.
  intros Hi Ha H. unfold lift in H. destruct (exec _ _ _) as [c|] eqn:E; [|done].
  injection H as <-. apply exec_inv in E as (_ & _ & E).
  by destruct (client_step_inv try_cancel _ a c Hi Ha E).
Qed.

Lemma cancel_inv k s : inv (grpc_client_ s) → inv (grpc_client_ (cancel_stream k s)).
Proof.
  intros Hi. pose proof Hi as [Hd Ho]. unfold cancel_stream.
  destruct (streams _ !! k) as [st|] eqn:Hk; [|done]. destruct (streaming st) eqn:Est; [|done].
  constructor; [|done]. apply change_stream_ok; [done|].
  intros j x. destruct (decide (k = j)) as [<-|].
  - rewrite lookup_insert_eq. intros [= <-]. destruct (ok_wf _ Hd k st Hk) as [Ht Hr].
    split; [|eauto]. split; [done|]. simpl. intros Hc. destruct (Hr Hc) as [r ->]. by eexists.
  - rewrite lookup_insert_ne by done. intros Hj. split; [by apply (ok_wf _ Hd j)|eauto].
Qed.

Lemma app_reach_inv s : app_reach s → inv (grpc_client_ s).
Proof.
  revert s. apply (reachable_invariant _ _ (λ s, inv (grpc_client_ s)));
    [intros ? ->; apply client_init_inv|].
  intros s1 a s2 Hi [Ha H]. unfold app_exec in H. destruct (failed s1); [done|].
  destruct a as [key f| |a].
  - destruct (caller s1); try done. unfold toggle_streaming in H.
    destruct (stream_context_ s1); [injection H as <-; by apply cancel_inv|].
    by apply (lift_inv _ _ s1) in H.
  - destruct (caller s1); try done; by apply (lift_inv _ _ s1) in H.
  - destruct (library_action a); [|done]. by apply (lift_inv _ _ s1) in H.
Qed.

(** A step of the client that starts no stream and runs no callback. *)
Lemma newly_started_nil (old new : gmap addr (stream Update Status)) :
  (∀ k st, new !! k = Some st → starts st ≤ match old !! k with Some st => starts st | None => 0 end) →
  newly_started old new = [].
Proof.
  intros H. unfold newly_started.
  destruct (filter _ (map_to_list new)) as [|[k st] l] eqn:E; [done|].
  assert ((k, st) ∈ filter (λ kx, match old !! kx.1 with Some st => starts st | None => 0 end
    < starts kx.2) (map_to_list new)) as Hin by (rewrite E; by left).
  apply list_elem_of_filter in Hin as [Hlt Hin%elem_of_map_to_list]. simpl in Hlt.
  specialize (H k st Hin). lia.
Qed.

Lemma lift_silent pc a s d :
  exec try_cancel (grpc_client_ s) a = Some (with_shared d (grpc_client_ s)) →
  (∀ k st, streams d !! k = Some st →
    starts st ≤ match streams (shared (grpc_client_ s)) !! k with Some st => starts st | None => 0 end) →
  lift pc a s = Some (mkApp (with_shared d (grpc_client_ s)) (stream_context_ s) pc None).
Proof.
  intros E H. unfold lift. rewrite E. unfold context_after. simpl.
  rewrite drop_all. simpl. by rewrite newly_started_nil.
Qed.

(** The program waits for input, there is no stream to cancel, and the client is
    not connected. *)
Record disconnected (s : app) : Prop := mkDisconnected {
  dis_failed : failed s = None;
  dis_crashed : crashed (grpc_client_ s) = None;
  dis_owner : owner (grpc_client_ s) ≠ Destroyed;
  dis_caller : caller s = Idle;
  dis_context : stream_context_ s = None;
  dis_state : connection_state (shared (grpc_client_ s)) ≠ GRPC_CHANNEL_READY
}.

(** A stream that waits to be started, with both callbacks. *)
Definition waiting (init_func : nat → reader Update Status) : stream Update Status :=
  on_finish (on_update (make init_func)).

Definition toggle_once (f : nat → reader Update Status) (key : addr) : list app_action :=
  [Toggle key f; Chain; Chain].

Definition add_stream (key : addr) (f : nat → reader Update Status) (s : app) : app :=
  let d := shared (grpc_client_ s) in
  mkApp (with_shared (mkSharedData (connection_state d) (channel d) (stub d)
           (<[key := waiting f]> (streams d))) (grpc_client_ s)) None Idle None.

Lemma exec_alive (c : state Update Status) a :
  crashed c = None → owner c ≠ Destroyed → exec try_cancel c a = exec_live try_cancel c a.
Proof. intros H1 H2. unfold exec. rewrite H1. by destruct (owner c). Qed.

(** Setting one stream whose number of starts is that of the old one. *)
Ltac solve_starts :=
  let k := fresh in let st := fresh in
  intros k st; simpl;
  match goal with |- <[?key := _]> _ !! k = _ → _ => destruct (decide (key = k)) as [<-|] end;
  [rewrite lookup_insert_eq; intros [= <-]; simpl; lia
  |rewrite !lookup_insert_ne by done; by intros ->].

Lemma toggle_disconnected f key s :
  disconnected s → streams (shared (grpc_client_ s)) !! key = None →
  run app_exec s (toggle_once f key) = Some (add_stream key f s) ∧
  disconnected (add_stream key f s).
Proof.
  intros [Hf Hc Ho Hp Hx Hr] Hk. split; [|by constructor].
  destruct s as [c ctx pc fl]. simpl in *. subst fl pc ctx.
  destruct c as [d ip ad q rn ow rp ev cr]. simpl in *. subst cr.
  unfold toggle_once. cbn [run]. unfold app_exec at 1. cbn [failed caller].
  unfold toggle_streaming. cbn [stream_context_].
  rewrite (lift_silent _ _ _ (mkSharedData (connection_state d) (channel d) (stub d)
             (<[key := make f]> (streams d)))).
  2:{ rewrite exec_alive by done. cbn -[on_stream]. rewrite bool_decide_true by done.
      unfold register_section. rewrite decide_False by done.
      destruct (channel d); cbn; by rewrite emplace_fresh by done. }
  2:{ solve_starts. }
  unfold app_exec at 1. cbn [failed caller].
  rewrite (lift_silent _ _ _ (mkSharedData (connection_state d) (channel d) (stub d)
             (<[key := on_update (make f)]> (streams d)))).
  2:{ rewrite exec_alive by done. simpl. unfold on_stream. simpl.
      by rewrite alter_insert_eq. }
  2:{ solve_starts. }
  unfold app_exec at 1. cbn [failed caller].
  rewrite (lift_silent _ _ _ (mkSharedData (connection_state d) (channel d) (stub d)
             (<[key := waiting f]> (streams d)))).
  2:{ rewrite exec_alive by done. simpl. unfold on_stream. simpl.
      by rewrite alter_insert_eq. }
  2:{ solve_starts. }
  done.
Qed.

Lemma toggles_disconnected f keys s :
  disconnected s → NoDup keys → (∀ k, k ∈ keys → streams (shared (grpc_client_ s)) !! k = None) →
  ∃ s', run app_exec s (flat_map (toggle_once f) keys) = Some s' ∧ disconnected s' ∧
    channel (shared (grpc_client_ s')) = channel (shared (grpc_client_ s)) ∧
    queue_ (grpc_client_ s') = queue_ (grpc_client_ s) ∧
    (∀ k, k ∈ keys → streams (shared (grpc_client_ s')) !! k = Some (waiting f)) ∧
    (∀ k, k ∉ keys → streams (shared (grpc_client_ s')) !! k = streams (shared (grpc_client_ s)) !! k).
Proof.
  revert s. induction keys as [|key keys IH]; intros s Hs Hnd Hfresh.
  { exists s. split_and!; try done. by intros k ?%elem_of_nil. }
  apply NoDup_cons in Hnd as [Hnin Hnd].
  destruct (toggle_disconnected f key s Hs) as [E Hs1]; [apply Hfresh; by left|].
  destruct (IH (add_stream key f s) Hs1 Hnd) as (s' & E' & Hs' & Hc & Hq & Hin & Hout).
  { intros k Hk. simpl. rewrite lookup_insert_ne by (intros ->; done). apply Hfresh. by right. }
  exists s'. split_and!; [|done..| |].
  - cbn [flat_map]. by rewrite run_app, E.
  - intros k [->|Hk]%elem_of_cons; [|by apply Hin].
    rewrite Hout by done. simpl. by rewrite lookup_insert_eq.
  - intros k [Hne Hk]%not_elem_of_cons. rewrite Hout by done. simpl.
    by rewrite lookup_insert_ne.
Qed.

(** The iteration of [run] in which the client connects. *)
Lemma connect_starts s s' :
  app_reach s → connection_state (shared (grpc_client_ s)) ≠ GRPC_CHANNEL_READY →
  is_Some (channel (shared (grpc_client_ s))) →
  app_exec s (Client (RunNext true GRPC_CHANNEL_READY)) = Some s' →
  failed s' = None ∧ streams (shared (grpc_client_ s')) = started <$> streams (shared (grpc_client_ s)).
Proof.
  intros Hr Hne [ch Hch] H. pose proof (inv_data _ (app_reach_inv s Hr)) as Hd.
  unfold app_exec in H. destruct (failed s); [done|]. simpl in H.
  unfold lift in H. destruct (exec _ _ _) as [c|] eqn:E; [|done]. injection H as <-.
  split; [done|]. apply exec_inv in E as (_ & _ & E). simpl in E. unfold exec_run_next in E.
  destruct (queue_ _) as [q|]; [|done]. destruct (running _ && outstanding q); [|done].
  unfold run_section in E. rewrite Hch in E.
  rewrite (to_cnc_valid _ (ok_state _ Hd)) in E. cbn [mbind outcome_bind to_cnc_client_state] in E.
  rewrite decide_False in E by (intros ?%eq_sym%cnc_ready; done).
  rewrite decide_True in E by done. rewrite <-Hch in E.
  rewrite (start_streams_ok (mkSharedData GRPC_CHANNEL_READY (channel (shared (grpc_client_ s)))
    (stub (shared (grpc_client_ s))) (streams (shared (grpc_client_ s))))) in E.
  - by injection E as <-.
  - destruct Hd as [Hwf Hs Hv Hst]. constructor; simpl; [done..|].
    intros k st Hk Hstr. by destruct (Hst k st Hk Hstr).
  - apply Hd. by eexists.
Qed.

Lemma toggles_reach s ls s' :
  app_reach s → Forall app_action_ok ls → run app_exec s ls = Some s' → app_reach s'.
Proof.
  intros Hr Hok. revert s Hr. induction Hok as [|a ls ? ? IH]; intros s Hr; simpl.
  - by intros [= <-].
  - destruct (app_exec s a) as [s1|] eqn:E; [|done]. apply IH. by eapply reachable_step.
Qed.

(** [toggle_streaming] does not toggle while the client is not connected:
    every call registers one more stream, which waits with both callbacks set,
    because [stream_context_] is only set when a stream starts. When the client
    connects all of them start at once, while [stream_context_] can point to one
    of them only. *)
Theorem toggles_accumulate f keys s :
  app_reach s → disconnected s → is_Some (channel (shared (grpc_client_ s))) →
  NoDup keys → (∀ k, k ∈ keys → streams (shared (grpc_client_ s)) !! k = None) →
  ∃ s', run app_exec s (flat_map (toggle_once f) keys) = Some s' ∧ stream_context_ s' = None ∧
    (∀ k, k ∈ keys → streams (shared (grpc_client_ s')) !! k = Some (waiting f)) ∧
    ∀ s'', app_exec s' (Client (RunNext true GRPC_CHANNEL_READY)) = Some s'' →
      failed s'' = None ∧
      ∀ k, k ∈ keys → ∃ st, streams (shared (grpc_client_ s'')) !! k = Some st ∧ streaming st = true.
Proof.
  intros Hr Hs Hch Hnd Hfresh.
  destruct (toggles_disconnected f keys s Hs Hnd Hfresh) as (s' & E & Hs' & Hc & _ & Hin & _).
  exists s'. split_and!; [done|apply Hs'|done|]. intros s'' H.
  assert (app_reach s') as Hr'.
  { eapply toggles_reach; [done| |done]. clear. induction keys; [by constructor|].
    simpl. by repeat constructor. }
  destruct (connect_starts s' s'' Hr' (dis_state s' Hs')) as [Hf Hst]; [by rewrite Hc|done|].
  split; [done|]. intros k Hk. exists (started (waiting f)). rewrite Hst, lookup_fmap, (Hin k Hk).
  done.
Qed.

End App.

(** ** Concrete runs *)
Definition demo_app : Type := @app nat unit.
Definition demo_run (ls : list (@app_action nat unit)) : demo_app :=
  default app_init (run (app_exec id) app_init ls).

Definition connecting : list (@app_action nat unit) :=
  Client <$> [Kill (ChangeServer "0.0.0.0:50055"); Shutdown; Join 1 GRPC_CHANNEL_IDLE;
              RunNext true GRPC_CHANNEL_CONNECTING].

Lemma demo_run_reach ls :
  Forall app_action_ok ls → is_Some (run (app_exec id) app_init ls) →
  reachable (λ s, s = app_init) (exec_step_ok (app_exec id) app_action_ok) (demo_run ls).
Proof. intros Hok [s Hs]. unfold demo_run. rewrite Hs. by eapply run_reachable_ok. Qed.

Ltac solve_demo_run :=
  apply demo_run_reach; [repeat constructor|vm_compute; by eexists].

(** The program can call [TryCancel] on a context that was deleted: if the
    server ends a stream before [on_finish] was called on it, nothing resets
    [stream_context_]; the stream's context is deleted when the connection is
    lost, and the next [toggle_streaming] uses it. *)
Theorem dangling_stream_context :
  ∃ s s' : demo_app,
    reachable (λ s, s = app_init) (exec_step_ok (app_exec id) app_action_ok) s ∧
    stream_context_ s = Some 7%N ∧ get_state (shared (grpc_client_ s)) = Ret attempting_to_connect ∧
    app_exec id s (Toggle 9%N (λ _, mkReader [] ())) = Some s' ∧ failed s' = Some use_after_free.
Proof.
  exists (demo_run (connecting ++
    [Client (RunNext true GRPC_CHANNEL_READY); Toggle 7%N (λ _, mkReader [] ());
     Client (StreamStep 7%N); Chain; Chain; Client (RunNext true GRPC_CHANNEL_TRANSIENT_FAILURE)])).
  eexists. split; [solve_demo_run|]. vm_compute. done.
Qed.

Lemma toggles_accumulate_witness :
  ∃ s', run (app_exec id) (demo_run connecting) (flat_map (toggle_once demo_stream) [7%N; 8%N; 9%N])
        = Some s' ∧ stream_context_ s' = None ∧
    (∀ k, k ∈ [7%N; 8%N; 9%N] → streams (shared (grpc_client_ s')) !! k = Some (waiting demo_stream)) ∧
    ∀ s'', app_exec id s' (Client (RunNext true GRPC_CHANNEL_READY)) = Some s'' →
      failed s'' = None ∧ ∀ k, k ∈ [7%N; 8%N; 9%N] →
        ∃ st, streams (shared (grpc_client_ s'')) !! k = Some st ∧ streaming st = true.
Proof.
  apply (toggles_accumulate id demo_stream [7%N; 8%N; 9%N] (demo_run connecting)).
  - solve_demo_run.
  - by constructor.
  - vm_compute. by eexists.
  - apply (bool_decide_unpack _). vm_compute. done.
  - intros k _. vm_compute. by destruct k.
Defined.

End ExampleClient.

Module Console.
Import ExampleClock.

(** [std::cin] as far as [>>] to a string sees it: the words that are left, and
    whether something follows the last one; [good] is [std::cin.good()]. *)
Record istream : Type := mkIstream {
  words : list string;
  terminated : bool;
  good : bool
}.

(** [std::cin >> input]: a word that ends with the stream sets [eofbit] although
    it is read; without a word [input] stays as it is. *)
Definition read_word (cin : istream) (input : string) : istream * string :=
  if good cin then
    match words cin with
    | [] => (mkIstream [] (terminated cin) false, input)
    | [w] => (mkIstream [] (terminated cin) (terminated cin), w)
    | w :: ws => (mkIstream ws (terminated cin) true, w)
    end
  else (cin, input).

(** What the body of the loop does with a word. *)
Inductive command : Type :=
| DisplayServerTime (format : Format)
| ToggleStreaming
| DisplayUsage
| Unrecognized (input : string).

Definition interpret (input : string) : command :=
  if decide (input = "f") then DisplayServerTime COMPOUND
  else if decide (input = "h") then DisplayServerTime HOURS
  else if decide (input = "m") then DisplayServerTime MINUTES
  else if decide (input = "s") then DisplayServerTime SECONDS
  else if decide (input = "t") then ToggleStreaming
  else if decide (input = "u") then DisplayUsage
  else Unrecognized input.

(** [while (std::cin.good() && input != "x") { ...; std::cin >> input; }]; the
    result is [None] if the loop needs more than [fuel] rounds. *)
Fixpoint loop (fuel : nat) (cin : istream) (input : string) : option (list command) :=
  if good cin && negb (bool_decide (input = "x")) then
    match fuel with
    | 0 => None
    | S fuel =>
        let '(cin, input') := read_word cin input in
        (interpret input ::.) <$> loop fuel cin input'
    end
  else Some [].

(** The part of [main] after the usage message. *)
Definition console (fuel : nat) (cin : istream) : option (list command) :=
  let '(cin, input) := read_word cin "" in loop fuel cin input.

(** The words before the first ["x"]. *)
Fixpoint before_exit (ws : list string) : list string :=
  match ws with
  | [] => []
  | w :: ws => if decide (w = "x") then [] else w :: before_exit ws
  end.

Lemma loop_spec fuel ws w b :
  length ws < fuel →
  loop fuel (mkIstream ws b (if ws is [] then b else true)) w =
  Some (interpret <$> before_exit (if b then w :: ws else removelast (w :: ws))).
Proof.
  revert fuel w. induction ws as [|w' ws IH]; intros fuel w Hf; destruct fuel as [|fuel]; simpl in *;
    try lia.
  - destruct b; simpl; [|done]. destruct (decide (w = "x")) as [->|Hw]; [done|].
    rewrite bool_decide_false by done. simpl. by destruct fuel.
  - destruct (decide (w = "x")) as [->|Hw]; [by destruct b|].
    rewrite bool_decide_false by done. simpl.
    replace (read_word (mkIstream (w' :: ws) b true) w)
      with (mkIstream ws b (if ws is [] then b else true), w') by (by destruct ws).
    rewrite IH by lia. destruct b; simpl; by destruct (decide (w = "x")) as [?|_].

Qed.

(** The console loop ends after at most one round per word of the input and
    runs one command per word, in order, until the word ["x"] or the end of the
    input. A last word that the end of the input follows immediately is read
    but not run, because reading it makes [std::cin.good()] false. *)
Theorem console_runs_words ws b :
  console (length ws) (mkIstream ws b true) =
  Some (interpret <$> before_exit (if b then ws else removelast ws)).
Proof.
  destruct ws as [|w ws]; [by destruct b|].
  unfold console.
  replace (read_word (mkIstream (w :: ws) b true) "")
    with (mkIstream ws b (if ws is [] then b else true), w) by (by destruct ws).
  apply loop_spec. simpl. lia.
Qed.

End Console.
