(* ===== verification/NewArchClient.v ===== *)
(** * A streaming client without the library

    [src/example/src/client/new_arch_client.cpp]: the class [ExampleClient] of
    that file reads a stream on a thread of its own and is toggled by the user.
    The critical sections of [stream_mutex] are single steps, except for those
    that join the thread. *)
From S2P Require Import Prelude ExampleClient.

Module NewArchClient.

(** [stream_thread_]: whether it is joinable, and how far its function is. *)
Inductive phase : Type :=
| BeforeLock
| Reading
| Finished.
Record thread : Type := mkThread { joinable : bool; progress : phase }.

(** The thread that owns the client: outside, or in [join] with [stream_mutex]
    locked, in [toggle_streaming] or in the destructor. *)
Inductive owner_pc : Type :=
| Outside
| JoiningToggle
| JoiningDestructor
| Destroyed.

(** [stream_context_] holds whether [TryCancel] was called on the context;
    [starts] counts the calls of [GetServerTimeUpdates], [displayed] the updates
    that were printed. *)
Record state : Type := mkState {
  stream_context_ : option bool;
  stream_thread_ : option thread;
  starts : nat;
  displayed : nat;
  owner : owner_pc;
  crashed : option fault
}.

Definition init : state := mkState None None 0 0 Outside None.

Inductive action : Type :=
| Toggle
| Destructor
| Joined (* [stream_thread_.join()] returns *)
| ThreadStart (* the section of the thread that holds [stream_mutex] *)
| Read (update : bool).

(** [TryCancel] and the join of a thread that is joinable, or nothing more to
    wait for. *)
Definition cancel_and_join (joining done : owner_pc) (s : state) : state :=
  mkState (Some true) (stream_thread_ s) (starts s) (displayed s)
    (match stream_thread_ s with Some (mkThread true _) => joining | _ => done end) None.

(** [toggle_streaming]: without a context, the assignment of a new thread
    destroys the old one. *)
Definition toggle_streaming (s : state) : state :=
  match stream_context_ s with
  | Some _ => cancel_and_join JoiningToggle Outside s
  | None =>
      match stream_thread_ s with
      | Some (mkThread true _) =>
          mkState None (stream_thread_ s) (starts s) (displayed s) Outside (Some std_terminate)
      | _ => mkState None (Some (mkThread true BeforeLock)) (starts s) (displayed s) Outside None
      end
  end.

(** The end of the destructor: the thread object is destroyed. *)
Definition destroy_members (s : state) : state :=
  mkState (stream_context_ s) (stream_thread_ s) (starts s) (displayed s) Destroyed
    (match stream_thread_ s with Some (mkThread true _) => Some std_terminate | _ => None end).

(** [~ExampleClient] *)
Definition destructor (s : state) : state :=
  match stream_context_ s with
  | Some _ =>
      let s := cancel_and_join JoiningDestructor Outside s in
      match owner s with JoiningDestructor => s | _ => destroy_members s end
  | None => destroy_members s
  end.

Definition set_thread (t : thread) (s : state) : state :=
  mkState (stream_context_ s) (Some t) (starts s) (displayed s) (owner s) (crashed s).

Definition exec (s : state) (a : action) : option state :=
  match crashed s with
  | Some _ => None
  | None =>
      match a, owner s, stream_thread_ s with
      | Toggle, Outside, _ => Some (toggle_streaming s)
      | Destructor, Outside, _ => Some (destructor s)
      | Joined, JoiningToggle, Some (mkThread true Finished) =>
          Some (mkState (stream_context_ s) (Some (mkThread false Finished)) (starts s)
                  (displayed s) Outside None)
      | Joined, JoiningDestructor, Some (mkThread true Finished) =>
          Some (destroy_members (set_thread (mkThread false Finished) s))
      | ThreadStart, Outside, Some (mkThread j BeforeLock) =>
          Some (mkState (Some false) (Some (mkThread j Reading)) (S (starts s)) (displayed s)
                  Outside None)
      | Read true, _, Some (mkThread j Reading) =>
          Some (mkState (stream_context_ s) (stream_thread_ s) (starts s) (S (displayed s))
                  (owner s) None)
      | Read false, _, Some (mkThread j Reading) => Some (set_thread (mkThread j Finished) s)
      | _, _, _ => None
      end
  end.

(** *** The functions that keep no state *)

Inductive grpc_connectivity_state : Type :=
| GRPC_CHANNEL_IDLE
| GRPC_CHANNEL_CONNECTING
| GRPC_CHANNEL_READY
| GRPC_CHANNEL_TRANSIENT_FAILURE
| GRPC_CHANNEL_SHUTDOWN.

(** [to_string]; [None] is a value that is not an enumerator. *)
Definition to_string (s : option grpc_connectivity_state) : outcome string :=
  match s with
  | Some GRPC_CHANNEL_SHUTDOWN => Ret "GRPC_CHANNEL_SHUTDOWN"%string
  | Some GRPC_CHANNEL_IDLE => Ret "GRPC_CHANNEL_IDLE"%string
  | Some GRPC_CHANNEL_CONNECTING => Ret "GRPC_CHANNEL_CONNECTING"%string
  | Some GRPC_CHANNEL_TRANSIENT_FAILURE => Ret "GRPC_CHANNEL_TRANSIENT_FAILURE"%string
  | Some GRPC_CHANNEL_READY => Ret "GRPC_CHANNEL_READY"%string
  | None => Fault (invalid_argument "Invalid GrpcClientState")
  end.

(** [get_server_time_now]; the stub returns a status, [None] if it is OK and
    its message otherwise, and fills in the display time. *)
Definition get_server_time_now {Format} (GetServerTimeNow : Format → option string * string)
    (format : Format) : string :=
  let '(status, display_time) := GetServerTimeNow format in
  match status with None => display_time | Some error_message => error_message end.

(** The name identifies the state, and the exception is for other values. *)
Lemma to_string_injective s s' :
  to_string s = to_string s' → s = s'.
Proof. destruct s as [[]|], s' as [[]|]; by intros [=]. Qed.

(** Before the thread has set the context, and after. *)
Definition unstarted (s : state) : Prop :=
  stream_context_ s = None ∧ starts s = 0 ∧
  (stream_thread_ s = None ∨ stream_thread_ s = Some (mkThread true BeforeLock)).

Definition settled (s : state) : Prop :=
  crashed s = None ∧ is_Some (stream_context_ s) ∧ starts s = 1 ∧
  ∃ t, stream_thread_ s = Some t ∧ progress t ≠ BeforeLock ∧
    (joinable t = false → progress t = Finished) ∧
    match owner s with
    | Outside => True
    | JoiningToggle | JoiningDestructor => joinable t = true
    | Destroyed => joinable t = false
    end.

Lemma settled_step s a s' : settled s → exec s a = Some s' → settled s'.
Proof.
  intros (Hc & [c Hx] & Hn & [j p] & Ht & Hp & Hj & Ho) H. simpl in *.
  destruct s as [ctx th n d o cr]; simpl in *. subst ctx th n cr. unfold exec in H. simpl in H.
  unfold toggle_streaming, destructor, destroy_members, cancel_and_join, set_thread in H. simpl in H.
  destruct a as [| | | |[]], o, j, p; simplify_eq/=; try (specialize (Hj eq_refl)); try done;
    (split_and!; [done|by eexists|done|]; eexists; split_and!; [reflexivity|done..]).
Qed.

Lemma unstarted_step s a s' :
  unstarted s → exec s a = Some s' → unstarted s' ∨ settled s'.
Proof.
  intros (Hx & Hn & Ht) H. destruct s as [ctx th n d o cr]; simpl in *. subst ctx n.
  unfold exec in H. simpl in H. destruct cr; [done|].
  unfold toggle_streaming, destructor, destroy_members, set_thread in H. simpl in H.
  destruct Ht as [-> | ->], a as [| | | |[]], o; simplify_eq/=; unfold unstarted, settled; simpl; eauto.
  right. split_and!; [done|by eexists|done|]. eexists. split_and!; [reflexivity|done..].
Qed.

Abbreviation reach := (reachable (λ s, s = init) (exec_step exec)).

Lemma reach_cases s : reach s → unstarted s ∨ settled s.
Proof.
  apply (reachable_invariant _ _ (λ s, unstarted s ∨ settled s)).
  - intros ? ->. left. unfold unstarted. auto.
  - intros s1 a s2 [H|H] E; [by eapply unstarted_step|right; by eapply settled_step].
Qed.

(** The stream of this client is started at most once: after the thread has
    set the context nothing resets it, so every further [toggle_streaming] only
    cancels, and whatever follows neither starts a second stream nor fails. *)
Theorem stream_starts_once s ls s' :
  reach s → is_Some (stream_context_ s) → run exec s ls = Some s' →
  starts s' = 1 ∧ crashed s' = None ∧ is_Some (stream_context_ s').
Proof.
  intros Hr Hx H. destruct (reach_cases s Hr) as [(Hn & _)|Hs].
  { rewrite Hn in Hx. by destruct Hx. }
  cut (settled s'); [by intros (? & ? & ? & _)|]. clear Hr Hx. revert s Hs H.
  induction ls as [|a ls IH]; intros s Hs; simpl; [by intros [= <-]|].
  destruct (exec s a) as [s1|] eqn:E; [|done]. apply IH. by eapply settled_step.
Qed.

Lemma stream_starts_once_witness :
  ∃ s', run exec init [Toggle; ThreadStart; Read true; Toggle; Read false; Joined; Toggle; Toggle]
        = Some s' ∧ starts s' = 1 ∧ crashed s' = None.
Proof.
  assert (∃ s, run exec init [Toggle; ThreadStart] = Some s) as [s Hs] by (vm_compute; by eexists).
  assert (reach s) as Hr by (eapply run_reachable; [|exact Hs]; reflexivity).
  assert (∃ s', run exec s [Read true; Toggle; Read false; Joined; Toggle; Toggle] = Some s')
    as [s' Hs'] by (vm_compute in Hs; injection Hs as <-; vm_compute; by eexists).
  exists s'. split.
  - pose proof (run_app exec init [Toggle; ThreadStart]
      [Read true; Toggle; Read false; Joined; Toggle; Toggle]) as E. rewrite Hs, Hs' in E. exact E.
  - destruct (stream_starts_once s [Read true; Toggle; Read false; Joined; Toggle; Toggle] s' Hr) with (2 := Hs') as (? & ? & _); [|done].
    vm_compute in Hs. injection Hs as <-. by eexists.
Defined.

(** The program is terminated exactly if [toggle_streaming] is called a
    second time, or the client is destroyed, before the new thread has set the
    context; nothing else fails. *)
Theorem quick_toggle_terminates s a s' :
  reach s → exec s a = Some s' →
  (is_Some (crashed s') ↔
   stream_thread_ s = Some (mkThread true BeforeLock) ∧ (a = Toggle ∨ a = Destructor)).
Proof.
  intros Hr H. destruct (reach_cases s Hr) as [(Hx & Hn & Ht)|Hs].
  - destruct s as [ctx th n d o cr]; simpl in *. subst ctx n.
    unfold exec in H. simpl in H. destruct cr; [done|].
    unfold toggle_streaming, destructor, destroy_members, set_thread in H. simpl in H.
    destruct Ht as [-> | ->], a as [| | | |[]], o; simplify_eq/=;
      (split; [intros [? ?]; naive_solver|naive_solver]).
  - destruct (settled_step s a s' Hs H) as (Hc' & _). destruct Hs as (_ & _ & _ & t & Ht & Hp & _).
    rewrite Hc', Ht. split; [by intros [? ?]|intros [[= ->] _]; done].
Qed.

Lemma quick_toggle_terminates_witness :
  ∃ s, run exec init [Toggle] = Some s ∧ reach s ∧ is_Some (crashed (toggle_streaming s)) ∧
    is_Some (crashed (destructor s)).
Proof.
  assert (∃ s, run exec init [Toggle] = Some s ∧ exec s Toggle = Some (toggle_streaming s) ∧
    exec s Destructor = Some (destructor s) ∧ stream_thread_ s = Some (mkThread true BeforeLock))
    as (s & Hs & Ht & Hd & Hth) by (vm_compute; eexists; split_and!; reflexivity).
  assert (reach s) as Hr by (eapply run_reachable; [|exact Hs]; reflexivity).
  exists s. split_and!; [done|done| |].
  - apply (quick_toggle_terminates s Toggle _ Hr Ht). auto.
  - apply (quick_toggle_terminates s Destructor _ Hr Hd). auto.
Defined.

(** ** The console

    The branch of [main] for the case that [NEW_WAY] is not defined: the loop of
    [Console], whose text is the same, with this client. The other commands
    only print. *)
Definition command_actions (c : Console.command) : list action :=
  match c with Console.ToggleStreaming => [Toggle] | _ => [] end.

(** What [main] does with the client for the commands it reads, and at its end. *)
Definition main_actions (cs : list Console.command) : list action :=
  flat_map command_actions cs ++ [Destructor].

Lemma main_actions_toggle ws :
  "t" ∈ Console.before_exit ws →
  ∃ a ls, main_actions (Console.interpret <$> Console.before_exit ws) = Toggle :: a :: ls ∧
    (a = Toggle ∨ a = Destructor).
Proof.
  induction (Console.before_exit ws) as [|w l IH]; [by intros ?%elem_of_nil|].
  intros Hin. unfold main_actions in *. csimpl. destruct (decide (w = "t")) as [->|Hne].
  - assert (∀ cs, ∃ a ls, flat_map command_actions cs ++ [Destructor] = a :: ls ∧
      (a = Toggle ∨ a = Destructor)) as H.
    { clear. induction cs as [|[] cs IH]; simpl; eauto. }
    destruct (H (Console.interpret <$> l)) as (a & ls & E & Ha). exists a, ls. split; [|done].
    simpl. by rewrite E.
  - apply elem_of_cons in Hin as [<-|Hin]; [done|].
    assert (command_actions (Console.interpret w) = []) as ->; [|by apply IH].
    unfold Console.interpret. repeat case_decide; done.
Qed.

(** Whatever is typed, if streaming is toggled at all and the new thread is slow,
    the program is terminated: by the next toggle, or by the end of [main]. *)
Theorem slow_thread_terminates_console ws :
  "t" ∈ Console.before_exit ws →
  ∃ s, run exec init (take 2 (main_actions (Console.interpret <$> Console.before_exit ws))) = Some s ∧
    crashed s = Some std_terminate.
Proof.
  intros (a & ls & -> & [-> | ->])%main_actions_toggle; eexists; split; vm_compute; reflexivity.
Qed.

Lemma slow_thread_terminates_console_witness :
  ∃ s, run exec init (take 2 (main_actions (Console.interpret <$> Console.before_exit ["h"; "t"; "x"]))) = Some s ∧
    crashed s = Some std_terminate.
Proof.
  apply (slow_thread_terminates_console ["h"; "t"; "x"]). apply (bool_decide_unpack _). vm_compute. exact I.
Defined.

End NewArchClient.
