(* ===== verification/UnaryRpcClient.v ===== *)
(** * Unary calls of the clients of the examples

    [src/example/src/client/unary_rpc_handler.hpp]: the object that sends one
    request and receives one response on a completion queue, and the program it
    was written with, the part of [main] of
    [src/example/src/client/new_arch_client.cpp] that is disabled by [#if 0]: a
    thread that owns the objects of gRPC and serves the queue, while the main
    thread creates two calls and sends them whenever the user presses enter. The
    critical sections of [client_mutex] are single steps. *)
From S2P Require Import Prelude Tag ExampleTagger.

Module UnaryRpcClient.
Import ExampleTagger.

Inductive format : Type := SECONDS | COMPOUND.

(** What happens to the calls: a request leaves, the user's callback prints to
    [std::cout] or to [std::cerr], or the call is forgotten without it. *)
Inductive output : Type :=
| Sent (rpc : addr) (request : format)
| Printed (rpc : addr) (status_ok : bool) (text : string)
| Dropped (rpc : addr).

(** ** The objects of gRPC and of [run_thread] *)

(** [queue]: the tags of the calls that are outstanding, and whether it was shut
    down. [data_]: the map that owns the [UnaryRpcHandler]s. *)
Record client : Type := mkClient {
  queue : gset addr;
  queue_shutdown : bool;
  tags_ : gmap addr Tag;
  data_ : gset addr;
  outputs : list output
}.

Definition no_calls : client := mkClient ∅ false ∅ ∅ [].

(** [UnaryRpcHandler::send]; [fresh] is the address of the tag. *)
Definition send (rpc : addr) (request : format) (fresh : addr) (c : client) : outcome client :=
  if decide (rpc ∈ data_ c) then
    let '(tag, tags) := make_tag fresh rpc ClientFinished (tags_ c) in
    Ret (mkClient ({[tag]} ∪ queue c) (queue_shutdown c) tags (data_ c)
           (outputs c ++ [Sent rpc request]))
  else Fault use_after_free.

(** [UnaryRpcHandler::invoke_user_callback] with the status and the response
    that gRPC has stored. *)
Definition invoke_user_callback (rpc : addr) (status_ok : bool) (text : string) (c : client)
    : outcome client :=
  if decide (rpc ∈ data_ c) then
    Ret (mkClient (queue c) (queue_shutdown c) (tags_ c) (data_ c)
           (outputs c ++ [Printed rpc status_ok text]))
  else Fault use_after_free.

(** [data.erase(tag.data)] *)
Definition erase (rpc : addr) (c : client) : client :=
  mkClient (queue c) (queue_shutdown c) (tags_ c) (data_ c ∖ {[rpc]}) (outputs c).

(** The body of the loop of [run_thread] for an event. *)
Definition process (received_tag : addr) (completed_successfully status_ok : bool) (text : string)
    (c : client) : outcome client :=
  '(tag, tags) ← get_tag received_tag (tags_ c);
  let c := mkClient (queue c) (queue_shutdown c) tags (data_ c) (outputs c) in
  if completed_successfully then
    match label tag with
    | ClientConnectionChange => Ret c
    | ClientFinished =>
        c ← invoke_user_callback (data tag) status_ok text c; Ret (erase (data tag) c)
    | ServerNewRpc | ServerWriting | ServerDone =>
        Fault (runtime_error "Don't use server tags in the client ya dummy")
    end
  else
    Ret (erase (data tag) (mkClient (queue c) (queue_shutdown c) (tags_ c) (data_ c)
      (outputs c ++ [Dropped (data tag)]))).

(** ** The threads *)
Inductive init_func : Type := SetPointers | nullptr_func.

Inductive run_pc : Type := CreateObjects | Initializing | Serving | Returned.

(** The statements of [main]; those that end in [Enter] are [std::cin.ignore()]. *)
Inductive main_pc : Type :=
| EmplaceInit | EmplaceNull
| FirstEnter | MakeFirst
| SecondEnter | SendFirst
| ThirdEnter | MakeSecond
| FourthEnter | SendSecond
| FifthEnter | SixthEnter | ShutdownQueue
| LastEnter
| Leave (* the destructors of the local variables *)
| Exited.

#[global] Instance main_pc_eq_dec : EqDecision main_pc.
Proof. solve_decision. Defined.

(** [pointers]: whether [channel_ptr], [stub_ptr], [queue_ptr], [tagger_ptr] and
    [data_ptr], which are set together, are not null. *)
Record state : Type := mkState {
  objects : client;
  pointers : bool;
  initialization_queue : list init_func;
  run_thread : run_pc;
  writer : option addr;
  main : main_pc;
  crashed : option fault
}.

Definition init : state := mkState no_calls false [] CreateObjects None EmplaceInit None.

Inductive action : Type :=
| Main (fresh : addr) (* the address of a new handler or tag *)
| Run
| Event (received_tag : addr) (completed_successfully status_ok : bool) (text : string).

Definition with_main (m : main_pc) (s : state) : state :=
  mkState (objects s) (pointers s) (initialization_queue s) (run_thread s) (writer s) m (crashed s).
Definition with_objects (c : client) (s : state) : state :=
  mkState c (pointers s) (initialization_queue s) (run_thread s) (writer s) (main s) (crashed s).
Definition with_run (q : list init_func) (r : run_pc) (p : bool) (s : state) : state :=
  mkState (objects s) p q r (writer s) (main s) (crashed s).
Definition crash (e : fault) (s : state) : state :=
  mkState (objects s) (pointers s) (initialization_queue s) (run_thread s) (writer s) (main s) (Some e).

Definition emplace_back (f : init_func) (m : main_pc) (s : state) : state :=
  mkState (objects s) (pointers s) (initialization_queue s ++ [f]) (run_thread s) (writer s) m (crashed s).

(** [make_unique_unary_rpc( *channel_ptr, ...)] and [data_ptr->emplace]. *)
Definition make_rpc (fresh : addr) (m : main_pc) (s : state) : state :=
  if pointers s then
    let c := objects s in
    mkState (mkClient (queue c) (queue_shutdown c) (tags_ c) ({[fresh]} ∪ data_ c) (outputs c))
      (pointers s) (initialization_queue s) (run_thread s) (Some fresh) m (crashed s)
  else crash null_dereference s.

(** [writer->send(request)] *)
Definition send_request (request : format) (fresh : addr) (m : main_pc) (s : state) : state :=
  match writer s with
  | Some rpc =>
      match send rpc request fresh (objects s) with
      | Ret c => with_main m (with_objects c s)
      | Fault e => crash e s
      end
  | None => crash null_dereference s
  end.

(** [queue_ptr->Shutdown()] *)
Definition shutdown_queue (s : state) : state :=
  if pointers s then
    let c := objects s in
    with_main LastEnter (with_objects (mkClient (queue c) true (tags_ c) (data_ c) (outputs c)) s)
  else crash null_dereference s.

(** At the end [run_thread] is destroyed, which nobody has joined. *)
Definition exec_main (fresh : addr) (s : state) : option state :=
  match main s with
  | EmplaceInit => Some (emplace_back SetPointers EmplaceNull s)
  | EmplaceNull => Some (emplace_back nullptr_func FirstEnter s)
  | FirstEnter => Some (with_main MakeFirst s)
  | MakeFirst => Some (make_rpc fresh SecondEnter s)
  | SecondEnter => Some (with_main SendFirst s)
  | SendFirst => Some (send_request SECONDS fresh ThirdEnter s)
  | ThirdEnter => Some (with_main MakeSecond s)
  | MakeSecond => Some (make_rpc fresh FourthEnter s)
  | FourthEnter => Some (with_main SendSecond s)
  | SendSecond => Some (send_request COMPOUND fresh FifthEnter s)
  | FifthEnter => Some (with_main SixthEnter s)
  | SixthEnter => Some (with_main ShutdownQueue s)
  | ShutdownQueue => Some (shutdown_queue s)
  | LastEnter => Some (with_main Leave s)
  | Leave => Some (crash std_terminate (with_main Exited s))
  | Exited => None
  end.

(** [run_thread] up to its loop, and the end of the loop: [Next] returns false
    when the queue is shut down and drained. *)
Definition exec_run (s : state) : option state :=
  match run_thread s, initialization_queue s with
  | CreateObjects, q => Some (with_run q Initializing (pointers s) s)
  | Initializing, SetPointers :: q => Some (with_run q Initializing true s)
  | Initializing, nullptr_func :: q => Some (with_run q Serving (pointers s) s)
  | Serving, q =>
      if queue_shutdown (objects s) && bool_decide (queue (objects s) = ∅)
      then Some (with_run q Returned (pointers s) s) else None
  | _, _ => None
  end.

(** [Next] returns an outstanding call. *)
Definition exec_event (received_tag : addr) (ok status_ok : bool) (text : string) (s : state)
    : option state :=
  let c := objects s in
  match run_thread s with
  | Serving =>
      if decide (received_tag ∈ queue c) then
        match process received_tag ok status_ok text
                (mkClient (queue c ∖ {[received_tag]}) (queue_shutdown c) (tags_ c) (data_ c) (outputs c)) with
        | Ret c => Some (with_objects c s)
        | Fault e => Some (crash e s)
        end
      else None
  | _ => None
  end.

Definition exec (s : state) (a : action) : option state :=
  match crashed s with
  | Some _ => None
  | None =>
      match a with
      | Main fresh => exec_main fresh s
      | Run => exec_run s
      | Event tag ok status_ok text => exec_event tag ok status_ok text s
      end
  end.

(** [operator new] returns an address that is not in use. *)
Definition allocated (s : state) (a : action) : Prop :=
  match a with
  | Main fresh => fresh ∉ data_ (objects s) ∧ fresh ∉ dom (tags_ (objects s))
  | _ => True
  end.

(** The user waits for the initialization before he presses enter. *)
Definition patient (s : state) (a : action) : Prop :=
  allocated s a ∧ match a with Main _ => main s = FirstEnter → pointers s = true | _ => True end.

(** ** Invariant *)

Definition is_sent (o : output) : bool := match o with Sent _ _ => true | _ => false end.
Definition is_over (o : output) : bool := negb (is_sent o).

(** Outstanding calls, their tags and their handlers correspond. *)
Record calls_ok (c : client) : Prop := mkCallsOk {
  ok_queue : queue c = dom (tags_ c);
  ok_tags k t : tags_ c !! k = Some t → label t = ClientFinished ∧ data t ∈ data_ c;
  ok_distinct k k' t t' : tags_ c !! k = Some t → tags_ c !! k' = Some t' → data t = data t' → k = k'
}.

(** The handler that the main thread is about to use has not been sent. *)
Definition unsent (w : option addr) (c : client) : Prop :=
  ∃ rpc, w = Some rpc ∧ rpc ∈ data_ c ∧ ∀ k t, tags_ c !! k = Some t → data t ≠ rpc.

Definition made (m : main_pc) : bool :=
  match m with SecondEnter | SendFirst | FourthEnter | SendSecond => true | _ => false end.
Definition after_enter (m : main_pc) : bool :=
  match m with EmplaceInit | EmplaceNull | FirstEnter => false | _ => true end.
Definition requests_sent (m : main_pc) : nat :=
  match m with
  | EmplaceInit | EmplaceNull | FirstEnter | MakeFirst | SecondEnter | SendFirst => 0
  | ThirdEnter | MakeSecond | FourthEnter | SendSecond => 1
  | _ => 2
  end.

Definition closed (m : main_pc) : bool :=
  match m with LastEnter | Leave | Exited => true | _ => false end.

Record inv (s : state) : Prop := mkInv {
  inv_calls : calls_ok (objects s);
  inv_crash e : crashed s = Some e → e = std_terminate ∧ main s = Exited;
  inv_pointers : after_enter (main s) = true → pointers s = true;
  inv_unsent : made (main s) = true → unsent (writer s) (objects s);
  inv_sent : count is_sent (outputs (objects s)) = requests_sent (main s);
  inv_over : count is_over (outputs (objects s)) + size (queue (objects s)) =
    count is_sent (outputs (objects s));
  inv_shutdown : queue_shutdown (objects s) = closed (main s);
  inv_returned : run_thread s = Returned → closed (main s) = true ∧ queue (objects s) = ∅
}.

Lemma calls_ok_empty : calls_ok no_calls.
Proof. by split. Qed.

Lemma send_spec rpc request fresh c :
  calls_ok c → unsent (Some rpc) c → fresh ∉ dom (tags_ c) →
  ∃ c', send rpc request fresh c = Ret c' ∧ calls_ok c' ∧
    outputs c' = outputs c ++ [Sent rpc request] ∧ size (queue c') = S (size (queue c)) ∧
    queue_shutdown c' = queue_shutdown c.
Proof.
  intros [Hq Ht Hd] (r & [= <-] & Hin & Hne) Hfresh. unfold send.
  rewrite decide_True by done. apply not_elem_of_dom in Hfresh.
  rewrite make_tag_new by done. eexists. split; [done|]. simpl. split_and!; try done.
  - split; simpl.
    + rewrite dom_insert_L, Hq. done.
    + intros k t. rewrite lookup_insert_Some. intros [[<- <-]|[_ Hk]]; [done|by apply (Ht k)].
    + intros k k' t t'. rewrite !lookup_insert_Some.
      intros [[<- <-]|[? Hk]] [[<- <-]|[? Hk']] He; simpl in *; try done.
      * by destruct (Hne k' t' Hk').
      * by destruct (Hne k t Hk).
      * by eapply Hd.
  - rewrite size_union, size_singleton; [lia|]. rewrite Hq.
    apply disjoint_singleton_l, not_elem_of_dom. done.
Qed.

Lemma process_spec k ok status_ok text c :
  calls_ok c → k ∈ queue c →
  ∃ c' o, process k ok status_ok text
      (mkClient (queue c ∖ {[k]}) (queue_shutdown c) (tags_ c) (data_ c) (outputs c)) = Ret c' ∧
    is_over o = true ∧ outputs c' = outputs c ++ [o] ∧ calls_ok c' ∧
    S (size (queue c')) = size (queue c) ∧ queue_shutdown c' = queue_shutdown c ∧
    ∀ w, unsent w c → unsent w c'.
Proof.
  intros [Hq Ht Hd] Hk. pose proof Hk as Hk2. rewrite Hq in Hk2. apply elem_of_dom in Hk2 as [t Hkt].
  destruct (Ht k t Hkt) as [Hl Hin]. unfold process, get_tag. simpl. rewrite Hkt. cbn [mbind outcome_bind].
  assert (∀ o, let c' := mkClient (queue c ∖ {[k]}) (queue_shutdown c) (delete k (tags_ c))
      (data_ c ∖ {[data t]}) (outputs c ++ [o]) in
    calls_ok c' ∧ S (size (queue c')) = size (queue c) ∧ ∀ w, unsent w c → unsent w c') as Hc'.
  { intros o. simpl. split_and!.
    - split; simpl.
      + by rewrite dom_delete_L, Hq.
      + intros k' t' [Hne Hk']%lookup_delete_Some. destruct (Ht k' t' Hk'). split; [done|].
        apply elem_of_difference. split; [done|]. rewrite elem_of_singleton. intros He.
        by destruct (Hne (Hd k k' t t' Hkt Hk' (eq_sym He))).
      + intros k1 k2 t1 t2 [_ H1]%lookup_delete_Some [_ H2]%lookup_delete_Some. by eapply Hd.
    - by apply size_remove.
    - intros w (rpc & -> & Hw & Hne). exists rpc. simpl. split_and!; [done| |].
      + apply elem_of_difference. split; [done|]. rewrite elem_of_singleton. intros ->. by apply (Hne k t).
      + intros k' t' [_ Hk']%lookup_delete_Some. by eapply Hne. }
  destruct ok; simpl.
  - rewrite Hl. unfold invoke_user_callback. simpl. rewrite decide_True by done. simpl.
    destruct (Hc' (Printed (data t) status_ok text)) as (? & ? & ?).
    by exists (erase (data t) (mkClient (queue c ∖ {[k]}) (queue_shutdown c) (delete k (tags_ c)) (data_ c)
      (outputs c ++ [Printed (data t) status_ok text]))), (Printed (data t) status_ok text).
  - destruct (Hc' (Dropped (data t))) as (? & ? & ?).
    by exists (erase (data t) (mkClient (queue c ∖ {[k]}) (queue_shutdown c) (delete k (tags_ c)) (data_ c)
      (outputs c ++ [Dropped (data t)]))), (Dropped (data t)).
Qed.

Lemma init_inv s : s = init → inv s.
Proof. intros ->. by split. Qed.

Lemma make_rpc_inv fresh m s :
  inv s → crashed s = None → pointers s = true → fresh ∉ data_ (objects s) →
  requests_sent m = requests_sent (main s) → closed (main s) = false → closed m = false →
  inv (make_rpc fresh m s).
Proof.
  intros [[Hq Ht Hd] Hc Hp Hu Hs Ho Hsh Hr] Hcr Hptr Hf Hm Hcl Hcl'. unfold make_rpc. rewrite Hptr.
  split; simpl; try done.
  - split; simpl; try done. intros k t Hk. destruct (Ht k t Hk). split; [done|]. set_solver.
  - intros e. by rewrite Hcr.
  - intros _. exists fresh. split_and!; [done|set_solver|]. simpl. intros k t Hk He.
    destruct (Ht k t Hk). set_solver.
  - congruence.
  - congruence.
  - intros Hrun. by rewrite (proj1 (Hr Hrun)) in Hcl.
Qed.

Lemma send_request_inv request fresh m s :
  inv s → crashed s = None → made (main s) = true → fresh ∉ dom (tags_ (objects s)) →
  requests_sent m = S (requests_sent (main s)) → made m = false → closed m = false →
  pointers s = true → inv (send_request request fresh m s).
Proof.
  intros [Hok Hc Hp Hu Hs Ho Hsh Hr] Hcr Hmade Hf Hm Hnm Hcl Hptr. unfold send_request.
  pose proof (Hu Hmade) as (rpc & Hw & Hrpc). rewrite Hw.
  destruct (send_spec rpc request fresh (objects s) Hok) as (c' & -> & Hok' & Hout & Hsize & Hq);
    [by exists rpc|done|].
  assert (closed (main s) = false) as Hcl' by (by destruct (main s)).
  split; simpl; try done.
  - intros e. by rewrite Hcr.
  - by rewrite Hnm.
  - rewrite Hout, count_app. simpl. lia.
  - rewrite Hout, !count_app, Hsize. simpl. lia.
  - congruence.
  - intros Hrun. by rewrite (proj1 (Hr Hrun)) in Hcl'.
Qed.

(** A statement of [main] that only moves on. *)
Lemma with_main_inv m s :
  inv s → crashed s = None → requests_sent m = requests_sent (main s) →
  closed m = closed (main s) → (after_enter m = true → pointers s = true) →
  (made m = true → made (main s) = true) → inv (with_main m s).
Proof.
  intros [Hok Hc Hp Hu Hs Ho Hsh Hr] Hcr Hm Hcl Hptr Hmade. split; simpl; try done.
  - intros e. by rewrite Hcr.
  - intros Hm'. by apply Hu, Hmade.
  - congruence.
  - congruence.
  - by rewrite Hcl.
Qed.

Lemma main_inv fresh s s' :
  inv s → crashed s = None → patient s (Main fresh) → exec_main fresh s = Some s' → inv s'.
Proof.
  intros Hi Hcr [[Hf1 Hf2] Hpat] Hs. pose proof Hi as [Hok Hc Hp Hu Hsn Ho Hsh Hr].
  assert (after_enter (main s) = false ∨ pointers s = true) as Hptr
    by (destruct (after_enter (main s)) eqn:E; auto).
  unfold exec_main in Hs. destruct (main s) eqn:Em; simplify_eq.
  all: try (apply with_main_inv; rewrite ?Em; try done; intros; by auto).
  all: try (destruct Hptr as [?|Hptr]; [done|]).
  all: try (apply make_rpc_inv; by rewrite ?Em).
  all: try (apply send_request_inv; by rewrite ?Em).
  - by split; simpl; rewrite ?Hcr.
  - by split; simpl; rewrite ?Hcr.
  - unfold shutdown_queue. rewrite Hptr. split; simpl; rewrite ?Hcr; try done.
    + by destruct Hok.
    + intros Hrun. split; [done|]. by apply Hr.
  - split; simpl; try done. intros e [= <-]. done.
Qed.

Lemma run_inv s s' : inv s → crashed s = None → exec_run s = Some s' → inv s'.
Proof.
  intros [Hok Hc Hp Hu Hs Ho Hsh Hr] Hcr He. unfold exec_run in He.
  assert (∀ q r p, (pointers s = true → p = true) →
    (r = Returned → closed (main s) = true ∧ queue (objects s) = ∅) → inv (with_run q r p s)) as Hrun.
  { intros q r p Hpt Hret. split; simpl; try done. intros Ha. by apply Hpt, Hp. }
  destruct (run_thread s) eqn:Er, (initialization_queue s) as [|[] q] eqn:Eq; simplify_eq;
    try (by apply Hrun).
  all: destruct (queue_shutdown (objects s)) eqn:Eqs; [|done]; case_bool_decide; simplify_eq/=.
  all: apply Hrun; [done|]; intros _; by rewrite <-Hsh.
Qed.

Lemma event_inv k ok status_ok text s s' :
  inv s → crashed s = None → exec_event k ok status_ok text s = Some s' → inv s'.
Proof.
  intros [Hok Hc Hp Hu Hs Ho Hsh Hr] Hcr He. unfold exec_event in He.
  destruct (run_thread s) eqn:Er; try done. case_decide as Hk; [|done].
  destruct (process_spec k ok status_ok text (objects s) Hok Hk)
    as (c' & o & E & Hover & Hout & Hok' & Hsize & Hqs & Hun).
  rewrite E in He. simplify_eq. split; simpl; try done.
  - intros Hm. by apply Hun, Hu.
  - rewrite Hout, count_app. simpl. unfold is_over in Hover. apply negb_true_iff in Hover.
    unfold indicator. rewrite Hover. lia.
  - rewrite Hout, !count_app. simpl. unfold indicator. rewrite Hover.
    unfold is_over in Hover. apply negb_true_iff in Hover. rewrite Hover. lia.
  - congruence.
  - by rewrite Er.
Qed.

Abbreviation reach := (reachable (λ s, s = init) (env_step patient exec)).

Lemma inv_reachable s : reach s → inv s.
Proof.
  apply reachable_invariant; [apply init_inv|].
  intros s1 a s2 Hi [Hpat He]. unfold exec in He. destruct (crashed s1) eqn:Hc; [done|].
  destruct a; [by eapply main_inv|by eapply run_inv|by eapply event_inv].
Qed.

(** ** Properties *)


(** The whole program: both requests are answered, the second one while the
    user waits at the fifth [std::cin.ignore()]. *)
Definition session : list action :=
  [Main 0; Run; Main 0; Run; Run; Main 0; Main 1; Main 0; Main 2; Event 2 true true "61s";
   Main 0; Main 3; Main 0; Main 4; Event 4 true false "unavailable"; Main 0; Main 0; Main 0; Run]%N.
Definition after_session : state := default init (run exec init session).


(** The pointers of the main thread are set by the other thread: a user who
    presses enter before that makes [main] dereference them. *)
Theorem impatient_user_dereferences_null :
  ∃ s, run exec init [Main 0; Main 0; Main 0; Main 1]%N = Some s ∧ crashed s = Some null_dereference.
Proof. eexists. split; vm_compute; reflexivity. Qed.

(** Even a patient user sees the program end in [std::terminate]. *)
Theorem session_ends_in_terminate :
  ∃ s, run exec after_session [Main 0; Main 0]%N = Some s ∧ run_thread s = Returned ∧
    crashed s = Some std_terminate.
Proof. eexists. vm_compute. by split_and!. Qed.

End UnaryRpcClient.
