(* ===== verification/UnaryCalls.v ===== *)
(** * Unary calls from the client to the server and back

    The two sides of a unary call of the examples, joined:
    [src/example/src/server/unary_rpc_handler.hpp] with the records of
    [connections.hpp], run by the loop of [async_server.hpp], and
    [src/example/src/client/unary_rpc_handler.hpp], run by the loop of
    [new_arch_client.cpp]. gRPC carries the messages between them: it writes the
    request and later the response to the addresses it was given, and reports the
    tags in any order. Handlers and tags are reused as soon as they are free. *)
From S2P Require Import Prelude Tag ExampleTagger StreamRpcHandler.

Module UnaryCalls.
Import ExampleTagger.

Abbreviation allocator_ok := StreamRpcHandler.allocator_ok.

Section Calls.
Context {Request Response Status : Type}.

(** Default-constructed messages. *)
Context (no_request : Request) (no_response : Response) (no_status : Status).

(** The user of the server: the arguments of [finish], or of [finish_with_error]. *)
Context (answer : Request → Status * option Response).

(** ** The handlers *)

(** The server's [UnaryRpcConnection]: [context] and [writer] name the call that
    gRPC has bound to them. *)
Record server_connection : Type := mkServerConnection { context : option nat; request : Request }.

(** The server's [UnaryRpcHandler]: the members that handlers differ in. *)
Record server_handler : Type := mkServerHandler {
  register_rpc_ : nat;
  connection_ : server_connection
}.

(** [make_unique_unary_rpc] of the server. *)
Definition make_server_rpc (register_rpc : nat) : server_handler :=
  mkServerHandler register_rpc (mkServerConnection None no_request).

(** [clone] passes the members to the constructor, apart from the connection. *)
Definition clone (h : server_handler) : server_handler := make_server_rpc (register_rpc_ h).

(** The client's [UnaryRpcConnection]; [reader] names the call. *)
Record client_connection : Type := mkClientConnection {
  reader : option nat;
  response : Response;
  status : Status
}.

Record client_handler : Type := mkClientHandler { rpc_ : nat; client_connection_ : client_connection }.

(** [make_unique_unary_rpc] of the client. *)
Definition make_client_rpc (rpc : nat) : client_handler :=
  mkClientHandler rpc (mkClientConnection None no_response no_status).

(** ** gRPC *)
Abbreviation result := (Status * Response)%type.

Inductive progress : Type :=
| InFlight
| Accepted (* by a handler of the server *)
| Answered (r : result)
| Delivered (r : result) (* to the client's connection, its tag is in the queue *)
| Consumed.

(** A call: what [(stub_.*rpc_)] and [Finish] were given, and how far it is.
    [gave_up]: gRPC has ended it with a status of its own. *)
Record call : Type := mkCall {
  call_rpc : nat;
  call_request : Request;
  call_client : addr;
  call_tag : addr;
  call_progress : progress;
  gave_up : bool
}.

Definition advance (p : progress) (c : call) : call :=
  mkCall (call_rpc c) (call_request c) (call_client c) (call_tag c) p (gave_up c).
Definition abandon (r : result) (c : call) : call :=
  mkCall (call_rpc c) (call_request c) (call_client c) (call_tag c) (Answered r) true.

(** [ready]: the tags of the server's requests that a call has arrived for.
    [writers]: the handlers that the user of the server has to finish, with the
    requests it was given. [requests] and [results] record the calls of the
    users' callbacks. *)
Record state : Type := mkState {
  server_data : gmap addr server_handler;
  server_tags : gmap addr Tag;
  ready : gset addr;
  writers : gmap addr Request;
  server_shutdown : bool;
  client_data : gmap addr client_handler;
  client_tags : gmap addr Tag;
  calls : list call;
  requests : list (nat * Request);
  results : list (nat * result);
  crashed : option fault
}.

Definition init : state := mkState ∅ ∅ ∅ ∅ false ∅ ∅ [] [] [] None.

Definition with_server (d : gmap addr server_handler) (t : gmap addr Tag) (r : gset addr)
    (w : gmap addr Request) (s : state) : state :=
  mkState d t r w (server_shutdown s) (client_data s) (client_tags s) (calls s) (requests s) (results s)
    (crashed s).
Definition with_client (d : gmap addr client_handler) (t : gmap addr Tag) (cs : list call) (s : state)
    : state :=
  mkState (server_data s) (server_tags s) (ready s) (writers s) (server_shutdown s) d t cs (requests s)
    (results s) (crashed s).
Definition with_calls (cs : list call) (s : state) : state := with_client (client_data s) (client_tags s) cs s.
Definition log_request (r : nat * Request) (s : state) : state :=
  mkState (server_data s) (server_tags s) (ready s) (writers s) (server_shutdown s) (client_data s)
    (client_tags s) (calls s) (requests s ++ [r]) (results s) (crashed s).
Definition log_result (r : nat * result) (s : state) : state :=
  mkState (server_data s) (server_tags s) (ready s) (writers s) (server_shutdown s) (client_data s)
    (client_tags s) (calls s) (requests s) (results s ++ [r]) (crashed s).
Definition crash (e : fault) (s : state) : state :=
  mkState (server_data s) (server_tags s) (ready s) (writers s) (server_shutdown s) (client_data s)
    (client_tags s) (calls s) (requests s) (results s) (Some e).

(** Addresses that are in use in each process. *)
Definition server_live (s : state) : gset addr := {[nullptr]} ∪ dom (server_data s) ∪ dom (server_tags s).
Definition client_live (s : state) : gset addr := {[nullptr]} ∪ dom (client_data s) ∪ dom (client_tags s).

(** ** The server *)

(** [queue_handler]: the handler's connection is given to gRPC under a new tag. *)
Definition queue_handler (fresh p : addr) (tags : gmap addr Tag) : gmap addr Tag :=
  (make_tag fresh p ServerNewRpc tags).2.

(** [queue_rpc] of [AsyncServer]. *)
Definition queue_rpc (alloc : gset addr → addr) (h : server_handler) (s : state) : state :=
  let rpc_ptr := alloc (server_live s) in
  with_server (emplace rpc_ptr h (server_data s))
    (queue_handler (alloc ({[rpc_ptr]} ∪ server_live s)) rpc_ptr (server_tags s)) (ready s) (writers s) s.

(** [invoke_user_callback]: [on_request_(connection_.request, this)]; the user
    keeps the writer. *)
Definition invoke_on_request (p : addr) (s : state) : outcome state :=
  match server_data s !! p with
  | Some h =>
      let r := request (connection_ h) in
      Ret (log_request (default 0 (context (connection_ h)), r)
        (with_server (server_data s) (server_tags s) (ready s) (<[p := r]> (writers s)) s))
  | None => Fault use_after_free
  end.

(** What gRPC sends for [finish] and [finish_with_error]. *)
Definition answer_result (r : Request) : result :=
  let '(st, resp) := answer r in (st, default no_response resp).

(** [finish] and [finish_with_error] on the handler at [p]: a call that gRPC has
    given up stays as it is. *)
Definition finish (fresh p : addr) (r : Request) (s : state) : outcome state :=
  match server_data s !! p with
  | Some h =>
      let tags := (make_tag fresh p ServerDone (server_tags s)).2 in
      let s := with_server (server_data s) tags (ready s) (delete p (writers s)) s in
      match context (connection_ h) with
      | Some id =>
          Ret (with_calls (alter (λ c, match call_progress c with
            | Accepted => advance (Answered (answer_result r)) c | _ => c end) id (calls s)) s)
      | None => Ret s
      end
  | None => Fault use_after_free
  end.

Definition erase_server (p : addr) (s : state) : state :=
  with_server (delete p (server_data s)) (server_tags s) (ready s) (writers s) s.

(** The body of the loop of [AsyncServer::run]. *)
Definition server_process (alloc : gset addr → addr) (received_tag : addr) (completed_successfully : bool)
    (s : state) : outcome state :=
  '(tag, tags) ← get_tag received_tag (server_tags s);
  let s := with_server (server_data s) tags (ready s ∖ {[received_tag]}) (writers s) s in
  if completed_successfully then
    match label tag with
    | ServerNewRpc =>
        match server_data s !! data tag with
        | Some rpc => invoke_on_request (data tag) (queue_rpc alloc (clone rpc) s)
        | None => Fault use_after_free
        end
    | ServerWriting => Ret s
    | ServerDone => Ret (erase_server (data tag) s)
    | ClientConnectionChange | ClientFinished =>
        Fault (runtime_error "Don't use client tags in the server ya dummy")
    end
  else Ret (erase_server (data tag) s).

(** ** The client *)

(** [data_ptr->emplace(key, std::move(rpc))] *)
Definition make_rpc (fresh : addr) (rpc : nat) (s : state) : state :=
  with_client (emplace fresh (make_client_rpc rpc) (client_data s)) (client_tags s) (calls s) s.

(** [send] *)
Definition send (fresh p : addr) (r : Request) (s : state) : outcome state :=
  match client_data s !! p with
  | Some h =>
      let connection := client_connection_ h in
      let h' := mkClientHandler (rpc_ h)
        (mkClientConnection (Some (length (calls s))) (response connection) (status connection)) in
      Ret (with_client (<[p := h']> (client_data s)) (make_tag fresh p ClientFinished (client_tags s)).2
        (calls s ++ [mkCall (rpc_ h) r p fresh InFlight false]) s)
  | None => Fault use_after_free
  end.

(** [invoke_user_callback]: [on_finish_(connection_.status, connection_.response)]. *)
Definition invoke_on_finish (p : addr) (s : state) : outcome state :=
  match client_data s !! p with
  | Some h =>
      let connection := client_connection_ h in
      Ret (log_result (default 0 (reader connection), (status connection, response connection)) s)
  | None => Fault use_after_free
  end.

Definition erase_client (p : addr) (s : state) : state :=
  with_client (delete p (client_data s)) (client_tags s) (calls s) s.

(** The body of the loop of the client's thread. *)
Definition client_process (received_tag : addr) (completed_successfully : bool) (s : state) : outcome state :=
  '(tag, tags) ← get_tag received_tag (client_tags s);
  let s := with_client (client_data s) tags (calls s) s in
  if completed_successfully then
    match label tag with
    | ClientConnectionChange => Ret s
    | ClientFinished => s ← invoke_on_finish (data tag) s; Ret (erase_client (data tag) s)
    | ServerNewRpc | ServerWriting | ServerDone =>
        Fault (runtime_error "Don't use server tags in the client ya dummy")
    end
  else Ret (erase_client (data tag) s).

(** ** The system *)
Inductive action : Type :=
| Register (rpc : nat) (alloc : gset addr → addr)
| ServerNext (received_tag : addr) (completed_successfully : bool) (alloc : gset addr → addr)
| UserFinish (p : addr) (alloc : gset addr → addr)
| Shutdown
| MakeRpc (rpc : nat) (alloc : gset addr → addr)
| Send (p : addr) (r : Request) (alloc : gset addr → addr)
| ClientNext (id : nat)
| Accept (id : nat) (tag : addr)
| GiveUp (id : nat) (st : Status)
| Deliver (id : nat).

Definition settle (s : state) (r : outcome state) : option state :=
  match r with Ret s' => Some s' | Fault e => Some (crash e s) end.

(** What [Next] of the server may return: a request that a call has arrived for,
    a request that is given up after the shutdown, the end of an answer. *)
Definition deliverable (received_tag : addr) (ok : bool) (s : state) : bool :=
  match server_tags s !! received_tag with
  | Some (mkTag _ ServerNewRpc) =>
      if ok then bool_decide (received_tag ∈ ready s)
      else server_shutdown s && bool_decide (received_tag ∉ ready s)
  | Some _ => true
  | None => false
  end.

(** gRPC gives the call [id] to the handler that waits under [tag]: it binds the
    context and writes the request. *)
Definition accept (id : nat) (c : call) (tag p : addr) (h : server_handler) (s : state) : state :=
  with_calls (<[id := advance Accepted c]> (calls s))
    (with_server
      (<[p := mkServerHandler (register_rpc_ h) (mkServerConnection (Some id) (call_request c))]> (server_data s))
      (server_tags s) ({[tag]} ∪ ready s) (writers s) s).

(** gRPC writes the response and the status to the client's connection. *)
Definition deliver (id : nat) (c : call) (r : result) (s : state) : outcome state :=
  match client_data s !! call_client c with
  | Some h =>
      Ret (with_client
        (<[call_client c := mkClientHandler (rpc_ h)
             (mkClientConnection (reader (client_connection_ h)) r.2 r.1)]> (client_data s))
        (client_tags s) (<[id := advance (Delivered r) c]> (calls s)) s)
  | None => Fault use_after_free
  end.

(** The tag of a client's [Finish] is always reported as completed. *)
Definition exec_live (s : state) (a : action) : option state :=
  match a with
  | Register rpc alloc => Some (queue_rpc alloc (make_server_rpc rpc) s)
  | ServerNext received_tag ok alloc =>
      if deliverable received_tag ok s then settle s (server_process alloc received_tag ok s) else None
  | UserFinish p alloc =>
      r ← writers s !! p; settle s (finish (alloc (server_live s)) p r s)
  | Shutdown =>
      Some (mkState (server_data s) (server_tags s) (ready s) (writers s) true (client_data s)
        (client_tags s) (calls s) (requests s) (results s) (crashed s))
  | MakeRpc rpc alloc => Some (make_rpc (alloc (client_live s)) rpc s)
  | Send p r alloc => settle s (send (alloc (client_live s)) p r s)
  | ClientNext id =>
      c ← calls s !! id;
      match call_progress c with
      | Delivered _ => settle s (client_process (call_tag c) true (with_calls (<[id := advance Consumed c]> (calls s)) s))
      | _ => None
      end
  | Accept id tag =>
      c ← calls s !! id;
      match call_progress c, server_tags s !! tag with
      | InFlight, Some (mkTag p ServerNewRpc) =>
          if negb (server_shutdown s) && bool_decide (tag ∉ ready s) then
            match server_data s !! p with
            | Some h => if decide (register_rpc_ h = call_rpc c) then Some (accept id c tag p h s) else None
            | None => Some (crash use_after_free s)
            end
          else None
      | _, _ => None
      end
  | GiveUp id st =>
      c ← calls s !! id;
      match call_progress c with
      | InFlight | Accepted => Some (with_calls (<[id := abandon (st, no_response) c]> (calls s)) s)
      | _ => None
      end
  | Deliver id =>
      c ← calls s !! id;
      match call_progress c with Answered r => settle s (deliver id c r s) | _ => None end
  end.

Definition exec (s : state) (a : action) : option state :=
  match crashed s with Some _ => None | None => exec_live s a end.

Definition action_ok (a : action) : Prop :=
  match a with
  | Register _ alloc | ServerNext _ _ alloc | UserFinish _ alloc | MakeRpc _ alloc | Send _ _ alloc =>
      allocator_ok alloc
  | _ => True
  end.

(** The user of the client sends every handler once, and none that is gone. *)
Definition sends_once (s : state) (a : action) : bool :=
  match a with
  | Send p _ _ =>
      match client_data s !! p with
      | Some h => match reader (client_connection_ h) with None => true | Some _ => false end
      | None => false
      end
  | _ => true
  end.

Abbreviation reach := (reachable (λ s, s = init) (exec_step_ok (restrict sends_once exec) action_ok)).

(** ** Invariant of the server

    A handler waits for a call under one tag, or its answer is outstanding under
    one tag, or its writer is with the user. It is bound to at most one call, whose
    request it holds. *)
Record server_ok (D : gmap addr server_handler) (T : gmap addr Tag) (R : gset addr)
    (W : gmap addr Request) (C : list call) (Q : list (nat * Request)) : Prop := mkServerOk {
  so_tag k p l : T !! k = Some (mkTag p l) →
    (l = ServerNewRpc ∨ l = ServerDone) ∧ W !! p = None ∧
    ∃ h, D !! p = Some h ∧ (l = ServerNewRpc → k ∈ R ↔ is_Some (context (connection_ h)));
  so_unique k1 k2 p l1 l2 : T !! k1 = Some (mkTag p l1) → T !! k2 = Some (mkTag p l2) → k1 = k2;
  so_ready k : k ∈ R → ∃ p, T !! k = Some (mkTag p ServerNewRpc);
  so_writer p r : W !! p = Some r → ∃ h id,
    D !! p = Some h ∧ context (connection_ h) = Some id ∧ request (connection_ h) = r ∧ (id, r) ∈ Q;
  so_context p h id : D !! p = Some h → context (connection_ h) = Some id → ∃ c,
    C !! id = Some c ∧ request (connection_ h) = call_request c ∧ register_rpc_ h = call_rpc c ∧
    call_progress c ≠ InFlight;
  so_bound p1 p2 h1 h2 id : D !! p1 = Some h1 → D !! p2 = Some h2 →
    context (connection_ h1) = Some id → context (connection_ h2) = Some id → p1 = p2;
  so_logged id r : (id, r) ∈ Q → (∃ c, C !! id = Some c ∧ call_request c = r ∧ call_progress c ≠ InFlight) ∧
    ∀ p h k, D !! p = Some h → context (connection_ h) = Some id → T !! k ≠ Some (mkTag p ServerNewRpc);
  so_once : NoDup Q.*1
}.

Lemma server_ok_calls D T R W C C' Q :
  (∀ id c, C !! id = Some c → ∃ c', C' !! id = Some c' ∧ call_request c' = call_request c ∧
     call_rpc c' = call_rpc c ∧ (call_progress c ≠ InFlight → call_progress c' ≠ InFlight)) →
  server_ok D T R W C Q → server_ok D T R W C' Q.
Proof.
  intros HC [H1 H2 H3 H4 H5 H6 H7 H8]. constructor; try done.
  - intros p h id Hp Hc. destruct (H5 p h id Hp Hc) as (c & Hid & Hr & Hrpc & Hpr).
    destruct (HC id c Hid) as (c' & ? & E1 & E2 & ?). exists c'. rewrite E1, E2. auto.
  - intros id r Hin. destruct (H7 id r Hin) as [(c & Hid & <- & Hpr) ?].
    destruct (HC id c Hid) as (c' & ? & E1 & E2 & ?). split; [|done]. exists c'. auto.
Qed.

(** A new handler waits for a call. *)
Lemma server_ok_queue D T R W C Q p k rpc :
  D !! p = None → T !! k = None → server_ok D T R W C Q →
  server_ok (<[p := make_server_rpc rpc]> D) (<[k := mkTag p ServerNewRpc]> T) R W C Q.
Proof.
  intros Hp Hk [H1 H2 H3 H4 H5 H6 H7 H8].
  assert (∀ k' l, T !! k' ≠ Some (mkTag p l)) as Hno.
  { intros k' l Hk'. destruct (H1 _ _ _ Hk') as (_ & _ & h & ? & _). congruence. }
  assert (∀ p' h id, <[p := make_server_rpc rpc]> D !! p' = Some h → context (connection_ h) = Some id →
    D !! p' = Some h) as Hold.
  { intros p' h id [[<- <-]|[_ ?]]%lookup_insert_Some; done. }
  constructor.
  - intros k' p' l [[<- [= <- <-]]|[Hne Hk']]%lookup_insert_Some.
    + split_and!; [by left| |].
      * destruct (W !! p) as [r|] eqn:Hw; [|done]. destruct (H4 p r Hw) as (? & ? & ? & _). congruence.
      * exists (make_server_rpc rpc). rewrite lookup_insert_eq. split; [done|]. intros _. split.
        { intros Hr%H3. destruct Hr as [? ?]. congruence. }
        simpl. by intros [? ?].
    + destruct (H1 _ _ _ Hk') as (? & ? & h & Hh & ?). split_and!; [done..|]. exists h.
      rewrite lookup_insert_ne; [done|]. congruence.
  - intros k1 k2 p' l1 l2 [[<- [= <- <-]]|[? E1]]%lookup_insert_Some [[<- E]|[? E2]]%lookup_insert_Some.
    + done.
    + by destruct (Hno k2 l2).
    + injection E as -> <-. by destruct (Hno k1 l1).
    + by eapply H2.
  - intros k' Hr. destruct (H3 k' Hr) as [p' ?]. exists p'. rewrite lookup_insert_ne; [done|congruence].
  - intros p' r Hw. destruct (H4 p' r Hw) as (h & id & ? & ?). exists h, id.
    rewrite lookup_insert_ne; [done|congruence].
  - intros p' h id Hp' Hc. by eapply H5; [eapply Hold|].
  - intros p1 p2 h1 h2 id E1 E2 C1 C2. by eapply H6; [eapply Hold|eapply Hold|..].
  - intros id r Hin. destruct (H7 id r Hin) as [? Hl]. split; [done|].
    intros p' h k' Hp' Hc [[<- [= <-]]|[_ ?]]%lookup_insert_Some; [|by eapply Hl; [eapply Hold|..]].
    apply (Hold _ _ _ Hp') in Hc. congruence.
  - done.
Qed.

(** A tag is redeemed, so that nothing is outstanding for its handler. *)
Lemma server_ok_redeem D T R W C Q k p l :
  T !! k = Some (mkTag p l) → server_ok D T R W C Q →
  server_ok D (delete k T) (R ∖ {[k]}) W C Q ∧ (∀ k' l', delete k T !! k' ≠ Some (mkTag p l')).
Proof.
  intros Hk [H1 H2 H3 H4 H5 H6 H7 H8]. split.
  - constructor; try done.
    + intros k' p' l' [Hne Hk']%lookup_delete_Some. destruct (H1 _ _ _ Hk') as (? & ? & h & ? & Hr).
      split_and!; [done..|]. exists h. split; [done|]. intros Hl. rewrite <-(Hr Hl). set_solver.
    + intros k1 k2 p' l1 l2 [_ E1]%lookup_delete_Some [_ E2]%lookup_delete_Some. by eapply H2.
    + intros k' [Hr Hne]%elem_of_difference. destruct (H3 k' Hr) as [p' ?]. exists p'.
      rewrite lookup_delete_ne; [done|set_solver].
    + intros id r Hin. destruct (H7 id r Hin) as [? Hl]. split; [done|].
      intros p' h k' Hp' Hc [_ ?]%lookup_delete_Some. by eapply Hl.
  - intros k' l' [Hne Hk']%lookup_delete_Some. by pose proof (H2 _ _ _ _ _ Hk Hk').
Qed.

(** [data_.erase(tag.data)] *)
Lemma server_ok_erase D T R W C Q p :
  (∀ k l, T !! k ≠ Some (mkTag p l)) → W !! p = None → server_ok D T R W C Q →
  server_ok (delete p D) T R W C Q.
Proof.
  intros Hno Hw [H1 H2 H3 H4 H5 H6 H7 H8]. constructor; try done.
  - intros k p' l Hk. destruct (H1 _ _ _ Hk) as (? & ? & h & ? & ?). split_and!; [done..|]. exists h.
    rewrite lookup_delete_ne; [done|]. intros <-. by eapply Hno.
  - intros p' r Hp'. destruct (H4 p' r Hp') as (h & id & ? & ?). exists h, id.
    rewrite lookup_delete_ne; [done|congruence].
  - intros p' h id [_ Hp]%lookup_delete_Some. by eapply H5.
  - intros p1 p2 h1 h2 id [_ E1]%lookup_delete_Some [_ E2]%lookup_delete_Some. by eapply H6.
  - intros id r Hin. destruct (H7 id r Hin) as [? Hl]. split; [done|].
    intros p' h k [_ ?]%lookup_delete_Some. by eapply Hl.
Qed.

(** The user's callback is called, which leaves the writer with the user. *)
Lemma server_ok_request D T R W C Q p h id :
  (∀ k l, T !! k ≠ Some (mkTag p l)) → D !! p = Some h → context (connection_ h) = Some id →
  id ∉ Q.*1 → server_ok D T R W C Q →
  server_ok D T R (<[p := request (connection_ h)]> W) C (Q ++ [(id, request (connection_ h))]).
Proof.
  intros Hno Hp Hc Hq [H1 H2 H3 H4 H5 H6 H7 H8]. constructor; try done.
  - intros k p' l Hk. destruct (H1 _ _ _ Hk) as (? & ? & ?). split_and!; try done.
    rewrite lookup_insert_ne; [done|]. intros <-. by eapply Hno.
  - intros p' r [[<- <-]|[_ Hp']]%lookup_insert_Some; [exists h, id; set_solver|].
    destruct (H4 p' r Hp') as (h' & id' & ? & ? & ? & ?). exists h', id'. set_solver.
  - intros id' r [Hin|[= -> ->]%list_elem_of_singleton]%elem_of_app; [by apply H7|].
    destruct (H5 p h id Hp Hc) as (c & ? & ? & _ & ?). split; [by exists c|].
    intros p' h' k Hp' Hc' Hk. rewrite (H6 _ _ _ _ _ Hp' Hp Hc' Hc) in Hk. by eapply Hno.
  - rewrite fmap_app. apply NoDup_app. split_and!; [done| |apply NoDup_singleton].
    intros x Hx ->%list_elem_of_singleton. done.
Qed.

(** [finish]: the answer is outstanding. *)
Lemma server_ok_finish D T R W C Q p r k :
  W !! p = Some r → T !! k = None → server_ok D T R W C Q →
  server_ok D (<[k := mkTag p ServerDone]> T) R (delete p W) C Q.
Proof.
  intros Hw Hk [H1 H2 H3 H4 H5 H6 H7 H8].
  assert (∀ k' l, T !! k' ≠ Some (mkTag p l)) as Hno.
  { intros k' l Hk'. destruct (H1 _ _ _ Hk') as (_ & ? & _). congruence. }
  constructor; try done.
  - intros k' p' l [[<- [= <- <-]]|[Hne Hk']]%lookup_insert_Some.
    + destruct (H4 p r Hw) as (h & id & ? & ?). split_and!; [by right|by rewrite lookup_delete_eq|].
      by exists h.
    + destruct (H1 _ _ _ Hk') as (? & ? & ?). split_and!; try done.
      apply lookup_delete_None. by right.
  - intros k1 k2 p' l1 l2 [[<- [= <- <-]]|[? E1]]%lookup_insert_Some [[<- E]|[? E2]]%lookup_insert_Some.
    + done.
    + by destruct (Hno k2 l2).
    + injection E as -> <-. by destruct (Hno k1 l1).
    + by eapply H2.
  - intros k' Hr. destruct (H3 k' Hr) as [p' ?]. exists p'. rewrite lookup_insert_ne; [done|congruence].
  - intros p' r' [_ ?]%lookup_delete_Some. by apply H4.
  - intros id r' Hin. destruct (H7 id r' Hin) as [? Hl]. split; [done|].
    intros p' h k' Hp' Hc [[<- [= ->]]|[_ ?]]%lookup_insert_Some. by eapply Hl.
Qed.

(** A call arrives for a waiting handler. *)
Lemma server_ok_accept D T R W C Q p k h id c :
  T !! k = Some (mkTag p ServerNewRpc) → k ∉ R → D !! p = Some h → C !! id = Some c →
  call_progress c = InFlight → register_rpc_ h = call_rpc c → server_ok D T R W C Q →
  server_ok (<[p := mkServerHandler (register_rpc_ h) (mkServerConnection (Some id) (call_request c))]> D)
    T ({[k]} ∪ R) W (<[id := advance Accepted c]> C) Q.
Proof.
  intros Hk HR Hp Hid Hfl Hrpc [H1 H2 H3 H4 H5 H6 H7 H8].
  destruct (H1 _ _ _ Hk) as (_ & Hw & h0 & Hp0 & Hr0). simplify_eq.
  assert (∀ p' h', D !! p' = Some h' → context (connection_ h') ≠ Some id) as Hnew.
  { intros p' h' Hp' Hc'. destruct (H5 _ _ _ Hp' Hc') as (? & ? & _ & _ & ?). congruence. }
  assert (id < length C) as Hlt by (by eapply lookup_lt_Some).
  constructor.
  - intros k' p' l Hk'. destruct (H1 _ _ _ Hk') as (? & ? & h' & Hh' & Hr'). split_and!; [done..|].
    destruct (decide (p' = p)) as [->|Hne].
    + rewrite lookup_insert_eq. eexists. split; [done|]. intros _. rewrite (H2 _ _ _ _ _ Hk' Hk).
      split; [intros _; by eexists|set_solver].
    + rewrite lookup_insert_ne by done. exists h'. split; [done|]. intros Hl.
      rewrite <-(Hr' Hl), elem_of_union, elem_of_singleton. split; [|auto].
      intros [->|?]; [|done]. congruence.
  - done.
  - intros k' [->%elem_of_singleton|Hr]%elem_of_union; [by exists p|by apply H3].
  - intros p' r Hw'. destruct (H4 p' r Hw') as (h' & id' & ? & ?). exists h', id'.
    rewrite lookup_insert_ne; [done|congruence].
  - intros p' h' id' [[<- <-]|[Hne Hp']]%lookup_insert_Some; simpl.
    + intros [= <-]. exists (advance Accepted c). by rewrite list_lookup_insert_eq.
    + intros Hc'. destruct (H5 _ _ _ Hp' Hc') as (c' & Hc & ?). exists c'.
      rewrite list_lookup_insert_ne; [done|]. intros <-. by eapply Hnew.
  - intros p1 p2 h1 h2 id' [[<- <-]|[? E1]]%lookup_insert_Some [[<- <-]|[? E2]]%lookup_insert_Some C1 C2;
      simpl in *; simplify_eq.
    + done.
    + by destruct (Hnew _ _ E2).
    + by destruct (Hnew _ _ E1).
    + by eapply H6.
  - intros id' r Hin. destruct (H7 id' r Hin) as [(c' & Hc' & ? & Hpr) Hl].
    assert (id' ≠ id) as Hne by (intros ->; congruence). split.
    + exists c'. by rewrite list_lookup_insert_ne.
    + intros p' h' k' [[<- <-]|[_ Hp']]%lookup_insert_Some; simpl; [congruence|by apply Hl].
  - done.
Qed.

(** ** Invariant of the client

    A call that the client has not consumed has its tag, and the handler that
    sent it, whose connection has what gRPC delivered. *)
Definition honest (c : call) (r : result) : Prop :=
  gave_up c = true ∨ r = answer_result (call_request c).

Record client_ok (D : gmap addr client_handler) (T : gmap addr Tag) (C : list call)
    (Rs : list (nat * result)) : Prop := mkClientOk {
  cl_call id c : C !! id = Some c → call_progress c ≠ Consumed →
    T !! call_tag c = Some (mkTag (call_client c) ClientFinished) ∧
    ∃ h, D !! call_client c = Some h ∧ reader (client_connection_ h) = Some id ∧
      ∀ r, call_progress c = Delivered r →
        (status (client_connection_ h), response (client_connection_ h)) = r;
  cl_answer id c r : C !! id = Some c → call_progress c = Answered r ∨ call_progress c = Delivered r →
    honest c r;
  cl_result id r : (id, r) ∈ Rs → ∃ c, C !! id = Some c ∧ call_progress c = Consumed ∧ honest c r;
  cl_once : NoDup Rs.*1
}.

(** Calls that the client has not consumed have clients and tags of their own. *)
Lemma client_apart D T C Rs id1 id2 c1 c2 :
  client_ok D T C Rs → C !! id1 = Some c1 → C !! id2 = Some c2 →
  call_progress c1 ≠ Consumed → call_progress c2 ≠ Consumed →
  call_client c1 = call_client c2 ∨ call_tag c1 = call_tag c2 → id1 = id2.
Proof.
  intros Ho E1 E2 N1 N2 Heq.
  destruct (cl_call _ _ _ _ Ho _ _ E1 N1) as (T1 & h1 & D1 & R1 & _).
  destruct (cl_call _ _ _ _ Ho _ _ E2 N2) as (T2 & h2 & D2 & R2 & _).
  destruct Heq as [Heq|Heq]; congruence.
Qed.

Lemma client_ok_make D T C Rs p h :
  D !! p = None → client_ok D T C Rs → client_ok (<[p := h]> D) T C Rs.
Proof.
  intros Hp [H1 H2 H3 H4]. constructor; try done. intros id c Hid Hc.
  destruct (H1 id c Hid Hc) as (? & h' & ? & ?). split; [done|]. exists h'.
  rewrite lookup_insert_ne; [done|congruence].
Qed.

Lemma client_ok_send D T C Rs p k r h h' :
  D !! p = Some h → reader (client_connection_ h) = None → T !! k = None →
  reader (client_connection_ h') = Some (length C) → client_ok D T C Rs →
  client_ok (<[p := h']> D) (<[k := mkTag p ClientFinished]> T)
    (C ++ [mkCall (rpc_ h) r p k InFlight false]) Rs.
Proof.
  intros Hp Hr Hk Hr' [H1 H2 H3 H4]. constructor; try done.
  - intros id c [Hid|[Hge Hid]]%lookup_app_Some Hc.
    + destruct (H1 id c Hid Hc) as (HT & h0 & Hh0 & Hrd & Hdl). split.
      { rewrite lookup_insert_ne; [done|congruence]. }
      exists h0. rewrite lookup_insert_ne; [done|congruence].
    + apply list_lookup_singleton_Some in Hid as [Hz <-]. simpl. rewrite lookup_insert_eq.
      split; [done|]. exists h'. rewrite lookup_insert_eq. split_and!; [done| |done].
      rewrite Hr'. f_equal. lia.
  - intros id c r' [Hid|[_ Hid]]%lookup_app_Some; [by apply (H2 id)|].
    apply list_lookup_singleton_Some in Hid as [_ <-]. by intros [|].
  - intros id r' Hin. destruct (H3 id r' Hin) as (c & Hid & ?). exists c. split; [|done].
    by apply lookup_app_l_Some.
Qed.

(** gRPC moves a call that the client has not consumed. *)
Lemma client_ok_progress D T C Rs id c c' :
  C !! id = Some c → call_progress c ≠ Consumed → call_client c' = call_client c →
  call_tag c' = call_tag c → (∀ r, call_progress c' ≠ Delivered r) → call_progress c' ≠ Consumed →
  (∀ r, call_progress c' = Answered r → honest c' r) → client_ok D T C Rs →
  client_ok D T (<[id := c']> C) Rs.
Proof.
  intros Hid Hc Ecl Etag Hd Hn Ha [H1 H2 H3 H4]. assert (id < length C) by (by eapply lookup_lt_Some).
  constructor; try done.
  - intros id' c0 [[-> [<- _]]|[_ Hid']]%list_lookup_insert_Some Hc0; [|by apply H1].
    destruct (H1 _ c Hid Hc) as (? & h & ? & ? & _). rewrite Ecl, Etag. split; [done|]. exists h.
    split_and!; [done..|]. intros r Hr. by destruct (Hd r).
  - intros id' c0 r [[-> [<- _]]|[_ Hid']]%list_lookup_insert_Some; [|by apply (H2 id')].
    intros [?|Hr]; [by apply Ha|by destruct (Hd r)].
  - intros id' r Hin. destruct (H3 id' r Hin) as (c0 & Hid' & Hcons & ?). exists c0.
    split; [|done]. rewrite list_lookup_insert_ne; [done|]. intros ->. congruence.
Qed.

Lemma client_ok_deliver D T C Rs id c h h' r :
  C !! id = Some c → call_progress c = Answered r → D !! call_client c = Some h →
  reader (client_connection_ h') = reader (client_connection_ h) →
  (status (client_connection_ h'), response (client_connection_ h')) = r → client_ok D T C Rs →
  client_ok (<[call_client c := h']> D) T (<[id := advance (Delivered r) c]> C) Rs.
Proof.
  intros Hid Hc Hh Hrd Hst Ho. pose proof Ho as [H1 H2 H3 H4].
  assert (id < length C) by (by eapply lookup_lt_Some). constructor; try done.
  - intros id' c0 [[-> [<- _]]|[Hne Hid']]%list_lookup_insert_Some Hc0; simpl in *.
    + destruct (H1 _ c Hid) as (? & h0 & Hh0 & ? & _); [by rewrite Hc|]. split; [done|].
      simplify_eq. exists h'. rewrite lookup_insert_eq, Hrd. split_and!; [done..|]. congruence.
    + destruct (H1 id' c0 Hid' Hc0) as (? & h0 & ? & ?). split; [done|]. exists h0.
      rewrite lookup_insert_ne; [done|]. intros E. apply Hne.
      eapply client_apart; [exact Ho|done..|by rewrite Hc|done|by left].
  - intros id' c0 r' [[-> [<- _]]|[_ Hid']]%list_lookup_insert_Some; [|by apply (H2 id')].
    simpl. intros [?|[= <-]]; [done|]. apply (H2 _ c r Hid). by left.
  - intros id' r' Hin. destruct (H3 id' r' Hin) as (c0 & Hid' & Hcons & ?). exists c0.
    split; [|done]. rewrite list_lookup_insert_ne; [done|]. intros ->. congruence.
Qed.

Lemma client_ok_consume D T C Rs id c r :
  C !! id = Some c → call_progress c = Delivered r → client_ok D T C Rs →
  client_ok (delete (call_client c) D) (delete (call_tag c) T) (<[id := advance Consumed c]> C)
    (Rs ++ [(id, r)]).
Proof.
  intros Hid Hc Ho. pose proof Ho as [H1 H2 H3 H4].
  assert (id < length C) by (by eapply lookup_lt_Some). constructor.
  - intros id' c0 [[-> [<- _]]|[Hne Hid']]%list_lookup_insert_Some Hc0; [done|].
    destruct (H1 id' c0 Hid' Hc0) as (? & h0 & ? & ?).
    assert (∀ b, (call_client c = call_client c0 ∨ call_tag c = call_tag c0) → b) as Hap.
    { intros b E. destruct Hne. eapply client_apart; [exact Ho|done..|by rewrite Hc|done|done]. }
    split; [rewrite lookup_delete_ne; [done|]; intros E; apply Hap; auto|].
    exists h0. rewrite lookup_delete_ne; [done|]. intros E. apply Hap. auto.
  - intros id' c0 r' [[-> [<- _]]|[_ Hid']]%list_lookup_insert_Some; [by intros [|]|by apply (H2 id')].
  - intros id' r' [Hin|[= -> ->]%list_elem_of_singleton]%elem_of_app.
    + destruct (H3 id' r' Hin) as (c0 & Hid' & Hcons & ?). exists c0. split; [|done].
      rewrite list_lookup_insert_ne; [done|]. intros ->. congruence.
    + exists (advance Consumed c). rewrite list_lookup_insert_eq by done. split_and!; [done..|].
      apply (H2 _ c r Hid). by right.
  - rewrite fmap_app. apply NoDup_app. split_and!; [done| |apply NoDup_singleton].
    intros x Hx ->%list_elem_of_singleton. apply list_elem_of_fmap in Hx as ([id' r'] & E & Hin).
    simpl in E. subst id'. destruct (H3 _ _ Hin) as (c0 & Hid' & Hcons & _). congruence.
Qed.

(** A call that has an answer was brought to the user of the server, or gRPC gave
    it up. *)
Definition asked (C : list call) (Q : list (nat * Request)) : Prop :=
  ∀ id c, C !! id = Some c →
    match call_progress c with
    | InFlight | Accepted => True
    | _ => gave_up c = true ∨ (id, call_request c) ∈ Q
    end.

Lemma asked_insert C Q id c :
  match call_progress c with
  | InFlight | Accepted => True
  | _ => gave_up c = true ∨ (id, call_request c) ∈ Q
  end → asked C Q → asked (<[id := c]> C) Q.
Proof. intros Hc Hq id' c' [[-> [<- _]]|[_ ?]]%list_lookup_insert_Some; [done|by apply Hq]. Qed.

(** ** Every step *)
Record inv (s : state) : Prop := mkInv {
  inv_server : server_ok (server_data s) (server_tags s) (ready s) (writers s) (calls s) (requests s);
  inv_client : client_ok (client_data s) (client_tags s) (calls s) (results s);
  inv_asked : asked (calls s) (requests s);
  inv_crashed : crashed s = None
}.

Lemma init_calls_inv : inv init.
Proof. constructor; [constructor|constructor|..]; simpl; try set_solver; try constructor; done. Qed.

Lemma server_fresh used s p :
  p ∉ used → server_live s ⊆ used → server_data s !! p = None ∧ server_tags s !! p = None.
Proof. unfold server_live. intros Hp Hs. rewrite <-!not_elem_of_dom. set_solver. Qed.

Lemma client_fresh used s p :
  p ∉ used → client_live s ⊆ used → client_data s !! p = None ∧ client_tags s !! p = None.
Proof. unfold client_live. intros Hp Hs. rewrite <-!not_elem_of_dom. set_solver. Qed.

Lemma queue_rpc_calls_inv alloc rpc s :
  allocator_ok alloc → inv s → inv (queue_rpc alloc (make_server_rpc rpc) s).
Proof.
  intros Ha [Hs Hc Hq Hcr]. unfold queue_rpc, queue_handler, make_tag.
  destruct (server_fresh _ s _ (Ha (server_live s))) as [Hp _]; [done|].
  destruct (server_fresh _ s _ (Ha ({[alloc (server_live s)]} ∪ server_live s))) as [_ Hk]; [set_solver|].
  constructor; [|done..]. simpl. rewrite !emplace_fresh by done. by apply server_ok_queue.
Qed.

Lemma queue_rpc_keeps alloc h s p :
  allocator_ok alloc → is_Some (server_data s !! p) →
  server_data (queue_rpc alloc h s) !! p = server_data s !! p.
Proof.
  intros Ha [h0 Hp]. unfold queue_rpc. simpl.
  destruct (server_fresh _ s _ (Ha (server_live s))) as [Hf _]; [done|].
  rewrite emplace_fresh by done. rewrite lookup_insert_ne; [done|congruence].
Qed.

(** The server's thread. *)
Lemma server_process_inv alloc k ok s :
  allocator_ok alloc → deliverable k ok s = true → inv s →
  ∃ s', server_process alloc k ok s = Ret s' ∧ inv s'.
Proof.
  intros Ha Hd [Hs Hc Hq Hcr]. unfold deliverable in Hd. unfold server_process, get_tag.
  destruct (server_tags s !! k) as [[p l]|] eqn:Hk; [|done]. cbn [mbind outcome_bind].
  destruct (so_tag _ _ _ _ _ _ Hs _ _ _ Hk) as (Hl & Hw & h & Hh & Hr).
  destruct (server_ok_redeem _ _ _ _ _ _ _ _ _ Hk Hs) as [Hs' Hno].
  assert (inv (with_server (server_data s) (delete k (server_tags s)) (ready s ∖ {[k]}) (writers s) s)) as Hi
    by by constructor.
  set (s1 := with_server _ _ _ _ _) in *.
  assert (inv (erase_server p s1)) as Her.
  { constructor; [|done..]. simpl. by apply server_ok_erase. }
  destruct ok; [|by eexists]. simpl label. simpl data. destruct Hl as [-> | ->]; [|by eexists].
  apply bool_decide_eq_true_1 in Hd. apply (Hr eq_refl) in Hd as [id Hid].
  assert (server_data s1 !! p = Some h) as Hh1 by done. rewrite Hh1.
  unfold invoke_on_request. rewrite queue_rpc_keeps, Hh1 by (done || by eexists). rewrite Hid. simpl default.
  eexists. split; [done|].
  assert (id ∉ (requests s).*1) as Hnew.
  { intros ([id' r] & E & Hin)%list_elem_of_fmap. simpl in E. subst id'.
    destruct (so_logged _ _ _ _ _ _ Hs _ _ Hin) as [_ Hlog]. by eapply Hlog. }
  assert (inv (log_request (id, request (connection_ h))
    (with_server (server_data s1) (server_tags s1) (ready s1) (<[p := request (connection_ h)]> (writers s1)) s1)))
    as Hi2.
  { constructor; [| |intros id' c' Hc'; specialize (Hq id' c' Hc'); simpl|]; try done; simpl.
    - by apply server_ok_request.
    - destruct (call_progress c'); try done; set_solver. }
  pose proof (queue_rpc_calls_inv alloc (register_rpc_ h) _ Ha Hi2) as [? ? ? ?]. by constructor.
Qed.

Lemma alter_is_insert {A} (f : A → A) (l : list A) i x :
  l !! i = Some x → alter f i l = <[i := f x]> l.
Proof.
  intros Hi. apply list_eq. intros j. destruct (decide (i = j)) as [<-|Hne].
  - rewrite list_lookup_alter_eq, Hi, list_lookup_insert_eq; [done|by eapply lookup_lt_Some].
  - by rewrite list_lookup_alter_ne, list_lookup_insert_ne.
Qed.

Lemma finish_inv alloc p r s :
  allocator_ok alloc → writers s !! p = Some r → inv s →
  ∃ s', finish (alloc (server_live s)) p r s = Ret s' ∧ inv s'.
Proof.
  intros Ha Hw [Hs Hc Hq Hcr]. unfold finish, make_tag.
  destruct (so_writer _ _ _ _ _ _ Hs _ _ Hw) as (h & id & Hh & Hid & Hreq & Hlog).
  destruct (so_context _ _ _ _ _ _ Hs _ _ _ Hh Hid) as (c & Hcid & Hrc & _ & Hpr).
  destruct (server_fresh _ s _ (Ha (server_live s))) as [_ Hk]; [done|].
  rewrite Hh, Hid. eexists. split; [done|]. simpl. rewrite emplace_fresh by done.
  constructor; [| | |done]; simpl.
  - eapply server_ok_calls; [|by eapply server_ok_finish].
    intros id' c' Hc'. destruct (decide (id' = id)) as [->|Hne].
    + rewrite list_lookup_alter_eq, Hc'. simpl. eexists. split; [done|].
      by destruct (call_progress c') eqn:E; simpl; rewrite ?E.
    + exists c'. by rewrite list_lookup_alter_ne.
  - rewrite (alter_is_insert _ _ _ c Hcid).
    destruct (call_progress c) eqn:E; try (by rewrite list_insert_id).
    eapply (client_ok_progress _ _ _ _ _ c); simpl; try done; [by rewrite E|].
    intros r' [= <-]. right. simpl. congruence.
  - rewrite (alter_is_insert _ _ _ c Hcid). apply asked_insert; [|done]. specialize (Hq id c Hcid).
    destruct (call_progress c) eqn:E; simpl; rewrite ?E; try done. right. congruence.
Qed.

(** The steps of gRPC and of the client. *)
Lemma accept_inv id c k p h s :
  calls s !! id = Some c → call_progress c = InFlight → server_tags s !! k = Some (mkTag p ServerNewRpc) →
  k ∉ ready s → server_data s !! p = Some h → register_rpc_ h = call_rpc c → inv s →
  inv (accept id c k p h s).
Proof.
  intros Hid Hc Hk Hr Hp Hrpc [Hs Hcl Hq Hcr]. constructor; [| | |done]; simpl.
  - by apply server_ok_accept.
  - eapply client_ok_progress; simpl; try done. by rewrite Hc.
  - by apply asked_insert.
Qed.

Lemma calls_insert s id c c' D T R W Q :
  calls s !! id = Some c → call_request c' = call_request c → call_rpc c' = call_rpc c →
  call_progress c' ≠ InFlight → server_ok D T R W (calls s) Q → server_ok D T R W (<[id := c']> (calls s)) Q.
Proof.
  intros Hid E1 E2 Hp. apply server_ok_calls. intros id' c0 Hc0.
  destruct (decide (id' = id)) as [->|Hne].
  - exists c'. rewrite list_lookup_insert_eq by (by eapply lookup_lt_Some). simplify_eq. by rewrite E1, E2.
  - exists c0. by rewrite list_lookup_insert_ne.
Qed.

Lemma abandon_inv id c st s :
  calls s !! id = Some c → call_progress c ≠ Consumed → inv s →
  inv (with_calls (<[id := abandon (st, no_response) c]> (calls s)) s).
Proof.
  intros Hid Hc [Hs Hcl Hq Hcr]. constructor; [| | |done]; simpl.
  - by eapply calls_insert.
  - eapply client_ok_progress; simpl; try done. by left.
  - apply asked_insert; [by left|done].
Qed.

Lemma deliver_inv id c r s :
  calls s !! id = Some c → call_progress c = Answered r → inv s →
  ∃ s', deliver id c r s = Ret s' ∧ inv s'.
Proof.
  intros Hid Hc [Hs Hcl Hq Hcr]. unfold deliver.
  destruct (cl_call _ _ _ _ Hcl id c Hid) as (_ & h & Hh & Hrd & _); [by rewrite Hc|].
  rewrite Hh. eexists. split; [done|]. constructor; [| | |done]; simpl.
  - by eapply calls_insert.
  - eapply client_ok_deliver; try done. by destruct r.
  - apply asked_insert; [|done]. specialize (Hq id c Hid). by rewrite Hc in Hq.
Qed.

Lemma client_process_inv id c r s :
  calls s !! id = Some c → call_progress c = Delivered r → inv s →
  ∃ s', client_process (call_tag c) true (with_calls (<[id := advance Consumed c]> (calls s)) s) = Ret s' ∧ inv s'.
Proof.
  intros Hid Hc [Hs Hcl Hq Hcr]. unfold client_process, get_tag.
  destruct (cl_call _ _ _ _ Hcl id c Hid) as (Ht & h & Hh & Hrd & Hres); [by rewrite Hc|].
  simpl. rewrite Ht. cbn [mbind outcome_bind label data]. unfold invoke_on_finish. simpl. rewrite Hh.
  cbn [mbind outcome_bind]. eexists. split; [done|]. rewrite Hrd, (Hres r Hc). simpl.
  constructor; [| | |done]; simpl; [by eapply calls_insert|by apply client_ok_consume|].
  apply asked_insert; [|done]. specialize (Hq id c Hid). by rewrite Hc in Hq.
Qed.

Lemma send_inv alloc p r s :
  allocator_ok alloc → sends_once s (Send p r alloc) = true → inv s →
  ∃ s', send (alloc (client_live s)) p r s = Ret s' ∧ inv s'.
Proof.
  intros Ha Hso [Hs Hcl Hq Hcr]. simpl in Hso. unfold send, make_tag.
  destruct (client_data s !! p) as [h|] eqn:Hp; [|done].
  destruct (client_fresh _ s _ (Ha (client_live s))) as [_ Hk]; [done|].
  eexists. split; [done|]. simpl. rewrite emplace_fresh by done. constructor; [| | |done]; simpl.
  - eapply server_ok_calls; [|done]. intros id c Hid. exists c. split; [by apply lookup_app_l_Some|done].
  - eapply client_ok_send; try done. by destruct (reader (client_connection_ h)).
  - intros id c [?|[_ Hc]]%lookup_app_Some; [by apply Hq|].
    by apply list_lookup_singleton_Some in Hc as [_ <-].
Qed.

Lemma step_inv s a s' :
  inv s → action_ok a → sends_once s a = true → exec_live s a = Some s' → inv s'.
Proof.
  intros Hi Ha Hso. destruct a as [rpc alloc|k ok alloc|p alloc| |rpc alloc|p r alloc|id|id k|id st|id];
    unfold exec_live.
  - intros [= <-]. by apply queue_rpc_calls_inv.
  - destruct (deliverable k ok s) eqn:Hd; [|done].
    destruct (server_process_inv alloc k ok s Ha Hd Hi) as (s1 & -> & ?). by intros [= <-].
  - destruct (writers s !! p) as [r|] eqn:Hw; [|done]. cbn [mbind option_bind].
    destruct (finish_inv alloc p r s Ha Hw Hi) as (s1 & -> & ?). by intros [= <-].
  - intros [= <-]. destruct Hi. by constructor.
  - intros [= <-]. destruct Hi as [Hs Hcl Hq Hcr]. constructor; [done| |done..]. simpl.
    destruct (client_fresh _ s _ (Ha (client_live s))) as [Hp _]; [done|].
    rewrite emplace_fresh by done. by apply client_ok_make.
  - destruct (send_inv alloc p r s Ha Hso Hi) as (s1 & -> & ?). by intros [= <-].
  - destruct (calls s !! id) as [c|] eqn:Hid; [|done]. cbn [mbind option_bind].
    destruct (call_progress c) as [| | |r|] eqn:Hc; try done.
    destruct (client_process_inv id c r s Hid Hc Hi) as (s1 & -> & ?). by intros [= <-].
  - destruct (calls s !! id) as [c|] eqn:Hid; [|done]. cbn [mbind option_bind].
    destruct (call_progress c) eqn:Hc; try done.
    destruct (server_tags s !! k) as [[p []]|] eqn:Hk; try done.
    destruct (negb _ && _) eqn:Hb; [|done]. apply andb_true_iff in Hb as [_ Hr%bool_decide_eq_true_1].
    destruct (so_tag _ _ _ _ _ _ (inv_server _ Hi) _ _ _ Hk) as (_ & _ & h & Hh & _). rewrite Hh.
    case_decide; [|done]. intros [= <-]. by apply accept_inv.
  - destruct (calls s !! id) as [c|] eqn:Hid; [|done]. cbn [mbind option_bind].
    destruct (call_progress c) eqn:Hc; try done; intros [= <-]; apply abandon_inv; try done; by rewrite Hc.
  - destruct (calls s !! id) as [c|] eqn:Hid; [|done]. cbn [mbind option_bind].
    destruct (call_progress c) as [| |r| |] eqn:Hc; try done.
    destruct (deliver_inv id c r s Hid Hc Hi) as (s1 & -> & ?). by intros [= <-].
Qed.

Lemma unary_reach_inv s : reach s → inv s.
Proof.
  apply reachable_invariant; [intros ? ->; apply init_calls_inv|].
  intros s1 a s2 Hi [Ha [Hso He]%restrict_inv]. unfold exec in He.
  rewrite (inv_crashed _ Hi) in He. by eapply step_inv.
Qed.

(** *** A call can be completed *)
Lemma live_step s a s' :
  crashed s = None → sends_once s a = true → exec_live s a = Some s' →
  restrict sends_once exec s a = Some s'.
Proof. unfold restrict, exec. by intros -> ->. Qed.

(** The handler that waits under the tag [k] may take the call [id]. *)
Definition handler_waits (s : state) (k : addr) (c : call) : Prop :=
  k ∉ ready s ∧ ∃ p h, server_tags s !! k = Some (mkTag p ServerNewRpc) ∧ server_data s !! p = Some h ∧
    register_rpc_ h = call_rpc c.

Lemma server_process_new alloc k p h id s :
  allocator_ok alloc → server_tags s !! k = Some (mkTag p ServerNewRpc) → server_data s !! p = Some h →
  context (connection_ h) = Some id → ∃ s',
    server_process alloc k true s = Ret s' ∧ writers s' !! p = Some (request (connection_ h)) ∧
    server_data s' !! p = Some h ∧ calls s' = calls s ∧ results s' = results s.
Proof.
  intros Ha Hk Hp Hid. unfold server_process, get_tag. rewrite Hk. cbn [mbind outcome_bind label data].
  set (s1 := with_server _ _ _ _ _). assert (server_data s1 !! p = Some h) as Hp1 by done. rewrite Hp1.
  unfold invoke_on_request. rewrite queue_rpc_keeps, Hp1 by (done || by eexists).
  eexists. split; [done|]. split_and!; try done.
  - simpl. by rewrite lookup_insert_eq.
  - change (server_data (queue_rpc alloc (clone h) s1) !! p = Some h).
    rewrite queue_rpc_keeps; [done..|by eexists].
Qed.

Lemma finish_answers fresh p r h id c s :
  server_data s !! p = Some h → context (connection_ h) = Some id → calls s !! id = Some c →
  call_progress c = Accepted → ∃ s',
    finish fresh p r s = Ret s' ∧ calls s' !! id = Some (advance (Answered (answer_result r)) c) ∧
    results s' = results s.
Proof.
  intros Hp Hid Hc Hpr. unfold finish. rewrite Hp, Hid. eexists. split; [done|]. split; [|done].
  simpl. by rewrite list_lookup_alter_eq, Hc; simpl; rewrite Hpr.
Qed.

Lemma deliver_answers id c r s :
  calls s !! id = Some c → call_progress c = Answered r → inv s → ∃ s',
    deliver id c r s = Ret s' ∧ calls s' !! id = Some (advance (Delivered r) c) ∧ results s' = results s.
Proof.
  intros Hc Hpr Hi. destruct (deliver_inv id c r s Hc Hpr Hi) as (s' & Hd & _). exists s'.
  unfold deliver in *. destruct (client_data s !! call_client c); [|done]. injection Hd as <-.
  split_and!; [done| |done]. simpl. rewrite list_lookup_insert_eq; [done|by eapply lookup_lt_Some].
Qed.

Lemma client_consumes id c r s :
  calls s !! id = Some c → call_progress c = Delivered r → inv s → ∃ s',
    client_process (call_tag c) true (with_calls (<[id := advance Consumed c]> (calls s)) s) = Ret s' ∧
    results s' = results s ++ [(id, r)].
Proof.
  intros Hc Hpr Hi. unfold client_process, get_tag.
  destruct (cl_call _ _ _ _ (inv_client _ Hi) id c Hc) as (Ht & h & Hh & Hrd & Hres); [by rewrite Hpr|].
  simpl. rewrite Ht. cbn [mbind outcome_bind label data]. unfold invoke_on_finish. simpl. rewrite Hh.
  cbn [mbind outcome_bind]. eexists. split; [done|]. by rewrite Hrd, (Hres r Hpr).
Qed.

Lemma call_completes alloc s id c k :
  allocator_ok alloc → inv s → server_shutdown s = false → calls s !! id = Some c →
  call_progress c = InFlight → handler_waits s k c →
  ∃ p s', run (restrict sends_once exec) s
    [Accept id k; ServerNext k true alloc; UserFinish p alloc; Deliver id; ClientNext id] = Some s' ∧
    results s' = results s ++ [(id, answer_result (call_request c))].
Proof.
  intros Ha Hi Hsh Hid Hc (Hr & p & h & Hk & Hp & Hrpc). exists p.
  set (s1 := accept id c k p h s).
  pose proof (accept_inv id c k p h s Hid Hc Hk Hr Hp Hrpc Hi) as Hi1. fold s1 in Hi1.
  assert (exec_live s (Accept id k) = Some s1) as E1.
  { simpl. rewrite Hid. cbn [mbind option_bind].
    by rewrite Hc, Hk, Hsh, bool_decide_true, Hp, decide_True by done. }
  set (h1 := mkServerHandler (register_rpc_ h) (mkServerConnection (Some id) (call_request c))).
  assert (server_data s1 !! p = Some h1) as Hp1 by (simpl; by rewrite lookup_insert_eq).
  assert (calls s1 !! id = Some (advance Accepted c)) as Hid1
    by (simpl; apply list_lookup_insert_eq; by eapply lookup_lt_Some).
  destruct (server_process_new alloc k p h1 id s1 Ha Hk Hp1 eq_refl) as (s2 & E2 & Hw2 & Hp2 & Hc2 & Hres2).
  change (request (connection_ h1)) with (call_request c) in Hw2.
  assert (deliverable k true s1 = true) as Hd1.
  { unfold deliverable. change (server_tags s1) with (server_tags s). rewrite Hk.
    apply bool_decide_eq_true_2. simpl. set_solver. }
  destruct (server_process_inv alloc k true s1 Ha Hd1 Hi1) as (s2' & E2' & Hi2). rewrite E2 in E2'.
  injection E2' as <-. rewrite <-Hc2 in Hid1.
  destruct (finish_answers (alloc (server_live s2)) p (call_request c) h1 id _ s2 Hp2 eq_refl Hid1 eq_refl)
    as (s3 & E3 & Hid3 & Hres3).
  destruct (finish_inv alloc p _ s2 Ha Hw2 Hi2) as (s3' & E3' & Hi3). rewrite E3 in E3'. injection E3' as <-.
  destruct (deliver_answers id _ _ s3 Hid3 eq_refl Hi3) as (s4 & E4 & Hid4 & Hres4).
  destruct (deliver_inv id _ _ s3 Hid3 eq_refl Hi3) as (s4' & E4' & Hi4). rewrite E4 in E4'. injection E4' as <-.
  destruct (client_consumes id _ _ s4 Hid4 eq_refl Hi4) as (s5 & E5 & Hres5).
  exists s5. split; [|by rewrite Hres5, Hres4, Hres3, Hres2].
  rewrite run_cons, (live_step s (Accept id k) s1 (inv_crashed _ Hi) eq_refl E1).
  rewrite run_cons, (live_step s1 (ServerNext k true alloc) s2 (inv_crashed _ Hi1) eq_refl)
    by (cbn [exec_live]; by rewrite Hd1, E2).
  rewrite run_cons, (live_step s2 (UserFinish p alloc) s3 (inv_crashed _ Hi2) eq_refl)
    by (cbn [exec_live]; rewrite Hw2; cbn [mbind option_bind]; by rewrite E3).
  rewrite run_cons, (live_step s3 (Deliver id) s4 (inv_crashed _ Hi3) eq_refl)
    by (cbn [exec_live]; rewrite Hid3; cbn [mbind option_bind call_progress advance]; by rewrite E4).
  rewrite run_cons, (live_step s4 (ClientNext id) s5 (inv_crashed _ Hi4) eq_refl); [done|].
  cbn [exec_live]. rewrite Hid4. cbn [mbind option_bind call_progress advance].
  by rewrite E5.
Qed.
End Calls.

(** ** Properties *)

(** C19: unary calls from the client to the server and back are neither mixed up nor
    lost, with any number of calls at once, whose handlers and tags are reused. No
    handler is used after it was freed and no tag is unknown. The server's user is
    asked once for a call, with the request that was sent; the client's callback is
    called at most once for a call, and unless gRPC has given it up, with the answer
    of the server's user to the request of that call, which it was asked for. A call
    in flight is brought to its end by five steps once a handler waits for it. *)
Theorem responses_reach_their_client {Request Response Status} no_request no_response no_status
    (answer : Request → Status * option Response) s :
  reachable (λ s, s = init) (exec_step_ok (restrict sends_once
    (exec no_request no_response no_status answer)) action_ok) s →
  crashed s = None ∧ NoDup (requests s).*1 ∧ NoDup (results s).*1 ∧
  (∀ id r, (id, r) ∈ requests s → ∃ c, calls s !! id = Some c ∧ call_request c = r) ∧
  (∀ id r, (id, r) ∈ results s → ∃ c, calls s !! id = Some c ∧
    (gave_up c = true ∨
     r = answer_result no_response answer (call_request c) ∧ (id, call_request c) ∈ requests s)) ∧
  (∀ alloc id c k, allocator_ok alloc → server_shutdown s = false → calls s !! id = Some c →
    call_progress c = InFlight → handler_waits s k c → ∃ ls s',
    run (restrict sends_once (exec no_request no_response no_status answer)) s ls = Some s' ∧
    length ls = 5 ∧ results s' = results s ++ [(id, answer_result no_response answer (call_request c))]).
Proof.
  intros Hr. apply unary_reach_inv in Hr as Hi. pose proof Hi as [Hs Hcl Hq Hcr].
  split_and!; [done|apply Hs|apply Hcl| | |].
  - intros id r Hin. destruct (so_logged _ _ _ _ _ _ Hs id r Hin) as [(c & ? & ? & _) _]. by exists c.
  - intros id r Hin. destruct (cl_result _ _ _ _ _ _ Hcl id r Hin) as (c & Hid & Hc & Hh).
    exists c. split; [done|]. specialize (Hq id c Hid). rewrite Hc in Hq.
    destruct Hh as [?| ->]; [by left|]. destruct Hq; [by left|by right].
  - intros alloc id c k Ha Hsh Hid Hc Hw.
    destruct (call_completes no_request no_response no_status answer alloc s id c k Ha Hi Hsh Hid Hc Hw) as (p & s' & ? & ?).
    by eexists _, s'.
Qed.

(** The clock of a test: the answer to a number is a text of that length. *)
Definition stars (n : nat) : nat * option string :=
  (0, Some (Nat.iter n (String.append "*") "")).

Abbreviation exec_stars := (exec 0 "" 0 stars).

(** Two calls at once; the second one is answered first. *)
Definition crossing : list (action (Request := nat) (Status := nat)) :=
  [Register 7 next_address; MakeRpc 7 next_address; Send 1%N 3 next_address; MakeRpc 7 next_address;
   Send 3%N 5 next_address; Accept 0 2%N; ServerNext 2%N true next_address; Accept 1 3%N;
   ServerNext 3%N true next_address; UserFinish 2%N next_address; Deliver 1; UserFinish 1%N next_address;
   ClientNext 1; Deliver 0; ClientNext 0].

Lemma responses_reach_their_client_witness :
  ∃ s, run (restrict sends_once exec_stars) init crossing = Some s ∧ crashed s = None ∧
    NoDup (results s).*1 ∧ results s = [(1, (0, "*****")); (0, (0, "***"))].
Proof.
  assert (match run (restrict sends_once exec_stars) init crossing with
    | Some s => bool_decide (results s = [(1, (0, "*****")); (0, (0, "***"))])
    | None => false end = true) as Hc by (vm_compute; reflexivity).
  destruct (run (restrict sends_once exec_stars) init crossing) as [s|] eqn:Hr; [|discriminate Hc].
  exists s. apply bool_decide_eq_true_1 in Hc.
  destruct (responses_reach_their_client 0 "" 0 stars s) as (H1 & _ & H2 & _).
  - eapply (run_reachable_ok (restrict sends_once exec_stars) action_ok _ init crossing); [reflexivity| |exact Hr].
    unfold crossing. repeat constructor; intros used; apply next_address_fresh.
  - split_and!; [exact eq_refl|exact H1|exact H2|exact Hc].
Defined.

(** A handler of the client must not be sent twice: the first answer frees the
    connection that the second one is written to. *)
Theorem second_send_uses_freed_handler :
  ∃ ls s, Forall (action_ok (Request := nat) (Status := nat)) ls ∧
    run exec_stars init ls = Some s ∧ crashed s = Some use_after_free.
Proof.
  set (ls := [MakeRpc 7 next_address; Send 1%N 3 next_address; Send 1%N 5 next_address;
    GiveUp 0 1; GiveUp 1 1; Deliver 0; ClientNext 0; Deliver 1]).
  assert (match run exec_stars init ls with
    | Some s => bool_decide (crashed s = Some use_after_free) | None => false end = true) as Hc
    by (vm_compute; reflexivity).
  destruct (run exec_stars init ls) as [s|] eqn:Hr; [|discriminate Hc].
  exists ls, s. split_and!; [|done|by apply bool_decide_eq_true_1 in Hc].
  repeat constructor; intros used; apply next_address_fresh.
Qed.

End UnaryCalls.
